(* ===== verification/_CoqProject ===== *)
-Q . S2P
Prelude.v
CbpfInsn.v
CbpfValidate.v
CbpfFilter.v
CbpfSpec.v
CbpfValidateProof.v
CbpfFilterProof.v
Cbpf.v
CslabWord.v
CslabStorage.v
Cslab.v
SlabSpec.v
CslabProof.v
CslabIter.v
SlabKeys.v
CslabIterProof.v
SlabInterface.v
CslabProps.v
CslabCorrect.v
CslabIterCorrect.v
RcuCslab.v
RcuHeap.v
RcuSystem.v
RcuInv.v
RcuSafe.v
RcuSafeMut.v
RcuDrain.v
RcuCorrect.v
RcuReclaim.v
RcuWriter.v
RcuBox.v
RcuBoxSpec.v
RcuBoxProof.v
RcuBoxSwap.v
RcuBoxSwapProof.v
RcuBoxEpoch.v
RcuBoxEpochProof.v
RcuBoxCorrect.v
RcuGuarded.v
RcuGuardedProof.v
RcuGuardedCorrect.v
NetDefs.v
NetText.v
NetChecksum.v
RsaSign.v
ExtStd.v
ExtFdCorrect.v
ExtUnix.v
ExtUnixCorrect.v
ExtTokio.v
ExtTokioCorrect.v
ExtBytes.v
ExtBytesCorrect.v
Weak.v
WeakCslab.v
WeakSystem.v
WeakInv.v
WeakWriter.v
WeakReader.v
WeakWriterOps.v
WeakReaderOps.v
WeakSysInv.v
WeakSteps.v
WeakExec.v
WeakAlone.v
WeakBound.v
WeakCorrect.v
RcuWeak.v
RcuWeakProto.v
RcuWeakRel.v
RcuWeakSim.v
RcuWeakOwner.v
RcuWeakOwnerOps.v
RcuWeakAdvance.v
RcuWeakDrop.v
RcuWeakEnd.v
RcuWeakCorrect.v
RcuWeakItems.v
RcuWeakProps.v
CslabTests.v
