(* ===== verification/Prelude.v ===== *)
(** * Verification of zpr-utils

    The repository holds five Rust crates.  This development models them
    definition by definition, in the order and with the names of the source, and
    proves what they are meant to do.  This file is its prelude: results of Rust
    computations, machine integers, the lemmas and notations that the components
    share.

    ** The program and the files

    cbpf-rs/src/lib.rs: classic BPF.
    - CbpfInsn.v: [BpfInsn], [bpf_code]; CbpfValidate.v: [BpfError],
      [do_validate], [validate_with_flags], [new_unvalidated], the conversions
      from pcap; CbpfFilter.v: [filter_slice] and the unchecked packet loads,
      the [match] as a list of arms.
    - CbpfSpec.v: operations as an inductive type with their encoding, the
      verdict of validation, and a semantics by structural recursion, written
      apart from the code.  CbpfValidateProof.v, CbpfFilterProof.v: the code
      implements it, arm by arm.  Cbpf.v: the theorems.

    cslab/src/lib.rs: a concurrent slab, and an RCU-friendly one on it.
    - CslabWord.v, CslabStorage.v: the words of the bitmap, [Entry],
      [CslabStorage], its layout, the lookups; Cslab.v: [Cslab], [VacantEntry];
      CslabIter.v: [Iter], [ExclIter], [CslabReader], the drop of the storage.
    - SlabSpec.v: a slab as finite maps of present and pending items and a stack
      of free indices.  CslabProof.v: the refinement.  SlabKeys.v,
      CslabIterProof.v: scans as double-ended queues.  SlabInterface.v: the
      class [SlabLaws], which [Cslab] implements and [RcuCslab] uses.
      CslabProps.v, CslabCorrect.v, CslabIterCorrect.v: the theorems.
    - RcuCslab.v: [RcuCslabGen], [RcuCslabReader], [RcuCslab], [RcuIterMut],
      [RcuEntry], [VacantRcuEntry] over a heap of reference counts; RcuSystem.v:
      programs that use them.  RcuHeap.v, RcuInv.v, RcuSafe.v, RcuSafeMut.v,
      RcuDrain.v: the invariant and its preservation.  RcuCorrect.v,
      RcuReclaim.v, RcuWriter.v: the theorems.
    - Weak.v: C++20 release-acquire and relaxed accesses and data races;
      WeakCslab.v: the operations of the slab, access by access, with the
      orderings of the source; WeakSystem.v: programs that use them from any
      number of threads and keep the contract of [mark_removed] and
      [finalize_remove].  WeakInv.v to WeakBound.v: the invariant, the two
      sides, the steps.  WeakCorrect.v: the theorems.
    - RcuWeak.v: [RcuCslab], [RcuCslabReader]s on any threads and the drops of
      [RcuCslabGen]s on that memory, access by access, with the orderings of
      [Arc] and [Mutex].  RcuWeakProto.v: the invariant of the counts.
      RcuWeakRel.v: the relation to a program of WeakSystem.v.  RcuWeakSim.v (the
      readers), RcuWeakOwner.v, RcuWeakOwnerOps.v, RcuWeakAdvance.v (the
      [RcuCslab]), RcuWeakDrop.v, RcuWeakEnd.v (the drops): that each step is
      simulated.  RcuWeakCorrect.v: all of them.  RcuWeakItems.v: what it says
      of the memory.  RcuWeakProps.v: the theorems.

    rcu/src/rcu.rs: [RcuBox], for each of the five features.
    - RcuBox.v: the interface [RcuBoxOps], and the boxes on [RwLock] and
      [Mutex<Arc<T>>]; RcuBoxSwap.v: on aarc and arc-swap; RcuBoxEpoch.v: on
      crossbeam-epoch.  RcuBoxSpec.v: the specification, an atomic register that
      keeps the versions its guards pin, and the class [RcuBoxLaws].
      RcuBoxProof.v, RcuBoxSwapProof.v, RcuBoxEpochProof.v: the instances.
      RcuBoxCorrect.v: the theorems, proved from the class and stated of the
      five implementations.
    - RcuGuarded.v: [get_guarded], [find_guarded] and [RcuCslabEntryGuard], a
      reader of an [RcuCslab] in a box, over both classes.  RcuGuardedProof.v,
      RcuGuardedCorrect.v: its invariant and theorem.

    zpr-utils/src: NetDefs.v, NetText.v and NetChecksum.v (net_defs.rs: addresses
    and numbers, their text, checksums), RsaSign.v (rsa_sign.rs).

    zpr-ext/src: ExtStd.v (std/cell.rs, std/vec.rs, std/os/fd.rs), ExtUnix.v
    (std/os/unix.rs), ExtTokio.v (tokio.rs), ExtBytes.v (bytes.rs, zerocopy.rs,
    std/net.rs, std/mem.rs, std/num.rs, socket2.rs), with ExtFdCorrect.v,
    ExtUnixCorrect.v, ExtTokioCorrect.v, ExtBytesCorrect.v.

    CslabTests.v: the unit tests and the loom tests of cslab/src/lib.rs as scripts
    on the model, which the kernel runs, the loom tests in every interleaving.
    The unit tests of the other crates are in CbpfFilter.v, RcuBox.v, NetDefs.v,
    NetChecksum.v, RsaSign.v and ExtUnix.v, with what they test.

    ** What the theorems show

    - cBPF (Cbpf.v): an accepted program never has undefined behaviour or
      panics, on any packet; it computes the reference semantics, and terminates
      unless backward jumps are allowed; validation returns exactly the
      specified verdict; the fuzz targets can find no failure.
    - The slab (CslabCorrect.v, CslabIterCorrect.v): it refines its
      specification over every sequence of operations, failures included; its
      layout is in bounds; iterating is exact; every item that is inserted is
      dropped or handed back once.
    - The slab under concurrency (WeakCorrect.v): with the orderings of the source
      no access races and no assertion fails; what stale reads may answer; with
      any weaker ordering a reader's access does race; every operation is
      wait-free.  (A lemma says that the two models of the operations, here and
      in Cslab.v, agree when they run alone.)
    - [RcuCslab] on the same memory (RcuWeakProps.v): no access races, no count
      underflows, nothing is used after it is freed; it keeps the contract of
      the slab, by a simulation; an item that a reader has found stays; how
      stale the flag that a reader loads may be; a new reader finds exactly the
      items that are present.
    - [RcuCslab] (RcuCorrect.v, RcuReclaim.v, RcuWriter.v): no interleaving of
      calls and drops misbehaves; a reader's items stay; generations are
      finalized in order; every item is dropped once, all of them at the end;
      drops terminate; a failed removal poisons the lock for good, for the
      operations that take it and for no other.
    - [RcuBox] (RcuBoxCorrect.v): each implementation is an atomic register; a
      guard pins its value; old values are dropped at most once, after their
      guards.  RcuGuardedCorrect.v: an entry guard keeps its entry.
    - zpr-utils: conversions round-trip and texts are unambiguous; the checksum is the RFC's and
      validates; loading and signing.  zpr-ext: descriptors are owned once and
      survive being sent; values round-trip through buffers; when asynchronous
      sends return, and when receives do not.

    ** How it is modelled

    - A Rust computation is an [outcome]: it returns, panics, has undefined
      behaviour, or runs out of fuel.  Integers are [Z]s in their range, a plain
      operator panics on overflow ([add_u], [sub_u]) and [debug_assert!]s are
      checked: the build is one with overflow checks.  [usize] has 64 bits.
      An [unsafe] operation whose precondition fails is [UB].
    - Loops without a structural measure take fuel.  The interpreter's is the
      number of instructions when jumps are forward; a scan's is the number of
      bitmap words and one; the drop of a generation has three steps per
      generation alive; the retry loops of tokio.rs take any.  Theorems state
      that the fuel is enough, or, for code that can loop for ever, that none is.
    - Concurrency has two levels.  In WeakSystem.v and RcuWeak.v each memory
      access is a step and loads return what C++20 allows; a view says what
      happens before, the lock and the counts pass views on, and the drop of a
      generation has a view of its own.  In RcuSystem.v and RcuGuarded.v each
      call is a step, a drop of a generation is one step per [task], and what a
      reader's load of a flag may return is bounded by [may_load]: a flag may be
      stale only for items whose removal is pending in the reader's generation
      or a later one.  [RcuWeakProps.stale_flags_bounded] shows this bound on
      the memory, between two critical sections.
    - The simulation of RcuWeakRel.v: to the slab, the [RcuCslab] and its readers
      are readers; one that has been dropped stays one until its generation is
      finalized, since only then is its view known to be in the finalizer's.
      Removals are acknowledged by the [RcuCslab] when it unlocks, and by the
      readers of a generation since they are clones of it or come after.
    - Locks are poisoned by a panic under them, and a call on a poisoned lock
      panics.  A call that would have to wait is one that the program cannot
      make ([None]).
    - The implementations of [RcuBox] differ in a [policy]: whether reads fail
      on a poisoned lock, whether a panic of the closure of [update] poisons
      one, and whether a value is dropped as soon as no guard is on it.
    - Third-party code is a parameter with laws that state its documentation:
      ip4sum, libc and the kernel, tokio, bytes, zerocopy, socket2, aarc,
      arc-swap, crossbeam-epoch, pcap, pem-rfc7468 and aws-lc-rs.  The laws are
      met by a concrete instance where a theorem rests on them.

    ** Not modelled

    - Derived implementations, text with a width or a precision, and the [Error]
      types that carry nothing; of the tests, [send_sync_bounds], which only the
      compiler checks, and the one of tokio.rs, which sleeps and spawns a task.
    - The allocator: an allocation succeeds.  (The source does not check it; see
      the findings.)
    - The retries of [fetch_update] under contention, in the epoch box.
    - Access by access: [iter_mut] and its entries, [clear] and poisoned locks,
      which RcuSystem.v has with atomic calls; the count and the
      freeing of the storage itself.
    - The macOS variants, which are compiled for another target. *)

From Stdlib Require Export ZArith Lia Bool Btauto.
From stdpp Require Export gmap numbers list functions prelude.

#[global] Open Scope Z_scope.

(** ** Results of Rust computations

    [result] is Rust's [Result].  [outcome] is the result of running a piece of
    Rust: it returns, it panics (a failed [assert!], an [unwrap] of an error,
    an out-of-range index, an arithmetic overflow in a build that checks for
    it), or it has undefined behaviour (an [unsafe] operation whose
    precondition does not hold).  [OutOfFuel] is the result of a loop cut off by
    the bound on its iterations. *)

Inductive result (A E : Type) : Type :=
| Ok (a : A)
| Err (e : E).
Arguments Ok {A E} _.
Arguments Err {A E} _.

Inductive outcome (A : Type) : Type :=
| Ret (a : A)
| Panic
| UB
| OutOfFuel.
Arguments Ret {A} _.
Arguments Panic {A}.
Arguments UB {A}.
Arguments OutOfFuel {A}.

#[global] Instance outcome_ret : MRet outcome := fun A a => Ret a.
#[global] Instance outcome_bind : MBind outcome := fun A B f m =>
  match m with
  | Ret a => f a
  | Panic => Panic
  | UB => UB
  | OutOfFuel => OutOfFuel
  end.

#[global] Instance result_eq_dec A E `{EqDecision A, EqDecision E} : EqDecision (result A E).
Proof. solve_decision. Defined.
#[global] Instance outcome_eq_dec A `{EqDecision A} : EqDecision (outcome A).
Proof. solve_decision. Defined.

(** Computations that update a state of type [S]; the state survives a panic. *)
Definition stateful (S A : Type) : Type := S -> outcome A * S.

#[global] Instance stateful_ret S : MRet (stateful S) := fun A a s => (Ret a, s).
#[global] Instance stateful_bind S : MBind (stateful S) := fun A B f m s =>
  match m s with
  | (Ret a, s') => f a s'
  | (Panic, s') => (Panic, s')
  | (UB, s') => (UB, s')
  | (OutOfFuel, s') => (OutOfFuel, s')
  end.

Lemma stateful_bind_Ret {S A B} (f : A -> stateful S B) m s a s' :
  m s = (Ret a, s') -> mbind f m s = f a s'.
Proof. intros Hm. cbv [mbind stateful_bind]. by rewrite Hm. Qed.

Declare Scope rust_scope.
Delimit Scope rust_scope with rust.
Notation "'assert!' b ';;' k" := (if b then k else Panic)
  (at level 100, b at level 60, k at level 200, right associativity) : rust_scope.
Notation "'unsafe_requires' b ';;' k" := (if b then k else UB)
  (at level 100, b at level 60, k at level 200, right associativity) : rust_scope.
#[global] Open Scope rust_scope.

Lemma bind_Ret {A B} (a : A) (f : A -> outcome B) : mbind f (Ret a) = f a.
Proof. reflexivity. Qed.

Lemma bind_returns {A B} (m : outcome A) (f : A -> outcome B) b :
  mbind f m = Ret b -> exists a, m = Ret a /\ f a = Ret b.
Proof. destruct m; naive_solver. Qed.

(** ** Machine integers

    A [w]-bit unsigned integer is a [Z] in [[0, 2^w)]; [usize] is 64 bits wide
    (the crates are built for LP64 targets). *)

Definition is_uint (w x : Z) : Prop := 0 <= x < 2 ^ w.
Abbreviation is_u8 := (is_uint 8).
Abbreviation is_u16 := (is_uint 16).
Abbreviation is_u32 := (is_uint 32).
Abbreviation is_usize := (is_uint 64).

#[global] Instance is_uint_dec w x : Decision (is_uint w x).
Proof. unfold is_uint. apply _. Defined.

(** Closed decidable goals, by computation. *)
Ltac by_decide := refine (bool_decide_unpack _ _); vm_compute; exact I.

Definition u32_MAX : Z := 2 ^ 32 - 1.
Definition usize_MAX : Z := 2 ^ 64 - 1.
Definition isize_MAX : Z := 2 ^ 63 - 1.
Definition isize_MIN : Z := - 2 ^ 63.
Definition usize_BITS : Z := 64.

(** [wrap w x] is the value of [x as uw] and of the [wrapping_*] operations. *)
Definition wrap (w x : Z) : Z := x mod 2 ^ w.

(** [x as isize] for a [usize]. *)
Definition as_isize (x : Z) : Z :=
  let y := wrap 64 x in if y <? 2 ^ 63 then y else y - 2 ^ 64.

(** The plain operators, in a build with overflow checks. *)
Definition add_u (w a b : Z) : outcome Z :=
  if a + b <? 2 ^ w then Ret (a + b) else Panic.
Definition sub_u (w a b : Z) : outcome Z :=
  if b <=? a then Ret (a - b) else Panic.
Definition add_isize (a b : Z) : outcome Z :=
  if (isize_MIN <=? a + b) && (a + b <=? isize_MAX) then Ret (a + b) else Panic.
Definition sub_isize (a b : Z) : outcome Z :=
  if (isize_MIN <=? a - b) && (a - b <=? isize_MAX) then Ret (a - b) else Panic.

Create HintDb rust.

Lemma wrap_bound w x : 0 <= w -> is_uint w (wrap w x).
Proof. intros Hw. apply Z.mod_pos_bound, Z.pow_pos_nonneg; lia. Qed.

Lemma wrap_small w x : is_uint w x -> wrap w x = x.
Proof. intros H. apply Z.mod_small, H. Qed.

Lemma add_u_Ret w a b : a + b < 2 ^ w -> add_u w a b = Ret (a + b).
Proof. intros H. unfold add_u. by rewrite (proj2 (Z.ltb_lt _ _) H). Qed.

Lemma sub_u_Ret w a b : b <= a -> sub_u w a b = Ret (a - b).
Proof. intros H. unfold sub_u. by rewrite (proj2 (Z.leb_le _ _) H). Qed.

Lemma as_isize_small x : 0 <= x <= isize_MAX -> as_isize x = x.
Proof.
  unfold isize_MAX, as_isize. intros H. rewrite wrap_small by (unfold is_uint; lia).
  destruct (Z.ltb_spec x (2 ^ 63)); lia.
Qed.

Lemma add_isize_Ret a b :
  isize_MIN <= a + b <= isize_MAX -> add_isize a b = Ret (a + b).
Proof.
  intros [H1 H2]. unfold add_isize.
  by rewrite (proj2 (Z.leb_le _ _) H1), (proj2 (Z.leb_le _ _) H2).
Qed.

Lemma sub_isize_Ret a b :
  isize_MIN <= a - b <= isize_MAX -> sub_isize a b = Ret (a - b).
Proof.
  intros [H1 H2]. unfold sub_isize.
  by rewrite (proj2 (Z.leb_le _ _) H1), (proj2 (Z.leb_le _ _) H2).
Qed.

#[export] Hint Resolve wrap_bound : rust.

(** ** Bit operations *)

Lemma land_shiftl_low a b n : 0 <= n -> 0 <= b < 2 ^ n -> Z.land (Z.shiftl a n) b = 0.
Proof.
  intros Hn Hb. apply Z.bits_inj'. intros i Hi.
  rewrite Z.land_spec, Z.shiftl_spec, Z.bits_0 by lia.
  destruct (Z.ltb_spec i n); [by rewrite Z.testbit_neg_r by lia|].
  rewrite <- (Z.mod_small b (2 ^ n)), Z.mod_pow2_bits_high by lia. btauto.
Qed.

(** Or-ing a value shifted left with one that fits in the freed bits adds. *)
Lemma lor_shiftl_add a b n :
  0 <= n -> 0 <= b < 2 ^ n -> Z.lor (Z.shiftl a n) b = a * 2 ^ n + b.
Proof.
  intros Hn Hb. rewrite <- Z.shiftl_mul_pow2 by lia.
  by rewrite Z.add_nocarry_lxor, Z.lxor_lor by auto using land_shiftl_low.
Qed.

Lemma is_uint_testbit w x : 0 <= w ->
  is_uint w x <-> 0 <= x /\ forall i, w <= i -> Z.testbit x i = false.
Proof.
  intros Hw. split.
  - intros Hx. split; [apply Hx|]. intros i Hi.
    rewrite <- (Z.mod_small x (2 ^ w)) by exact Hx. apply Z.mod_pow2_bits_high. lia.
  - intros [Hx Hbits]. replace x with (x mod 2 ^ w).
    { by apply wrap_bound. }
    apply Z.bits_inj'. intros i Hi. destruct (Z.ltb_spec i w).
    + apply Z.mod_pow2_bits_low. lia.
    + rewrite Z.mod_pow2_bits_high by lia. by rewrite Hbits.
Qed.

Lemma uint_land w x y : 0 <= w -> is_uint w x -> 0 <= y -> is_uint w (Z.land x y).
Proof.
  intros Hw [Hx Hb]%is_uint_testbit Hy; [|done]. apply is_uint_testbit; [done|].
  split; [by apply Z.land_nonneg; left|].
  intros i Hi. by rewrite Z.land_spec, Hb.
Qed.

Lemma uint_lor w x y : 0 <= w -> is_uint w x -> is_uint w y -> is_uint w (Z.lor x y).
Proof.
  intros Hw [Hx Hb]%is_uint_testbit [Hy Hb']%is_uint_testbit; [|done..].
  apply is_uint_testbit; [done|]. split; [by apply Z.lor_nonneg|].
  intros i Hi. by rewrite Z.lor_spec, Hb, Hb'.
Qed.

Lemma uint_lxor w x y : 0 <= w -> is_uint w x -> is_uint w y -> is_uint w (Z.lxor x y).
Proof.
  intros Hw [Hx Hb]%is_uint_testbit [Hy Hb']%is_uint_testbit; [|done..].
  apply is_uint_testbit; [done|]. split; [by apply Z.lxor_nonneg|].
  intros i Hi. by rewrite Z.lxor_spec, Hb, Hb'.
Qed.

#[export] Hint Resolve uint_land uint_lor uint_lxor : rust.

(** ** Lists *)

Lemma filter_ext_in {A} (P Q : A -> Prop) {HP : forall x, Decision (P x)} {HQ : forall x, Decision (Q x)}
    (l : list A) :
  (forall x, x ∈ l -> P x <-> Q x) -> base.filter P l = base.filter Q l.
Proof.
  induction l as [|x l IH]; intros Hl; [done|]. rewrite !filter_cons.
  assert (P x <-> Q x) as Hx by (apply Hl; by left).
  rewrite IH by (intros y Hy; apply Hl; by right). repeat case_decide; naive_solver.
Qed.

(** How often an element occurs in a list. *)

Definition occ (g : nat) (l : list nat) : nat := length (base.filter (fun x => x = g) l).
Arguments occ : simpl never.

Lemma occ_cons g x l : occ g (x :: l) = ((if decide (x = g) then 1 else 0) + occ g l)%nat.
Proof. unfold occ. rewrite filter_cons. by case_decide. Qed.

Lemma occ_0 g l : occ g l = 0%nat <-> g ∉ l.
Proof.
  unfold occ. rewrite length_zero_iff_nil. split.
  - intros Hn Hg. assert (g ∈ base.filter (fun x => x = g) l) as Hf
      by (by apply list_elem_of_filter). rewrite Hn in Hf. by apply elem_of_nil in Hf.
  - intros Hg. destruct (base.filter (fun x => x = g) l) as [|x l'] eqn:E; [done|].
    assert (x ∈ base.filter (fun x => x = g) l) as Hx by (rewrite E; by left).
    apply list_elem_of_filter in Hx as [-> Hx]. done.
Qed.

#[global] Instance occ_perm g : Proper ((≡ₚ) ==> eq) (occ g).
Proof. intros l l' Hl. unfold occ. by rewrite Hl. Qed.
