(* ===== verification/CbpfInsn.v ===== *)
(** cBPF instructions: [BpfInsn] and the module [bpf_code] of
    cbpf-rs/src/lib.rs. *)

From S2P Require Import Prelude.

(** ** [struct BpfInsn] *)

Record BpfInsn := mkInsn {
  code : Z;   (* u16 *)
  jt : Z;     (* u8 *)
  jf : Z;     (* u8 *)
  k : Z;      (* u32 *)
}.

#[global] Instance BpfInsn_eq_dec : EqDecision BpfInsn.
Proof. solve_decision. Defined.

Definition insn_wf (i : BpfInsn) : Prop :=
  is_u16 (code i) /\ is_u8 (jt i) /\ is_u8 (jf i) /\ is_u32 (k i).

#[global] Instance insn_wf_dec i : Decision (insn_wf i).
Proof. unfold insn_wf. apply _. Defined.

(** [BpfInsn::stmt] and [BpfInsn::jump]. *)
Definition stmt (code k : Z) : BpfInsn := mkInsn code 0 0 k.
Definition jump (code k jt jf : Z) : BpfInsn := mkInsn code jt jf k.

(** ** [mod bpf_code] *)

Module bpf_code.

Definition code_class (code : Z) : Z := Z.land code 0x07.
Definition LD : Z := 0x00.
Definition LDX : Z := 0x01.
Definition ST : Z := 0x02.
Definition STX : Z := 0x03.
Definition ALU : Z := 0x04.
Definition JMP : Z := 0x05.
Definition RET : Z := 0x06.
Definition MISC : Z := 0x07.

Definition code_size (code : Z) : Z := Z.land code 0x18.
Definition W : Z := 0x00.
Definition H : Z := 0x08.
Definition B : Z := 0x10.

Definition valid_code_size (code_size : Z) : bool := negb (code_size =? 0x18).

Definition code_mode (code : Z) : Z := Z.land code 0xe0.
Definition IMM : Z := 0x00.
Definition ABS : Z := 0x20.
Definition IND : Z := 0x40.
Definition MEM : Z := 0x60.
Definition LEN : Z := 0x80.
Definition MSH : Z := 0xa0.

Definition code_op (code : Z) : Z := Z.land code 0xf0.
Definition ADD : Z := 0x00.
Definition SUB : Z := 0x10.
Definition MUL : Z := 0x20.
Definition DIV : Z := 0x30.
Definition OR : Z := 0x40.
Definition AND : Z := 0x50.
Definition LSH : Z := 0x60.
Definition RSH : Z := 0x70.
Definition NEG : Z := 0x80.
Definition MOD : Z := 0x90.
Definition XOR : Z := 0xa0.

Definition JA : Z := 0x00.
Definition JEQ : Z := 0x10.
Definition JGT : Z := 0x20.
Definition JGE : Z := 0x30.
Definition JSET : Z := 0x40.

Definition code_src (code : Z) : Z := Z.land code 0x08.
Definition K : Z := 0x00.
Definition X : Z := 0x08.

Definition code_rval (code : Z) : Z := Z.land code 0x18.
Definition A : Z := 0x10.

Definition code_miscop (code : Z) : Z := Z.land code 0xf8.
Definition TAX : Z := 0x00.
Definition TXA : Z := 0x80.

End bpf_code.

(** [const MEMWORDS] *)
Definition MEMWORDS : Z := 16.

Notation "a .| b" := (Z.lor a b) (at level 50, left associativity) : Z_scope.
Notation "a .& b" := (Z.land a b) (at level 40, left associativity) : Z_scope.
