(* ===== verification/CbpfValidate.v ===== *)
(** Validation of cBPF programs: [BpfError], [BpfProgram::do_validate] and
    [BpfProgram::validate_with_flags] of cbpf-rs/src/lib.rs. *)

From S2P Require Import Prelude CbpfInsn.
Import bpf_code.

Inductive BpfError : Set :=
| ProgramTooLarge
| MissingReturn
| InvalidInstruction
| BadJumpTarget
| BadMemoryAccess
| DivideByZero.

#[global] Instance BpfError_eq_dec : EqDecision BpfError.
Proof. solve_decision. Defined.

(** [struct BpfProgram] *)
Record BpfProgram := mkProgram { insns : list BpfInsn }.

#[global] Instance BpfProgram_eq_dec : EqDecision BpfProgram.
Proof. solve_decision. Defined.

Definition VALIDATE_ALLOW_BACKWARD_JUMPS : Z := 1.

(** What one iteration of the loop of [do_validate] can do: go on, or return
    an error from the function. *)
Definition check : Type := outcome (result unit BpfError).
Definition pass : check := Ret (Ok tt).
Definition fail (e : BpfError) : check := Ret (Err e).

(** The arm of each instruction class. *)

Definition check_size (insn : BpfInsn) (size : Z) : check :=
  if negb (code_size (code insn) =? size) then fail InvalidInstruction else pass.

Definition check_mem (insn : BpfInsn) : check :=
  if negb (code_size (code insn) =? W) then fail InvalidInstruction
  else if k insn >=? MEMWORDS then fail BadMemoryAccess
  else pass.

Definition check_ld (insn : BpfInsn) : check :=
  let mode := code_mode (code insn) in
  if (mode =? IMM) || (mode =? LEN) then check_size insn W
  else if (mode =? ABS) || (mode =? IND) then
    if negb (valid_code_size (code_size (code insn)))
    then fail InvalidInstruction else pass
  else if mode =? MEM then check_mem insn
  else fail InvalidInstruction.

Definition check_ldx (insn : BpfInsn) : check :=
  let mode := code_mode (code insn) in
  if (mode =? IMM) || (mode =? LEN) then check_size insn W
  else if mode =? MSH then check_size insn B
  else if mode =? MEM then check_mem insn
  else fail InvalidInstruction.

Definition check_st (insn : BpfInsn) : check :=
  if negb (code_mode (code insn) =? MEM) || negb (code_size (code insn) =? W)
  then fail InvalidInstruction
  else if k insn >=? MEMWORDS then fail BadMemoryAccess
  else pass.

Definition check_alu (insn : BpfInsn) : check :=
  let op := code_op (code insn) in
  if (op =? ADD) || (op =? SUB) || (op =? MUL) || (op =? OR) || (op =? AND)
     || (op =? XOR) || (op =? LSH) || (op =? RSH) then pass
  else if op =? NEG then
    if negb (code_src (code insn) =? 0) then fail InvalidInstruction else pass
  else if (op =? DIV) || (op =? MOD) then
    if (code_src (code insn) =? K) && (k insn =? 0) then fail DivideByZero else pass
  else fail InvalidInstruction.

(** [i] is the index of the instruction, [len] the length of the program. *)
Definition check_jmp (len flags i : Z) (insn : BpfInsn) : check :=
  from ← add_u 32 i 1;
  let op := code_op (code insn) in
  if op =? JA then
    if negb (code_src (code insn) =? 0) then fail InvalidInstruction
    else if negb (flags .& VALIDATE_ALLOW_BACKWARD_JUMPS =? 0) then
      if wrap 32 (from + k insn) >=? wrap 32 len then fail BadJumpTarget else pass
    else
      rest ← sub_u 32 (wrap 32 len) from;
      if k insn >=? rest then fail BadJumpTarget else pass
  else if (op =? JEQ) || (op =? JGT) || (op =? JGE) || (op =? JSET) then
    rest ← sub_u 32 (wrap 32 len) from;
    if (jt insn >=? rest) || (jf insn >=? rest) then fail BadJumpTarget else pass
  else fail InvalidInstruction.

Definition check_ret (insn : BpfInsn) : check :=
  let rval := code_rval (code insn) in
  if (rval =? A) || (rval =? K) then
    if negb (code insn .& 0xe0 =? 0) then fail InvalidInstruction else pass
  else fail InvalidInstruction.

Definition check_misc (insn : BpfInsn) : check :=
  let op := code_miscop (code insn) in
  if (op =? TAX) || (op =? TXA) then pass else fail InvalidInstruction.

(** The body of the [for] loop. *)
Definition validate_insn (len flags i : Z) (insn : BpfInsn) : check :=
  if negb (code insn .& 0xff00 =? 0) then fail InvalidInstruction
  else
    let class := code_class (code insn) in
    if class =? LD then check_ld insn
    else if class =? LDX then check_ldx insn
    else if (class =? ST) || (class =? STX) then check_st insn
    else if class =? ALU then check_alu insn
    else if class =? JMP then check_jmp len flags i insn
    else if class =? RET then check_ret insn
    else if class =? MISC then check_misc insn
    else fail InvalidInstruction.

(** The loop: [i] is the index of the head of [rest]. *)
Fixpoint validate_loop (len flags i : Z) (rest : list BpfInsn) : check :=
  match rest with
  | [] => pass
  | insn :: rest' =>
      r ← validate_insn len flags i insn;
      match r with
      | Err e => fail e
      | Ok _ => validate_loop len flags (i + 1) rest'
      end
  end.

Definition is_ret (insn : BpfInsn) : bool := code_class (code insn) =? RET.

(** [BpfProgram::do_validate] *)
Definition do_validate (prog : list BpfInsn) (flags : Z) : check :=
  let len := Z.of_nat (length prog) in
  if len >? u32_MAX then fail ProgramTooLarge
  else
    r ← validate_loop len flags 0 prog;
    match r with
    | Err e => fail e
    | Ok _ =>
        match last prog with
        | Some insn => if is_ret insn then pass else fail MissingReturn
        | None => fail MissingReturn
        end
    end.

(** [BpfProgram::validate_with_flags], [BpfProgram::validate] and
    [BpfProgram::new_unvalidated]. *)
Definition validate_with_flags (prog : list BpfInsn) (flags : Z)
  : outcome (result BpfProgram BpfError) :=
  r ← do_validate prog flags;
  match r with
  | Err e => Ret (Err e)
  | Ok _ => Ret (Ok (mkProgram prog))
  end.

Definition validate (prog : list BpfInsn) : outcome (result BpfProgram BpfError) :=
  validate_with_flags prog 0.

Definition new_unvalidated (prog : list BpfInsn) : BpfProgram := mkProgram prog.

(** [Borrow<BpfInsn> for pcap::BpfInstruction] and [From<pcap::BpfProgram>]: the
    crate's instructions have the layout of [BpfInsn], and are those of its own
    compiler. *)
Section pcap.
Context {BpfInstruction PcapProgram : Type} (transmute : BpfInstruction -> BpfInsn)
  (get_instructions : PcapProgram -> list BpfInstruction).

Definition borrow_pcap (insn : BpfInstruction) : BpfInsn := transmute insn.

Definition from_pcap (prog : PcapProgram) : BpfProgram :=
  new_unvalidated (transmute <$> get_instructions prog).
End pcap.
