(* ===== verification/CbpfFilter.v ===== *)
(** The cBPF interpreter: [BpfProgram::filter_slice] of cbpf-rs/src/lib.rs and
    the packet loads it uses.

    The [match] over the instruction code is a list of arms in the order of the
    source; the first arm whose code matches is executed, and the fallthrough
    arm is [unreachable_unchecked()]. *)

From S2P Require Import Prelude CbpfInsn CbpfValidate.
Import bpf_code.

(** ** Packet access *)

Abbreviation packet := (list Z) (only parsing).

Definition packet_len (pkt : packet) : Z := Z.of_nat (length pkt).

(** [slice.get_unchecked(i)] *)
Definition get_unchecked {T} (l : list T) (i : Z) : outcome T :=
  if i <? 0 then UB
  else match l !! Z.to_nat i with
       | Some x => Ret x
       | None => UB
       end.

(** [*slice.get_unchecked_mut(i) = x] *)
Definition set_unchecked {T} (l : list T) (i : Z) (x : T) : outcome (list T) :=
  _ ← get_unchecked l i;
  Ret (<[Z.to_nat i := x]> l).

Definition load_byte (pkt : packet) (addr : Z) : outcome Z := get_unchecked pkt addr.

Definition load_halfword (pkt : packet) (addr : Z) : outcome Z :=
  b0 ← get_unchecked pkt addr;
  b1 ← get_unchecked pkt (addr + 1);
  Ret (wrap 32 (Z.shiftl b0 8) .| b1).

Definition load_word (pkt : packet) (addr : Z) : outcome Z :=
  b0 ← get_unchecked pkt addr;
  b1 ← get_unchecked pkt (addr + 1);
  b2 ← get_unchecked pkt (addr + 2);
  b3 ← get_unchecked pkt (addr + 3);
  Ret (wrap 32 (Z.shiftl b0 24) .| wrap 32 (Z.shiftl b1 16)
       .| wrap 32 (Z.shiftl b2 8) .| b3).

(** ** Machine state: the locals of [filter_slice] *)

Record machine := mkMachine {
  a : Z;          (* u32 *)
  x : Z;          (* u32 *)
  pc : Z;         (* u32 *)
  mem : list Z;   (* [u32; MEMWORDS] *)
}.

#[global] Instance machine_eq_dec : EqDecision machine.
Proof. solve_decision. Defined.

Definition set_a (v : Z) (m : machine) : machine := mkMachine v (x m) (pc m) (mem m).
Definition set_x (v : Z) (m : machine) : machine := mkMachine (a m) v (pc m) (mem m).
Definition set_pc (v : Z) (m : machine) : machine := mkMachine (a m) (x m) v (mem m).
Definition set_mem (l : list Z) (m : machine) : machine := mkMachine (a m) (x m) (pc m) l.

Definition init_machine : machine :=
  mkMachine 0 0 0 (replicate (Z.to_nat MEMWORDS) 0).

(** One iteration of the loop goes on with a new state or breaks with the
    result of the filter. *)
Inductive flow : Type :=
| Continue (m : machine)
| Break (v : Z).

#[global] Instance flow_eq_dec : EqDecision flow.
Proof. solve_decision. Defined.

Definition action : Type := BpfInsn -> packet -> machine -> outcome flow.
Definition arm : Type := Z * action.

Definition continue (m : machine) : outcome flow := Ret (Continue m).
Definition break (v : Z) : outcome flow := Ret (Break v).

(** [BpfProgram::do_jmp]; [unchecked_add] must not overflow. *)
Definition do_jmp (pc : Z) (taken : bool) (insn : BpfInsn) : outcome Z :=
  let target := pc + (if taken then jt insn else jf insn) in
  unsafe_requires (target <? 2 ^ 32) ;; Ret target.

(** ** The arms *)

Definition ret_arms : list arm := [
  (RET .| K, fun insn pkt m => break (k insn));
  (RET .| A, fun insn pkt m => break (a m))
].

(** The bounds check of the packet loads that read [n] bytes at [addr]. *)
Definition ld_arm (n : Z) (load : packet -> Z -> outcome Z)
    (pkt : packet) (addr : Z) (m : machine) : outcome flow :=
  if (addr >? packet_len pkt) || (packet_len pkt - addr <? n) then break 0
  else v ← load pkt addr; continue (set_a v m).

Definition ld_byte_arm (f : Z -> machine) (pkt : packet) (addr : Z) : outcome flow :=
  if addr >=? packet_len pkt then break 0
  else v ← load_byte pkt addr; continue (f v).

Definition ld_arms : list arm := [
  (LD .| W .| ABS, fun insn pkt m => ld_arm 4 load_word pkt (k insn) m);
  (LD .| H .| ABS, fun insn pkt m => ld_arm 2 load_halfword pkt (k insn) m);
  (LD .| B .| ABS, fun insn pkt m => ld_byte_arm (fun v => set_a v m) pkt (k insn));
  (LD .| W .| LEN, fun insn pkt m => continue (set_a (wrap 32 (packet_len pkt)) m));
  (LDX .| W .| LEN, fun insn pkt m => continue (set_x (wrap 32 (packet_len pkt)) m));
  (LD .| W .| IND, fun insn pkt m =>
     ld_arm 4 load_word pkt (wrap 32 (x m + k insn)) m);
  (LD .| H .| IND, fun insn pkt m =>
     ld_arm 2 load_halfword pkt (wrap 32 (x m + k insn)) m);
  (LD .| B .| IND, fun insn pkt m =>
     ld_byte_arm (fun v => set_a v m) pkt (wrap 32 (x m + k insn)));
  (LDX .| B .| MSH, fun insn pkt m =>
     ld_byte_arm (fun v => set_x (wrap 32 (Z.shiftl (v .& 0xf) 2)) m) pkt (k insn));
  (LD .| IMM, fun insn pkt m => continue (set_a (k insn) m));
  (LDX .| IMM, fun insn pkt m => continue (set_x (k insn) m))
].

Definition mem_arms : list arm := [
  (LD .| MEM, fun insn pkt m =>
     v ← get_unchecked (mem m) (k insn); continue (set_a v m));
  (LDX .| MEM, fun insn pkt m =>
     v ← get_unchecked (mem m) (k insn); continue (set_x v m));
  (ST .| MEM, fun insn pkt m =>
     l ← set_unchecked (mem m) (k insn) (a m); continue (set_mem l m));
  (STX .| MEM, fun insn pkt m =>
     l ← set_unchecked (mem m) (k insn) (x m); continue (set_mem l m))
].

(** A conditional jump on [cond], a function of the accumulator and the
    operand. *)
Definition jmp_arm (cond : bool) (insn : BpfInsn) (m : machine) : outcome flow :=
  p ← do_jmp (pc m) cond insn; continue (set_pc p m).

Definition jmp_arms : list arm := [
  (JMP .| JA, fun insn pkt m => continue (set_pc (wrap 32 (pc m + k insn)) m));
  (JMP .| JGT .| K, fun insn pkt m => jmp_arm (a m >? k insn) insn m);
  (JMP .| JGE .| K, fun insn pkt m => jmp_arm (a m >=? k insn) insn m);
  (JMP .| JEQ .| K, fun insn pkt m => jmp_arm (a m =? k insn) insn m);
  (JMP .| JSET .| K, fun insn pkt m => jmp_arm (negb (a m .& k insn =? 0)) insn m);
  (JMP .| JGT .| X, fun insn pkt m => jmp_arm (a m >? x m) insn m);
  (JMP .| JGE .| X, fun insn pkt m => jmp_arm (a m >=? x m) insn m);
  (JMP .| JEQ .| X, fun insn pkt m => jmp_arm (a m =? x m) insn m);
  (JMP .| JSET .| X, fun insn pkt m => jmp_arm (negb (a m .& x m =? 0)) insn m)
].

(** [a << v] on [u32], for [v < 32]. *)
Definition shl32 (a v : Z) : Z := wrap 32 (Z.shiftl a v).

(** The arithmetic arms, once per operand ([x] or [insn.k]) as in the source. *)
Definition div_arm (op : Z -> Z -> Z) (v : Z) (m : machine) : outcome flow :=
  if v =? 0 then break 0 else continue (set_a (op (a m) v) m).

Definition shift_arm (op : Z -> Z -> Z) (v : Z) (m : machine) : outcome flow :=
  if v <? 32 then continue (set_a (op (a m) v) m)
  else continue (set_a 0 m).

Definition alu_x_arms : list arm := [
  (ALU .| ADD .| X, fun insn pkt m => continue (set_a (wrap 32 (a m + x m)) m));
  (ALU .| SUB .| X, fun insn pkt m => continue (set_a (wrap 32 (a m - x m)) m));
  (ALU .| MUL .| X, fun insn pkt m => continue (set_a (wrap 32 (a m * x m)) m));
  (ALU .| DIV .| X, fun insn pkt m => div_arm Z.div (x m) m);
  (ALU .| MOD .| X, fun insn pkt m => div_arm Z.modulo (x m) m);
  (ALU .| AND .| X, fun insn pkt m => continue (set_a (Z.land (a m) (x m)) m));
  (ALU .| OR .| X, fun insn pkt m => continue (set_a (Z.lor (a m) (x m)) m));
  (ALU .| XOR .| X, fun insn pkt m => continue (set_a (Z.lxor (a m) (x m)) m));
  (ALU .| LSH .| X, fun insn pkt m => shift_arm shl32 (x m) m);
  (ALU .| RSH .| X, fun insn pkt m => shift_arm Z.shiftr (x m) m)
].

Definition alu_k_arms : list arm := [
  (ALU .| ADD .| K, fun insn pkt m => continue (set_a (wrap 32 (a m + k insn)) m));
  (ALU .| SUB .| K, fun insn pkt m => continue (set_a (wrap 32 (a m - k insn)) m));
  (ALU .| MUL .| K, fun insn pkt m => continue (set_a (wrap 32 (a m * k insn)) m));
  (ALU .| DIV .| K, fun insn pkt m => div_arm Z.div (k insn) m);
  (ALU .| MOD .| K, fun insn pkt m => div_arm Z.modulo (k insn) m);
  (ALU .| AND .| K, fun insn pkt m => continue (set_a (Z.land (a m) (k insn)) m));
  (ALU .| OR .| K, fun insn pkt m => continue (set_a (Z.lor (a m) (k insn)) m));
  (ALU .| XOR .| K, fun insn pkt m => continue (set_a (Z.lxor (a m) (k insn)) m));
  (ALU .| LSH .| K, fun insn pkt m => shift_arm shl32 (k insn) m);
  (ALU .| RSH .| K, fun insn pkt m => shift_arm Z.shiftr (k insn) m)
].

Definition misc_arms : list arm := [
  (ALU .| NEG, fun insn pkt m => continue (set_a (wrap 32 (- a m)) m));
  (MISC .| TAX, fun insn pkt m => continue (set_x (a m) m));
  (MISC .| TXA, fun insn pkt m => continue (set_a (x m) m))
].

Definition filter_arms : list arm :=
  ret_arms ++ ld_arms ++ mem_arms ++ jmp_arms ++ alu_x_arms ++ alu_k_arms ++ misc_arms.

Fixpoint find_arm (c : Z) (arms : list arm) : option action :=
  match arms with
  | [] => None
  | (c', act) :: arms' => if c =? c' then Some act else find_arm c arms'
  end.

(** ** The loop *)

(** One iteration: fetch, increment [pc], execute the matching arm. *)
Definition filter_step (prog : BpfProgram) (pkt : packet) (m : machine) : outcome flow :=
  insn ← get_unchecked (insns prog) (pc m);
  unsafe_requires (pc m + 1 <? 2 ^ 32) ;;
  match find_arm (code insn) filter_arms with
  | Some act => act insn pkt (set_pc (pc m + 1) m)
  | None => UB
  end.

(** [fuel] bounds the number of iterations. *)
Fixpoint filter_loop (fuel : nat) (prog : BpfProgram) (pkt : packet) (m : machine)
  : outcome Z :=
  match fuel with
  | O => OutOfFuel
  | S fuel' =>
      step ← filter_step prog pkt m;
      match step with
      | Break v => Ret v
      | Continue m' => filter_loop fuel' prog pkt m'
      end
  end.

Definition filter_slice (fuel : nat) (prog : BpfProgram) (pkt : packet) : outcome Z :=
  filter_loop fuel prog pkt init_machine.

(** ** The fuzz targets *)

(** [struct FuzzIn] *)
Record FuzzIn := mkFuzzIn { fz_insn : list BpfInsn; fz_pkt : packet }.

(** fuzz_targets/filter.rs; [fuel] bounds the iterations of the filter. *)
Definition fuzz_filter (fuel : nat) (fuzz_in : FuzzIn) : outcome unit :=
  r ← validate (fz_insn fuzz_in);
  match r with
  | Ok prog => _ ← filter_slice fuel prog (fz_pkt fuzz_in); Ret tt
  | Err _ => Ret tt
  end.

(** fuzz_targets/validate.rs *)
Definition fuzz_validate (program : list BpfInsn) : outcome unit := _ ← validate program; Ret tt.

(** ** The unit tests

    [compile] is [Capture::compile] of the filter "ip src 1.2.3.4", optimized. *)

Section tests.
Context {BpfInstruction PcapProgram : Type} (transmute : BpfInstruction -> BpfInsn)
  (get_instructions : PcapProgram -> list BpfInstruction) (compile : PcapProgram).

(** The packet: [packet[26..30]] is [src]. *)
Definition test_packet (src : packet) : packet :=
  [0; 0; 0; 0; 0; 0; 0; 0;  0; 0; 0; 0; 0x08; 0x00; 0; 0;  0; 0; 0; 0]
  ++ [0; 0; 0; 0; 0; 0] ++ src.

Definition basic_test : outcome unit :=
  let prog := from_pcap transmute get_instructions compile in
  let fuel := length (insns prog) in
  n ← filter_slice fuel prog (test_packet [1; 2; 3; 4]);
  assert! (1500 <=? n) ;;
  n ← filter_slice fuel prog (test_packet [5; 6; 7; 8]);
  assert! (n =? 0) ;;
  Ret tt.

Definition borrow_test : outcome unit :=
  match borrow_pcap transmute <$> get_instructions compile with
  | my_insn :: _ => assert! bool_decide (my_insn = stmt (LD .| H .| ABS) 12) ;; Ret tt
  | [] => Panic
  end.

Definition validate_test : outcome (result unit BpfError) :=
  r ← validate (borrow_pcap transmute <$> get_instructions compile);
  Ret (match r with Ok _ => Ok tt | Err err => Err err end).

Definition invalid_test : outcome unit :=
  r ← validate [stmt (RET .| LEN) 0];
  match r with
  | Ok _ => Panic
  | Err err => assert! bool_decide (err = InvalidInstruction) ;; Ret tt
  end.
End tests.

(** What libpcap compiles that filter to: ldh [12]; jeq #0x800, 0, 3; ld [26];
    jeq #0x1020304, 0, 1; ret #262144; ret #0. *)
Definition ip_src_prog : list BpfInsn :=
  [stmt (LD .| H .| ABS) 12; jump (JMP .| JEQ .| K) 0x800 0 3;
   stmt (LD .| W .| ABS) 26; jump (JMP .| JEQ .| K) 0x01020304 0 1;
   stmt (RET .| K) 262144; stmt (RET .| K) 0].

Example cbpf_tests_pass :
  basic_test id id ip_src_prog = Ret tt
  /\ borrow_test id id ip_src_prog = Ret tt
  /\ validate_test id id ip_src_prog = Ret (Ok tt)
  /\ invalid_test = Ret tt.
Proof. repeat split; vm_compute; reflexivity. Qed.

(** ** Facts about the building blocks *)

Lemma get_unchecked_lookup {T} (l : list T) i y :
  0 <= i -> l !! Z.to_nat i = Some y -> get_unchecked l i = Ret y.
Proof.
  intros Hi Hl. unfold get_unchecked. rewrite Hl.
  by destruct (Z.ltb_spec i 0); [lia|].
Qed.

(** The arm at position [n] is the one executed for its code, since no two arms
    have the same code. *)
Lemma find_arm_lookup n c act :
  filter_arms !! n = Some (c, act) -> find_arm c filter_arms = Some act.
Proof.
  assert (NoDup filter_arms.*1) as Hnd.
  { eapply bool_decide_unpack. vm_compute. exact I. }
  revert n Hnd. generalize filter_arms as arms. intros arms.
  induction arms as [|[c' act'] arms IH]; intros n; [done|].
  cbn [fmap list_fmap fst]. intros [Hc Hnd]%NoDup_cons. destruct n as [|n].
  - intros [= -> ->]. cbn. by rewrite Z.eqb_refl.
  - intros Hn. cbn. destruct (Z.eqb_spec c c') as [->|]; [|by eapply IH].
    destruct Hc. apply list_elem_of_fmap. exists (c', act). split; [done|].
    by eapply list_elem_of_lookup_2.
Qed.

Fixpoint arm_index (c : Z) (arms : list arm) : nat :=
  match arms with
  | [] => 0
  | (c', _) :: arms' => if c =? c' then 0 else S (arm_index c arms')
  end.

(** Replace the search for the arm of a concrete code by that arm. *)
Ltac pick_arm :=
  match goal with
  | |- context [find_arm ?c filter_arms] =>
      let n := eval vm_compute in (arm_index c filter_arms) in
      erewrite (find_arm_lookup n c); [cbv beta|reflexivity]
  end.
