(* ===== verification/CbpfSpec.v ===== *)
(** Reference semantics of cBPF: operations as an inductive type, their
    encoding into 16-bit codes, the specification of validation, and a
    semantics of forward-jumping programs by structural recursion, with no
    program counter and no fuel.  Nothing here is translated from the source;
    CbpfValidateProof.v, CbpfFilterProof.v and Cbpf.v prove that the code implements it. *)

From S2P Require Import Prelude CbpfInsn CbpfValidate.
Import bpf_code.

(** ** Operations *)

Inductive size : Set := SzW | SzH | SzB.
Inductive operand : Set := OpK | OpX.
Inductive alu : Set := Add | Sub | Mul | Div | Or | And | Lsh | Rsh | Mod | Xor.
Inductive cmp : Set := Jeq | Jgt | Jge | Jset.

#[global] Instance size_eq_dec : EqDecision size.
Proof. solve_decision. Defined.
#[global] Instance operand_eq_dec : EqDecision operand.
Proof. solve_decision. Defined.
#[global] Instance alu_eq_dec : EqDecision alu.
Proof. solve_decision. Defined.
#[global] Instance cmp_eq_dec : EqDecision cmp.
Proof. solve_decision. Defined.

Inductive op : Set :=
| ORetK | ORetA
| OLdAbs (s : size) | OLdInd (s : size) | OLdLen | OLdxLen | OLdxMsh
| OLdImm | OLdxImm
| OLdMem | OLdxMem | OSt | OStx
| OJa | OJmp (c : cmp) (o : operand)
| OAlu (f : alu) (o : operand) | ONeg
| OTax | OTxa.

#[global] Instance op_eq_dec : EqDecision op.
Proof. solve_decision. Defined.

Definition size_code (s : size) : Z :=
  match s with SzW => W | SzH => H | SzB => B end.
Definition operand_code (o : operand) : Z :=
  match o with OpK => K | OpX => X end.
Definition alu_code (f : alu) : Z :=
  match f with
  | Add => ADD | Sub => SUB | Mul => MUL | Div => DIV | Or => OR | And => AND
  | Lsh => LSH | Rsh => RSH | Mod => MOD | Xor => XOR
  end.
Definition cmp_code (c : cmp) : Z :=
  match c with Jeq => JEQ | Jgt => JGT | Jge => JGE | Jset => JSET end.

Definition encode_op (o : op) : Z :=
  match o with
  | ORetK => RET .| K
  | ORetA => RET .| A
  | OLdAbs s => LD .| size_code s .| ABS
  | OLdInd s => LD .| size_code s .| IND
  | OLdLen => LD .| W .| LEN
  | OLdxLen => LDX .| W .| LEN
  | OLdxMsh => LDX .| B .| MSH
  | OLdImm => LD .| IMM
  | OLdxImm => LDX .| IMM
  | OLdMem => LD .| MEM
  | OLdxMem => LDX .| MEM
  | OSt => ST .| MEM
  | OStx => STX .| MEM
  | OJa => JMP .| JA
  | OJmp c o => JMP .| cmp_code c .| operand_code o
  | OAlu f o => ALU .| alu_code f .| operand_code o
  | ONeg => ALU .| NEG
  | OTax => MISC .| TAX
  | OTxa => MISC .| TXA
  end.

Definition all_ops : list op :=
  [ORetK; ORetA]
  ++ (s ← [SzW; SzH; SzB]; [OLdAbs s; OLdInd s])
  ++ [OLdLen; OLdxLen; OLdxMsh; OLdImm; OLdxImm; OLdMem; OLdxMem; OSt; OStx; OJa]
  ++ (c ← [Jeq; Jgt; Jge; Jset]; o ← [OpK; OpX]; [OJmp c o])
  ++ (f ← [Add; Sub; Mul; Div; Or; And; Lsh; Rsh; Mod; Xor]; o ← [OpK; OpX]; [OAlu f o])
  ++ [ONeg; OTax; OTxa].

Definition decode_op (c : Z) : option op := List.find (fun o => encode_op o =? c) all_ops.

(** ** Validation *)

Definition backward_allowed (flags : Z) : bool := Z.testbit flags 0.

(** What is wrong with operation [o] of [insn] at index [i] of a program of
    length [len], if anything. *)
Definition op_error (len flags i : Z) (o : op) (insn : BpfInsn) : option BpfError :=
  match o with
  | OLdMem | OLdxMem | OSt | OStx => if k insn <? 16 then None else Some BadMemoryAccess
  | OAlu Div OpK | OAlu Mod OpK => if k insn =? 0 then Some DivideByZero else None
  | OJa =>
      let target := i + 1 + k insn in
      let target := if backward_allowed flags then target mod 2 ^ 32 else target in
      if target <? len then None else Some BadJumpTarget
  | OJmp _ _ =>
      if i + 1 + Z.max (jt insn) (jf insn) <? len then None else Some BadJumpTarget
  | _ => None
  end.

Definition insn_error (len flags i : Z) (insn : BpfInsn) : option BpfError :=
  match decode_op (code insn) with
  | None => Some InvalidInstruction
  | Some o => op_error len flags i o insn
  end.

(** The errors of the instructions, in program order. *)
Definition errors (flags : Z) (prog : list BpfInsn) : list BpfError :=
  omap id (imap (fun i => insn_error (Z.of_nat (length prog)) flags (Z.of_nat i)) prog).

Definition ends_in_ret (prog : list BpfInsn) : bool :=
  match last prog with
  | Some insn => bool_decide (decode_op (code insn) = Some ORetK
                              \/ decode_op (code insn) = Some ORetA)
  | None => false
  end.

Definition validate_spec (flags : Z) (prog : list BpfInsn) : result unit BpfError :=
  if Z.of_nat (length prog) >? u32_MAX then Err ProgramTooLarge
  else
    match errors flags prog with
    | e :: _ => Err e
    | [] => if ends_in_ret prog then Ok tt else Err MissingReturn
    end.

(** The programs with forward jumps only that the kernel-style rules allow,
    stated without reference to an order of checks. *)
Definition operands_ok (len i : Z) (o : op) (insn : BpfInsn) : Prop :=
  match o with
  | OLdMem | OLdxMem | OSt | OStx => k insn < MEMWORDS
  | OAlu Div OpK | OAlu Mod OpK => k insn <> 0
  | OJa => i + 1 + k insn < len
  | OJmp _ _ => i + 1 + jt insn < len /\ i + 1 + jf insn < len
  | _ => True
  end.

Definition well_formed (prog : list BpfInsn) : Prop :=
  Z.of_nat (length prog) <= u32_MAX
  /\ (forall i insn, prog !! i = Some insn ->
        exists o, code insn = encode_op o
          /\ operands_ok (Z.of_nat (length prog)) (Z.of_nat i) o insn)
  /\ (exists insn, last prog = Some insn /\ (code insn = RET .| K \/ code insn = RET .| A)).

(** ** Execution *)

Record regs := mkRegs { acc : Z; idx : Z; store : list Z }.

Inductive effect : Type :=
| Jump (skip : Z) (r : regs)     (* go on, [skip] instructions further *)
| Return (v : Z).

(** The value of a big-endian byte string. *)
Definition be_value (bs : list Z) : Z := fold_left (fun v b => v * 256 + b) bs 0.

Definition bytes_at (pkt : list Z) (addr : Z) (n : nat) : option (list Z) :=
  if addr + Z.of_nat n <=? Z.of_nat (length pkt)
  then Some (take n (drop (Z.to_nat addr) pkt)) else None.

Definition size_bytes (s : size) : nat :=
  match s with SzW => 4 | SzH => 2 | SzB => 1 end.

Definition operand_value (o : operand) (k : Z) (r : regs) : Z :=
  match o with OpK => k | OpX => idx r end.

(** Arithmetic is modulo [2^32]; division by zero has no value. *)
Definition alu_value (f : alu) (a v : Z) : option Z :=
  match f with
  | Add => Some ((a + v) mod 2 ^ 32)
  | Sub => Some ((a - v) mod 2 ^ 32)
  | Mul => Some ((a * v) mod 2 ^ 32)
  | Div => if v =? 0 then None else Some (a / v)
  | Mod => if v =? 0 then None else Some (a mod v)
  | And => Some (Z.land a v)
  | Or => Some (Z.lor a v)
  | Xor => Some (Z.lxor a v)
  | Lsh => Some ((a * 2 ^ v) mod 2 ^ 32)
  | Rsh => Some (a / 2 ^ v)
  end.

Definition cmp_holds (c : cmp) (a v : Z) : bool :=
  match c with
  | Jeq => a =? v
  | Jgt => v <? a
  | Jge => v <=? a
  | Jset => negb (Z.land a v =? 0)
  end.

Definition next (r : regs) : effect := Jump 0 r.
Definition with_acc (v : Z) (r : regs) : regs := mkRegs v (idx r) (store r).
Definition with_idx (v : Z) (r : regs) : regs := mkRegs (acc r) v (store r).
Definition with_store (i v : Z) (r : regs) : regs :=
  mkRegs (acc r) (idx r) (<[Z.to_nat i := v]> (store r)).

(** A value that cannot be computed makes the filter reject the packet. *)
Definition or_reject (v : option Z) (f : Z -> regs) : effect :=
  match v with Some v => next (f v) | None => Return 0 end.

Definition exec (o : op) (insn : BpfInsn) (pkt : list Z) (r : regs) : effect :=
  match o with
  | ORetK => Return (k insn)
  | ORetA => Return (acc r)
  | OLdAbs s =>
      or_reject (be_value <$> bytes_at pkt (k insn) (size_bytes s)) (fun v => with_acc v r)
  | OLdInd s =>
      or_reject (be_value <$> bytes_at pkt ((idx r + k insn) mod 2 ^ 32) (size_bytes s))
        (fun v => with_acc v r)
  | OLdxMsh =>
      or_reject (be_value <$> bytes_at pkt (k insn) 1)
        (fun v => with_idx (4 * (v mod 16)) r)
  | OLdLen => next (with_acc (Z.of_nat (length pkt) mod 2 ^ 32) r)
  | OLdxLen => next (with_idx (Z.of_nat (length pkt) mod 2 ^ 32) r)
  | OLdImm => next (with_acc (k insn) r)
  | OLdxImm => next (with_idx (k insn) r)
  | OLdMem => next (with_acc (store r !!! Z.to_nat (k insn)) r)
  | OLdxMem => next (with_idx (store r !!! Z.to_nat (k insn)) r)
  | OSt => next (with_store (k insn) (acc r) r)
  | OStx => next (with_store (k insn) (idx r) r)
  | OJa => Jump (k insn) r
  | OJmp c o =>
      Jump (if cmp_holds c (acc r) (operand_value o (k insn) r) then jt insn else jf insn) r
  | OAlu f o =>
      or_reject (alu_value f (acc r) (operand_value o (k insn) r)) (fun v => with_acc v r)
  | ONeg => next (with_acc ((- acc r) mod 2 ^ 32) r)
  | OTax => next (with_idx (acc r) r)
  | OTxa => next (with_acc (idx r) r)
  end.

(** [eval skip prog] runs the program after skipping [skip] instructions.  The
    result is [None] if the program runs off its end or meets an undefined
    code. *)
Fixpoint eval (skip : nat) (prog : list BpfInsn) (pkt : list Z) (r : regs) : option Z :=
  match prog with
  | [] => None
  | insn :: rest =>
      match skip with
      | S n => eval n rest pkt r
      | O =>
          match decode_op (code insn) with
          | None => None
          | Some o =>
              match exec o insn pkt r with
              | Return v => Some v
              | Jump n r' => eval (Z.to_nat n) rest pkt r'
              end
          end
      end
  end.

Definition init_regs : regs := mkRegs 0 0 (replicate 16 0).
Definition eval_prog (prog : list BpfInsn) (pkt : list Z) : option Z :=
  eval 0 prog pkt init_regs.

(** The same for programs that may jump backwards, whose runs may be infinite:
    [runs prog pkt pc r v] if the program returns [v] when it is started at
    [pc].  Jump offsets are added modulo [2^32]. *)
Inductive runs (prog : list BpfInsn) (pkt : list Z) : Z -> regs -> Z -> Prop :=
| runs_return pc r insn o v :
    prog !! Z.to_nat pc = Some insn -> decode_op (code insn) = Some o ->
    exec o insn pkt r = Return v ->
    runs prog pkt pc r v
| runs_jump pc r insn o s r' v :
    prog !! Z.to_nat pc = Some insn -> decode_op (code insn) = Some o ->
    exec o insn pkt r = Jump s r' ->
    runs prog pkt ((pc + 1 + s) mod 2 ^ 32) r' v ->
    runs prog pkt pc r v.

(** ** Facts about the encoding *)

Lemma eval_skip n prog pkt r : eval n prog pkt r = eval 0 (drop n prog) pkt r.
Proof. revert n. induction prog as [|insn prog IH]; intros [|n]; cbn; auto. Qed.


Lemma elem_of_all_ops o : In o all_ops.
Proof. destruct o as [| |[]|[]| | | | | | | | | | |[] []|[] []| | |]; vm_compute; tauto. Qed.

Lemma decode_op_Some c o : decode_op c = Some o -> c = encode_op o.
Proof. unfold decode_op. intros [_ H]%find_some. lia. Qed.

Lemma decode_op_encode_op o : decode_op (encode_op o) = Some o.
Proof. destruct o as [| |[]|[]| | | | | | | | | | |[] []|[] []| | |]; reflexivity. Qed.

Lemma encode_op_bound o : 0 <= encode_op o < 256.
Proof.
  destruct o as [| |[]|[]| | | | | | | | | | |[] []|[] []| | |]; vm_compute; split; congruence.
Qed.
