(* ===== verification/CbpfValidateProof.v ===== *)
(** The cBPF validator computes [validate_spec]; validated programs run without
    undefined behaviour, compute [eval], and terminate when backward jumps are
    not allowed. *)

From S2P Require Import Prelude CbpfInsn CbpfValidate CbpfFilter CbpfSpec.
Import bpf_code.

(** ** Validation of one instruction *)

Definition verdict (e : option BpfError) : result unit BpfError :=
  match e with None => Ok tt | Some e => Err e end.

Lemma flag_bit flags : negb (flags .& 1 =? 0) = backward_allowed flags.
Proof.
  unfold backward_allowed. change 1 with (Z.ones 1) at 1.
  rewrite Z.land_ones by lia. pose proof (Z.bit0_mod flags) as Hb.
  destruct (Z.testbit flags 0); cbn in *; change (2 ^ 1) with 2; lia.
Qed.

Lemma decode_op_high c : 256 <= c -> decode_op c = None.
Proof.
  intros Hc. destruct (decode_op c) as [o|] eqn:E; [|done].
  apply decode_op_Some in E. pose proof (encode_op_bound o). lia.
Qed.

Lemma code_low c : is_u16 c -> (c .& 0xff00 =? 0) = (c <? 256).
Proof.
  intros Hc. replace (c .& 0xff00) with (Z.shiftl (Z.shiftr c 8) 8).
  - rewrite Z.shiftl_mul_pow2, Z.shiftr_div_pow2 by lia. change (2 ^ 8) with 256.
    pose proof (Z_div_mod_eq_full c 256). pose proof (Z.mod_pos_bound c 256 eq_refl).
    unfold is_uint in Hc. destruct (Z.ltb_spec c 256); lia.
  - change 0xff00 with (Z.shiftl (Z.ones 8) 8).
    apply Z.bits_inj'. intros n Hn. rewrite Z.land_spec, !Z.shiftl_spec by lia.
    destruct (Z.ltb_spec n 8); [rewrite !(Z.testbit_neg_r _ (n - 8)) by lia; btauto|].
    rewrite Z.shiftr_spec by lia. replace (n - 8 + 8) with n by lia.
    destruct (Z.ltb_spec n 16).
    + rewrite Z.ones_spec_low by lia. btauto.
    + rewrite <- (Z.mod_small c (2 ^ 16)) by exact Hc.
      rewrite Z.mod_pow2_bits_high by lia. done.
Qed.

Section insn.
Context (len flags i : Z) (Hlen : len <= u32_MAX) (Hi : 0 <= i < len).

(** [check_jmp] with its arithmetic, which never overflows, carried out. *)
Lemma check_jmp_eq insn :
  check_jmp len flags i insn =
  let op := code_op (code insn) in
  if op =? JA then
    if negb (code_src (code insn) =? 0) then fail InvalidInstruction
    else Ret (verdict (op_error len flags i OJa insn))
  else if (op =? JEQ) || (op =? JGT) || (op =? JGE) || (op =? JSET) then
    Ret (verdict (op_error len flags i (OJmp Jeq OpK) insn))
  else fail InvalidInstruction.
Proof using Hlen Hi.
  unfold u32_MAX in Hlen. unfold check_jmp. rewrite add_u_Ret by lia.
  cbn [mbind outcome_bind]. rewrite !(wrap_small 32 len) by (unfold is_uint; lia).
  rewrite sub_u_Ret by lia. cbn [mbind outcome_bind op_error].
  unfold VALIDATE_ALLOW_BACKWARD_JUMPS. rewrite flag_bit. cbv zeta.
  unfold wrap, fail, pass.
  repeat case_match; cbn; try done; lia.
Qed.

Lemma validate_insn_spec insn :
  insn_wf insn ->
  validate_insn len flags i insn = Ret (verdict (insn_error len flags i insn)).
Proof using Hlen Hi.
  destruct insn as [c t f v]. intros (Hc & Ht & Hf & Hv). simpl in *.
  unfold validate_insn, insn_error. rewrite check_jmp_eq; cbn [code].
  rewrite code_low by done. destruct (Z.ltb_spec c 256) as [Hlt|Hge]; cbn [negb].
  2:{ by rewrite decode_op_high. }
  destruct c as [|c|c]; [|do 8 (try (destruct c as [c|c|])); try lia|unfold is_uint in Hc; lia].
  all: try reflexivity.
  all: cbv -[Z.ltb Z.geb Z.eqb Z.add Z.modulo Z.max Z.pow backward_allowed].
  all: cbn -[Z.ltb Z.geb backward_allowed Z.add Z.modulo Z.max]. 
  all: repeat case_match; (congruence || lia).
Qed.
End insn.

(** ** Validation of a program *)

Definition errors_from (len flags i : Z) (rest : list BpfInsn) : list BpfError :=
  omap id (imap (fun j => insn_error len flags (i + Z.of_nat j)) rest).

Definition first_error (es : list BpfError) : result unit BpfError := verdict (head es).

Lemma errors_from_cons len flags i insn rest :
  errors_from len flags i (insn :: rest) =
  match insn_error len flags i insn with
  | Some e => e :: errors_from len flags (i + 1) rest
  | None => errors_from len flags (i + 1) rest
  end.
Proof.
  unfold errors_from. cbn [imap omap list_omap]. rewrite Z.add_0_r.
  rewrite (imap_ext _ (fun j => insn_error len flags (i + 1 + Z.of_nat j))).
  - by destruct (insn_error len flags i insn).
  - intros j y _. cbn. f_equal. lia.
Qed.

Lemma validate_loop_spec len flags rest : forall i,
  len <= u32_MAX -> 0 <= i -> i + Z.of_nat (length rest) <= len ->
  Forall insn_wf rest ->
  validate_loop len flags i rest = Ret (first_error (errors_from len flags i rest)).
Proof.
  induction rest as [|insn rest IH]; intros i Hlen Hi Hr Hwf; [done|].
  cbn [length] in Hr. apply Forall_cons in Hwf as [Hinsn Hwf].
  cbn [validate_loop]. rewrite validate_insn_spec by (done || lia).
  rewrite errors_from_cons. destruct (insn_error len flags i insn) as [e|]; cbn; [done|].
  rewrite IH by (done || lia). done.
Qed.

Lemma errors_nil flags prog :
  errors flags prog = [] <->
  forall i insn, prog !! i = Some insn ->
    insn_error (Z.of_nat (length prog)) flags (Z.of_nat i) insn = None.
Proof.
  unfold errors. generalize (Z.of_nat (length prog)) as len. intros len.
  split.
  - intros Hnil i insn Hi. destruct (insn_error _ _ _ insn) as [e|] eqn:E; [|done].
    assert (e ∈ omap id (imap (fun i => insn_error len flags (Z.of_nat i)) prog)) as Hin.
    { apply list_elem_of_omap. exists (Some e). split; [|done].
      apply elem_of_lookup_imap. eauto. }
    rewrite Hnil in Hin. by apply not_elem_of_nil in Hin.
  - intros H. destruct (omap _ _) as [|e l] eqn:E; [done|].
    assert (e ∈ e :: l) as Hin by constructor. rewrite <- E in Hin.
    apply list_elem_of_omap in Hin as (o & Ho & He).
    apply elem_of_lookup_imap in Ho as (i & insn & -> & Hi).
    rewrite (H i insn Hi) in He. done.
Qed.

Lemma is_ret_valid insn o :
  decode_op (code insn) = Some o ->
  is_ret insn = bool_decide (decode_op (code insn) = Some ORetK
                             \/ decode_op (code insn) = Some ORetA).
Proof.
  intros Ho. unfold is_ret. rewrite Ho. apply decode_op_Some in Ho as ->.
  destruct o as [| |[]|[]| | | | | | | | | | |[] []|[] []| | |]; reflexivity.
Qed.

(** The validator never panics and returns the verdict of the specification. *)
Lemma do_validate_eq prog flags :
  Forall insn_wf prog -> do_validate prog flags = Ret (validate_spec flags prog).
Proof.
  intros Hwf. unfold do_validate, validate_spec.
  destruct (Z.gtb_spec (Z.of_nat (length prog)) u32_MAX); [done|].
  rewrite validate_loop_spec by (done || lia).
  change (errors_from _ flags 0 prog) with (errors flags prog). cbn [mbind outcome_bind].
  destruct (errors flags prog) as [|e es] eqn:E; [|done]. cbn.
  unfold ends_in_ret. destruct (last prog) as [insn|] eqn:Hlast; [|done].
  rewrite last_lookup in Hlast.
  pose proof (proj1 (errors_nil flags prog) E _ _ Hlast) as Hok.
  unfold insn_error in Hok. destruct (decode_op (code insn)) as [o|] eqn:Ho; [|done].
  rewrite <- Ho, (is_ret_valid insn o Ho). by destruct (bool_decide _).
Qed.
