(* ===== verification/CbpfFilterProof.v ===== *)
(** Each arm of the interpreter implements the reference semantics of its
    operation. *)

From S2P Require Import Prelude CbpfInsn CbpfValidate CbpfFilter CbpfSpec CbpfValidateProof.
Import bpf_code.

(** ** Correspondence of states *)

Definition regs_of (m : machine) : regs := mkRegs (a m) (x m) (mem m).

Definition regs_wf (r : regs) : Prop :=
  is_u32 (acc r) /\ is_u32 (idx r) /\ length (store r) = 16%nat
  /\ Forall (fun v => is_u32 v) (store r).

Definition pkt_wf (pkt : list Z) : Prop := Forall (fun b => is_u8 b) pkt.

#[global] Instance pkt_wf_dec pkt : Decision (pkt_wf pkt).
Proof. unfold pkt_wf. apply _. Defined.

(** The outcome of an iteration, given the effect of the operation and the
    incremented program counter. *)
Definition flow_of (p : Z) (e : effect) : flow :=
  match e with
  | Return v => Break v
  | Jump s r => Continue (mkMachine (acc r) (idx r) (wrap 32 (p + s)) (store r))
  end.

(** ** Loads *)

Lemma bytes_at_Some pkt addr n bs :
  0 <= addr -> bytes_at pkt addr n = Some bs ->
  length bs = n /\ forall i y, bs !! i = Some y -> get_unchecked pkt (addr + Z.of_nat i) = Ret y.
Proof.
  unfold bytes_at. intros Ha. case_match eqn:E; [|done]. intros [= <-].
  split; [rewrite length_take, length_drop; lia|].
  intros i y [Hi _]%lookup_take_Some. apply get_unchecked_lookup; [lia|].
  rewrite lookup_drop in Hi. rewrite <- Hi. f_equal. lia.
Qed.

Lemma bytes_at_wf pkt addr n bs :
  pkt_wf pkt -> bytes_at pkt addr n = Some bs -> Forall (fun b => is_u8 b) bs.
Proof. unfold bytes_at. intros Hp. case_match; [|done]. intros [= <-]. by apply Forall_take, Forall_drop. Qed.

Lemma be_value_bound bs :
  Forall (fun b => is_u8 b) bs -> is_uint (8 * Z.of_nat (length bs)) (be_value bs).
Proof.
  induction bs as [|b bs IH] using rev_ind; [done|].
  intros [Hbs Hb]%Forall_app. rewrite Forall_singleton in Hb. specialize (IH Hbs).
  unfold be_value, is_uint in *. rewrite fold_left_app, length_app. cbn [fold_left length].
  replace (8 * Z.of_nat (length bs + 1)) with (8 * Z.of_nat (length bs) + 8) by lia.
  rewrite Z.pow_add_r by lia. nia.
Qed.

Definition load (s : size) : list Z -> Z -> outcome Z :=
  match s with SzW => load_word | SzH => load_halfword | SzB => load_byte end.

Lemma load_word_be b0 b1 b2 b3 :
  is_u8 b0 -> is_u8 b1 -> is_u8 b2 -> is_u8 b3 ->
  wrap 32 (Z.shiftl b0 24) .| wrap 32 (Z.shiftl b1 16) .| wrap 32 (Z.shiftl b2 8) .| b3
  = be_value [b0; b1; b2; b3].
Proof.
  unfold is_uint, be_value. cbn [fold_left]. intros.
  rewrite !wrap_small by (unfold is_uint; rewrite Z.shiftl_mul_pow2; lia).
  rewrite (lor_shiftl_add b0 (Z.shiftl b1 16) 24) by (rewrite ?Z.shiftl_mul_pow2; lia).
  replace (b0 * 2 ^ 24 + Z.shiftl b1 16) with (Z.shiftl (b0 * 256 + b1) 16)
    by (rewrite !Z.shiftl_mul_pow2; lia).
  rewrite lor_shiftl_add by (rewrite ?Z.shiftl_mul_pow2; lia).
  replace ((b0 * 256 + b1) * 2 ^ 16 + Z.shiftl b2 8)
    with (Z.shiftl ((b0 * 256 + b1) * 256 + b2) 8) by (rewrite !Z.shiftl_mul_pow2; lia).
  rewrite lor_shiftl_add by lia. lia.
Qed.

Lemma load_halfword_be b0 b1 :
  is_u8 b0 -> is_u8 b1 -> wrap 32 (Z.shiftl b0 8) .| b1 = be_value [b0; b1].
Proof.
  unfold is_uint, be_value. cbn [fold_left]. intros.
  rewrite wrap_small by (unfold is_uint; rewrite Z.shiftl_mul_pow2; lia).
  rewrite lor_shiftl_add by lia. lia.
Qed.

(** The loads read big-endian values. *)
Lemma load_spec s pkt addr bs :
  pkt_wf pkt -> 0 <= addr -> bytes_at pkt addr (size_bytes s) = Some bs ->
  load s pkt addr = Ret (be_value bs).
Proof.
  intros Hp Ha Hbs. pose proof (bytes_at_wf _ _ _ _ Hp Hbs) as Hw.
  apply bytes_at_Some in Hbs as [Hlen Hget]; [|done].
  pose proof (fun y => Hget 0%nat y) as Hget0. rewrite Z.add_0_r in Hget0.
  destruct s; cbn in Hlen; repeat (destruct bs as [|? bs]; try done); cbn [load];
    decompose_Forall.
  - unfold load_word.
    rewrite (Hget0 _ eq_refl), (Hget 1%nat _ eq_refl : get_unchecked pkt (addr + 1) = _), (Hget 2%nat _ eq_refl : get_unchecked pkt (addr + 2) = _),
      (Hget 3%nat _ eq_refl : get_unchecked pkt (addr + 3) = _).
    cbn [mbind outcome_bind]. by rewrite load_word_be.
  - unfold load_halfword. rewrite (Hget0 _ eq_refl), (Hget 1%nat _ eq_refl : get_unchecked pkt (addr + 1) = _).
    cbn [mbind outcome_bind]. by rewrite load_halfword_be.
  - apply (Hget0 _ eq_refl).
Qed.

(** ** Arms *)

Section arms.
Context (pkt : list Z) (Hpkt : pkt_wf pkt).
Context (insn : BpfInsn) (Hinsn : insn_wf insn).
Context (m : machine) (Hm : regs_wf (regs_of m)).

Lemma Hp : is_u32 (pc m) -> wrap 32 (pc m + 0) = pc m.
Proof. intros. by rewrite Z.add_0_r, wrap_small. Qed.

Lemma ld_bounds addr n :
  0 <= addr ->
  (addr >? packet_len pkt) || (packet_len pkt - addr <? Z.of_nat n) =
  match bytes_at pkt addr n with Some _ => false | None => true end.
Proof.
  intros Ha. unfold bytes_at, packet_len.
  destruct (Z.leb_spec (addr + Z.of_nat n) (Z.of_nat (length pkt)));
    destruct (Z.gtb_spec addr (Z.of_nat (length pkt))),
      (Z.ltb_spec (Z.of_nat (length pkt) - addr) (Z.of_nat n)); cbn; done || lia.
Qed.

Lemma ld_arm_spec s addr :
  is_u32 (pc m) -> 0 <= addr ->
  ld_arm (Z.of_nat (size_bytes s)) (load s) pkt addr m =
  Ret (flow_of (pc m) (or_reject (be_value <$> bytes_at pkt addr (size_bytes s))
                         (fun v => with_acc v (regs_of m)))).
Proof using Hpkt.
  intros Hpc Ha. unfold ld_arm. rewrite ld_bounds by done.
  destruct (bytes_at pkt addr (size_bytes s)) as [bs|] eqn:Hbs; cbn; [|done].
  erewrite load_spec by eauto. cbn. by rewrite Hp.
Qed.

Lemma ld_byte_arm_spec f g addr :
  is_u32 (pc m) -> 0 <= addr ->
  (forall v, is_u8 v -> f v = mkMachine (acc (g v)) (idx (g v)) (pc m) (store (g v))) ->
  ld_byte_arm f pkt addr =
  Ret (flow_of (pc m) (or_reject (be_value <$> bytes_at pkt addr 1) g)).
Proof using Hpkt.
  intros Hpc Ha Hf. unfold ld_byte_arm.
  pose proof (ld_bounds addr 1 Ha) as Hb. change (Z.of_nat 1) with 1 in Hb.
  destruct (bytes_at pkt addr 1) as [bs|] eqn:Hbs; cbn in *.
  - destruct (Z.geb_spec addr (packet_len pkt)); [lia|].
    rewrite (load_spec SzB pkt addr bs : _ -> _ -> _ -> load_byte pkt addr = _) by done. cbn. rewrite Hp by done.
    pose proof (bytes_at_wf _ _ _ _ Hpkt Hbs) as Hw.
    apply bytes_at_Some in Hbs as [Hlen _]; [|done].
    pose proof (be_value_bound bs Hw) as Hv. rewrite Hlen in Hv. by rewrite Hf.
  - destruct (Z.geb_spec addr (packet_len pkt)); [done|lia].
Qed.

Lemma do_jmp_spec (cond : bool) :
  is_u32 (pc m + (if cond then jt insn else jf insn)) ->
  jmp_arm cond insn m =
  Ret (flow_of (pc m) (Jump (if cond then jt insn else jf insn) (regs_of m))).
Proof.
  intros Ht. unfold jmp_arm, do_jmp. pose proof (proj2 Ht) as Hlt.
  rewrite (proj2 (Z.ltb_lt _ _) Hlt). cbn. by rewrite wrap_small.
Qed.

Lemma div_arm_spec f v :
  is_u32 (pc m) ->
  div_arm f v m =
  Ret (flow_of (pc m) (or_reject (if v =? 0 then None else Some (f (a m) v))
                         (fun v => with_acc v (regs_of m)))).
Proof. intros Hpc. unfold div_arm. case_match; cbn; [done|]. by rewrite Hp. Qed.

Lemma lsh_arm_spec v :
  is_u32 (pc m) -> 0 <= v ->
  shift_arm shl32 v m =
  Ret (flow_of (pc m) (next (with_acc ((a m * 2 ^ v) mod 2 ^ 32) (regs_of m)))).
Proof.
  intros Hpc Hv. unfold shift_arm, shl32, wrap.
  destruct (Z.ltb_spec v 32); cbn; rewrite Hp by done.
  - by rewrite Z.shiftl_mul_pow2 by lia.
  - replace v with (v - 32 + 32) by lia. rewrite Z.pow_add_r, Z.mul_assoc by lia.
    by rewrite Z.mod_mul by done.
Qed.

Lemma rsh_arm_spec v :
  is_u32 (pc m) -> 0 <= v ->
  shift_arm Z.shiftr v m =
  Ret (flow_of (pc m) (next (with_acc (a m / 2 ^ v) (regs_of m)))).
Proof using Hm.
  intros Hpc Hv. unfold shift_arm. destruct Hm as [[Ha Ha'] _]. cbn in Ha, Ha'.
  destruct (Z.ltb_spec v 32); cbn; rewrite Hp by done.
  - by rewrite Z.shiftr_div_pow2 by lia.
  - pose proof (Z.pow_le_mono_r 2 32 v). rewrite Z.div_small by lia. done.
Qed.

Lemma continue_spec m' r :
  is_u32 (pc m) -> m' = mkMachine (acc r) (idx r) (pc m) (store r) ->
  continue m' = Ret (flow_of (pc m) (next r)).
Proof. intros Hpc ->. cbn. by rewrite Hp. Qed.

Lemma store_get i :
  0 <= i < 16 -> get_unchecked (mem m) i = Ret (mem m !!! Z.to_nat i).
Proof using Hm.
  intros Hi. destruct Hm as (_ & _ & Hlen & _). cbn in Hlen.
  apply get_unchecked_lookup; [lia|]. apply list_lookup_lookup_total_lt. lia.
Qed.

Lemma store_set i v :
  0 <= i < 16 -> set_unchecked (mem m) i v = Ret (<[Z.to_nat i := v]> (mem m)).
Proof using Hm. intros Hi. unfold set_unchecked. by rewrite store_get. Qed.

Context (len flags i : Z) (Hlen : len <= u32_MAX) (Hi : 0 <= i < len).
Context (o : op) (Hok : op_error len flags i o insn = None).
Context (Hpc : pc m = i + 1).

Lemma pc_u32 : is_u32 (pc m).
Proof using Hlen Hi Hpc. unfold is_uint, u32_MAX in *. lia. Qed.

Lemma ind_addr v : 0 <= wrap 32 v.
Proof. by apply wrap_bound. Qed.

Local Hint Resolve pc_u32 ind_addr : core.

Lemma msh_value v : is_u8 v -> wrap 32 (Z.shiftl (v .& 0xf) 2) = 4 * (v mod 16).
Proof.
  intros Hv. change 0xf with (Z.ones 4). rewrite Z.land_ones, Z.shiftl_mul_pow2 by lia.
  pose proof (Z.mod_pos_bound v (2 ^ 4)). change (2 ^ 4) with 16 in *.
  rewrite wrap_small by (unfold is_uint; lia). lia.
Qed.

Lemma jmp_spec c (cond : bool) :
  op_error len flags i (OJmp c OpK) insn = None ->
  jmp_arm cond insn m =
  Ret (flow_of (pc m) (Jump (if cond then jt insn else jf insn) (regs_of m))).
Proof using Hinsn Hlen Hi Hpc.
  cbn. intros Hj. destruct Hinsn as (_ & [Hjt _] & [Hjf _] & _).
  apply do_jmp_spec. destruct (Z.ltb_spec (i + 1 + jt insn `max` jf insn) len); [|done].
  unfold is_uint, u32_MAX in *. destruct cond; lia.
Qed.

Lemma arm_spec :
  exists act, find_arm (encode_op o) filter_arms = Some act
    /\ act insn pkt m = Ret (flow_of (pc m) (exec o insn pkt (regs_of m))).
Proof using All.
  destruct Hinsn as (_ & [Hjt Hjt'] & [Hjf Hjf'] & [Hk Hk']).
  pose proof Hm as ([Ha Ha'] & [Hx Hx'] & _ & _).
  destruct o as [| |[]|[]| | | | | | | | | | |[] []|[] []| | |];
    pick_arm; eexists; (split; [reflexivity|]); cbv beta; cbn in Hok.
  all: try reflexivity.
  all: try (apply (ld_arm_spec SzW); auto; fail).
  all: try (apply (ld_arm_spec SzH); auto; fail).
  all: try (apply ld_byte_arm_spec; auto; fail).
  all: try (apply div_arm_spec; auto; fail).
  all: try (apply lsh_arm_spec; auto; fail).
  all: try (apply rsh_arm_spec; auto; fail).
  all: try (apply continue_spec; auto; fail).
  all: try (destruct (Z.ltb_spec (k insn) 16); [|done];
    rewrite ?store_get, ?store_set by lia; apply continue_spec; auto; fail).
  - by apply (ld_byte_arm_spec _ _ (wrap 32 (x m + k insn))).
  - apply ld_byte_arm_spec; [auto..|]. intros v Hv. by rewrite msh_value.
  - by apply (jmp_spec Jeq).
  - by apply (jmp_spec Jeq).
  - rewrite Z.gtb_ltb. by apply (jmp_spec Jeq).
  - rewrite Z.gtb_ltb. by apply (jmp_spec Jeq).
  - rewrite Z.geb_leb. by apply (jmp_spec Jeq).
  - rewrite Z.geb_leb. by apply (jmp_spec Jeq).
  - by apply (jmp_spec Jeq).
  - by apply (jmp_spec Jeq).
Qed.
End arms.
