(* ===== verification/Cbpf.v ===== *)
(** Properties of the cBPF validator and interpreter as a whole. *)

From S2P Require Import Prelude CbpfInsn CbpfValidate CbpfFilter CbpfSpec.
From S2P Require Import CbpfValidateProof CbpfFilterProof.
Import bpf_code.

(** ** Effects of operations stay within bounds *)

Lemma alu_value_wf f a v w :
  is_u32 a -> is_u32 v -> alu_value f a v = Some w -> is_u32 w.
Proof.
  intros Ha Hv. destruct f; cbn -[Z.pow Z.modulo Z.div]; try case_match; intros [= <-];
    try (apply (wrap_bound 32); lia); try (apply uint_lor; auto; lia);
    try (apply uint_land; unfold is_uint in *; lia); try (apply uint_lxor; auto; lia).
  - unfold is_uint in *. pose proof (Z.div_pos a v). pose proof (Z.div_le_upper_bound a v a). nia.
  - unfold is_uint in *. pose proof (Z.pow_pos_nonneg 2 v).
    pose proof (Z.div_pos a (2 ^ v)). pose proof (Z.div_le_upper_bound a (2 ^ v) a). nia.
  - unfold is_uint in *. pose proof (Z.mod_pos_bound a v). lia.
Qed.

Lemma bytes_at_value_wf pkt addr s v :
  pkt_wf pkt -> 0 <= addr ->
  be_value <$> bytes_at pkt addr (size_bytes s) = Some v -> is_u32 v.
Proof.
  intros Hp Ha (bs & Hbs & ->)%fmap_Some_1. pose proof (bytes_at_wf _ _ _ _ Hp Hbs) as Hw.
  apply bytes_at_Some in Hbs as [Hlen _]; [|done].
  pose proof (be_value_bound bs Hw) as Hv. unfold is_uint in *. rewrite Hlen in Hv.
  destruct s; cbn in Hv; lia.
Qed.

Definition effect_wf (e : effect) : Prop :=
  match e with
  | Return v => is_u32 v
  | Jump s r => 0 <= s /\ regs_wf r
  end.

Lemma or_reject_wf v f :
  (forall w, v = Some w -> regs_wf (f w)) -> effect_wf (or_reject v f).
Proof. destruct v as [w|]; cbn; [intros H; split; [lia|auto]|done]. Qed.

Lemma exec_wf o len flags i insn pkt r :
  insn_wf insn -> pkt_wf pkt -> regs_wf r -> op_error len flags i o insn = None ->
  effect_wf (exec o insn pkt r).
Proof.
  intros (_ & Ht & Hf & Hk) Hp (Ha & Hx & Hl & Hs) Ho.
  assert (Hlk : 0 <= k insn < 16 -> is_u32 (store r !!! Z.to_nat (k insn))).
  { intros Hb. eapply Forall_lookup_total_1; [exact Hs|]. lia. }
  assert (Hst : forall v, is_u32 v -> regs_wf (with_store (k insn) v r)).
  { intros v Hv. repeat split; try apply Ha; try apply Hx; cbn.
    - by rewrite length_insert.
    - by apply Forall_insert. }
  assert (Hacc : forall v, is_u32 v -> regs_wf (with_acc v r)) by done.
  assert (Hidx : forall v, is_u32 v -> regs_wf (with_idx v r)) by done.
  assert (Hw : forall v, is_u32 (v mod 2 ^ 32)) by (intros; by apply (wrap_bound 32)).
  assert (Hov : forall o, is_u32 (operand_value o (k insn) r)) by (by intros []).
  destruct o; cbn -[Z.pow Z.modulo] in *.
  all: try (apply or_reject_wf; intros w Hv).
  all: repeat match goal with
    | H : (if ?v <? 16 then _ else _) = None |- _ =>
        destruct (Z.ltb_spec v 16); [|done]
    end.
  all: try (split; [lia|]); auto.
  all: try (first [apply Hacc, Hlk | apply Hidx, Hlk]; destruct Hk; lia).
  - apply Hacc. eapply bytes_at_value_wf; eauto. apply Hk.
  - apply Hacc. eapply bytes_at_value_wf; eauto. apply Hw.
  - apply Hidx. pose proof (Z.mod_pos_bound w 16). unfold is_uint. lia.
  - split; [apply Hk|done].
  - split; [|done]. destruct (cmp_holds _ _ _); [apply Ht|apply Hf].
  - apply Hacc. by eapply (alu_value_wf f); [apply Ha|apply Hov|].
Qed.

(** ** One iteration of the interpreter *)

Section program.
Context (prog : list BpfInsn) (flags : Z).
Context (Hwf : Forall insn_wf prog) (Hvalid : validate_spec flags prog = Ok tt).
Context (pkt : list Z) (Hpkt : pkt_wf pkt).

Let len : Z := Z.of_nat (length prog).

Lemma valid_len : len <= u32_MAX.
Proof using Hvalid.
  revert Hvalid. unfold validate_spec. subst len.
  destruct (Z.gtb_spec (Z.of_nat (length prog)) u32_MAX); [done|]. lia.
Qed.

Lemma valid_insn i insn :
  prog !! i = Some insn ->
  exists o, decode_op (code insn) = Some o /\ op_error len flags (Z.of_nat i) o insn = None.
Proof using Hvalid.
  intros Hi. revert Hvalid. unfold validate_spec. case_match; [done|].
  destruct (errors flags prog) eqn:E; [|done]. intros _.
  pose proof (proj1 (errors_nil flags prog) E i insn Hi) as H'.
  unfold insn_error in H'. destruct (decode_op (code insn)) as [o|]; [eauto|done].
Qed.

(** Only returns can be the last instruction. *)
Lemma valid_next i insn o :
  prog !! i = Some insn -> decode_op (code insn) = Some o ->
  Z.of_nat i + 1 < len \/ o = ORetK \/ o = ORetA.
Proof using Hvalid.
  intros Hi Ho. pose proof (lookup_lt_Some _ _ _ Hi) as Hlt. subst len.
  destruct (decide (S i = length prog)) as [Hlast|]; [right|left; lia].
  revert Hvalid. unfold validate_spec. case_match; [done|]. case_match; [|done].
  unfold ends_in_ret. rewrite last_lookup, <- Hlast. cbn [Nat.pred]. rewrite Hi, Ho.
  destruct (bool_decide _) eqn:E; [|done]. 
  apply bool_decide_eq_true in E as [[= ->]|[= ->]]; auto.
Qed.

(** The invariant of the loop. *)
Definition machine_ok (m : machine) : Prop :=
  0 <= pc m < len /\ regs_wf (regs_of m).

Lemma filter_step_spec m :
  machine_ok m ->
  exists insn o, prog !! Z.to_nat (pc m) = Some insn /\ decode_op (code insn) = Some o
    /\ op_error len flags (pc m) o insn = None
    /\ filter_step (mkProgram prog) pkt m
       = Ret (flow_of (pc m + 1) (exec o insn pkt (regs_of m))).
Proof using Hwf Hvalid Hpkt.
  intros [Hpc Hr]. pose proof valid_len as Hlen.
  destruct (lookup_lt_is_Some_2 prog (Z.to_nat (pc m))) as [insn Hinsn]; [subst len; lia|].
  destruct (valid_insn _ _ Hinsn) as (o & Ho & Herr). rewrite Z2Nat.id in Herr by lia.
  exists insn, o. do 3 (split; [done|]).
  unfold filter_step. rewrite (get_unchecked_lookup prog _ insn) by (done || lia).
  cbn [mbind outcome_bind insns]. unfold u32_MAX in Hlen.
  destruct (Z.ltb_spec (pc m + 1) (2 ^ 32)); [|lia].
  assert (insn_wf insn) as Hiw by (by eapply Forall_lookup_1 in Hinsn).
  destruct (arm_spec pkt Hpkt insn Hiw (set_pc (pc m + 1) m) Hr len flags (pc m)
              ltac:(done) ltac:(done) o Herr eq_refl) as (act & Hact & Heq).
  rewrite (decode_op_Some _ _ Ho), Hact. exact Heq.
Qed.

(** Where an operation that does not return continues. *)
Lemma jump_target i o insn r s r' :
  0 <= i -> insn_wf insn -> i + 1 < len ->
  op_error len flags i o insn = None -> exec o insn pkt r = Jump s r' -> 0 <= s ->
  wrap 32 (i + 1 + s) < len
  /\ (backward_allowed flags = false -> i + 1 + s < len).
Proof using Hvalid.
  intros Hi Hw Hn Herr He Hs. pose proof valid_len as Hlen. unfold u32_MAX in Hlen.
  cut (s = 0 \/ i + 1 + s < len \/ (backward_allowed flags = true /\ wrap 32 (i + 1 + s) < len)).
  { intros [->|[?|[-> ?]]]; (split; [|try done; lia]); try done;
      rewrite wrap_small by (unfold is_uint; lia); lia. }
  destruct o; cbn -[Z.pow Z.modulo] in He; unfold or_reject, next in He;
    repeat case_match; simplify_eq; auto.
  all: right; cbn -[backward_allowed Z.modulo Z.pow] in Herr.
  - destruct (backward_allowed flags); [right; split; [done|]|left];
      destruct (_ <? len) eqn:E in Herr; try done; unfold wrap; lia.
  - left. destruct (_ <? len) eqn:E in Herr; [lia|done].
  - left. destruct (_ <? len) eqn:E in Herr; [lia|done].
Qed.

Lemma filter_step_ok m :
  machine_ok m ->
  match filter_step (mkProgram prog) pkt m with
  | Ret (Break v) => is_u32 v
  | Ret (Continue m') =>
      machine_ok m' /\ (backward_allowed flags = false -> pc m < pc m')
  | _ => False
  end.
Proof using Hwf Hvalid Hpkt.
  intros Hm. destruct (filter_step_spec m Hm) as (insn & o & Hi & Ho & Herr & ->).
  destruct Hm as [Hpc Hr].
  assert (insn_wf insn) as Hiw by (by eapply Forall_lookup_1 in Hi).
  pose proof (exec_wf o len flags (pc m) insn pkt (regs_of m) Hiw Hpkt Hr Herr) as Hew.
  pose proof (valid_next _ _ _ Hi Ho) as Hnext. rewrite Z2Nat.id in Hnext by lia.
  destruct (exec o insn pkt (regs_of m)) as [s r|v] eqn:He; cbn; [|done].
  destruct Hew as [Hs Hrw].
  assert (pc m + 1 < len) as Hn by (destruct Hnext as [|[-> | ->]]; [done| |]; cbn in He; done).
  destruct (jump_target (pc m) o insn (regs_of m) s r) as [Ht1 Ht2]; [lia|done..|].
  split; [split; [split; [by apply wrap_bound|done]|done]|].
  intros Hb. specialize (Ht2 Hb). pose proof valid_len. unfold u32_MAX in *.
  rewrite wrap_small by (unfold is_uint; lia). lia.
Qed.

Lemma init_ok : machine_ok init_machine.
Proof using Hwf Hvalid.
  assert (Forall (fun v => is_u32 v) (replicate 16 0)) as Hz.
  { apply Forall_replicate. unfold is_uint. lia. }
  split; [|repeat split; done]. split; [done|]. cbn. subst len.
  revert Hvalid. unfold validate_spec, ends_in_ret.
  destruct prog; cbn; [|lia]. done.
Qed.

Lemma filter_loop_ok fuel : forall m,
  machine_ok m ->
  filter_loop fuel (mkProgram prog) pkt m = OutOfFuel
  \/ exists v, filter_loop fuel (mkProgram prog) pkt m = Ret v /\ is_u32 v.
Proof using Hwf Hvalid Hpkt.
  induction fuel as [|fuel IH]; intros m Hm; [by left|].
  cbn [filter_loop]. pose proof (filter_step_ok m Hm) as Hs.
  destruct (filter_step _ pkt m) as [[m'|v]| | |]; try done; cbn; [apply IH, Hs|].
  right. eauto.
Qed.

(** Forward jumps only: the loop ends within the rest of the program and
    computes [eval]. *)
Lemma filter_loop_eval fuel : forall m,
  backward_allowed flags = false -> machine_ok m -> len - pc m <= Z.of_nat fuel ->
  exists v, filter_loop fuel (mkProgram prog) pkt m = Ret v
    /\ eval (Z.to_nat (pc m)) prog pkt (regs_of m) = Some v.
Proof using Hwf Hvalid Hpkt.
  induction fuel as [|fuel IH]; intros m Hb Hm Hfuel; [destruct Hm; lia|].
  cbn [filter_loop]. pose proof (filter_step_ok m Hm) as Hok.
  destruct (filter_step_spec m Hm) as (insn & o & Hi & Ho & Herr & Hstep).
  rewrite Hstep in Hok |- *. rewrite eval_skip, (drop_S _ _ _ Hi). cbn [eval]. rewrite Ho.
  destruct (exec o insn pkt (regs_of m)) as [s r|v] eqn:He; cbn [flow_of] in *; [|by exists v].
  destruct Hok as [Hok Hlt]. specialize (Hlt Hb).
  destruct (IH _ Hb Hok ltac:(cbn in *; lia)) as (v & Hv & Hev). exists v. split; [exact Hv|].
  destruct Hm as [Hpc Hr]. cbn [pc regs_of mem a x] in *.
  assert (insn_wf insn) as Hiw by (by eapply Forall_lookup_1 in Hi).
  pose proof (exec_wf o len flags (pc m) insn pkt (regs_of m) Hiw Hpkt Hr Herr) as Hew.
  rewrite He in Hew. destruct Hew as [Hs _].
  pose proof (valid_next _ _ _ Hi Ho) as Hnext. rewrite Z2Nat.id in Hnext by lia.
  assert (pc m + 1 < len) as Hn by (destruct Hnext as [|[-> | ->]]; [done| |]; cbn in He; done).
  destruct (jump_target (pc m) o insn (regs_of m) s r) as [_ Ht]; [lia|done..|].
  specialize (Ht Hb). pose proof valid_len. unfold u32_MAX in *.
  rewrite wrap_small in Hev by (unfold is_uint; lia).
  rewrite eval_skip, drop_drop, <- eval_skip. rewrite <- Hev.
  f_equal; [lia|by destruct r].
Qed.

(** Any jumps: the loop computes the runs of the program. *)
Lemma filter_loop_runs m v :
  machine_ok m ->
  (exists fuel, filter_loop fuel (mkProgram prog) pkt m = Ret v)
  <-> runs prog pkt (pc m) (regs_of m) v.
Proof using Hwf Hvalid Hpkt.
  intros Hm. split.
  - intros [fuel Hf]. revert m Hm Hf. induction fuel as [|fuel IH]; intros m Hm; [done|].
    cbn [filter_loop]. pose proof (filter_step_ok m Hm) as Hok.
    destruct (filter_step_spec m Hm) as (insn & o & Hi & Ho & _ & Hstep).
    rewrite Hstep in Hok |- *.
    destruct (exec o insn pkt (regs_of m)) as [s r|w] eqn:He; cbn [flow_of] in *.
    + intros Hf. apply IH in Hf; [|apply Hok]. eapply runs_jump; [done..|].
      destruct r. exact Hf.
    + intros [= <-]. by eapply runs_return.
  - remember (pc m) as p eqn:Hp. remember (regs_of m) as r eqn:Hr. intros Hrun.
    revert m Hm Hp Hr. induction Hrun as [p r insn o v Hi Ho He|p r insn o s r' v Hi Ho He _ IH];
      intros m Hm -> ->;
      destruct (filter_step_spec m Hm) as (insn' & o' & Hi' & Ho' & _ & Hstep); simplify_eq.
    + exists 1%nat. cbn [filter_loop]. by rewrite Hstep, He.
    + pose proof (filter_step_ok m Hm) as Hok. rewrite Hstep, He in Hok. cbn [flow_of] in Hok.
      destruct (IH _ (proj1 Hok) eq_refl) as [fuel Hf]; [by destruct r'|].
      exists (S fuel). cbn [filter_loop]. by rewrite Hstep, He.
Qed.
End program.

Lemma validate_Ok prog flags p :
  Forall insn_wf prog -> validate_with_flags prog flags = Ret (Ok p) ->
  p = mkProgram prog /\ validate_spec flags prog = Ok tt.
Proof.
  intros Hwf. unfold validate_with_flags. rewrite do_validate_eq by done. cbn.
  destruct (validate_spec flags prog) as [[]|e]; [|done]. by intros [= <-].
Qed.

Lemma op_error_operands len i o insn :
  op_error len 0 i o insn = None <-> operands_ok len i o insn.
Proof.
  destruct o as [| |[]|[]| | | | | | | | | | |[] []|[] []| | |]; cbn;
    unfold MEMWORDS; try (split; done);
    (match goal with |- context [if ?b then _ else _] => destruct b eqn:E end);
    split; intros; done || lia.
Qed.

Lemma ends_in_ret_iff prog :
  ends_in_ret prog = true <->
  exists insn, last prog = Some insn /\ (code insn = RET .| K \/ code insn = RET .| A).
Proof.
  unfold ends_in_ret. destruct (last prog) as [insn|]; [|naive_solver].
  rewrite bool_decide_eq_true. split.
  - intros [H|H]; apply decode_op_Some in H; eauto.
  - intros (? & [= <-] & [->| ->]); [left|right]; reflexivity.
Qed.

(** The codes the validator accepts for some operands are those with an arm. *)
Lemma arm_code_valid c act :
  find_arm c filter_arms = Some act ->
  validate_insn 10 0 0 (mkInsn c 0 0 1) = pass.
Proof.
  intros Hf.
  assert (Forall (fun c => validate_insn 10 0 0 (mkInsn c 0 0 1) = pass) filter_arms.*1) as Hall.
  { by_decide. }
  rewrite Forall_forall in Hall. apply Hall. clear Hall.
  revert Hf. generalize filter_arms as arms. induction arms as [|[c' act'] arms IH]; [done|].
  cbn. destruct (Z.eqb_spec c c') as [->|]; [left|right; auto].
Qed.

(** ** Example programs *)

(** Accept IPv4 packets: ldh [12]; jeq #0x800, 0, 1; ret #65535; ret #0. *)
Definition ipv4_prog : list BpfInsn :=
  [stmt (LD .| H .| ABS) 12; jump (JMP .| JEQ .| K) 0x800 0 1;
   stmt (RET .| K) 65535; stmt (RET .| K) 0].

Definition ipv4_pkt : list Z := replicate 12 0 ++ [8; 0; 69].

(** ja -1; ret #0. *)
Definition spin_prog : list BpfInsn :=
  [stmt (JMP .| JA) 0xffffffff; stmt (RET .| K) 0].

(** ** The properties *)

(** C1 (safety). A program that the validator accepts, with any flags, never
    panics and never has undefined behaviour, whatever the packet and however
    long it runs: no unchecked access is out of bounds, no unchecked addition
    overflows, the unreachable arm is not reached; and what it returns fits in
    32 bits. *)
Theorem filter_validated_safe prog flags p pkt fuel :
  Forall insn_wf prog -> pkt_wf pkt ->
  validate_with_flags prog flags = Ret (Ok p) ->
  filter_slice fuel p pkt = OutOfFuel
  \/ exists v, filter_slice fuel p pkt = Ret v /\ is_u32 v.
Proof.
  intros Hwf Hpkt [-> Hv]%validate_Ok; [|done].
  eapply filter_loop_ok; [done..|]. by eapply init_ok.
Qed.

Lemma filter_validated_safe_witness :
  filter_slice 5 (mkProgram spin_prog) ipv4_pkt = OutOfFuel
  \/ exists v, filter_slice 5 (mkProgram spin_prog) ipv4_pkt = Ret v /\ is_u32 v.
Proof.
  apply (filter_validated_safe spin_prog 1); [by_decide..|reflexivity].
Defined.

(** C2 (termination and refinement). A program accepted by [validate], which
    does not allow backward jumps, terminates within as many iterations as it
    has instructions, and the filter returns the value that the reference
    semantics gives it by structural recursion on the program. *)
Theorem filter_forward_total prog p pkt :
  Forall insn_wf prog -> pkt_wf pkt -> validate prog = Ret (Ok p) ->
  exists v, eval_prog prog pkt = Some v
    /\ forall fuel, (length prog <= fuel)%nat -> filter_slice fuel p pkt = Ret v.
Proof.
  intros Hwf Hpkt [-> Hv]%validate_Ok; [|done].
  pose proof (init_ok prog 0 Hwf Hv) as Hinit.
  destruct (filter_loop_eval prog 0 Hwf Hv pkt Hpkt (length prog) init_machine) as (v & _ & Hev);
    [done..|cbn; lia|].
  exists v. split; [exact Hev|]. intros fuel Hfuel.
  destruct (filter_loop_eval prog 0 Hwf Hv pkt Hpkt fuel init_machine) as (v' & Hv' & Hev');
    [done..|cbn; lia|].
  unfold filter_slice. rewrite Hv'. congruence.
Qed.

Lemma filter_forward_total_witness :
  exists v, eval_prog ipv4_prog ipv4_pkt = Some v
    /\ forall fuel, (4 <= fuel)%nat ->
         filter_slice fuel (mkProgram ipv4_prog) ipv4_pkt = Ret v.
Proof.
  apply (filter_forward_total ipv4_prog); [by_decide..|reflexivity].
Defined.

(** The fuzz targets can find no failure, on any input: they return, the filter
    within as many iterations as there are instructions. *)
Lemma fuzz_targets_pass fuzz_in :
  Forall insn_wf (fz_insn fuzz_in) -> pkt_wf (fz_pkt fuzz_in) ->
  (forall fuel, (length (fz_insn fuzz_in) <= fuel)%nat -> fuzz_filter fuel fuzz_in = Ret tt)
  /\ fuzz_validate (fz_insn fuzz_in) = Ret tt.
Proof.
  intros Hwf Hpkt. unfold fuzz_filter, fuzz_validate.
  assert (exists r, validate (fz_insn fuzz_in) = Ret r) as [r Hr].
  { unfold validate, validate_with_flags. rewrite do_validate_eq by done. cbn. destruct (validate_spec _ _); by eexists. }
  rewrite Hr. split; [|done]. intros fuel Hfuel. cbn. destruct r as [p|]; [|done].
  pose proof Hr as [-> Hv]%validate_Ok; [|done].
  destruct (filter_loop_eval _ 0 Hwf Hv (fz_pkt fuzz_in) Hpkt fuel init_machine) as (v & Hrun & _);
    [done|by eapply init_ok|cbn; lia|].
  unfold filter_slice. by rewrite Hrun.
Qed.

(** C3 (equivalence). For an accepted program, backward jumps or not, the
    interpreter returns a value for some number of iterations exactly when the
    reference small-step semantics has a run that returns this value. *)
Theorem filter_computes_runs prog flags p pkt v :
  Forall insn_wf prog -> pkt_wf pkt ->
  validate_with_flags prog flags = Ret (Ok p) ->
  (exists fuel, filter_slice fuel p pkt = Ret v) <-> runs prog pkt 0 init_regs v.
Proof.
  intros Hwf Hpkt [-> Hv]%validate_Ok; [|done].
  apply (filter_loop_runs prog flags Hwf Hv pkt Hpkt init_machine v). by eapply init_ok.
Qed.

Lemma filter_computes_runs_witness :
  (exists fuel, filter_slice fuel (mkProgram ipv4_prog) ipv4_pkt = Ret 65535)
  <-> runs ipv4_prog ipv4_pkt 0 init_regs 65535.
Proof. apply (filter_computes_runs ipv4_prog 0); [by_decide..|reflexivity]. Defined.

(** C4 (functional, errors). The validator returns, without panicking, the
    verdict of the specification: the program is too large; or the error of its
    first bad instruction, classified by its operation; or a missing return;
    or success. *)
Theorem do_validate_spec prog flags :
  Forall insn_wf prog -> do_validate prog flags = Ret (validate_spec flags prog).
Proof. apply do_validate_eq. Qed.

Lemma do_validate_spec_witness :
  do_validate spin_prog 0 = Ret (validate_spec 0 spin_prog)
  /\ validate_spec 0 spin_prog = Err BadJumpTarget.
Proof. split; [apply (do_validate_spec spin_prog 0); by_decide|reflexivity]. Defined.

(** C5 (type). [validate] accepts exactly the well-formed programs: at most
    [u32::MAX] instructions, each with a defined code and operands in range,
    the last one a return. *)
Theorem validate_iff_well_formed prog :
  Forall insn_wf prog ->
  validate prog = Ret (Ok (mkProgram prog)) <-> well_formed prog.
Proof.
  intros Hwf. unfold validate, validate_with_flags. rewrite do_validate_eq by done. cbn.
  transitivity (validate_spec 0 prog = Ok tt).
  { destruct (validate_spec 0 prog) as [[]|]; naive_solver. }
  unfold validate_spec, well_formed. rewrite <- ends_in_ret_iff.
  destruct (Z.gtb_spec (Z.of_nat (length prog)) u32_MAX); [split; [done|lia]|].
  assert (errors 0 prog = [] <->
    forall i insn, prog !! i = Some insn -> exists o, code insn = encode_op o
      /\ operands_ok (Z.of_nat (length prog)) (Z.of_nat i) o insn) as <-.
  { rewrite errors_nil. unfold insn_error. split; intros Hall i insn Hi.
    - specialize (Hall i insn Hi). destruct (decode_op (code insn)) as [o|] eqn:Ho; [|done].
      exists o. split; [by apply decode_op_Some|]. by apply op_error_operands.
    - destruct (Hall i insn Hi) as (o & -> & Hok).
      rewrite decode_op_encode_op. by apply op_error_operands. }
  destruct (errors 0 prog); [|naive_solver]. destruct (ends_in_ret prog); naive_solver.
Qed.

Lemma validate_iff_well_formed_witness :
  validate ipv4_prog = Ret (Ok (mkProgram ipv4_prog)) /\ well_formed ipv4_prog.
Proof.
  split; [reflexivity|]. apply (validate_iff_well_formed ipv4_prog); [by_decide|reflexivity].
Defined.

(** The arms of the interpreter are exactly the instruction codes
    that the validator accepts for some operands: no accepted code falls through
    to [unreachable_unchecked()], and no arm is dead. *)
Theorem arms_are_valid_codes c :
  is_u16 c ->
  (exists act, find_arm c filter_arms = Some act) <->
  (exists len flags i insn, len <= u32_MAX /\ 0 <= i < len /\ insn_wf insn
     /\ code insn = c /\ validate_insn len flags i insn = pass).
Proof.
  intros Hc. split.
  - intros [act Hact]. exists 10, 0, 0, (mkInsn c 0 0 1).
    repeat split; try done; [apply Hc|apply Hc|by eapply arm_code_valid].
  - intros (len & flags & i & insn & Hlen & Hi & Hwf & <- & Hv).
    rewrite validate_insn_spec in Hv by done. unfold insn_error in Hv.
    destruct (decode_op (code insn)) as [o|] eqn:Ho; [|done].
    apply decode_op_Some in Ho. rewrite Ho.
    destruct o as [| |[]|[]| | | | | | | | | | |[] []|[] []| | |]; pick_arm; eauto.
Qed.

Lemma arms_are_valid_codes_witness :
  (exists act, find_arm (RET .| LEN) filter_arms = Some act) <->
  (exists len flags i insn, len <= u32_MAX /\ 0 <= i < len /\ insn_wf insn
     /\ code insn = (RET .| LEN) /\ validate_insn len flags i insn = pass).
Proof. apply (arms_are_valid_codes (RET .| LEN)). by_decide. Defined.

(** Allowing backward jumps gives up termination: the program
    that jumps to itself is rejected by [validate], is accepted with
    [VALIDATE_ALLOW_BACKWARD_JUMPS], and then never returns on any packet. *)
Theorem backward_jumps_may_diverge :
  validate spin_prog = Ret (Err BadJumpTarget)
  /\ validate_with_flags spin_prog VALIDATE_ALLOW_BACKWARD_JUMPS
     = Ret (Ok (mkProgram spin_prog))
  /\ forall fuel pkt, filter_slice fuel (mkProgram spin_prog) pkt = OutOfFuel.
Proof.
  split; [reflexivity|]. split; [reflexivity|]. intros fuel pkt. unfold filter_slice.
  assert (filter_step (mkProgram spin_prog) pkt init_machine = Ret (Continue init_machine)) as Hs
    by reflexivity.
  induction fuel as [|fuel IH]; [done|]. cbn [filter_loop]. by rewrite Hs.
Qed.
