(* ===== verification/CslabWord.v ===== *)
(** 64-bit words of the slab's bitmap: the operators and [usize] methods that
    cslab/src/lib.rs applies to them. *)

From S2P Require Import Prelude.

(** [w >> s], [w << s] for [s < 64], [!w], [usize::trailing_zeros] and
    [usize::leading_zeros]. *)
Definition shr (w s : Z) : Z := Z.shiftr w s.
Definition shl (w s : Z) : Z := wrap usize_BITS (Z.shiftl w s).
Definition not_ (w : Z) : Z := Z.lxor w usize_MAX.

Fixpoint pos_trailing_zeros (p : positive) : Z :=
  match p with
  | xO q => 1 + pos_trailing_zeros q
  | _ => 0
  end.

Definition trailing_zeros (w : Z) : Z :=
  match w with
  | Zpos p => pos_trailing_zeros p
  | _ => usize_BITS
  end.

Definition leading_zeros (w : Z) : Z :=
  if w =? 0 then usize_BITS else usize_BITS - 1 - Z.log2 w.

(** ** Properties *)

Lemma pos_trailing_zeros_spec p :
  0 <= pos_trailing_zeros p
  /\ Z.testbit (Zpos p) (pos_trailing_zeros p) = true
  /\ forall j, 0 <= j < pos_trailing_zeros p -> Z.testbit (Zpos p) j = false.
Proof.
  induction p as [p _|p (Hp & Ht & Hl)|]; cbn [pos_trailing_zeros].
  - split; [lia|split; [done|lia]].
  - split; [lia|]. rewrite Pos2Z.inj_xO. split.
    + replace (1 + pos_trailing_zeros p) with (Z.succ (pos_trailing_zeros p)) by lia.
      by rewrite Z.testbit_even_succ by lia.
    + intros j Hj. destruct (decide (j = 0)) as [->|].
      * apply Z.testbit_even_0.
      * replace j with (Z.succ (j - 1)) by lia. rewrite Z.testbit_even_succ by lia.
        apply Hl. lia.
  - split; [lia|split; [done|lia]].
Qed.

Lemma trailing_zeros_spec w :
  0 < w ->
  0 <= trailing_zeros w /\ Z.testbit w (trailing_zeros w) = true
  /\ forall j, 0 <= j < trailing_zeros w -> Z.testbit w j = false.
Proof. destruct w as [|p|p]; [lia| |lia]. intros _. apply pos_trailing_zeros_spec. Qed.

Lemma trailing_zeros_bound w : is_usize w -> 0 < w -> trailing_zeros w < 64.
Proof.
  intros Hw Hpos. destruct (trailing_zeros_spec w Hpos) as (_ & Ht & _).
  destruct (Z.ltb_spec (trailing_zeros w) 64); [done|].
  apply is_uint_testbit in Hw as [_ Hw]; [|lia]. by rewrite Hw in Ht by lia.
Qed.

Lemma leading_zeros_spec w :
  is_usize w -> 0 < w ->
  0 <= leading_zeros w < 64 /\ Z.testbit w (63 - leading_zeros w) = true
  /\ forall j, 0 <= j < leading_zeros w -> Z.testbit w (63 - j) = false.
Proof.
  intros Hw Hpos. unfold leading_zeros, usize_BITS. destruct (Z.eqb_spec w 0); [lia|].
  pose proof (Z.log2_nonneg w). pose proof (Z.log2_lt_pow2 w 64 Hpos) as [Hlog _].
  specialize (Hlog (proj2 Hw)). split; [lia|]. split.
  - replace (63 - (64 - 1 - Z.log2 w)) with (Z.log2 w) by lia. by apply Z.bit_log2.
  - intros j Hj. apply Z.bits_above_log2; lia.
Qed.

(** A word that is zero has no bit set; one that is not has one. *)
Lemma word_zero_bits w : 0 <= w -> (w = 0 <-> forall j, 0 <= j -> Z.testbit w j = false).
Proof.
  intros Hw. split; [intros -> j _; apply Z.bits_0|].
  intros H. apply Z.bits_inj'. intros j Hj. rewrite Z.bits_0. by apply H.
Qed.

Lemma shr_testbit w s j : 0 <= s -> 0 <= j -> Z.testbit (shr w s) j = Z.testbit w (j + s).
Proof. intros Hs Hj. unfold shr. by rewrite Z.shiftr_spec by lia. Qed.

Lemma shl_testbit w s j :
  0 <= s -> 0 <= j < 64 ->
  Z.testbit (shl w s) j = (s <=? j) && Z.testbit w (j - s).
Proof.
  intros Hs Hj. unfold shl, wrap, usize_BITS. rewrite Z.mod_pow2_bits_low by lia.
  rewrite Z.shiftl_spec by lia. destruct (Z.leb_spec s j); [done|].
  by rewrite Z.testbit_neg_r by lia.
Qed.

Lemma shr_usize w s : is_usize w -> 0 <= s -> is_usize (shr w s).
Proof.
  intros Hw Hs. apply is_uint_testbit in Hw as [Hw Hb]; [|lia]. apply is_uint_testbit; [lia|].
  split; [by apply Z.shiftr_nonneg|]. intros i Hi. rewrite shr_testbit by lia. apply Hb. lia.
Qed.

Lemma shl_usize w s : is_usize (shl w s).
Proof. by apply wrap_bound. Qed.

(** Setting, clearing and testing the bit [b] of a word, as the source does. *)
Lemma one_shl b : 0 <= b < 64 -> shl 1 b = 2 ^ b.
Proof.
  intros Hb. unfold shl. rewrite Z.shiftl_1_l. apply wrap_small. unfold is_uint, usize_BITS.
  pose proof (Z.pow_lt_mono_r 2 b 64). pose proof (Z.pow_pos_nonneg 2 b). lia.
Qed.

Lemma bit_test w b : 0 <= b -> Z.land (shr w b) 1 = Z.b2z (Z.testbit w b).
Proof.
  intros Hb. change 1 with (Z.ones 1) at 1. rewrite Z.land_ones by lia. change (2 ^ 1) with 2.
  rewrite <- Z.bit0_mod, shr_testbit by lia. by rewrite Z.add_0_l.
Qed.

Lemma bit_set_testbit w b j :
  0 <= b < 64 -> 0 <= j ->
  Z.testbit (Z.lor w (shl 1 b)) j = (j =? b) || Z.testbit w j.
Proof.
  intros Hb Hj. rewrite one_shl, Z.lor_spec, Z.pow2_bits_eqb by lia.
  rewrite (Z.eqb_sym b j). btauto.
Qed.

Lemma bit_clear_testbit w b j :
  0 <= b < 64 -> is_usize w -> 0 <= j ->
  Z.testbit (Z.land w (not_ (shl 1 b))) j = negb (j =? b) && Z.testbit w j.
Proof.
  intros Hb Hw Hj. unfold not_, usize_MAX. rewrite one_shl, Z.land_spec, Z.lxor_spec by lia.
  rewrite Z.pow2_bits_eqb by lia. rewrite (Z.eqb_sym b j).
  change (2 ^ 64 - 1) with (Z.ones 64).
  destruct (Z.ltb_spec j 64).
  - rewrite Z.ones_spec_low by lia. btauto.
  - apply is_uint_testbit in Hw as [_ Hw]; [|lia]. rewrite Hw by lia. btauto.
Qed.

Lemma bit_set_usize w b : is_usize w -> is_usize (Z.lor w (shl 1 b)).
Proof. intros Hw. apply uint_lor; [lia|done|apply shl_usize]. Qed.

Lemma bit_clear_usize w b : 0 <= b < 64 -> is_usize w -> is_usize (Z.land w (not_ (shl 1 b))).
Proof.
  intros Hb Hw. apply uint_land; [lia|done|]. unfold not_. apply Z.lxor_nonneg.
  pose proof (proj1 (shl_usize 1 b)). unfold usize_MAX. lia.
Qed.

(** ** Scanning a word for the next flag

    The distance from bit [b] to the next flag that is set at or above it, or to
    the next word; and the distance down to the flag at or below it. *)

Definition scan_step (v b : Z) : Z :=
  if shr v b =? 0 then 64 - b else trailing_zeros (shr v b).
Definition scan_back_step (v b : Z) : Z :=
  if shl v (64 - (b + 1)) =? 0 then b + 1 else leading_zeros (shl v (64 - (b + 1))).

Lemma scan_step_spec v b :
  is_usize v -> 0 <= b < 64 ->
  0 <= scan_step v b <= 64 - b
  /\ (forall j, 0 <= j < scan_step v b -> Z.testbit v (b + j) = false)
  /\ (shr v b <> 0 -> scan_step v b < 64 - b /\ Z.testbit v (b + scan_step v b) = true).
Proof.
  intros Hv Hb. assert (is_usize (shr v b)) as Hs by (apply shr_usize; [done|lia]).
  assert (forall j, 0 <= j -> Z.testbit v (b + j) = Z.testbit (shr v b) j) as Hbit.
  { intros j Hj. rewrite shr_testbit by lia. f_equal. lia. }
  unfold scan_step. destruct (Z.eqb_spec (shr v b) 0) as [Hz|Hnz].
  - split; [lia|]. split; [|done]. intros j Hj. rewrite Hbit, Hz by lia. apply Z.bits_0.
  - destruct (trailing_zeros_spec (shr v b)) as (Ht0 & Ht & Hl); [destruct Hs; lia|].
    assert (trailing_zeros (shr v b) < 64 - b) as Hlt.
    { rewrite <- Hbit in Ht by lia. apply is_uint_testbit in Hv as [_ Hv]; [|lia].
      destruct (Z.ltb_spec (trailing_zeros (shr v b)) (64 - b)); [done|]. by rewrite Hv in Ht by lia. }
    split; [lia|]. split; [|intros _; split; [done|by rewrite Hbit]].
    intros j Hj. rewrite Hbit by lia. by apply Hl.
Qed.

Lemma scan_back_step_spec v b :
  0 <= b < 64 ->
  0 <= scan_back_step v b <= b + 1
  /\ (forall j, 0 <= j < scan_back_step v b -> Z.testbit v (b - j) = false)
  /\ (shl v (64 - (b + 1)) <> 0 -> scan_back_step v b <= b /\ Z.testbit v (b - scan_back_step v b) = true).
Proof.
  intros Hb. unfold scan_back_step. set (u := shl v (64 - (b + 1))).
  assert (is_usize u) as Hu by apply shl_usize.
  assert (forall j, 0 <= j <= 63 -> Z.testbit u (63 - j) = (j <=? b) && Z.testbit v (b - j)) as Hbit.
  { intros j Hj. unfold u. rewrite shl_testbit by lia. f_equal; [|f_equal; lia].
    destruct (Z.leb_spec (64 - (b + 1)) (63 - j)), (Z.leb_spec j b); lia. }
  assert (forall j, 0 <= j <= b -> Z.testbit v (b - j) = Z.testbit u (63 - j)) as Hbit'.
  { intros j Hj. rewrite Hbit by lia. by destruct (Z.leb_spec j b); [|lia]. }
  destruct (Z.eqb_spec u 0) as [Hz|Hnz].
  - split; [lia|]. split; [|done]. intros j Hj. rewrite Hbit', Hz by lia. apply Z.bits_0.
  - destruct (leading_zeros_spec u Hu) as (Hl0 & Hl & Hlow); [destruct Hu; lia|].
    rewrite Hbit in Hl by lia. apply andb_prop in Hl as [Hle%Z.leb_le Hl].
    split; [lia|]. split; [|done]. intros j Hj. rewrite Hbit' by lia. by apply Hlow.
Qed.
