(* ===== verification/CslabStorage.v ===== *)
(** The storage of the slab: [Entry], [CslabStorage], its memory layout and the
    lookups [get_impl], [contains_key_impl], [get_unchecked_impl] of
    cslab/src/lib.rs. *)

From S2P Require Import Prelude CslabWord.

(** ** Layouts ([std::alloc::Layout]) *)

Record layout := mkLayout { l_size : Z; l_align : Z }.

(** [Layout::from_size_align]: the size rounded up to the alignment must not
    exceed [isize::MAX]. *)
Definition layout_from_size_align (sz al : Z) : option layout :=
  if sz <=? isize_MAX - (al - 1) then Some (mkLayout sz al) else None.

(** [Layout::array::<X>(n)] for a type [X] of layout [elt]. *)
Definition layout_array (elt : layout) (n : Z) : option layout :=
  layout_from_size_align (l_size elt * n) (l_align elt).

(** [x] rounded up to a multiple of [al]. *)
Definition round_up (x al : Z) : Z := (x + al - 1) / al * al.

(** [Layout::extend]: the layout of [l] followed by [next], and the offset of
    [next] in it. *)
Definition layout_extend (l next : layout) : option (layout * Z) :=
  let offset := round_up (l_size l) (l_align next) in
  l' ← layout_from_size_align (offset + l_size next) (Z.max (l_align l) (l_align next));
  Some (l', offset).

Definition unwrap {A} (o : option A) : outcome A :=
  match o with Some x => Ret x | None => Panic end.

Definition usize_layout : layout := mkLayout 8 8.

(** The number of words of a bitmap of [n] bits. *)
Definition bitmap_len (n : Z) : outcome Z :=
  s ← add_u 64 n usize_BITS;
  s' ← sub_u 64 s 1;
  Ret (s' / usize_BITS).

(** [CslabStorage::table_layout], [bitmap_layout] and [storage_layout]; [entry]
    is the layout of [Entry<T>]. *)
Definition table_layout (entry : layout) (n : Z) : outcome layout :=
  unwrap (layout_array entry n).

Definition bitmap_layout (n : Z) : outcome layout :=
  words ← bitmap_len n;
  unwrap (layout_array usize_layout words).

Definition storage_layout (entry : layout) (n : Z) : outcome (layout * Z) :=
  t ← table_layout entry n;
  b ← bitmap_layout n;
  unwrap (layout_extend t b).

(** ** Storage *)

(** [union Entry<T>].  The union has no tag; the constructor records which
    member was written last, so that reading the other one is undefined
    behaviour. *)
Inductive entry (T : Type) : Type :=
| Free (next_free : Z)     (* isize *)
| Item (item : T).
Arguments Free {T} _.
Arguments Item {T} _.

(** [struct CslabStorage]; [table] and [bitmap] are the two parts of the
    allocation at [ptr], the second one [bitmap_offset] bytes into it. *)
Record storage (T : Type) := mkStorage {
  size : Z;
  frontier : Z;
  table : list (entry T);
  bitmap : list Z;
  bitmap_offset : Z;
}.
Arguments mkStorage {T} _ _ _ _ _.
Arguments size {T} _.
Arguments frontier {T} _.
Arguments table {T} _.
Arguments bitmap {T} _.
Arguments bitmap_offset {T} _.

Definition set_frontier {T} (f : Z) (s : storage T) : storage T :=
  mkStorage (size s) f (table s) (bitmap s) (bitmap_offset s).
Definition set_table {T} (t : list (entry T)) (s : storage T) : storage T :=
  mkStorage (size s) (frontier s) t (bitmap s) (bitmap_offset s).
Definition set_bitmap {T} (b : list Z) (s : storage T) : storage T :=
  mkStorage (size s) (frontier s) (table s) b (bitmap_offset s).

(** [CslabStorage::with_fixed_capacity].  The allocation is zeroed, which makes
    every entry a free entry that links to its neighbour. *)
Definition storage_with_fixed_capacity {T} (entry_layout : layout) (sz : Z)
  : outcome (storage T) :=
  assert! (sz >? 0) ;;
  '(_, offset) ← storage_layout entry_layout sz;
  words ← bitmap_len sz;
  Ret (mkStorage sz 0 (replicate (Z.to_nat sz) (Free 0)) (replicate (Z.to_nat words) 0) offset).

(** Slice indexing, which panics out of range. *)
Definition index {A} (l : list A) (i : Z) : outcome A :=
  if i <? 0 then Panic
  else match l !! Z.to_nat i with Some y => Ret y | None => Panic end.

(** Storing at an index that has been bounds-checked. *)
Definition store {A} (l : list A) (i : Z) (y : A) : list A := <[Z.to_nat i := y]> l.

(** The members of the union. *)
Definition read_next_free {T} (e : entry T) : outcome Z :=
  match e with Free nf => Ret nf | Item _ => UB end.
Definition read_item {T} (e : entry T) : outcome T :=
  match e with Item t => Ret t | Free _ => UB end.

(** [self.storage.bitmap()[idx / BITS].load(..)] *)
Definition load_word {T} (s : storage T) (idx : Z) : outcome Z :=
  index (bitmap s) (idx / usize_BITS).

(** [(mask >> (idx % BITS)) & 1] *)
Definition flag (mask idx : Z) : Z := Z.land (shr mask (idx mod usize_BITS)) 1.

Definition contains_key_impl {T} (s : storage T) (idx : Z) : outcome bool :=
  if idx >=? size s then Ret false
  else mask ← load_word s idx; Ret (negb (flag mask idx =? 0)).

Definition get_unchecked_impl {T} (s : storage T) (idx : Z) : outcome T :=
  e ← index (table s) idx; read_item e.

Definition get_impl {T} (s : storage T) (idx : Z) : outcome (option T) :=
  b ← contains_key_impl s idx;
  if (b : bool) then t ← get_unchecked_impl s idx; Ret (Some t) else Ret None.

(** ** Facts *)

(** The flag of index [i], as a bit of the bitmap. *)
Definition bit {T} (s : storage T) (i : Z) : bool :=
  Z.testbit (bitmap s !!! Z.to_nat (i / 64)) (i mod 64).

Definition words (n : Z) : Z := (n + 63) / 64.

Lemma words_index n i : 0 <= i < n -> 0 <= i / 64 < words n.
Proof.
  unfold words. intros Hi. split; [apply Z.div_pos; lia|].
  apply Z.div_lt_upper_bound; [lia|].
  pose proof (Z_div_mod_eq_full (n + 63) 64). pose proof (Z.mod_pos_bound (n + 63) 64 eq_refl). lia.
Qed.

Lemma bitmap_len_eq n : n + 64 < 2 ^ 64 -> 0 <= n -> bitmap_len n = Ret (words n).
Proof.
  intros Hn H0. unfold bitmap_len, usize_BITS. rewrite add_u_Ret by lia. cbn.
  rewrite sub_u_Ret by lia. cbn. do 2 f_equal. unfold words. f_equal. lia.
Qed.

Lemma index_Ret {A} (l : list A) i y : 0 <= i -> l !! Z.to_nat i = Some y -> index l i = Ret y.
Proof. intros Hi Hl. unfold index. rewrite Hl. by destruct (Z.ltb_spec i 0); [lia|]. Qed.

Lemma index_Panic {A} (l : list A) i : Z.of_nat (length l) <= i -> index l i = Panic.
Proof.
  intros Hi. unfold index. rewrite lookup_ge_None_2 by lia. by destruct (i <? 0).
Qed.

Lemma flag_b2z mask idx : 0 <= idx -> flag mask idx = Z.b2z (Z.testbit mask (idx mod 64)).
Proof.
  intros Hi. unfold flag, usize_BITS. apply bit_test.
  apply Z.mod_pos_bound. lia.
Qed.

Lemma load_word_Ret {T} (s : storage T) idx :
  0 <= idx -> idx / 64 < Z.of_nat (length (bitmap s)) ->
  load_word s idx = Ret (bitmap s !!! Z.to_nat (idx / 64)).
Proof.
  intros Hi Hl. unfold load_word, usize_BITS. pose proof (Z.div_pos idx 64 Hi).
  apply index_Ret; [lia|]. apply list_lookup_lookup_total_lt. lia.
Qed.
