(* ===== verification/Cslab.v ===== *)
(** The writer's view of the slab: [struct Cslab], its operations and
    [VacantEntry] of cslab/src/lib.rs.

    The operations of the writer are atomic here: the stores of one operation
    happen together.  ([debug_assert!]s are checked, as in a debug build.) *)

From S2P Require Import Prelude CslabWord CslabStorage.

Record cslab (T : Type) := mkCslab {
  first_free : Z;      (* >= capacity indicates empty freelist *)
  in_use : Z;
  allocated : Z;
  slab_storage : storage T;
}.
Arguments mkCslab {T} _ _ _ _.
Arguments first_free {T} _.
Arguments in_use {T} _.
Arguments allocated {T} _.
Arguments slab_storage {T} _.

(** [Cslab::with_fixed_capacity] *)
Definition with_fixed_capacity {T} (entry_layout : layout) (capacity : Z) : outcome (cslab T) :=
  s ← storage_with_fixed_capacity entry_layout capacity;
  Ret (mkCslab 0 0 0 s).

Definition capacity {T} (c : cslab T) : Z := size (slab_storage c).
Definition len {T} (c : cslab T) : Z := in_use c.

(** [Cslab::get] and [CslabReader::get], [contains_key], [get_unchecked]: the
    reader handle is a shared pointer to the same storage. *)
Definition get {T} (c : cslab T) (idx : Z) : outcome (option T) := get_impl (slab_storage c) idx.

Definition table_len {T} (s : storage T) : Z := Z.of_nat (length (table s)).

(** [Cslab::insert] *)
Definition insert {T} (c : cslab T) (item : T) : outcome (result Z unit * cslab T) :=
  let s := slab_storage c in
  let idx := first_free c in
  if idx >=? table_len s then Ret (Err tt, c)
  else
    (* update freelist *)
    e ← index (table s) idx;
    next ← read_next_free e;
    ff ← add_isize (as_isize idx) 1;
    ff ← add_isize ff next;
    (* store item *)
    let s := set_table (store (table s) idx (Item item)) s in
    (* update highest-used index *)
    new_frontier ← (if idx >=? frontier s then add_u 64 idx 1 else Ret (frontier s));
    let s := set_frontier new_frontier s in
    (* mark in bitmap *)
    mask ← load_word s idx;
    assert! (flag mask idx =? 0) ;;
    let s := set_bitmap (store (bitmap s) (idx / usize_BITS)
                           (Z.lor mask (shl 1 (idx mod usize_BITS)))) s in
    new_in_use ← add_u 64 (in_use c) 1;
    new_allocated ← add_u 64 (allocated c) 1;
    Ret (Ok idx, mkCslab (wrap 64 ff) new_in_use new_allocated s).

(** [Cslab::vacant_key] and [Cslab::vacant_entry]; a [VacantEntry] is the slab
    itself, borrowed. *)
Definition vacant_key {T} (c : cslab T) : result Z unit :=
  if first_free c >=? table_len (slab_storage c) then Err tt else Ok (first_free c).

Definition vacant_entry {T} (c : cslab T) : result (cslab T) unit :=
  if first_free c >=? table_len (slab_storage c) then Err tt else Ok c.

(** [VacantEntry::key] and [VacantEntry::insert] *)
Definition vacant_entry_key {T} (c : cslab T) : Z := first_free c.

Definition vacant_entry_insert {T} (c : cslab T) (item : T) : outcome (Z * cslab T) :=
  '(r, c') ← insert c item;
  match r with Ok idx => Ret (idx, c') | Err _ => Panic end.

(** [Cslab::mark_removed] *)
Definition mark_removed {T} (c : cslab T) (idx : Z) : outcome (cslab T) :=
  let s := slab_storage c in
  mask ← load_word s idx;
  assert! (flag mask idx =? 1) ;;
  let s := set_bitmap (store (bitmap s) (idx / usize_BITS)
                         (Z.land mask (not_ (shl 1 (idx mod usize_BITS))))) s in
  new_in_use ← sub_u 64 (in_use c) 1;
  Ret (mkCslab (first_free c) new_in_use (allocated c) s).

(** [Cslab::finalize_remove] *)
Definition finalize_remove {T} (c : cslab T) (idx : Z) : outcome (T * cslab T) :=
  let s := slab_storage c in
  mask ← load_word s idx;
  assert! (flag mask idx =? 0) ;;
  (* take the item out of its slot *)
  e ← index (table s) idx;
  item ← read_item e;
  (* add entry to front of freelist *)
  nf ← sub_isize (as_isize (first_free c)) (as_isize idx);
  nf ← sub_isize nf 1;
  let s := set_table (store (table s) idx (Free nf)) s in
  new_allocated ← sub_u 64 (allocated c) 1;
  Ret (item, mkCslab idx (in_use c) new_allocated s).
