(* ===== verification/SlabSpec.v ===== *)
(** Abstract specification of a slab: which indices hold a present item, which
    hold an item that is marked for removal, and the stack of free indices. *)

From S2P Require Import Prelude.

Record slab_spec (T : Type) := mkSpec {
  sp_cap : Z;
  present : gmap Z T;
  pending : gmap Z T;
  free : list Z;
}.
Arguments mkSpec {T} _ _ _ _.
Arguments sp_cap {T} _.
Arguments present {T} _.
Arguments pending {T} _.
Arguments free {T} _.

Section spec.
Context {T : Type}.
Implicit Types a : slab_spec T.

Definition spec_new (cap : Z) : slab_spec T := mkSpec cap ∅ ∅ (seqZ 0 cap).

(** Insertion takes the index on top of the stack. *)
Definition spec_insert a (t : T) : option (Z * slab_spec T) :=
  match free a with
  | [] => None
  | i :: l => Some (i, mkSpec (sp_cap a) (<[i := t]> (present a)) (pending a) l)
  end.

(** Marking moves a present item to the pending ones. *)
Definition spec_mark a (i : Z) : option (slab_spec T) :=
  t ← present a !! i;
  Some (mkSpec (sp_cap a) (delete i (present a)) (<[i := t]> (pending a)) (free a)).

(** Finalizing takes a pending item out and pushes its index on the stack. *)
Definition spec_finalize a (i : Z) : option (T * slab_spec T) :=
  t ← pending a !! i;
  Some (t, mkSpec (sp_cap a) (present a) (delete i (pending a)) (i :: free a)).

(** Every index below the capacity is in exactly one of the three states. *)
Definition spec_wf a : Prop :=
  0 < sp_cap a <= isize_MAX
  /\ present a ##ₘ pending a
  /\ NoDup (free a)
  /\ (forall i, 0 <= i < sp_cap a <->
        i ∈ free a \/ is_Some (present a !! i) \/ is_Some (pending a !! i))
  /\ (forall i, i ∈ free a -> present a !! i = None /\ pending a !! i = None).

Lemma spec_new_wf cap : 0 < cap <= isize_MAX -> spec_wf (spec_new cap).
Proof.
  intros Hc. unfold spec_wf, spec_new; cbn. split; [done|].
  split; [apply map_disjoint_empty_r|]. split; [apply NoDup_seqZ|]. split.
  - intros i. rewrite elem_of_seqZ, lookup_empty, !is_Some_alt. intuition lia.
  - intros i _. by rewrite lookup_empty.
Qed.

Lemma spec_insert_wf a t i a' :
  spec_wf a -> spec_insert a t = Some (i, a') -> spec_wf a'.
Proof.
  intros (Hc & Hd & Hnd & Hcov & Hfree). unfold spec_insert.
  destruct (free a) as [|j l] eqn:El; [done|]. intros [= <- <-].
  apply NoDup_cons in Hnd as [Hj Hnd]. destruct (Hfree j) as [Hp Hq]; [left|].
  unfold spec_wf; cbn. split; [done|]. split; [by apply map_disjoint_insert_l_2|].
  split; [done|]. split.
  - intros i. rewrite Hcov. destruct (decide (i = j)) as [->|Hne].
    + rewrite lookup_insert_eq. split; intros _; [right; left; by eexists|left; left].
    + rewrite lookup_insert_ne by done. rewrite elem_of_cons. naive_solver.
  - intros i Hi. rewrite lookup_insert_ne by (intros ->; done). apply Hfree. by right.
Qed.

Lemma spec_mark_wf a i a' : spec_wf a -> spec_mark a i = Some a' -> spec_wf a'.
Proof.
  intros (Hc & Hd & Hnd & Hcov & Hfree). unfold spec_mark.
  destruct (present a !! i) as [t|] eqn:Ei; [|done]. cbn. intros [= <-].
  unfold spec_wf; cbn. split; [done|]. split.
  { apply map_disjoint_insert_r_2; [apply lookup_delete_eq|].
    by apply map_disjoint_delete_l. }
  split; [done|]. split.
  - intros j. rewrite Hcov. destruct (decide (i = j)) as [->|Hne].
    + rewrite lookup_insert_eq, lookup_delete_eq. rewrite Ei. split; intros _; eauto.
    + by rewrite lookup_insert_ne, lookup_delete_ne.
  - intros j Hj. destruct (Hfree j Hj) as [Hp Hq]. assert (i <> j) by congruence.
    by rewrite lookup_insert_ne, lookup_delete_ne.
Qed.

Lemma spec_finalize_wf a i t a' : spec_wf a -> spec_finalize a i = Some (t, a') -> spec_wf a'.
Proof.
  intros (Hc & Hd & Hnd & Hcov & Hfree). unfold spec_finalize.
  destruct (pending a !! i) as [t'|] eqn:Ei; [|done]. cbn. intros [= <- <-].
  assert (present a !! i = None) as Hp by (by eapply map_disjoint_Some_r).
  unfold spec_wf; cbn. split; [done|]. split; [by apply map_disjoint_delete_r|]. split.
  { apply NoDup_cons. split; [|done]. intros Hi%Hfree. naive_solver. }
  split.
  - intros j. rewrite Hcov, elem_of_cons. destruct (decide (i = j)) as [->|Hne].
    + rewrite lookup_delete_eq, Ei. split; intros _; [by left; left|eauto].
    + rewrite lookup_delete_ne by done. naive_solver.
  - intros j [->|Hj]%elem_of_cons; [by rewrite lookup_delete_eq|].
    destruct (Hfree j Hj). assert (i <> j) by congruence. by rewrite lookup_delete_ne.
Qed.

(** The three states together account for the whole capacity. *)
Lemma spec_sizes a :
  spec_wf a ->
  Z.of_nat (size (present a)) + Z.of_nat (size (pending a))
    + Z.of_nat (length (free a)) = sp_cap a.
Proof.
  intros (Hc & Hd & Hnd & Hcov & Hfree).
  assert (list_to_set (seqZ 0 (sp_cap a))
          = list_to_set (free a) ∪ (dom (present a) ∪ dom (pending a)) :> gset Z) as Heq.
  { apply set_eq. intros i. rewrite elem_of_list_to_set, elem_of_seqZ, !elem_of_union,
      elem_of_list_to_set, !elem_of_dom. rewrite <- Hcov. lia. }
  apply (f_equal base.size) in Heq.
  rewrite size_list_to_set in Heq by apply NoDup_seqZ.
  rewrite size_union in Heq.
  2:{ intros i. rewrite elem_of_list_to_set, elem_of_union, !elem_of_dom.
      intros Hi. destruct (Hfree i Hi) as [-> ->]. by intros [[]|[]]. }
  rewrite size_list_to_set in Heq by done.
  rewrite size_union in Heq by (by apply map_disjoint_dom).
  rewrite !size_dom, length_seqZ in Heq. lia.
Qed.

(** The items of a state, in no particular order. *)
Definition items (m : gmap Z T) : list T := (map_to_list m).*2.

Lemma items_insert m i t : m !! i = None -> items (<[i := t]> m) ≡ₚ t :: items m.
Proof. intros Hi. unfold items. by rewrite map_to_list_insert. Qed.

Lemma items_delete m i t : m !! i = Some t -> items m ≡ₚ t :: items (delete i m).
Proof. intros Hi. unfold items. by rewrite <- (map_to_list_delete m i t Hi). Qed.

(** ** Iteration: the present indices in a range, in increasing order *)

Definition keys_in a (h t : Z) : list Z :=
  base.filter (fun i => is_Some (present a !! i)) (seqZ h (t - h)).

End spec.
