(* ===== verification/CslabProof.v ===== *)
(** The slab implements its abstract specification: the refinement relation
    between [cslab] and [slab_spec], and one lemma per operation. *)

From S2P Require Import Prelude CslabWord CslabStorage Cslab SlabSpec.

(** ** The flag bitmap under updates *)

Section bits.
Context {T : Type}.
Implicit Types s : storage T.

Lemma div_mod_eq i j : i / 64 = j / 64 -> i mod 64 = j mod 64 -> i = j.
Proof.
  intros Hd Hm. rewrite (Z_div_mod_eq_full i 64), (Z_div_mod_eq_full j 64). lia.
Qed.

Lemma mod64_bound i : 0 <= i mod 64 < 64.
Proof. apply Z.mod_pos_bound. lia. Qed.

Lemma word_usize s n : Forall (fun w => is_usize w) (bitmap s) -> is_usize (bitmap s !!! n).
Proof.
  intros Hall. destruct (decide (n < length (bitmap s))%nat).
  - by apply Forall_lookup_total_1.
  - rewrite list_lookup_total_alt, lookup_ge_None_2 by lia. cbn. unfold is_uint. lia.
Qed.

Lemma bit_store s idx w j :
  0 <= idx -> idx / 64 < Z.of_nat (length (bitmap s)) -> 0 <= j ->
  bit (set_bitmap (store (bitmap s) (idx / usize_BITS) w) s) j =
  if decide (j / 64 = idx / 64) then Z.testbit w (j mod 64) else bit s j.
Proof.
  intros Hi Hl Hj. unfold bit, store, usize_BITS; cbn [bitmap set_bitmap].
  pose proof (Z.div_pos idx 64 Hi). pose proof (Z.div_pos j 64 Hj).
  case_decide as Heq.
  - rewrite Heq, list_lookup_total_insert_eq by lia. done.
  - rewrite list_lookup_total_insert_ne by lia. done.
Qed.

Lemma bit_set s idx j :
  0 <= idx -> idx / 64 < Z.of_nat (length (bitmap s)) -> 0 <= j ->
  bit (set_bitmap (store (bitmap s) (idx / usize_BITS)
    (Z.lor (bitmap s !!! Z.to_nat (idx / 64)) (shl 1 (idx mod usize_BITS)))) s) j
  = bool_decide (j = idx) || bit s j.
Proof.
  intros Hi Hl Hj. rewrite bit_store by done. unfold usize_BITS.
  pose proof (mod64_bound idx). pose proof (mod64_bound j).
  case_decide as Heq.
  - rewrite bit_set_testbit by lia. unfold bit. rewrite Heq. f_equal.
    destruct (Z.eqb_spec (j mod 64) (idx mod 64)); case_bool_decide; try done.
    + by destruct (div_mod_eq j idx).
    + congruence.
  - rewrite bool_decide_eq_false_2 by congruence. done.
Qed.

Lemma bit_clear s idx j :
  0 <= idx -> idx / 64 < Z.of_nat (length (bitmap s)) -> 0 <= j ->
  Forall (fun w => is_usize w) (bitmap s) ->
  bit (set_bitmap (store (bitmap s) (idx / usize_BITS)
    (Z.land (bitmap s !!! Z.to_nat (idx / 64)) (not_ (shl 1 (idx mod usize_BITS))))) s) j
  = negb (bool_decide (j = idx)) && bit s j.
Proof.
  intros Hi Hl Hj Hw. rewrite bit_store by done. unfold usize_BITS.
  pose proof (mod64_bound idx). pose proof (mod64_bound j).
  case_decide as Heq.
  - rewrite bit_clear_testbit by (by apply word_usize || lia). unfold bit. rewrite Heq. do 2 f_equal.
    destruct (Z.eqb_spec (j mod 64) (idx mod 64)); case_bool_decide; try done.
    + by destruct (div_mod_eq j idx).
    + congruence.
  - rewrite bool_decide_eq_false_2 by congruence. done.
Qed.
End bits.

(** ** The refinement relation *)

(** The freelist of [tbl] starting at [ff] visits [l] and ends at [cap]. *)
Fixpoint chain {T} (tbl : list (entry T)) (cap ff : Z) (l : list Z) : Prop :=
  match l with
  | [] => ff = cap
  | i :: l' =>
      ff = i /\ 0 <= i < cap
      /\ exists nf, tbl !! Z.to_nat i = Some (Free nf) /\ chain tbl cap (i + 1 + nf) l'
  end.

Record slab_rel {T} (c : cslab T) (a : slab_spec T) : Prop := {
  rel_wf : spec_wf a;
  rel_size : size (slab_storage c) = sp_cap a;
  rel_table : length (table (slab_storage c)) = Z.to_nat (sp_cap a);
  rel_bitmap : Z.of_nat (length (bitmap (slab_storage c))) = words (sp_cap a);
  rel_words : Forall (fun w => is_usize w) (bitmap (slab_storage c));
  rel_bits : forall i, 0 <= i -> i / 64 < words (sp_cap a) ->
    bit (slab_storage c) i = bool_decide (is_Some (present a !! i));
  rel_items : forall i t, 0 <= i ->
    table (slab_storage c) !! Z.to_nat i = Some (Item t) <->
    present a !! i = Some t \/ pending a !! i = Some t;
  rel_free : chain (table (slab_storage c)) (sp_cap a) (first_free c) (free a);
  rel_in_use : in_use c = Z.of_nat (base.size (present a));
  rel_allocated :
    allocated c = Z.of_nat (base.size (present a)) + Z.of_nat (base.size (pending a));
  rel_frontier : 0 <= frontier (slab_storage c) <= sp_cap a
    /\ forall i, is_Some (present a !! i) -> i < frontier (slab_storage c);
}.

Section chain.
Context {T : Type}.
Implicit Types tbl : list (entry T).

Lemma chain_bound tbl cap ff l : 0 < cap -> chain tbl cap ff l -> 0 <= ff <= cap.
Proof. destruct l as [|i l]; cbn; [lia|]. intros Hc (-> & Hi & _). lia. Qed.

Lemma chain_insert tbl cap ff l i e :
  0 <= i -> i ∉ l -> chain tbl cap ff l -> chain (store tbl i e) cap ff l.
Proof.
  intros Hi. revert ff. induction l as [|j l IH]; intros ff Hnin; [done|].
  apply not_elem_of_cons in Hnin as [Hne Hnin].
  intros (-> & Hj & nf & Hnf & Hc). split; [done|]. split; [done|]. exists nf.
  split; [|by apply IH]. unfold store. rewrite list_lookup_insert_ne by lia. done.
Qed.

(** A zeroed table links every entry to its neighbour. *)
Lemma chain_zeroed n cap i :
  0 <= i -> i + Z.of_nat n = cap ->
  chain (replicate (Z.to_nat cap) (Free 0 : entry T)) cap i (seqZ i (Z.of_nat n)).
Proof.
  revert i. induction n as [|n IH]; intros i Hi Hn; cbn [chain].
  - rewrite seqZ_nil by lia. cbn. lia.
  - rewrite seqZ_cons by lia. cbn [chain]. split; [done|]. split; [lia|]. exists 0.
    split; [apply lookup_replicate; split; [done|lia]|].
    replace (Z.succ i) with (i + 1) by lia. replace (Z.pred (Z.of_nat (S n))) with (Z.of_nat n) by lia.
    rewrite Z.add_0_r. apply IH; lia.
Qed.
End chain.

(** ** Creation *)

Lemma storage_layout_capacity el n l off :
  8 <= l_size el -> 0 < l_align el -> 0 <= n -> storage_layout el n = Ret (l, off) ->
  8 * n <= isize_MAX.
Proof.
  intros Hs Ha Hn. unfold storage_layout, table_layout, unwrap, layout_array, layout_from_size_align.
  destruct (Z.leb_spec (l_size el * n) (isize_MAX - (l_align el - 1))); [|done].
  intros _. nia.
Qed.

Lemma with_fixed_capacity_rel {T} el cap (c : cslab T) :
  8 <= l_size el -> 0 < l_align el -> with_fixed_capacity el cap = Ret c ->
  slab_rel c (spec_new cap).
Proof.
  intros Hel Hal. unfold with_fixed_capacity, storage_with_fixed_capacity.
  destruct (Z.gtb_spec cap 0) as [Hpos|]; [|done].
  destruct (storage_layout el cap) as [[l off]| | |] eqn:Hlay; try done. cbn [mbind outcome_bind].
  apply storage_layout_capacity in Hlay; [|lia..]. unfold isize_MAX in Hlay.
  rewrite bitmap_len_eq by lia. cbn. intros [= <-].
  assert (0 <= words cap) as Hw by (apply Z.div_pos; lia).
  constructor; cbn.
  - apply spec_new_wf. unfold isize_MAX. lia.
  - done.
  - by rewrite length_replicate.
  - rewrite length_replicate. lia.
  - apply Forall_replicate. unfold is_uint. lia.
  - intros i Hi Hiw. rewrite lookup_empty, bool_decide_eq_false_2 by (by intros []).
    pose proof (Z.div_pos i 64 Hi). unfold bit; cbn.
    rewrite lookup_total_replicate_2 by lia. apply Z.bits_0.
  - intros i t Hi. rewrite !lookup_empty. split; [|by intros []].
    by intros [? _]%lookup_replicate.
  - replace (seqZ 0 cap) with (seqZ 0 (Z.of_nat (Z.to_nat cap))) by (f_equal; lia).
    apply chain_zeroed; lia.
  - done.
  - done.
  - split; [lia|]. intros i. rewrite lookup_empty. by intros [].
Qed.

(** ** Operations *)

Section ops.
Context {T : Type} (c : cslab T) (a : slab_spec T) (R : slab_rel c a).

Lemma cap_bound : 0 < sp_cap a <= isize_MAX.
Proof using R. apply (rel_wf _ _ R). Qed.

Lemma present_bound i : is_Some (present a !! i) -> 0 <= i < sp_cap a.
Proof using R. intros H. destruct (rel_wf _ _ R) as (_ & _ & _ & Hcov & _). apply Hcov. auto. Qed.

Lemma pending_bound i : is_Some (pending a !! i) -> 0 <= i < sp_cap a.
Proof using R. intros H. destruct (rel_wf _ _ R) as (_ & _ & _ & Hcov & _). apply Hcov. auto. Qed.

Lemma free_bound i : i ∈ free a -> 0 <= i < sp_cap a.
Proof using R. intros H. destruct (rel_wf _ _ R) as (_ & _ & _ & Hcov & _). apply Hcov. auto. Qed.

Lemma used_bound :
  Z.of_nat (base.size (present a)) + Z.of_nat (base.size (pending a)) + Z.of_nat (length (free a))
  = sp_cap a.
Proof using R. apply spec_sizes, (rel_wf _ _ R). Qed.

Lemma load_word_in i :
  0 <= i < sp_cap a ->
  load_word (slab_storage c) i = Ret (bitmap (slab_storage c) !!! Z.to_nat (i / 64)).
Proof using R.
  intros Hi. apply load_word_Ret; [lia|]. rewrite (rel_bitmap _ _ R). by apply words_index.
Qed.

Lemma flag_in i :
  0 <= i < sp_cap a ->
  flag (bitmap (slab_storage c) !!! Z.to_nat (i / 64)) i
  = Z.b2z (bool_decide (is_Some (present a !! i))).
Proof using R.
  intros Hi. rewrite flag_b2z by lia. f_equal. apply (rel_bits _ _ R); [lia|].
  by apply words_index.
Qed.

Lemma contains_key_rel i :
  0 <= i ->
  contains_key_impl (slab_storage c) i = Ret (bool_decide (is_Some (present a !! i))).
Proof using R.
  intros Hi. unfold contains_key_impl. rewrite (rel_size _ _ R).
  destruct (Z.geb_spec i (sp_cap a)) as [Hge|Hlt].
  - rewrite bool_decide_eq_false_2; [done|]. intros H%present_bound. lia.
  - rewrite load_word_in by lia. cbn [mbind outcome_bind]. rewrite flag_in by lia.
    by case_bool_decide.
Qed.

(** A present or pending item can be read without checking its flag. *)
Lemma get_unchecked_rel i t :
  present a !! i = Some t \/ pending a !! i = Some t ->
  get_unchecked_impl (slab_storage c) i = Ret t.
Proof using R.
  intros Ht. assert (0 <= i < sp_cap a) as Hi.
  { destruct Ht; [apply present_bound|apply pending_bound]; eauto. }
  apply (rel_items _ _ R) in Ht; [|lia]. unfold get_unchecked_impl.
  by rewrite (index_Ret _ i (Item t)) by (done || lia).
Qed.

Lemma get_rel i : 0 <= i -> get c i = Ret (present a !! i).
Proof using R.
  intros Hi. unfold get, get_impl. rewrite contains_key_rel by done. cbn.
  destruct (present a !! i) as [t|] eqn:Ht; case_bool_decide as Hs; try done.
  { rewrite (get_unchecked_rel i t) by auto. done. }
  by destruct Hs; eexists.
Qed.

Lemma vacant_key_rel :
  vacant_key c = match free a with [] => Err tt | i :: _ => Ok i end.
Proof using R.
  unfold vacant_key, table_len. rewrite (rel_table _ _ R). pose proof cap_bound.
  pose proof (rel_free _ _ R) as Hf. destruct (free a) as [|i l]; cbn in Hf.
  - destruct (Z.geb_spec (first_free c) (Z.of_nat (Z.to_nat (sp_cap a)))); [done|lia].
  - destruct Hf as (-> & Hi & _).
    destruct (Z.geb_spec i (Z.of_nat (Z.to_nat (sp_cap a)))); [lia|done].
Qed.

Lemma insert_full t : free a = [] -> insert c t = Ret (Err tt, c).
Proof using R.
  intros Hf. pose proof vacant_key_rel as Hv. unfold vacant_key in Hv. unfold insert.
  destruct (first_free c >=? table_len (slab_storage c)); [done|]. by rewrite Hf in Hv.
Qed.


(** The state in which [insert] leaves the slab. *)
Definition inserted (t : T) (i nf : Z) : cslab T :=
  let s := slab_storage c in
  mkCslab (i + 1 + nf) (in_use c + 1) (allocated c + 1)
    (mkStorage (size s) (Z.max (frontier s) (i + 1)) (store (table s) i (Item t))
       (store (bitmap s) (i / usize_BITS)
          (Z.lor (bitmap s !!! Z.to_nat (i / 64)) (shl 1 (i mod usize_BITS))))
       (bitmap_offset s)).

Lemma free_head i l :
  free a = i :: l ->
  first_free c = i /\ 0 <= i < sp_cap a /\ present a !! i = None /\ pending a !! i = None
  /\ (i ∉ l)
  /\ exists nf, table (slab_storage c) !! Z.to_nat i = Some (Free nf)
       /\ 0 <= i + 1 + nf <= sp_cap a
       /\ chain (table (slab_storage c)) (sp_cap a) (i + 1 + nf) l.
Proof using R.
  intros Hf. pose proof (rel_free _ _ R) as Hc. rewrite Hf in Hc.
  destruct Hc as (Hff & Hi & nf & Hnf & Hc).
  destruct (rel_wf _ _ R) as (Hcap & _ & Hnd & _ & Hfree).
  destruct (Hfree i) as [Hp Hq]; [rewrite Hf; left|].
  rewrite Hf in Hnd. apply NoDup_cons in Hnd as [Hni _].
  do 5 (split; [done|]). exists nf. split; [done|]. split; [|done].
  exact (chain_bound _ _ _ _ (proj1 Hcap) Hc).
Qed.

Lemma insert_eq t i l nf :
  free a = i :: l -> table (slab_storage c) !! Z.to_nat i = Some (Free nf) ->
  0 <= i + 1 + nf <= sp_cap a ->
  insert c t = Ret (Ok i, inserted t i nf).
Proof using R.
  intros Hf Hnf Hnext. destruct (free_head i l Hf) as (Hff & Hi & Hp & Hq & _).
  pose proof vacant_key_rel as Hv. rewrite Hf in Hv. unfold vacant_key in Hv.
  pose proof cap_bound as Hcap. pose proof used_bound as Hused. rewrite Hf in Hused. cbn in Hused.
  unfold isize_MAX in Hcap. unfold insert.
  destruct (first_free c >=? table_len (slab_storage c)); [done|]. clear Hv.
  rewrite Hff, (index_Ret _ i (Free nf)) by (done || lia). cbn [mbind outcome_bind read_next_free].
  rewrite as_isize_small by (unfold isize_MAX; lia).
  do 2 (rewrite add_isize_Ret by (unfold isize_MAX, isize_MIN; lia); cbn [mbind outcome_bind]).
  change (frontier (set_table _ _)) with (frontier (slab_storage c)).
  assert ((if i >=? frontier (slab_storage c)
           then add_u 64 i 1 else Ret (frontier (slab_storage c)))
          = Ret (Z.max (frontier (slab_storage c)) (i + 1))) as ->.
  { destruct (Z.geb_spec i (frontier (slab_storage c))).
    - rewrite add_u_Ret by lia. f_equal. lia.
    - f_equal. lia. }
  cbn [mbind outcome_bind].
  change (load_word _ i) with (load_word (slab_storage c) i).
  rewrite load_word_in by done. cbn [mbind outcome_bind]. rewrite flag_in by done.
  rewrite Hp, bool_decide_eq_false_2 by (by intros []). cbn [Z.b2z Z.eqb].
  rewrite (rel_in_use _ _ R), (rel_allocated _ _ R).
  rewrite !add_u_Ret by lia. cbn [mbind outcome_bind].
  rewrite wrap_small by (unfold is_uint; lia).
  unfold inserted. by rewrite (rel_in_use _ _ R), (rel_allocated _ _ R).
Qed.

Lemma inserted_rel t i l nf :
  free a = i :: l -> table (slab_storage c) !! Z.to_nat i = Some (Free nf) ->
  chain (table (slab_storage c)) (sp_cap a) (i + 1 + nf) l ->
  slab_rel (inserted t i nf) (mkSpec (sp_cap a) (<[i := t]> (present a)) (pending a) l).
Proof using R.
  intros Hf Hnf Hc. destruct (free_head i l Hf) as (Hff & Hi & Hp & Hq & Hni & _).
  assert (i / 64 < Z.of_nat (length (bitmap (slab_storage c)))) as Hw.
  { rewrite (rel_bitmap _ _ R). by apply words_index. }
  pose proof (rel_frontier _ _ R) as [Hfr1 Hfr2].
  constructor; cbn.
  - eapply (spec_insert_wf a t i); [apply R|]. unfold spec_insert. by rewrite Hf.
  - apply R.
  - unfold store. rewrite length_insert. apply R.
  - unfold store. rewrite length_insert. apply R.
  - apply Forall_insert; [apply R|]. apply bit_set_usize, word_usize, R.
  - intros j Hj Hjw.
    transitivity (bool_decide (j = i) || bit (slab_storage c) j).
    { apply (bit_set (slab_storage c) i j); [lia|done..]. }
    rewrite (rel_bits _ _ R) by done. apply eq_bool_prop_intro.
    rewrite orb_True, !bool_decide_spec. destruct (decide (j = i)) as [->|Hne].
    + rewrite lookup_insert_eq. naive_solver.
    + rewrite lookup_insert_ne by done. naive_solver.
  - intros j t' Hj. destruct (decide (j = i)) as [->|Hne].
    + unfold store. rewrite list_lookup_insert_eq, lookup_insert_eq, Hq
        by (rewrite (rel_table _ _ R); lia). naive_solver.
    + unfold store. rewrite list_lookup_insert_ne, lookup_insert_ne by (done || lia). by apply R.
  - by apply chain_insert; [lia|..].
  - rewrite (rel_in_use _ _ R), map_size_insert_None by done. lia.
  - rewrite (rel_allocated _ _ R), map_size_insert_None by done. lia.
  - split; [lia|]. intros j. destruct (decide (j = i)) as [->|Hne]; [lia|].
    rewrite lookup_insert_ne by done. intros Hj%Hfr2. lia.
Qed.

(** Insertion on a slab with a free slot. *)
Lemma insert_rel t i l :
  free a = i :: l ->
  exists c', insert c t = Ret (Ok i, c')
    /\ slab_rel c' (mkSpec (sp_cap a) (<[i := t]> (present a)) (pending a) l).
Proof using R.
  intros Hf. destruct (free_head i l Hf) as (_ & _ & _ & _ & _ & nf & Hnf & Hb & Hc).
  exists (inserted t i nf). split; [by eapply insert_eq|by apply inserted_rel].
Qed.

Lemma word_bound i :
  0 <= i < sp_cap a -> i / 64 < Z.of_nat (length (bitmap (slab_storage c))).
Proof using R. intros Hi. rewrite (rel_bitmap _ _ R). by apply words_index. Qed.

(** The state in which [mark_removed] leaves the slab. *)
Definition marked (i : Z) : cslab T :=
  let s := slab_storage c in
  mkCslab (first_free c) (in_use c - 1) (allocated c)
    (set_bitmap (store (bitmap s) (i / usize_BITS)
       (Z.land (bitmap s !!! Z.to_nat (i / 64)) (not_ (shl 1 (i mod usize_BITS))))) s).

Lemma mark_eq i t : present a !! i = Some t -> mark_removed c i = Ret (marked i).
Proof using R.
  intros Ht. assert (0 <= i < sp_cap a) as Hi by (apply present_bound; eauto).
  unfold mark_removed. rewrite load_word_in by done. cbn [mbind outcome_bind].
  rewrite flag_in, bool_decide_eq_true_2 by (done || eauto). cbn [Z.b2z Z.eqb Pos.eqb].
  rewrite (rel_in_use _ _ R). assert (base.size (present a) <> 0%nat) as Hne.
  { intros Hz%map_size_empty_inv. rewrite Hz in Ht. by rewrite lookup_empty in Ht. }
  rewrite sub_u_Ret by lia. unfold marked. by rewrite (rel_in_use _ _ R).
Qed.

Lemma marked_rel i t :
  present a !! i = Some t ->
  slab_rel (marked i)
    (mkSpec (sp_cap a) (delete i (present a)) (<[i := t]> (pending a)) (free a)).
Proof using R.
  intros Ht. assert (0 <= i < sp_cap a) as Hi by (apply present_bound; eauto).
  assert (pending a !! i = None) as Hq.
  { destruct (rel_wf _ _ R) as (_ & Hd & _). by eapply map_disjoint_Some_l. }
  pose proof (word_bound i Hi) as Hw. pose proof (rel_frontier _ _ R) as [Hfr1 Hfr2].
  pose proof (map_size_delete_Some _ _ (mk_is_Some _ _ Ht)) as Hsz.
  assert (base.size (present a) <> 0%nat) as Hne.
  { intros Hz%map_size_empty_inv. rewrite Hz in Ht. by rewrite lookup_empty in Ht. }
  constructor; cbn; try apply R.
  - eapply (spec_mark_wf a i); [apply R|]. unfold spec_mark. by rewrite Ht.
  - unfold store. rewrite length_insert. apply R.
  - apply Forall_insert; [apply R|].
    apply bit_clear_usize; [apply mod64_bound|apply word_usize, R].
  - intros j Hj Hjw.
    transitivity (negb (bool_decide (j = i)) && bit (slab_storage c) j).
    { apply (bit_clear (slab_storage c) i j); [lia|done|done|apply R]. }
    rewrite (rel_bits _ _ R) by done. apply eq_bool_prop_intro.
    rewrite andb_True, negb_True, !bool_decide_spec. destruct (decide (j = i)) as [->|Hne'].
    + rewrite lookup_delete_eq, is_Some_alt. naive_solver.
    + rewrite lookup_delete_ne by done. naive_solver.
  - intros j t' Hj. rewrite (rel_items _ _ R) by done. destruct (decide (j = i)) as [->|Hne'].
    + rewrite lookup_delete_eq, lookup_insert_eq, Ht, Hq. naive_solver.
    + by rewrite lookup_delete_ne, lookup_insert_ne by done.
  - rewrite (rel_in_use _ _ R). lia.
  - rewrite (rel_allocated _ _ R), map_size_insert_None by done. lia.
  - split; [done|]. intros j [Hj1 Hj2]%lookup_delete_is_Some. by apply Hfr2.
Qed.

Lemma mark_rel i t :
  present a !! i = Some t ->
  exists c', mark_removed c i = Ret c'
    /\ slab_rel c' (mkSpec (sp_cap a) (delete i (present a)) (<[i := t]> (pending a)) (free a)).
Proof using R. intros Ht. eexists. split; [by eapply mark_eq|by apply marked_rel]. Qed.

(** Beyond the last bit of the bitmap the load panics; between the capacity and
    the last bit the flag is clear. *)
Lemma flag_any i :
  0 <= i ->
  load_word (slab_storage c) i = Panic
  \/ exists w, load_word (slab_storage c) i = Ret w
       /\ flag w i = Z.b2z (bool_decide (is_Some (present a !! i))).
Proof using R.
  intros Hi. pose proof (Z.div_pos i 64 Hi) as Hpos.
  destruct (Z.ltb_spec (i / 64) (words (sp_cap a))) as [Hlt|Hge].
  - right. eexists. split; [apply load_word_Ret; [done|by rewrite (rel_bitmap _ _ R)]|].
    rewrite flag_b2z by done. f_equal. by apply (rel_bits _ _ R).
  - left. apply index_Panic. unfold usize_BITS. rewrite (rel_bitmap _ _ R). lia.
Qed.

Lemma mark_panics i : 0 <= i -> present a !! i = None -> mark_removed c i = Panic.
Proof using R.
  intros Hi Hp. unfold mark_removed.
  destruct (flag_any i Hi) as [->|(w & -> & Hw)]; [done|]. cbn [mbind outcome_bind].
  by rewrite Hw, Hp, bool_decide_eq_false_2 by (by intros []).
Qed.

(** The state in which [finalize_remove] leaves the slab. *)
Definition finalized (i : Z) : cslab T :=
  let s := slab_storage c in
  mkCslab i (in_use c) (allocated c - 1)
    (set_table (store (table s) i (Free (first_free c - i - 1))) s).

Lemma finalize_eq i t :
  pending a !! i = Some t -> finalize_remove c i = Ret (t, finalized i).
Proof using R.
  intros Ht. assert (0 <= i < sp_cap a) as Hi by (apply pending_bound; eauto).
  assert (present a !! i = None) as Hp.
  { destruct (rel_wf _ _ R) as (_ & Hd & _). by eapply map_disjoint_Some_r. }
  pose proof cap_bound as Hcap. pose proof (chain_bound _ _ _ _ (proj1 Hcap) (rel_free _ _ R)) as Hff.
  unfold isize_MAX in Hcap. unfold finalize_remove. rewrite load_word_in by done.
  cbn [mbind outcome_bind]. rewrite flag_in, Hp, bool_decide_eq_false_2 by (done || by intros []).
  cbn [Z.b2z Z.eqb]. rewrite (index_Ret _ i (Item t)) by first [lia|apply (rel_items _ _ R); [lia|auto]].
  cbn [mbind outcome_bind read_item]. rewrite !as_isize_small by (unfold isize_MAX; lia).
  do 2 (rewrite sub_isize_Ret by (unfold isize_MAX, isize_MIN; lia); cbn [mbind outcome_bind]).
  rewrite (rel_allocated _ _ R). assert (base.size (pending a) <> 0%nat) as Hne.
  { intros Hz%map_size_empty_inv. rewrite Hz in Ht. by rewrite lookup_empty in Ht. }
  rewrite sub_u_Ret by lia. cbn [mbind outcome_bind]. unfold finalized.
  by rewrite (rel_allocated _ _ R).
Qed.

Lemma finalized_rel i t :
  pending a !! i = Some t ->
  slab_rel (finalized i)
    (mkSpec (sp_cap a) (present a) (delete i (pending a)) (i :: free a)).
Proof using R.
  intros Ht. assert (0 <= i < sp_cap a) as Hi by (apply pending_bound; eauto).
  assert (present a !! i = None) as Hp.
  { destruct (rel_wf _ _ R) as (_ & Hd & _). by eapply map_disjoint_Some_r. }
  assert (i ∉ free a) as Hni.
  { intros Hin. destruct (rel_wf _ _ R) as (_ & _ & _ & _ & Hfree).
    destruct (Hfree i Hin). congruence. }
  pose proof (map_size_delete_Some _ _ (mk_is_Some _ _ Ht)) as Hsz.
  assert (base.size (pending a) <> 0%nat) as Hne.
  { intros Hz%map_size_empty_inv. rewrite Hz in Ht. by rewrite lookup_empty in Ht. }
  constructor; cbn; try apply R.
  - eapply (spec_finalize_wf a i t); [apply R|]. unfold spec_finalize. by rewrite Ht.
  - unfold store. rewrite length_insert. apply R.
  - intros j t' Hj. unfold store. destruct (decide (j = i)) as [->|Hne'].
    + rewrite list_lookup_insert_eq, lookup_delete_eq, Hp by (rewrite (rel_table _ _ R); lia).
      naive_solver.
    + rewrite list_lookup_insert_ne, lookup_delete_ne by (done || lia). by apply R.
  - split; [done|]. split; [done|]. eexists. split.
    + unfold store. apply list_lookup_insert_eq. rewrite (rel_table _ _ R). lia.
    + replace (i + 1 + (first_free c - i - 1)) with (first_free c) by lia.
      apply chain_insert; [lia|done|apply R].
  - rewrite (rel_allocated _ _ R). lia.
Qed.

Lemma finalize_rel i t :
  pending a !! i = Some t ->
  exists c', finalize_remove c i = Ret (t, c')
    /\ slab_rel c' (mkSpec (sp_cap a) (present a) (delete i (pending a)) (i :: free a)).
Proof using R. intros Ht. eexists. split; [by eapply finalize_eq|by eapply finalized_rel]. Qed.

Lemma finalize_present_panics i :
  is_Some (present a !! i) -> finalize_remove c i = Panic.
Proof using R.
  intros Hs. unfold finalize_remove.
  destruct (flag_any i) as [->|(w & -> & Hw)]; [by apply present_bound in Hs as []|done|].
  cbn [mbind outcome_bind]. by rewrite Hw, bool_decide_eq_true_2.
Qed.

(** The error that the source calls undetectable. *)
Lemma finalize_free_UB i : i ∈ free a -> finalize_remove c i = UB.
Proof using R.
  intros Hin. pose proof (free_bound i Hin) as Hi.
  destruct (rel_wf _ _ R) as (_ & _ & _ & _ & Hfree). destruct (Hfree i Hin) as [Hp Hq].
  unfold finalize_remove. rewrite load_word_in by done. cbn [mbind outcome_bind].
  rewrite flag_in, Hp, bool_decide_eq_false_2 by (done || by intros []). cbn [Z.b2z Z.eqb].
  destruct (lookup_lt_is_Some_2 (table (slab_storage c)) (Z.to_nat i)) as [[nf|t] He].
  - rewrite (rel_table _ _ R). lia.
  - by rewrite (index_Ret _ i (Free nf)) by (done || lia).
  - apply (rel_items _ _ R) in He as []; [congruence..|lia].
Qed.

Lemma finalize_beyond_panics i : sp_cap a <= i -> finalize_remove c i = Panic.
Proof using R.
  intros Hi. pose proof cap_bound as Hcap. unfold finalize_remove.
  destruct (flag_any i) as [->|(w & -> & Hw)]; [lia|done|]. cbn [mbind outcome_bind].
  rewrite Hw, bool_decide_eq_false_2 by (intros ?%present_bound; lia). cbn [Z.b2z Z.eqb].
  rewrite index_Panic; [done|]. rewrite (rel_table _ _ R). lia.
Qed.

Lemma finalize_other i :
  0 <= i -> pending a !! i = None ->
  finalize_remove c i = if decide (i ∈ free a) then UB else Panic.
Proof using R.
  intros Hi Hq. case_decide as Hf; [by apply finalize_free_UB|].
  destruct (Z.ltb_spec i (sp_cap a)) as [Hlt|Hge]; [|by apply finalize_beyond_panics].
  apply finalize_present_panics. destruct (rel_wf _ _ R) as (_ & _ & _ & Hcov & _).
  destruct (proj1 (Hcov i)) as [?|[?|[? ?]]]; [lia|done|done|congruence].
Qed.
End ops.
