(* ===== verification/CslabIter.v ===== *)
(** Iteration over the slab by scanning the bitmap: [Iter], [ExclIter] and the
    [Drop] of [CslabStorage], of cslab/src/lib.rs. *)

From S2P Require Import Prelude CslabWord CslabStorage Cslab.

(** [struct Iter]; the storage it borrows is passed to each operation. *)
Record iter := mkIter {
  it_head : Z;    (* inclusive *)
  it_tail : Z;    (* exclusive *)
}.

#[global] Instance iter_eq_dec : EqDecision iter.
Proof. solve_decision. Defined.

(** [Iter::new] *)
Definition iter_new {T} (s : storage T) : outcome iter :=
  assert! (frontier s <=? size s) ;;
  Ret (mkIter 0 (frontier s)).

(** What [next] and [next_back] return, and the iterator afterwards. *)
Definition yielded (T : Type) : Type := (option (Z * T) * iter)%type.

(** The loop of [Iter::next]. *)
Fixpoint next_loop {T} (fuel : nat) (s : storage T) (it : iter) : outcome (yielded T) :=
  match fuel with
  | O => OutOfFuel
  | S fuel' =>
      word ← load_word s (it_head it);
      let bme := shr word (it_head it mod usize_BITS) in
      (* distance from head to next item, or next bitmap entry *)
      d ← (if bme =? 0 then sub_u 64 usize_BITS (it_head it mod usize_BITS)
           else Ret (trailing_zeros bme));
      rest ← sub_u 64 (it_tail it) (it_head it);
      if d >=? rest then Ret (None, mkIter (it_tail it) (it_tail it))
      else
        idx ← add_u 64 (it_head it) d;
        if negb (bme =? 0) then
          head' ← add_u 64 idx 1;
          t ← get_unchecked_impl s idx;
          Ret (Some (idx, t), mkIter head' (it_tail it))
        else next_loop fuel' s (mkIter idx (it_tail it))
  end.

(** One iteration of the loop per word of the bitmap is enough. *)
Definition iter_fuel {T} (s : storage T) : nat := S (length (bitmap s)).

(** [Iter::next] *)
Definition iter_next {T} (s : storage T) (it : iter) : outcome (yielded T) :=
  if it_head it >=? it_tail it then Ret (None, it)
  else next_loop (iter_fuel s) s it.

(** The loop of [Iter::next_back]. *)
Fixpoint next_back_loop {T} (fuel : nat) (s : storage T) (it : iter) : outcome (yielded T) :=
  match fuel with
  | O => OutOfFuel
  | S fuel' =>
      last ← sub_u 64 (it_tail it) 1;
      word ← load_word s last;
      let bme := shl word (usize_BITS - (last mod usize_BITS + 1)) in
      (* distance from tail to previous item, or previous bitmap entry *)
      let d := if bme =? 0 then last mod usize_BITS + 1 else leading_zeros bme in
      rest ← sub_u 64 (it_tail it) (it_head it);
      if d >=? rest then Ret (None, mkIter (it_head it) (it_head it))
      else
        tail' ← sub_u 64 (it_tail it) d;
        if negb (bme =? 0) then
          idx ← sub_u 64 tail' 1;
          t ← get_unchecked_impl s idx;
          Ret (Some (idx, t), mkIter (it_head it) idx)
        else next_back_loop fuel' s (mkIter (it_head it) tail')
  end.

(** [Iter::next_back] *)
Definition iter_next_back {T} (s : storage T) (it : iter) : outcome (yielded T) :=
  if it_tail it <=? it_head it then Ret (None, it)
  else next_back_loop (iter_fuel s) s it.

(** [Iter::size_hint] *)
Definition iter_size_hint (it : iter) : outcome (Z * option Z) :=
  n ← sub_u 64 (it_tail it) (it_head it); Ret (0, Some n).

(** Calling [next] until it returns [None], as [for_each], [collect] and [for]
    loops do. *)
Fixpoint drain {T} (fuel : nat) (s : storage T) (it : iter) : outcome (list (Z * T)) :=
  match fuel with
  | O => OutOfFuel
  | S fuel' =>
      '(r, it') ← iter_next s it;
      match r with
      | None => Ret []
      | Some y => l ← drain fuel' s it'; Ret (y :: l)
      end
  end.

(** An iterator yields at most one item per index of its range. *)
Definition drain_all {T} (s : storage T) (it : iter) : outcome (list (Z * T)) :=
  drain (S (Z.to_nat (it_tail it - it_head it))) s it.

(** [<CslabStorage as Drop>::drop]: the items it drops, in order.  (It then
    frees the allocation.) *)
Definition storage_drop {T} (s : storage T) : outcome (list T) :=
  it ← iter_new s;
  l ← drain_all s it;
  Ret l.*2.

(** ** [struct ExclIter] *)

Record excl_iter := mkExclIter { ex_iter : iter; ex_in_use : Z }.

Definition excl_iter_new {T} (s : storage T) (in_use : Z) : outcome excl_iter :=
  it ← iter_new s; Ret (mkExclIter it in_use).

(** [Cslab::iter] *)
Definition cslab_iter {T} (c : cslab T) : outcome excl_iter :=
  excl_iter_new (slab_storage c) (in_use c).

Definition excl_iter_next {T} (s : storage T) (e : excl_iter)
  : outcome (option (Z * T) * excl_iter) :=
  '(r, it) ← iter_next s (ex_iter e); Ret (r, mkExclIter it (ex_in_use e)).

Definition excl_iter_next_back {T} (s : storage T) (e : excl_iter)
  : outcome (option (Z * T) * excl_iter) :=
  '(r, it) ← iter_next_back s (ex_iter e); Ret (r, mkExclIter it (ex_in_use e)).

(** [ExclIter::size_hint] and [ExclIter::count]; [ExactSizeIterator::len] is the
    lower bound of the size hint. *)
Definition excl_iter_size_hint (e : excl_iter) : Z * option Z := (ex_in_use e, Some (ex_in_use e)).
Definition excl_iter_count (e : excl_iter) : Z := ex_in_use e.
Definition excl_iter_len (e : excl_iter) : Z := (excl_iter_size_hint e).1.

(** [From<ExclIter> for Iter] *)
Definition iter_from (e : excl_iter) : iter := ex_iter e.

(** ** [struct CslabReader]: a shared pointer to the storage *)

Module cslab_reader.
Definition CslabReader (T : Type) : Type := storage T.
Definition get {T} (r : CslabReader T) (idx : Z) : outcome (option T) := get_impl r idx.
Definition contains_key {T} (r : CslabReader T) (idx : Z) : outcome bool := contains_key_impl r idx.
Definition get_unchecked {T} (r : CslabReader T) (idx : Z) : outcome T := get_unchecked_impl r idx.
Definition iter_of {T} (r : CslabReader T) : outcome iter := iter_new r.
End cslab_reader.

(** [Cslab::reader] *)
Definition reader_of {T} (c : cslab T) : cslab_reader.CslabReader T := slab_storage c.
