(* ===== verification/SlabKeys.v ===== *)
(** The present indices of a range, [keys_in], under the steps of a scan. *)

From Stdlib Require Export Sorted.
From S2P Require Import Prelude SlabSpec.

Section keys.
Context {T : Type} (a : slab_spec T).

Lemma keys_in_app h m t : h <= m <= t -> keys_in a h t = keys_in a h m ++ keys_in a m t.
Proof.
  intros Hm. unfold keys_in. rewrite <- filter_app. f_equal.
  replace (t - h) with ((m - h) + (t - m)) by lia.
  rewrite seqZ_app by lia. do 2 f_equal; lia.
Qed.

Lemma keys_in_nil h t :
  (forall i, h <= i < t -> present a !! i = None) -> keys_in a h t = [].
Proof.
  intros Hn. unfold keys_in.
  destruct (base.filter _ _) as [|i l] eqn:E; [done|].
  assert (i ∈ i :: l) as Hi by left. rewrite <- E in Hi.
  apply list_elem_of_filter in Hi as [[t' Ht] Hi%elem_of_seqZ].
  rewrite Hn in Ht by lia. done.
Qed.

Lemma keys_in_one h x : present a !! h = Some x -> keys_in a h (h + 1) = [h].
Proof.
  intros Hx. unfold keys_in. replace (h + 1 - h) with 1 by lia.
  rewrite seqZ_cons by lia. rewrite seqZ_nil by lia.
  by rewrite filter_cons_True, filter_nil by eauto.
Qed.

Lemma elem_of_keys_in i h t : i ∈ keys_in a h t <-> is_Some (present a !! i) /\ h <= i < t.
Proof. unfold keys_in. rewrite list_elem_of_filter, elem_of_seqZ. intuition lia. Qed.

Lemma NoDup_keys_in h t : NoDup (keys_in a h t).
Proof. apply NoDup_filter, NoDup_seqZ. Qed.

(** The steps of the forward and the backward scan. *)
Lemma keys_in_skip h h' t :
  h <= h' <= t -> (forall i, h <= i < h' -> present a !! i = None) ->
  keys_in a h t = keys_in a h' t.
Proof. intros Hh Hn. by rewrite (keys_in_app h h' t), (keys_in_nil h h') by done. Qed.

Lemma keys_in_found h t x :
  h < t -> present a !! h = Some x -> keys_in a h t = h :: keys_in a (h + 1) t.
Proof. intros Hh Hx. by rewrite (keys_in_app h (h + 1) t), (keys_in_one h x) by (done || lia). Qed.

Lemma keys_in_skip_back h t' t :
  h <= t' <= t -> (forall i, t' <= i < t -> present a !! i = None) ->
  keys_in a h t = keys_in a h t'.
Proof. intros Hh Hn. by rewrite (keys_in_app h t' t), (keys_in_nil t' t), app_nil_r by done. Qed.

Lemma keys_in_found_back h t x :
  h < t -> present a !! (t - 1) = Some x -> keys_in a h t = keys_in a h (t - 1) ++ [t - 1].
Proof.
  intros Hh Hx. rewrite (keys_in_app h (t - 1) t) by lia.
  replace t with (t - 1 + 1) at 3 by lia. by rewrite (keys_in_one _ x).
Qed.

Lemma keys_in_ext a' h t :
  (forall i, h <= i < t -> present a !! i = present a' !! i) -> keys_in a h t = keys_in a' h t.
Proof.
  intros Heq. unfold keys_in. apply filter_ext_in. intros i Hi%elem_of_seqZ.
  by rewrite Heq by lia.
Qed.

Lemma length_keys_in h t : (length (keys_in a h t) <= Z.to_nat (t - h))%nat.
Proof. unfold keys_in. rewrite length_filter, length_seqZ. lia. Qed.

(** The keys come in increasing order. *)
Lemma keys_in_sorted h t : StronglySorted Z.lt (keys_in a h t).
Proof.
  unfold keys_in. remember (Z.to_nat (t - h)) as n eqn:Hn. revert h Hn.
  induction n as [|n IH]; intros h Hn.
  - rewrite seqZ_nil by lia. constructor.
  - rewrite seqZ_cons by lia. replace (Z.pred (t - h)) with (t - Z.succ h) by lia.
    rewrite filter_cons. case_decide; [|apply IH; lia]. constructor; [apply IH; lia|].
    apply Forall_forall. intros i Hi%list_elem_of_filter.
    destruct Hi as [_ Hi%elem_of_seqZ]. lia.
Qed.

(** ** The items of a list of keys *)

Definition items_at (l : list Z) : list (Z * T) :=
  omap (fun i => x ← present a !! i; Some (i, x)) l.

Lemma items_at_cons i l x : present a !! i = Some x -> items_at (i :: l) = (i, x) :: items_at l.
Proof. intros Hx. unfold items_at. cbn. by rewrite Hx. Qed.

Lemma elem_of_items_at i x l : (i, x) ∈ items_at l <-> i ∈ l /\ present a !! i = Some x.
Proof.
  unfold items_at. rewrite list_elem_of_omap. split.
  - intros (j & Hj & Hx). destruct (present a !! j) eqn:E; [|done]. cbn in Hx.
    by simplify_eq.
  - intros [Hi Hx]. exists i. by rewrite Hx.
Qed.

Lemma items_at_snoc l i x : present a !! i = Some x -> items_at (l ++ [i]) = items_at l ++ [(i, x)].
Proof.
  intros Hx. unfold items_at. rewrite omap_app. f_equal. cbn. by rewrite Hx.
Qed.

Lemma items_at_keys l : (forall i, i ∈ l -> is_Some (present a !! i)) -> (items_at l).*1 = l.
Proof.
  induction l as [|i l IH]; intros Hl; [done|]. destruct (Hl i) as [x Hx]; [left|].
  rewrite (items_at_cons i l x) by done. cbn. f_equal. apply IH. intros j Hj. apply Hl. by right.
Qed.

(** The items of all the keys are the present items. *)
Lemma items_at_all :
  spec_wf a -> items_at (keys_in a 0 (sp_cap a)) ≡ₚ map_to_list (present a).
Proof.
  intros (_ & _ & _ & Hcov & _). apply NoDup_Permutation.
  - apply (NoDup_fmap_1 fst). rewrite items_at_keys; [apply NoDup_keys_in|].
    intros i. by intros [Hi _]%elem_of_keys_in.
  - apply NoDup_map_to_list.
  - intros [i x]. rewrite elem_of_items_at, elem_of_keys_in, elem_of_map_to_list. split.
    + by intros [_ Hx].
    + intros Hx. split; [|done]. split; [eauto|]. apply Hcov. eauto.
Qed.
End keys.
