(* ===== verification/CslabIterProof.v ===== *)
(** The bit-scanning iterators visit exactly the present items of their range:
    an iterator is a double-ended queue over [keys_in]. *)

From S2P Require Import Prelude CslabWord CslabStorage Cslab SlabSpec SlabKeys.
From S2P Require Import CslabProof CslabIter.

Section iter.
Context {T : Type} (c : cslab T) (a : slab_spec T) (R : slab_rel c a).

Local Abbreviation s := (slab_storage c).

Lemma same_word i j : 0 <= j < 64 - i mod 64 ->
  (i + j) / 64 = i / 64 /\ (i + j) mod 64 = i mod 64 + j.
Proof.
  intros Hj. pose proof (Z_div_mod_eq_full i 64). pose proof (mod64_bound i).
  split; [symmetry; apply (Z.div_unique _ _ _ (i mod 64 + j))
         |symmetry; apply (Z.mod_unique _ _ (i / 64))]; lia.
Qed.

Lemma same_word_back i j : 0 <= j <= i mod 64 ->
  (i - j) / 64 = i / 64 /\ (i - j) mod 64 = i mod 64 - j.
Proof.
  intros Hj. pose proof (Z_div_mod_eq_full i 64). pose proof (mod64_bound i).
  split; [symmetry; apply (Z.div_unique _ _ _ (i mod 64 - j))
         |symmetry; apply (Z.mod_unique _ _ (i / 64))]; lia.
Qed.

Definition word_at (i : Z) : Z := bitmap s !!! Z.to_nat (i / 64).

Lemma word_at_usize i : is_usize (word_at i).
Proof using R. apply word_usize, R. Qed.

Lemma bit_present i : 0 <= i < sp_cap a -> bit s i = bool_decide (is_Some (present a !! i)).
Proof using R. intros Hi. apply (rel_bits _ _ R); [lia|by apply words_index]. Qed.

Lemma bit_absent i : 0 <= i < sp_cap a -> bit s i = false -> present a !! i = None.
Proof using R.
  intros Hi Hb. rewrite bit_present in Hb by done. apply bool_decide_eq_false in Hb.
  destruct (present a !! i); [destruct Hb; eauto|done].
Qed.

Lemma bit_item i : 0 <= i < sp_cap a -> bit s i = true -> exists x, present a !! i = Some x.
Proof using R.
  intros Hi Hb. rewrite bit_present in Hb by done. by apply bool_decide_eq_true in Hb.
Qed.

(** ** One iteration of the forward scan *)

Definition bme_at (i : Z) : Z := shr (word_at i) (i mod 64).
Definition step_at (i : Z) : Z := scan_step (word_at i) (i mod 64).

Lemma step_at_spec i :
  0 <= i ->
  0 <= step_at i <= 64 - i mod 64
  /\ (forall j, 0 <= j < step_at i -> bit s (i + j) = false)
  /\ (bme_at i <> 0 -> step_at i < 64 - i mod 64 /\ bit s (i + step_at i) = true).
Proof using R.
  intros Hi. destruct (scan_step_spec (word_at i) (i mod 64)) as (H0 & H1 & H2);
    [apply word_at_usize|by apply mod64_bound|]. fold (step_at i) in *.
  assert (forall j, 0 <= j < 64 - i mod 64 -> bit s (i + j) = Z.testbit (word_at i) (i mod 64 + j)) as Hbit.
  { intros j Hj. unfold bit, word_at. by destruct (same_word i j Hj) as [-> ->]. }
  split; [done|]. split; [intros j Hj; rewrite Hbit by lia; by apply H1|].
  intros [Hlt Ht]%H2. split; [done|]. rewrite Hbit; [done|lia].
Qed.

(** What the iterator returns when [l] are the keys left in its range. *)
Definition front_result (it : iter) (r : yielded T) : Prop :=
  match keys_in a (it_head it) (it_tail it) with
  | [] => r = (None, mkIter (it_tail it) (it_tail it))
  | i :: l => exists x, present a !! i = Some x
      /\ r = (Some (i, x), mkIter (i + 1) (it_tail it))
      /\ it_head it <= i < it_tail it
      /\ keys_in a (i + 1) (it_tail it) = l
  end.

Definition iter_ok (it : iter) : Prop := 0 <= it_head it <= it_tail it /\ it_tail it <= sp_cap a.

Lemma next_loop_spec fuel : forall it,
  iter_ok it -> it_head it < it_tail it ->
  (it_tail it - 1) / 64 - it_head it / 64 < Z.of_nat fuel ->
  exists r, next_loop fuel s it = Ret r /\ front_result it r.
Proof using R.
  induction fuel as [|fuel IH]; intros [h t] [Hh Ht] Hlt Hfuel; cbn in *.
  { pose proof (Z.div_le_mono h (t - 1) 64). lia. }
  pose proof (cap_bound c a R) as Hcap. unfold isize_MAX in Hcap. pose proof (mod64_bound h).
  destruct (step_at_spec h) as (Hs0 & Hs1 & Hs2); [lia|].
  rewrite (load_word_in c a R) by lia. cbn [mbind outcome_bind].
  fold (word_at h). unfold usize_BITS. fold (bme_at h).
  replace (if bme_at h =? 0 then sub_u 64 64 (h mod 64) else Ret (trailing_zeros (bme_at h)))
    with (Ret (step_at h))
    by (unfold step_at, scan_step; fold (bme_at h); case_match; [by rewrite sub_u_Ret by lia|done]).
  rewrite sub_u_Ret by lia. cbn [mbind outcome_bind].
  assert (Hnone : forall i, h <= i < h + step_at h -> i < t -> present a !! i = None).
  { intros i Hi Hit. apply bit_absent; [lia|]. replace i with (h + (i - h)) by lia. apply Hs1. lia. }
  destruct (Z.geb_spec (step_at h) (t - h)) as [Hge|Hsmall].
  - eexists. split; [done|]. unfold front_result; cbn.
    rewrite keys_in_nil; [done|]. intros i Hi. apply Hnone; lia.
  - rewrite add_u_Ret by lia. cbn [mbind outcome_bind].
    assert (keys_in a h t = keys_in a (h + step_at h) t) as Hskip.
    { apply keys_in_skip; [lia|]. intros i Hi. apply Hnone; lia. }
    destruct (Z.eqb_spec (bme_at h) 0) as [Hz|Hnz]; cbn [negb].
    + assert (step_at h = 64 - h mod 64) as Hstep by (unfold step_at, scan_step; fold (bme_at h); by rewrite Hz).
      assert ((h + step_at h) / 64 = h / 64 + 1) as Hdiv.
      { pose proof (Z_div_mod_eq_full h 64). symmetry. apply (Z.div_unique _ _ _ 0); lia. }
      destruct (IH (mkIter (h + step_at h) t)) as (r & Hr & Hf); [split; cbn; lia|cbn; lia|cbn; lia|].
      exists r. split; [done|]. unfold front_result in *. cbn in *. rewrite Hskip.
      destruct (keys_in a (h + step_at h) t); [done|].
      destruct Hf as (x & Hx & -> & Hb & Hk). exists x. repeat split; (done || lia).
    + destruct (Hs2 Hnz) as [_ Hbit]. destruct (bit_item (h + step_at h)) as [x Hx]; [lia|done|].
      rewrite add_u_Ret by lia. rewrite (get_unchecked_rel c a R _ x) by auto. cbn [mbind outcome_bind].
      eexists. split; [done|]. unfold front_result; cbn.
      rewrite Hskip, (keys_in_found a _ t x) by (done || lia). exists x. repeat split; (done || lia).
Qed.

(** [next] pops the first key of the range. *)
Lemma iter_next_spec it :
  iter_ok it -> exists r, iter_next s it = Ret r /\ front_result it r.
Proof using R.
  intros Hok. unfold iter_next. destruct (Z.geb_spec (it_head it) (it_tail it)) as [Hge|Hlt].
  - exists (None, it). split; [done|]. unfold front_result.
    rewrite keys_in_nil by (intros; lia). destruct it as [h t], Hok; cbn in *. do 2 f_equal; lia.
  - apply next_loop_spec; [done|done|]. destruct Hok as [Hh Ht]. unfold iter_fuel.
    rewrite Nat2Z.inj_succ, (rel_bitmap _ _ R).
    pose proof (words_index (sp_cap a) (it_tail it - 1)).
    pose proof (Z.div_pos (it_head it) 64). lia.
Qed.

(** ** One iteration of the backward scan *)

Definition bme_back_at (i : Z) : Z := shl (word_at i) (64 - (i mod 64 + 1)).
Definition step_back_at (i : Z) : Z := scan_back_step (word_at i) (i mod 64).

Lemma step_back_at_spec i :
  0 <= i ->
  0 <= step_back_at i <= i mod 64 + 1
  /\ (forall j, 0 <= j < step_back_at i -> bit s (i - j) = false)
  /\ (bme_back_at i <> 0 -> step_back_at i <= i mod 64 /\ bit s (i - step_back_at i) = true).
Proof.
  intros Hi. destruct (scan_back_step_spec (word_at i) (i mod 64)) as (H0 & H1 & H2);
    [apply mod64_bound|]. fold (step_back_at i) in *.
  assert (forall j, 0 <= j <= i mod 64 -> bit s (i - j) = Z.testbit (word_at i) (i mod 64 - j)) as Hbit.
  { intros j Hj. unfold bit, word_at. by destruct (same_word_back i j Hj) as [-> ->]. }
  split; [done|]. split; [intros j Hj; rewrite Hbit by lia; by apply H1|].
  intros [Hlt Ht]%H2. split; [done|]. rewrite Hbit; [done|lia].
Qed.

Definition back_result (it : iter) (r : yielded T) : Prop :=
  match last (keys_in a (it_head it) (it_tail it)) with
  | None => r = (None, mkIter (it_head it) (it_head it))
  | Some i => exists x, present a !! i = Some x
      /\ r = (Some (i, x), mkIter (it_head it) i)
      /\ it_head it <= i < it_tail it
      /\ keys_in a (it_head it) (it_tail it) = keys_in a (it_head it) i ++ [i]
  end.

Lemma next_back_loop_spec fuel : forall it,
  iter_ok it -> it_head it < it_tail it ->
  (it_tail it - 1) / 64 - it_head it / 64 < Z.of_nat fuel ->
  exists r, next_back_loop fuel s it = Ret r /\ back_result it r.
Proof using R.
  induction fuel as [|fuel IH]; intros [h t] [Hh Ht] Hlt Hfuel; cbn in *.
  { pose proof (Z.div_le_mono h (t - 1) 64). lia. }
  pose proof (cap_bound c a R) as Hcap. unfold isize_MAX in Hcap. pose proof (mod64_bound (t - 1)).
  destruct (step_back_at_spec (t - 1)) as (Hs0 & Hs1 & Hs2); [lia|].
  rewrite (sub_u_Ret 64 t 1) by lia. cbn [mbind outcome_bind].
  rewrite (load_word_in c a R) by lia. cbn [mbind outcome_bind].
  fold (word_at (t - 1)). unfold usize_BITS. fold (bme_back_at (t - 1)).
  change (if bme_back_at (t - 1) =? 0 then _ else _) with (step_back_at (t - 1)).
  rewrite (sub_u_Ret 64 t h) by lia. cbn [mbind outcome_bind].
  assert (Hnone : forall i, t - step_back_at (t - 1) <= i < t -> h <= i -> present a !! i = None).
  { intros i Hi Hih. apply bit_absent; [lia|]. replace i with (t - 1 - (t - 1 - i)) by lia.
    apply Hs1. lia. }
  destruct (Z.geb_spec (step_back_at (t - 1)) (t - h)) as [Hge|Hsmall].
  - eexists. split; [done|]. unfold back_result; cbn.
    rewrite keys_in_nil; [done|]. intros i Hi. apply Hnone; lia.
  - rewrite (sub_u_Ret 64 t) by lia. cbn [mbind outcome_bind].
    set (t' := t - step_back_at (t - 1)) in *.
    assert (keys_in a h t = keys_in a h t') as Hskip.
    { apply keys_in_skip_back; [lia|]. intros i Hi. apply Hnone; lia. }
    destruct (Z.eqb_spec (bme_back_at (t - 1)) 0) as [Hz|Hnz]; cbn [negb].
    + assert (step_back_at (t - 1) = (t - 1) mod 64 + 1) as Hstep
        by (unfold step_back_at, scan_back_step; fold (bme_back_at (t - 1)); by rewrite Hz).
      assert ((t' - 1) / 64 = (t - 1) / 64 - 1) as Hdiv.
      { pose proof (Z_div_mod_eq_full (t - 1) 64). symmetry. apply (Z.div_unique _ _ _ 63); lia. }
      destruct (IH (mkIter h t')) as (r & Hr & Hf); [split; cbn; lia|cbn; lia|cbn; lia|].
      exists r. split; [done|]. unfold back_result in *. cbn in *. rewrite Hskip.
      destruct (last (keys_in a h t')) as [i|]; [|done].
      destruct Hf as (x & Hx & -> & Hb & Hk). exists x. repeat split; (done || lia).
    + destruct (Hs2 Hnz) as [_ Hbit]. replace (t - 1 - step_back_at (t - 1)) with (t' - 1) in Hbit by lia.
      destruct (bit_item (t' - 1)) as [x Hx]; [lia|done|].
      rewrite sub_u_Ret by lia. cbn [mbind outcome_bind].
      rewrite (get_unchecked_rel c a R _ x) by auto. cbn [mbind outcome_bind].
      eexists. split; [done|]. unfold back_result; cbn.
      rewrite Hskip, (keys_in_found_back a h t' x) by (done || lia). rewrite last_snoc.
      exists x. repeat split; (done || lia).
Qed.

(** [next_back] pops the last key of the range. *)
Lemma iter_next_back_spec it :
  iter_ok it -> exists r, iter_next_back s it = Ret r /\ back_result it r.
Proof using R.
  intros Hok. unfold iter_next_back. destruct (Z.leb_spec (it_tail it) (it_head it)) as [Hge|Hlt].
  - exists (None, it). split; [done|]. unfold back_result.
    rewrite keys_in_nil by (intros; lia). destruct it as [h t], Hok; cbn in *. do 2 f_equal; lia.
  - apply next_back_loop_spec; [done|done|]. destruct Hok as [Hh Ht]. unfold iter_fuel.
    rewrite Nat2Z.inj_succ, (rel_bitmap _ _ R).
    pose proof (words_index (sp_cap a) (it_tail it - 1)).
    pose proof (Z.div_pos (it_head it) 64). lia.
Qed.

(** A new iterator ranges over all the present items. *)
Lemma iter_new_spec :
  iter_new s = Ret (mkIter 0 (frontier s))
  /\ iter_ok (mkIter 0 (frontier s))
  /\ keys_in a 0 (frontier s) = keys_in a 0 (sp_cap a).
Proof using R.
  destruct (rel_frontier _ _ R) as [Hf Hb]. unfold iter_new. rewrite (rel_size _ _ R).
  destruct (Z.leb_spec (frontier s) (sp_cap a)); [|lia]. split; [done|].
  split; [split; cbn; lia|]. symmetry. apply keys_in_skip_back; [lia|].
  intros i Hi. destruct (present a !! i) eqn:E; [|done].
  assert (i < frontier s) by eauto. lia.
Qed.

(** ** Draining *)

Lemma drain_spec fuel : forall it,
  iter_ok it -> (Z.to_nat (it_tail it - it_head it) < fuel)%nat ->
  drain fuel s it = Ret (items_at a (keys_in a (it_head it) (it_tail it))).
Proof using R.
  induction fuel as [|fuel IH]; intros it Hok Hfuel; [lia|]. cbn [drain].
  destruct (iter_next_spec it Hok) as (r & -> & Hf). cbn [mbind outcome_bind].
  unfold front_result in Hf. destruct (keys_in a (it_head it) (it_tail it)) as [|i l] eqn:Hk.
  - by subst r.
  - destruct Hf as (x & Hx & -> & Hb & Hl). destruct Hok as [Hh Ht].
    rewrite IH by (try split; cbn; lia). cbn [mbind outcome_bind it_head it_tail].
    by rewrite Hl, (items_at_cons a i l x).
Qed.

Lemma drain_all_spec it :
  iter_ok it -> drain_all s it = Ret (items_at a (keys_in a (it_head it) (it_tail it))).
Proof using R. intros Hok. apply drain_spec; [done|lia]. Qed.
End iter.
