(* ===== verification/SlabInterface.v ===== *)
(** What a slab promises to the structures built on it: its operations as a
    class, and the laws that relate them to the abstract specification.
    [Cslab] is an instance; [RcuCslab] is verified against the class. *)

From S2P Require Import Prelude CslabStorage Cslab SlabSpec SlabKeys CslabProof CslabIter CslabIterProof.

Class SlabOps (S T : Type) := {
  slab_insert : S -> T -> outcome (result Z unit * S);
  slab_vacant_key : S -> result Z unit;
  slab_mark_removed : S -> Z -> outcome S;
  slab_finalize_remove : S -> Z -> outcome (T * S);
  slab_contains_key : S -> Z -> outcome bool;
  slab_get_unchecked : S -> Z -> outcome T;
  slab_get : S -> Z -> outcome (option T);
  slab_len : S -> Z;
  slab_allocated : S -> Z;
  slab_capacity : S -> Z;
  slab_iter_new : S -> outcome iter;
  slab_iter_next : S -> iter -> outcome (yielded T);
  slab_iter_next_back : S -> iter -> outcome (yielded T);
  slab_drop : S -> outcome (list T);
}.

Class SlabLaws (S T : Type) {O : SlabOps S T} := {
  slab_abs : S -> slab_spec T -> Prop;
  abs_wf s a : slab_abs s a -> spec_wf a;
  abs_insert s a t : slab_abs s a ->
    match spec_insert a t with
    | None => slab_insert s t = Ret (Err tt, s)
    | Some (i, a') => exists s', slab_insert s t = Ret (Ok i, s') /\ slab_abs s' a'
    end;
  abs_vacant_key s a : slab_abs s a ->
    slab_vacant_key s = match free a with [] => Err tt | i :: _ => Ok i end;
  abs_mark s a i : slab_abs s a -> 0 <= i ->
    match spec_mark a i with
    | None => slab_mark_removed s i = Panic
    | Some a' => exists s', slab_mark_removed s i = Ret s' /\ slab_abs s' a'
    end;
  abs_finalize s a i : slab_abs s a -> 0 <= i ->
    match spec_finalize a i with
    | None => slab_finalize_remove s i = if decide (i ∈ free a) then UB else Panic
    | Some (t, a') => exists s', slab_finalize_remove s i = Ret (t, s') /\ slab_abs s' a'
    end;
  abs_contains_key s a i : slab_abs s a -> 0 <= i ->
    slab_contains_key s i = Ret (bool_decide (is_Some (present a !! i)));
  abs_get_unchecked s a i t : slab_abs s a ->
    present a !! i = Some t \/ pending a !! i = Some t -> slab_get_unchecked s i = Ret t;
  abs_get s a i : slab_abs s a -> 0 <= i -> slab_get s i = Ret (present a !! i);
  abs_len s a : slab_abs s a -> slab_len s = Z.of_nat (base.size (present a));
  abs_allocated s a : slab_abs s a ->
    slab_allocated s = Z.of_nat (base.size (present a)) + Z.of_nat (base.size (pending a));
  abs_capacity s a : slab_abs s a -> slab_capacity s = sp_cap a;
  abs_iter_new s a : slab_abs s a -> exists it,
    slab_iter_new s = Ret it /\ iter_ok a it
    /\ keys_in a (it_head it) (it_tail it) = keys_in a 0 (sp_cap a);
  abs_iter_next s a it : slab_abs s a -> iter_ok a it ->
    exists r, slab_iter_next s it = Ret r /\ front_result a it r;
  abs_iter_next_back s a it : slab_abs s a -> iter_ok a it ->
    exists r, slab_iter_next_back s it = Ret r /\ back_result a it r;
  abs_drop s a : slab_abs s a ->
    slab_drop s = Ret (items_at a (keys_in a 0 (sp_cap a))).*2;
}.

(** ** [Cslab] *)

Section cslab.
Context {T : Type}.

#[export] Instance cslab_ops : SlabOps (cslab T) T := {
  slab_insert := insert;
  slab_vacant_key := vacant_key;
  slab_mark_removed := mark_removed;
  slab_finalize_remove := finalize_remove;
  slab_contains_key c := contains_key_impl (slab_storage c);
  slab_get_unchecked c := get_unchecked_impl (slab_storage c);
  slab_get := get;
  slab_len := len;
  slab_allocated := allocated;
  slab_capacity := capacity;
  slab_iter_new c := iter_new (slab_storage c);
  slab_iter_next c := iter_next (slab_storage c);
  slab_iter_next_back c := iter_next_back (slab_storage c);
  slab_drop c := storage_drop (slab_storage c);
}.

Lemma storage_drop_rel (c : cslab T) a :
  slab_rel c a -> storage_drop (slab_storage c) = Ret (items_at a (keys_in a 0 (sp_cap a))).*2.
Proof.
  intros R. destruct (iter_new_spec c a R) as (Hnew & Hok & Hkeys).
  unfold storage_drop. rewrite Hnew. cbn [mbind outcome_bind].
  rewrite (drain_all_spec c a R) by done. cbn. by rewrite Hkeys.
Qed.

#[export] Instance cslab_laws : SlabLaws (cslab T) T.
Proof.
  refine {| slab_abs := slab_rel |}.
  - intros c a R. apply R.
  - intros c a t R. unfold spec_insert. destruct (free a) as [|i l] eqn:Hf.
    + by apply (insert_full c a R).
    + by apply (insert_rel c a R).
  - intros c a R. by apply vacant_key_rel.
  - intros c a i R Hi. unfold spec_mark. destruct (present a !! i) as [t|] eqn:Ht.
    + by apply (mark_rel c a R).
    + by apply (mark_panics c a R).
  - intros c a i R Hi. unfold spec_finalize. destruct (pending a !! i) as [t|] eqn:Ht.
    + by apply (finalize_rel c a R).
    + by apply finalize_other.
  - intros c a i R Hi. by apply contains_key_rel.
  - intros c a i t R Ht. by apply (get_unchecked_rel c a R).
  - intros c a i R Hi. by apply get_rel.
  - intros c a R. apply R.
  - intros c a R. apply R.
  - intros c a R. apply R.
  - intros c a R. eexists. exact (iter_new_spec c a R).
  - intros c a it R Hok. by apply iter_next_spec.
  - intros c a it R Hok. by apply iter_next_back_spec.
  - intros c a R. by apply storage_drop_rel.
Defined.
End cslab.
