(* ===== verification/CslabProps.v ===== *)
(** Properties of the slab as a whole: it behaves as its specification over all
    sequences of operations, its memory layout, iteration, and what is dropped. *)

From S2P Require Import Prelude CslabWord CslabStorage Cslab SlabSpec SlabKeys.
From S2P Require Import CslabProof CslabIter CslabIterProof SlabInterface.

(** ** Sequences of operations *)

Section trace.
Context {T : Type}.

Inductive slab_op : Type :=
| OpInsert (t : T)
| OpVacantKey
| OpMarkRemoved (i : Z)
| OpFinalizeRemove (i : Z)
| OpGet (i : Z)
| OpGetUnchecked (i : Z)
| OpLen
| OpAllocated
| OpCollect.      (* iterate over everything *)

Inductive slab_resp : Type :=
| RKey (r : result Z unit)
| RUnit
| RItem (t : T)
| RGet (o : option T)
| RNum (n : Z)
| RItems (l : list (Z * T)).

(** The indices are [usize]s. *)
Definition op_usize (o : slab_op) : Prop :=
  match o with
  | OpMarkRemoved i | OpFinalizeRemove i | OpGet i | OpGetUnchecked i => 0 <= i
  | _ => True
  end.

Definition slab_step (c : cslab T) (o : slab_op) : outcome (slab_resp * cslab T) :=
  match o with
  | OpInsert t => '(r, c') ← insert c t; Ret (RKey r, c')
  | OpVacantKey => Ret (RKey (vacant_key c), c)
  | OpMarkRemoved i => c' ← mark_removed c i; Ret (RUnit, c')
  | OpFinalizeRemove i => '(t, c') ← finalize_remove c i; Ret (RItem t, c')
  | OpGet i => r ← get c i; Ret (RGet r, c)
  | OpGetUnchecked i => t ← get_unchecked_impl (slab_storage c) i; Ret (RItem t, c)
  | OpLen => Ret (RNum (len c), c)
  | OpAllocated => Ret (RNum (allocated c), c)
  | OpCollect =>
      it ← iter_new (slab_storage c); l ← drain_all (slab_storage c) it; Ret (RItems l, c)
  end.

(** The specification of each operation, with the panics of the safe interface
    and the undefined behaviour of breaking the contract of an unsafe one. *)
Definition spec_step (a : slab_spec T) (o : slab_op) : outcome (slab_resp * slab_spec T) :=
  match o with
  | OpInsert t =>
      match spec_insert a t with
      | Some (i, a') => Ret (RKey (Ok i), a')
      | None => Ret (RKey (Err tt), a)
      end
  | OpVacantKey => Ret (RKey (match free a with [] => Err tt | i :: _ => Ok i end), a)
  | OpMarkRemoved i =>
      match spec_mark a i with Some a' => Ret (RUnit, a') | None => Panic end
  | OpFinalizeRemove i =>
      match spec_finalize a i with
      | Some (t, a') => Ret (RItem t, a')
      | None => if decide (i ∈ free a) then UB else Panic
      end
  | OpGet i => Ret (RGet (present a !! i), a)
  | OpGetUnchecked i =>
      match (present a ∪ pending a) !! i with
      | Some t => Ret (RItem t, a)
      | None => if decide (i ∈ free a) then UB else Panic
      end
  | OpLen => Ret (RNum (Z.of_nat (base.size (present a))), a)
  | OpAllocated =>
      Ret (RNum (Z.of_nat (base.size (present a)) + Z.of_nat (base.size (pending a))), a)
  | OpCollect => Ret (RItems (items_at a (keys_in a 0 (sp_cap a))), a)
  end.

Fixpoint run {S : Type} (step : S -> slab_op -> outcome (slab_resp * S)) (s : S) (ops : list slab_op)
  : outcome (list slab_resp) :=
  match ops with
  | [] => Ret []
  | o :: ops' => '(r, s') ← step s o; l ← run step s' ops'; Ret (r :: l)
  end.

Lemma get_unchecked_other (c : cslab T) a i :
  slab_rel c a -> 0 <= i -> (present a ∪ pending a) !! i = None ->
  get_unchecked_impl (slab_storage c) i = if decide (i ∈ free a) then UB else Panic.
Proof.
  intros R Hi [Hp Hq]%lookup_union_None. unfold get_unchecked_impl.
  case_decide as Hf.
  - pose proof (free_bound c a R i Hf) as Hb.
    destruct (lookup_lt_is_Some_2 (table (slab_storage c)) (Z.to_nat i)) as [[nf|t] He].
    + rewrite (rel_table _ _ R). lia.
    + by rewrite (index_Ret _ i (Free nf)) by (done || lia).
    + apply (rel_items _ _ R) in He as []; [congruence..|lia].
  - rewrite index_Panic; [done|]. rewrite (rel_table _ _ R).
    destruct (Z.ltb_spec i (sp_cap a)); [|pose proof (cap_bound c a R); lia].
    destruct (rel_wf _ _ R) as (_ & _ & _ & Hcov & _).
    destruct (proj1 (Hcov i)) as [?|[[? ?]|[? ?]]]; [lia|done|congruence..].
Qed.

(** One operation of the slab is one operation of the specification. *)
Lemma step_refines (c : cslab T) a o :
  slab_rel c a -> op_usize o ->
  match spec_step a o with
  | Ret (r, a') => exists c', slab_step c o = Ret (r, c') /\ slab_rel c' a'
  | Panic => slab_step c o = Panic
  | UB => slab_step c o = UB
  | OutOfFuel => False
  end.
Proof.
  intros R Ho. destruct o as [t| |i|i|i|i| | |]; cbn [slab_step spec_step].
  - pose proof (abs_insert c a t R) as H. destruct (spec_insert a t) as [[i a']|]; cbn in H |- *.
    + destruct H as (c' & -> & R'). by exists c'.
    + rewrite H. by exists c.
  - exists c. by rewrite (vacant_key_rel c a R).
  - pose proof (abs_mark c a i R Ho) as H. destruct (spec_mark a i) as [a'|]; cbn in H.
    + destruct H as (c' & -> & R'). by exists c'.
    + by rewrite H.
  - pose proof (abs_finalize c a i R Ho) as H. destruct (spec_finalize a i) as [[t a']|]; cbn in H.
    + destruct H as (c' & -> & R'). by exists c'.
    + rewrite H. by case_decide.
  - rewrite (get_rel c a R) by done. by exists c.
  - destruct ((present a ∪ pending a) !! i) as [t|] eqn:Ht.
    + apply lookup_union_Some_raw in Ht. rewrite (get_unchecked_rel c a R i t) by naive_solver.
      by exists c.
    + rewrite (get_unchecked_other c a i R) by done. by case_decide.
  - exists c. unfold len. by rewrite (rel_in_use _ _ R).
  - exists c. by rewrite (rel_allocated _ _ R).
  - destruct (iter_new_spec c a R) as (-> & Hok & Hk). cbn [mbind outcome_bind].
    rewrite (drain_all_spec c a R) by done. cbn. rewrite Hk. by exists c.
Qed.

Lemma run_refines ops : forall (c : cslab T) a,
  slab_rel c a -> Forall op_usize ops -> run slab_step c ops = run spec_step a ops.
Proof.
  induction ops as [|o ops IH]; intros c a R; [done|]. intros [Ho Hops]%Forall_cons.
  cbn [run]. pose proof (step_refines c a o R Ho) as H.
  destruct (spec_step a o) as [[r a']| | |]; [|by rewrite H..|done].
  destruct H as (c' & -> & R'). cbn [mbind outcome_bind]. by rewrite (IH c' a').
Qed.
End trace.
Arguments slab_op : clear implicits.
Arguments slab_resp : clear implicits.

(** ** Reachable slabs

    The slabs a client can hold: created by [with_fixed_capacity], then any
    operations, in any order, that returned. *)

(** An [Entry<T>] is a union with an [isize], so its layout has at least the
    size of one. *)
Definition entry_layout_ok (el : layout) : Prop := 8 <= l_size el /\ 0 < l_align el.

#[global] Instance entry_layout_ok_dec el : Decision (entry_layout_ok el).
Proof. unfold entry_layout_ok. apply _. Defined.

Inductive reachable {T} (el : layout) (cap : Z) : cslab T -> Prop :=
| reachable_new c : with_fixed_capacity el cap = Ret c -> reachable el cap c
| reachable_step c o r c' :
    reachable el cap c -> op_usize o -> slab_step c o = Ret (r, c') -> reachable el cap c'.

Section reachable.
Context {T : Type} (el : layout) (cap : Z) (Hel : entry_layout_ok el).

Lemma spec_step_cap (a : slab_spec T) o r a' :
  spec_step a o = Ret (r, a') -> sp_cap a' = sp_cap a.
Proof.
  destruct o; cbn; unfold spec_insert, spec_mark, spec_finalize; intros H;
    repeat case_match; simplify_eq; try done;
    repeat match goal with
    | H : mbind _ _ = Some _ |- _ => apply bind_Some in H as (? & ? & ?)
    end; simplify_eq; done.
Qed.

(** A reachable slab refines some state of the specification. *)
Lemma reachable_rel (c : cslab T) :
  reachable el cap c -> exists a, slab_rel c a /\ sp_cap a = cap.
Proof using Hel.
  destruct Hel as [Hsz Hal]. induction 1 as [c Hnew|c o r c' Hc (a & R & Hcap) Ho Hs].
  - exists (spec_new cap). split; [by eapply with_fixed_capacity_rel|done].
  - pose proof (step_refines c a o R Ho) as H. rewrite Hs in H.
    destruct (spec_step a o) as [[r' a']| | |] eqn:Ha; [|done..].
    destruct H as (c'' & [= -> <-] & R'). exists a'. split; [done|].
    by rewrite (spec_step_cap a o r' a').
Qed.
End reachable.

(** Running operations reaches slabs; for closed runs. *)
Fixpoint run_state {T} (c : cslab T) (ops : list (slab_op T)) : outcome (cslab T) :=
  match ops with
  | [] => Ret c
  | o :: ops' => '(_, c') ← slab_step c o; run_state c' ops'
  end.

Lemma run_reachable {T} el cap (c c' : cslab T) ops :
  reachable el cap c -> Forall op_usize ops -> run_state c ops = Ret c' -> reachable el cap c'.
Proof.
  revert c. induction ops as [|o ops IH]; intros c Hc Hops; cbn [run_state].
  - by intros [= <-].
  - apply Forall_cons in Hops as [Ho Hops]. intros Hr.
    apply bind_returns in Hr as ([r c1] & Hs & Hr). eapply IH; [|done|done].
    by eapply reachable_step.
Qed.

Lemma new_run_reachable {T} el cap ops (c : cslab T) :
  Forall op_usize ops ->
  (c0 ← with_fixed_capacity el cap; run_state c0 ops) = Ret c -> reachable el cap c.
Proof.
  intros Hops Hr. apply bind_returns in Hr as (c0 & Hc & Hr).
  by apply (run_reachable _ _ c0 _ ops); [apply reachable_new|..].
Qed.

(** A slab of capacity 70 (two words of bitmap) with three present items, one
    pending one, and a used freelist; the witnesses' example. *)
Definition demo_layout : layout := mkLayout 8 8.
Definition demo_ops : list (slab_op Z) :=
  [OpInsert 10; OpInsert 11; OpInsert 12; OpInsert 13; OpInsert 14;
   OpMarkRemoved 1; OpFinalizeRemove 1; OpMarkRemoved 3].
Definition demo : outcome (cslab Z) :=
  c ← with_fixed_capacity demo_layout 70; run_state c demo_ops.
Definition demo_slab : cslab Z :=
  Eval vm_compute in match demo with Ret c => c | _ => mkCslab 0 0 0 (mkStorage 0 0 [] [] 0) end.

Lemma demo_reachable : reachable demo_layout 70 demo_slab.
Proof.
  apply (new_run_reachable _ _ demo_ops); [by repeat constructor|vm_compute; reflexivity].
Qed.
