(* ===== verification/CslabCorrect.v ===== *)
(** Correctness of the slab: its theorems, about the slabs that any sequence of
    operations reaches. *)

From S2P Require Import Prelude CslabWord CslabStorage Cslab SlabSpec SlabKeys.
From S2P Require Import CslabProof CslabIter CslabIterProof SlabInterface CslabProps.

(** ** Operations *)

(** C6 (refinement). The slab implements its specification: over every sequence
    of operations, its results are those of the finite maps and the stack of
    free indices, panics and undefined behaviour included. *)
Theorem slab_refines_spec {T} el cap (c : cslab T) ops :
  entry_layout_ok el -> with_fixed_capacity el cap = Ret c -> Forall op_usize ops ->
  run slab_step c ops = run spec_step (spec_new cap) ops.
Proof. intros [Hs Ha] Hc Hops. apply run_refines; [by eapply with_fixed_capacity_rel|done]. Qed.

Lemma slab_refines_spec_witness :
  exists c : cslab Z, with_fixed_capacity demo_layout 70 = Ret c
  /\ run slab_step c (demo_ops ++ [OpCollect]) = run spec_step (spec_new 70) (demo_ops ++ [OpCollect])
  /\ last demo_ops = Some (OpMarkRemoved 3).
Proof.
  eexists. split; [reflexivity|]. split; [|reflexivity].
  apply (slab_refines_spec demo_layout 70); [by_decide|reflexivity|by repeat constructor].
Defined.

(** In every reachable slab the counters are ordered and the
    capacity never changes, a vacant key exists exactly when a slot is not
    allocated, and insertion returns without panicking what [vacant_key]
    announced. *)
Theorem slab_accounting {T} el cap (c : cslab T) (t : T) :
  entry_layout_ok el -> reachable el cap c ->
  capacity c = cap
  /\ 0 <= len c <= allocated c /\ allocated c <= cap
  /\ (vacant_key c = Err tt <-> allocated c = cap)
  /\ exists c', insert c t = Ret (vacant_key c, c').
Proof.
  intros Hel Hc. destruct (reachable_rel el cap Hel c Hc) as (a & R & <-).
  unfold capacity, len. rewrite (rel_size _ _ R), (rel_in_use _ _ R), (rel_allocated _ _ R).
  pose proof (spec_sizes a (rel_wf _ _ R)). rewrite (vacant_key_rel c a R).
  pose proof (abs_insert c a t R) as Hi. unfold spec_insert in Hi.
  split; [done|]. split; [lia|]. split; [lia|].
  destruct (free a) as [|i l]; cbn [length] in *.
  - split; [split; [lia|done]|]. by exists c.
  - split; [split; [done|lia]|]. destruct Hi as (c' & ? & _). by exists c'.
Qed.

Lemma slab_accounting_witness :
  capacity demo_slab = 70 /\ len demo_slab = 3 /\ allocated demo_slab = 4
  /\ exists c', insert demo_slab 15 = Ret (vacant_key demo_slab, c').
Proof.
  split; [reflexivity|]. split; [reflexivity|]. split; [reflexivity|].
  apply (slab_accounting demo_layout 70 demo_slab 15); [by_decide|exact demo_reachable].
Defined.

(** Insertion stores the item at an index that was not
    present, and changes nothing else a reader can see. *)
Theorem insert_get {T} el cap (c : cslab T) t i c' :
  entry_layout_ok el -> reachable el cap c -> insert c t = Ret (Ok i, c') ->
  get c i = Ret None /\ get c' i = Ret (Some t)
  /\ len c' = len c + 1 /\ allocated c' = allocated c + 1
  /\ forall j, 0 <= j -> j <> i -> get c' j = get c j.
Proof.
  intros Hel Hc Hi. destruct (reachable_rel el cap Hel c Hc) as (a & R & _).
  pose proof (abs_insert c a t R) as Hs. unfold spec_insert in Hs.
  destruct (free a) as [|i' l] eqn:Hf; cbn in Hs; rewrite Hs in Hi || destruct Hs as (? & Hs & R').
  { by simplify_eq. }
  rewrite Hs in Hi. simplify_eq.
  pose proof (free_bound c a R i) as Hb. rewrite Hf in Hb. specialize (Hb ltac:(by left)).
  destruct (rel_wf _ _ R) as (_ & _ & _ & _ & Hfree).
  destruct (Hfree i) as [Hp Hq]; [rewrite Hf; by left|].
  unfold len. rewrite (rel_in_use _ _ R), (rel_in_use _ _ R'), (rel_allocated _ _ R),
    (rel_allocated _ _ R'); cbn [present pending].
  rewrite !(get_rel c a R), !(get_rel c' _ R') by lia; cbn [present].
  rewrite lookup_insert_eq, map_size_insert_None, Nat2Z.inj_succ by done.
  repeat split; try lia; [by rewrite Hp|].
  intros j Hj Hne. rewrite (get_rel c a R), (get_rel c' _ R') by done. cbn [present].
  by rewrite lookup_insert_ne by done.
Qed.

Lemma insert_get_witness :
  exists c', insert demo_slab 15 = Ret (Ok 1, c') /\ get c' 1 = Ret (Some 15).
Proof.
  eexists. split; [vm_compute; reflexivity|].
  eapply (insert_get demo_layout 70 demo_slab); [by_decide|exact demo_reachable|].
  vm_compute; reflexivity.
Defined.

(** The two phases of a removal: a marked item is gone for [get],
    its slot is not reused by any insertion until it is finalized, the item is
    still there for readers that saw it, and finalizing gives it back and makes
    its index the next one to be used.  No other index is disturbed. *)
Theorem removal_two_phases {T} el cap (c : cslab T) i t :
  entry_layout_ok el -> reachable el cap c -> 0 <= i -> get c i = Ret (Some t) ->
  exists c1 c2,
    mark_removed c i = Ret c1 /\ finalize_remove c1 i = Ret (t, c2)
    /\ get c1 i = Ret None /\ get_unchecked_impl (slab_storage c1) i = Ret t
    /\ vacant_key c1 = vacant_key c /\ len c1 = len c - 1 /\ allocated c1 = allocated c
    /\ vacant_key c2 = Ok i /\ len c2 = len c1 /\ allocated c2 = allocated c - 1
    /\ forall j, 0 <= j -> j <> i -> get c1 j = get c j /\ get c2 j = get c j.
Proof.
  intros Hel Hc Hi. destruct (reachable_rel el cap Hel c Hc) as (a & R & _).
  rewrite (get_rel c a R) by done. intros [= Ht].
  pose proof (abs_mark c a i R Hi) as Hm. unfold spec_mark in Hm. rewrite Ht in Hm.
  destruct Hm as (c1 & Hm & R1). exists c1.
  pose proof (abs_finalize c1 _ i R1 Hi) as Hf. unfold spec_finalize in Hf. cbn [pending] in Hf.
  rewrite lookup_insert_eq in Hf. destruct Hf as (c2 & Hf & R2). exists c2.
  split; [exact Hm|]. split; [exact Hf|].
  rewrite (get_unchecked_rel c1 _ R1 i t) by (right; apply lookup_insert_eq).
  destruct (rel_wf _ _ R) as (_ & Hd & _).
  assert (pending a !! i = None) as Hp by (by eapply map_disjoint_Some_l).
  pose proof (map_size_ne_0_lookup_2 _ _ (mk_is_Some _ _ Ht)) as Hsz.
  unfold len. rewrite (rel_in_use _ _ R), (rel_in_use _ _ R1), (rel_in_use _ _ R2),
    (rel_allocated _ _ R), (rel_allocated _ _ R1), (rel_allocated _ _ R2).
  rewrite (vacant_key_rel c a R), (vacant_key_rel c1 _ R1), (vacant_key_rel c2 _ R2).
  rewrite (get_rel c1 _ R1) by done. cbn [present pending free].
  rewrite delete_insert_id by done.
  rewrite lookup_delete_eq, map_size_insert_None, (map_size_delete_Some _ _ (mk_is_Some _ _ Ht))
    by done.
  repeat split; try done; try lia;
    rewrite (get_rel c a R), ?(get_rel c1 _ R1), ?(get_rel c2 _ R2) by done;
    cbn [present]; by rewrite lookup_delete_ne.
Qed.

Lemma removal_two_phases_witness :
  get demo_slab 2 = Ret (Some 12)
  /\ exists c1 c2, mark_removed demo_slab 2 = Ret c1 /\ finalize_remove c1 2 = Ret (12, c2)
     /\ vacant_key demo_slab = Ok 1 /\ vacant_key c2 = Ok 2.
Proof.
  split; [vm_compute; reflexivity|].
  destruct (removal_two_phases demo_layout 70 demo_slab 2 12) as (c1 & c2 & H);
    [by_decide|exact demo_reachable|lia|vm_compute; reflexivity|].
  exists c1, c2. split; [apply H|]. split; [apply H|]. split; [reflexivity|apply H].
Defined.

(** Misuse of a removal is caught where the code can catch it: marking
    an index that holds no present item panics, in range or not, and
    finalizing an item that is still present panics.  What finalizing cannot
    catch is an index that is free, where it is undefined behaviour. *)
Theorem removal_misuse {T} el cap (c : cslab T) i :
  entry_layout_ok el -> reachable el cap c -> 0 <= i ->
  (get c i = Ret None -> mark_removed c i = Panic)
  /\ (forall t, get c i = Ret (Some t) -> finalize_remove c i = Panic)
  /\ (cap <= i -> finalize_remove c i = Panic)
  /\ (vacant_key c = Ok i -> finalize_remove c i = UB).
Proof.
  intros Hel Hc Hi. destruct (reachable_rel el cap Hel c Hc) as (a & R & <-).
  rewrite (get_rel c a R), (vacant_key_rel c a R) by done.
  split; [intros [= Hp]; by apply (mark_panics c a R)|].
  split; [intros t [= Hp]; apply (finalize_present_panics c a R); by eexists|].
  split; [by apply (finalize_beyond_panics c a R)|].
  destruct (free a) as [|j l] eqn:Hf; [done|]. intros [= ->].
  apply (finalize_free_UB c a R). rewrite Hf. by left.
Qed.

Lemma removal_misuse_witness :
  mark_removed demo_slab 3 = Panic /\ finalize_remove demo_slab 0 = Panic
  /\ finalize_remove demo_slab 1 = UB.
Proof.
  pose proof (fun i Hi => removal_misuse demo_layout 70 demo_slab i
                            ltac:(by_decide) demo_reachable Hi) as H.
  split; [apply (H 3); [lia|vm_compute; reflexivity]|].
  split; [apply (H 0 ltac:(lia)) with (t := 10); vm_compute; reflexivity|].
  apply (H 1); [lia|vm_compute; reflexivity].
Defined.

(** ** Creation *)

(** What [Layout::array] and [Layout::extend] need to succeed: table and bitmap
    fit in [isize::MAX] bytes, rounded up to their alignment. *)
Definition storage_fits (el : layout) (cap : Z) : Prop :=
  l_size el * cap <= isize_MAX - (l_align el - 1)
  /\ round_up (l_size el * cap) 8 + 8 * words cap <= isize_MAX - (Z.max (l_align el) 8 - 1).

#[global] Instance storage_fits_dec el cap : Decision (storage_fits el cap).
Proof. unfold storage_fits. apply _. Defined.

Lemma round_up_bounds x al : 0 < al -> x <= round_up x al < x + al /\ (al | round_up x al).
Proof.
  intros Hal. unfold round_up. pose proof (Z.mod_pos_bound (x + al - 1) al Hal).
  pose proof (Z.div_mod (x + al - 1) al). split; [lia|]. apply Z.divide_factor_r.
Qed.

Lemma from_size_align_eq sz al l :
  layout_from_size_align sz al = Some l <-> sz <= isize_MAX - (al - 1) /\ l = mkLayout sz al.
Proof. unfold layout_from_size_align. destruct (Z.leb_spec sz (isize_MAX - (al - 1))); naive_solver lia. Qed.

(** The layout computations succeed exactly when everything fits. *)
Lemma storage_layout_eq el cap :
  entry_layout_ok el -> 0 < cap ->
  storage_layout el cap =
    if decide (storage_fits el cap)
    then Ret (mkLayout (round_up (l_size el * cap) 8 + 8 * words cap) (Z.max (l_align el) 8),
              round_up (l_size el * cap) 8)
    else Panic.
Proof.
  intros [Hs Ha] Hc. unfold storage_layout, table_layout, layout_array, storage_fits.
  unfold layout_from_size_align at 1.
  destruct (Z.leb_spec (l_size el * cap) (isize_MAX - (l_align el - 1))) as [Hf|Hf].
  2:{ rewrite decide_False by lia. done. }
  cbn [unwrap mbind outcome_bind]. assert (8 * cap <= isize_MAX) as Hcap by nia.
  pose proof (words_index cap 0 ltac:(lia)). unfold isize_MAX in Hcap.
  assert (words cap <= cap).
  { unfold words. apply Z.lt_succ_r, Z.div_lt_upper_bound; lia. }
  unfold bitmap_layout. rewrite bitmap_len_eq by lia. cbn [mbind outcome_bind].
  unfold layout_array, usize_layout, layout_from_size_align; cbn [l_size l_align].
  rewrite (proj2 (Z.leb_le (8 * words cap) _)) by (unfold isize_MAX; lia).
  cbn [unwrap mbind outcome_bind]. unfold layout_extend, layout_from_size_align.
  cbn [l_size l_align].
  destruct (Z.leb_spec (round_up (l_size el * cap) 8 + 8 * words cap)
              (isize_MAX - (Z.max (l_align el) 8 - 1))).
  - by rewrite decide_True by lia.
  - by rewrite decide_False by lia.
Qed.

(** Creating a slab returns an empty slab of the asked
    capacity when the capacity is positive and the table and the bitmap fit in
    an allocation, and panics otherwise; it never has undefined behaviour. *)
Theorem with_fixed_capacity_spec {T} el cap :
  entry_layout_ok el ->
  (0 < cap /\ storage_fits el cap /\
     exists c : cslab T, with_fixed_capacity el cap = Ret c /\ capacity c = cap
       /\ len c = 0 /\ allocated c = 0 /\ vacant_key c = Ok 0
       /\ forall i, 0 <= i -> get c i = Ret None)
  \/ (~ (0 < cap /\ storage_fits el cap)
      /\ (with_fixed_capacity el cap : outcome (cslab T)) = Panic).
Proof.
  intros Hel. destruct (Z.lt_ge_cases 0 cap) as [Hpos|Hneg].
  2:{ right. split; [lia|]. unfold with_fixed_capacity, storage_with_fixed_capacity.
      by destruct (Z.gtb_spec cap 0); [lia|]. }
  unfold with_fixed_capacity, storage_with_fixed_capacity.
  rewrite (proj2 (Z.gtb_lt _ _) Hpos), storage_layout_eq by done.
  case_decide as Hfit; [left|right; split; [naive_solver|done]].
  split; [done|]. split; [done|]. destruct Hel as [Hs Ha]. destruct Hfit as [Ht Hb].
  assert (8 * cap <= isize_MAX) as Hcap by nia. unfold isize_MAX in Hcap.
  cbn [mbind outcome_bind]. rewrite bitmap_len_eq by lia. cbn [mbind outcome_bind].
  eexists. split; [done|]. unfold capacity, len, vacant_key, table_len, get; cbn.
  rewrite length_replicate, Z2Nat.id by lia.
  destruct (Z.geb_spec 0 cap); [lia|]. repeat split; try done. intros i Hi.
  unfold get_impl, contains_key_impl; cbn [size].
  destruct (Z.geb_spec i cap); [done|]. pose proof (words_index cap i ltac:(lia)).
  rewrite load_word_Ret; cbn [bitmap]; [|lia|rewrite length_replicate; lia].
  rewrite lookup_total_replicate_2 by lia. cbn [mbind outcome_bind].
  by rewrite flag_b2z, Z.bits_0 by lia.
Qed.

Lemma with_fixed_capacity_spec_witness :
  (exists c : cslab Z, with_fixed_capacity (mkLayout 24 8) 100 = Ret c /\ capacity c = 100)
  /\ (with_fixed_capacity (mkLayout 24 8) (2 ^ 60) : outcome (cslab Z)) = Panic.
Proof.
  split.
  - destruct (with_fixed_capacity_spec (T := Z) (mkLayout 24 8) 100 ltac:(by_decide))
      as [(_ & _ & c & Hc & Hcap & _)|[H _]]; [eauto|].
    exfalso. apply H. split; [lia|by_decide].
  - destruct (with_fixed_capacity_spec (T := Z) (mkLayout 24 8) (2 ^ 60) ltac:(by_decide))
      as [(_ & H & _)|[_ H]]; [|exact H].
    exfalso. revert H. refine (bool_decide_unpack _ _). vm_compute. exact I.
Defined.

(** C30 (bounds). The one allocation holds both arrays: in it, every entry of
    the table and every word of the bitmap is in bounds and aligned, and the
    bitmap starts after the table ends; the word of the bitmap that an index
    of the table selects exists. *)
Theorem storage_layout_sound el n l off base :
  entry_layout_ok el -> 0 < n -> (8 | l_align el) \/ (l_align el | 8) ->
  (l_align el | l_size el) -> storage_layout el n = Ret (l, off) -> (l_align l | base) ->
  0 <= l_size l <= isize_MAX
  /\ (forall i, 0 <= i < n ->
        (l_align el | base + l_size el * i) /\ l_size el * i + l_size el <= off
        /\ 0 <= i / 64 < words n)
  /\ (forall w, 0 <= w < words n ->
        (8 | base + off + 8 * w) /\ off <= off + 8 * w /\ off + 8 * w + 8 <= l_size l).
Proof.
  intros Hel Hn Hal Hdiv. rewrite storage_layout_eq by done.
  case_decide as Hfit; [|done]. intros [= <- <-]. cbn [l_size l_align]. intros Hbase.
  destruct Hel as [Hs Ha]. destruct Hfit as [Ht Hb].
  destruct (round_up_bounds (l_size el * n) 8 eq_refl) as [Hr Hr8].
  pose proof (words_index n 0 ltac:(lia)).
  assert ((8 | base) /\ (l_align el | base)) as [Hb8 Hba].
  { destruct Hal as [Hal|Hal]; apply Z.divide_pos_le in Hal as Hle; try lia;
      [rewrite Z.max_l in Hbase by lia|rewrite Z.max_r in Hbase by lia];
      split; first [exact Hbase|exact (Z.divide_trans _ _ _ Hal Hbase)]. }
  split; [nia|]. split.
  - intros i Hi. split; [|split; [nia|by apply words_index]].
    apply Z.divide_add_r; [done|]. by apply Z.divide_mul_l.
  - intros w Hw. split; [|lia]. apply Z.divide_add_r; [by apply Z.divide_add_r|].
    apply Z.divide_factor_l.
Qed.

Lemma storage_layout_sound_witness :
  storage_layout (mkLayout 24 8) 100 = Ret (mkLayout 2416 8, 2400)
  /\ 0 <= l_size (mkLayout 2416 8) <= isize_MAX.
Proof.
  split; [vm_compute; reflexivity|].
  apply (storage_layout_sound (mkLayout 24 8) 100 _ 2400 4096);
    [by_decide|lia|left; exists 1; reflexivity|exists 3; reflexivity
    |vm_compute; reflexivity|exists 512; reflexivity].
Defined.
