(* ===== verification/CslabIterCorrect.v ===== *)
(** Correctness of iteration, of the drop of the slab and of [VacantEntry]. *)

From S2P Require Import Prelude CslabWord CslabStorage Cslab SlabSpec SlabKeys.
From S2P Require Import CslabProof CslabIter CslabIterProof SlabInterface CslabProps.

(** ** Iterators as double-ended queues *)

(** A sequence of calls of [next] ([true]) and [next_back] ([false]). *)
Fixpoint pulls {T} (s : storage T) (it : iter) (calls : list bool)
  : outcome (list (option (Z * T)) * iter) :=
  match calls with
  | [] => Ret ([], it)
  | front :: calls' =>
      '(r, it') ← (if (front : bool) then iter_next s it else iter_next_back s it);
      '(rs, it'') ← pulls s it' calls';
      Ret (r :: rs, it'')
  end.

(** The same calls on a queue. *)
Fixpoint deque_pulls {A} (l : list A) (calls : list bool) : list (option A) * list A :=
  match calls with
  | [] => ([], l)
  | true :: calls' =>
      let '(rs, l') := deque_pulls (tail l) calls' in (head l :: rs, l')
  | false :: calls' =>
      let '(rs, l') := deque_pulls (removelast l) calls' in (last l :: rs, l')
  end.

Section deque.
Context {T : Type} (c : cslab T) (a : slab_spec T) (R : slab_rel c a).

(** What is left of an iterator. *)
Definition left_in (it : iter) : list (Z * T) := items_at a (keys_in a (it_head it) (it_tail it)).

Lemma next_pops it :
  iter_ok a it -> exists it', iter_next (slab_storage c) it = Ret (head (left_in it), it')
    /\ iter_ok a it' /\ left_in it' = tail (left_in it).
Proof using R.
  intros Hok. destruct (iter_next_spec c a R it Hok) as (r & -> & Hf).
  unfold front_result in Hf. unfold left_in at 1 3.
  destruct (keys_in a (it_head it) (it_tail it)) as [|i l].
  - subst r. eexists. split; [done|]. destruct Hok. split; [split; cbn; lia|].
    unfold left_in; cbn. by rewrite keys_in_nil by (intros; lia).
  - destruct Hf as (x & Hx & -> & Hi & Hl). rewrite (items_at_cons a i l x) by done.
    eexists. split; [done|]. destruct Hok. split; [split; cbn; lia|].
    unfold left_in; cbn. by rewrite Hl.
Qed.

Lemma next_back_pops it :
  iter_ok a it -> exists it', iter_next_back (slab_storage c) it = Ret (last (left_in it), it')
    /\ iter_ok a it' /\ left_in it' = removelast (left_in it).
Proof using R.
  intros Hok. destruct (iter_next_back_spec c a R it Hok) as (r & -> & Hf).
  unfold back_result in Hf. unfold left_in at 1 3.
  destruct (last (keys_in a (it_head it) (it_tail it))) as [i|] eqn:Hlast.
  - destruct Hf as (x & Hx & -> & Hi & ->). rewrite (items_at_snoc a _ i x) by done.
    rewrite last_snoc, removelast_last.
    eexists. split; [done|]. destruct Hok. split; [split; cbn; lia|done].
  - apply last_None in Hlast. rewrite Hlast. subst r.
    eexists. split; [done|]. destruct Hok. split; [split; cbn; lia|].
    unfold left_in; cbn. by rewrite keys_in_nil by (intros; lia).
Qed.

Lemma pulls_deque calls : forall it,
  iter_ok a it -> exists it', pulls (slab_storage c) it calls
      = Ret ((deque_pulls (left_in it) calls).1, it')
    /\ iter_ok a it' /\ left_in it' = (deque_pulls (left_in it) calls).2.
Proof using R.
  induction calls as [|[] calls IH]; intros it Hok; cbn [pulls deque_pulls].
  - by exists it.
  - destruct (next_pops it Hok) as (it1 & -> & Hok1 & Hl1). cbn [mbind outcome_bind].
    destruct (IH it1 Hok1) as (it2 & -> & Hok2 & Hl2). exists it2. rewrite <- Hl1.
    destruct (deque_pulls (left_in it1) calls). by cbn in *.
  - destruct (next_back_pops it Hok) as (it1 & -> & Hok1 & Hl1). cbn [mbind outcome_bind].
    destruct (IH it1 Hok1) as (it2 & -> & Hok2 & Hl2). exists it2. rewrite <- Hl1.
    destruct (deque_pulls (left_in it1) calls). by cbn in *.
Qed.

Lemma drain_left it :
  iter_ok a it -> drain_all (slab_storage c) it = Ret (left_in it).
Proof using R. intros Hok. by apply drain_all_spec. Qed.
End deque.

(** [l] lists what [get] finds, by increasing index. *)
Definition lists_items {T} (c : cslab T) (l : list (Z * T)) : Prop :=
  StronglySorted Z.lt l.*1
  /\ forall i t, 0 <= i -> (i, t) ∈ l <-> get c i = Ret (Some t).

Lemma lists_items_rel {T} (c : cslab T) a :
  slab_rel c a -> lists_items c (items_at a (keys_in a 0 (sp_cap a))).
Proof.
  intros R. split.
  - rewrite items_at_keys; [apply keys_in_sorted|].
    intros i. by intros [Hi _]%elem_of_keys_in.
  - intros i t Hi. rewrite elem_of_items_at, elem_of_keys_in, (get_rel c a R) by done. split.
    + by intros [_ ->].
    + intros [= Hp]. split; [|done]. split; [by eexists|].
      pose proof (present_bound c a R i (mk_is_Some _ _ Hp)). lia.
Qed.

Lemma length_items {T} (c : cslab T) a :
  slab_rel c a -> Z.of_nat (length (items_at a (keys_in a 0 (sp_cap a)))) = len c.
Proof.
  intros R. rewrite (items_at_all a (rel_wf _ _ R)), length_map_to_list.
  unfold len. by rewrite (rel_in_use _ _ R).
Qed.

(** C24 (equivalence). The bitmap-scanning iterator is a double-ended queue of the
    present items in increasing order of index: any interleaving of [next] and
    [next_back], also past exhaustion, returns what popping the queue at that
    end returns, and its loops terminate. *)
Theorem iter_is_deque {T} el cap (c : cslab T) calls :
  entry_layout_ok el -> reachable el cap c ->
  exists items it it',
    lists_items c items /\ Z.of_nat (length items) = len c
    /\ iter_new (slab_storage c) = Ret it
    /\ drain_all (slab_storage c) it = Ret items
    /\ pulls (slab_storage c) it calls = Ret ((deque_pulls items calls).1, it')
    /\ drain_all (slab_storage c) it' = Ret (deque_pulls items calls).2.
Proof.
  intros Hel Hc. destruct (reachable_rel el cap Hel c Hc) as (a & R & _).
  destruct (iter_new_spec c a R) as (Hnew & Hok & Hkeys).
  destruct (pulls_deque c a R calls _ Hok) as (it' & Hp & Hok' & Hl).
  assert (left_in a (mkIter 0 (frontier (slab_storage c)))
          = items_at a (keys_in a 0 (sp_cap a))) as Hleft by (unfold left_in; cbn; by f_equal).
  rewrite Hleft in Hp, Hl. eexists _, _, it'.
  split; [by apply lists_items_rel|]. split; [by apply length_items|]. split; [exact Hnew|].
  split; [by rewrite (drain_left c a R), Hleft|]. split; [exact Hp|].
  by rewrite (drain_left c a R), Hl.
Qed.

Lemma iter_is_deque_witness :
  exists items it it',
    lists_items demo_slab items /\ iter_new (slab_storage demo_slab) = Ret it
    /\ pulls (slab_storage demo_slab) it [true; false; true; false; true]
       = Ret ((deque_pulls items [true; false; true; false; true]).1, it')
    /\ (deque_pulls [(0, 10); (2, 12); (4, 14)] [true; false; true; false; true]).1
       = [Some (0, 10); Some (4, 14); Some (2, 12); None; None].
Proof.
  destruct (iter_is_deque demo_layout 70 demo_slab [true; false; true; false; true])
    as (items & it & it' & H); [by_decide|exact demo_reachable|].
  exists items, it, it'. split; [apply H|]. split; [apply H|]. split; [apply H|reflexivity].
Defined.

(** [ExclIter] reports its length exactly as long as nothing has been
    taken from it.  After [next] has yielded an item, [len], [size_hint] and
    [count] are one more than the number of items left. *)
Theorem excl_iter_len_stale {T} el cap (c : cslab T) e y e' :
  entry_layout_ok el -> reachable el cap c -> cslab_iter c = Ret e ->
  excl_iter_next (slab_storage c) e = Ret (Some y, e') ->
  exists l, drain_all (slab_storage c) (ex_iter e) = Ret (y :: l)
    /\ excl_iter_len e = Z.of_nat (length (y :: l))
    /\ drain_all (slab_storage c) (ex_iter e') = Ret l
    /\ excl_iter_len e' = Z.of_nat (length l) + 1
    /\ excl_iter_count e' = Z.of_nat (length l) + 1.
Proof.
  intros Hel Hc. destruct (reachable_rel el cap Hel c Hc) as (a & R & _).
  destruct (iter_new_spec c a R) as (Hnew & Hok & Hkeys).
  unfold cslab_iter, excl_iter_new. rewrite Hnew. intros [= <-].
  unfold excl_iter_next; cbn [ex_iter].
  destruct (next_pops c a R _ Hok) as (it' & -> & Hok' & Hl). cbn [mbind outcome_bind].
  intros [= Hy <-]. cbn [ex_iter].
  rewrite (drain_left c a R), (drain_left c a R), Hl by done.
  pose proof (length_items c a R) as Hlen. rewrite <- Hkeys in Hlen.
  change (items_at a (keys_in a 0 (frontier (slab_storage c))))
    with (left_in a (mkIter 0 (frontier (slab_storage c)))) in Hlen.
  destruct (left_in a (mkIter 0 (frontier (slab_storage c)))) as [|y' l]; [done|].
  injection Hy as <-. exists l. unfold excl_iter_len, excl_iter_size_hint, excl_iter_count; cbn.
  unfold len in Hlen. cbn in Hlen. repeat split; lia.
Qed.

Lemma excl_iter_len_stale_witness :
  exists e e' l, cslab_iter demo_slab = Ret e
    /\ excl_iter_next (slab_storage demo_slab) e = Ret (Some (0, 10), e')
    /\ drain_all (slab_storage demo_slab) (ex_iter e') = Ret l
    /\ excl_iter_len e' = Z.of_nat (length l) + 1.
Proof.
  destruct (excl_iter_len_stale demo_layout 70 demo_slab
              (mkExclIter (mkIter 0 5) 3) (0, 10) (mkExclIter (mkIter 1 5) 3)) as (l & H);
    [by_decide|exact demo_reachable|vm_compute; reflexivity..|].
  exists (mkExclIter (mkIter 0 5) 3), (mkExclIter (mkIter 1 5) 3), l.
  split; [vm_compute; reflexivity|]. split; [vm_compute; reflexivity|].
  split; apply H.
Defined.

(** ** What is dropped *)

(** The items that a sequence of operations put into the slab, and those that it
    took out of it, by its answers. *)
Definition inserted_by {T} (o : slab_op T) (r : slab_resp T) : list T :=
  match o, r with OpInsert t, RKey (Ok _) => [t] | _, _ => [] end.
Definition finalized_by {T} (o : slab_op T) (r : slab_resp T) : list T :=
  match o, r with OpFinalizeRemove _, RItem t => [t] | _, _ => [] end.
Definition over_run {T} (f : slab_op T -> slab_resp T -> list T) ops rs : list T := concat (zip_with f ops rs).

(** No operation of the specification loses an item or makes one up. *)
Lemma spec_step_items {T} (a a' : slab_spec T) o r :
  spec_wf a -> spec_step a o = Ret (r, a') ->
  inserted_by o r ++ items (present a) ++ items (pending a)
    ≡ₚ finalized_by o r ++ items (present a') ++ items (pending a').
Proof.
  intros (_ & Hd & _ & _ & Hfree). destruct o as [t| |i|i|i|i| | |]; cbn;
    try (repeat case_match; intros; by simplify_eq).
  - unfold spec_insert. destruct (free a) as [|i l] eqn:Hf; intros [= <- <-]; [done|]. cbn.
    by rewrite items_insert by (apply Hfree; by left).
  - unfold spec_mark. destruct (present a !! i) as [t|] eqn:Ht; [|done]. intros [= <- <-]. cbn.
    rewrite (items_insert (pending a)) by (by eapply map_disjoint_Some_l).
    rewrite (items_delete (present a) i t) by done. solve_Permutation.
  - unfold spec_finalize. destruct (pending a !! i) as [t|] eqn:Ht; [|by case_decide]. intros [= <- <-]. cbn.
    rewrite (items_delete (pending a) i t) by done. solve_Permutation.
Qed.

Lemma run_items {T} ops : forall (c c' : cslab T) a rs,
  slab_rel c a -> Forall op_usize ops -> run slab_step c ops = Ret rs -> run_state c ops = Ret c' ->
  exists a', slab_rel c' a'
    /\ over_run inserted_by ops rs ++ items (present a) ++ items (pending a)
       ≡ₚ over_run finalized_by ops rs ++ items (present a') ++ items (pending a').
Proof.
  induction ops as [|o ops IH]; intros c c' a rs R; [by intros _ [= <-] [= <-]; exists a|].
  intros [Ho Hops]%Forall_cons. cbn [run run_state]. pose proof (step_refines c a o R Ho) as Hs.
  destruct (spec_step a o) as [[r a1]| | |] eqn:Ha; [|by rewrite Hs..|done].
  destruct Hs as (c1 & -> & R1). cbn [mbind outcome_bind].
  destruct (run slab_step c1 ops) as [rs'| | |] eqn:Hrun; try done. intros [= <-] Hst.
  destruct (IH c1 c' a1 rs' R1 Hops Hrun Hst) as (a' & R' & Hp). exists a'. split; [done|].
  pose proof (spec_step_items a a1 o r (rel_wf _ _ R) Ha) as Hi.
  unfold over_run in *. cbn [zip_with concat].
  transitivity (concat (zip_with inserted_by ops rs') ++ finalized_by o r ++ items (present a1) ++ items (pending a1)).
  - rewrite <- Hi. solve_Permutation.
  - rewrite Permutation_app_swap_app, Hp. solve_Permutation.
Qed.

(** C31 (safety). Every item is dropped exactly once.  When a slab that was used
    by any sequence of operations, and has nothing marked that is not finalized
    ([len = allocated]), is dropped, the storage drops the present items in
    order of index; with those that the calls of [finalize_remove] returned they
    are the items that were inserted, each as often as it was inserted. *)
Theorem items_dropped_once {T} el cap (c0 c : cslab T) ops rs :
  entry_layout_ok el -> with_fixed_capacity el cap = Ret c0 -> Forall op_usize ops ->
  run slab_step c0 ops = Ret rs -> run_state c0 ops = Ret c -> len c = allocated c ->
  exists l : list (Z * T), storage_drop (slab_storage c) = Ret l.*2
    /\ lists_items c l
    /\ over_run inserted_by ops rs ≡ₚ over_run finalized_by ops rs ++ l.*2.
Proof.
  intros [Hs Ha] Hc0 Hops Hrun Hst Hlen.
  destruct (run_items ops c0 c (spec_new cap) rs) as (a & R & Hp); [by eapply with_fixed_capacity_rel|done..|].
  assert (pending a = ∅) as Hpend.
  { apply map_size_empty_iff. unfold len in Hlen. rewrite (rel_in_use _ _ R), (rel_allocated _ _ R) in Hlen. lia. }
  exists (items_at a (keys_in a 0 (sp_cap a))).
  split; [by apply storage_drop_rel|]. split; [by apply lists_items_rel|].
  rewrite (items_at_all a (rel_wf _ _ R)). rewrite Hpend in Hp. unfold items in Hp. cbn in Hp.
  by rewrite map_to_list_empty, !app_nil_r in Hp.
Qed.

(** The slab of the examples before its first operation, and after all of them
    and the finalization of the item that was marked. *)
Definition demo_fresh : cslab Z := mkCslab 0 0 0 (mkStorage 70 0 (replicate 70 (Free 0)) [0; 0] 560).
Definition demo_all_ops : list (slab_op Z) := demo_ops ++ [OpFinalizeRemove 3].
Definition demo_answers : list (slab_resp Z) :=
  Eval vm_compute in match run slab_step demo_fresh demo_all_ops with Ret rs => rs | _ => [] end.
Definition demo_settled : cslab Z :=
  Eval vm_compute in match run_state demo_fresh demo_all_ops with Ret c => c | _ => demo_fresh end.

Lemma items_dropped_once_witness :
  with_fixed_capacity demo_layout 70 = Ret demo_fresh /\ run_state demo_fresh demo_all_ops = Ret demo_settled
  /\ over_run inserted_by demo_all_ops demo_answers = [10; 11; 12; 13; 14]
  /\ exists l : list (Z * Z), storage_drop (slab_storage demo_settled) = Ret l.*2
     /\ over_run inserted_by demo_all_ops demo_answers ≡ₚ over_run finalized_by demo_all_ops demo_answers ++ l.*2.
Proof.
  split; [vm_compute; reflexivity|]. split; [vm_compute; reflexivity|]. split; [vm_compute; reflexivity|].
  destruct (items_dropped_once (T := Z) demo_layout 70 demo_fresh demo_settled demo_all_ops demo_answers)
    as (l & Hd & _ & Hp);
    [by_decide|vm_compute; reflexivity|by repeat constructor|vm_compute; reflexivity..|].
  by exists l.
Defined.

(** What is dropped in general: the present items, in order of index, and not
    the items that are marked and not finalized. *)
Lemma drop_drops_present {T} el cap (c : cslab T) :
  entry_layout_ok el -> reachable el cap c ->
  exists l : list (Z * T), storage_drop (slab_storage c) = Ret l.*2
    /\ lists_items c l /\ Z.of_nat (length l) = len c.
Proof.
  intros Hel Hc. destruct (reachable_rel el cap Hel c Hc) as (a & R & _).
  eexists. split; [by apply storage_drop_rel|]. split; [by apply lists_items_rel|].
  exact (length_items c a R).
Qed.

(** A vacant entry exists exactly when the slab is not full, and
    inserting through it never panics and stores the item at the key it
    announced. *)
Theorem vacant_entry_sound {T} el cap (c : cslab T) t :
  entry_layout_ok el -> reachable el cap c ->
  match vacant_entry c with
  | Err _ => allocated c = cap /\ insert c t = Ret (Err tt, c)
  | Ok v => allocated c < cap
      /\ exists c', vacant_entry_insert v t = Ret (vacant_entry_key v, c')
         /\ get c (vacant_entry_key v) = Ret None
         /\ get c' (vacant_entry_key v) = Ret (Some t)
  end.
Proof.
  intros Hel Hc. destruct (reachable_rel el cap Hel c Hc) as (a & R & <-).
  pose proof (vacant_key_rel c a R) as Hk. unfold vacant_key in Hk. unfold vacant_entry.
  pose proof (spec_sizes a (rel_wf _ _ R)) as Hsz. rewrite (rel_allocated _ _ R).
  pose proof (abs_insert c a t R) as Hi. unfold spec_insert in Hi.
  destruct (free a) as [|i l] eqn:Hf; cbn in Hi, Hsz;
    destruct (first_free c >=? table_len (slab_storage c)); try done.
  - split; [lia|done].
  - injection Hk as <-. split; [lia|]. destruct Hi as (c' & Hi & R'). exists c'.
    unfold vacant_entry_insert, vacant_entry_key. rewrite Hi. split; [done|].
    pose proof (free_bound c a R (first_free c)) as Hb. rewrite Hf in Hb.
    specialize (Hb ltac:(by left)).
    rewrite (get_rel c a R), (get_rel c' _ R') by lia. cbn [present].
    rewrite lookup_insert_eq. split; [|done].
    destruct (rel_wf _ _ R) as (_ & _ & _ & _ & Hfree). f_equal. apply Hfree.
    rewrite Hf. by left.
Qed.

Lemma vacant_entry_sound_witness :
  vacant_entry demo_slab = Ok demo_slab
  /\ match vacant_entry demo_slab with
     | Err _ => False
     | Ok v => exists c', vacant_entry_insert v 15 = Ret (vacant_entry_key v, c')
         /\ get c' (vacant_entry_key v) = Ret (Some 15)
     end.
Proof.
  split; [reflexivity|].
  destruct (vacant_entry_sound demo_layout 70 demo_slab 15 ltac:(by_decide) demo_reachable)
    as (_ & c' & H).
  exists c'. split; apply H.
Defined.
