(* ===== verification/RcuCslab.v ===== *)
(** The RCU-friendly slab: [RcuCslabGen], [RcuCslabReader], [RcuCslab],
    [RcuIterMut], [RcuEntry] and [VacantRcuEntry] of cslab/src/lib.rs, over any
    implementation of the slab interface.

    The objects behind [Arc]s live in a heap with their reference counts; a
    handle is the identity of the generation it points to.  Dropping the last
    reference to a generation happens in the three steps of [task], which other
    threads may interleave with. *)

From S2P Require Import Prelude CslabStorage Cslab SlabSpec CslabIter SlabInterface.

(** ** The heap *)

(** [struct RcuCslabGenInner] *)
Record gen_inner := mkGenInner {
  pending_removes : list Z;
  next_gen : option nat;
}.

(** An [Arc<RcuCslabGen>]: the reference count and the contents.  The [writer]
    of every generation is the same object. *)
Record gen := mkGen { strong : nat; inner : gen_inner }.

(** What the handles of one [RcuCslab] share. *)
Record heap (W T : Type) := mkHeap {
  slab : option W;         (* the [Cslab] and its storage, until deallocated *)
  poisoned : bool;         (* the mutex of the [Cslab] *)
  writer_strong : nat;     (* Arc<Mutex<Cslab<T>>> *)
  storage_strong : nat;    (* Arc<CslabStorage<T>> *)
  gens : gmap nat gen;
  next_id : nat;           (* the allocator: generations are numbered as created *)
  dropped : list T;        (* the items dropped so far *)
}.
Arguments mkHeap {W T} _ _ _ _ _ _ _.
Arguments slab {W T} _.
Arguments poisoned {W T} _.
Arguments writer_strong {W T} _.
Arguments storage_strong {W T} _.
Arguments gens {W T} _.
Arguments next_id {W T} _.
Arguments dropped {W T} _.

(** [struct RcuCslab]; its [writer] and [reader] are the shared objects. *)
Record rcu_cslab := mkRcu { rcu_capacity : Z; cur_gen : nat }.

(** [struct RcuEntry]; its [value] is a reference to the slot [e_idx]. *)
Record rcu_entry := mkEntry { e_idx : Z; e_gen : nat }.

(** [struct RcuIterMut], but for the [cur_gen] it borrows. *)
Record iter_mut := mkIterMut { im_iter : iter; remaining : Z }.

(** What is left to do of the drop of an [Arc<RcuCslabGen>]: releasing a
    reference, running [RcuCslabGen::drop], and dropping its fields. *)
Inductive task : Type :=
| TRelease (g : nat)
| TFinalize (g : nat)
| TFree (g : nat).

#[global] Instance task_eq_dec : EqDecision task.
Proof. solve_decision. Defined.

Section ops.
Context {W T : Type} {Ops : SlabOps W T}.
Abbreviation H := (stateful (heap W T)).

Definition set_slab (s : option W) (h : heap W T) : heap W T :=
  mkHeap s (poisoned h) (writer_strong h) (storage_strong h) (gens h) (next_id h) (dropped h).
Definition set_poisoned (h : heap W T) : heap W T :=
  mkHeap (slab h) true (writer_strong h) (storage_strong h) (gens h) (next_id h) (dropped h).
Definition set_writer_strong (n : nat) (h : heap W T) : heap W T :=
  mkHeap (slab h) (poisoned h) n (storage_strong h) (gens h) (next_id h) (dropped h).
Definition set_storage_strong (n : nat) (h : heap W T) : heap W T :=
  mkHeap (slab h) (poisoned h) (writer_strong h) n (gens h) (next_id h) (dropped h).
Definition set_gens (g : gmap nat gen) (h : heap W T) : heap W T :=
  mkHeap (slab h) (poisoned h) (writer_strong h) (storage_strong h) g (next_id h) (dropped h).
Definition set_next_id (n : nat) (h : heap W T) : heap W T :=
  mkHeap (slab h) (poisoned h) (writer_strong h) (storage_strong h) (gens h) n (dropped h).
Definition add_dropped (l : list T) (h : heap W T) : heap W T :=
  mkHeap (slab h) (poisoned h) (writer_strong h) (storage_strong h) (gens h) (next_id h)
    (dropped h ++ l).

Definition fail {A} (o : outcome A) : H A := fun h => (o, h).
Definition modify (f : heap W T -> heap W T) : H unit := fun h => (Ret tt, f h).

(** [self.writer.lock().unwrap()] and what is done under the lock: a panic
    there poisons the mutex, and locking a poisoned mutex panics. *)
Definition lock_writer {A} (f : W -> outcome (A * W)) : H A := fun h =>
  match slab h with
  | None => (UB, h)
  | Some s =>
      if poisoned h then (Panic, h)
      else match f s with
           | Ret (x, s') => (Ret x, set_slab (Some s') h)
           | Panic => (Panic, set_poisoned h)
           | UB => (UB, h)
           | OutOfFuel => (OutOfFuel, h)
           end
  end.

(** Access through a [CslabReader], without the lock. *)
Definition read_storage {A} (f : W -> outcome A) : H A := fun h =>
  match slab h with None => (UB, h) | Some s => (f s, h) end.

Definition get_gen (g : nat) : H gen := fun h =>
  match gens h !! g with Some n => (Ret n, h) | None => (UB, h) end.
Definition put_gen (g : nat) (n : gen) : H unit := modify (fun h => set_gens (<[g := n]> (gens h)) h).

(** ** Reference counts *)

Definition clone_gen (g : nat) : H unit :=
  n ← get_gen g; put_gen g (mkGen (strong n + 1) (inner n)).

Definition clone_storage : H unit := modify (fun h => set_storage_strong (storage_strong h + 1) h).

(** Releasing the storage; the last reference drops the items and frees it. *)
Definition release_storage : H unit := fun h =>
  match storage_strong h with
  | O => (UB, h)
  | S O =>
      match slab h with
      | None => (UB, h)
      | Some s =>
          match slab_drop s with
          | Ret l => (Ret tt, add_dropped l (set_slab None (set_storage_strong 0 h)))
          | Panic => (Panic, h)
          | UB => (UB, h)
          | OutOfFuel => (OutOfFuel, h)
          end
      end
  | S n => (Ret tt, set_storage_strong n h)
  end.

(** Releasing the [Cslab]; it holds a reference to the storage. *)
Definition release_writer : H unit := fun h =>
  match writer_strong h with
  | O => (UB, h)
  | S O => release_storage (set_writer_strong 0 h)
  | S n => (Ret tt, set_writer_strong n h)
  end.

(** The result says whether it was the last reference. *)
Definition release_gen (g : nat) : H bool :=
  n ← get_gen g;
  match strong n with
  | O => fail UB
  | S k => _ ← put_gen g (mkGen k (inner n)); mret (bool_decide (k = 0%nat))
  end.

(** [RcuCslabGen::drop]: finalize under the lock, drop the items after it. *)
Fixpoint finalize_all (s : W) (l : list Z) : outcome (list T * W) :=
  match l with
  | [] => Ret ([], s)
  | idx :: l' =>
      '(t, s') ← slab_finalize_remove s idx;
      '(ts, s'') ← finalize_all s' l';
      Ret (t :: ts, s'')
  end.

Definition gen_drop (g : nat) : H unit :=
  n ← get_gen g;
  pending_drops ← lock_writer (fun s => finalize_all s (pending_removes (inner n)));
  modify (add_dropped pending_drops).

(** The fields of the generation, in order: [writer], then [inner]; the
    reference to the next generation is left to release. *)
Definition free_gen (g : nat) : H (option nat) :=
  n ← get_gen g;
  _ ← modify (fun h => set_gens (delete g (gens h)) h);
  _ ← release_writer;
  mret (next_gen (inner n)).

Definition task_step (t : task) : H (option task) :=
  match t with
  | TRelease g => last ← release_gen g; mret (if (last : bool) then Some (TFinalize g) else None)
  | TFinalize g => _ ← gen_drop g; mret (Some (TFree g))
  | TFree g => n ← free_gen g; mret (TRelease <$> n)
  end.

(** Dropping an [Arc<RcuCslabGen>] to the end, in one thread. *)
Fixpoint run_task (fuel : nat) (t : option task) : H unit :=
  match t with
  | None => mret tt
  | Some t =>
      match fuel with
      | O => fail OutOfFuel
      | S fuel' => t' ← task_step t; run_task fuel' t'
      end
  end.

(** Three steps per generation are enough. *)
Definition drop_fuel (h : heap W T) : nat := 3 * S (base.size (gens h)).

Definition drop_gen (g : nat) : H unit := fun h => run_task (drop_fuel h) (Some (TRelease g)) h.

(** ** [RcuCslabGen] and [RcuCslab] *)

(** [RcuCslabGen::mark_removed] *)
Definition gen_mark_removed (g : nat) (idx : Z) : H unit :=
  _ ← lock_writer (fun s => s' ← slab_mark_removed s idx; Ret (tt, s'));
  n ← get_gen g;
  put_gen g (mkGen (strong n) (mkGenInner (pending_removes (inner n) ++ [idx]) (next_gen (inner n)))).

(** [Arc::new(RcuCslabGen { writer: writer.clone(), .. })] *)
Definition new_gen : H nat := fun h =>
  let g := next_id h in
  (Ret g, set_next_id (S g) (set_writer_strong (writer_strong h + 1)
            (set_gens (<[g := mkGen 1 (mkGenInner [] None)]> (gens h)) h))).

(** [RcuCslab::with_fixed_capacity], given what [Cslab::with_fixed_capacity]
    returns. *)
Definition rcu_with_fixed_capacity (new_slab : Z -> outcome W) (capacity : Z)
  : outcome (rcu_cslab * heap W T) :=
  cslab ← new_slab capacity;
  (* [reader] and [writer], each with one reference *)
  let h := mkHeap (Some cslab) false 1 2 ∅ 0 [] in
  match new_gen h with
  | (Ret g, h') => Ret (mkRcu capacity g, h')
  | (Panic, _) => Panic
  | (UB, _) => UB
  | (OutOfFuel, _) => OutOfFuel
  end.

Definition rcu_len : H Z := lock_writer (fun s => Ret (slab_len s, s)).
Definition rcu_allocated : H Z := lock_writer (fun s => Ret (slab_allocated s, s)).
Definition rcu_get (idx : Z) : H (option T) := read_storage (fun s => slab_get s idx).
Definition rcu_insert (item : T) : H (result Z unit) := lock_writer (fun s => slab_insert s item).
Definition rcu_vacant_key : H (result Z unit) := lock_writer (fun s => Ret (slab_vacant_key s, s)).
Definition rcu_mark_removed (r : rcu_cslab) (idx : Z) : H unit := gen_mark_removed (cur_gen r) idx.

(** [RcuCslab::iter] *)
Definition rcu_iter : H excl_iter :=
  n ← rcu_len;
  it ← read_storage (fun s => slab_iter_new s);
  mret (mkExclIter it n).

(** [RcuCslab::vacant_entry]: on success the lock stays held. *)
Definition rcu_vacant_entry : H (result unit unit) :=
  k ← rcu_vacant_key; mret (match k with Err _ => Err tt | Ok _ => Ok tt end).

(** [VacantRcuEntry::key] and [VacantRcuEntry::insert], under that lock. *)
Definition vacant_rcu_entry_key : H Z :=
  lock_writer (fun s => match slab_vacant_key s with Ok idx => Ret (idx, s) | Err _ => Panic end).
Definition vacant_rcu_entry_insert (item : T) : H Z :=
  lock_writer (fun s =>
    '(r, s') ← slab_insert s item;
    match r with Ok idx => Ret (idx, s') | Err _ => Panic end).

(** [RcuCslab::reader] and [RcuCslabReader::clone]: a reader is its generation. *)
Definition reader_clone (g : nat) : H nat :=
  _ ← clone_storage; _ ← clone_gen g; mret g.
Definition rcu_reader (r : rcu_cslab) : H nat := reader_clone (cur_gen r).

(** The reads of [RcuCslabReader]. *)
Definition reader_get (idx : Z) : H (option T) := read_storage (fun s => slab_get s idx).
Definition reader_contains_key (idx : Z) : H bool := read_storage (fun s => slab_contains_key s idx).
Definition reader_get_unchecked (idx : Z) : H T := read_storage (fun s => slab_get_unchecked s idx).

Definition reader_iter : H iter := read_storage (fun s => slab_iter_new s).

(** Dropping a reader: its [reader], then its [gen]. *)
Definition reader_drop_storage : H unit := release_storage.
Definition reader_drop (g : nat) : H unit := _ ← reader_drop_storage; drop_gen g.

(** [RcuCslab::advance_generation]; the previous generation is left to release. *)
Definition link_next_gen (g n : nat) : H unit :=
  e ← get_gen g;
  match next_gen (inner e) with
  | Some _ => fail Panic   (* debug_assert! *)
  | None =>
      _ ← clone_gen n;
      put_gen g (mkGen (strong e) (mkGenInner (pending_removes (inner e)) (Some n)))
  end.

Definition advance_link (r : rcu_cslab) : H rcu_cslab :=
  n ← new_gen;
  _ ← link_next_gen (cur_gen r) n;
  mret (mkRcu (rcu_capacity r) n).

Definition advance_generation (r : rcu_cslab) : H rcu_cslab :=
  r' ← advance_link r;
  _ ← drop_gen (cur_gen r);
  mret r'.

(** [RcuCslab::schedule_finalization] and [RcuCslab::remove] *)
Definition schedule_finalization (r : rcu_cslab) : H (rcu_cslab * nat) :=
  r' ← advance_generation r;
  reader ← rcu_reader r';
  mret (r', reader).

Definition rcu_remove (r : rcu_cslab) (idx : Z) : H (rcu_cslab * nat) :=
  _ ← rcu_mark_removed r idx;
  schedule_finalization r.

(** ** [RcuIterMut] and [RcuEntry] *)

Definition rcu_iter_mut : H iter_mut :=
  n ← rcu_len;
  it ← read_storage (fun s => slab_iter_new s);
  mret (mkIterMut it n).

(** [next] and [next_back], from the one of [Iter] *)
Definition iter_mut_yield (g : nat) (im : iter_mut) (y : yielded T)
  : H (option rcu_entry * iter_mut) :=
  match y with
  | (None, it) => mret (None, mkIterMut it (remaining im))
  | (Some (idx, _), it) =>
      n ← fail (sub_u 64 (remaining im) 1);
      _ ← clone_gen g;
      mret (Some (mkEntry idx g), mkIterMut it n)
  end.

Definition iter_mut_next (r : rcu_cslab) (im : iter_mut)
  : H (option rcu_entry * iter_mut) :=
  y ← read_storage (fun s => slab_iter_next s (im_iter im));
  iter_mut_yield (cur_gen r) im y.

Definition iter_mut_next_back (r : rcu_cslab) (im : iter_mut)
  : H (option rcu_entry * iter_mut) :=
  y ← read_storage (fun s => slab_iter_next_back s (im_iter im));
  iter_mut_yield (cur_gen r) im y.

(** [RcuIterMut::size_hint]; [len] is its lower bound. *)
Definition iter_mut_size_hint (im : iter_mut) : Z * option Z :=
  (remaining im, Some (remaining im)).

(** [RcuIterMut::drop] *)
Definition iter_mut_drop (r : rcu_cslab) : H rcu_cslab := advance_generation r.

(** [RcuEntry::deref], [RcuEntry::remove] (which consumes the entry) and
    dropping an entry *)
Definition entry_deref (e : rcu_entry) : H T := read_storage (fun s => slab_get_unchecked s (e_idx e)).
Definition entry_drop (e : rcu_entry) : H unit := drop_gen (e_gen e).
Definition entry_remove (e : rcu_entry) : H unit :=
  _ ← gen_mark_removed (e_gen e) (e_idx e); entry_drop e.

(** [RcuCslab::clear]: the loop, then the drop of the iterator. *)
Fixpoint clear_loop (fuel : nat) (r : rcu_cslab) (im : iter_mut) : H unit :=
  match fuel with
  | O => fail OutOfFuel
  | S fuel' =>
      '(e, im') ← iter_mut_next r im;
      match e with
      | None => mret tt
      | Some e => _ ← entry_remove e; clear_loop fuel' r im'
      end
  end.

(** An iterator yields at most one item per index of its range. *)
Definition clear_fuel (im : iter_mut) : nat :=
  S (Z.to_nat (it_tail (im_iter im) - it_head (im_iter im))).

Definition rcu_clear (r : rcu_cslab) : H (rcu_cslab * nat) :=
  im ← rcu_iter_mut;
  _ ← clear_loop (clear_fuel im) r im;
  r' ← iter_mut_drop r;
  reader ← rcu_reader r';
  mret (r', reader).

(** Dropping an [RcuCslab]: [writer], [reader], then [cur_gen]. *)
Definition rcu_drop_handles : H unit := _ ← release_writer; release_storage.
Definition rcu_drop (r : rcu_cslab) : H unit := _ ← rcu_drop_handles; drop_gen (cur_gen r).
End ops.
