(* ===== verification/RcuHeap.v ===== *)
(** The heap of an [RcuCslab], seen abstractly: which references exist, which
    generations are alive, and which generation owns each pending removal.
    Every operation on the heap implements an operation on this view. *)

From S2P Require Import Prelude CslabStorage Cslab SlabSpec SlabKeys CslabIter CslabIterProof SlabInterface RcuCslab.

(** ** The view *)

(** The state of the oldest generation: referenced, or being dropped and not yet
    finalized, or finalized and not yet freed. *)
Inductive phase := Idle | Finalizing | Freeing.

Record view (T : Type) := mkView {
  v_spec : slab_spec T;
  v_lo : nat;               (* the oldest generation *)
  v_next : nat;             (* the number after the newest *)
  v_refs : list nat;        (* references to generations, but for [next_gen]s *)
  v_storage : nat;          (* references to the storage, but for the [Cslab]'s *)
  v_writer : nat;           (* references to the [Cslab], but for generations' *)
  v_phase : phase;
  v_own : gmap Z nat;       (* the generation of each pending removal *)
  v_dropped : list T;
}.
Arguments mkView {T} _ _ _ _ _ _ _ _ _.
Arguments v_spec {T} _.
Arguments v_lo {T} _.
Arguments v_next {T} _.
Arguments v_refs {T} _.
Arguments v_storage {T} _.
Arguments v_writer {T} _.
Arguments v_phase {T} _.
Arguments v_own {T} _.
Arguments v_dropped {T} _.

Section view.
Context {T : Type}.
Implicit Types v : view T.

Definition with_spec (a : slab_spec T) v : view T :=
  mkView a (v_lo v) (v_next v) (v_refs v) (v_storage v) (v_writer v) (v_phase v) (v_own v) (v_dropped v).
Definition with_refs (l : list nat) v : view T :=
  mkView (v_spec v) (v_lo v) (v_next v) l (v_storage v) (v_writer v) (v_phase v) (v_own v) (v_dropped v).
Definition with_storage (n : nat) v : view T :=
  mkView (v_spec v) (v_lo v) (v_next v) (v_refs v) n (v_writer v) (v_phase v) (v_own v) (v_dropped v).
Definition with_writer (n : nat) v : view T :=
  mkView (v_spec v) (v_lo v) (v_next v) (v_refs v) (v_storage v) n (v_phase v) (v_own v) (v_dropped v).
Definition with_phase (p : phase) v : view T :=
  mkView (v_spec v) (v_lo v) (v_next v) (v_refs v) (v_storage v) (v_writer v) p (v_own v) (v_dropped v).
Definition with_own (o : gmap Z nat) v : view T :=
  mkView (v_spec v) (v_lo v) (v_next v) (v_refs v) (v_storage v) (v_writer v) (v_phase v) o (v_dropped v).
Definition with_dropped (l : list T) v : view T :=
  mkView (v_spec v) (v_lo v) (v_next v) (v_refs v) (v_storage v) (v_writer v) (v_phase v) (v_own v) l.
Definition with_range (lo nx : nat) v : view T :=
  mkView (v_spec v) lo nx (v_refs v) (v_storage v) (v_writer v) (v_phase v) (v_own v) (v_dropped v).
End view.

Section heap.
Context {W T : Type} {Ops : SlabOps W T} {Laws : SlabLaws W T}.
Implicit Types h : heap W T.
Implicit Types v : view T.

Record heap_rel h v : Prop := {
  hr_slab : exists s, slab h = Some s /\ slab_abs s (v_spec v);
  hr_poisoned : poisoned h = false;
  hr_next_id : next_id h = v_next v;
  hr_lo : (v_lo v < v_next v)%nat;
  hr_dom : forall g, is_Some (gens h !! g) <-> (v_lo v <= g < v_next v)%nat;
  hr_next : forall g n, gens h !! g = Some n ->
    next_gen (inner n) = if decide (S g = v_next v) then None else Some (S g);
  hr_strong : forall g n, gens h !! g = Some n ->
    strong n = (occ g (v_refs v) + if decide (v_lo v < g)%nat then 1 else 0)%nat;
  hr_refs : forall g, g ∈ v_refs v -> (v_lo v <= g < v_next v)%nat;
  hr_phase : v_lo v ∈ v_refs v <-> v_phase v = Idle;
  hr_own : forall i g, v_own v !! i = Some g <->
    exists n, gens h !! g = Some n /\ i ∈ pending_removes (inner n)
      /\ ~ (v_phase v = Freeing /\ g = v_lo v);
  hr_pending : forall i, is_Some (v_own v !! i) <-> is_Some (pending (v_spec v) !! i);
  hr_nodup : forall g n, gens h !! g = Some n -> NoDup (pending_removes (inner n));
  hr_writer : writer_strong h = (v_writer v + base.size (gens h))%nat;
  hr_storage : storage_strong h = S (v_storage v);
  hr_dropped : dropped h = v_dropped v;
}.

(** References may be listed in any order. *)
Lemma heap_rel_perm h v l :
  heap_rel h v -> v_refs v ≡ₚ l -> heap_rel h (with_refs l v).
Proof.
  intros R Hl. destruct R. constructor; try done; cbn.
  - intros g n Hg. rewrite <- Hl. by apply hr_strong0.
  - intros g. rewrite <- Hl. apply hr_refs0.
  - by rewrite <- Hl.
Qed.

Lemma gens_nonempty h v : heap_rel h v -> (0 < base.size (gens h))%nat.
Proof.
  intros R. destruct (proj2 (hr_dom _ _ R (v_lo v))) as [n Hn].
  { pose proof (hr_lo _ _ R). lia. }
  apply Nat.neq_0_lt_0. by eapply map_size_ne_0_lookup_2.
Qed.

Lemma ref_gen h v g : heap_rel h v -> g ∈ v_refs v -> exists n, gens h !! g = Some n.
Proof. intros R Hg. apply (hr_dom _ _ R), (hr_refs _ _ R), Hg. Qed.

(** ** Access to the slab *)

Lemma lock_writer_rel {A} h v (f : W -> outcome (A * W)) s x s' a' :
  heap_rel h v -> slab h = Some s -> f s = Ret (x, s') -> slab_abs s' a' ->
  pending a' = pending (v_spec v) ->
  exists h', lock_writer f h = (Ret x, h') /\ heap_rel h' (with_spec a' v).
Proof.
  intros R Hs Hf Ha Hp. exists (set_slab (Some s') h). unfold lock_writer.
  rewrite Hs, (hr_poisoned _ _ R), Hf. split; [done|].
  destruct R. constructor; cbn; try done; [by exists s'|intros i; by rewrite Hp].
Qed.

Lemma set_slab_id h s : slab h = Some s -> set_slab (Some s) h = h.
Proof. destruct h; cbn. by intros ->. Qed.

Lemma lock_writer_read {A} h v (f : W -> A) s :
  heap_rel h v -> slab h = Some s -> lock_writer (fun s => Ret (f s, s)) h = (Ret (f s), h).
Proof.
  intros R Hs. unfold lock_writer. by rewrite Hs, (hr_poisoned _ _ R), set_slab_id.
Qed.

Lemma read_storage_rel {A} h (f : W -> outcome A) s x :
  slab h = Some s -> f s = Ret x -> read_storage f h = (Ret x, h).
Proof. intros Hs Hf. unfold read_storage. by rewrite Hs, Hf. Qed.

(** ** Reference counts *)

(** Changing the reference count of one generation. *)
Lemma put_strong_rel h v g n k l p :
  heap_rel h v -> gens h !! g = Some n ->
  (forall g', g' ∈ l -> (v_lo v <= g' < v_next v)%nat) ->
  k = (occ g l + if decide (v_lo v < g)%nat then 1 else 0)%nat ->
  (forall g', g' <> g -> occ g' l = occ g' (v_refs v)) ->
  (v_lo v ∈ l <-> p = Idle) -> (p = Freeing <-> v_phase v = Freeing) ->
  heap_rel (set_gens (<[g := mkGen k (inner n)]> (gens h)) h) (with_phase p (with_refs l v)).
Proof.
  intros R Hg Hl Hk Hocc Hph Hfr. destruct R. constructor; cbn; try done.
  - intros g'. rewrite <- hr_dom0. destruct (decide (g' = g)) as [->|Hne].
    + rewrite lookup_insert_eq, Hg. split; by eexists.
    + by rewrite lookup_insert_ne.
  - intros g' n' [[<- <-]|[Hne Hg']]%lookup_insert_Some; [by apply (hr_next0 g n)|by apply hr_next0].
  - intros g' n' [[<- <-]|[Hne Hg']]%lookup_insert_Some; cbn; [done|].
    rewrite Hocc by done. by apply hr_strong0.
  - intros i g'. rewrite hr_own0. setoid_rewrite Hfr. destruct (decide (g' = g)) as [->|Hne].
    + rewrite lookup_insert_eq, Hg. naive_solver.
    + by rewrite lookup_insert_ne.
  - intros g' n' [[<- <-]|[Hne Hg']]%lookup_insert_Some; [by apply (hr_nodup0 g n)|by apply (hr_nodup0 g')].
  - by rewrite map_size_insert_Some by (by eexists).
Qed.

Lemma clone_gen_rel h v g :
  heap_rel h v -> g ∈ v_refs v ->
  exists h', clone_gen g h = (Ret tt, h') /\ heap_rel h' (with_refs (g :: v_refs v) v).
Proof.
  intros R Hg. destruct (ref_gen h v g R Hg) as [n Hn]. eexists.
  unfold clone_gen, get_gen, put_gen, modify. cbv [mbind stateful_bind]. rewrite Hn.
  split; [done|]. apply (put_strong_rel h v g n _ _ (v_phase v)); [done..| | | | |done].
  - intros g' [->|Hg']%elem_of_cons; by apply (hr_refs _ _ R).
  - rewrite (hr_strong _ _ R g n Hn), occ_cons. repeat case_decide; (done || lia).
  - intros g' Hne. by rewrite occ_cons, decide_False.
  - rewrite <- (hr_phase _ _ R), elem_of_cons. naive_solver.
Qed.

Lemma clone_storage_rel h v :
  heap_rel h v -> exists h', clone_storage h = (Ret tt, h')
    /\ heap_rel h' (with_storage (S (v_storage v)) v).
Proof.
  intros R. eexists. split; [done|]. destruct R. constructor; cbn; try done.
  rewrite hr_storage0. lia.
Qed.

Lemma release_storage_rel h v k :
  heap_rel h v -> v_storage v = S k -> exists h', release_storage h = (Ret tt, h')
    /\ heap_rel h' (with_storage k v).
Proof.
  intros R Hk. unfold release_storage. rewrite (hr_storage _ _ R), Hk. eexists. split; [done|].
  destruct R. by constructor; cbn.
Qed.

Lemma release_writer_rel h v k :
  heap_rel h v -> v_writer v = S k -> exists h', release_writer h = (Ret tt, h')
    /\ heap_rel h' (with_writer k v).
Proof.
  intros R Hk. unfold release_writer. rewrite (hr_writer _ _ R), Hk. cbn [Nat.add].
  pose proof (gens_nonempty h v R). destruct (k + base.size (gens h))%nat eqn:E; [lia|].
  eexists. split; [done|]. destruct R. by constructor; cbn.
Qed.

(** Releasing a reference starts the drop of the generation when it was the
    last one; it can only be the oldest generation then. *)
Definition released (g : nat) (l : list nat) v : option task * view T :=
  if decide (g = v_lo v /\ g ∉ l)
  then (Some (TFinalize g), with_phase Finalizing (with_refs l v))
  else (None, with_refs l v).

Lemma release_gen_rel h v g l :
  heap_rel h v -> v_refs v = g :: l ->
  exists h', task_step (TRelease g) h = (Ret (released g l v).1, h')
    /\ heap_rel h' (released g l v).2.
Proof.
  intros R Hl. destruct (ref_gen h v g R) as [n Hn]; [rewrite Hl; by left|].
  pose proof (hr_strong _ _ R g n Hn) as Hs. rewrite Hl, occ_cons, decide_True in Hs by done.
  pose proof (hr_refs _ _ R g) as Hr. rewrite Hl in Hr. specialize (Hr ltac:(by left)).
  pose proof (hr_phase _ _ R) as Hph. rewrite Hl, elem_of_cons in Hph.
  pose proof (occ_0 g l) as Hocc.
  assert (forall g', g' <> g -> occ g' l = occ g' (v_refs v)) as Hother.
  { intros g' Hne. by rewrite Hl, occ_cons, decide_False. }
  assert (forall g', g' ∈ l -> (v_lo v <= g' < v_next v)%nat) as Hin.
  { intros g' Hg'. apply (hr_refs _ _ R). rewrite Hl. by right. }
  unfold released. destruct (decide (g = v_lo v /\ g ∉ l)) as [[-> Hnin]|Hlive]; cbn [fst snd];
    eexists; unfold task_step, release_gen, get_gen, put_gen, modify;
    cbv [mbind stateful_bind]; rewrite Hn, Hs; cbn [Nat.add]; cbv [mret stateful_ret].
  - rewrite (proj2 Hocc Hnin), decide_False by lia. split; [done|].
    apply (put_strong_rel h v _ n); [done..| |done|split; done|].
    + by rewrite (proj2 Hocc Hnin), decide_False by lia.
    + destruct Hph as [Hph _]. rewrite Hph by (by left). done.
  - split.
    + rewrite bool_decide_false; [done|]. rewrite Nat.eq_add_0, Hocc. case_decide; [lia|].
      intros [? _]. apply Hlive. split; [lia|done].
    + apply (put_strong_rel h v g n _ _ (v_phase v)); [done..| |reflexivity].
      rewrite <- Hph. split; [by right|]. intros [Heq|]; [|done].
      destruct (decide (g ∈ l)); [by rewrite Heq|]. exfalso. by apply Hlive.
Qed.

(** ** New generations *)

Lemma advance_link_rel h v r :
  heap_rel h v -> cur_gen r ∈ v_refs v -> S (cur_gen r) = v_next v ->
  exists h', advance_link r h = (Ret (mkRcu (rcu_capacity r) (v_next v)), h')
    /\ heap_rel h' (with_range (v_lo v) (S (v_next v)) (with_refs (v_next v :: v_refs v) v)).
Proof.
  intros R Hcur Hnext. destruct (ref_gen h v _ R Hcur) as [e He].
  assert (gens h !! v_next v = None) as Hfresh.
  { destruct (gens h !! v_next v) eqn:E; [|done].
    assert (v_lo v <= v_next v < v_next v)%nat by (apply (hr_dom _ _ R); by eexists). lia. }
  assert (v_next v ∉ v_refs v) as Hnin by (intros Hin%(hr_refs _ _ R); lia).
  pose proof (hr_next _ _ R _ _ He) as Hnx. rewrite decide_True in Hnx by done.
  eexists. unfold advance_link, new_gen, link_next_gen, clone_gen, get_gen, put_gen, modify.
  cbv [mbind stateful_bind mret stateful_ret]. rewrite (hr_next_id _ _ R). cbn [gens set_gens set_next_id set_writer_strong].
  rewrite lookup_insert_ne, He by lia. rewrite Hnx. cbn [gens set_gens set_next_id set_writer_strong].
  rewrite lookup_insert_eq. cbn [gens set_gens set_next_id set_writer_strong strong inner].
  split; [done|]. pose proof (hr_lo _ _ R) as Hlo. rewrite insert_insert_eq.
  destruct R. constructor; cbn; try done.
  - lia.
  - intros g. rewrite !lookup_insert_is_Some, hr_dom0. lia.
  - intros g n [[<- <-]|[Hne [[<- <-]|[Hne' Hg]]%lookup_insert_Some]]%lookup_insert_Some; cbn.
    + rewrite decide_False by lia. by rewrite Hnext.
    + by rewrite decide_True.
    + rewrite (hr_next0 g n Hg). repeat case_decide; try done; lia.
  - intros g n [[<- <-]|[Hne [[<- <-]|[Hne' Hg]]%lookup_insert_Some]]%lookup_insert_Some; cbn.
    + rewrite occ_cons, decide_False by lia. by apply hr_strong0.
    + rewrite occ_cons, decide_True by done. rewrite (proj2 (occ_0 _ _) Hnin), decide_True by lia.
      lia.
    + rewrite occ_cons, decide_False by done. by apply hr_strong0.
  - intros g [->|Hg]%elem_of_cons; [lia|]. apply hr_refs0 in Hg. lia.
  - rewrite elem_of_cons, <- hr_phase0. split; [|by right]. intros [|]; [lia|done].
  - intros i g. rewrite hr_own0. destruct (decide (g = cur_gen r)) as [->|Hne].
    { rewrite lookup_insert_eq, He. split; intros (n & [= <-] & ?); eexists; (split; [done|]); done. }
    rewrite lookup_insert_ne by done. destruct (decide (g = v_next v)) as [->|Hne'].
    { rewrite lookup_insert_eq, Hfresh. split; [by intros (n & ? & _)|].
      intros (n & [= <-] & Hin & _). by apply elem_of_nil in Hin. }
    by rewrite lookup_insert_ne.
  - intros g n [[<- <-]|[Hne [[<- <-]|[Hne' Hg]]%lookup_insert_Some]]%lookup_insert_Some; cbn.
    + by apply (hr_nodup0 _ _ He).
    + constructor.
    + by apply (hr_nodup0 _ _ Hg).
  - rewrite map_size_insert_Some, map_size_insert_None; [lia|done|].
    rewrite lookup_insert_ne by lia. by eexists.
Qed.

(** ** Removals *)

Definition marked_spec (a : slab_spec T) (i : Z) (t : T) : slab_spec T :=
  mkSpec (sp_cap a) (delete i (present a)) (<[i := t]> (pending a)) (free a).

Lemma gen_mark_removed_rel h v g i t :
  heap_rel h v -> g ∈ v_refs v -> 0 <= i -> present (v_spec v) !! i = Some t ->
  exists h', gen_mark_removed g i h = (Ret tt, h')
    /\ heap_rel h' (with_own (<[i := g]> (v_own v)) (with_spec (marked_spec (v_spec v) i t) v)).
Proof.
  intros R Hg Hi Ht. destruct (ref_gen h v g R Hg) as [n Hn].
  destruct (hr_slab _ _ R) as (s & Hs & Ha). pose proof (abs_mark s _ i Ha Hi) as Hm.
  unfold spec_mark in Hm. rewrite Ht in Hm. destruct Hm as (s' & Hm & Ha').
  assert (pending (v_spec v) !! i = None) as Hp.
  { destruct (abs_wf s _ Ha) as (_ & Hd & _). by eapply map_disjoint_Some_l. }
  assert (v_own v !! i = None) as Ho.
  { apply eq_None_not_Some. rewrite (hr_pending _ _ R), Hp. by intros []. }
  assert (~ (v_phase v = Freeing /\ g = v_lo v)) as Hlive.
  { intros [Hf ->]. apply (hr_phase _ _ R) in Hg. congruence. }
  assert (i ∉ pending_removes (inner n)) as Hnin.
  { intros Hin. assert (v_own v !! i = Some g) by (apply (hr_own _ _ R); eauto). congruence. }
  eexists. unfold gen_mark_removed, lock_writer, get_gen, put_gen, modify.
  cbv [mbind stateful_bind]. rewrite Hs, (hr_poisoned _ _ R), Hm. cbn [mbind outcome_bind].
  cbn [gens set_slab]. rewrite Hn. split; [done|]. destruct R. constructor; cbn; try done.
  - by exists s'.
  - intros g'. rewrite <- hr_dom0. destruct (decide (g' = g)) as [->|Hne].
    + rewrite lookup_insert_eq, Hn. split; by eexists.
    + by rewrite lookup_insert_ne.
  - intros g' n' [[<- <-]|[Hne Hg']]%lookup_insert_Some; [by apply (hr_next0 g n)|by apply hr_next0].
  - intros g' n' [[<- <-]|[Hne Hg']]%lookup_insert_Some; [by apply (hr_strong0 g n)|by apply hr_strong0].
  - intros j g'. rewrite lookup_insert_Some. destruct (decide (g' = g)) as [->|Hne].
    + rewrite lookup_insert_eq. rewrite hr_own0, Hn. split.
      * intros [[-> _]|[Hne (n' & [= <-] & Hin & ?)]]; eexists; (split; [done|]);
          cbn; set_solver.
      * intros (n' & [= <-] & Hin & Hx). cbn in Hin. apply elem_of_app in Hin as [Hin|Hin].
        -- right. split; [by intros ->|eauto].
        -- apply list_elem_of_singleton in Hin as ->. by left.
    + rewrite lookup_insert_ne by done. rewrite hr_own0. split; [naive_solver|].
      intros Hx. right. split; [|done]. intros ->.
      assert (v_own v !! j = Some g') by (by apply hr_own0). congruence.
  - intros j. rewrite !lookup_insert_is_Some', hr_pending0. done.
  - intros g' n' [[<- <-]|[Hne Hg']]%lookup_insert_Some; [|by apply (hr_nodup0 g')]. cbn.
    apply NoDup_app. split; [by apply (hr_nodup0 g)|]. split; [|apply NoDup_singleton].
    intros j Hj ->%list_elem_of_singleton. done.
  - by rewrite map_size_insert_Some by (by eexists).
Qed.
(** ** Finalization *)

Definition without (l : list Z) (m : gmap Z T) : gmap Z T :=
  base.filter (fun p => p.1 ∉ l) m.

Lemma without_cons i l m : without (i :: l) m = without l (delete i m).
Proof.
  apply map_eq. intros j. apply option_eq. intros x. unfold without.
  rewrite !map_lookup_filter_Some, lookup_delete_Some; cbn. set_solver.
Qed.

Lemma finalize_all_rel l : forall s a,
  slab_abs s a -> NoDup l -> (forall i, i ∈ l -> is_Some (pending a !! i)) ->
  exists s' ts, finalize_all s l = Ret (ts, s')
    /\ slab_abs s' (mkSpec (sp_cap a) (present a) (without l (pending a)) (rev l ++ free a))
    /\ items (pending a) ≡ₚ ts ++ items (without l (pending a)).
Proof using Laws.
  induction l as [|i l IH]; intros s a Ha Hnd Hl; cbn [finalize_all].
  - exists s, []. assert (without [] (pending a) = pending a) as ->.
    { apply map_filter_id. intros. apply not_elem_of_nil. }
    by destruct a.
  - apply NoDup_cons in Hnd as [Hi Hnd]. destruct (Hl i) as [t Ht]; [by left|].
    assert (0 <= i) as Hpos.
    { destruct (abs_wf s a Ha) as (_ & _ & _ & Hcov & _). apply Hcov. rewrite Ht. eauto. }
    pose proof (abs_finalize s a i Ha Hpos) as Hf. unfold spec_finalize in Hf.
    rewrite Ht in Hf. destruct Hf as (s1 & -> & Ha1). cbn [mbind outcome_bind].
    destruct (IH s1 _ Ha1 Hnd) as (s' & ts & -> & Ha' & Hp).
    { cbn. intros j Hj. rewrite lookup_delete_ne by (intros ->; done). apply Hl. by right. }
    cbn in Ha', Hp |- *. exists s', (t :: ts). split; [done|].
    rewrite without_cons, <- app_assoc. split; [done|]. rewrite <- app_comm_cons, <- Hp.
    by apply items_delete.
Qed.

(** What finalizing the oldest generation does to the slab. *)
Definition finalized_spec (a : slab_spec T) (l : list Z) : slab_spec T :=
  mkSpec (sp_cap a) (present a) (without l (pending a)) (rev l ++ free a).

Definition disown (g : nat) (o : gmap Z nat) : gmap Z nat := base.filter (fun p => p.2 <> g) o.

Lemma gen_drop_rel h v :
  heap_rel h v -> v_phase v = Finalizing ->
  exists h' l ts, task_step (TFinalize (v_lo v)) h = (Ret (Some (TFree (v_lo v))), h')
    /\ heap_rel h' (with_phase Freeing (with_dropped (v_dropped v ++ ts)
          (with_own (disown (v_lo v) (v_own v)) (with_spec (finalized_spec (v_spec v) l) v))))
    /\ (forall i, i ∈ l <-> v_own v !! i = Some (v_lo v))
    /\ items (pending (v_spec v)) ≡ₚ ts ++ items (without l (pending (v_spec v))).
Proof.
  intros R Hph. destruct (proj2 (hr_dom _ _ R (v_lo v))) as [n Hn].
  { pose proof (hr_lo _ _ R). lia. }
  assert (forall i, i ∈ pending_removes (inner n) <-> v_own v !! i = Some (v_lo v)) as Hl.
  { intros i. rewrite (hr_own _ _ R), Hn. split.
    - intros Hi. exists n. repeat split; try done. intros [? _]. congruence.
    - by intros (n' & [= <-] & Hi & _). }
  destruct (hr_slab _ _ R) as (s & Hs & Ha).
  destruct (finalize_all_rel (pending_removes (inner n)) s (v_spec v) Ha) as (s' & ts & Hf & Ha' & Hp).
  { by apply (hr_nodup _ _ R _ _ Hn). }
  { intros i Hi%Hl. apply (hr_pending _ _ R). by eexists. }
  eexists _, (pending_removes (inner n)), ts. split.
  { unfold task_step, gen_drop, get_gen, lock_writer, modify. cbv [mbind stateful_bind].
    rewrite Hn, Hs, (hr_poisoned _ _ R), Hf. done. }
  split; [|done]. destruct R. constructor; cbn; try done.
  - by exists s'.
  - rewrite hr_phase0, Hph. done.
  - intros i g. unfold disown. rewrite map_lookup_filter_Some, hr_own0, Hph; cbn. naive_solver.
  - intros i. split.
    + intros [g Hg]. unfold disown in Hg. apply map_lookup_filter_Some in Hg as [Hg Hne]; cbn in Hne.
      destruct (proj1 (hr_pending0 i)) as [t Ht]; [by eexists|]. exists t.
      apply map_lookup_filter_Some. split; [done|]. cbn. rewrite Hl. naive_solver.
    + intros [t Ht]. apply map_lookup_filter_Some in Ht as [Ht Hne]; cbn in Hne.
      destruct (proj2 (hr_pending0 i)) as [g Hg]; [by eexists|]. exists g.
      apply map_lookup_filter_Some. split; [done|]. cbn. intros ->. by apply Hne, Hl.
  - by rewrite hr_dropped0.
Qed.

(** Freeing the oldest generation leaves its reference to the next one. *)
Lemma free_gen_rel h v :
  heap_rel h v -> v_phase v = Freeing -> (S (v_lo v) < v_next v)%nat ->
  exists h', task_step (TFree (v_lo v)) h = (Ret (Some (TRelease (S (v_lo v)))), h')
    /\ heap_rel h' (with_phase Idle (with_range (S (v_lo v)) (v_next v)
          (with_refs (S (v_lo v) :: v_refs v) v))).
Proof.
  intros R Hph Hlt. destruct (proj2 (hr_dom _ _ R (v_lo v))) as [n Hn]; [lia|].
  pose proof (hr_next _ _ R _ _ Hn) as Hnx. rewrite decide_False in Hnx by lia.
  destruct (proj2 (hr_dom _ _ R (S (v_lo v)))) as [n' Hn']; [lia|].
  assert (v_lo v ∉ v_refs v) as Hlo by (rewrite (hr_phase _ _ R), Hph; done).
  pose proof (map_size_delete_Some _ _ (mk_is_Some _ _ Hn)) as Hsz.
  assert (base.size (delete (v_lo v) (gens h)) <> 0%nat) as Hpos.
  { apply (map_size_ne_0_lookup_2 _ (S (v_lo v))). rewrite lookup_delete_ne by lia. by eexists. }
  destruct (v_writer v + base.size (gens h))%nat as [|[|k]] eqn:Ek; [lia..|].
  eexists. unfold task_step, free_gen, get_gen, modify, release_writer.
  cbv [mbind stateful_bind mret stateful_ret]. rewrite Hn. cbn [writer_strong set_gens].
  rewrite (hr_writer _ _ R), Ek.
  rewrite Hnx. split; [done|]. destruct R. constructor; cbn; try done.
  - intros g. rewrite lookup_delete_is_Some, hr_dom0. lia.
  - intros g m [Hne Hg]%lookup_delete_Some. by apply hr_next0.
  - intros g m [Hne Hg]%lookup_delete_Some. rewrite (hr_strong0 g m Hg), occ_cons.
    assert (v_lo v <= g < v_next v)%nat by (apply hr_dom0; by eexists).
    repeat case_decide; lia.
  - intros g [->|Hg]%elem_of_cons; [lia|]. assert (g <> v_lo v) by congruence.
    apply hr_refs0 in Hg. lia.
  - split; [done|]. intros _. by left.
  - intros i g. rewrite hr_own0. split.
    + intros (m & Hg & Hi & Hno). exists m. rewrite lookup_delete_ne by naive_solver.
      split; [done|]. split; [done|]. by intros [? _].
    + intros (m & [Hne Hg]%lookup_delete_Some & Hi & _). exists m. naive_solver.
  - intros g m [Hne Hg]%lookup_delete_Some. by apply (hr_nodup0 g).
  - lia.
Qed.

(** Freeing the last generation drops the slab and the items left in it. *)
Lemma free_last_rel h v :
  heap_rel h v -> v_phase v = Freeing -> S (v_lo v) = v_next v ->
  v_writer v = 0%nat -> v_storage v = 0%nat ->
  exists h' ts, task_step (TFree (v_lo v)) h = (Ret None, h')
    /\ slab h' = None /\ gens h' = ∅
    /\ dropped h' = v_dropped v ++ ts /\ ts ≡ₚ items (present (v_spec v))
    /\ pending (v_spec v) = ∅.
Proof.
  intros R Hph Hlast Hw Hst. destruct (proj2 (hr_dom _ _ R (v_lo v))) as [n Hn].
  { pose proof (hr_lo _ _ R). lia. }
  pose proof (hr_next _ _ R _ _ Hn) as Hnx. rewrite decide_True in Hnx by done.
  assert (gens h = {[ v_lo v := n ]}) as Hgens.
  { apply map_eq. intros g. destruct (decide (g = v_lo v)) as [->|Hne].
    - by rewrite Hn, lookup_singleton_eq.
    - rewrite lookup_singleton_ne by done. apply eq_None_not_Some.
      rewrite (hr_dom _ _ R). lia. }
  destruct (hr_slab _ _ R) as (s & Hs & Ha). eexists _, _.
  unfold task_step, free_gen, get_gen, modify, release_writer, release_storage.
  cbv [mbind stateful_bind mret stateful_ret]. rewrite Hn. cbn [writer_strong set_gens].
  rewrite (hr_writer _ _ R), Hgens, map_size_singleton, Hw. cbn [Nat.add].
  cbn [storage_strong set_writer_strong set_gens slab]. rewrite (hr_storage _ _ R), Hst, Hs, (abs_drop s _ Ha), Hnx.
  split; [done|]. cbn. split; [done|]. rewrite (hr_dropped _ _ R).
  split; [apply delete_singleton_eq|]. split; [done|]. split.
  - unfold items. by rewrite (items_at_all _ (abs_wf s _ Ha)).
  - apply map_eq. intros i. rewrite lookup_empty. apply eq_None_not_Some.
    rewrite <- (hr_pending _ _ R). intros [g Hg]. pose proof Hg as (m & Hm & _ & Hno)%(hr_own _ _ R).
    apply Hno. split; [done|]. assert (v_lo v <= g < v_next v)%nat; [|lia].
    apply (hr_dom _ _ R). by eexists.
Qed.

(** ** Creation *)

Definition new_view (a : slab_spec T) : view T := mkView a 0 1 [0%nat] 1 1 Idle ∅ [].

Lemma rcu_new_rel (new_slab : Z -> outcome W) cap s a :
  new_slab cap = Ret s -> slab_abs s a -> pending a = ∅ ->
  exists h, rcu_with_fixed_capacity new_slab cap = Ret (mkRcu cap 0, h)
    /\ heap_rel h (new_view a).
Proof.
  intros Hs Ha Hp. eexists. unfold rcu_with_fixed_capacity. rewrite Hs. split; [done|].
  constructor; cbn; try done.
  - by exists s.
  - lia.
  - intros g. rewrite lookup_insert_is_Some, lookup_empty. split; [intros [?|[? []]]; [lia|done]|lia].
  - intros g n [[<- <-]|[Hne Hg]]%lookup_insert_Some; done.
  - intros g n [[<- <-]|[Hne Hg]]%lookup_insert_Some; [|done]. done.
  - intros g ->%list_elem_of_singleton. lia.
  - split; [done|]. intros _. by left.
  - intros i g. rewrite lookup_empty. split; [done|].
    intros (n & [[<- <-]|[Hne Hg]]%lookup_insert_Some & Hi & _); [by apply elem_of_nil in Hi|done].
  - intros i. by rewrite Hp, !lookup_empty.
  - intros g n [[<- <-]|[Hne Hg]]%lookup_insert_Some; [constructor|done].
Qed.
End heap.
