(* ===== verification/RcuSystem.v ===== *)
(** A program that uses an [RcuCslab]: one writer, any number of readers on any
    threads, and the drops of generations that are under way.

    A call of the program is one atomic step.  The borrow checker decides which
    calls are possible: while an [RcuIterMut] or one of its entries is alive,
    or a [VacantRcuEntry] is, the [RcuCslab] itself is mutably borrowed; readers
    may be used at any time.  The drop of a generation is a step per [task],
    interleaved with everything else; under a [VacantRcuEntry] the lock is
    held, so that finalization waits. *)

From S2P Require Import Prelude CslabStorage Cslab SlabSpec CslabIter SlabInterface RcuCslab.

Section system.
Context {W T : Type} {Ops : SlabOps W T}.
Abbreviation H := (stateful (heap W T)).

(** An [RcuCslabReader], with the items it has read so far (which the client
    may still hold references to). *)
Record reader := mkReader { r_gen : nat; r_seen : gmap Z T }.

(** The outstanding mutable borrow of the [RcuCslab]. *)
Inductive borrow : Type :=
| BNone
| BVacant (key : Z)      (* a [VacantRcuEntry], and the vacant key when it was made *)
| BMut (it : option iter_mut) (entries : list rcu_entry).

Record sys := mkSys {
  sys_heap : heap W T;
  sys_rcu : option rcu_cslab;
  sys_readers : list reader;
  sys_borrow : borrow;
  sys_tasks : list task;
  sys_inserted : list T;     (* every item ever inserted *)
}.

Definition set_heap (h : heap W T) (y : sys) : sys :=
  mkSys h (sys_rcu y) (sys_readers y) (sys_borrow y) (sys_tasks y) (sys_inserted y).
Definition set_rcu (r : option rcu_cslab) (y : sys) : sys :=
  mkSys (sys_heap y) r (sys_readers y) (sys_borrow y) (sys_tasks y) (sys_inserted y).
Definition set_readers (l : list reader) (y : sys) : sys :=
  mkSys (sys_heap y) (sys_rcu y) l (sys_borrow y) (sys_tasks y) (sys_inserted y).
Definition set_borrow (b : borrow) (y : sys) : sys :=
  mkSys (sys_heap y) (sys_rcu y) (sys_readers y) b (sys_tasks y) (sys_inserted y).
Definition set_tasks (l : list task) (y : sys) : sys :=
  mkSys (sys_heap y) (sys_rcu y) (sys_readers y) (sys_borrow y) l (sys_inserted y).
Definition add_inserted (t : T) (y : sys) : sys :=
  mkSys (sys_heap y) (sys_rcu y) (sys_readers y) (sys_borrow y) (sys_tasks y) (sys_inserted y ++ [t]).

Definition add_task (t : option task) (y : sys) : sys := set_tasks (sys_tasks y ++ option_list t) y.
Definition add_reader (g : nat) (y : sys) : sys := set_readers (sys_readers y ++ [mkReader g ∅]) y.



(** The borrow of an [RcuIterMut] ends with it and its last entry. *)
Definition mut_borrow (it : option iter_mut) (entries : list rcu_entry) : borrow :=
  match it, entries with None, [] => BNone | _, _ => BMut it entries end.

Inductive call : Type :=
| CInsert (t : T)
| CVacantKey
| CLen
| CAllocated
| CGet (i : Z)
| CMarkRemoved (i : Z)
| CSchedule
| CReader
| CVacantEntry
| CVacantEntryKey
| CVacantEntryInsert (t : T)
| CVacantEntryDrop
| CIterMut
| CIterNext (front : bool)
| CIterDrop
| CEntryDeref (k : nat)
| CEntryRemove (k : nat)
| CEntryDrop (k : nat)
| CDropRcu
| CReaderClone (k : nat)
| CReaderDrop (k : nat)
| CReaderGet (k : nat) (i : Z) (flag : bool)
| CReaderGetUnchecked (k : nat) (i : Z)
| CTask (k : nat).

Inductive resp : Type :=
| AUnit
| AKey (r : result Z unit)
| ANum (n : Z)
| AGet (o : option T)
| AItem (t : T)
| AEntry (e : option rcu_entry).

(** Run [m]; when it returns, [k] updates the rest of the state. *)
Definition run_on {A} (y : sys) (m : H A) (k : A -> sys -> resp * sys) : outcome resp * sys :=
  match m (sys_heap y) with
  | (Ret x, h) => let '(r, y') := k x (set_heap h y) in (Ret r, y')
  | (Panic, h) => (Panic, set_heap h y)
  | (UB, h) => (UB, set_heap h y)
  | (OutOfFuel, h) => (OutOfFuel, set_heap h y)
  end.

(** The drop of a handle on generation [g], up to the point where a last
    reference was released. *)
Definition start_release (g : nat) : H (option task) := task_step (TRelease g).

(** What the acquire load of the flag of [i] may return to a reader of
    generation [g].  It may be set when the item is present, and, as the load
    may be stale, also when it is marked but its removal is pending in the
    reader's own generation or a later one: the reader did not synchronize
    with those removals.  It may be clear in any case. *)
Definition may_load (h : heap W T) (g : nat) (i : Z) (flag : bool) : bool :=
  negb flag
  || match slab h with
     | None => false
     | Some s => match slab_contains_key s i with Ret b => b | _ => false end
     end
  || bool_decide (Exists (fun p => (g <= p.1)%nat /\ i ∈ pending_removes (inner p.2))
                    (map_to_list (gens h))).

(** The calls on the [RcuCslab] when it is not borrowed. *)
Definition exec_writer (y : sys) (r : rcu_cslab) (c : call) : option (outcome resp * sys) :=
  match c with
  | CInsert t => Some (run_on y (rcu_insert t) (fun k y' =>
      (AKey k, match k with Ok _ => add_inserted t y' | Err _ => y' end)))
  | CVacantKey => Some (run_on y rcu_vacant_key (fun k y' => (AKey k, y')))
  | CLen => Some (run_on y rcu_len (fun n y' => (ANum n, y')))
  | CAllocated => Some (run_on y rcu_allocated (fun n y' => (ANum n, y')))
  | CGet i => Some (run_on y (rcu_get i) (fun o y' => (AGet o, y')))
  | CMarkRemoved i => Some (run_on y (rcu_mark_removed r i) (fun _ y' => (AUnit, y')))
  | CSchedule => Some (run_on y
      (r' ← advance_link r; t ← start_release (cur_gen r); g ← rcu_reader r'; mret (r', t, g))
      (fun '(r', t, g) y' => (AUnit, add_reader g (add_task t (set_rcu (Some r') y')))))
  | CReader => Some (run_on y (rcu_reader r) (fun g y' => (AUnit, add_reader g y')))
  | CVacantEntry => Some (run_on y rcu_vacant_key (fun k y' =>
      (AKey k, match k with Ok i => set_borrow (BVacant i) y' | Err _ => y' end)))
  | CIterMut => Some (run_on y rcu_iter_mut (fun im y' => (AUnit, set_borrow (BMut (Some im) []) y')))
  | CDropRcu => Some (run_on y (_ ← rcu_drop_handles; start_release (cur_gen r))
      (fun t y' => (AUnit, add_task t (set_rcu None y'))))
  | _ => None
  end.

(** The calls on a [VacantRcuEntry]. *)
Definition exec_vacant (y : sys) (c : call) : option (outcome resp * sys) :=
  match c with
  | CVacantEntryKey => Some (run_on y vacant_rcu_entry_key (fun k y' => (AKey (Ok k), y')))
  | CVacantEntryInsert t => Some (run_on y (vacant_rcu_entry_insert t) (fun k y' =>
      (AKey (Ok k), set_borrow BNone (add_inserted t y'))))
  | CVacantEntryDrop => Some (Ret AUnit, set_borrow BNone y)
  | _ => None
  end.

(** The calls on an [RcuIterMut] and on its entries. *)
Definition exec_mut (y : sys) (r : rcu_cslab) (it : option iter_mut) (es : list rcu_entry) (c : call)
  : option (outcome resp * sys) :=
  match c with
  | CIterNext front =>
      im ← it;
      Some (run_on y (if (front : bool) then iter_mut_next r im else iter_mut_next_back r im)
        (fun '(e, im') y' => (AEntry e, set_borrow (BMut (Some im') (es ++ option_list e)) y')))
  | CIterDrop =>
      _ ← it;
      Some (run_on y
        (r' ← advance_link r; t ← start_release (cur_gen r); mret (r', t))
        (fun '(r', t) y' =>
           (AUnit, set_borrow (mut_borrow None es) (add_task t (set_rcu (Some r') y')))))
  | CEntryDeref k =>
      e ← es !! k;
      Some (run_on y (entry_deref e) (fun t y' => (AItem t, y')))
  | CEntryRemove k =>
      e ← es !! k;
      Some (run_on y (_ ← gen_mark_removed (e_gen e) (e_idx e); start_release (e_gen e))
        (fun t y' => (AUnit, set_borrow (mut_borrow it (delete k es)) (add_task t y'))))
  | CEntryDrop k =>
      e ← es !! k;
      Some (run_on y (start_release (e_gen e))
        (fun t y' => (AUnit, set_borrow (mut_borrow it (delete k es)) (add_task t y'))))
  | _ => None
  end.

(** The calls on the readers. *)
Definition exec_reader (y : sys) (c : call) : option (outcome resp * sys) :=
  match c with
  | CReaderClone k =>
      r ← sys_readers y !! k;
      Some (run_on y (reader_clone (r_gen r)) (fun g y' => (AUnit, add_reader g y')))
  | CReaderDrop k =>
      r ← sys_readers y !! k;
      Some (run_on y (_ ← reader_drop_storage; start_release (r_gen r))
        (fun t y' => (AUnit, add_task t (set_readers (delete k (sys_readers y)) y'))))
  | CReaderGet k i flag =>
      r ← sys_readers y !! k;
      if may_load (sys_heap y) (r_gen r) i flag then
        Some (if flag then
                run_on y (reader_get_unchecked i) (fun t y' =>
                  (AGet (Some t),
                   set_readers (<[k := mkReader (r_gen r) (<[i := t]> (r_seen r))]> (sys_readers y)) y'))
              else (Ret (AGet None), y))
      else None
  | CReaderGetUnchecked k i =>
      (* only for an index that a previous [get] has found *)
      r ← sys_readers y !! k;
      _ ← r_seen r !! i;
      Some (run_on y (reader_get_unchecked i) (fun t y' => (AItem t, y')))
  | _ => None
  end.

(** A step of the drop of a generation; finalizing needs the lock. *)
Definition exec_task (y : sys) (k : nat) : option (outcome resp * sys) :=
  t ← sys_tasks y !! k;
  match t, sys_borrow y with
  | TFinalize _, BVacant _ => None
  | _, _ => Some (run_on y (task_step t) (fun t' y' =>
      (AUnit, add_task t' (set_tasks (delete k (sys_tasks y)) y'))))
  end.

(** The indices are [usize]s. *)
Definition call_usize (c : call) : Prop :=
  match c with
  | CGet i | CMarkRemoved i | CReaderGet _ i _ | CReaderGetUnchecked _ i => 0 <= i
  | _ => True
  end.

(** One call; [None] when the program cannot make it in this state. *)
Definition exec (y : sys) (c : call) : option (outcome resp * sys) :=
  match c with
  | CTask k => exec_task y k
  | CReaderClone _ | CReaderDrop _ | CReaderGet _ _ _ | CReaderGetUnchecked _ _ => exec_reader y c
  | _ =>
      r ← sys_rcu y;
      match sys_borrow y with
      | BNone => exec_writer y r c
      | BVacant _ => exec_vacant y c
      | BMut it es => exec_mut y r it es c
      end
  end.

(** A new [RcuCslab]. *)
Definition sys_new (r : rcu_cslab) (h : heap W T) : sys := mkSys h (Some r) [] BNone [] [].

(** The states the program reaches by calls that return. *)
Inductive sys_reachable (y0 : sys) : sys -> Prop :=
| sys_reach_new : sys_reachable y0 y0
| sys_reach_step y c r y' :
    sys_reachable y0 y -> call_usize c -> exec y c = Some (Ret r, y') -> sys_reachable y0 y'.

End system.
Arguments reader : clear implicits.
Arguments call : clear implicits.
Arguments resp : clear implicits.
Arguments sys : clear implicits.
