(* ===== verification/RcuInv.v ===== *)
(** The invariant of a program that uses an [RcuCslab], and its preservation by
    the parts that calls are made of. *)

From S2P Require Import Prelude CslabStorage Cslab SlabSpec SlabKeys CslabIter CslabIterProof SlabInterface.
From S2P Require Import RcuCslab RcuSystem RcuHeap.

Section inv.
Context {W T : Type} {Ops : SlabOps W T} {Laws : SlabLaws W T}.
Abbreviation sys := (sys W T).
Abbreviation reader := (reader T).

(** ** The references the program holds *)

Definition entries_of (b : borrow) : list rcu_entry :=
  match b with BMut _ es => es | _ => [] end.

Definition task_refs (ts : list task) : list nat :=
  omap (fun t => match t with TRelease g => Some g | _ => None end) ts.

Definition sys_refs (y : sys) : list nat :=
  option_list (cur_gen <$> sys_rcu y) ++ (r_gen <$> sys_readers y)
    ++ (e_gen <$> entries_of (sys_borrow y)) ++ task_refs (sys_tasks y).

Definition handles (y : sys) : nat := match sys_rcu y with Some _ => 1 | None => 0 end.

(** ** The invariant *)

(** Only the oldest generation is ever being dropped, in one task. *)
Definition tasks_ok (ts : list task) (lo : nat) (ph : phase) : Prop :=
  match ph with
  | Idle => ts = [] \/ ts = [TRelease lo]
  | Finalizing => ts = [TFinalize lo]
  | Freeing => ts = [TFree lo]
  end.

(** An item that a reader has seen is present, or its removal is pending in the
    reader's generation or a later one. *)
Definition seen_ok (v : view T) (r : reader) : Prop :=
  forall i t, r_seen r !! i = Some t -> 0 <= i /\
    (present (v_spec v) !! i = Some t
     \/ pending (v_spec v) !! i = Some t
        /\ exists g, v_own v !! i = Some g /\ (r_gen r <= g)%nat).

(** The entries of an [RcuIterMut] hold distinct present items of the generation
    it was made in, no reader is of a later generation, and what is left of
    the iterator is disjoint from the entries and counted by [remaining]. *)
Definition mut_ok (v : view T) (r : rcu_cslab) (rds : list reader)
    (it : option iter_mut) (es : list rcu_entry) : Prop :=
  exists g,
    (forall e, e ∈ es -> e_gen e = g /\ is_Some (present (v_spec v) !! e_idx e))
    /\ NoDup (e_idx <$> es)
    /\ (forall rd, rd ∈ rds -> (r_gen rd <= g)%nat)
    /\ match it with
       | Some im =>
           g = cur_gen r /\ iter_ok (v_spec v) (im_iter im)
           /\ remaining im =
                Z.of_nat (length (keys_in (v_spec v) (it_head (im_iter im)) (it_tail (im_iter im))))
           /\ forall e, e ∈ es -> ~ (it_head (im_iter im) <= e_idx e < it_tail (im_iter im))
       | None => S g = cur_gen r
       end.

Definition borrow_ok (v : view T) (y : sys) : Prop :=
  match sys_borrow y with
  | BNone => True
  | BVacant k => is_Some (sys_rcu y) /\ head (free (v_spec v)) = Some k
  | BMut it es => exists r, sys_rcu y = Some r /\ mut_ok v r (sys_readers y) it es
  end.

(** The invariant; [xg], [xs] and [xw] are references to generations, to the
    storage and to the [Cslab] that a call in progress holds. *)
Record sys_inv (xg : list nat) (xs xw : nat) (y : sys) (v : view T) : Prop := {
  si_heap : heap_rel (sys_heap y) v;
  si_refs : v_refs v ≡ₚ xg ++ sys_refs y;
  si_storage : v_storage v = (xs + handles y + length (sys_readers y))%nat;
  si_writer : v_writer v = (xw + handles y)%nat;
  si_tasks : tasks_ok (sys_tasks y) (v_lo v) (v_phase v);
  si_cur : forall r, sys_rcu y = Some r -> S (cur_gen r) = v_next v;
  si_seen : forall r, r ∈ sys_readers y -> seen_ok v r;
  si_borrow : borrow_ok v y;
  si_items : sys_inserted y ≡ₚ
    items (present (v_spec v)) ++ items (pending (v_spec v)) ++ v_dropped v;
}.

(** The state after the last handle is gone. *)
Record sys_done (y : sys) : Prop := {
  sd_slab : slab (sys_heap y) = None;
  sd_gens : gens (sys_heap y) = ∅;
  sd_rcu : sys_rcu y = None;
  sd_readers : sys_readers y = [];
  sd_borrow : sys_borrow y = BNone;
  sd_tasks : sys_tasks y = [];
  sd_items : sys_inserted y ≡ₚ dropped (sys_heap y);
}.

Lemma sys_inv_perm xg xg' xs xw y v :
  sys_inv xg xs xw y v -> xg ≡ₚ xg' -> sys_inv xg' xs xw y v.
Proof. intros I Hp. destruct I. constructor; try done. by rewrite si_refs0, Hp. Qed.

(** ** Moving references between the program and a call *)

Lemma refs_reader y k r :
  sys_readers y !! k = Some r ->
  sys_refs y ≡ₚ r_gen r :: sys_refs (set_readers (delete k (sys_readers y)) y).
Proof.
  intros Hk. unfold sys_refs; cbn. apply delete_Permutation in Hk.
  rewrite Hk at 1. cbn. solve_Permutation.
Qed.

Lemma take_reader xg xs xw y v k r :
  sys_inv xg xs xw y v -> sys_readers y !! k = Some r ->
  sys_inv (r_gen r :: xg) (S xs) xw (set_readers (delete k (sys_readers y)) y) v.
Proof.
  intros I Hk. assert (forall rd, rd ∈ delete k (sys_readers y) -> rd ∈ sys_readers y) as Hsub.
  { intros rd Hrd. apply delete_Permutation in Hk. rewrite Hk. by right. }
  destruct I. constructor; cbn; try done.
  - rewrite si_refs0, (refs_reader y k r Hk). solve_Permutation.
  - rewrite length_delete by (by eexists). apply lookup_lt_Some in Hk. unfold handles in *; cbn in *. lia.
  - intros rd Hrd. by apply si_seen0, Hsub.
  - unfold borrow_ok in *; cbn. destruct (sys_borrow y); [done..|].
    destruct si_borrow0 as (r' & ? & g & ? & ? & Hle & ?). exists r'. split; [done|]. exists g.
    repeat (split; [done|]). split; [|done]. intros rd Hrd. by apply Hle, Hsub.
Qed.

(** A new reader; of an outstanding mutable borrow, it is no later. *)
Lemma put_reader xg xs xw y v g :
  sys_inv (g :: xg) (S xs) xw y v ->
  match sys_borrow y with BMut _ _ => exists rd, rd ∈ sys_readers y /\ r_gen rd = g | _ => True end ->
  sys_inv xg xs xw (add_reader g y) v.
Proof.
  intros I Hb. destruct I. constructor; cbn; try done.
  - rewrite si_refs0. unfold sys_refs; cbn. rewrite fmap_app. cbn. solve_Permutation.
  - rewrite length_app. cbn. unfold handles in *; cbn in *. lia.
  - intros rd [Hrd| ->%list_elem_of_singleton]%elem_of_app; [by apply si_seen0|].
    intros i t. cbn. by rewrite lookup_empty.
  - unfold borrow_ok in *; cbn. destruct (sys_borrow y); [done..|].
    destruct si_borrow0 as (r' & ? & g' & ? & ? & Hle & ?). exists r'. split; [done|]. exists g'.
    repeat (split; [done|]). split; [|done].
    intros rd [Hrd| ->%list_elem_of_singleton]%elem_of_app; [by apply Hle|]. cbn.
    destruct Hb as (rd & Hrd & <-). by apply Hle.
Qed.

Lemma take_entries xg xs xw y v it es :
  sys_inv xg xs xw y v -> sys_borrow y = BMut it es ->
  sys_inv ((e_gen <$> es) ++ xg) xs xw (set_borrow BNone y) v.
Proof.
  intros I Hb. destruct I. constructor; cbn; try done.
  rewrite si_refs0. unfold sys_refs; cbn. rewrite Hb; cbn. solve_Permutation.
Qed.

Lemma put_entries xg xs xw y v it es r :
  sys_inv ((e_gen <$> es) ++ xg) xs xw y v -> sys_borrow y = BNone -> sys_rcu y = Some r ->
  mut_ok v r (sys_readers y) it es ->
  sys_inv xg xs xw (set_borrow (mut_borrow it es) y) v.
Proof.
  intros I Hb Hr Hm. destruct I.
  assert (entries_of (mut_borrow it es) = es) as He by (destruct it, es; done).
  constructor; cbn; try done.
  - rewrite si_refs0. unfold sys_refs; cbn. rewrite Hb, He; cbn. solve_Permutation.
  - unfold borrow_ok; cbn. destruct it, es; cbn; try done; by exists r.
Qed.

Lemma drop_handle xg xs xw y v r :
  sys_inv xg xs xw y v -> sys_rcu y = Some r -> sys_borrow y = BNone ->
  sys_inv (cur_gen r :: xg) (S xs) (S xw) (set_rcu None y) v.
Proof.
  intros I Hr Hb. destruct I. unfold handles in *. rewrite Hr in *. constructor; cbn; try done; try lia.
  - rewrite si_refs0. unfold sys_refs; cbn. rewrite Hr, Hb; cbn. solve_Permutation.
  - unfold borrow_ok; cbn. by rewrite Hb.
Qed.

(** ** The parts of calls *)

(** Parts that only change references. *)
Lemma inv_refs_change xg xs xw xg' xs' xw' y v h' v' :
  sys_inv xg xs xw y v -> heap_rel h' v' ->
  v_spec v' = v_spec v -> v_own v' = v_own v -> v_dropped v' = v_dropped v ->
  v_lo v' = v_lo v -> v_next v' = v_next v -> v_phase v' = v_phase v ->
  v_refs v' ≡ₚ xg' ++ sys_refs y ->
  v_storage v' = (xs' + handles y + length (sys_readers y))%nat ->
  v_writer v' = (xw' + handles y)%nat ->
  sys_inv xg' xs' xw' (set_heap h' y) v'.
Proof.
  intros I R Es Eo Ed El En Ep Hr Hs Hw. destruct I. constructor; cbn; try done.
  - by rewrite El, Ep.
  - intros r. rewrite En. apply si_cur0.
  - intros r Hrd i t Ht. rewrite Es, Eo. by apply (si_seen0 r).
  - unfold borrow_ok in *; cbn. destruct (sys_borrow y); [done|by rewrite Es|].
    destruct si_borrow0 as (r & ? & Hm). exists r. split; [done|]. unfold mut_ok in *.
    by rewrite Es.
  - by rewrite Es, Ed.
Qed.

Lemma inv_clone_gen xg xs xw y v g :
  sys_inv xg xs xw y v -> g ∈ v_refs v ->
  exists h' v', clone_gen g (sys_heap y) = (Ret tt, h')
    /\ sys_inv (g :: xg) xs xw (set_heap h' y) v' /\ v_spec v' = v_spec v /\ v_own v' = v_own v.
Proof.
  intros I Hg. destruct (clone_gen_rel _ v g (si_heap _ _ _ _ _ I) Hg) as (h' & Hc & R).
  exists h', (with_refs (g :: v_refs v) v). split; [done|]. split; [|done]. eapply inv_refs_change; [done|exact R|try done..].
  - cbn. by rewrite (si_refs _ _ _ _ _ I).
  - apply I.
  - apply I.
Qed.

Lemma inv_clone_storage xg xs xw y v :
  sys_inv xg xs xw y v ->
  exists h' v', clone_storage (sys_heap y) = (Ret tt, h')
    /\ sys_inv xg (S xs) xw (set_heap h' y) v' /\ v_refs v' = v_refs v /\ v_spec v' = v_spec v
    /\ v_own v' = v_own v.
Proof.
  intros I. destruct (clone_storage_rel _ v (si_heap _ _ _ _ _ I)) as (h' & Hc & R).
  exists h', (with_storage (S (v_storage v)) v). split; [done|]. split; [|done]. eapply inv_refs_change; [done|exact R|try done..].
  - apply I.
  - cbn. rewrite (si_storage _ _ _ _ _ I). lia.
  - apply I.
Qed.

Lemma inv_release_storage xg xs xw y v :
  sys_inv xg (S xs) xw y v ->
  exists h' v', release_storage (sys_heap y) = (Ret tt, h')
    /\ sys_inv xg xs xw (set_heap h' y) v'.
Proof.
  intros I. pose proof (si_storage _ _ _ _ _ I) as Hs. cbn in Hs.
  destruct (release_storage_rel _ v _ (si_heap _ _ _ _ _ I) Hs) as (h' & Hc & R).
  eexists h', _. split; [done|]. eapply inv_refs_change; [done|exact R|try done..]; apply I.
Qed.

Lemma inv_release_writer xg xs xw y v :
  sys_inv xg xs (S xw) y v ->
  exists h' v', release_writer (sys_heap y) = (Ret tt, h')
    /\ sys_inv xg xs xw (set_heap h' y) v'.
Proof.
  intros I. pose proof (si_writer _ _ _ _ _ I) as Hs. cbn in Hs.
  destruct (release_writer_rel _ v _ (si_heap _ _ _ _ _ I) Hs) as (h' & Hc & R).
  eexists h', _. split; [done|]. eapply inv_refs_change; [done|exact R|try done..]; apply I.
Qed.

Lemma tasks_ok_refs ts lo ph g : tasks_ok ts lo ph -> g ∈ task_refs ts -> g = lo /\ ts = [TRelease lo].
Proof.
  destruct ph; cbn; intros H; [destruct H|..]; subst ts; cbn; intros Hg;
    rewrite ?elem_of_nil, ?list_elem_of_singleton in Hg; naive_solver.
Qed.

Lemma add_task_None (y : sys) : add_task None y = y.
Proof. destruct y. unfold add_task, set_tasks; cbn. by rewrite app_nil_r. Qed.

(** Releasing a reference that the call holds. *)
Lemma inv_start_release xg xs xw y v g :
  sys_inv (g :: xg) xs xw y v ->
  exists t h' v', start_release g (sys_heap y) = (Ret t, h')
    /\ sys_inv xg xs xw (add_task t (set_heap h' y)) v'
    /\ v_lo v' = v_lo v /\ v_spec v' = v_spec v /\ v_own v' = v_own v
    /\ (g ∈ xg ++ sys_refs y -> t = None).
Proof.
  intros I. pose proof (heap_rel_perm _ v _ (si_heap _ _ _ _ _ I) (si_refs _ _ _ _ _ I)) as R.
  cbn in R. destruct (release_gen_rel _ _ g (xg ++ sys_refs y) R eq_refl) as (h' & Hc & R').
  eexists _, h', (released g (xg ++ sys_refs y) (with_refs (g :: xg ++ sys_refs y) v)).2.
  split; [exact Hc|]. split; [|]. 2:{ unfold released; cbn; case_decide; cbn; repeat split; naive_solver. }
  unfold released in *; cbn [v_lo with_refs] in *.
  pose proof (si_tasks _ _ _ _ _ I) as Ht.
  destruct (decide (g = v_lo v /\ g ∉ xg ++ sys_refs y)) as [[-> Hnin]|Hlive]; cbn in R' |- *.
  - (* the task list was empty *)
    assert (v_phase v = Idle) as Hidle.
    { apply (hr_phase _ _ (si_heap _ _ _ _ _ I)). rewrite (si_refs _ _ _ _ _ I). by left. }
    assert (sys_tasks y = []) as Hts.
    { rewrite Hidle in Ht. destruct Ht as [?|Ht]; [done|]. exfalso. apply Hnin.
      apply elem_of_app. right. unfold sys_refs. rewrite Ht. cbn. set_solver. }
    destruct I. constructor; cbn; try done.
    + unfold sys_refs; cbn. by rewrite Hts.
    + by rewrite Hts.
  - rewrite add_task_None. destruct I. by constructor.
Qed.

(** Linking a new generation and making it current. *)
Lemma inv_advance xg xs xw y v r :
  sys_inv xg xs xw y v -> sys_rcu y = Some r -> sys_borrow y = BNone ->
  exists h' v' r', advance_link r (sys_heap y) = (Ret r', h')
    /\ cur_gen r' = S (cur_gen r) /\ rcu_capacity r' = rcu_capacity r
    /\ v_spec v' = v_spec v /\ v_own v' = v_own v
    /\ sys_inv (cur_gen r :: xg) xs xw (set_rcu (Some r') (set_heap h' y)) v'.
Proof.
  intros I Hr Hb. pose proof (si_cur _ _ _ _ _ I r Hr) as Hcur.
  destruct (advance_link_rel _ v r (si_heap _ _ _ _ _ I)) as (h' & Hc & R); [|done|].
  { rewrite (si_refs _ _ _ _ _ I). unfold sys_refs. rewrite Hr. cbn. set_solver. }
  eexists h', (with_range (v_lo v) (S (v_next v)) (with_refs (v_next v :: v_refs v) v)), _.
  split; [done|]. split; [done|]. split; [done|]. split; [done|]. split; [done|].
  destruct I. unfold handles in *. rewrite Hr in *. constructor; cbn; try done.
  - rewrite si_refs0. unfold sys_refs; cbn. rewrite Hr; cbn. solve_Permutation.
  - by intros r' [= <-].
  - unfold borrow_ok; cbn. by rewrite Hb.
Qed.

(** ** Changes of the slab *)

(** Marking a present item, through a reference to a generation that is no
    earlier than those of the readers. *)
Lemma inv_mark xg xs xw y v g i t :
  sys_inv xg xs xw y v -> g ∈ v_refs v -> 0 <= i -> present (v_spec v) !! i = Some t ->
  sys_borrow y = BNone -> (forall rd, rd ∈ sys_readers y -> (r_gen rd <= g)%nat) ->
  exists h' v', gen_mark_removed g i (sys_heap y) = (Ret tt, h')
    /\ v_spec v' = marked_spec (v_spec v) i t /\ v_refs v' = v_refs v
    /\ sys_inv xg xs xw (set_heap h' y) v'.
Proof.
  intros I Hg Hi Ht Hb Hle.
  destruct (gen_mark_removed_rel _ v g i t (si_heap _ _ _ _ _ I) Hg Hi Ht) as (h' & Hm & R).
  exists h', (with_own (<[i := g]> (v_own v)) (with_spec (marked_spec (v_spec v) i t) v)).
  split; [done|]. split; [done|]. split; [done|].
  destruct (hr_slab _ _ (si_heap _ _ _ _ _ I)) as (s & _ & Ha).
  destruct (abs_wf s _ Ha) as (_ & Hd & _).
  assert (pending (v_spec v) !! i = None) as Hp by (by eapply map_disjoint_Some_l).
  assert (v_own v !! i = None) as Ho.
  { apply eq_None_not_Some. rewrite (hr_pending _ _ (si_heap _ _ _ _ _ I)), Hp. by intros []. }
  destruct I. constructor; cbn; try done.
  - intros rd Hrd j x Hj. cbn. destruct (si_seen0 rd Hrd j x Hj) as [Hpos Hx]. split; [done|].
    destruct (decide (j = i)) as [->|Hne].
    + right. rewrite !lookup_insert_eq. split; [|by eauto].
      destruct Hx as [Hx|[Hx _]]; congruence.
    + rewrite lookup_delete_ne, !lookup_insert_ne by done. done.
  - unfold borrow_ok; cbn. by rewrite Hb.
  - rewrite si_items0, items_insert, (items_delete (present (v_spec v)) i t) by done.
    solve_Permutation.
Qed.

(** Marking anything else panics, and poisons the lock. *)
Lemma mark_absent h v g i :
  heap_rel h v -> 0 <= i -> present (v_spec v) !! i = None ->
  gen_mark_removed g i h = (Panic, set_poisoned h).
Proof.
  intros R Hi Hp. destruct (hr_slab _ _ R) as (s & Hs & Ha).
  pose proof (abs_mark s _ i Ha Hi) as Hm. unfold spec_mark in Hm. rewrite Hp in Hm. cbn in Hm.
  unfold gen_mark_removed, lock_writer. cbv [mbind stateful_bind].
  by rewrite Hs, (hr_poisoned _ _ R), Hm.
Qed.

(** Insertion, under the lock. *)
Definition inserted_spec (a : slab_spec T) (i : Z) (t : T) (l : list Z) : slab_spec T :=
  mkSpec (sp_cap a) (<[i := t]> (present a)) (pending a) l.

Lemma inv_inserted xg xs xw y v i t l h' :
  sys_inv xg xs xw y v -> free (v_spec v) = i :: l -> sys_borrow y = BNone ->
  heap_rel h' (with_spec (inserted_spec (v_spec v) i t l) v) ->
  sys_inv xg xs xw (add_inserted t (set_heap h' y)) (with_spec (inserted_spec (v_spec v) i t l) v).
Proof.
  intros I Hf Hb R. destruct (hr_slab _ _ (si_heap _ _ _ _ _ I)) as (s & _ & Ha).
  destruct (abs_wf s _ Ha) as (_ & _ & _ & _ & Hfree).
  destruct (Hfree i) as [Hp Hq]; [rewrite Hf; by left|].
  destruct I. constructor; cbn; try done.
  - intros rd Hrd j x Hj. cbn. destruct (si_seen0 rd Hrd j x Hj) as [Hpos Hx]. split; [done|].
    assert (j <> i) by (intros ->; destruct Hx as [Hx|[Hx _]]; congruence).
    by rewrite lookup_insert_ne.
  - unfold borrow_ok; cbn. by rewrite Hb.
  - rewrite si_items0, items_insert by done. solve_Permutation.
Qed.

(** ** The steps of the drop of a generation *)

Lemma inv_finalize y v :
  sys_inv [] 0 0 y v -> sys_tasks y = [TFinalize (v_lo v)] ->
  (forall k, sys_borrow y <> BVacant k) ->
  exists h' v', task_step (TFinalize (v_lo v)) (sys_heap y) = (Ret (Some (TFree (v_lo v))), h')
    /\ sys_inv [] 0 0 (add_task (Some (TFree (v_lo v))) (set_tasks [] (set_heap h' y))) v'
    /\ present (v_spec v') = present (v_spec v) /\ v_own v' = disown (v_lo v) (v_own v).
Proof.
  intros I Hts Hb. pose proof (si_heap _ _ _ _ _ I) as R.
  assert (v_phase v = Finalizing) as Hph.
  { pose proof (si_tasks _ _ _ _ _ I) as Ht. rewrite Hts in Ht. destruct (v_phase v); [|done|done].
    by destruct Ht. }
  destruct (gen_drop_rel _ v R Hph) as (h' & l & ts & Hstep & R' & Hl & Hperm).
  exists h', (with_phase Freeing (with_dropped (v_dropped v ++ ts)
          (with_own (disown (v_lo v) (v_own v)) (with_spec (finalized_spec (v_spec v) l) v)))).
  split; [done|]. split; [|done].
  assert (v_lo v ∉ v_refs v) as Hlo by (rewrite (hr_phase _ _ R), Hph; done).
  assert (forall rd, rd ∈ sys_readers y -> r_gen rd <> v_lo v) as Hrd.
  { intros rd Hrd Heq. apply Hlo. rewrite (si_refs _ _ _ _ _ I), <- Heq. cbn. unfold sys_refs.
    apply elem_of_app. right. apply elem_of_app. left. by apply list_elem_of_fmap_2. }
  destruct I. constructor; cbn; try done.
  - rewrite si_refs0. unfold sys_refs; cbn. by rewrite Hts.
  - intros rd Hin j x Hj. cbn. destruct (si_seen0 rd Hin j x Hj) as [Hpos Hx]. split; [done|].
    destruct Hx as [Hx|(Hx & g & Hg & Hle)]; [by left|right].
    assert (v_lo v <= r_gen rd)%nat.
    { apply (hr_refs _ _ R). rewrite si_refs0. cbn. unfold sys_refs.
      apply elem_of_app. right. apply elem_of_app. left. by apply list_elem_of_fmap_2. }
    specialize (Hrd rd Hin). split.
    + apply map_lookup_filter_Some. split; [done|]. cbn. rewrite Hl, Hg. intros [= ->]. lia.
    + exists g. split; [|done]. apply map_lookup_filter_Some. split; [done|]. cbn. lia.
  - unfold borrow_ok in *; cbn. destruct (sys_borrow y) as [|k|it es]; [done|by destruct (Hb k)|].
    destruct si_borrow0 as (r & Hr & g & He & Hnd & Hle & Hit). exists r. split; [done|]. exists g.
    cbn. split; [done|]. split; [done|]. split; [done|]. destruct it as [im|]; [|done].
    destruct Hit as (? & Hok & Hrem & ?). repeat split; try done; try apply Hok.
  - rewrite si_items0, Hperm. unfold finalized_spec; cbn. solve_Permutation.
Qed.

Lemma inv_free y v :
  sys_inv [] 0 0 y v -> sys_tasks y = [TFree (v_lo v)] -> (S (v_lo v) < v_next v)%nat ->
  exists h' v', task_step (TFree (v_lo v)) (sys_heap y) = (Ret (Some (TRelease (S (v_lo v)))), h')
    /\ sys_inv [] 0 0 (add_task (Some (TRelease (S (v_lo v)))) (set_tasks [] (set_heap h' y))) v'
    /\ v_lo v' = S (v_lo v) /\ v_spec v' = v_spec v /\ v_own v' = v_own v.
Proof.
  intros I Hts Hlt. pose proof (si_heap _ _ _ _ _ I) as R.
  assert (v_phase v = Freeing) as Hph.
  { pose proof (si_tasks _ _ _ _ _ I) as Ht. rewrite Hts in Ht. destruct (v_phase v); [|done|done].
    by destruct Ht. }
  destruct (free_gen_rel _ v R Hph Hlt) as (h' & Hstep & R').
  exists h', (with_phase Idle (with_range (S (v_lo v)) (v_next v)
               (with_refs (S (v_lo v) :: v_refs v) v))).
  split; [done|]. split; [|done]. destruct I. constructor; cbn; try done.
  - rewrite si_refs0. unfold sys_refs; cbn. rewrite Hts. cbn. solve_Permutation.
  - by right.
Qed.

Lemma inv_free_last y v :
  sys_inv [] 0 0 y v -> sys_tasks y = [TFree (v_lo v)] -> S (v_lo v) = v_next v ->
  exists h', task_step (TFree (v_lo v)) (sys_heap y) = (Ret None, h')
    /\ sys_done (add_task None (set_tasks [] (set_heap h' y))).
Proof.
  intros I Hts Hlast. pose proof (si_heap _ _ _ _ _ I) as R.
  assert (v_phase v = Freeing) as Hph.
  { pose proof (si_tasks _ _ _ _ _ I) as Ht. rewrite Hts in Ht. destruct (v_phase v); [|done|done].
    by destruct Ht. }
  (* a reference would be to the oldest generation, which has none *)
  assert (sys_refs y = []) as Hnone.
  { destruct (sys_refs y) as [|g l] eqn:E; [done|]. exfalso.
    assert (g ∈ v_refs v) as Hg by (rewrite (si_refs _ _ _ _ _ I), E; by left).
    assert (g = v_lo v) as -> by (apply (hr_refs _ _ R) in Hg; lia).
    apply (hr_phase _ _ R) in Hg. congruence. }
  unfold sys_refs in Hnone. apply app_nil in Hnone as [Hrcu Hnone].
  apply app_nil in Hnone as [Hrd Hnone]. apply fmap_nil_inv in Hrd.
  assert (sys_rcu y = None) as Hr by (by destruct (sys_rcu y)).
  pose proof (si_storage _ _ _ _ _ I) as Hs. pose proof (si_writer _ _ _ _ _ I) as Hw.
  unfold handles in *. rewrite Hr in *. rewrite Hrd in Hs.
  destruct (free_last_rel _ v R Hph Hlast Hw Hs) as (h' & ts & Hstep & Hsl & Hg & Hd & Hts' & Hp).
  exists h'. split; [done|]. destruct I. constructor; cbn; try done.
  - unfold borrow_ok in si_borrow0. destruct (sys_borrow y); [done|..]; rewrite Hr in si_borrow0;
      [by destruct si_borrow0 as [[] _]|by destruct si_borrow0 as (? & ? & _)].
  - rewrite si_items0, Hd, Hts', Hp. unfold items at 2. rewrite map_to_list_empty. cbn.
    by rewrite Permutation_app_comm.
Qed.
End inv.
