(* ===== verification/RcuSafe.v ===== *)
(** Every call that a program can make on an [RcuCslab] returns what the slab's
    specification says and preserves the invariant. *)

From S2P Require Import Prelude CslabStorage Cslab SlabSpec SlabKeys CslabIter CslabIterProof SlabInterface.
From S2P Require Import RcuCslab RcuSystem RcuHeap RcuInv.

Section safe.
Context {W T : Type} {Ops : SlabOps W T} {Laws : SlabLaws W T}.
Abbreviation sys := (sys W T).
Abbreviation inv := (sys_inv [] 0 0).
Implicit Types (y : sys) (v : view T).

(** What a call answers. *)
Definition resp_ok y v (c : call T) (r : resp T) : Prop :=
  let a := v_spec v in
  match c with
  | CInsert _ | CVacantKey | CVacantEntry =>
      r = AKey (match free a with [] => Err tt | i :: _ => Ok i end)
  | CLen => r = ANum (Z.of_nat (base.size (present a)))
  | CAllocated =>
      r = ANum (Z.of_nat (base.size (present a)) + Z.of_nat (base.size (pending a)))
  | CGet i => r = AGet (present a !! i)
  | CVacantEntryKey | CVacantEntryInsert _ =>
      forall k, sys_borrow y = BVacant k -> r = AKey (Ok k)
  | CEntryDeref k => forall it es e, sys_borrow y = BMut it es -> es !! k = Some e ->
      exists t, present a !! e_idx e = Some t /\ r = AItem t
  | CReaderGet k i flag =>
      if flag then exists t, (present a ∪ pending a) !! i = Some t /\ r = AGet (Some t)
      else r = AGet None
  | CReaderGetUnchecked k i => forall rd t, sys_readers y !! k = Some rd -> r_seen rd !! i = Some t ->
      r = AItem t
  | _ => True
  end.

Definition good y v (c : call T) (res : outcome (resp T) * sys) : Prop :=
  exists r y', res = (Ret r, y') /\ resp_ok y v c r
    /\ ((exists v', inv y' v') \/ sys_done y').

Lemma run_on_Ret {A} y (m : stateful (heap W T) A) k x h :
  m (sys_heap y) = (Ret x, h) ->
  run_on y m k = (Ret (k x (set_heap h y)).1, (k x (set_heap h y)).2).
Proof. intros Hm. unfold run_on. rewrite Hm. by destruct (k x (set_heap h y)). Qed.

Lemma set_heap_id y : set_heap (sys_heap y) y = y.
Proof. by destruct y. Qed.

Lemma inv_slab y v : inv y v -> exists s, slab (sys_heap y) = Some s /\ slab_abs s (v_spec v).
Proof. intros I. apply (si_heap _ _ _ _ _ I). Qed.

(** Calls that only read. *)
Lemma good_read {A} y v c (m : stateful (heap W T) A) (k : A -> sys -> resp T * sys) x :
  inv y v -> m (sys_heap y) = (Ret x, sys_heap y) -> (k x y).2 = y -> resp_ok y v c (k x y).1 ->
  good y v c (run_on y m k).
Proof.
  intros I Hm Hk Hr. rewrite (run_on_Ret y m k x _ Hm), set_heap_id. eexists _, _.
  split; [done|]. split; [done|]. left. exists v. by rewrite Hk.
Qed.

Lemma lock_read {A} y v (f : W -> A) : inv y v ->
  exists s, slab_abs s (v_spec v)
    /\ lock_writer (fun s => Ret (f s, s)) (sys_heap y) = (Ret (f s), sys_heap y).
Proof.
  intros I. destruct (inv_slab y v I) as (s & Hs & Ha). exists s. split; [done|].
  by apply (lock_writer_read _ v), Hs; apply (si_heap _ _ _ _ _ I).
Qed.

Lemma vacant_key_call y v : inv y v ->
  rcu_vacant_key (sys_heap y)
    = (Ret (match free (v_spec v) with [] => Err tt | i :: _ => Ok i end), sys_heap y).
Proof.
  intros I. destruct (lock_read y v slab_vacant_key I) as (s & Ha & Hl).
  unfold rcu_vacant_key. by rewrite Hl, (abs_vacant_key s _ Ha).
Qed.

Lemma get_unchecked_call y v i t : inv y v ->
  present (v_spec v) !! i = Some t \/ pending (v_spec v) !! i = Some t ->
  reader_get_unchecked i (sys_heap y) = (Ret t, sys_heap y).
Proof.
  intros I Ht. destruct (inv_slab y v I) as (s & Hs & Ha).
  apply (read_storage_rel _ _ s); [done|]. by apply (abs_get_unchecked s (v_spec v)).
Qed.

(** Insertion under the lock, when a slot is free. *)
Lemma insert_call y v t i l : inv y v -> free (v_spec v) = i :: l ->
  exists s s' h', slab (sys_heap y) = Some s /\ slab_insert s t = Ret (Ok i, s')
    /\ poisoned (sys_heap y) = false /\ h' = set_slab (Some s') (sys_heap y)
    /\ heap_rel h' (with_spec (inserted_spec (v_spec v) i t l) v).
Proof.
  intros I Hf. destruct (inv_slab y v I) as (s & Hs & Ha).
  pose proof (abs_insert s _ t Ha) as Hi. unfold spec_insert in Hi. rewrite Hf in Hi.
  destruct Hi as (s' & Hi & Ha'). exists s, s', (set_slab (Some s') (sys_heap y)).
  split; [done|]. split; [done|]. split; [by apply (si_heap _ _ _ _ _ I)|]. split; [done|].
  destruct (lock_writer_rel _ v (fun s => slab_insert s t) s _ s' _ (si_heap _ _ _ _ _ I) Hs Hi Ha')
    as (h' & Hl & R'); [done|].
  unfold lock_writer in Hl. rewrite Hs, (hr_poisoned _ _ (si_heap _ _ _ _ _ I)), Hi in Hl.
  by injection Hl as <-.
Qed.

Lemma good_insert y v t : inv y v -> sys_borrow y = BNone ->
  good y v (CInsert t) (run_on y (rcu_insert t) (fun k y' =>
    (AKey k, match k with Ok _ => add_inserted t y' | Err _ => y' end))).
Proof.
  intros I Hb. destruct (free (v_spec v)) as [|i l] eqn:Hf.
  - destruct (inv_slab y v I) as (s & Hs & Ha).
    pose proof (abs_insert s _ t Ha) as Hi. unfold spec_insert in Hi. rewrite Hf in Hi.
    apply (good_read y v _ _ _ (Err tt)); [done| |done|cbn; by rewrite Hf].
    unfold rcu_insert, lock_writer. rewrite Hs, (hr_poisoned _ _ (si_heap _ _ _ _ _ I)), Hi.
    by rewrite set_slab_id.
  - destruct (insert_call y v t i l I Hf) as (s & s' & h' & Hs & Hi & Hp & -> & R).
    erewrite run_on_Ret; [|unfold rcu_insert, lock_writer; by rewrite Hs, Hp, Hi].
    eexists _, _. split; [done|]. split; [cbn; by rewrite Hf|]. left. eexists. by apply inv_inserted.
Qed.

Lemma good_vacant_insert y v t k : inv y v -> sys_borrow y = BVacant k ->
  good y v (CVacantEntryInsert t) (run_on y (vacant_rcu_entry_insert t) (fun k y' =>
    (AKey (Ok k), set_borrow BNone (add_inserted t y')))).
Proof.
  intros I Hb. pose proof (si_borrow _ _ _ _ _ I) as Hv. unfold borrow_ok in Hv. rewrite Hb in Hv.
  destruct Hv as [_ Hf]. destruct (free (v_spec v)) as [|i l] eqn:Ef; [done|]. injection Hf as ->.
  destruct (insert_call y v t k l I Ef) as (s & s' & h' & Hs & Hi & Hp & -> & R).
  erewrite run_on_Ret.
  2:{ unfold vacant_rcu_entry_insert, lock_writer. by rewrite Hs, Hp, Hi. }
  eexists _, _. split; [done|]. split; [cbn; intros k'; rewrite Hb; by intros [= ->]|]. left. eexists.
  apply (inv_inserted _ _ _ (set_borrow BNone y) v k t l); [|done|done|done].
  destruct I. constructor; cbn; try done. rewrite si_refs. unfold sys_refs; cbn. by rewrite Hb.
Qed.

(** ** Calls on readers *)

(** Cloning a reference to the storage and one to a generation. *)
Lemma reader_clone_call xg xs xw y v g :
  sys_inv xg xs xw y v -> g ∈ v_refs v ->
  exists h' v', reader_clone g (sys_heap y) = (Ret g, h')
    /\ sys_inv (g :: xg) (S xs) xw (set_heap h' y) v' /\ v_spec v' = v_spec v /\ v_own v' = v_own v.
Proof.
  intros I Hg. destruct (inv_clone_storage _ _ _ y v I) as (h1 & v1 & H1 & I1 & Hr & Hv1 & Ho1).
  destruct (inv_clone_gen _ _ _ _ v1 g I1) as (h2 & v2 & H2 & I2 & Hv2 & Ho2); [by rewrite Hr|].
  exists h2, v2. split; [|split; [exact I2|by rewrite Hv2, Ho2]]. unfold reader_clone.
  by rewrite (stateful_bind_Ret _ _ _ _ _ H1), (stateful_bind_Ret _ _ _ _ _ H2).
Qed.

Lemma reader_ref xg xs xw y v k rd :
  sys_inv xg xs xw y v -> sys_readers y !! k = Some rd -> r_gen rd ∈ v_refs v.
Proof.
  intros I Hk. rewrite (si_refs _ _ _ _ _ I), (refs_reader y k rd Hk). set_solver.
Qed.

Lemma good_reader_clone y v k rd : inv y v -> sys_readers y !! k = Some rd ->
  good y v (CReaderClone k)
    (run_on y (reader_clone (r_gen rd)) (fun g y' => (AUnit, add_reader g y'))).
Proof.
  intros I Hk. destruct (reader_clone_call _ _ _ y v (r_gen rd) I) as (h & v' & Hm & I' & _).
  { by eapply reader_ref. }
  erewrite run_on_Ret by exact Hm. eexists _, _. split; [done|]. split; [done|]. left. exists v'.
  apply put_reader; [done|]. cbn. destruct (sys_borrow y); [done..|]. exists rd.
  split; [by eapply list_elem_of_lookup_2|done].
Qed.

Lemma good_reader_drop y v k rd : inv y v -> sys_readers y !! k = Some rd ->
  good y v (CReaderDrop k)
    (run_on y (_ ← reader_drop_storage; start_release (r_gen rd))
      (fun t y' => (AUnit, add_task t (set_readers (delete k (sys_readers y)) y')))).
Proof.
  intros I Hk. pose proof (take_reader _ _ _ _ _ _ _ I Hk) as I0.
  destruct (inv_release_storage _ _ _ _ _ I0) as (h1 & v1 & H1 & I1).
  destruct (inv_start_release _ _ _ _ _ _ I1) as (t & h2 & v2 & H2 & I2 & _).
  erewrite run_on_Ret.
  2:{ unfold reader_drop_storage. rewrite (stateful_bind_Ret _ _ _ _ _ H1). exact H2. }
  eexists _, _. split; [done|]. split; [done|]. left. exists v2. exact I2.
Qed.

(** A set flag means that the item is there, whether the load was stale or not. *)
Lemma may_load_item y v k rd i :
  inv y v -> sys_readers y !! k = Some rd -> 0 <= i ->
  may_load (sys_heap y) (r_gen rd) i true = true ->
  exists t, present (v_spec v) !! i = Some t
    \/ (pending (v_spec v) !! i = Some t /\ exists g, v_own v !! i = Some g /\ (r_gen rd <= g)%nat).
Proof.
  intros I Hk Hi Hl. pose proof (si_heap _ _ _ _ _ I) as R.
  destruct (inv_slab y v I) as (s & Hs & Ha). unfold may_load in Hl. cbn [negb orb] in Hl.
  rewrite Hs, (abs_contains_key s _ i Ha Hi) in Hl. apply orb_true_iff in Hl as [Hl|Hl].
  - apply bool_decide_eq_true in Hl as [t Ht]. eauto.
  - apply bool_decide_eq_true, Exists_exists in Hl as ([g n] & Hgn & Hle & Hin).
    apply elem_of_map_to_list in Hgn. cbn in *.
    assert (v_own v !! i = Some g) as Hg.
    { apply (hr_own _ _ R). exists n. split; [done|]. split; [done|]. intros [Hf ->].
      pose proof (reader_ref _ _ _ _ _ _ _ I Hk) as Hr.
      assert (r_gen rd = v_lo v) as Heq by (apply (hr_refs _ _ R) in Hr; lia).
      rewrite Heq in Hr. apply (hr_phase _ _ R) in Hr. congruence. }
    destruct (proj1 (hr_pending _ _ R i)) as [t Ht]; [by eexists|]. exists t. right. eauto.
Qed.

Lemma good_reader_get y v k rd i : inv y v -> sys_readers y !! k = Some rd -> 0 <= i ->
  may_load (sys_heap y) (r_gen rd) i true = true ->
  good y v (CReaderGet k i true)
    (run_on y (reader_get_unchecked i) (fun t y' =>
      (AGet (Some t),
       set_readers (<[k := mkReader (r_gen rd) (<[i := t]> (r_seen rd))]> (sys_readers y)) y'))).
Proof.
  intros I Hk Hi Hl. destruct (may_load_item y v k rd i I Hk Hi Hl) as (t & Ht).
  erewrite run_on_Ret by (apply (get_unchecked_call y v i t I); naive_solver).
  rewrite set_heap_id. eexists _, _. split; [done|]. split.
  { cbn. exists t. split; [|done]. apply lookup_union_Some.
    - destruct (inv_slab y v I) as (s & _ & Ha). apply (abs_wf s _ Ha).
    - naive_solver. }
  left. exists v. destruct I. constructor; cbn; try done.
  - rewrite si_refs. unfold sys_refs; cbn. rewrite list_fmap_insert. cbn.
    by rewrite list_insert_id by (by rewrite list_lookup_fmap, Hk).
  - unfold handles in *; cbn. by rewrite length_insert.
  - intros rd' Hrd. apply list_elem_of_lookup in Hrd as [k' Hk'].
    apply list_lookup_insert_Some in Hk' as [(-> & <- & _)|[_ Hk']].
    2:{ apply si_seen. by eapply list_elem_of_lookup_2. }
    intros j x. cbn. intros [[<- <-]|[Hne Hj]]%lookup_insert_Some; [done|].
    by apply (si_seen rd); [eapply list_elem_of_lookup_2|].
  - unfold borrow_ok in *; cbn. destruct (sys_borrow y); [done..|].
    destruct si_borrow as (r' & ? & g & ? & ? & Hle & ?). exists r'. split; [done|]. exists g.
    repeat (split; [done|]). split; [|done]. intros rd' Hrd.
    apply list_elem_of_lookup in Hrd as [k' Hk'].
    apply list_lookup_insert_Some in Hk' as [(-> & <- & _)|[_ Hk']]; cbn;
      apply Hle; by eapply list_elem_of_lookup_2.
Qed.
End safe.
