(* ===== verification/RcuSafeMut.v ===== *)
(** The calls of the writer that make generations, iterate or remove; and the
    safety of every call. *)

From S2P Require Import Prelude CslabStorage Cslab SlabSpec SlabKeys CslabIter CslabIterProof SlabInterface.
From S2P Require Import RcuCslab RcuSystem RcuHeap RcuInv RcuSafe.

Section safe.
Context {W T : Type} {Ops : SlabOps W T} {Laws : SlabLaws W T}.
Abbreviation sys := (sys W T).
Abbreviation inv := (sys_inv [] 0 0).
Implicit Types (y : sys) (v : view T).

Lemma handle_ref xg xs xw y v r : sys_inv xg xs xw y v -> sys_rcu y = Some r -> cur_gen r ∈ v_refs v.
Proof.
  intros I Hr. rewrite (si_refs _ _ _ _ _ I). unfold sys_refs. rewrite Hr. cbn. set_solver.
Qed.

(** No reader is later than the current generation. *)
Lemma readers_le_cur xg xs xw y v r rd :
  sys_inv xg xs xw y v -> sys_rcu y = Some r -> rd ∈ sys_readers y -> (r_gen rd <= cur_gen r)%nat.
Proof.
  intros I Hr Hrd. pose proof (si_cur _ _ _ _ _ I r Hr).
  assert (r_gen rd ∈ v_refs v) as Hin.
  { rewrite (si_refs _ _ _ _ _ I). unfold sys_refs. apply elem_of_app. right.
    apply elem_of_app. right. apply elem_of_app. left. by apply list_elem_of_fmap_2. }
  apply (hr_refs _ _ (si_heap _ _ _ _ _ I)) in Hin. lia.
Qed.

Lemma good_mark y v r i t : inv y v -> sys_rcu y = Some r -> sys_borrow y = BNone -> 0 <= i ->
  present (v_spec v) !! i = Some t ->
  good y v (CMarkRemoved i) (run_on y (rcu_mark_removed r i) (fun _ y' => (AUnit, y'))).
Proof.
  intros I Hr Hb Hi Ht. destruct (inv_mark _ _ _ y v (cur_gen r) i t I) as (h & v' & Hm & _ & _ & I');
    [by eapply handle_ref|done..|by intros; eapply readers_le_cur|].
  erewrite run_on_Ret by exact Hm. eexists _, _. split; [done|]. split; [done|]. left. by exists v'.
Qed.

Lemma reader_call xg xs xw y v r : sys_inv xg xs xw y v -> sys_rcu y = Some r -> sys_borrow y = BNone ->
  exists h v', rcu_reader r (sys_heap y) = (Ret (cur_gen r), h)
    /\ sys_inv xg xs xw (add_reader (cur_gen r) (set_heap h y)) v' /\ v_spec v' = v_spec v
    /\ v_own v' = v_own v.
Proof.
  intros I Hr Hb. destruct (reader_clone_call _ _ _ y v (cur_gen r) I) as (h & v' & Hm & I' & Hv & Ho).
  { by eapply handle_ref. }
  exists h, v'. split; [done|]. split; [|done]. apply put_reader; [done|]. cbn. by rewrite Hb.
Qed.

Lemma good_reader y v r : inv y v -> sys_rcu y = Some r -> sys_borrow y = BNone ->
  good y v CReader (run_on y (rcu_reader r) (fun g y' => (AUnit, add_reader g y'))).
Proof.
  intros I Hr Hb. destruct (reader_call _ _ _ y v r I Hr Hb) as (h & v' & Hm & I' & _).
  erewrite run_on_Ret by exact Hm. eexists _, _. split; [done|]. split; [done|]. left. by exists v'.
Qed.

Lemma good_schedule y v r : inv y v -> sys_rcu y = Some r -> sys_borrow y = BNone ->
  good y v CSchedule (run_on y
    (r' ← advance_link r; t ← start_release (cur_gen r); g ← rcu_reader r'; mret (r', t, g))
    (fun '(r', t, g) y' => (AUnit, add_reader g (add_task t (set_rcu (Some r') y'))))).
Proof.
  intros I Hr Hb. destruct (inv_advance _ _ _ y v r I Hr Hb) as (h1 & v1 & r' & H1 & _ & _ & _ & _ & I1).
  destruct (inv_start_release _ _ _ _ _ _ I1) as (t & h2 & v2 & H2 & I2 & _).
  destruct (reader_call _ _ _ _ v2 r' I2) as (h3 & v3 & H3 & I3 & _); [done..|].
  erewrite run_on_Ret.
  2:{ rewrite (stateful_bind_Ret _ _ _ _ _ H1), (stateful_bind_Ret _ _ _ _ _ H2),
        (stateful_bind_Ret _ _ _ _ _ H3). reflexivity. }
  eexists _, _. split; [done|]. split; [done|]. left. exists v3. exact I3.
Qed.

Lemma good_drop_rcu y v r : inv y v -> sys_rcu y = Some r -> sys_borrow y = BNone ->
  good y v CDropRcu (run_on y (_ ← rcu_drop_handles; start_release (cur_gen r))
      (fun t y' => (AUnit, add_task t (set_rcu None y')))).
Proof.
  intros I Hr Hb. pose proof (drop_handle _ _ _ _ _ _ I Hr Hb) as I0.
  destruct (inv_release_writer _ _ _ _ _ I0) as (h1 & v1 & H1 & I1).
  destruct (inv_release_storage _ _ _ _ _ I1) as (h2 & v2 & H2 & I2).
  destruct (inv_start_release _ _ _ _ _ _ I2) as (t & h3 & v3 & H3 & I3 & _).
  erewrite run_on_Ret.
  2:{ unfold rcu_drop_handles.
      assert ((_ ← release_writer; release_storage) (sys_heap y) = (Ret (), h2)) as H12
        by (rewrite (stateful_bind_Ret _ _ _ _ _ H1); exact H2).
      rewrite (stateful_bind_Ret _ _ _ _ _ H12). exact H3. }
  eexists _, _. split; [done|]. split; [done|]. left. exists v3. exact I3.
Qed.

Lemma good_vacant y v r : inv y v -> sys_rcu y = Some r -> sys_borrow y = BNone ->
  good y v CVacantEntry (run_on y rcu_vacant_key (fun k y' =>
    (AKey k, match k with Ok i => set_borrow (BVacant i) y' | Err _ => y' end))).
Proof.
  intros I Hr Hb. erewrite run_on_Ret by (by apply vacant_key_call). rewrite set_heap_id.
  eexists _, _. split; [done|]. split; [done|]. left. exists v. cbn.
  destruct (free (v_spec v)) as [|i l] eqn:Hf; [done|]. destruct I. constructor; cbn; try done.
  - rewrite si_refs. unfold sys_refs; cbn. by rewrite Hb.
  - unfold borrow_ok; cbn. rewrite Hf. split; [by eexists|done].
Qed.

Lemma good_vacant_drop y v k : inv y v -> sys_borrow y = BVacant k ->
  good y v CVacantEntryDrop (Ret AUnit, set_borrow BNone y).
Proof.
  intros I Hb. eexists _, _. split; [done|]. split; [done|]. left. exists v.
  destruct I. constructor; cbn; try done.
  rewrite si_refs. unfold sys_refs; cbn. by rewrite Hb.
Qed.

(** ** Iterating and removing *)

Lemma good_iter_mut y v r : inv y v -> sys_rcu y = Some r -> sys_borrow y = BNone ->
  good y v CIterMut
    (run_on y rcu_iter_mut (fun im y' => (AUnit, set_borrow (BMut (Some im) []) y'))).
Proof.
  intros I Hr Hb. destruct (inv_slab y v I) as (s & Hs & Ha).
  destruct (abs_iter_new s _ Ha) as (it & Hit & Hok & Hkeys).
  destruct (lock_read y v slab_len I) as (s' & Ha' & Hlen).
  erewrite run_on_Ret.
  2:{ unfold rcu_iter_mut, rcu_len. rewrite (stateful_bind_Ret _ _ _ _ _ Hlen).
      rewrite (stateful_bind_Ret _ _ _ _ _ (read_storage_rel _ _ s it Hs Hit)). reflexivity. }
  rewrite set_heap_id. eexists _, _. split; [done|]. split; [done|]. left. exists v. cbn.
  apply (put_entries _ _ _ y v (Some (mkIterMut it (slab_len s'))) [] r); [done..|].
  exists (cur_gen r). split; [by intros e ?%elem_of_nil|]. split; [constructor|].
  split; [by intros; eapply readers_le_cur|]. split; [done|]. split; [done|]. cbn.
  split; [|by intros e ?%elem_of_nil]. rewrite (abs_len s' _ Ha'), Hkeys.
  rewrite <- length_map_to_list, <- (items_at_all (v_spec v) (abs_wf s _ Ha)).
  rewrite <- (length_fmap fst (items_at _ _)), items_at_keys; [done|].
  intros i. by intros [Hi _]%elem_of_keys_in.
Qed.

(** What [next] or [next_back] of the slab's iterator leaves. *)
Definition pulled (a : slab_spec T) (it : iter) (r : yielded T) : Prop :=
  match r with
  | (None, it') => iter_ok a it' /\ keys_in a (it_head it') (it_tail it') = []
      /\ keys_in a (it_head it) (it_tail it) = []
      /\ it_head it <= it_head it' /\ it_tail it' <= it_tail it
  | (Some (i, t), it') => iter_ok a it' /\ present a !! i = Some t
      /\ length (keys_in a (it_head it) (it_tail it))
         = S (length (keys_in a (it_head it') (it_tail it')))
      /\ it_head it <= i < it_tail it /\ ~ (it_head it' <= i < it_tail it')
      /\ it_head it <= it_head it' /\ it_tail it' <= it_tail it
      /\ (forall j, j ∈ keys_in a (it_head it) (it_tail it) ->
            j = i \/ j ∈ keys_in a (it_head it') (it_tail it'))
  end.

Lemma front_pulled a it r : iter_ok a it -> front_result a it r -> pulled a it r.
Proof.
  intros [Hh Ht] Hf. unfold front_result in Hf.
  destruct (keys_in a (it_head it) (it_tail it)) as [|i l] eqn:Hk.
  - subst r. unfold pulled, iter_ok; cbn. rewrite keys_in_nil by (intros; lia).
    repeat split; try done; lia.
  - destruct Hf as (x & Hx & -> & Hi & Hl). unfold pulled, iter_ok; cbn.
    rewrite Hk, Hl. repeat split; try done; try lia. intros j. by rewrite elem_of_cons.
Qed.

Lemma back_pulled a it r : iter_ok a it -> back_result a it r -> pulled a it r.
Proof.
  intros [Hh Ht] Hf. unfold back_result in Hf.
  destruct (last (keys_in a (it_head it) (it_tail it))) as [i|] eqn:Hk.
  - destruct Hf as (x & Hx & -> & Hi & Hl). unfold pulled, iter_ok; cbn.
    rewrite Hl, length_app. cbn. repeat split; try done; try lia.
    intros j. rewrite elem_of_app, list_elem_of_singleton. naive_solver.
  - apply last_None in Hk. subst r. unfold pulled, iter_ok; cbn.
    rewrite (keys_in_nil a (it_head it) (it_head it)) by (intros; lia).
    repeat split; try done; lia.
Qed.

Lemma pull_call y v r im front : inv y v ->  iter_ok (v_spec v) (im_iter im) ->
  exists p, pulled (v_spec v) (im_iter im) p
    /\ (if (front : bool) then iter_mut_next r im else iter_mut_next_back r im) (sys_heap y)
       = iter_mut_yield (cur_gen r) im p (sys_heap y).
Proof.
  intros I Hok. destruct (inv_slab y v I) as (s & Hs & Ha). destruct front.
  - destruct (abs_iter_next s _ (im_iter im) Ha Hok) as (p & Hp & Hf).
    exists p. split; [by apply front_pulled|]. unfold iter_mut_next.
    by rewrite (stateful_bind_Ret _ _ _ _ _ (read_storage_rel _ _ s p Hs Hp)).
  - destruct (abs_iter_next_back s _ (im_iter im) Ha Hok) as (p & Hp & Hf).
    exists p. split; [by apply back_pulled|]. unfold iter_mut_next_back.
    by rewrite (stateful_bind_Ret _ _ _ _ _ (read_storage_rel _ _ s p Hs Hp)).
Qed.

Lemma good_iter_next y v r im es front :
  inv y v -> sys_rcu y = Some r -> sys_borrow y = BMut (Some im) es ->
  good y v (CIterNext front)
    (run_on y (if (front : bool) then iter_mut_next r im else iter_mut_next_back r im)
      (fun '(e, im') y' => (AEntry e, set_borrow (BMut (Some im') (es ++ option_list e)) y'))).
Proof.
  intros I Hr Hb. pose proof (si_borrow _ _ _ _ _ I) as Hbo. unfold borrow_ok in Hbo.
  rewrite Hb in Hbo. destruct Hbo as (r' & Hr' & g & He & Hnd & Hle & Hg & Hok & Hrem & Hdisj).
  rewrite Hr in Hr'. injection Hr' as <-. subst g.
  destruct (pull_call y v r im front I Hok) as ([[[i t]|] it] & Hp & Hm).
  - destruct Hp as (Hok' & Ht & Hlen & Hi & Hni & Hh & Htl & _).
    pose proof (take_entries _ _ _ _ _ _ _ I Hb) as I0.
    destruct (inv_clone_gen _ _ _ (set_borrow BNone y) v (cur_gen r) I0) as (h & v' & Hc & I' & Hv & _).
    { by eapply handle_ref. }
    unfold iter_mut_yield in Hm. rewrite Hrem, Hlen, sub_u_Ret in Hm by lia.
    assert (fail (Ret (Z.of_nat (S (length (keys_in (v_spec v) (it_head it) (it_tail it)))) - 1))
              (sys_heap y)
            = (Ret (Z.of_nat (length (keys_in (v_spec v) (it_head it) (it_tail it)))), sys_heap y)) as Hsub1
      by (unfold fail; do 2 f_equal; lia).
    rewrite (stateful_bind_Ret _ _ _ _ _ Hsub1), (stateful_bind_Ret _ _ _ _ _ Hc) in Hm.
    erewrite run_on_Ret by exact Hm. eexists _, _. split; [done|]. split; [done|]. left. exists v'.
    apply (put_entries _ _ _ (set_heap h (set_borrow BNone y)) v' (Some (mkIterMut it _))
             (es ++ [mkEntry i (cur_gen r)]) r); [|done..|].
    { eapply sys_inv_perm; [exact I'|]. rewrite fmap_app. cbn. solve_Permutation. }
    exists (cur_gen r). cbn. rewrite Hv. split.
    { intros e [He'| ->%list_elem_of_singleton]%elem_of_app; [by apply He|].
      split; [done|]. by eexists. }
    split.
    { rewrite fmap_app. apply NoDup_app. split; [done|]. split; [|apply NoDup_singleton].
      intros j (e & -> & Hin)%list_elem_of_fmap Heq%list_elem_of_singleton.
      apply (Hdisj e Hin). by rewrite Heq. }
    split; [done|]. split; [done|]. split; [done|]. split; [done|].
    intros e [He'| ->%list_elem_of_singleton]%elem_of_app; [|done].
    intros ?. apply (Hdisj e He'). lia.
  - destruct Hp as (Hok' & Hnil & Hnil' & Hsub). unfold iter_mut_yield in Hm. cbn in Hm.
    erewrite run_on_Ret by exact Hm. rewrite set_heap_id.
    eexists _, _. split; [done|]. split; [done|]. left. exists v. cbn. rewrite app_nil_r.
    pose proof (take_entries _ _ _ _ _ _ _ I Hb) as I0.
    apply (put_entries _ _ _ (set_borrow BNone y) v (Some (mkIterMut it (remaining im))) es r I0);
      [done..|].
    exists (cur_gen r). cbn. rewrite Hrem, Hnil, Hnil'. repeat (split; [done|]).
    intros e Hin ?. apply (Hdisj e Hin). lia.
Qed.

(** The end of an entry: its reference is released. *)
Lemma mut_ok_sub v r rds it es k :
  mut_ok v r rds it es -> mut_ok v r rds it (delete k es).
Proof.
  intros (g & He & Hnd & Hle & Hit).
  assert (forall e, e ∈ delete k es -> e ∈ es) as Hsub.
  { intros e Hin. eapply elem_of_sublist; [done|]. apply sublist_delete. }
  exists g. split; [intros e Hin; by apply He, Hsub|]. split.
  { rewrite list_fmap_delete. eapply sublist_NoDup; [done|]. apply sublist_delete. }
  split; [done|]. destruct it; [|done]. destruct Hit as (? & ? & ? & Hd).
  repeat (split; [done|]). intros e Hin. by apply Hd, Hsub.
Qed.

Lemma entries_perm es k e :
  es !! k = Some e -> e_gen <$> es ≡ₚ e_gen e :: (e_gen <$> delete k es).
Proof. intros Hk. apply delete_Permutation in Hk. by rewrite Hk at 1. Qed.

Lemma good_entry_drop y v r it es k e :
  inv y v -> sys_rcu y = Some r -> sys_borrow y = BMut it es -> es !! k = Some e ->
  good y v (CEntryDrop k) (run_on y (start_release (e_gen e))
    (fun t y' => (AUnit, set_borrow (mut_borrow it (delete k es)) (add_task t y')))).
Proof.
  intros I Hr Hb Hk. pose proof (si_borrow _ _ _ _ _ I) as Hbo. unfold borrow_ok in Hbo.
  rewrite Hb in Hbo. destruct Hbo as (r' & Hr' & Hm). rewrite Hr in Hr'. injection Hr' as <-.
  pose proof (take_entries _ _ _ _ _ _ _ I Hb) as I0.
  assert (sys_inv (e_gen e :: (e_gen <$> delete k es) ++ []) 0 0 (set_borrow BNone y) v) as I1.
  { eapply sys_inv_perm; [exact I0|]. by rewrite (entries_perm es k e Hk). }
  destruct (inv_start_release _ _ _ _ _ _ I1) as (t & h & v' & H1 & I2 & _ & Hv & _).
  erewrite run_on_Ret by exact H1. eexists _, _. split; [done|]. split; [done|]. left. exists v'.
  apply (put_entries _ _ _ (add_task t (set_heap h (set_borrow BNone y))) v' it (delete k es) r I2);
    [done..|].
  apply mut_ok_sub. unfold mut_ok in *. by rewrite Hv.
Qed.

Lemma good_entry_remove y v r it es k e :
  inv y v -> sys_rcu y = Some r -> sys_borrow y = BMut it es -> es !! k = Some e ->
  good y v (CEntryRemove k)
    (run_on y (_ ← gen_mark_removed (e_gen e) (e_idx e); start_release (e_gen e))
      (fun t y' => (AUnit, set_borrow (mut_borrow it (delete k es)) (add_task t y')))).
Proof.
  intros I Hr Hb Hk. pose proof (si_borrow _ _ _ _ _ I) as Hbo. unfold borrow_ok in Hbo.
  rewrite Hb in Hbo. destruct Hbo as (r' & Hr' & Hm). rewrite Hr in Hr'. injection Hr' as <-.
  pose proof (take_entries _ _ _ _ _ _ _ I Hb) as I0.
  assert (sys_inv (e_gen e :: (e_gen <$> delete k es) ++ []) 0 0 (set_borrow BNone y) v) as I1.
  { eapply sys_inv_perm; [exact I0|]. by rewrite (entries_perm es k e Hk). }
  pose proof (mut_ok_sub v r _ it es k Hm) as Hm'.
  destruct Hm as (g & He & Hnd & Hle & Hit).
  destruct (He e) as [Hge [t Ht]]; [by eapply list_elem_of_lookup_2|].
  assert (0 <= e_idx e) as Hpos.
  { destruct (inv_slab y v I) as (s & _ & Ha). destruct (abs_wf s _ Ha) as (_ & _ & _ & Hcov & _).
    apply Hcov. rewrite Ht. eauto. }
  destruct (inv_mark _ _ _ _ v (e_gen e) (e_idx e) t I1) as (h1 & v1 & H1 & Hv1 & _ & I2);
    [rewrite (si_refs _ _ _ _ _ I1); by left|done..|intros rd Hrd; rewrite Hge; by apply Hle|].
  destruct (inv_start_release _ _ _ _ _ _ I2) as (t' & h2 & v2 & H2 & I3 & _ & Hv2 & _).
  erewrite run_on_Ret; [|rewrite (stateful_bind_Ret _ _ _ _ _ H1); exact H2].
  eexists _, _. split; [done|]. split; [done|]. left. exists v2.
  apply (put_entries _ _ _ (add_task t' (set_heap h2 (set_heap h1 (set_borrow BNone y))))
           v2 it (delete k es) r I3); [done..|].
  (* the other entries are still present *)
  assert (forall e', e' ∈ delete k es -> e_idx e' <> e_idx e) as Hother.
  { apply delete_Permutation in Hk. rewrite Hk in Hnd. cbn in Hnd.
    apply NoDup_cons in Hnd as [Hnd _]. intros e' He' Heq. apply Hnd. rewrite <- Heq.
    by apply list_elem_of_fmap_2. }
  destruct Hm' as (g' & He' & Hnd' & Hle' & Hit'). exists g'. rewrite Hv2, Hv1; cbn.
  split.
  { intros e' Hin. destruct (He' e' Hin) as [? ?]. split; [done|].
    rewrite lookup_delete_ne by (apply not_eq_sym, Hother, Hin). done. }
  split; [done|]. split; [done|]. destruct it as [im|]; [|done].
  destruct Hit' as (? & Hok & Hrem & Hd). split; [done|]. split; [done|]. split; [|done].
  rewrite Hrem. do 2 f_equal. apply keys_in_ext. intros i Hi. cbn.
  rewrite lookup_delete_ne; [done|]. intros <-. destruct Hit as (_ & _ & _ & Hd0).
  apply (Hd0 e); [by eapply list_elem_of_lookup_2|done].
Qed.

Lemma good_entry_deref y v r it es k e :
  inv y v -> sys_rcu y = Some r -> sys_borrow y = BMut it es -> es !! k = Some e ->
  good y v (CEntryDeref k) (run_on y (entry_deref e) (fun t y' => (AItem t, y'))).
Proof.
  intros I Hr Hb Hk. pose proof (si_borrow _ _ _ _ _ I) as Hbo. unfold borrow_ok in Hbo.
  rewrite Hb in Hbo. destruct Hbo as (_ & _ & g & He & _).
  destruct (He e) as [_ [t Ht]]; [by eapply list_elem_of_lookup_2|].
  apply (good_read y v _ _ _ t); [done| |done|].
  - apply (get_unchecked_call y v (e_idx e) t I). by left.
  - intros it' es' e'. rewrite Hb. intros [= <- <-]. rewrite Hk. intros [= <-]. eauto.
Qed.

Lemma good_iter_drop y v r im es :
  inv y v -> sys_rcu y = Some r -> sys_borrow y = BMut (Some im) es ->
  good y v CIterDrop (run_on y
    (r' ← advance_link r; t ← start_release (cur_gen r); mret (r', t))
    (fun '(r', t) y' => (AUnit, set_borrow (mut_borrow None es) (add_task t (set_rcu (Some r') y'))))).
Proof.
  intros I Hr Hb. pose proof (si_borrow _ _ _ _ _ I) as Hbo. unfold borrow_ok in Hbo.
  rewrite Hb in Hbo. destruct Hbo as (r' & Hr' & g & He & Hnd & Hle & Hg & _).
  rewrite Hr in Hr'. injection Hr' as <-. subst g.
  pose proof (take_entries _ _ _ _ _ _ _ I Hb) as I0.
  destruct (inv_advance _ _ _ _ v r I0) as (h1 & v1 & r' & H1 & Hcur & _ & Hv1 & _ & I1); [done..|].
  destruct (inv_start_release _ _ _ _ _ _ I1) as (t & h2 & v2 & H2 & I2 & _ & Hv2 & _).
  erewrite run_on_Ret.
  2:{ rewrite (stateful_bind_Ret _ _ _ _ _ H1), (stateful_bind_Ret _ _ _ _ _ H2). reflexivity. }
  eexists _, _. split; [done|]. split; [done|]. left. exists v2.
  apply (put_entries _ _ _ (add_task t (set_heap h2 (set_rcu (Some r') (set_heap h1 (set_borrow BNone y)))))
           v2 None es r' I2); [done..|].
  exists (cur_gen r). rewrite Hv2, Hv1. split; [done|]. split; [done|]. split; [done|]. by rewrite Hcur.
Qed.

(** ** The drops of generations *)

Lemma task_step_good y v t : inv y v -> sys_tasks y = [t] ->
  (forall g k, t = TFinalize g -> sys_borrow y <> BVacant k) ->
  exists t' h, task_step t (sys_heap y) = (Ret t', h)
    /\ ((exists v', inv (add_task t' (set_tasks [] (set_heap h y))) v')
        \/ sys_done (add_task t' (set_tasks [] (set_heap h y)))).
Proof.
  intros I Hts Hb. pose proof (si_tasks _ _ _ _ _ I) as Ht. rewrite Hts in Ht.
  destruct (v_phase v) eqn:Hph; cbn in Ht.
  - destruct Ht as [?|Ht]; [done|]. injection Ht as ->.
    (* the reference to release is the task's *)
    assert (sys_inv [v_lo v] 0 0 (set_tasks [] y) v) as I0.
    { destruct I. constructor; cbn; try done.
      - rewrite si_refs. unfold sys_refs; cbn. rewrite Hts; cbn. solve_Permutation.
      - rewrite Hph. by left. }
    destruct (inv_start_release _ _ _ _ _ _ I0) as (t & h & v' & H1 & I1 & _).
    exists t, h. split; [done|]. left. exists v'. exact I1.
  - injection Ht as ->.
    destruct (inv_finalize y v I Hts) as (h & v' & H1 & I1 & _); [by intros; apply (Hb (v_lo v))|].
    eexists _, h. split; [done|]. left. by exists v'.
  - injection Ht as ->. destruct (decide (S (v_lo v) = v_next v)) as [Hl|Hl].
    + destruct (inv_free_last y v I Hts Hl) as (h & H1 & D). eexists _, h. split; [done|]. by right.
    + pose proof (hr_lo _ _ (si_heap _ _ _ _ _ I)).
      destruct (inv_free y v I Hts) as (h & v' & H1 & I1 & _); [lia|].
      eexists _, h. split; [done|]. left. by exists v'.
Qed.

Lemma tasks_single ts lo ph k t : tasks_ok ts lo ph -> ts !! k = Some t -> ts = [t] /\ k = 0%nat.
Proof.
  intros Ht Hk. destruct ph; cbn in Ht; [destruct Ht as [Ht|Ht]|..]; subst ts; [done|..];
    destruct k as [|[|]]; cbn in Hk; try done; by injection Hk as <-.
Qed.

Lemma good_task y v k res : inv y v -> exec_task y k = Some res -> good y v (CTask k) res.
Proof.
  intros I. unfold exec_task. destruct (sys_tasks y !! k) as [t|] eqn:Hk; [|done].
  destruct (tasks_single _ _ _ _ _ (si_tasks _ _ _ _ _ I) Hk) as [Hts ->]. cbn [mbind option_bind].
  intros Hres.
  assert (res = run_on y (task_step t) (fun t' y' => (AUnit, add_task t' (set_tasks [] y')))) as ->.
  { rewrite Hts in Hres; cbn in Hres. destruct t, (sys_borrow y); (discriminate Hres || by injection Hres as <-). }
  destruct (task_step_good y v t I Hts) as (t' & h & Hm & Hy).
  { intros g k' -> Hb. by rewrite Hb in Hres. }
  erewrite run_on_Ret by exact Hm. eexists _, _. split; [done|]. by split.
Qed.

(** The reads of the slab that answer what it holds. *)
Lemma good_get y v i : inv y v -> 0 <= i ->
  good y v (CGet i) (run_on y (rcu_get i) (fun o y' => (AGet o, y'))).
Proof.
  intros I Hi. destruct (inv_slab y v I) as (s & Hs & Ha).
  eapply (good_read y v); [done| |done|reflexivity].
  apply (read_storage_rel _ _ s); [done|]. by apply abs_get.
Qed.

Lemma good_vacant_key y v key : inv y v -> sys_borrow y = BVacant key ->
  good y v CVacantEntryKey (run_on y vacant_rcu_entry_key (fun k y' => (AKey (Ok k), y'))).
Proof.
  intros I Hb. pose proof (si_borrow _ _ _ _ _ I) as Hbo. unfold borrow_ok in Hbo. rewrite Hb in Hbo.
  destruct Hbo as [_ Hf]. destruct (free (v_spec v)) as [|i l] eqn:Ef; [done|]. injection Hf as ->.
  destruct (inv_slab y v I) as (s & Hs & Ha).
  eapply (good_read y v _ _ _ key); [done| |done|intros k'; rewrite Hb; by intros [= ->]].
  unfold vacant_rcu_entry_key, lock_writer. rewrite Hs, (hr_poisoned _ _ (si_heap _ _ _ _ _ I)).
  by rewrite (abs_vacant_key s _ Ha), Ef, set_slab_id.
Qed.

Lemma good_reader_unchecked y v k i rd t : inv y v -> sys_readers y !! k = Some rd -> r_seen rd !! i = Some t ->
  good y v (CReaderGetUnchecked k i) (run_on y (reader_get_unchecked i) (fun t y' => (AItem t, y'))).
Proof.
  intros I Hk Ht. eapply (good_read y v _ _ _ t); [done| |done|].
  - apply (get_unchecked_call y v); [done|].
    destruct (si_seen _ _ _ _ _ I rd (list_elem_of_lookup_2 _ _ _ Hk) i t Ht) as [_ Hs]. naive_solver.
  - intros rd' t'. rewrite Hk. intros [= <-]. rewrite Ht. by intros [= <-].
Qed.

(** ** All calls *)

Lemma exec_good y v c res :
  inv y v -> call_usize c -> exec y c = Some res ->
  good y v c res
  \/ exists i, c = CMarkRemoved i /\ present (v_spec v) !! i = None
       /\ res = (Panic, set_heap (set_poisoned (sys_heap y)) y).
Proof.
  intros I Hc Hx.
  assert (forall k i flag, c = CReaderGet k i flag -> good y v c res) as Hget.
  { intros k i flag ->. cbn in Hx. destruct (sys_readers y !! k) as [rd|] eqn:Hk; [|done].
    cbn in Hx. destruct (may_load (sys_heap y) (r_gen rd) i flag) eqn:Hl; [|done].
    injection Hx as <-. destruct flag; [by apply good_reader_get|].
    eexists _, y. split; [done|]. split; [done|]. left. by exists v. }
  destruct c; try (left; by eapply Hget); try (left; by apply (good_task _ _ k));
    cbn in Hx; try (destruct (sys_readers y !! k) as [rd|] eqn:Hk; [|done]; cbn in Hx);
    try (destruct (sys_rcu y) as [r|] eqn:Hr; [|done]; cbn in Hx;
         destruct (sys_borrow y) as [|key|it es] eqn:Hb; cbn in Hx; try done);
    try (destruct (es !! k) as [e|] eqn:Hk; [|done]; cbn in Hx);
    try (injection Hx as <-).
  - left. by apply good_insert.
  - left. eapply (good_read y v); [done|by apply vacant_key_call|done|done].
  - left. destruct (lock_read y v slab_len I) as (s & Ha & Hl).
    eapply (good_read y v); [done|exact Hl|done|]. cbn. by rewrite (abs_len s _ Ha).
  - left. destruct (lock_read y v slab_allocated I) as (s & Ha & Hl).
    eapply (good_read y v); [done|exact Hl|done|]. cbn. by rewrite (abs_allocated s _ Ha).
  - left. by apply good_get.
  - destruct (present (v_spec v) !! i) as [t|] eqn:Ht.
    + left. by eapply good_mark.
    + right. exists i. split; [done|]. split; [done|]. unfold run_on, rcu_mark_removed.
      by rewrite (mark_absent _ v) by (try apply (si_heap _ _ _ _ _ I); done).
  - left. by apply good_schedule.
  - left. by apply good_reader.
  - left. by eapply good_vacant.
  - left. by eapply good_vacant_key.
  - left. by eapply good_vacant_insert.
  - left. by eapply good_vacant_drop.
  - left. by eapply good_iter_mut.
  - left. destruct it as [im|]; [|done]. cbn in Hx. injection Hx as <-. by apply good_iter_next.
  - left. destruct it as [im|]; [|done]. cbn in Hx. injection Hx as <-. by eapply good_iter_drop.
  - left. by eapply good_entry_deref.
  - left. by eapply good_entry_remove.
  - left. by eapply good_entry_drop.
  - left. by apply good_drop_rcu.
  - left. by apply good_reader_clone.
  - left. by apply good_reader_drop.
  - left. destruct (r_seen rd !! i) as [t|] eqn:Ht; [|done]. cbn in Hx. injection Hx as <-.
    by eapply good_reader_unchecked.
Qed.

(** Once the last handle is gone the program can make no call. *)
Lemma exec_done y c : sys_done y -> exec y c = None.
Proof.
  intros D. destruct c; cbn; unfold exec_task; by rewrite ?(sd_rcu _ D), ?(sd_readers _ D), ?(sd_tasks _ D).
Qed.

(** ** Reachable states *)

Lemma reachable_good y0 y :
  (exists v, inv y0 v) -> sys_reachable y0 y -> (exists v, inv y v) \/ sys_done y.
Proof.
  intros I0. induction 1 as [|y c r y' Hy IH Hc Hx]; [by left|].
  destruct IH as [[v I]|D].
  - destruct (exec_good y v c _ I Hc Hx) as [(r' & y'' & [= <- <-] & _ & Hg)|(i & _ & _ & ?)];
      [done|discriminate].
  - by rewrite exec_done in Hx.
Qed.

Lemma new_good (new_slab : Z -> outcome W) cap s a :
  new_slab cap = Ret s -> slab_abs s a -> pending a = ∅ -> present a = ∅ ->
  exists h, rcu_with_fixed_capacity new_slab cap = Ret (mkRcu cap 0, h)
    /\ inv (sys_new (mkRcu cap 0) h) (new_view a).
Proof.
  intros Hs Ha Hp Hq. destruct (rcu_new_rel new_slab cap s a Hs Ha Hp) as (h & Hnew & R).
  exists h. split; [done|]. constructor; try done.
  - by left.
  - by intros r [= <-].
  - by intros r ?%elem_of_nil.
  - cbn. rewrite Hp, Hq. unfold items. rewrite map_to_list_empty. done.
Qed.
End safe.
