(* ===== verification/RcuDrain.v ===== *)
(** Drops of generations run to their end, and the operations of the [RcuCslab]
    that contain one, in a single thread. *)

From S2P Require Import Prelude CslabStorage Cslab SlabSpec SlabKeys CslabIter CslabIterProof SlabInterface.
From S2P Require Import RcuCslab RcuSystem RcuHeap RcuInv RcuSafe RcuSafeMut.

Section drain.
Context {W T : Type} {Ops : SlabOps W T} {Laws : SlabLaws W T}.
Abbreviation sys := (sys W T).
Abbreviation inv := (sys_inv [] 0 0).
Implicit Types (y : sys) (v : view T).

(** ** Termination *)

(** A bound on the steps left of a drop. *)
Definition task_left (t : option task) (n : nat) : nat :=
  match t with
  | None => 0
  | Some (TRelease _) => 3 * n
  | Some (TFinalize _) => 3 * n - 1
  | Some (TFree _) => 3 * n - 2
  end.

Lemma gens_positive y v : inv y v -> (0 < base.size (gens (sys_heap y)))%nat.
Proof. intros I. by eapply gens_nonempty, si_heap. Qed.

(** The steps of a drop, and the number of generations alive. *)
Lemma release_size g h t h' :
  task_step (TRelease g) h = (Ret t, h') ->
  base.size (gens h') = base.size (gens h) /\ (t = None \/ exists g, t = Some (TFinalize g)).
Proof.
  intros H1. unfold task_step, release_gen, get_gen, put_gen, modify, fail in H1.
  cbv [mbind stateful_bind mret stateful_ret] in H1.
  destruct (gens h !! g) as [n|] eqn:Hn; [|done]. destruct (strong n) as [|k]; [done|].
  injection H1 as <- <-. split; [by apply map_size_insert_Some|].
  case_bool_decide; [right; by eexists|by left].
Qed.

Lemma free_size g h t h' :
  task_step (TFree g) h = (Ret t, h') -> S (base.size (gens h')) = base.size (gens h).
Proof.
  intros H1. unfold task_step, free_gen, get_gen, modify, release_writer, release_storage in H1.
  cbv [mbind stateful_bind mret stateful_ret] in H1. destruct (gens h !! g) as [n|] eqn:Hn; [|done].
  pose proof (map_size_delete_Some _ _ (mk_is_Some _ _ Hn)) as Hd.
  pose proof (map_size_ne_0_lookup_2 _ _ (mk_is_Some _ _ Hn)) as Hz.
  repeat case_match; simplify_eq; cbn [gens set_gens set_writer_strong set_storage_strong set_slab add_dropped]; lia.
Qed.

(** A step of a drop keeps the invariant, takes no item that is present, and
    brings the end nearer. *)
Lemma task_progress y v t :
  inv y v -> sys_tasks y = [t] -> (forall k, sys_borrow y <> BVacant k) ->
  exists t' h, task_step t (sys_heap y) = (Ret t', h)
    /\ (task_left t' (base.size (gens h)) < task_left (Some t) (base.size (gens (sys_heap y))))%nat
    /\ ((exists v', inv (add_task t' (set_tasks [] (set_heap h y))) v'
           /\ present (v_spec v') = present (v_spec v) /\ v_own v' ⊆ v_own v)
        \/ sys_done (add_task t' (set_tasks [] (set_heap h y))) /\ t' = None).
Proof.
  intros I Hts Hb. pose proof (gens_positive y v I) as Hpos.
  pose proof (si_tasks _ _ _ _ _ I) as Ht. rewrite Hts in Ht.
  destruct (v_phase v) eqn:Hph; cbn in Ht.
  - destruct Ht as [?|Ht]; [done|]. injection Ht as ->.
    assert (sys_inv [v_lo v] 0 0 (set_tasks [] y) v) as I0.
    { destruct I. constructor; cbn; try done.
      - rewrite si_refs. unfold sys_refs; cbn. rewrite Hts; cbn. solve_Permutation.
      - rewrite Hph. by left. }
    destruct (inv_start_release _ _ _ _ _ _ I0) as (t & h & v' & H1 & I1 & _ & Hv & Ho & _).
    exists t, h. split; [done|]. split; [|left; by exists v'; rewrite Hv, Ho].
    destruct (release_size _ _ _ _ H1) as [Hsz Hcase]. cbn [sys_heap set_tasks] in Hsz. rewrite Hsz.
    destruct Hcase as [->|[g ->]]; cbn; lia.
  - injection Ht as ->.
    destruct (inv_finalize y v I Hts) as (h & v' & H1 & I1 & Hp & Ho); [done|].
    eexists _, h. split; [done|].
    split; [|left; exists v'; rewrite Ho; split; [done|]; split; [done|apply map_filter_subseteq]].
    assert (gens h = gens (sys_heap y)) as ->; [|cbn; lia].
    unfold task_step, gen_drop, get_gen, lock_writer, modify in H1.
    cbv [mbind stateful_bind mret stateful_ret] in H1. repeat case_match; simplify_eq; done.
  - injection Ht as ->.
    destruct (decide (S (v_lo v) = v_next v)) as [Hl|Hl].
    + destruct (inv_free_last y v I Hts Hl) as (h & H1 & D). eexists _, h. split; [done|].
      split; [cbn; lia|by right].
    + pose proof (hr_lo _ _ (si_heap _ _ _ _ _ I)).
      destruct (inv_free y v I Hts) as (h & v' & H1 & I1 & _ & Hv & Ho); [lia|].
      eexists _, h. split; [done|]. split; [|left; exists v'; by rewrite Hv, Ho].
      pose proof (free_size _ _ _ _ H1). cbn. lia.
Qed.

(** A drop runs to its end. *)
Lemma run_task_inv fuel : forall y v t,
  inv y v -> sys_tasks y = option_list t -> (forall k, sys_borrow y <> BVacant k) ->
  (task_left t (base.size (gens (sys_heap y))) <= fuel)%nat ->
  exists h, run_task fuel t (sys_heap y) = (Ret tt, h)
    /\ ((exists v', inv (set_tasks [] (set_heap h y)) v' /\ present (v_spec v') = present (v_spec v)
           /\ v_own v' ⊆ v_own v)
        \/ sys_done (set_tasks [] (set_heap h y))).
Proof.
  induction fuel as [|fuel IH]; intros y v t I Hts Hb Hfuel.
  - destruct t as [t|].
    + pose proof (gens_positive y v I). destruct t; cbn in Hfuel; lia.
    + exists (sys_heap y). split; [done|]. left. exists v. split; [|done].
      rewrite set_heap_id. cbn in Hts. rewrite <- Hts. by destruct y.
  - destruct t as [t|]; cbn in Hts.
    + destruct (task_progress y v t I Hts Hb) as (t' & h & H1 & Hlt & Hy).
      cbn [run_task]. rewrite (stateful_bind_Ret _ _ _ _ _ H1).
      destruct Hy as [(v' & I' & Hv & Ho)|[D ->]].
      * destruct (IH _ v' t' I') as (h' & H2 & Hy); [by cbn|done|cbn; lia|].
        exists h'. split; [exact H2|]. destruct Hy as [(v2 & I2 & Hv2 & Ho2)|D]; [left|by right].
        exists v2. split; [exact I2|]. split; [by rewrite Hv2|by etrans].
      * exists h. split; [by destruct fuel|]. right.
        unfold add_task in D; cbn in D. exact D.
    + exists (sys_heap y). split; [done|]. left. exists v. split; [|done].
      rewrite set_heap_id, <- Hts. by destruct y.
Qed.

(** Dropping a reference, to the end. *)
Lemma drop_gen_inv y v g :
  sys_inv [g] 0 0 y v -> sys_tasks y = [] -> (forall k, sys_borrow y <> BVacant k) ->
  exists h, drop_gen g (sys_heap y) = (Ret tt, h)
    /\ ((exists v', inv (set_heap h y) v' /\ present (v_spec v') = present (v_spec v)
           /\ v_own v' ⊆ v_own v)
        \/ sys_done (set_heap h y)).
Proof.
  intros I Hts Hb.
  (* as a task that holds the reference *)
  assert (v_lo v <= g)%nat as Hle.
  { assert (g ∈ v_refs v) as Hg by (rewrite (si_refs _ _ _ _ _ I); by left).
    apply (hr_refs _ _ (si_heap _ _ _ _ _ I)) in Hg. lia. }
  destruct (inv_start_release _ _ _ _ _ _ I) as (t & h1 & v1 & H1 & I1 & Hlo & Hv1 & Ho1 & _).
  assert (drop_gen g (sys_heap y) = run_task (drop_fuel (sys_heap y) - 1) t h1) as Hd.
  { unfold drop_gen, drop_fuel. replace (3 * S (base.size (gens (sys_heap y))))%nat
      with (S (2 + 3 * base.size (gens (sys_heap y))))%nat by lia.
    cbn [run_task]. unfold start_release in H1. rewrite (stateful_bind_Ret _ _ _ _ _ H1).
    f_equal. }
  assert (base.size (gens h1) = base.size (gens (sys_heap y))) as Hsz.
  { unfold start_release, task_step, release_gen, get_gen, put_gen, modify, fail in H1.
    cbv [mbind stateful_bind mret stateful_ret] in H1.
    destruct (gens (sys_heap y) !! g) as [n|] eqn:Hn; [|done].
    destruct (strong n) as [|k]; [done|]. injection H1 as _ <-. cbn.
    by rewrite map_size_insert_Some by (by eexists). }
  destruct (run_task_inv (drop_fuel (sys_heap y) - 1) _ v1 t I1) as (h & H2 & Hy).
  - cbn. by rewrite Hts.
  - done.
  - cbn. rewrite Hsz. unfold drop_fuel. destruct t as [[]|]; cbn; lia.
  - exists h. rewrite Hd. split; [exact H2|]. destruct Hy as [(v' & I' & Hv' & Ho')|D]; [left|right].
    + exists v'. rewrite Hv', Hv1. rewrite Ho1 in Ho'. split; [|done]. cbn in I'.
      assert (set_tasks [] (set_heap h (add_task t (set_heap h1 y))) = set_heap h y) as Heq
        by (destruct y; cbn in *; by rewrite Hts).
      by rewrite <- Heq.
    + assert (set_tasks [] (set_heap h (add_task t (set_heap h1 y))) = set_heap h y) as Heq
        by (destruct y; cbn in *; by rewrite Hts).
      by rewrite <- Heq.
Qed.

(** Dropping a reference that is not the last one of its generation. *)
Lemma drop_gen_shared xg xs xw y v g :
  sys_inv (g :: xg) xs xw y v -> g ∈ xg ++ sys_refs y ->
  exists h v', drop_gen g (sys_heap y) = (Ret tt, h)
    /\ sys_inv xg xs xw (set_heap h y) v' /\ v_spec v' = v_spec v.
Proof.
  intros I Hin. destruct (inv_start_release _ _ _ _ _ _ I) as (t & h & v' & H1 & I1 & _ & Hv & _ & Ht).
  rewrite (Ht Hin), add_task_None in *. exists h, v'. split; [|done].
  unfold drop_gen. destruct (drop_fuel (sys_heap y)) as [|n] eqn:E; [unfold drop_fuel in E; lia|].
  cbn [run_task]. unfold start_release in H1. rewrite (stateful_bind_Ret _ _ _ _ _ H1).
  by destruct n.
Qed.

(** ** Advancing, removing and clearing *)

(** [advance_generation] runs the drop of the previous generation, if it is the
    last reference, before it returns; the new generation owns nothing yet. *)
Lemma advance_generation_inv y v r :
  inv y v -> sys_rcu y = Some r -> sys_borrow y = BNone -> sys_tasks y = [] ->
  exists r' h v', advance_generation r (sys_heap y) = (Ret r', h)
    /\ inv (set_rcu (Some r') (set_heap h y)) v'
    /\ present (v_spec v') = present (v_spec v) /\ cur_gen r' = S (cur_gen r)
    /\ (forall i, v_own v' !! i <> Some (cur_gen r')).
Proof.
  intros I Hr Hb Hts.
  destruct (inv_advance _ _ _ y v r I Hr Hb) as (h1 & v1 & r' & H1 & Hcur & _ & Hv1 & Ho1 & I1).
  destruct (drop_gen_inv _ v1 _ I1) as (h2 & H2 & [(v2 & I2 & Hv2 & Ho2)|D]);
    [done|cbn; by rewrite Hb|..].
  - exists r', h2, v2. split.
    { unfold advance_generation. rewrite (stateful_bind_Ret _ _ _ _ _ H1).
      by rewrite (stateful_bind_Ret _ _ _ _ _ H2). }
    split; [exact I2|]. split; [by rewrite Hv2, Hv1|]. split; [done|].
    intros i Hi. eapply lookup_weaken in Hi; [|exact Ho2]. rewrite Ho1 in Hi.
    pose proof (si_cur _ _ _ _ _ I r Hr).
    apply (hr_own _ _ (si_heap _ _ _ _ _ I)) in Hi as (n & Hn & _).
    assert (v_lo v <= cur_gen r' < v_next v)%nat; [|lia].
    apply (hr_dom _ _ (si_heap _ _ _ _ _ I)). by eexists.
  - pose proof (sd_rcu _ D). done.
Qed.

(** The new reader of [schedule_finalization] and [clear]. *)
Lemma advance_reader_inv y v r :
  inv y v -> sys_rcu y = Some r -> sys_borrow y = BNone -> sys_tasks y = [] ->
  exists r' h v', (r' ← advance_generation r; reader ← rcu_reader r'; mret (r', reader)) (sys_heap y)
      = (Ret (r', cur_gen r'), h)
    /\ inv (add_reader (cur_gen r') (set_rcu (Some r') (set_heap h y))) v'
    /\ present (v_spec v') = present (v_spec v) /\ cur_gen r' = S (cur_gen r)
    /\ (forall i, v_own v' !! i <> Some (cur_gen r')).
Proof.
  intros I Hr Hb Hts.
  destruct (advance_generation_inv y v r I Hr Hb Hts) as (r' & h1 & v1 & H1 & I1 & Hp & Hcur & Ho).
  destruct (reader_call _ _ _ _ v1 r' I1) as (h2 & v2 & H2 & I2 & Hv2 & Ho2); [done|done|].
  exists r', h2, v2. split.
  { rewrite (stateful_bind_Ret _ _ _ _ _ H1). by rewrite (stateful_bind_Ret _ _ _ _ _ H2). }
  split; [exact I2|]. split; [by rewrite Hv2|]. split; [done|]. by rewrite Ho2.
Qed.

(** The loop of [clear] marks what is in the range of the iterator. *)
Lemma clear_loop_inv fuel : forall y v r im,
  inv y v -> sys_rcu y = Some r -> sys_borrow y = BNone ->
  iter_ok (v_spec v) (im_iter im) ->
  remaining im = Z.of_nat (length (keys_in (v_spec v) (it_head (im_iter im)) (it_tail (im_iter im)))) ->
  (length (keys_in (v_spec v) (it_head (im_iter im)) (it_tail (im_iter im))) < fuel)%nat ->
  exists h v', clear_loop fuel r im (sys_heap y) = (Ret tt, h)
    /\ inv (set_heap h y) v'
    /\ (forall i, i ∈ keys_in (v_spec v) (it_head (im_iter im)) (it_tail (im_iter im)) ->
          present (v_spec v') !! i = None)
    /\ (forall i, present (v_spec v) !! i = None -> present (v_spec v') !! i = None).
Proof.
  induction fuel as [|fuel IH]; intros y v r im I Hr Hb Hok Hrem Hfuel; [lia|].
  destruct (pull_call y v r im true I Hok) as ([[[i t]|] it] & Hp & Hm); cbn [clear_loop].
  - destruct Hp as (Hok' & Ht & Hlen & Hi & Hni & Hh & Htl & Hsplit).
    assert (cur_gen r ∈ v_refs v) as Hg by (by eapply handle_ref).
    destruct (inv_clone_gen _ _ _ y v (cur_gen r) I Hg) as (h1 & v1 & H1 & I1 & Hv1 & _).
    assert (0 <= i) as Hpos by (destruct Hok; lia).
    destruct (inv_mark _ _ _ _ v1 (cur_gen r) i t I1) as (h2 & v2 & H2 & Hv2 & _ & I2);
      [by eapply handle_ref|done|by rewrite Hv1|done|by intros; eapply readers_le_cur|].
    destruct (drop_gen_shared _ _ _ _ v2 _ I2) as (h3 & v3 & H3 & I3 & Hv3).
    { cbn. unfold sys_refs; cbn. rewrite Hr. cbn. by left. }
    assert (v_spec v3 = marked_spec (v_spec v) i t) as Hspec by (by rewrite Hv3, Hv2, Hv1).
    assert (forall h t', h <= t' -> it_head (im_iter im) <= h -> t' <= it_tail (im_iter im) ->
              ~ (h <= i < t') -> keys_in (v_spec v3) h t' = keys_in (v_spec v) h t') as Hkeys.
    { intros h t' _ _ _ Hn. apply keys_in_ext. intros j Hj. rewrite Hspec. cbn.
      rewrite lookup_delete_ne; [done|lia]. }
    destruct Hok' as [Hok1 Hok2].
    destruct (IH _ v3 r (mkIterMut it (Z.of_nat (length (keys_in (v_spec v) (it_head it) (it_tail it))))) I3)
      as (h4 & v4 & H4 & I4 & Hall & Hkeep); cbn; [done|done|..].
    + rewrite Hspec. split; cbn; lia.
    + by rewrite Hkeys by lia.
    + rewrite Hkeys by lia. lia.
    + exists h4, v4. split; [|split; [exact I4|split]].
      * unfold iter_mut_yield in Hm. rewrite Hrem, Hlen, sub_u_Ret in Hm by lia.
        replace (Z.of_nat (S (length (keys_in (v_spec v) (it_head it) (it_tail it)))) - 1)
          with (Z.of_nat (length (keys_in (v_spec v) (it_head it) (it_tail it)))) in Hm by lia.
        unfold fail in Hm. cbv [mbind stateful_bind] in Hm. rewrite H1 in Hm.
        rewrite (stateful_bind_Ret _ _ _ _ _ Hm). unfold entry_remove, entry_drop; cbn [e_gen e_idx].
        assert ((_ ← gen_mark_removed (cur_gen r) i; drop_gen (cur_gen r)) h1 = (Ret tt, h3)) as Hrm.
        { rewrite (stateful_bind_Ret _ _ _ _ _ H2). exact H3. }
        by rewrite (stateful_bind_Ret _ _ _ _ _ Hrm).
      * intros j Hj.
        destruct (decide (j = i)) as [->|Hne].
        { apply Hkeep. rewrite Hspec. apply lookup_delete_eq. }
        destruct (Hsplit j Hj) as [->|Hin]; [done|]. apply Hall. cbn. by rewrite Hkeys by lia.
      * intros j Hj. apply Hkeep. rewrite Hspec. cbn. by apply lookup_delete_None; right.
  - destruct Hp as (_ & _ & Hnil & _). unfold iter_mut_yield in Hm.
    exists (sys_heap y), v. cbn in Hm. rewrite (stateful_bind_Ret _ _ _ _ _ Hm).
    split; [done|]. rewrite set_heap_id. split; [done|]. split; [|done].
    intros i. rewrite Hnil. by intros ?%elem_of_nil.
Qed.

(** Marking, then advancing: [remove]. *)
Lemma rcu_remove_inv y v r i t :
  inv y v -> sys_rcu y = Some r -> sys_borrow y = BNone -> sys_tasks y = [] ->
  0 <= i -> present (v_spec v) !! i = Some t ->
  exists r' h v', rcu_remove r i (sys_heap y) = (Ret (r', cur_gen r'), h)
    /\ inv (add_reader (cur_gen r') (set_rcu (Some r') (set_heap h y))) v'
    /\ present (v_spec v') = delete i (present (v_spec v))
    /\ (forall i, v_own v' !! i <> Some (cur_gen r')) /\ cur_gen r' = S (cur_gen r).
Proof.
  intros I Hr Hb Hts Hi Ht.
  destruct (inv_mark _ _ _ y v (cur_gen r) i t I) as (h1 & v1 & H1 & Hv1 & _ & I1);
    [by eapply handle_ref|done..|by intros; eapply readers_le_cur|].
  destruct (advance_reader_inv _ v1 r I1) as (r' & h2 & v2 & H2 & I2 & Hp & Hcur & Ho); [done..|].
  exists r', h2, v2. split.
  { unfold rcu_remove, rcu_mark_removed. rewrite (stateful_bind_Ret _ _ _ _ _ H1). exact H2. }
  split; [exact I2|]. by rewrite Hp, Hv1.
Qed.

Lemma rcu_clear_inv y v r :
  inv y v -> sys_rcu y = Some r -> sys_borrow y = BNone -> sys_tasks y = [] ->
  exists r' h v', rcu_clear r (sys_heap y) = (Ret (r', cur_gen r'), h)
    /\ inv (add_reader (cur_gen r') (set_rcu (Some r') (set_heap h y))) v'
    /\ present (v_spec v') = ∅
    /\ (forall i, v_own v' !! i <> Some (cur_gen r')) /\ cur_gen r' = S (cur_gen r).
Proof.
  intros I Hr Hb Hts. destruct (inv_slab y v I) as (s & Hs & Ha).
  destruct (abs_iter_new s _ Ha) as (it & Hit & Hok & Hkeys).
  destruct (lock_read y v slab_len I) as (s' & Ha' & Hlen).
  assert (slab_len s' = Z.of_nat (length (keys_in (v_spec v) (it_head it) (it_tail it)))) as Hrem.
  { rewrite (abs_len s' _ Ha'), Hkeys, <- length_map_to_list.
    rewrite <- (items_at_all (v_spec v) (abs_wf s _ Ha)).
    rewrite <- (length_fmap fst (items_at _ _)), items_at_keys; [done|].
    intros i. by intros [Hi _]%elem_of_keys_in. }
  destruct (clear_loop_inv (clear_fuel (mkIterMut it (slab_len s'))) y v r
              (mkIterMut it (slab_len s')) I Hr Hb Hok Hrem) as (h1 & v1 & H1 & I1 & Hall & Hkeep).
  { unfold clear_fuel; cbn. pose proof (length_keys_in (v_spec v) (it_head it) (it_tail it)). lia. }
  destruct (advance_reader_inv _ v1 r I1) as (r' & h2 & v2 & H2 & I2 & Hp & Hcur & Ho); [done..|].
  exists r', h2, v2. split; [|split; [exact I2|split; [|done]]].
  - unfold rcu_clear, rcu_iter_mut, iter_mut_drop.
    assert ((n ← rcu_len; it ← read_storage (fun s => slab_iter_new s); mret (mkIterMut it n)) (sys_heap y)
            = (Ret (mkIterMut it (slab_len s')), sys_heap y)) as Hnew.
    { unfold rcu_len. rewrite (stateful_bind_Ret _ _ _ _ _ Hlen).
      by rewrite (stateful_bind_Ret _ _ _ _ _ (read_storage_rel _ _ s it Hs Hit)). }
    rewrite (stateful_bind_Ret _ _ _ _ _ Hnew), (stateful_bind_Ret _ _ _ _ _ H1). exact H2.
  - rewrite Hp. apply map_empty. intros i. cbn in Hall. rewrite Hkeys in Hall.
    destruct (present (v_spec v) !! i) as [t|] eqn:Ht; [|by apply Hkeep].
    apply Hall. apply elem_of_keys_in. split; [by eexists|].
    destruct (abs_wf s _ Ha) as (_ & _ & _ & Hcov & _). apply Hcov. eauto.
Qed.

(** ** Quiescent states *)

(** When no drop is under way and every handle is of the current generation, it
    is the only one, and what is pending was marked in it. *)
Lemma quiescent_gens y v r :
  inv y v -> sys_rcu y = Some r -> sys_borrow y = BNone -> sys_tasks y = [] ->
  (forall rd, rd ∈ sys_readers y -> r_gen rd = cur_gen r) ->
  exists n, gens (sys_heap y) = {[ cur_gen r := n ]}
    /\ (forall i, is_Some (pending (v_spec v) !! i) <-> v_own v !! i = Some (cur_gen r))
    /\ Z.of_nat (base.size (pending (v_spec v))) = Z.of_nat (length (pending_removes (inner n))).
Proof.
  intros I Hr Hb Hts Hrd. pose proof (si_heap _ _ _ _ _ I) as R.
  pose proof (si_cur _ _ _ _ _ I r Hr) as Hcur.
  assert (v_phase v = Idle) as Hidle.
  { pose proof (si_tasks _ _ _ _ _ I) as Ht. rewrite Hts in Ht. by destruct (v_phase v). }
  assert (v_lo v = cur_gen r) as Hlo.
  { pose proof (proj2 (hr_phase _ _ R) Hidle) as Hin. rewrite (si_refs _ _ _ _ _ I) in Hin.
    cbn in Hin. unfold sys_refs in Hin. rewrite Hr, Hb, Hts in Hin. cbn in Hin.
    rewrite app_nil_r in Hin. apply elem_of_cons in Hin as [Hin|Hin]; [done|].
    apply list_elem_of_fmap in Hin as (rd & -> & Hin). by apply Hrd. }
  destruct (proj2 (hr_dom _ _ R (cur_gen r))) as [n Hn]; [lia|]. exists n.
  assert (forall i, is_Some (pending (v_spec v) !! i) <-> v_own v !! i = Some (cur_gen r)) as Hpend.
  { intros i. rewrite <- (hr_pending _ _ R). split; [|intros ?; by eexists].
    intros [g Hg]. pose proof Hg as (m & Hm & _)%(hr_own _ _ R).
    assert (v_lo v <= g < v_next v)%nat as Hb' by (apply (hr_dom _ _ R); by eexists).
    rewrite Hg. f_equal. lia. }
  split; [|split; [done|]].
  - apply map_eq. intros g. destruct (decide (g = cur_gen r)) as [->|Hne].
    + by rewrite Hn, lookup_singleton_eq.
    + rewrite lookup_singleton_ne by done. apply eq_None_not_Some. rewrite (hr_dom _ _ R). lia.
  - f_equal. rewrite <- size_dom, <- (size_list_to_set (C := gset Z) (pending_removes (inner n)))
      by (by apply (hr_nodup _ _ R _ _ Hn)).
    f_equal. apply set_eq. intros i. rewrite elem_of_dom, elem_of_list_to_set, Hpend, (hr_own _ _ R).
    rewrite Hn. split; [by intros (m & [= <-] & ? & _)|].
    intros Hi. exists n. split; [done|]. split; [done|]. rewrite Hidle. by intros [? _].
Qed.
End drain.
