(* ===== verification/RcuCorrect.v ===== *)
(** Correctness of the [RcuCslab] over the [Cslab]: its theorems, about the states
    that any program reaches by calls on it and on its readers, on any
    threads. *)

From S2P Require Import Prelude CslabWord CslabStorage Cslab SlabSpec SlabKeys.
From S2P Require Import CslabProof CslabIter CslabIterProof SlabInterface CslabProps.
From S2P Require Import RcuCslab RcuSystem RcuHeap RcuInv RcuSafe RcuSafeMut RcuDrain.

(** The state of a program with an [RcuCslab<T>]. *)
Abbreviation state T := (sys (cslab T) T).

(** [RcuCslab::with_fixed_capacity], for an entry of layout [el]. *)
Definition rcu_new {T} (el : layout) (cap : Z) : outcome (state T) :=
  '(r, h) ← rcu_with_fixed_capacity (with_fixed_capacity el) cap; Ret (sys_new r h).

(** The states that a program reaches from a new slab. *)
Definition rcu_reachable {T} (el : layout) (cap : Z) (y : state T) : Prop :=
  exists y0, rcu_new el cap = Ret y0 /\ sys_reachable y0 y.

Lemma rcu_reachable_inv {T} el cap (y : state T) :
  entry_layout_ok el -> rcu_reachable el cap y -> (exists v, sys_inv [] 0 0 y v) \/ sys_done y.
Proof.
  intros [Hs Ha] (y0 & Hnew & Hy). eapply reachable_good; [|exact Hy].
  unfold rcu_new in Hnew. apply bind_returns in Hnew as ([r h] & Hnew & [= <-]).
  unfold rcu_with_fixed_capacity in Hnew.
  destruct (with_fixed_capacity el cap) as [c| | |] eqn:Hc; try done.
  destruct (new_good (with_fixed_capacity el) cap c (spec_new cap) Hc) as (h' & Hnew' & I);
    [by eapply with_fixed_capacity_rel|done|done|].
  unfold rcu_with_fixed_capacity in Hnew'. rewrite Hc in Hnew'. cbn in Hnew, Hnew'.
  rewrite Hnew' in Hnew. injection Hnew as <- <-. by eexists.
Qed.

(** Running calls; for closed runs. *)
Fixpoint run_calls {T} (y : state T) (cs : list (call T)) : option (list (resp T) * state T) :=
  match cs with
  | [] => Some ([], y)
  | c :: cs' =>
      match exec y c with
      | Some (Ret r, y') => '(rs, y'') ← run_calls y' cs'; Some (r :: rs, y'')
      | _ => None
      end
  end.

Lemma run_calls_steps {T} cs : forall (y0 y y' : state T) rs,
  sys_reachable y0 y -> Forall call_usize cs -> run_calls y cs = Some (rs, y') -> sys_reachable y0 y'.
Proof.
  induction cs as [|c cs IH]; intros y0 y y' rs Hy Hcs; cbn [run_calls].
  - by intros [= _ <-].
  - apply Forall_cons in Hcs as [Hc Hcs]. destruct (exec y c) as [[[r| | |] y1]|] eqn:Hx; try done.
    intros Hr. apply bind_Some in Hr as ([rs' y2] & Hr & [= _ <-]).
    eapply IH; [|done|exact Hr]. by eapply sys_reach_step.
Qed.

Lemma run_calls_reachable {T} el cap cs (y0 y' : state T) rs :
  rcu_new el cap = Ret y0 -> Forall call_usize cs -> run_calls y0 cs = Some (rs, y') ->
  rcu_reachable el cap y'.
Proof. intros Hnew Hcs Hrun. exists y0. split; [done|]. eapply run_calls_steps; [constructor|done..]. Qed.

(** A program with an old reader that has seen items 0 and 1, a removal of item 0
    whose finalization is scheduled, and a reader of the new generation. *)
Definition demo_calls : list (call Z) :=
  [CInsert 10; CInsert 11; CInsert 12; CReader; CReaderGet 0 0 true; CReaderGet 0 1 true;
   CMarkRemoved 0; CSchedule].
Definition demo_start : state Z :=
  Eval vm_compute in
    match rcu_new demo_layout 70 with
    | Ret y => y
    | _ => mkSys (mkHeap None false 0 0 ∅ 0 []) None [] BNone [] []
    end.
Definition demo_state : state Z :=
  Eval vm_compute in
    match run_calls demo_start demo_calls with Some (_, y) => y | None => demo_start end.

Lemma demo_state_reachable : rcu_reachable demo_layout 70 demo_state.
Proof.
  eapply (run_calls_reachable _ _ demo_calls demo_start).
  - vm_compute; reflexivity.
  - by repeat constructor.
  - vm_compute; reflexivity.
Qed.

(** ** Safety *)

(** C12 (safety). No sequence of calls on an [RcuCslab], its readers and its
    entries, interleaved in any way with the drops of generations on other
    threads and with stale loads of the bitmap, has undefined behaviour or
    panics, except that removing an absent index panics. *)
Theorem rcu_calls_safe {T} el cap (y : state T) c o y' :
  entry_layout_ok el -> rcu_reachable el cap y -> call_usize c -> exec y c = Some (o, y') ->
  (exists r, o = Ret r)
  \/ (o = Panic /\ exists i, c = CMarkRemoved i /\ exec y (CGet i) = Some (Ret (AGet None), y)).
Proof.
  intros Hel Hy Hc Hx. destruct (rcu_reachable_inv el cap y Hel Hy) as [[v I]|D].
  2:{ by rewrite exec_done in Hx. }
  destruct (exec_good y v c _ I Hc Hx) as [(r & y'' & [= -> _] & _)|(i & -> & Hi & [= -> _])].
  - left. by exists r.
  - right. split; [done|]. exists i. split; [done|].
    cbn in Hx |- *. destruct (sys_rcu y) as [r|]; [|done]. cbn in Hx |- *.
    destruct (sys_borrow y); [|done..]. destruct (inv_slab y v I) as (s & Hs & Ha).
    unfold run_on, rcu_get. rewrite (read_storage_rel _ _ s (present (v_spec v) !! i) Hs).
    + by rewrite Hi, set_heap_id.
    + by apply abs_get.
Qed.

Lemma rcu_calls_safe_witness :
  exists o y', exec demo_state (CReaderDrop 0) = Some (o, y') /\ exists r, o = Ret r.
Proof.
  eexists _, _. split; [vm_compute; reflexivity|].
  destruct (rcu_calls_safe demo_layout 70 demo_state (CReaderDrop 0) (Ret AUnit)
    match exec demo_state (CReaderDrop 0) with Some (_, y') => y' | None => demo_state end)
    as [H|[H _]]; [by_decide|exact demo_state_reachable|done|vm_compute; reflexivity|exact H|done].
Defined.

(** C13 (safety). What a reader has read stays readable, with the same value, for
    as long as the reader lives: whatever is removed or inserted meanwhile,
    [get_unchecked] returns it. *)
Theorem reader_items_stay {T} el cap (y : state T) k rd i t :
  entry_layout_ok el -> rcu_reachable el cap y ->
  sys_readers y !! k = Some rd -> r_seen rd !! i = Some t ->
  exec y (CReaderGetUnchecked k i) = Some (Ret (AItem t), y).
Proof.
  intros Hel Hy Hk Ht. destruct (rcu_reachable_inv el cap y Hel Hy) as [[v I]|D].
  2:{ by rewrite (sd_readers _ D) in Hk. }
  cbn. rewrite Hk. cbn. rewrite Ht. cbn.
  destruct (si_seen _ _ _ _ _ I rd (list_elem_of_lookup_2 _ _ _ Hk) i t Ht) as [_ Hs].
  unfold run_on. rewrite (get_unchecked_call y v i t I) by naive_solver.
  by rewrite set_heap_id.
Qed.

Lemma reader_items_stay_witness :
  exec demo_state (CGet 0) = Some (Ret (AGet None), demo_state)
  /\ exec demo_state (CReaderGetUnchecked 0 0) = Some (Ret (AItem 10), demo_state).
Proof.
  split; [vm_compute; reflexivity|].
  apply (reader_items_stay demo_layout 70 demo_state 0
           match sys_readers demo_state with rd :: _ => rd | [] => mkReader 0 ∅ end);
    [by_decide|exact demo_state_reachable|vm_compute; reflexivity|vm_compute; reflexivity].
Defined.

(** C19 (functional). Every call answers what the specification says: in every
    reachable state there are a map of present items, one of pending ones and
    a stack of free indices such that insertion, lookup, the counters, the
    vacant key and the reads of readers and entries return exactly those of
    the specification. *)
Theorem rcu_calls_correct {T} el cap (y : state T) :
  entry_layout_ok el -> rcu_reachable el cap y -> slab (sys_heap y) <> None ->
  exists v c, slab (sys_heap y) = Some c /\ slab_rel c (v_spec v)
    /\ forall k r y', call_usize k -> exec y k = Some (Ret r, y') -> resp_ok y v k r.
Proof.
  intros Hel Hy Hn. destruct (rcu_reachable_inv el cap y Hel Hy) as [[v I]|D].
  2:{ by rewrite (sd_slab _ D) in Hn. }
  destruct (inv_slab y v I) as (c & Hc & Ha). exists v, c. split; [done|]. split; [exact Ha|].
  intros k r y' Hk Hx.
  destruct (exec_good y v k _ I Hk Hx) as [(r' & y'' & [= <- _] & Hr & _)|(i & _ & _ & ?)]; done.
Qed.

Lemma rcu_calls_correct_witness :
  exists v c, slab (sys_heap demo_state) = Some c /\ slab_rel c (v_spec v)
    /\ exec demo_state CLen = Some (Ret (ANum 2), demo_state)
    /\ ANum (T := Z) 2 = ANum (Z.of_nat (base.size (present (v_spec v)))).
Proof.
  destruct (rcu_calls_correct demo_layout 70 demo_state) as (v & c & Hs & R & H);
    [by_decide|exact demo_state_reachable|done|].
  assert (exec demo_state CLen = Some (Ret (ANum 2), demo_state)) as Hx by (vm_compute; reflexivity).
  exists v, c. split; [exact Hs|]. split; [exact R|]. split; [exact Hx|].
  exact (H CLen _ _ I Hx).
Defined.

(** C18 (invariant). Generations are finalized in the order of their creation:
    when a thread is about to finalize one, no older one is left, no reader is
    of that generation or an older one, and no other drop is under way. *)
Theorem finalized_in_order {T} el cap (y : state T) g :
  entry_layout_ok el -> rcu_reachable el cap y -> TFinalize g ∈ sys_tasks y ->
  sys_tasks y = [TFinalize g]
  /\ (forall g', is_Some (gens (sys_heap y) !! g') -> (g <= g')%nat)
  /\ (forall rd, rd ∈ sys_readers y -> (g < r_gen rd)%nat)
  /\ (forall e, e ∈ entries_of (sys_borrow y) -> (g < e_gen e)%nat).
Proof.
  intros Hel Hy Hg. destruct (rcu_reachable_inv el cap y Hel Hy) as [[v I]|D].
  2:{ rewrite (sd_tasks _ D) in Hg. by apply elem_of_nil in Hg. }
  pose proof (si_heap _ _ _ _ _ I) as R. pose proof (si_tasks _ _ _ _ _ I) as Ht.
  assert (v_phase v = Finalizing /\ sys_tasks y = [TFinalize g] /\ g = v_lo v) as (Hph & Hts & ->).
  { destruct (v_phase v); cbn in Ht; [destruct Ht as [Ht|Ht]|..]; rewrite Ht in Hg |- *;
      rewrite ?elem_of_nil, ?list_elem_of_singleton in Hg; by simplify_eq. }
  assert (forall g', g' ∈ v_refs v -> (v_lo v < g')%nat) as Href.
  { intros g' Hg'. pose proof (hr_refs _ _ R g' Hg').
    destruct (decide (g' = v_lo v)) as [->|]; [|lia].
    apply (hr_phase _ _ R) in Hg'. congruence. }
  split; [done|]. split; [|split].
  - intros g' Hg'. apply (hr_dom _ _ R) in Hg'. lia.
  - intros rd Hrd. apply Href. rewrite (si_refs _ _ _ _ _ I). cbn. unfold sys_refs.
    rewrite !elem_of_app. right. left. by apply list_elem_of_fmap_2.
  - intros e He. apply Href. rewrite (si_refs _ _ _ _ _ I). cbn. unfold sys_refs.
    rewrite !elem_of_app. right. right. left. by apply list_elem_of_fmap_2.
Qed.

(** [demo_state] after its old reader is dropped: the first generation is about to
    be finalized. *)
Definition demo_dropping : state Z :=
  Eval vm_compute in
    match exec demo_state (CReaderDrop 0) with Some (_, y) => y | None => demo_state end.

Lemma demo_dropping_reachable : rcu_reachable demo_layout 70 demo_dropping.
Proof.
  eapply (run_calls_reachable _ _ (demo_calls ++ [CReaderDrop 0]) demo_start).
  - vm_compute; reflexivity.
  - by repeat constructor.
  - vm_compute; reflexivity.
Qed.

Lemma finalized_in_order_witness :
  sys_tasks demo_dropping = [TFinalize 0]
  /\ forall rd, rd ∈ sys_readers demo_dropping -> (0 < r_gen rd)%nat.
Proof.
  destruct (finalized_in_order demo_layout 70 demo_dropping 0) as (Ht & _ & Hr & _);
    [by_decide|exact demo_dropping_reachable|by left|].
  split; [exact Ht|exact Hr].
Defined.
