(* ===== verification/RcuReclaim.v ===== *)
(** Reclamation in the [RcuCslab]: drops terminate, nothing is leaked or dropped
    twice, and what the operations of the writer finalize. *)

From S2P Require Import Prelude CslabWord CslabStorage Cslab SlabSpec SlabKeys.
From S2P Require Import CslabProof CslabIter CslabIterProof SlabInterface CslabProps.
From S2P Require Import RcuCslab RcuSystem RcuHeap RcuInv RcuSafe RcuSafeMut RcuDrain RcuCorrect.

(** ** Termination and accounting *)

(** [n] steps of the drop under way. *)
Fixpoint run_drop {T} (n : nat) (y : state T) : option (state T) :=
  match n with
  | O => Some y
  | S n' => match exec y (CTask 0) with Some (Ret _, y') => run_drop n' y' | _ => None end
  end.

Lemma exec_drop_step {T} (y : state T) v t :
  sys_inv [] 0 0 y v -> sys_tasks y = [t] -> (forall k, sys_borrow y <> BVacant k) ->
  exec y (CTask 0) = Some (run_on y (task_step t) (fun t' y' => (AUnit, add_task t' (set_tasks [] y')))).
Proof.
  intros I Hts Hb. cbn. unfold exec_task. rewrite Hts. cbn.
  destruct t, (sys_borrow y) as [|k|]; try done. by destruct (Hb k).
Qed.

Lemma run_drop_ends {T} n : forall (y : state T) v t,
  sys_inv [] 0 0 y v -> sys_tasks y = option_list t -> (forall k, sys_borrow y <> BVacant k) ->
  (task_left t (base.size (gens (sys_heap y))) <= n)%nat ->
  exists m y', (m <= n)%nat /\ run_drop m y = Some y' /\ sys_tasks y' = [].
Proof.
  induction n as [|n IH]; intros y v t I Hts Hb Hn.
  - destruct t as [t|]; [|by exists 0%nat, y].
    pose proof (gens_positive y v I). destruct t; cbn in Hn; lia.
  - destruct t as [t|]; [|exists 0%nat, y; split; [lia|done]]. cbn in Hts.
    destruct (task_progress y v t I Hts Hb) as (t' & h & H1 & Hlt & Hy).
    pose proof (exec_drop_step y v t I Hts Hb) as Hx. erewrite run_on_Ret in Hx by exact H1.
    cbn [fst snd] in Hx. destruct Hy as [(v' & I' & _)|[D ->]].
    + destruct (IH _ v' t' I') as (m & y' & Hm & Hr & Hd); [by cbn|done|cbn; lia|].
      exists (S m), y'. split; [lia|]. cbn [run_drop]. by rewrite Hx.
    + eexists 1%nat, _. split; [lia|]. cbn [run_drop]. rewrite Hx. split; [done|]. apply D.
Qed.

(** C22 (termination). The drop of a generation always comes to its end, together
    with the drops of the newer generations that it sets off: within three
    steps per generation alive, each of which the thread can make, unless the
    lock is held by a vacant entry. *)
Theorem drops_terminate {T} el cap (y : state T) :
  entry_layout_ok el -> rcu_reachable el cap y -> (forall k, sys_borrow y <> BVacant k) ->
  exists m y', (m <= 3 * base.size (gens (sys_heap y)))%nat
    /\ run_drop m y = Some y' /\ sys_tasks y' = [].
Proof.
  intros Hel Hy Hb. destruct (rcu_reachable_inv el cap y Hel Hy) as [[v I]|D].
  2:{ exists 0%nat, y. split; [lia|]. split; [done|apply D]. }
  assert (exists t, sys_tasks y = option_list t) as [t Ht].
  { pose proof (si_tasks _ _ _ _ _ I) as Ht. destruct (v_phase v); cbn in Ht.
    - destruct Ht as [Ht|Ht]; [by exists None|by eexists (Some _)].
    - by eexists (Some _).
    - by eexists (Some _). }
  destruct (run_drop_ends (3 * base.size (gens (sys_heap y))) y v t I Ht Hb) as (m & y' & H);
    [|by exists m, y'].
  destruct t as [[]|]; cbn; lia.
Qed.

Lemma drops_terminate_witness :
  sys_tasks demo_dropping = [TFinalize 0]
  /\ exists m y', (m <= 6)%nat /\ run_drop m demo_dropping = Some y' /\ sys_tasks y' = [].
Proof.
  split; [reflexivity|].
  apply (drops_terminate demo_layout 70 demo_dropping); [by_decide|exact demo_dropping_reachable|done].
Defined.

(** C20 (invariant). Every item that was ever inserted is accounted for once: it is
    present, its removal is pending, or it has been dropped.  So no item is
    dropped twice, and none is dropped while it can be read. *)
Theorem items_accounted {T} el cap (y : state T) c :
  entry_layout_ok el -> rcu_reachable el cap y -> slab (sys_heap y) = Some c ->
  exists a, slab_rel c a
    /\ sys_inserted y ≡ₚ items (present a) ++ items (pending a) ++ dropped (sys_heap y).
Proof.
  intros Hel Hy Hc. destruct (rcu_reachable_inv el cap y Hel Hy) as [[v I]|D].
  2:{ by rewrite (sd_slab _ D) in Hc. }
  destruct (inv_slab y v I) as (c' & Hc' & Ha). rewrite Hc in Hc'. injection Hc' as <-.
  exists (v_spec v). split; [exact Ha|].
  rewrite (hr_dropped _ _ (si_heap _ _ _ _ _ I)). apply I.
Qed.

Lemma items_accounted_witness :
  exists c a, slab (sys_heap demo_state) = Some c /\ slab_rel c a
    /\ sys_inserted demo_state = [10; 11; 12]
    /\ sys_inserted demo_state ≡ₚ items (present a) ++ items (pending a) ++ dropped (sys_heap demo_state).
Proof.
  destruct (slab (sys_heap demo_state)) as [c|] eqn:Hc.
  - destruct (items_accounted demo_layout 70 demo_state c) as (a & R & Hp);
      [by_decide|exact demo_state_reachable|exact Hc|].
    exists c, a. split; [reflexivity|]. split; [exact R|]. split; [reflexivity|exact Hp].
  - exfalso. vm_compute in Hc. discriminate Hc.
Defined.

(** C21 (safety). When the [RcuCslab] and all its readers are gone and no drop is
    left to run, the slab has been freed and every item that was ever inserted
    has been dropped, once. *)
Theorem all_dropped_at_end {T} el cap (y : state T) :
  entry_layout_ok el -> rcu_reachable el cap y ->
  sys_rcu y = None -> sys_readers y = [] -> sys_tasks y = [] ->
  slab (sys_heap y) = None /\ gens (sys_heap y) = ∅ /\ sys_inserted y ≡ₚ dropped (sys_heap y).
Proof.
  intros Hel Hy Hr Hrd Hts. destruct (rcu_reachable_inv el cap y Hel Hy) as [[v I]|D].
  2:{ split; [apply D|]. split; apply D. }
  exfalso. assert (v_lo v ∈ v_refs v) as Hin.
  { apply (hr_phase _ _ (si_heap _ _ _ _ _ I)). pose proof (si_tasks _ _ _ _ _ I) as Ht.
    rewrite Hts in Ht. by destruct (v_phase v). }
  rewrite (si_refs _ _ _ _ _ I) in Hin. unfold sys_refs in Hin. rewrite Hr, Hrd, Hts in Hin.
  pose proof (si_borrow _ _ _ _ _ I) as Hb. unfold borrow_ok in Hb. rewrite Hr in Hb.
  destruct (sys_borrow y); cbn in Hin.
  - by apply elem_of_nil in Hin.
  - by apply elem_of_nil in Hin.
  - by destruct Hb as (? & ? & _).
Qed.

(** A program that drops everything: the slab first, then the readers. *)
Definition demo_end_calls : list (call Z) :=
  demo_calls ++ [CDropRcu; CReaderDrop 0; CTask 0; CTask 0; CTask 0; CReaderDrop 0; CTask 0; CTask 0].
Definition demo_end : state Z :=
  Eval vm_compute in
    match run_calls demo_start demo_end_calls with Some (_, y) => y | None => demo_start end.

Lemma demo_end_reachable : rcu_reachable demo_layout 70 demo_end.
Proof.
  eapply (run_calls_reachable _ _ demo_end_calls demo_start).
  - vm_compute; reflexivity.
  - by repeat constructor.
  - vm_compute; reflexivity.
Qed.

Lemma all_dropped_at_end_witness :
  slab (sys_heap demo_end) = None /\ sys_inserted demo_end = [10; 11; 12]
  /\ sys_inserted demo_end ≡ₚ dropped (sys_heap demo_end).
Proof.
  destruct (all_dropped_at_end demo_layout 70 demo_end) as (Hs & _ & Hp);
    [by_decide|exact demo_end_reachable|reflexivity..|].
  split; [exact Hs|]. split; [reflexivity|exact Hp].
Defined.
