(* ===== verification/RcuWriter.v ===== *)
(** The operations of the writer of an [RcuCslab]: scheduling finalization,
    clearing, iterating, vacant entries, and the poisoned lock. *)

From S2P Require Import Prelude CslabWord CslabStorage Cslab SlabSpec SlabKeys.
From S2P Require Import CslabProof CslabIter CslabIterProof SlabInterface CslabProps.
From S2P Require Import RcuCslab RcuSystem RcuHeap RcuInv RcuSafe RcuSafeMut RcuDrain RcuCorrect.

(** ** Scheduling finalization *)

(** The reads of the writer in a state that satisfies the invariant. *)
Lemma writer_reads {T} (y : state T) v :
  sys_inv [] 0 0 y v ->
  rcu_len (sys_heap y) = (Ret (Z.of_nat (base.size (present (v_spec v)))), sys_heap y)
  /\ rcu_allocated (sys_heap y)
     = (Ret (Z.of_nat (base.size (present (v_spec v))) + Z.of_nat (base.size (pending (v_spec v)))),
        sys_heap y)
  /\ forall i, 0 <= i -> rcu_get i (sys_heap y) = (Ret (present (v_spec v) !! i), sys_heap y).
Proof.
  intros I. destruct (lock_read y v slab_len I) as (c & Ha & Hl).
  destruct (lock_read y v slab_allocated I) as (c' & Ha' & Hl').
  destruct (inv_slab y v I) as (c0 & Hs & Ha0). unfold rcu_len, rcu_allocated, rcu_get.
  rewrite Hl, Hl'. split; [by rewrite (abs_len c _ Ha)|].
  split; [by rewrite (abs_allocated c' _ Ha')|]. intros i Hi.
  apply (read_storage_rel _ _ c0); [done|]. by apply abs_get.
Qed.

(** Nothing is pending when the only generation is one that owns nothing. *)
Lemma nothing_pending {T} (y : state T) v r :
  sys_inv [] 0 0 y v -> sys_rcu y = Some r -> sys_borrow y = BNone -> sys_tasks y = [] ->
  (forall rd, rd ∈ sys_readers y -> r_gen rd = cur_gen r) ->
  (forall i, v_own v !! i <> Some (cur_gen r)) -> pending (v_spec v) = ∅.
Proof.
  intros I Hr Hb Hts Hrd Ho. destruct (quiescent_gens y v r I Hr Hb Hts Hrd) as (n & _ & Hp & _).
  apply map_empty. intros i. apply eq_None_not_Some. rewrite Hp. apply Ho.
Qed.

(** C26 (liveness). When there are no readers, and no drop of a generation is
    under way, [remove] finalizes at once: it drops the item during the call, gives back a reader of the new generation, and
    leaves no slot allocated that holds no item. *)
Theorem remove_alone_finalizes {T} el cap (y : state T) r i t :
  entry_layout_ok el -> rcu_reachable el cap y ->
  sys_rcu y = Some r -> sys_borrow y = BNone -> sys_tasks y = [] -> sys_readers y = [] ->
  0 <= i -> rcu_get i (sys_heap y) = (Ret (Some t), sys_heap y) ->
  exists r' h n, rcu_remove r i (sys_heap y) = (Ret (r', cur_gen r'), h)
    /\ cur_gen r' = S (cur_gen r)
    /\ rcu_len (sys_heap y) = (Ret (n + 1), sys_heap y)
    /\ rcu_len h = (Ret n, h) /\ rcu_allocated h = (Ret n, h)
    /\ rcu_get i h = (Ret None, h) /\ t ∈ dropped h
    /\ forall j, 0 <= j -> j <> i -> exists o,
         rcu_get j (sys_heap y) = (Ret o, sys_heap y) /\ rcu_get j h = (Ret o, h).
Proof.
  intros Hel Hy Hr Hb Hts Hrd Hi Hget. destruct (rcu_reachable_inv el cap y Hel Hy) as [[v I]|D].
  2:{ by rewrite (sd_rcu _ D) in Hr. }
  destruct (writer_reads y v I) as (Hlen & _ & Hgets). rewrite Hgets in Hget by done.
  injection Hget as Ht.
  destruct (rcu_remove_inv y v r i t I Hr Hb Hts Hi Ht) as (r' & h & v' & Hrm & I' & Hp & Ho & Hcur).
  destruct (writer_reads _ v' I') as (Hlen' & Hall' & Hgets'). cbn [sys_heap add_reader set_readers] in *.
  assert (pending (v_spec v') = ∅) as Hpend.
  { apply (nothing_pending _ v' r' I'); [done|done|done| |done].
    cbn. rewrite Hrd. by intros rd ->%list_elem_of_singleton. }
  pose proof (map_size_ne_0_lookup_2 _ _ (mk_is_Some _ _ Ht)) as Hsz.
  assert (Z.of_nat (base.size (present (v_spec v'))) = Z.of_nat (base.size (present (v_spec v))) - 1) as Hn.
  { rewrite Hp, (map_size_delete_Some _ _ (mk_is_Some _ _ Ht)). lia. }
  exists r', h, (Z.of_nat (base.size (present (v_spec v'))) ). split; [exact Hrm|]. split; [done|].
  split; [rewrite Hlen, Hn; do 2 f_equal; lia|]. split; [exact Hlen'|].
  split; [rewrite Hpend in Hall'; cbn in Hall' |- *; rewrite Hall', map_size_empty, Z.add_0_r; done|].
  split; [cbn in Hgets' |- *; rewrite Hgets' by done; by rewrite Hp, lookup_delete_eq|].
  split.
  - (* the items are accounted for before and after *)
    pose proof (si_items _ _ _ _ _ I) as Hi1. pose proof (si_items _ _ _ _ _ I') as Hi2. cbn in Hi2.
    rewrite Hi1, Hp, Hpend in Hi2.
    rewrite (items_delete (present (v_spec v)) i t Ht) in Hi2.
    unfold items at 4 in Hi2. rewrite map_to_list_empty in Hi2. cbn [fmap list_fmap app] in Hi2.
    pose proof (hr_dropped _ _ (si_heap _ _ _ _ _ I')) as Hd. cbn in Hd. rewrite Hd.
    rewrite Permutation_middle in Hi2. apply Permutation_app_inv_l in Hi2.
    rewrite <- Hi2. by left.
  - intros j Hj Hne. exists (present (v_spec v) !! j). split; [by apply Hgets|].
    cbn in Hgets' |- *. rewrite Hgets' by done. by rewrite Hp, lookup_delete_ne.
Qed.

(** The state after inserting two items. *)
Definition demo_quiet_calls : list (call Z) := [CInsert 10; CInsert 11; CInsert 12].
Definition demo_quiet : state Z :=
  Eval vm_compute in
    match run_calls demo_start demo_quiet_calls with Some (_, y) => y | None => demo_start end.

Lemma demo_quiet_reachable : rcu_reachable demo_layout 70 demo_quiet.
Proof.
  eapply (run_calls_reachable _ _ demo_quiet_calls demo_start).
  - vm_compute; reflexivity.
  - by repeat constructor.
  - vm_compute; reflexivity.
Qed.

Lemma remove_alone_finalizes_witness :
  exists r' h, rcu_remove (mkRcu 70 0) 1 (sys_heap demo_quiet) = (Ret (r', cur_gen r'), h)
    /\ rcu_get 1 h = (Ret None, h) /\ 11 ∈ dropped h.
Proof.
  destruct (remove_alone_finalizes demo_layout 70 demo_quiet (mkRcu 70 0) 1 11)
    as (r' & h & n & H1 & _ & _ & _ & _ & H2 & H3 & _);
    [by_decide|exact demo_quiet_reachable|reflexivity..|lia|vm_compute; reflexivity|].
  exists r', h. split; [exact H1|]. split; [exact H2|exact H3].
Defined.

(** C25 (functional). Called while no drop of a generation is under way,
    [clear] terminates and removes every item: it returns a reader of the new
    generation, through which nothing is found; the items stay allocated while
    there are older readers, and are all dropped during the call when there are
    none. *)
Theorem clear_removes_all {T} el cap (y : state T) r :
  entry_layout_ok el -> rcu_reachable el cap y ->
  sys_rcu y = Some r -> sys_borrow y = BNone -> sys_tasks y = [] ->
  exists r' h, rcu_clear r (sys_heap y) = (Ret (r', cur_gen r'), h)
    /\ cur_gen r' = S (cur_gen r)
    /\ rcu_len h = (Ret 0, h)
    /\ (forall i, 0 <= i -> rcu_get i h = (Ret None, h))
    /\ (sys_readers y = [] ->
          rcu_allocated h = (Ret 0, h) /\ sys_inserted y ≡ₚ dropped h).
Proof.
  intros Hel Hy Hr Hb Hts. destruct (rcu_reachable_inv el cap y Hel Hy) as [[v I]|D].
  2:{ by rewrite (sd_rcu _ D) in Hr. }
  destruct (rcu_clear_inv y v r I Hr Hb Hts) as (r' & h & v' & Hcl & I' & Hp & Ho & Hcur).
  destruct (writer_reads _ v' I') as (Hlen' & Hall' & Hgets'). cbn [sys_heap add_reader set_readers] in *.
  exists r', h. split; [exact Hcl|]. split; [done|].
  rewrite Hp, map_size_empty in Hlen', Hall'. split; [exact Hlen'|].
  split; [intros i Hi; specialize (Hgets' i Hi); by rewrite Hp, lookup_empty in Hgets'|].
  intros Hrd. assert (pending (v_spec v') = ∅) as Hpend.
  { apply (nothing_pending _ v' r' I'); [done|done|done| |done].
    cbn. rewrite Hrd. by intros rd ->%list_elem_of_singleton. }
  rewrite Hpend, map_size_empty in Hall'. split; [exact Hall'|].
  pose proof (si_items _ _ _ _ _ I') as Hi. cbn in Hi. rewrite Hi, Hp, Hpend.
  unfold items. rewrite map_to_list_empty. cbn.
  by rewrite <- (hr_dropped _ _ (si_heap _ _ _ _ _ I')).
Qed.

Lemma clear_removes_all_witness :
  exists r' h, rcu_clear (mkRcu 70 0) (sys_heap demo_quiet) = (Ret (r', cur_gen r'), h)
    /\ rcu_len h = (Ret 0, h) /\ sys_inserted demo_quiet ≡ₚ dropped h.
Proof.
  destruct (clear_removes_all demo_layout 70 demo_quiet (mkRcu 70 0))
    as (r' & h & H1 & _ & H2 & _ & H3); [by_decide|exact demo_quiet_reachable|reflexivity..|].
  exists r', h. split; [exact H1|]. split; [exact H2|]. apply H3. reflexivity.
Defined.

(** ** The mutable borrows *)

(** The length that an [RcuIterMut] reports is exact at every moment,
    whichever of its entries were removed meanwhile: it yields an entry, from
    either end, exactly while the length is positive, and the length then goes
    down by one; its decrement never underflows. *)
Theorem iter_mut_len_exact {T} el cap (y : state T) im es front :
  entry_layout_ok el -> rcu_reachable el cap y -> sys_borrow y = BMut (Some im) es ->
  exists e im' y', exec y (CIterNext front) = Some (Ret (AEntry e), y')
    /\ sys_borrow y' = BMut (Some im') (es ++ option_list e)
    /\ 0 <= remaining im
    /\ match e with
       | Some _ => remaining im' = remaining im - 1
       | None => remaining im = 0 /\ remaining im' = 0
       end.
Proof.
  intros Hel Hy Hb. destruct (rcu_reachable_inv el cap y Hel Hy) as [[v I]|D].
  2:{ by rewrite (sd_borrow _ D) in Hb. }
  pose proof (si_borrow _ _ _ _ _ I) as Hbo. unfold borrow_ok in Hbo.
  rewrite Hb in Hbo. destruct Hbo as (r & Hr & g & He & Hnd & Hle & Hg & Hok & Hrem & Hdisj).
  destruct (pull_call y v r im front I Hok) as ([[[i t]|] it] & Hp & Hm).
  - destruct Hp as (_ & _ & Hlen & _).
    destruct (inv_clone_gen _ _ _ y v (cur_gen r) I) as (h & v' & Hc & _); [by eapply handle_ref|].
    unfold iter_mut_yield in Hm. rewrite Hrem, Hlen, sub_u_Ret in Hm by lia.
    unfold fail in Hm. cbv [mbind stateful_bind] in Hm. rewrite Hc in Hm.
    eexists _, _, _. cbn [exec]. rewrite Hr. cbn. rewrite Hb. cbn.
    erewrite run_on_Ret by exact Hm. split; [reflexivity|]. cbn. split; [reflexivity|]. cbn.
    rewrite Hrem, Hlen. lia.
  - destruct Hp as (_ & _ & Hnil & _). unfold iter_mut_yield in Hm. cbn in Hm.
    eexists _, _, _. cbn [exec]. rewrite Hr. cbn. rewrite Hb. cbn.
    erewrite run_on_Ret by exact Hm. split; [reflexivity|]. cbn. split; [reflexivity|]. cbn.
    rewrite Hrem, Hnil. done.
Qed.

Definition demo_iter : state Z :=
  Eval vm_compute in
    match run_calls demo_start (demo_quiet_calls ++ [CIterMut; CIterNext true; CEntryRemove 0])
    with Some (_, y) => y | None => demo_start end.

Lemma demo_iter_reachable : rcu_reachable demo_layout 70 demo_iter.
Proof.
  eapply (run_calls_reachable _ _ (demo_quiet_calls ++ [CIterMut; CIterNext true; CEntryRemove 0]) demo_start).
  - vm_compute; reflexivity.
  - by repeat constructor.
  - vm_compute; reflexivity.
Qed.

Lemma iter_mut_len_exact_witness :
  sys_borrow demo_iter = BMut (Some (mkIterMut (mkIter 1 3) 2)) []
  /\ exists e im' y', exec demo_iter (CIterNext false) = Some (Ret (AEntry e), y')
       /\ sys_borrow y' = BMut (Some im') ([] ++ option_list e).
Proof.
  split; [reflexivity|].
  destruct (iter_mut_len_exact demo_layout 70 demo_iter (mkIterMut (mkIter 1 3) 2) [] false)
    as (e & im' & y' & H1 & H2 & _); [by_decide|exact demo_iter_reachable|reflexivity|].
  exists e, im', y'. split; [exact H1|exact H2].
Defined.

(** A vacant entry reserves its slot: as long as it is held, whatever
    readers are made, used and dropped on other threads, its key is the one
    announced when it was made, and inserting through it never fails and
    stores the item at that key. *)
Theorem vacant_entry_reserved {T} el cap (y : state T) k t :
  entry_layout_ok el -> rcu_reachable el cap y -> sys_borrow y = BVacant k ->
  exec y CVacantEntryKey = Some (Ret (AKey (Ok k)), y)
  /\ exists y', exec y (CVacantEntryInsert t) = Some (Ret (AKey (Ok k)), y')
       /\ exec y' (CGet k) = Some (Ret (AGet (Some t)), y').
Proof.
  intros Hel Hy Hb. destruct (rcu_reachable_inv el cap y Hel Hy) as [[v I]|D].
  2:{ by rewrite (sd_borrow _ D) in Hb. }
  pose proof (si_borrow _ _ _ _ _ I) as Hbo. unfold borrow_ok in Hbo. rewrite Hb in Hbo.
  destruct Hbo as [[r Hr] Hf]. destruct (free (v_spec v)) as [|i l] eqn:Ef; [done|]. injection Hf as ->.
  destruct (inv_slab y v I) as (c & Hs & Ha). cbn. rewrite Hr. cbn. rewrite Hb. cbn. split.
  - unfold run_on, vacant_rcu_entry_key, lock_writer.
    rewrite Hs, (hr_poisoned _ _ (si_heap _ _ _ _ _ I)).
    rewrite (abs_vacant_key c _ Ha), Ef. by rewrite set_slab_id, set_heap_id.
  - destruct (insert_call y v t k l I Ef) as (c1 & c2 & h & Hs1 & Hi & Hp & -> & R).
    erewrite run_on_Ret by (unfold vacant_rcu_entry_insert, lock_writer; by rewrite Hs1, Hp, Hi).
    eexists. split; [reflexivity|]. cbn. rewrite Hr. cbn.
    destruct (hr_slab _ _ R) as (c3 & Hs3 & Ha3). cbn in Hs3, Ha3. injection Hs3 as <-.
    unfold run_on, rcu_get, read_storage. cbn.
    assert (0 <= k) as Hk.
    { destruct (abs_wf c _ Ha) as (_ & _ & _ & Hcov & _). apply Hcov. left. rewrite Ef. by left. }
    pose proof (abs_get c2 _ k Ha3 Hk) as Hg. cbn in Hg. rewrite lookup_insert_eq in Hg. by rewrite Hg.
Qed.

Definition demo_vacant : state Z :=
  Eval vm_compute in
    match run_calls demo_start (demo_calls ++ [CVacantEntry; CReaderDrop 0])
    with Some (_, y) => y | None => demo_start end.

Lemma demo_vacant_reachable : rcu_reachable demo_layout 70 demo_vacant.
Proof.
  eapply (run_calls_reachable _ _ (demo_calls ++ [CVacantEntry; CReaderDrop 0]) demo_start).
  - vm_compute; reflexivity.
  - by repeat constructor.
  - vm_compute; reflexivity.
Qed.

Lemma vacant_entry_reserved_witness :
  sys_tasks demo_vacant = [TFinalize 0] /\ exec demo_vacant (CTask 0) = None
  /\ exists y', exec demo_vacant (CVacantEntryInsert 13) = Some (Ret (AKey (Ok 3)), y').
Proof.
  split; [reflexivity|]. split; [reflexivity|].
  destruct (vacant_entry_reserved demo_layout 70 demo_vacant 3 13) as (_ & y' & H & _);
    [by_decide|exact demo_vacant_reachable|reflexivity|].
  exists y'. exact H.
Defined.

(** ** The poisoned lock *)




(** Computations that do not look at the mutex: poisoning it changes nothing of
    what they do. *)
Section lock_free.
Context {W T : Type} {Ops : SlabOps W T}.
Abbreviation H := (stateful (heap W T)).

Class LockFree {A} (m : H A) : Prop :=
  lock_free : forall h, m (set_poisoned h) = ((m h).1, set_poisoned (m h).2).

#[export] Instance lock_free_ret {A} (x : A) : LockFree (mret x).
Proof. done. Qed.
#[export] Instance lock_free_fail {A} (o : outcome A) : LockFree (fail o).
Proof. done. Qed.
#[export] Instance lock_free_bind {A B} (m : H A) (f : A -> H B) :
  LockFree m -> (forall x, LockFree (f x)) -> LockFree (mbind f m).
Proof.
  intros Hm Hf h. cbv [mbind stateful_bind]. rewrite Hm. destruct (m h) as [[x| | |] h']; try done. apply Hf.
Qed.
#[export] Instance lock_free_read {A} (f : W -> outcome A) : LockFree (read_storage f).
Proof. intros h. unfold read_storage; cbn. by destruct (slab h). Qed.
#[export] Instance lock_free_get_gen g : LockFree (get_gen (W := W) (T := T) g).
Proof. intros h. unfold get_gen; cbn. by destruct (gens h !! g). Qed.
#[export] Instance lock_free_put_gen g n : LockFree (put_gen (W := W) (T := T) g n).
Proof. done. Qed.
#[export] Instance lock_free_clone_gen g : LockFree (clone_gen (W := W) (T := T) g).
Proof. apply _. Qed.
#[export] Instance lock_free_clone_storage : LockFree (clone_storage (W := W) (T := T)).
Proof. done. Qed.
#[export] Instance lock_free_release_storage : LockFree release_storage.
Proof.
  intros h. unfold release_storage; cbn. destruct (storage_strong h) as [|[|n]]; try done.
  destruct (slab h) as [s|]; [|done]. by destruct (slab_drop s).
Qed.
#[export] Instance lock_free_release_writer : LockFree release_writer.
Proof.
  intros h. unfold release_writer; cbn. destruct (writer_strong h) as [|[|n]]; try done.
  apply (lock_free (m := release_storage) (set_writer_strong 0 h)).
Qed.
#[export] Instance lock_free_release_gen g : LockFree (release_gen (W := W) (T := T) g).
Proof. apply lock_free_bind; [apply _|]. intros n. destruct (strong n); apply _. Qed.
#[export] Instance lock_free_free_gen g : LockFree (free_gen g).
Proof. apply lock_free_bind; [apply _|]. intros n. apply lock_free_bind; [done|apply _]. Qed.
#[export] Instance lock_free_link g n : LockFree (link_next_gen (W := W) (T := T) g n).
Proof. apply lock_free_bind; [apply _|]. intros e. destruct (next_gen (inner e)); apply _. Qed.
#[export] Instance lock_free_advance r : LockFree (advance_link (W := W) (T := T) r).
Proof. apply lock_free_bind; [done|apply _]. Qed.














End lock_free.






