(* ===== verification/RcuBox.v ===== *)
(** [RcuBox] and [RcuGuard] of rcu/src/rcu.rs: the two implementations on the
    standard library, [rcu-rwlock] and [rcu-mutex-arc], behind one interface.

    A box is used by any number of threads, which hold guards on it.  A call is
    an atomic step; it may be blocked by the guards that are held. *)

From S2P Require Import Prelude.

(** ** The interface *)

(** The calls on a box, by a program that holds a list of guards; the closures
    are functions of the value, and may panic. *)
Inductive box_call (T U : Type) : Type :=
| BGet
| BDeref (k : nat)
| BDropGuard (k : nat)
| BWrite (t : T)
| BUpdate (f : T -> outcome (option T))
| BInspect (f : T -> outcome U).
Arguments BGet {T U}.
Arguments BDeref {T U} _.
Arguments BDropGuard {T U} _.
Arguments BWrite {T U} _.
Arguments BUpdate {T U} _.
Arguments BInspect {T U} _.

Inductive box_resp (T U : Type) : Type :=
| BUnit
| BValue (t : T)
| BResult (r : result unit unit)
| BInspected (u : U).
Arguments BUnit {T U}.
Arguments BValue {T U} _.
Arguments BResult {T U} _.
Arguments BInspected {T U} _.

(** What a call on a box [B T] leaves: its result, the values that it dropped, and
    the box. *)
Definition box_call_result (B : Type -> Type) (T A : Type) : Type := (outcome A * list T * B T)%type.

(** The operations of an implementation: its box [B] and its guards [G]; [None]
    when the call blocks. *)
Class RcuBoxOps (B : Type -> Type) (G : Type) := {
  box_new {T} : T -> B T;
  box_get {T} : B T -> option (box_call_result B T G);
  box_deref {T} : B T -> G -> outcome T;
  box_drop_guard {T} : B T -> G -> box_call_result B T unit;
  box_write {T} : B T -> T -> option (box_call_result B T unit);
  box_update {T} : B T -> (T -> outcome (option T)) -> option (box_call_result B T (result unit unit));
  box_inspect {T U} : B T -> (T -> outcome U) -> option (box_call_result B T U);
  box_drop {T} : B T -> outcome (list T);     (* with the values that it drops *)
}.

(** ** [rcu-rwlock]: [RcuBox(RwLock<T>)] *)

Module rwlock.

(** [RwLock<T>], with the number of read guards. *)
Record rw_box (T : Type) := mkRw { rw_value : T; rw_readers : nat; rw_poisoned : bool }.
Arguments mkRw {T} _ _ _.
Arguments rw_value {T} _.
Arguments rw_readers {T} _.
Arguments rw_poisoned {T} _.

Definition new {T} (t : T) : rw_box T := mkRw t 0 false.

(** [self.0.read().unwrap()] in [get]: a read lock is never blocked, as no call
    holds the write lock when it ends. *)
Definition get {T} (b : rw_box T) : option (box_call_result rw_box T unit) :=
  if rw_poisoned b then Some (Panic, [], b)
  else Some (Ret tt, [], mkRw (rw_value b) (S (rw_readers b)) (rw_poisoned b)).

Definition deref {T} (b : rw_box T) (g : unit) : outcome T := Ret (rw_value b).

Definition drop_guard {T} (b : rw_box T) (g : unit) : box_call_result rw_box T unit :=
  match rw_readers b with
  | O => (UB, [], b)
  | S n => (Ret tt, [], mkRw (rw_value b) n (rw_poisoned b))
  end.

(** [self.0.write().unwrap()] waits for the readers. *)
Definition write {T} (b : rw_box T) (new_value : T) : option (box_call_result rw_box T unit) :=
  if (rw_readers b =? 0)%nat then
    if rw_poisoned b then Some (Panic, [], b)
    else
      let old := rw_value b in
      Some (Ret tt, [old], mkRw new_value 0 (rw_poisoned b))
  else None.

(** The write lock is held while [f] runs, so that a panic there poisons it. *)
Definition update {T} (b : rw_box T) (f : T -> outcome (option T))
  : option (box_call_result rw_box T (result unit unit)) :=
  if (rw_readers b =? 0)%nat then
    if rw_poisoned b then Some (Panic, [], b)
    else
      Some match f (rw_value b) with
      | Ret None => (Ret (Err tt), [], b)
      | Ret (Some new_value) =>
          let old := rw_value b in
          (Ret (Ok tt), [old], mkRw new_value 0 (rw_poisoned b))
      | Panic => (Panic, [], mkRw (rw_value b) 0 true)
      | UB => (UB, [], b)
      | OutOfFuel => (OutOfFuel, [], b)
      end
  else None.

(** A panic of [f] under the read lock does not poison it. *)
Definition inspect {T U} (b : rw_box T) (f : T -> outcome U) : option (box_call_result rw_box T U) :=
  if rw_poisoned b then Some (Panic, [], b) else Some (f (rw_value b), [], b).

(** Dropping the box drops its value; there are no guards then. *)
Definition drop_box {T} (b : rw_box T) : outcome (list T) := Ret [rw_value b].

#[global] Instance rwlock_ops : RcuBoxOps rw_box unit := {
  box_new := @new;
  box_get := @get;
  box_deref := @deref;
  box_drop_guard := @drop_guard;
  box_write := @write;
  box_update := @update;
  box_inspect := @inspect;
  box_drop := @drop_box;
}.
End rwlock.

(** ** [rcu-mutex-arc]: [RcuBox(Mutex<Arc<T>>)] *)

Module mutex_arc.

(** [Mutex<Arc<T>>]; the [Arc]s are in a heap with their reference counts, and a
    guard is an [Arc]. *)
Record arc_box (T : Type) := mkArcBox {
  ab_current : nat;
  ab_arcs : gmap nat (T * nat);
  ab_next : nat;
  ab_poisoned : bool;
}.
Arguments mkArcBox {T} _ _ _ _.
Arguments ab_current {T} _.
Arguments ab_arcs {T} _.
Arguments ab_next {T} _.
Arguments ab_poisoned {T} _.

(** [Arc::clone], dropping an [Arc], and reading through one. *)
Definition arc_clone {T} (arcs : gmap nat (T * nat)) (a : nat) : outcome (gmap nat (T * nat)) :=
  match arcs !! a with
  | Some (t, n) => Ret (<[a := (t, S n)]> arcs)
  | None => UB
  end.

Definition arc_drop {T} (arcs : gmap nat (T * nat)) (a : nat)
  : outcome (list T * gmap nat (T * nat)) :=
  match arcs !! a with
  | Some (t, 1%nat) => Ret ([t], delete a arcs)
  | Some (t, S n) => Ret ([], <[a := (t, n)]> arcs)
  | _ => UB
  end.

Definition arc_deref {T} (arcs : gmap nat (T * nat)) (a : nat) : outcome T :=
  match arcs !! a with Some (t, _) => Ret t | None => UB end.

Definition set_arcs {T} (arcs : gmap nat (T * nat)) (b : arc_box T) : arc_box T :=
  mkArcBox (ab_current b) arcs (ab_next b) (ab_poisoned b).

(** Run [m], keeping the box when it fails. *)
Definition finish {T A} (b : arc_box T) (m : outcome (A * list T * arc_box T))
  : box_call_result arc_box T A :=
  match m with
  | Ret (x, l, b') => (Ret x, l, b')
  | Panic => (Panic, [], b)
  | UB => (UB, [], b)
  | OutOfFuel => (OutOfFuel, [], b)
  end.

Definition new {T} (t : T) : arc_box T := mkArcBox 0 {[ 0%nat := (t, 1%nat) ]} 1 false.

Definition get {T} (b : arc_box T) : option (box_call_result arc_box T nat) :=
  if ab_poisoned b then Some (Panic, [], b)
  else Some (finish b (
    arcs ← arc_clone (ab_arcs b) (ab_current b);
    Ret (ab_current b, [], set_arcs arcs b))).

Definition deref {T} (b : arc_box T) (g : nat) : outcome T := arc_deref (ab_arcs b) g.

Definition drop_guard {T} (b : arc_box T) (g : nat) : box_call_result arc_box T unit :=
  finish b ('(l, arcs) ← arc_drop (ab_arcs b) g; Ret (tt, l, set_arcs arcs b)).

(** Replacing the [Arc] in the mutex, then dropping the old one. *)
Definition replace {T} (b : arc_box T) (new_value : T) : outcome (list T * arc_box T) :=
  let arcs := <[ab_next b := (new_value, 1%nat)]> (ab_arcs b) in
  '(l, arcs) ← arc_drop arcs (ab_current b);
  Ret (l, mkArcBox (ab_next b) arcs (S (ab_next b)) (ab_poisoned b)).

Definition write {T} (b : arc_box T) (new_value : T) : option (box_call_result arc_box T unit) :=
  if ab_poisoned b then Some (Panic, [], b)
  else Some (finish b ('(l, b') ← replace b new_value; Ret (tt, l, b'))).

(** The mutex is held while [f] runs, so that a panic there poisons it. *)
Definition update {T} (b : arc_box T) (f : T -> outcome (option T))
  : option (box_call_result arc_box T (result unit unit)) :=
  if ab_poisoned b then Some (Panic, [], b)
  else Some match (t ← arc_deref (ab_arcs b) (ab_current b); f t) with
  | Ret None => (Ret (Err tt), [], b)
  | Ret (Some new_value) =>
      finish b ('(l, b') ← replace b new_value; Ret (Ok tt, l, b'))
  | Panic => (Panic, [], mkArcBox (ab_current b) (ab_arcs b) (ab_next b) true)
  | UB => (UB, [], b)
  | OutOfFuel => (OutOfFuel, [], b)
  end.

(** The mutex is released before [f] runs, on a clone of the [Arc]. *)
Definition inspect {T U} (b : arc_box T) (f : T -> outcome U)
  : option (box_call_result arc_box T U) :=
  if ab_poisoned b then Some (Panic, [], b)
  else Some (finish b (
    arcs ← arc_clone (ab_arcs b) (ab_current b);
    t ← arc_deref arcs (ab_current b);
    u ← f t;
    '(l, arcs) ← arc_drop arcs (ab_current b);
    Ret (u, l, set_arcs arcs b))).

(** Dropping the [Arc] in the mutex. *)
Definition drop_box {T} (b : arc_box T) : outcome (list T) :=
  '(l, _) ← arc_drop (ab_arcs b) (ab_current b); Ret l.

#[global] Instance mutex_arc_ops : RcuBoxOps arc_box nat := {
  box_new := @new;
  box_get := @get;
  box_deref := @deref;
  box_drop_guard := @drop_guard;
  box_write := @write;
  box_update := @update;
  box_inspect := @inspect;
  box_drop := @drop_box;
}.
End mutex_arc.

(** ** Programs that use a box *)

Section program.
Context {B : Type -> Type} {G : Type} {Ops : RcuBoxOps B G} {T U : Type}.

(** The guards held, and the values dropped so far. *)
Record box_sys := mkBoxSys { bs_box : B T; bs_guards : list G; bs_dropped : list T }.

Definition box_start (t : T) : box_sys := mkBoxSys (box_new t) [] [].

(** The state after a call that made the guards [gs]. *)
Definition after (l : list T) (b : B T) (gs : list G) (y : box_sys) : box_sys :=
  mkBoxSys b gs (bs_dropped y ++ l).

Definition box_exec (y : box_sys) (c : box_call T U) : option (outcome (box_resp T U) * box_sys) :=
  match c with
  | BGet =>
      '(o, l, b) ← box_get (bs_box y);
      Some (_ ← o; Ret BUnit,
            after l b (bs_guards y ++ match o with Ret g => [g] | _ => [] end) y)
  | BDeref k =>
      g ← bs_guards y !! k;
      Some (t ← box_deref (bs_box y) g; Ret (BValue t), y)
  | BDropGuard k =>
      g ← bs_guards y !! k;
      let '(o, l, b) := box_drop_guard (bs_box y) g in
      Some (_ ← o; Ret BUnit, after l b (delete k (bs_guards y)) y)
  | BWrite t =>
      '(o, l, b) ← box_write (bs_box y) t;
      Some (_ ← o; Ret BUnit, after l b (bs_guards y) y)
  | BUpdate f =>
      '(o, l, b) ← box_update (bs_box y) f;
      Some (r ← o; Ret (BResult r), after l b (bs_guards y) y)
  | BInspect f =>
      '(o, l, b) ← box_inspect (bs_box y) f;
      Some (u ← o; Ret (BInspected u), after l b (bs_guards y) y)
  end.
End program.
Arguments box_sys B G T : clear implicits.

(** The unit test [guard_pins_value]: another thread may write, or has to wait,
    while the guard is held. *)
Definition guard_pins_value_test {B G} {Ops : RcuBoxOps B G} : outcome unit :=
  let start : box_sys B G bool := box_start true in
  match box_exec (U := unit) start BGet with
  | Some (Ret _, y) =>
      let y := match box_exec (U := unit) y (BWrite false) with Some (_, y') => y' | None => y end in
      match box_exec (U := unit) y (BDeref 0) with
      | Some (Ret (BValue t), _) => assert! t ;; Ret tt
      | _ => Panic
      end
  | _ => Panic
  end.

(** ** What is built on the interface *)

Section derived.
Context {B : Type -> Type} {G : Type} {Ops : RcuBoxOps B G} {T : Type}.

(** [RcuBox::clone_inner] ([clone] is the value's), [read], [default], [from] *)
Definition clone_inner (clone : T -> outcome T) (b : B T) : option (box_call_result B T T) :=
  box_inspect b clone.
Definition read (b : B T) : option (box_call_result B T T) := box_inspect b (fun item => Ret item).
Definition box_default (default : T) : B T := box_new default.
Definition box_from (value : T) : B T := box_new value.

(** [RcuOptionGuard]: a guard on an [Option] that is known to be [Some]. *)
Record option_guard := mkOptionGuard { og_guard : G }.

(** [RcuOptionGuard::try_from] and [Option::from]: the guard is dropped when the
    value is [None]. *)
Definition try_from (b : B (option T)) (guard : G)
  : box_call_result B (option T) (result option_guard unit) :=
  match box_deref b guard with
  | Ret (Some _) => (Ret (Ok (mkOptionGuard guard)), [], b)
  | Ret None => let '(o, l, b') := box_drop_guard b guard in (_ ← o; Ret (Err tt), l, b')
  | Panic => (Panic, [], b)
  | UB => (UB, [], b)
  | OutOfFuel => (OutOfFuel, [], b)
  end.

(** [RcuOptionGuard::deref], with [unwrap_unchecked] *)
Definition option_guard_deref (b : B (option T)) (g : option_guard) : outcome T :=
  v ← box_deref b (og_guard g);
  match v with Some t => Ret t | None => UB end.
End derived.
