(* ===== verification/RcuBoxSpec.v ===== *)
(** What an [RcuBox] promises: it is an atomic register that keeps every version
    of its value that a guard pins. *)

From S2P Require Import Prelude RcuBox.

(** What the implementations may do differently: whether the reads fail on a
    poisoned lock, whether a panic of the closure of [update] poisons one,
    whether an old value is dropped as soon as no guard is on it, and whether
    dropping the box drops its value. *)
Record policy := mkPolicy {
  reads_checked : bool; panics_poison : bool; drops_eager : bool; box_frees : bool
}.

Section spec.
Context {T U : Type}.

(** All the versions so far (the last is the current one), the version that each
    guard pins, and the versions that have been dropped. *)
Record reg := mkReg {
  versions : list T;
  pins : list nat;
  freed : list nat;
  reg_poisoned : bool;
}.
Implicit Types s : reg.

Definition current s : nat := pred (length (versions s)).

Definition reg_start (t : T) : reg := mkReg [t] [] [] false.

(** A version is dropped when it is neither current nor pinned. *)
Definition reg_write s (t : T) : reg :=
  mkReg (versions s ++ [t]) (pins s)
    (freed s ++ if decide (current s ∈ pins s) then [] else [current s]) (reg_poisoned s).

Definition reg_exec (p : policy) s (c : box_call T U) : option (outcome (box_resp T U) * reg) :=
  match c with
  | BGet =>
      Some (if reads_checked p && reg_poisoned s then (Panic, s)
            else (Ret BUnit, mkReg (versions s) (pins s ++ [current s]) (freed s) (reg_poisoned s)))
  | BDeref k =>
      v ← pins s !! k; t ← versions s !! v; Some (Ret (BValue t), s)
  | BDropGuard k =>
      v ← pins s !! k;
      let rest := delete k (pins s) in
      Some (Ret BUnit, mkReg (versions s) rest
        (freed s ++ if decide (v = current s \/ v ∈ rest) then [] else [v]) (reg_poisoned s))
  | BWrite t => Some (if reg_poisoned s then (Panic, s) else (Ret BUnit, reg_write s t))
  | BUpdate f =>
      if reg_poisoned s then Some (Panic, s)
      else
        t ← versions s !! current s;
        Some match f t with
        | Ret None => (Ret (BResult (Err tt)), s)
        | Ret (Some t') => (Ret (BResult (Ok tt)), reg_write s t')
        | Panic => (Panic, mkReg (versions s) (pins s) (freed s) (panics_poison p))
        | UB => (UB, s)
        | OutOfFuel => (OutOfFuel, s)
        end
  | BInspect f =>
      if reads_checked p && reg_poisoned s then Some (Panic, s)
      else t ← versions s !! current s; Some (u ← f t; Ret (BInspected u), s)
  end.

(** Every version is current, pinned, or dropped once. *)
Record reg_wf s : Prop := {
  rw_nonempty : versions s <> [];
  rw_pins : forall v, v ∈ pins s -> (v < length (versions s))%nat;
  rw_freed : forall v, v ∈ freed s <-> (v < current s)%nat /\ v ∉ pins s;
  rw_once : NoDup (freed s);
}.

Lemma reg_start_wf t : reg_wf (reg_start t).
Proof.
  constructor; cbn; try done.
  - by intros v ?%elem_of_nil.
  - intros v. split; [by intros ?%elem_of_nil|]. unfold current; cbn. lia.
  - constructor.
Qed.

Lemma current_lt s : reg_wf s -> (current s < length (versions s))%nat.
Proof. intros [H _ _ _]. unfold current. destruct (versions s); cbn in *; [done|lia]. Qed.

Lemma current_value s : reg_wf s -> exists t, versions s !! current s = Some t.
Proof. intros Hw. apply lookup_lt_is_Some. by apply current_lt. Qed.

Lemma reg_write_wf s t : reg_wf s -> reg_wf (reg_write s t).
Proof.
  intros Hw. pose proof (current_lt s Hw) as Hc. destruct Hw as [Hne Hp Hf Hn].
  assert (current (reg_write s t) = S (current s)) as Hcur.
  { unfold current; cbn. rewrite length_app; cbn. unfold current in Hc. lia. }
  constructor; cbn.
  - by destruct (versions s).
  - intros v Hv%Hp. rewrite length_app; cbn. lia.
  - intros v. rewrite Hcur, elem_of_app, Hf. case_decide as Hd.
    + rewrite elem_of_nil. split; [intros [[? ?]|[]]; split; [lia|done]|].
      intros [? Hv]. left. split; [|done]. destruct (decide (v = current s)) as [->|]; [done|lia].
    + rewrite list_elem_of_singleton. split; [intros [[? ?]| ->]; split; try done; lia|].
      intros [? Hv]. destruct (decide (v = current s)) as [->|]; [by right|left].
      split; [lia|done].
  - apply NoDup_app. split; [done|]. split.
    + intros v Hv. apply Hf in Hv as [Hv _]. case_decide; [apply not_elem_of_nil|].
      rewrite list_elem_of_singleton. lia.
    + case_decide; [constructor|apply NoDup_singleton].
Qed.

Lemma reg_drop_wf s k v :
  reg_wf s -> pins s !! k = Some v ->
  reg_wf (mkReg (versions s) (delete k (pins s))
    (freed s ++ if decide (v = current s \/ v ∈ delete k (pins s)) then [] else [v])
    (reg_poisoned s)).
Proof.
  intros Hw Hk. pose proof (delete_Permutation _ _ _ Hk) as Hperm.
  destruct Hw as [Hne Hp Hf Hn].
  assert (forall x, x ∈ pins s <-> x = v \/ x ∈ delete k (pins s)) as Hin
    by (intros x; by rewrite Hperm at 1; rewrite elem_of_cons).
  constructor; cbn; try done.
  - intros x Hx. apply Hp, Hin. by right.
  - intros x. change (current (mkReg _ _ _ _)) with (current s).
    rewrite elem_of_app, Hf, Hin. case_decide as Hd.
    + rewrite elem_of_nil. split; [intros [[? ?]|[]]; split; [lia|naive_solver]|].
      intros [? Hx]. left. split; [done|]. intros [->|]; [destruct Hd; [lia|done]|done].
    + rewrite list_elem_of_singleton.
      assert (v < length (versions s))%nat by (apply Hp, Hin; by left).
      assert (v <> current s /\ v ∉ delete k (pins s)) as [? ?] by naive_solver.
      split.
      * intros [[? ?]| ->]; [naive_solver|]. split; [unfold current in *; lia|done].
      * intros [? ?]. destruct (decide (x = v)); naive_solver.
  - apply NoDup_app. split; [done|]. split.
    + intros x Hx. apply Hf in Hx as [_ Hx]. case_decide; [apply not_elem_of_nil|].
      rewrite list_elem_of_singleton. intros ->. apply Hx, Hin. by left.
    + case_decide; [constructor|apply NoDup_singleton].
Qed.

Lemma reg_exec_wf p s c o s' : reg_wf s -> reg_exec p s c = Some (o, s') -> reg_wf s'.
Proof.
  intros Hw. destruct c; cbn.
  - destruct (reads_checked p && reg_poisoned s); intros [= <- <-]; [done|]. pose proof (current_lt s Hw) as Hc.
    destruct Hw as [Hne Hp Hf Hn]. constructor; cbn; try done.
    + intros v. rewrite elem_of_app, list_elem_of_singleton. intros [?| ->]; [by apply Hp|done].
    + intros v. change (current (mkReg _ _ _ _)) with (current s).
      rewrite Hf, elem_of_app, list_elem_of_singleton. split; [|naive_solver].
      intros [? ?]. split; [done|]. intros [?| ->]; [done|lia].
  - intros Hx. apply bind_Some in Hx as (v & _ & Hx). apply bind_Some in Hx as (t & _ & [= _ <-]).
    done.
  - intros Hx. apply bind_Some in Hx as (v & Hk & [= _ <-]). by apply reg_drop_wf.
  - destruct (reg_poisoned s); intros [= <- <-]; [done|by apply reg_write_wf].
  - destruct (reg_poisoned s); [by intros [= <- <-]|]. intros Hx.
    apply bind_Some in Hx as (t & _ & Hx).
    destruct (f t) as [[t'|]| | |]; injection Hx as _ <-; try done; [by apply reg_write_wf|].
    destruct Hw. by constructor.
  - destruct (reads_checked p && reg_poisoned s); [by intros [= <- <-]|]. intros Hx.
    by apply bind_Some in Hx as (t & _ & [= _ <-]).
Qed.
End spec.
Arguments reg : clear implicits.

(** ** The interface's laws *)

(** The calls that may have to wait for the guards. *)
Definition writes {T U} (c : box_call T U) : bool :=
  match c with BWrite _ | BUpdate _ => true | _ => false end.

(** What has been dropped, of the versions that may be: each at most once, and
    all of them if that is the policy. *)
Definition dropped_ok {T} (p : policy) (s : reg T) (l : list T) : Prop :=
  exists d, Some <$> l = (fun v => versions s !! v) <$> d /\ NoDup d /\ d ⊆ freed s
    /\ (drops_eager p = true -> d = freed s).

(** What has been dropped when the box is, without guards: the current value too,
    if that is the policy. *)
Definition all_dropped_ok {T} (p : policy) (s : reg T) (l : list T) : Prop :=
  exists d, Some <$> l = (fun v => versions s !! v) <$> d /\ NoDup d
    /\ (current s ∈ d <-> box_frees p = true) /\ (drops_eager p = true -> freed s ⊆ d).

Class RcuBoxLaws (B : Type -> Type) (G : Type) {Ops : RcuBoxOps B G} := {
  box_policy : policy;
  box_rel {T} : box_sys B G T -> reg T -> Prop;
  rel_wf {T} (y : box_sys B G T) s : box_rel y s -> reg_wf s;
  rel_start {T} (t : T) : box_rel (box_start t) (reg_start t);
  rel_step {T U} (y : box_sys B G T) s (c : box_call T U) : box_rel y s ->
    match box_exec y c with
    | Some (o, y') => exists s', reg_exec box_policy s c = Some (o, s') /\ box_rel y' s'
    | None => reg_exec box_policy s c = None \/ (writes c = true /\ pins s <> [])
    end;
  rel_guards {T} (y : box_sys B G T) s : box_rel y s -> length (bs_guards y) = length (pins s);
  rel_dropped {T} (y : box_sys B G T) s : box_rel y s -> dropped_ok box_policy s (bs_dropped y);
  rel_drop_box {T} (y : box_sys B G T) s : box_rel y s -> bs_guards y = [] ->
    exists l, box_drop (bs_box y) = Ret l /\ all_dropped_ok box_policy s (bs_dropped y ++ l);
}.

Lemma dropped_eager {T} p (s : reg T) l :
  reg_wf s -> Some <$> l = (fun v => versions s !! v) <$> freed s -> dropped_ok p s l.
Proof. intros Hw Hl. exists (freed s). split; [done|]. split; [apply Hw|done]. Qed.

Lemma all_dropped_eager {T} p (s : reg T) l t :
  reg_wf s -> Some <$> l = (fun v => versions s !! v) <$> freed s -> versions s !! current s = Some t ->
  box_frees p = true -> all_dropped_ok p s (l ++ [t]).
Proof.
  intros Hw Hl Ht Hp. exists (freed s ++ [current s]). split; [by rewrite !fmap_app, Hl; cbn; rewrite Ht|].
  split; [|split].
  - apply NoDup_app. split; [apply Hw|]. split; [|apply NoDup_singleton].
    intros v Hv ->%list_elem_of_singleton. apply (rw_freed s Hw) in Hv as [? _]. lia.
  - split; [done|]. intros _. apply elem_of_app. right. by left.
  - intros _ v Hv. apply elem_of_app. by left.
Qed.
