(* ===== verification/RcuBoxProof.v ===== *)
(** The implementations of [RcuBox] on the standard library keep the promises of
    the interface. *)

From S2P Require Import Prelude RcuBox RcuBoxSpec.

(** The implementations on the standard library: both poison their lock, and
    drop a value with its last guard. *)
Definition std_policy : policy := mkPolicy true true true true.

(** A call that drops nothing. *)
Ltac no_drop := unfold after; cbn [bs_guards bs_dropped]; rewrite ?app_nil_r.

(** ** [rcu-rwlock] *)

Section rwlock.
Context {T : Type}.
Implicit Types (y : box_sys rwlock.rw_box unit T) (s : reg T).

(** The lock holds the current version, which every guard pins: a writer waits
    for the guards. *)
Record rw_rel y s : Prop := {
  rwr_wf : reg_wf s;
  rwr_value : versions s !! current s = Some (rwlock.rw_value (bs_box y));
  rwr_readers : rwlock.rw_readers (bs_box y) = length (pins s);
  rwr_guards : length (bs_guards y) = length (pins s);
  rwr_pins : forall v, v ∈ pins s -> v = current s;
  rwr_poisoned : rwlock.rw_poisoned (bs_box y) = reg_poisoned s;
  rwr_dropped : Some <$> bs_dropped y = (fun v => versions s !! v) <$> freed s;
}.

Lemma freed_prefix s t l : reg_wf s -> l ⊆ freed s ->
  (fun v => (versions s ++ [t]) !! v) <$> l = (fun v => versions s !! v) <$> l.
Proof.
  intros Hw Hl. apply list_fmap_ext. intros i v Hv.
  apply lookup_app_l. pose proof (current_lt s Hw).
  assert (v ∈ freed s) as Hf by (apply Hl; by eapply list_elem_of_lookup_2).
  apply (rw_freed s Hw) in Hf. lia.
Qed.

Lemma write_dropped s t l old :
  reg_wf s -> Some <$> l = (fun v => versions s !! v) <$> freed s ->
  versions s !! current s = Some old -> current s ∉ pins s ->
  Some <$> (l ++ [old]) = (fun v => versions (reg_write s t) !! v) <$> freed (reg_write s t).
Proof.
  intros Hw Hl Hc Hp. cbn. rewrite decide_False, !fmap_app by done. cbn.
  rewrite (freed_prefix s t (freed s)) by done. rewrite Hl. f_equal.
  rewrite lookup_app_l by (by apply current_lt). by rewrite Hc.
Qed.

Lemma current_write s t : reg_wf s -> current (reg_write s t) = length (versions s).
Proof. intros Hw. unfold current; cbn. rewrite length_app; cbn. lia. Qed.

Lemma rw_write_rel y s t : rw_rel y s -> pins s = [] ->
  rw_rel (mkBoxSys (rwlock.mkRw t 0 (rwlock.rw_poisoned (bs_box y))) (bs_guards y)
            (bs_dropped y ++ [rwlock.rw_value (bs_box y)])) (reg_write s t).
Proof.
  intros R Hp. destruct R. constructor.
  - by apply reg_write_wf.
  - rewrite current_write by done. cbn. by rewrite list_lookup_middle.
  - cbn. by rewrite Hp.
  - done.
  - cbn. rewrite Hp. by intros v ?%elem_of_nil.
  - done.
  - apply write_dropped; try done. rewrite Hp. apply not_elem_of_nil.
Qed.

Lemma rw_guard b gs dr s k : rw_rel (mkBoxSys b gs dr) s ->
  pins s !! k = match gs !! k with Some _ => Some (current s) | None => None end.
Proof.
  intros R. pose proof (rwr_guards _ _ R) as Hl. cbn in Hl. destruct (gs !! k) as [g|] eqn:Hk.
  - destruct (lookup_lt_is_Some_2 (pins s) k) as [v Hv]; [rewrite <- Hl; by eapply lookup_lt_Some|].
    rewrite Hv. f_equal. apply (rwr_pins _ _ R). by eapply list_elem_of_lookup_2.
  - apply lookup_ge_None in Hk. by rewrite lookup_ge_None_2 by lia.
Qed.

Lemma rw_get_rel b gs dr s : rw_rel (mkBoxSys b gs dr) s -> rwlock.rw_poisoned b = false ->
  rw_rel (mkBoxSys (rwlock.mkRw (rwlock.rw_value b) (S (rwlock.rw_readers b)) false) (gs ++ [tt]) dr)
    (mkReg (versions s) (pins s ++ [current s]) (freed s) false).
Proof.
  intros R Hpo. pose proof (rwr_wf _ _ R) as Hw. destruct R; cbn in *. constructor; cbn; try done.
  - eapply (reg_exec_wf (U := unit) std_policy s BGet); [done|]. cbn. by rewrite <- rwr_poisoned0, Hpo.
  - rewrite length_app; cbn. lia.
  - rewrite !length_app; cbn. lia.
  - intros v [?| ->%list_elem_of_singleton]%elem_of_app; [by apply rwr_pins0|done].
Qed.

Lemma rw_drop_rel b gs dr s k n : rw_rel (mkBoxSys b gs dr) s ->
  pins s !! k = Some (current s) -> rwlock.rw_readers b = S n ->
  rw_rel (mkBoxSys (rwlock.mkRw (rwlock.rw_value b) n (rwlock.rw_poisoned b)) (delete k gs) dr)
    (mkReg (versions s) (delete k (pins s)) (freed s) (rwlock.rw_poisoned b)).
Proof.
  intros R Hv Hn. pose proof (rwr_wf _ _ R) as Hw. pose proof (lookup_lt_Some _ _ _ Hv).
  destruct R; cbn in *. constructor; cbn; try done.
  - eapply (reg_exec_wf (U := unit) std_policy s (BDropGuard k)); [done|]. cbn. rewrite Hv. cbn.
    by rewrite decide_True, app_nil_r, rwr_poisoned0 by (by left).
  - rewrite length_delete by (by eexists). lia.
  - rewrite !length_delete; [lia|by eexists|]. apply lookup_lt_is_Some_2. lia.
  - intros v Hin. apply rwr_pins0. eapply elem_of_sublist; [done|apply sublist_delete].
Qed.

Lemma rw_rel_step {U} y s (c : box_call T U) : rw_rel y s ->
  match box_exec y c with
  | Some (o, y') => exists s', reg_exec std_policy s c = Some (o, s') /\ rw_rel y' s'
  | None => reg_exec std_policy s c = None \/ (writes c = true /\ pins s <> [])
  end.
Proof.
  intros R. pose proof (rwr_wf _ _ R) as Hw. destruct y as [b gs dr].
  destruct c as [|k|k|t|f|f]; cbn; rewrite <- ?(rwr_poisoned _ _ R); cbn [bs_box].
  - unfold rwlock.get. destruct (rwlock.rw_poisoned b) eqn:Hpo; cbn.
    + exists s. split; [done|]. no_drop. by destruct b.
    + eexists. split; [done|]. no_drop. by apply rw_get_rel.
  - pose proof (rw_guard b gs dr s k R) as Hg. destruct (gs !! k) as [g|]; rewrite Hg; cbn; [|by left].
    rewrite (rwr_value _ _ R). by exists s.
  - pose proof (rw_guard b gs dr s k R) as Hg. destruct (gs !! k) as [g|]; rewrite Hg; cbn; [|by left].
    pose proof (rwr_readers _ _ R) as Hr. pose proof (lookup_lt_Some _ _ _ Hg). cbn in Hr. unfold rwlock.drop_guard.
    destruct (rwlock.rw_readers b) as [|n] eqn:En; [lia|].
    rewrite decide_True by (by left). eexists. split; [done|]. no_drop. by apply rw_drop_rel.
  - unfold rwlock.write. pose proof (rwr_readers _ _ R) as Hr. cbn in Hr.
    destruct (Nat.eqb_spec (rwlock.rw_readers b) 0) as [H0|H0]; cbn.
    + destruct (rwlock.rw_poisoned b) eqn:Hpo; cbn.
      * exists s. split; [done|]. no_drop. by destruct b.
      * eexists. split; [done|]. rewrite <- Hpo.
        apply (rw_write_rel (mkBoxSys b gs dr) s t R). apply length_zero_iff_nil. lia.
    + right. split; [done|]. intros Hp. rewrite Hp in Hr. done.
  - unfold rwlock.update. pose proof (rwr_readers _ _ R) as Hr. cbn in Hr.
    destruct (Nat.eqb_spec (rwlock.rw_readers b) 0) as [H0|H0]; cbn.
    + destruct (rwlock.rw_poisoned b) eqn:Hpo; cbn.
      * exists s. split; [done|]. no_drop. by destruct b.
      * pose proof (rwr_value _ _ R) as Hv. cbn in Hv. rewrite Hv. cbn.
        destruct (f (rwlock.rw_value b)) as [[t|]| | |]; eexists; (split; [done|]); no_drop; try (by destruct b).
        -- rewrite <- Hpo. apply (rw_write_rel (mkBoxSys b gs dr) s t R), length_zero_iff_nil. lia.
        -- destruct R; cbn in *. constructor; cbn; try done; [|lia]. destruct rwr_wf0. by constructor.
    + right. split; [done|]. intros Hp. rewrite Hp in Hr. done.
  - unfold rwlock.inspect. destruct (rwlock.rw_poisoned b) eqn:Hpo; cbn.
    + exists s. split; [done|]. no_drop. by destruct b.
    + pose proof (rwr_value _ _ R) as Hv. cbn in Hv. rewrite Hv. cbn.
      destruct (f (rwlock.rw_value b)); cbn; eexists; (split; [done|]); no_drop; done.
Qed.
End rwlock.

#[export] Instance rwlock_laws : RcuBoxLaws rwlock.rw_box unit.
Proof.
  refine {| box_policy := std_policy; box_rel := @rw_rel |}.
  - intros T y s R. apply R.
  - intros T t. constructor; try done; [apply reg_start_wf|by intros v ?%elem_of_nil].
  - intros T U y s c. apply rw_rel_step.
  - intros T y s R. apply R.
  - intros T y s R. by apply dropped_eager; apply R.
  - intros T y s R _. eexists. split; [done|]. apply all_dropped_eager; [apply R..|done].
Defined.

(** ** [rcu-mutex-arc] *)

Section mutex_arc.
Context {T : Type}.
Import mutex_arc.
Implicit Types (y : box_sys arc_box nat T) (s : reg T) (arcs : gmap nat (T * nat)).

(** An [Arc] per version that is current or pinned, with a reference for each. *)
Definition arcs_ok arcs (vs : list T) (cur : nat) (ps : list nat) : Prop :=
  forall a, match arcs !! a with
  | Some (t, n) => vs !! a = Some t /\ (0 < n)%nat
      /\ n = (occ a ps + if decide (a = cur) then 1 else 0)%nat
  | None => a <> cur /\ a ∉ ps
  end.

Record ma_rel y s : Prop := {
  mar_wf : reg_wf s;
  mar_current : ab_current (bs_box y) = current s;
  mar_next : ab_next (bs_box y) = length (versions s);
  mar_arcs : arcs_ok (ab_arcs (bs_box y)) (versions s) (current s) (pins s);
  mar_guards : bs_guards y = pins s;
  mar_poisoned : ab_poisoned (bs_box y) = reg_poisoned s;
  mar_dropped : Some <$> bs_dropped y = (fun v => versions s !! v) <$> freed s;
}.

Lemma arcs_lookup arcs vs cur ps a :
  arcs_ok arcs vs cur ps -> a = cur \/ a ∈ ps ->
  exists t, vs !! a = Some t
    /\ arcs !! a = Some (t, (occ a ps + if decide (a = cur) then 1 else 0)%nat)
    /\ (0 < occ a ps + if decide (a = cur) then 1 else 0)%nat.
Proof.
  intros Hok Ha. specialize (Hok a). destruct (arcs !! a) as [[t n]|]; [|naive_solver].
  destruct Hok as (Hv & Hn & ->). by exists t.
Qed.

Lemma arc_clone_ok arcs vs cur ps a :
  arcs_ok arcs vs cur ps -> a = cur \/ a ∈ ps ->
  exists arcs', arc_clone arcs a = Ret arcs' /\ arcs_ok arcs' vs cur (ps ++ [a]).
Proof.
  intros Hok Ha. destruct (arcs_lookup arcs vs cur ps a Hok Ha) as (t & Hv & Hl & Hn).
  unfold arc_clone. rewrite Hl. eexists. split; [done|]. intros a'. specialize (Hok a').
  assert (occ a' (ps ++ [a]) = ((if decide (a = a') then 1 else 0) + occ a' ps)%nat) as Hocc
    by (by rewrite Permutation_app_comm, <- occ_cons).
  destruct (decide (a' = a)) as [->|Hne].
  - rewrite lookup_insert_eq, Hocc. destruct (decide (a = a)); [|done]. split; [done|]. split; lia.
  - rewrite lookup_insert_ne, Hocc by done. destruct (decide (a = a')); [congruence|].
    destruct (arcs !! a') as [[t' n']|]; [done|]. rewrite elem_of_app, list_elem_of_singleton.
    naive_solver.
Qed.

(** Dropping a reference, with the value when it was the last one. *)
Lemma arc_drop_ok arcs vs cur ps ps' a :
  arcs_ok arcs vs cur ps -> ps ≡ₚ a :: ps' ->
  exists t arcs', vs !! a = Some t
    /\ arc_drop arcs a = Ret (if decide (a = cur \/ a ∈ ps') then [] else [t], arcs')
    /\ arcs_ok arcs' vs cur ps'.
Proof.
  intros Hok Hp. assert (a ∈ ps) as Hin by (rewrite Hp; by left).
  destruct (arcs_lookup arcs vs cur ps a Hok (or_intror Hin)) as (t & Hv & Hl & Hn).
  assert (forall a', occ a' ps = ((if decide (a = a') then 1 else 0) + occ a' ps')%nat) as Hocc
    by (intros a'; by rewrite Hp, occ_cons).
  assert (arcs !! a = Some (t, S (occ a ps' + if decide (a = cur) then 1 else 0))) as Hl'.
  { rewrite Hl, Hocc. destruct (decide (a = a)); [|done]. do 2 f_equal. }
  clear Hl. exists t.
  assert (forall a' x, a' <> a -> match x with
            | Some (t, n) => vs !! a' = Some t /\ (0 < n)%nat
                /\ n = (occ a' ps + if decide (a' = cur) then 1 else 0)%nat
            | None => a' <> cur /\ a' ∉ ps end ->
            match x with
            | Some (t, n) => vs !! a' = Some t /\ (0 < n)%nat
                /\ n = (occ a' ps' + if decide (a' = cur) then 1 else 0)%nat
            | None => a' <> cur /\ a' ∉ ps' end) as Hother.
  { intros a' [[t' n']|] Hne; rewrite ?Hocc, ?Hp, ?decide_False by done; [done|].
    rewrite elem_of_cons. naive_solver. }
  unfold arc_drop. rewrite Hl'.
  destruct (occ a ps' + if decide (a = cur) then 1 else 0)%nat as [|k] eqn:Ek.
  - assert (a <> cur /\ a ∉ ps') as [Hc Hn'].
    { rewrite <- occ_0. case_decide; [lia|]. split; [done|lia]. }
    rewrite decide_False by naive_solver.
    eexists. split; [done|]. split; [done|]. intros a'.
    destruct (decide (a' = a)) as [->|Hne]; [rewrite lookup_delete_eq; by split|].
    rewrite lookup_delete_ne by done. exact (Hother a' _ Hne (Hok a')).
  - rewrite decide_True.
    2:{ case_decide; [by left|right]. destruct (decide (a ∈ ps')) as [|Hn']; [done|].
        apply occ_0 in Hn'. lia. }
    eexists. split; [done|]. split; [done|]. intros a'.
    destruct (decide (a' = a)) as [->|Hne].
    + rewrite lookup_insert_eq. split; [done|]. split; lia.
    + rewrite lookup_insert_ne by done. exact (Hother a' _ Hne (Hok a')).
Qed.

Lemma arcs_ok_perm arcs vs cur ps ps' : arcs_ok arcs vs cur ps -> ps ≡ₚ ps' -> arcs_ok arcs vs cur ps'.
Proof.
  intros Hok Hp a. specialize (Hok a). destruct (arcs !! a) as [[t n]|].
  - by rewrite <- Hp.
  - by rewrite <- Hp.
Qed.

(** Installing a new current version turns the mutex's reference to the old one
    into one that is held by the call. *)
Lemma arcs_install arcs vs cur ps t :
  arcs_ok arcs vs cur ps -> (cur < length vs)%nat -> (forall v, v ∈ ps -> (v < length vs)%nat) ->
  arcs_ok (<[length vs := (t, 1%nat)]> arcs) (vs ++ [t]) (length vs) (cur :: ps).
Proof.
  intros Hok Hc Hp a. destruct (decide (a = length vs)) as [->|Hne].
  - rewrite lookup_insert_eq, list_lookup_middle by done. split; [done|].
    rewrite (proj2 (occ_0 (length vs) (cur :: ps))).
    + destruct (decide (length vs = length vs)); [|done]. lia.
    + rewrite elem_of_cons. intros [?|?%Hp]; lia.
  - rewrite lookup_insert_ne by done. specialize (Hok a). rewrite occ_cons.
    destruct (arcs !! a) as [[t' n]|].
    + destruct Hok as (Hv & Hn & ->). split; [by apply lookup_app_l_Some|].
      destruct (decide (a = length vs)); [done|]. repeat case_decide; try congruence; lia.
    + rewrite elem_of_cons. naive_solver.
Qed.

Lemma replace_ok y s t :
  ma_rel y s -> exists l b', replace (bs_box y) t = Ret (l, b')
    /\ ma_rel (mkBoxSys b' (bs_guards y) (bs_dropped y ++ l)) (reg_write s t).
Proof.
  intros R. pose proof (mar_wf _ _ R) as Hw. pose proof (current_lt s Hw) as Hc.
  pose proof (arcs_install _ _ _ _ t (mar_arcs _ _ R) Hc (rw_pins s Hw)) as Hok.
  destruct (arc_drop_ok _ _ _ _ (pins s) (current s) Hok) as (old & arcs' & Hv & Hd & Hok');
    [done|].
  assert (current s = length (versions s) \/ current s ∈ pins s <-> current s ∈ pins s) as Hiff
    by (split; [intros [|]; [lia|done]|by right]).
  rewrite (decide_ext _ _ _ _ Hiff) in Hd. eexists _, _.
  unfold replace. rewrite (mar_next _ _ R), (mar_current _ _ R), Hd. split; [done|].
  destruct R. constructor; cbn.
  - by apply reg_write_wf.
  - by rewrite current_write.
  - rewrite length_app; cbn. lia.
  - rewrite current_write by done. exact Hok'.
  - done.
  - done.
  - rewrite lookup_app_l in Hv by done. case_decide as Hp.
    + rewrite !app_nil_r. by rewrite (freed_prefix s t (freed s)).
    + pose proof (write_dropped s t (bs_dropped y) old Hw mar_dropped0 Hv Hp) as Hwd.
      cbn in Hwd. by rewrite decide_False in Hwd.
Qed.

(** [inspect] takes a reference, runs the closure, and gives it back. *)
Lemma ma_inspect_rel {U} b dr s (f : T -> outcome U) tc :
  ma_rel (mkBoxSys b (pins s) dr) s -> ab_poisoned b = false -> versions s !! current s = Some tc ->
  match inspect b f with
  | Some (o, l, b') => o = f tc /\ ma_rel (mkBoxSys b' (pins s) (dr ++ l)) s
  | None => False
  end.
Proof.
  intros R Hpo Htc. pose proof (mar_current _ _ R) as Hcur. cbn in Hcur. unfold inspect. rewrite Hpo, Hcur.
  destruct (arc_clone_ok _ _ _ _ (current s) (mar_arcs _ _ R)) as (arcs' & Hc & Hok); [by left|].
  cbn in Hc. rewrite Hc. cbn.
  destruct (arcs_lookup _ _ _ _ (current s) Hok) as (t & Hv & Hl & _); [by left|].
  rewrite Htc in Hv. injection Hv as <-.
  unfold arc_deref. rewrite Hl. cbn. destruct (f tc) as [u| | |]; cbn; [|split; [done|]; by rewrite app_nil_r..].
  destruct (arc_drop_ok _ _ _ _ (pins s) (current s) Hok) as (t' & arcs'' & _ & Hd & Hok').
  { by rewrite Permutation_app_comm. }
  rewrite decide_True in Hd by (by left). rewrite Hd. cbn. split; [done|]. rewrite app_nil_r.
  destruct R. by constructor.
Qed.

Lemma ma_rel_step {U} y s (c : box_call T U) : ma_rel y s ->
  match box_exec y c with
  | Some (o, y') => exists s', reg_exec std_policy s c = Some (o, s') /\ ma_rel y' s'
  | None => reg_exec std_policy s c = None
  end.
Proof.
  intros R. pose proof (mar_wf _ _ R) as Hw. destruct y as [b gs dr].
  pose proof (mar_guards _ _ R) as Hgs. cbn in Hgs. subst gs.
  destruct (current_value s Hw) as [tc Htc].
  destruct c as [|k|k|t|f|f]; cbn; rewrite <- ?(mar_poisoned _ _ R); cbn [bs_box].
  - unfold get. destruct (ab_poisoned b) eqn:Hpo; cbn.
    + exists s. split; [done|]. no_drop. by destruct b.
    + destruct (arc_clone_ok _ _ _ _ (current s) (mar_arcs _ _ R)) as (arcs' & Hc & Hok); [by left|].
      cbn in Hc. pose proof (mar_current _ _ R) as Hcur. cbn in Hcur. rewrite Hcur, Hc. cbn.
      eexists. split; [done|]. no_drop. destruct R; cbn in *. constructor; cbn; try done.
      * eapply (reg_exec_wf (U := U) std_policy s BGet); [done|]. cbn. by rewrite <- mar_poisoned0, Hpo.
  - destruct (pins s !! k) as [v|] eqn:Hk; cbn; [|done].
    destruct (arcs_lookup _ _ _ _ v (mar_arcs _ _ R)) as (t & Hv & Hl & _).
    { right. by eapply list_elem_of_lookup_2. }
    cbn in Hl. unfold deref, arc_deref. rewrite Hl, Hv. cbn. by exists s.
  - destruct (pins s !! k) as [v|] eqn:Hk; cbn; [|done].
    destruct (arc_drop_ok _ _ _ _ (delete k (pins s)) v (mar_arcs _ _ R)) as (t & arcs' & Hv & Hd & Hok).
    { by apply delete_Permutation. }
    cbn in Hd. unfold drop_guard. rewrite Hd. cbn. eexists. split; [done|].
    destruct R; cbn in *. constructor; cbn; try done.
    + rewrite mar_poisoned0. by apply reg_drop_wf.
    + rewrite !fmap_app, mar_dropped0. f_equal. case_decide; cbn; by rewrite ?Hv.
  - unfold write. destruct (ab_poisoned b) eqn:Hpo; cbn.
    + exists s. split; [done|]. no_drop. by destruct b.
    + destruct (replace_ok _ s t R) as (l & b' & Hr & R'). cbn in Hr. rewrite Hr. cbn.
      eexists. split; [done|]. exact R'.
  - unfold update. destruct (ab_poisoned b) eqn:Hpo; cbn.
    + exists s. split; [done|]. no_drop. by destruct b.
    + destruct (arcs_lookup _ _ _ _ (current s) (mar_arcs _ _ R)) as (t & Hv & Hl & _); [by left|].
      cbn in Hl. pose proof (mar_current _ _ R) as Hcur. cbn in Hcur.
      unfold arc_deref. rewrite Hcur, Hl, Hv. cbn. destruct (f t) as [[t'|]| | |].
      * destruct (replace_ok _ s t' R) as (l & b' & Hr & R'). cbn in Hr. rewrite Hr. cbn.
        eexists. split; [done|]. exact R'.
      * eexists. split; [done|]. no_drop. by destruct b.
      * eexists. split; [done|]. no_drop. destruct R; cbn in *. constructor; cbn; try done.
        destruct Hw. by constructor.
      * eexists. split; [done|]. by no_drop.
      * eexists. split; [done|]. by no_drop.
  - destruct (ab_poisoned b) eqn:Hpo; cbn.
    + unfold inspect. rewrite Hpo. exists s. split; [done|]. no_drop. by destruct b.
    + pose proof (ma_inspect_rel b dr s f tc R Hpo Htc) as Hi.
      destruct (inspect b f) as [[[o l] b']|]; [|done]. destruct Hi as [-> R'].
      rewrite Htc. by eexists.
Qed.
End mutex_arc.

#[export] Instance mutex_arc_laws : RcuBoxLaws mutex_arc.arc_box nat.
Proof.
  refine {| box_policy := std_policy; box_rel := @ma_rel |}.
  - intros T y s R. apply R.
  - intros T t. constructor; try done; [apply reg_start_wf|].
    intros a. cbn. destruct (decide (a = 0%nat)) as [->|Hne].
    + rewrite lookup_singleton_eq. split; [done|]. split; [lia|done].
    + rewrite lookup_singleton_ne by done. split; [done|apply not_elem_of_nil].
  - intros T U y s c R. pose proof (ma_rel_step y s c R) as H.
    destruct (box_exec y c) as [[o y']|]; [done|by left].
  - intros T y s R. by rewrite (mar_guards _ _ R).
  - intros T y s R. by apply dropped_eager; apply R.
  - intros T y s R Hg. destruct (arcs_lookup _ _ _ _ (current s) (mar_arcs _ _ R)) as (t & Hv & Hl & _); [by left|].
    exists [t]. split; [|by apply all_dropped_eager; [apply R..|exact Hv|done]].
    rewrite (mar_guards _ _ R) in Hg. rewrite Hg, decide_True in Hl by done. cbn.
    unfold mutex_arc.drop_box, mutex_arc.arc_drop. by rewrite (mar_current _ _ R), Hl.
Defined.
