(* ===== verification/RcuBoxSwap.v ===== *)
(** [RcuBox] on the crates aarc and arc-swap (rcu/src/rcu.rs, features [rcu-aarc]
    and [rcu-arc-swap]): an atomic cell with a reference-counted value, and a
    mutex that the writers take.

    The cells are code of those crates, and so parameters here; what the boxes
    rely on is a class of laws. *)

From S2P Require Import Prelude RcuBox RcuBoxSpec.

(** ** The cells *)

(** [aarc::AtomicArc<T>], which may be empty: [new], [load], reading through a
    [Guard] and dropping it, [store], and dropping the cell (with the values that
    these drop). *)
Class AtomicArcOps (C : Type -> Type) (G : Type) := {
  aa_new {T} : option T -> C T;
  aa_load {T} : C T -> option G * C T;
  aa_deref {T} : C T -> G -> outcome T;
  aa_drop_guard {T} : C T -> G -> list T * C T;
  aa_store {T} : C T -> option T -> list T * C T;
  aa_drop {T} : C T -> list T;
}.

(** [arc_swap::ArcSwap<T>], which always holds an [Arc]. *)
Class ArcSwapOps (C : Type -> Type) (G : Type) := {
  as_new {T} : T -> C T;
  as_load {T} : C T -> G * C T;
  as_deref {T} : C T -> G -> outcome T;
  as_drop_guard {T} : C T -> G -> list T * C T;
  as_store {T} : C T -> T -> list T * C T;
  as_drop {T} : C T -> list T;
}.

(** What both are to a box. *)
Class CellOps (C : Type -> Type) (G : Type) := {
  cell_new {T} : T -> C T;
  cell_load {T} : C T -> outcome G * C T;
  cell_deref {T} : C T -> G -> outcome T;
  cell_drop_guard {T} : C T -> G -> list T * C T;
  cell_store {T} : C T -> T -> list T * C T;
  cell_drop {T} : C T -> list T;
}.

#[export] Instance aarc_cell C G `{AtomicArcOps C G} : CellOps C G := {
  cell_new T t := aa_new (Some t);
  cell_load T c :=
    let '(g, c') := aa_load c in (match g with Some g => Ret g | None => UB end, c');
  cell_deref := @aa_deref C G _;
  cell_drop_guard := @aa_drop_guard C G _;
  cell_store T c t := aa_store c (Some t);
  cell_drop := @aa_drop C G _;
}.

#[export] Instance arc_swap_cell C G `{ArcSwapOps C G} : CellOps C G := {
  cell_new := @as_new C G _;
  cell_load T c := let '(g, c') := as_load c in (Ret g, c');
  cell_deref := @as_deref C G _;
  cell_drop_guard := @as_drop_guard C G _;
  cell_store := @as_store C G _;
  cell_drop := @as_drop C G _;
}.

(** A box: the cell, and whether its mutex is poisoned. *)
Record locked_box (C : Type -> Type) (T : Type) := mkLocked { lb_cell : C T; lb_poisoned : bool }.
Arguments mkLocked {C T} _ _.
Arguments lb_cell {C T} _.
Arguments lb_poisoned {C T} _.

Definition set_cell {C T} (c : C T) (b : locked_box C T) : locked_box C T := mkLocked c (lb_poisoned b).

(** ** [rcu-aarc]: [RcuBox(AtomicArc<T>, Mutex<()>)] *)

Module aarc.
Section aarc.
Context {C : Type -> Type} {G : Type} {Cell : AtomicArcOps C G}.
Abbreviation B := (locked_box C).

Definition new {T} (t : T) : B T := mkLocked (aa_new (Some t)) false.

(** [f] runs on the value under a guard, which is dropped after it, also when it
    panics. *)
Definition inspect {T U} (b : B T) (f : T -> outcome U) : option (box_call_result B T U) :=
  let '(g, c) := aa_load (lb_cell b) in
  match g with
  | None => Some (UB, [], b)     (* unwrap_unchecked *)
  | Some g =>
      let r := t ← aa_deref c g; f t in
      let '(l, c) := aa_drop_guard c g in
      Some (r, l, set_cell c b)
  end.

Definition get {T} (b : B T) : option (box_call_result B T G) :=
  let '(g, c) := aa_load (lb_cell b) in
  match g with
  | None => Some (UB, [], b)     (* unwrap_unchecked *)
  | Some g => Some (Ret g, [], set_cell c b)
  end.

Definition deref {T} (b : B T) (g : G) : outcome T := aa_deref (lb_cell b) g.

Definition drop_guard {T} (b : B T) (g : G) : box_call_result B T unit :=
  let '(l, c) := aa_drop_guard (lb_cell b) g in (Ret tt, l, set_cell c b).

Definition write_nonlocked {T} (b : B T) (new_value : T) : list T * B T :=
  let '(l, c) := aa_store (lb_cell b) (Some new_value) in (l, set_cell c b).

(** [self.1.lock().unwrap()], then the store. *)
Definition write {T} (b : B T) (new_value : T) : option (box_call_result B T unit) :=
  if lb_poisoned b then Some (Panic, [], b)
  else let '(l, b') := write_nonlocked b new_value in Some (Ret tt, l, b').

(** The mutex is held while [f] runs, so that a panic there poisons it. *)
Definition update {T} (b : B T) (f : T -> outcome (option T))
  : option (box_call_result B T (result unit unit)) :=
  if lb_poisoned b then Some (Panic, [], b)
  else
    '(r, l, b') ← inspect b f;
    match r with
    | Ret None => Some (Ret (Err tt), l, b')
    | Ret (Some new_value) =>
        let '(l', b'') := write_nonlocked b' new_value in Some (Ret (Ok tt), l ++ l', b'')
    | Panic => Some (Panic, l, mkLocked (lb_cell b') true)
    | UB => Some (UB, l, b')
    | OutOfFuel => Some (OutOfFuel, l, b')
    end.

(** Dropping the box drops the cell. *)
Definition drop_box {T} (b : B T) : outcome (list T) := Ret (aa_drop (lb_cell b)).
End aarc.

#[global] Instance aarc_ops C G `{AtomicArcOps C G} : RcuBoxOps (locked_box C) G := {
  box_new := @new C G _;
  box_get := @get C G _;
  box_deref := @deref C G _;
  box_drop_guard := @drop_guard C G _;
  box_write := @write C G _;
  box_update := @update C G _;
  box_inspect := @inspect C G _;
  box_drop := @drop_box C G _;
}.
End aarc.

(** ** [rcu-arc-swap]: [RcuBox(ArcSwapAny<Arc<T>>, Mutex<()>)] *)

Module arc_swap.
Section arc_swap.
Context {C : Type -> Type} {G : Type} {Cell : ArcSwapOps C G}.
Abbreviation B := (locked_box C).

Definition new {T} (t : T) : B T := mkLocked (as_new t) false.

Definition inspect {T U} (b : B T) (f : T -> outcome U) : option (box_call_result B T U) :=
  let '(g, c) := as_load (lb_cell b) in
  let r := t ← as_deref c g; f t in
  let '(l, c) := as_drop_guard c g in
  Some (r, l, set_cell c b).

Definition get {T} (b : B T) : option (box_call_result B T G) :=
  let '(g, c) := as_load (lb_cell b) in Some (Ret g, [], set_cell c b).

Definition deref {T} (b : B T) (g : G) : outcome T := as_deref (lb_cell b) g.

Definition drop_guard {T} (b : B T) (g : G) : box_call_result B T unit :=
  let '(l, c) := as_drop_guard (lb_cell b) g in (Ret tt, l, set_cell c b).

Definition write_nonlocked {T} (b : B T) (new_value : T) : list T * B T :=
  let '(l, c) := as_store (lb_cell b) new_value in (l, set_cell c b).

Definition write {T} (b : B T) (new_value : T) : option (box_call_result B T unit) :=
  if lb_poisoned b then Some (Panic, [], b)
  else let '(l, b') := write_nonlocked b new_value in Some (Ret tt, l, b').

Definition update {T} (b : B T) (f : T -> outcome (option T))
  : option (box_call_result B T (result unit unit)) :=
  if lb_poisoned b then Some (Panic, [], b)
  else
    '(r, l, b') ← inspect b f;
    match r with
    | Ret None => Some (Ret (Err tt), l, b')
    | Ret (Some new_value) =>
        let '(l', b'') := write_nonlocked b' new_value in Some (Ret (Ok tt), l ++ l', b'')
    | Panic => Some (Panic, l, mkLocked (lb_cell b') true)
    | UB => Some (UB, l, b')
    | OutOfFuel => Some (OutOfFuel, l, b')
    end.

Definition drop_box {T} (b : B T) : outcome (list T) := Ret (as_drop (lb_cell b)).
End arc_swap.

#[global] Instance arc_swap_ops C G `{ArcSwapOps C G} : RcuBoxOps (locked_box C) G := {
  box_new := @new C G _;
  box_get := @get C G _;
  box_deref := @deref C G _;
  box_drop_guard := @drop_guard C G _;
  box_write := @write C G _;
  box_update := @update C G _;
  box_inspect := @inspect C G _;
  box_drop := @drop_box C G _;
}.
End arc_swap.

(** ** What the boxes rely on *)

Section moves.
Context {T : Type}.

(** Loading, and dropping the guard [k] on the version [v]. *)
Definition reg_pin (s : reg T) : reg T :=
  mkReg (versions s) (pins s ++ [current s]) (freed s) (reg_poisoned s).
Definition reg_unpin (s : reg T) (k v : nat) : reg T :=
  let rest := delete k (pins s) in
  mkReg (versions s) rest
    (freed s ++ if decide (v = current s \/ v ∈ rest) then [] else [v]) (reg_poisoned s).
Definition reg_set_poisoned (p : bool) (s : reg T) : reg T :=
  mkReg (versions s) (pins s) (freed s) p.
End moves.

(** A cell keeps a value alive for the guards that were loaded from it; a value
    that was replaced is dropped once, after its last guard: at once if
    [cell_eager]. *)
Class CellLaws (C : Type -> Type) (G : Type) {Cell : CellOps C G} := {
  cell_eager : bool;
  cell_rel {T} : C T -> list G -> list T -> reg T -> Prop;
  cell_rel_new {T} (t : T) : cell_rel (cell_new t) [] [] (reg_start t);
  cell_rel_poisoned {T} (c : C T) gs d s p : cell_rel c gs d s -> cell_rel c gs d (reg_set_poisoned p s);
  cell_rel_load {T} (c : C T) gs d s : cell_rel c gs d s ->
    exists g c', cell_load c = (Ret g, c') /\ cell_rel c' (gs ++ [g]) d (reg_pin s);
  cell_rel_deref {T} (c : C T) gs d s k g v : cell_rel c gs d s ->
    gs !! k = Some g -> pins s !! k = Some v -> Ret <$> versions s !! v = Some (cell_deref c g);
  cell_rel_drop {T} (c : C T) gs d s k g v l c' : cell_rel c gs d s ->
    gs !! k = Some g -> pins s !! k = Some v -> cell_drop_guard c g = (l, c') ->
    cell_rel c' (delete k gs) (d ++ l) (reg_unpin s k v);
  cell_rel_store {T} (c : C T) gs d s t l c' : cell_rel c gs d s ->
    cell_store c t = (l, c') -> cell_rel c' gs (d ++ l) (reg_write s t);
  cell_rel_guards {T} (c : C T) gs d s : cell_rel c gs d s -> length gs = length (pins s);
  cell_rel_dropped {T} (c : C T) gs d s : cell_rel c gs d s -> reg_wf s ->
    dropped_ok (mkPolicy false true cell_eager true) s d;
  cell_rel_end {T} (c : C T) d s : cell_rel c [] d s -> reg_wf s ->
    all_dropped_ok (mkPolicy false true cell_eager true) s (d ++ cell_drop c);
}.
