(* ===== verification/RcuBoxSwapProof.v ===== *)
(** The boxes on aarc and arc-swap keep the promises of the interface, given those
    of their cells; and a cell to try them on. *)

From S2P Require Import Prelude RcuBox RcuBoxSpec RcuBoxProof RcuBoxSwap.

(** ** What the two implementations have in common *)

Class LockedImpl (C : Type -> Type) (G : Type) {Cell : CellOps C G} {Ops : RcuBoxOps (locked_box C) G} := {
  li_new {T} (t : T) : box_new t = mkLocked (cell_new t) false;
  li_get {T} (b : locked_box C T) g c : cell_load (lb_cell b) = (Ret g, c) ->
    box_get b = Some (Ret g, [], set_cell c b);
  li_inspect {T U} (b : locked_box C T) (f : T -> outcome U) g c l c' :
    cell_load (lb_cell b) = (Ret g, c) -> cell_drop_guard c g = (l, c') ->
    box_inspect b f = Some (t ← cell_deref c g; f t, l, set_cell c' b);
  li_deref {T} (b : locked_box C T) g : box_deref b g = cell_deref (lb_cell b) g;
  li_drop {T} (b : locked_box C T) g l c : cell_drop_guard (lb_cell b) g = (l, c) ->
    box_drop_guard b g = (Ret tt, l, set_cell c b);
  li_write {T} (b : locked_box C T) t l c : cell_store (lb_cell b) t = (l, c) ->
    box_write b t = if lb_poisoned b then Some (Panic, [], b) else Some (Ret tt, l, set_cell c b);
  li_update {T} (b : locked_box C T) f :
    box_update b f =
      if lb_poisoned b then Some (Panic, [], b)
      else
        '(r, l, b') ← box_inspect b f;
        Some match r with
        | Ret None => (Ret (Err tt), l, b')
        | Ret (Some t) =>
            let '(l', c) := cell_store (lb_cell b') t in (Ret (Ok tt), l ++ l', set_cell c b')
        | Panic => (Panic, l, mkLocked (lb_cell b') true)
        | UB => (UB, l, b')
        | OutOfFuel => (OutOfFuel, l, b')
        end;
  li_box_drop {T} (b : locked_box C T) : box_drop b = Ret (cell_drop (lb_cell b));
}.

#[export] Instance aarc_impl C G `{AtomicArcOps C G} : LockedImpl C G (Cell := aarc_cell C G).
Proof.
  split; try done.
  - intros T b g c. cbn. unfold aarc.get. destruct (aa_load (lb_cell b)) as [[g'|] c']; by intros [= -> ->].
  - intros T U b f g c l c'. cbn. unfold aarc.inspect. destruct (aa_load (lb_cell b)) as [[g'|] c1]; [|done].
    intros [= -> ->]. cbn. by intros ->.
  - intros T b g l c. cbn. unfold aarc.drop_guard. by intros ->.
  - intros T b t l c. cbn. unfold aarc.write, aarc.write_nonlocked. by intros ->.
  - intros T b f. cbn -[aarc.inspect]. unfold aarc.update, aarc.write_nonlocked. destruct (lb_poisoned b); [done|].
    destruct (aarc.inspect b f) as [[[[[t|]| | |] l] b']|]; try done. cbn.
    by destruct (aa_store (lb_cell b') (Some t)).
Qed.

#[export] Instance arc_swap_impl C G `{ArcSwapOps C G} : LockedImpl C G (Cell := arc_swap_cell C G).
Proof.
  split; try done.
  - intros T b g c. cbn. unfold arc_swap.get. destruct (as_load (lb_cell b)) as [g' c']. by intros [= -> ->].
  - intros T U b f g c l c'. cbn. unfold arc_swap.inspect. destruct (as_load (lb_cell b)) as [g' c1].
    intros [= -> ->]. cbn. by intros ->.
  - intros T b g l c. cbn. unfold arc_swap.drop_guard. by intros ->.
  - intros T b t l c. cbn. unfold arc_swap.write, arc_swap.write_nonlocked. by intros ->.
  - intros T b f. cbn -[arc_swap.inspect]. unfold arc_swap.update, arc_swap.write_nonlocked. destruct (lb_poisoned b); [done|].
    destruct (arc_swap.inspect b f) as [[[[[t|]| | |] l] b']|]; try done. cbn.
    by destruct (as_store (lb_cell b') t).
Qed.

(** ** The laws *)

Section laws.
Context {C : Type -> Type} {G : Type} {Cell : CellOps C G} {Ops : RcuBoxOps (locked_box C) G}.
Context {Impl : LockedImpl C G} {Laws : CellLaws C G}.

(** Reads do not look at the mutex. *)
Definition locked_policy : policy := mkPolicy false true cell_eager true.

Record locked_rel {T} (y : box_sys (locked_box C) G T) (s : reg T) : Prop := {
  lr_wf : reg_wf s;
  lr_cell : cell_rel (lb_cell (bs_box y)) (bs_guards y) (bs_dropped y) s;
  lr_poisoned : lb_poisoned (bs_box y) = reg_poisoned s;
}.

Section steps.
Context {T U : Type}.
Implicit Types (y : box_sys (locked_box C) G T) (s : reg T).

Lemma reg_pin_wf s : reg_wf s -> reg_wf (reg_pin s).
Proof.
  intros Hw. apply (reg_exec_wf (U := unit) (mkPolicy false true true true) s BGet (Ret BUnit)); [done|].
  reflexivity.
Qed.

(** Loading and dropping the guard again pins nothing. *)
Lemma pin_unpin s : reg_wf s -> reg_unpin (reg_pin s) (length (pins s)) (current s) = s.
Proof.
  intros Hw. unfold reg_unpin, reg_pin; cbn. change (current (mkReg _ _ _ _)) with (current s).
  rewrite decide_True by (by left). rewrite app_nil_r, (delete_middle (pins s) [] (current s)), app_nil_r.
  by destruct s.
Qed.

Lemma locked_inspect {A} y s (f : T -> outcome A) : locked_rel y s ->
  exists t l b', versions s !! current s = Some t
    /\ box_inspect (bs_box y) f = Some (f t, l, b') /\ lb_poisoned b' = lb_poisoned (bs_box y)
    /\ locked_rel (after l b' (bs_guards y) y) s.
Proof.
  intros [Hw Hc Hp]. destruct (current_value s Hw) as [t Ht].
  destruct (cell_rel_load _ _ _ _ Hc) as (g & c & Hl & Hc1).
  pose proof (cell_rel_guards _ _ _ _ Hc) as Hlen.
  destruct (cell_drop_guard c g) as [l c'] eqn:Hd.
  assert ((bs_guards y ++ [g]) !! length (bs_guards y) = Some g) as Hg by (by apply list_lookup_middle).
  assert (pins (reg_pin s) !! length (bs_guards y) = Some (current s)) as Hpin
    by (cbn; rewrite Hlen; by apply list_lookup_middle).
  pose proof (cell_rel_deref _ _ _ _ _ _ _ Hc1 Hg Hpin) as Hv. cbn in Hv. rewrite Ht in Hv. injection Hv as Hv.
  pose proof (cell_rel_drop _ _ _ _ _ _ _ _ _ Hc1 Hg Hpin Hd) as Hc2.
  rewrite (delete_middle (bs_guards y) [] g), app_nil_r, Hlen, pin_unpin in Hc2 by done.
  exists t, l, (set_cell c' (bs_box y)). split; [done|]. split; [|split; [done|by split]].
  rewrite (li_inspect _ f g c l c' Hl Hd), <- Hv. done.
Qed.

Lemma locked_store y s t l c :
  locked_rel y s -> cell_store (lb_cell (bs_box y)) t = (l, c) ->
  locked_rel (after l (set_cell c (bs_box y)) (bs_guards y) y) (reg_write s t).
Proof.
  intros [Hw Hc Hp] Hs. split; [by apply reg_write_wf| |done]. by eapply cell_rel_store.
Qed.

Lemma locked_rel_step y s (c : box_call T U) : locked_rel y s ->
  match box_exec y c with
  | Some (o, y') => exists s', reg_exec locked_policy s c = Some (o, s') /\ locked_rel y' s'
  | None => reg_exec locked_policy s c = None
  end.
Proof.
  intros R. pose proof R as [Hw Hc Hp].
  pose proof (cell_rel_guards _ _ _ _ Hc) as Hlen.
  destruct c as [|k|k|t|f|f]; cbn -[reg_unpin].
  - destruct (cell_rel_load _ _ _ _ Hc) as (g & c & Hl & Hc'). rewrite (li_get _ g c Hl). cbn.
    exists (reg_pin s). split; [done|]. split; [by apply reg_pin_wf| |done].
    cbn. by rewrite app_nil_r.
  - destruct (bs_guards y !! k) as [g|] eqn:Hg; cbn.
    + destruct (lookup_lt_is_Some_2 (pins s) k) as [v Hv]; [rewrite <- Hlen; by eapply lookup_lt_Some|].
      rewrite Hv. cbn. pose proof (cell_rel_deref _ _ _ _ _ _ _ Hc Hg Hv) as Hd.
      destruct (versions s !! v) as [t|]; [|done]. injection Hd as Hd. rewrite li_deref, <- Hd. by exists s.
    + apply lookup_ge_None in Hg. by rewrite lookup_ge_None_2 by lia.
  - destruct (bs_guards y !! k) as [g|] eqn:Hg; cbn -[reg_unpin].
    + destruct (lookup_lt_is_Some_2 (pins s) k) as [v Hv]; [rewrite <- Hlen; by eapply lookup_lt_Some|].
      rewrite Hv. cbn. destruct (cell_drop_guard (lb_cell (bs_box y)) g) as [l c'] eqn:Hd.
      rewrite (li_drop _ g l c' Hd). cbn. eexists. split; [reflexivity|].
      split; [by apply reg_drop_wf| |done]. cbn. by eapply cell_rel_drop.
    + apply lookup_ge_None in Hg. by rewrite lookup_ge_None_2 by lia.
  - destruct (cell_store (lb_cell (bs_box y)) t) as [l c'] eqn:Hs. rewrite (li_write _ t l c' Hs), <- Hp.
    destruct (lb_poisoned (bs_box y)); cbn.
    + exists s. split; [done|]. no_drop. by destruct y.
    + eexists. split; [reflexivity|]. by apply locked_store.
  - rewrite li_update, <- Hp. destruct (lb_poisoned (bs_box y)) eqn:Hpo; cbn.
    + exists s. split; [done|]. no_drop. by destruct y.
    + destruct (locked_inspect y s f R) as (t & l & b' & Ht & -> & Hb' & R'). rewrite Ht. cbn.
      destruct (f t) as [[t'|]| | |]; cbn.
      * destruct (cell_store (lb_cell b') t') as [l' c'] eqn:Hs. cbn. eexists. split; [reflexivity|].
        pose proof (locked_store _ s t' l' c' R' Hs) as R''. unfold after in R''. cbn in R''.
        rewrite <- app_assoc in R''. exact R''.
      * by eexists.
      * eexists. split; [reflexivity|]. destruct R' as [Hw' Hc' _]. split; cbn; [|by apply cell_rel_poisoned|done].
        destruct Hw. by constructor.
      * by eexists.
      * by eexists.
  - destruct (locked_inspect y s f R) as (t & l & b' & Ht & -> & Hb' & R'). rewrite Ht. cbn. by eexists.
Qed.
End steps.

#[export] Instance locked_laws : RcuBoxLaws (locked_box C) G.
Proof.
  refine {| box_policy := locked_policy; box_rel := @locked_rel |}.
  - intros T y s R. apply R.
  - intros T t. unfold box_start. rewrite li_new. split; [apply reg_start_wf|apply cell_rel_new|done].
  - intros T U y s c R. pose proof (locked_rel_step y s c R) as H.
    destruct (box_exec y c) as [[o y']|]; [done|by left].
  - intros T y s R. apply (cell_rel_guards _ _ _ _ (lr_cell _ _ R)).
  - intros T y s R. apply (cell_rel_dropped _ _ _ _ (lr_cell _ _ R)), R.
  - intros T y s R Hg. eexists. split; [apply li_box_drop|]. apply cell_rel_end; [|apply R].
    rewrite <- Hg. apply R.
Defined.
End laws.

(** ** A cell

    Reference-counted values on a heap, as in [mutex_arc]; it drops a value with
    its last reference. *)

Module arc_cell.
Import mutex_arc.

Definition load {T} (b : arc_box T) : nat * arc_box T :=
  match get b with Some (Ret g, _, b') => (g, b') | _ => (ab_current b, b) end.
Definition release {T} (b : arc_box T) (g : nat) : list T * arc_box T :=
  let '(_, l, b') := drop_guard b g in (l, b').
Definition store {T} (b : arc_box T) (t : T) : list T * arc_box T :=
  match write b t with Some (_, l, b') => (l, b') | None => ([], b) end.
Definition end_cell {T} (b : arc_box T) : list T := match drop_box b with Ret l => l | _ => [] end.

#[global] Instance swap_ops : ArcSwapOps arc_box nat := {
  as_new := @new;
  as_load := @load;
  as_deref := @deref;
  as_drop_guard := @release;
  as_store := @store;
  as_drop := @end_cell;
}.

(** The one that may be empty. *)
Definition opt_box (T : Type) : Type := option (arc_box T).

Definition opt_store {T} (c : opt_box T) (v : option T) : list T * opt_box T :=
  match c, v with
  | Some b, Some t => let '(l, b') := store b t in (l, Some b')
  | None, Some t => ([], Some (new t))
  | _, None => ([], None)
  end.

#[global] Instance atomic_ops : AtomicArcOps opt_box nat := {
  aa_new T v := new <$> v;
  aa_load T c :=
    match c with Some b => let '(g, b') := load b in (Some g, Some b') | None => (None, None) end;
  aa_deref T c g := match c with Some b => deref b g | None => UB end;
  aa_drop_guard T c g :=
    match c with Some b => let '(l, b') := release b g in (l, Some b') | None => ([], None) end;
  aa_store := @opt_store;
  aa_drop T c := match c with Some b => end_cell b | None => [] end;
}.

Section laws.
Context {T : Type}.
Implicit Types (b : arc_box T) (s : reg T).

Definition rel b (gs : list nat) (d : list T) s : Prop :=
  ma_rel (mkBoxSys b gs d) (reg_set_poisoned false s).

Lemma rel_load b gs d s : rel b gs d s ->
  exists g b', load b = (g, b') /\ rel b' (gs ++ [g]) d (reg_pin s).
Proof.
  intros R. pose proof (ma_rel_step (U := unit) _ _ BGet R) as Hs. unfold load.
  cbn [box_exec box_get mutex_arc_ops bs_box] in Hs. unfold get in *.
  pose proof (mar_poisoned _ _ R) as Hp. cbn in Hp. rewrite Hp in *. cbn in Hs.
  destruct (arc_clone (ab_arcs b) (ab_current b)) as [arcs| | |]; cbn in *;
    destruct Hs as (s' & Hs & R'); try done. injection Hs as <-.
  unfold after in R'. cbn in R'. rewrite app_nil_r in R'. by eexists _, _.
Qed.

Lemma rel_release b gs d s k g v l b' : rel b gs d s -> gs !! k = Some g -> pins s !! k = Some v ->
  release b g = (l, b') -> rel b' (delete k gs) (d ++ l) (reg_unpin s k v).
Proof.
  intros R Hg Hv. pose proof (ma_rel_step (U := unit) _ _ (BDropGuard k) R) as Hs. unfold release.
  cbn in Hs. rewrite Hg in Hs. cbn in Hs. destruct (drop_guard b g) as [[o l'] b1]. intros [= -> ->].
  destruct Hs as (s' & Hs' & R'). rewrite Hv in Hs'. cbn in Hs'. injection Hs' as _ <-. exact R'.
Qed.

Lemma rel_store b gs d s t l b' : rel b gs d s -> store b t = (l, b') -> rel b' gs (d ++ l) (reg_write s t).
Proof.
  intros R. pose proof (ma_rel_step (U := unit) _ _ (BWrite t) R) as Hs. unfold store.
  cbn in Hs. destruct (write b t) as [[[o l'] b1]|]; [|done]. cbn in Hs. intros [= -> ->].
  destruct Hs as (s' & Hs' & R'). by injection Hs' as _ <-.
Qed.

Lemma rel_deref b gs d s k g v : rel b gs d s -> gs !! k = Some g -> pins s !! k = Some v ->
  Ret <$> versions s !! v = Some (deref b g).
Proof.
  intros R Hg Hv. pose proof (mar_guards _ _ R) as Hgs. cbn in Hgs. subst gs. rewrite Hv in Hg.
  injection Hg as <-. destruct (arcs_lookup _ _ _ _ v (mar_arcs _ _ R)) as (t & Ht & Hl & _).
  { right. by eapply list_elem_of_lookup_2. }
  cbn in *. unfold deref, arc_deref. by rewrite Ht, Hl.
Qed.

Lemma rel_dropped b gs d s p : rel b gs d s -> reg_wf s -> dropped_ok p s d.
Proof. intros R Hw. apply dropped_eager; [done|]. apply (mar_dropped _ _ R). Qed.

Lemma rel_end b d s : rel b [] d s -> reg_wf s ->
  all_dropped_ok (mkPolicy false true true true) s (d ++ end_cell b).
Proof.
  intros R Hw. destruct (rel_drop_box (RcuBoxLaws := mutex_arc_laws) _ _ R eq_refl) as (l & Hl & Hd).
  cbn in Hl. unfold end_cell. by rewrite Hl.
Qed.
End laws.

#[global] Instance swap_laws : CellLaws arc_box nat.
Proof.
  refine {| cell_eager := true; cell_rel := @rel |}.
  - intros T t. exact (rel_start (RcuBoxLaws := mutex_arc_laws) t).
  - intros T c gs d s p R. exact R.
  - intros T c gs d s R. destruct (rel_load c gs d s R) as (g & b' & Hl & R'). exists g, b'.
    split; [|done]. cbn. by rewrite Hl.
  - intros T c gs d s k g v R. apply (rel_deref c gs d s k g v R).
  - intros T c gs d s k g v l c' R. apply (rel_release c gs d s k g v l c' R).
  - intros T c gs d s t l c' R. apply (rel_store c gs d s t l c' R).
  - intros T c gs d s R. exact (f_equal length (mar_guards _ _ R)).
  - intros T c gs d s R. apply (rel_dropped c gs d s _ R).
  - intros T c d s R. apply (rel_end c d s R).
Defined.

Definition opt_rel {T} (c : opt_box T) gs d (s : reg T) : Prop := exists b, c = Some b /\ rel b gs d s.

#[global] Instance atomic_laws : CellLaws opt_box nat.
Proof.
  refine {| cell_eager := true; cell_rel := @opt_rel |}.
  - intros T t. exists (new t). split; [done|]. exact (rel_start (RcuBoxLaws := mutex_arc_laws) t).
  - intros T c gs d s p R. exact R.
  - intros T c gs d s (b & -> & R). destruct (rel_load b gs d s R) as (g & b' & Hl & R').
    exists g, (Some b'). split; [cbn; by rewrite Hl|by exists b'].
  - intros T c gs d s k g v (b & -> & R). apply (rel_deref b gs d s k g v R).
  - intros T c gs d s k g v l c' (b & -> & R) Hg Hv. cbn.
    destruct (release b g) as [l' b'] eqn:Hr. intros [= -> <-].
    exists b'. split; [done|]. by apply (rel_release b gs d s k g v l b' R).
  - intros T c gs d s t l c' (b & -> & R). cbn.
    destruct (store b t) as [l' b'] eqn:Hr. intros [= -> <-].
    exists b'. split; [done|]. by apply (rel_store b gs d s t l b' R).
  - intros T c gs d s (b & _ & R). exact (f_equal length (mar_guards _ _ R)).
  - intros T c gs d s (b & _ & R). apply (rel_dropped b gs d s _ R).
  - intros T c d s (b & -> & R). apply (rel_end b d s R).
Defined.
End arc_cell.
