(* ===== verification/RcuBoxEpoch.v ===== *)
(** [RcuBox] on crossbeam-epoch (rcu/src/rcu.rs, feature [rcu-crossbeam-epoch]):
    an atomic pointer, guards that pin the current thread's epoch, and
    destructors that are deferred until the threads pinned now are unpinned.

    The crate is a parameter; what the box relies on is a class of laws. *)

From S2P Require Import Prelude RcuBox RcuBoxSpec RcuBoxProof.

(** ** The crate *)

(** [epoch::Atomic<T>] with its collector, [epoch::Guard] and [Shared]: [new],
    [pin], dropping a guard (with the values that are destroyed then), [load],
    [swap], [deref], [Guard::defer_destroy] and [fetch_update]. *)
Class EpochOps (A : Type -> Type) (Gd P : Type) := {
  ep_new {T} : T -> A T;
  ep_pin {T} : A T -> Gd * A T;
  ep_unpin {T} : A T -> Gd -> list T * A T;
  ep_load {T} : A T -> P;
  ep_swap {T} : A T -> T -> P * A T;
  ep_deref {T} : A T -> P -> outcome T;
  ep_defer_destroy {T} : A T -> Gd -> P -> list T * A T;
  ep_fetch_update {T} : A T -> (P -> outcome (option T)) -> outcome (result P P) * A T;
}.

(** ** The box *)

Module epoch.

Record epoch_guard (Gd P : Type) := mkEpochGuard { eg_guard : Gd; eg_ptr : P }.
Arguments mkEpochGuard {Gd P} _ _.
Arguments eg_guard {Gd P} _.
Arguments eg_ptr {Gd P} _.

Section epoch.
Context {A : Type -> Type} {Gd P : Type} {E : EpochOps A Gd P}.
Abbreviation G := (epoch_guard Gd P).

Definition new {T} (t : T) : A T := ep_new t.

(** The guard is dropped after [f], also when it panics. *)
Definition inspect {T U} (b : A T) (f : T -> outcome U) : option (box_call_result A T U) :=
  let '(guard, b) := ep_pin b in
  let ptr := ep_load b in
  let r := t ← ep_deref b ptr; f t in
  let '(l, b) := ep_unpin b guard in
  Some (r, l, b).

Definition get {T} (b : A T) : option (box_call_result A T G) :=
  let '(guard, b) := ep_pin b in
  let ptr := ep_load b in
  Some (Ret (mkEpochGuard guard ptr), [], b).

Definition deref {T} (b : A T) (g : G) : outcome T := ep_deref b (eg_ptr g).

(** [RcuGuard]'s own [drop] does nothing; its guard is dropped. *)
Definition drop_guard {T} (b : A T) (g : G) : box_call_result A T unit :=
  let '(l, b) := ep_unpin b (eg_guard g) in (Ret tt, l, b).

Definition write {T} (b : A T) (new_value : T) : option (box_call_result A T unit) :=
  let '(guard, b) := ep_pin b in
  let '(old_value, b) := ep_swap b new_value in
  let '(l, b) := ep_defer_destroy b guard old_value in
  let '(l', b) := ep_unpin b guard in
  Some (Ret tt, l ++ l', b).

Definition update {T} (b : A T) (f : T -> outcome (option T))
  : option (box_call_result A T (result unit unit)) :=
  let '(guard, b1) := ep_pin b in
  let '(r, b2) := ep_fetch_update b1 (fun ptr => t ← ep_deref b1 ptr; f t) in
  match r with
  | Ret (Err _) => let '(l, b3) := ep_unpin b2 guard in Some (Ret (Err tt), l, b3)
  | Ret (Ok old_value) =>
      let '(l, b3) := ep_defer_destroy b2 guard old_value in
      let '(l', b4) := ep_unpin b3 guard in
      Some (Ret (Ok tt), l ++ l', b4)
  | Panic => let '(l, b3) := ep_unpin b2 guard in Some (Panic, l, b3)
  | UB => Some (UB, [], b)
  | OutOfFuel => Some (OutOfFuel, [], b)
  end.

(** [Atomic] does not drop what it points to, and the box has no [Drop]. *)
Definition drop_box {T} (b : A T) : outcome (list T) := Ret [].
End epoch.

#[global] Instance epoch_ops A Gd P `{EpochOps A Gd P} : RcuBoxOps A (epoch_guard Gd P) := {
  box_new := @new A Gd P _;
  box_get := @get A Gd P _;
  box_deref := @deref A Gd P _;
  box_drop_guard := @drop_guard A Gd P _;
  box_write := @write A Gd P _;
  box_update := @update A Gd P _;
  box_inspect := @inspect A Gd P _;
  box_drop T b := drop_box b;
}.
End epoch.

(** ** What the box relies on *)

(** The objects that the pointer has had, and the current one; for each guard
    those that were retired since it was made; those retired, and those
    destroyed. *)
Record ep_state (P T : Type) := mkEp {
  es_objs : list (P * T);
  es_cur : nat;
  es_guards : list (list nat);
  es_retired : list nat;
  es_destroyed : list nat;
}.
Arguments mkEp {P T} _ _ _ _ _.
Arguments es_objs {P T} _.
Arguments es_cur {P T} _.
Arguments es_guards {P T} _.
Arguments es_retired {P T} _.
Arguments es_destroyed {P T} _.

Section moves.
Context {P T : Type}.
Implicit Types e : ep_state P T.

Definition es_pin e : ep_state P T :=
  mkEp (es_objs e) (es_cur e) (es_guards e ++ [[]]) (es_retired e) (es_destroyed e).
Definition es_unpin (k : nat) e : ep_state P T :=
  mkEp (es_objs e) (es_cur e) (delete k (es_guards e)) (es_retired e) (es_destroyed e).
Definition es_swap (p : P) (t : T) e : ep_state P T :=
  mkEp (es_objs e ++ [(p, t)]) (length (es_objs e)) (es_guards e) (es_retired e) (es_destroyed e).
Definition es_retire (i : nat) e : ep_state P T :=
  mkEp (es_objs e) (es_cur e) ((fun r => r ++ [i]) <$> es_guards e) (es_retired e ++ [i]) (es_destroyed e).
Definition es_destroy (l : list nat) e : ep_state P T :=
  mkEp (es_objs e) (es_cur e) (es_guards e) (es_retired e) (es_destroyed e ++ l).

(** Objects that may be destroyed: retired, not destroyed, and not retired under
    a guard that is still there. *)
Definition collectible e (l : list nat) : Prop :=
  NoDup l /\ forall i, i ∈ l -> i ∈ es_retired e /\ i ∉ es_destroyed e /\ Forall (fun r => i ∉ r) (es_guards e).

Definition values e (l : list nat) : list (option T) := (fun i => snd <$> es_objs e !! i) <$> l.
End moves.

(** The documentation of the crate. *)
Class EpochLaws (A : Type -> Type) (Gd P : Type) {E : EpochOps A Gd P} := {
  ep_rel {T} : A T -> list Gd -> ep_state P T -> Prop;
  ep_rel_new {T} (t : T) : exists p, ep_rel (ep_new t) [] (mkEp [(p, t)] 0 [] [] []);
  ep_rel_pin {T} (a : A T) gs e g a' : ep_rel a gs e -> ep_pin a = (g, a') -> ep_rel a' (gs ++ [g]) (es_pin e);
  ep_rel_unpin {T} (a : A T) gs e k g l a' : ep_rel a gs e -> gs !! k = Some g -> ep_unpin a g = (l, a') ->
    exists js, collectible (es_unpin k e) js /\ Some <$> l = values e js
      /\ ep_rel a' (delete k gs) (es_destroy js (es_unpin k e));
  ep_rel_load {T} (a : A T) gs e : ep_rel a gs e -> fst <$> es_objs e !! es_cur e = Some (ep_load a);
  ep_rel_swap {T} (a : A T) gs e t p a' : ep_rel a gs e -> ep_swap a t = (p, a') ->
    fst <$> es_objs e !! es_cur e = Some p /\ exists p', ep_rel a' gs (es_swap p' t e);
  ep_rel_deref {T} (a : A T) gs e i p t : ep_rel a gs e -> es_objs e !! i = Some (p, t) ->
    i ∉ es_destroyed e -> ep_deref a p = Ret t;
  ep_rel_defer {T} (a : A T) gs e g i p t l a' : ep_rel a gs e -> g ∈ gs ->
    es_objs e !! i = Some (p, t) -> i <> es_cur e -> i ∉ es_retired e -> i ∉ es_destroyed e ->
    ep_defer_destroy a g p = (l, a') ->
    exists js, collectible (es_retire i e) js /\ Some <$> l = values e js
      /\ ep_rel a' gs (es_destroy js (es_retire i e));
  ep_rel_update {T} (a : A T) gs e p f : ep_rel a gs e -> fst <$> es_objs e !! es_cur e = Some p ->
    let '(r, a') := ep_fetch_update a f in
    match f p with
    | Ret (Some t) => r = Ret (Ok p) /\ exists p', ep_rel a' gs (es_swap p' t e)
    | Ret None => r = Ret (Err p) /\ ep_rel a' gs e
    | Panic => r = Panic /\ ep_rel a' gs e
    | UB => r = UB
    | OutOfFuel => r = OutOfFuel
    end;
}.
