(* ===== verification/RcuBoxEpochProof.v ===== *)
(** The box on crossbeam-epoch keeps the promises of the interface, given those of
    the crate. *)

From S2P Require Import Prelude RcuBox RcuBoxSpec RcuBoxProof RcuBoxEpoch.

Section epoch.
Context {A : Type -> Type} {Gd P : Type} {E : EpochOps A Gd P} {Laws : EpochLaws A Gd P}.
Abbreviation G := (epoch.epoch_guard Gd P).

Section state.
Context {T : Type}.
Implicit Types (a : A T) (gs : list Gd) (d : list T) (e : ep_state P T).

(** The pointer and its collector; [pend] has been replaced and is to be retired. *)
Record einv a gs d e (pend : option nat) : Prop := {
  ei_rel : ep_rel a gs e;
  ei_len : length (es_guards e) = length gs;
  ei_cur : S (es_cur e) = length (es_objs e);
  ei_retired i : i ∈ es_retired e <-> (i < es_cur e)%nat /\ pend <> Some i;
  ei_once : NoDup (es_destroyed e);
  ei_destroyed i : i ∈ es_destroyed e -> i ∈ es_retired e /\ Forall (fun r => i ∉ r) (es_guards e);
  ei_dropped : Some <$> d = values e (es_destroyed e);
}.

(** Destroying what may be destroyed. *)
Lemma einv_destroy a0 gs0 d e0 pend0 a gs e pend l js :
  einv a0 gs0 d e0 pend0 -> collectible e js -> Some <$> l = values e js -> ep_rel a gs (es_destroy js e) ->
  es_objs e = es_objs e0 -> es_cur e = es_cur e0 -> es_destroyed e = es_destroyed e0 ->
  length (es_guards e) = length gs ->
  (forall i, i ∈ es_retired e <-> (i < es_cur e)%nat /\ pend <> Some i) ->
  (forall i, i ∈ es_destroyed e -> i ∈ es_retired e /\ Forall (fun r => i ∉ r) (es_guards e)) ->
  einv a gs (d ++ l) (es_destroy js e) pend.
Proof.
  intros [I1 I2 I3 I4 I5 I6 I7] [Hnd Hj] Hl Hrel Ho Hc Hd Hlen Hret Hdes. split; cbn; try done.
  - by rewrite Hc, Ho.
  - apply NoDup_app. rewrite Hd. split; [done|]. split; [|done]. intros i Hi Hi'.
    apply Hj in Hi' as (_ & Hn & _). by rewrite Hd in Hn.
  - intros i [Hi|Hi]%elem_of_app; [by apply Hdes|]. apply Hj in Hi as (? & _ & ?). done.
  - unfold values in *. cbn. rewrite !fmap_app, Hl, I7, Hd, Ho. done.
Qed.

Lemma einv_pin a gs d e pend g a' : einv a gs d e pend -> ep_pin a = (g, a') ->
  einv a' (gs ++ [g]) d (es_pin e) pend.
Proof.
  intros [I1 I2 I3 I4 I5 I6 I7] Hp. split; cbn; try done.
  - by eapply ep_rel_pin.
  - rewrite !length_app. cbn. lia.
  - intros i Hi. destruct (I6 i Hi) as [? ?]. split; [done|]. apply Forall_app. split; [done|].
    constructor; [apply not_elem_of_nil|done].
Qed.

Lemma einv_unpin a gs d e pend k g l a' :
  einv a gs d e pend -> gs !! k = Some g -> ep_unpin a g = (l, a') ->
  exists e', einv a' (delete k gs) (d ++ l) e' pend
    /\ es_objs e' = es_objs e /\ es_cur e' = es_cur e /\ es_guards e' = delete k (es_guards e).
Proof.
  intros I Hk Hu. destruct (ep_rel_unpin _ _ _ _ _ _ _ (ei_rel _ _ _ _ _ I) Hk Hu) as (js & Hj & Hl & Hrel).
  exists (es_destroy js (es_unpin k e)). split; [|done].
  apply (einv_destroy _ _ _ _ _ _ _ _ _ _ _ I Hj Hl Hrel); try done.
  - cbn. pose proof (ei_len _ _ _ _ _ I) as Hlen. pose proof (lookup_lt_Some _ _ _ Hk) as Hlt.
    assert (is_Some (es_guards e !! k)) by (apply lookup_lt_is_Some; by rewrite Hlen).
    rewrite !length_delete by done. by rewrite Hlen.
  - apply I.
  - intros i Hi. destruct (ei_destroyed _ _ _ _ _ I i Hi) as [? ?]. split; [done|]. by apply Forall_delete.
Qed.

Lemma einv_current a gs d e pend : einv a gs d e pend ->
  exists t, es_objs e !! es_cur e = Some (ep_load a, t).
Proof.
  intros I. pose proof (ep_rel_load _ _ _ (ei_rel _ _ _ _ _ I)) as Hl.
  destruct (es_objs e !! es_cur e) as [[p t]|]; [|done]. injection Hl as <-. by exists t.
Qed.

(** Replacing the value. *)
Lemma einv_swap a gs d e p' t a' : einv a gs d e None -> ep_rel a' gs (es_swap p' t e) ->
  einv a' gs d (es_swap p' t e) (Some (es_cur e)).
Proof.
  intros [I1 I2 I3 I4 I5 I6 I7] Hrel. split; cbn; try done.
  - rewrite length_app. cbn. lia.
  - intros i. rewrite I4. split.
    + intros [? _]. split; [lia|]. intros [= ?]. lia.
    + intros [? Hne]. split; [|done]. assert (i <> es_cur e) by congruence. lia.
  - rewrite I7. unfold values. cbn. apply list_fmap_ext. intros k i Hi.
    rewrite lookup_app_l; [done|]. apply list_elem_of_lookup_2, I6 in Hi as [Hi _]. apply I4 in Hi. lia.
Qed.

Lemma einv_defer a gs d e i p t g l a' :
  einv a gs d e (Some i) -> (i < es_cur e)%nat -> es_objs e !! i = Some (p, t) -> g ∈ gs ->
  ep_defer_destroy a g p = (l, a') ->
  exists e', einv a' gs (d ++ l) e' None
    /\ es_objs e' = es_objs e /\ es_cur e' = es_cur e /\ es_guards e' = (fun r => r ++ [i]) <$> es_guards e.
Proof.
  intros I Hi Ho Hg Hd.
  assert (i ∉ es_retired e) as Hn by (intros [_ ?]%(ei_retired _ _ _ _ _ I); done).
  destruct (ep_rel_defer _ _ _ _ i p t l a' (ei_rel _ _ _ _ _ I) Hg Ho) as (js & Hj & Hl & Hrel);
    [lia|done| |exact Hd|].
  { intros Hin. by apply (ei_destroyed _ _ _ _ _ I) in Hin as [? _]. }
  exists (es_destroy js (es_retire i e)). split; [|done].
  apply (einv_destroy _ _ _ _ _ _ _ _ _ _ _ I Hj Hl Hrel); try done; cbn.
  - rewrite length_fmap. apply I.
  - intros j. rewrite elem_of_app, list_elem_of_singleton, (ei_retired _ _ _ _ _ I).
    split; [intros [[? ?]| ->]; (split; [done|done])|].
    intros [? _]. destruct (decide (j = i)) as [->|Hne]; [by right|left]. split; [done|congruence].
  - intros j Hj'. destruct (ei_destroyed _ _ _ _ _ I j Hj') as [Hr Hf].
    split; [by apply elem_of_app; left|]. apply Forall_fmap. eapply Forall_impl; [exact Hf|].
    intros r Hr'. cbn. rewrite elem_of_app, list_elem_of_singleton. intros [?| ->]; done.
Qed.
End state.

(** ** The relation to the register *)

Definition epoch_policy : policy := mkPolicy false false false false.

Section rel.
Context {T U : Type}.
Implicit Types (y : box_sys A G T) (s : reg T) (e : ep_state P T).

(** What a guard pins is the current version or was retired while it was there. *)
Definition pins_ok (guards : list G) s e : Prop :=
  Forall2 (fun g v => fst <$> es_objs e !! v = Some (epoch.eg_ptr g)) guards (pins s)
  /\ Forall2 (fun r v => v = es_cur e \/ v ∈ r) (es_guards e) (pins s).

Record epoch_rel y s : Prop := {
  er_wf : reg_wf s;
  er_poisoned : reg_poisoned s = false;
  er_state : exists e,
    einv (bs_box y) (epoch.eg_guard <$> bs_guards y) (bs_dropped y) e None
    /\ versions s = snd <$> es_objs e /\ pins_ok (bs_guards y) s e;
}.

Lemma epoch_current s e a gs d : einv a gs d e None -> versions s = snd <$> es_objs e ->
  es_cur e = current s.
Proof.
  intros I Hv. pose proof (ei_cur _ _ _ _ _ I). unfold current. rewrite Hv, length_fmap. lia.
Qed.

(** Under a guard, the current version can be read. *)
Lemma epoch_deref a gs d e pend i p t : einv a gs d e pend -> es_objs e !! i = Some (p, t) ->
  (i = es_cur e \/ exists r, r ∈ es_guards e /\ i ∈ r) -> ep_deref a p = Ret t.
Proof.
  intros I Ho Hi. apply (ep_rel_deref _ _ _ i p t (ei_rel _ _ _ _ _ I) Ho). intros Hd.
  apply (ei_destroyed _ _ _ _ _ I) in Hd as [Hr Hf]. apply (ei_retired _ _ _ _ _ I) in Hr as [Hr _].
  destruct Hi as [->|(r & Hr' & Hi)]; [lia|]. rewrite Forall_forall in Hf. by apply (Hf r).
Qed.

Lemma epoch_unpin_own a1 gs d e g a2 l a3 :
  einv a1 (gs ++ [g]) d (es_pin e) None -> ep_rel a2 (gs ++ [g]) (es_pin e) -> ep_unpin a2 g = (l, a3) ->
  exists e', einv a3 gs (d ++ l) e' None
    /\ es_objs e' = es_objs e /\ es_cur e' = es_cur e /\ es_guards e' = es_guards e.
Proof.
  intros [I1 I2 I3 I4 I5 I6 I7] Hrel Hu.
  assert (einv a2 (gs ++ [g]) d (es_pin e) None) as I by done. clear I1.
  destruct (einv_unpin _ _ _ _ _ (length gs) _ _ _ I (list_lookup_middle gs [] g _ eq_refl) Hu)
    as (e' & I' & Ho & Hc & Hg).
  rewrite (delete_middle gs [] g), app_nil_r in I'. exists e'. split; [done|]. split; [done|].
  split; [done|]. rewrite Hg. cbn in I2 |- *. rewrite !length_app in I2. cbn in I2.
  replace (length gs) with (length (es_guards e)) by lia.
  by rewrite (delete_middle (es_guards e) [] []), app_nil_r.
Qed.

(** After the swap under a guard: retiring the old value, and unpinning. *)
Lemma epoch_retire a gs d e g l a1 p t t' p' l' a2 :
  einv a (gs ++ [g]) d (es_pin e) None -> es_objs e !! es_cur e = Some (p, t) ->
  forall a0, ep_rel a0 (gs ++ [g]) (es_swap p' t' (es_pin e)) ->
  ep_defer_destroy a0 g p = (l, a1) -> ep_unpin a1 g = (l', a2) -> length (es_guards e) = length gs ->
  exists e', einv a2 gs (d ++ l ++ l') e' None
    /\ es_objs e' = es_objs e ++ [(p', t')]
    /\ es_guards e' = (fun r => r ++ [es_cur e]) <$> es_guards e.
Proof.
  intros I Ho a0 Hrel Hd Hu Hlen. pose proof (einv_swap _ _ _ _ p' t' a0 I Hrel) as I1.
  pose proof (ei_cur _ _ _ _ _ I) as Hc. cbn in Hc.
  destruct (einv_defer _ _ _ _ _ p t g l a1 I1) as (e2 & I2 & Ho2 & Hc2 & Hg2); cbn; [lia|..|done|].
  { rewrite lookup_app_l by lia. done. }
  { apply elem_of_app. right. by left. }
  destruct (einv_unpin _ _ _ _ _ (length gs) _ _ _ I2 (list_lookup_middle gs [] g _ eq_refl) Hu)
    as (e3 & I3 & Ho3 & Hc3 & Hg3).
  rewrite (delete_middle gs [] g), app_nil_r, <- app_assoc in I3. exists e3. split; [done|].
  split; [by rewrite Ho3, Ho2|]. rewrite Hg3, Hg2. cbn. rewrite fmap_app. cbn.
  rewrite <- Hlen, <- (length_fmap (fun r => r ++ [es_cur e]) (es_guards e)).
  by rewrite (delete_middle _ [] [es_cur e]), app_nil_r.
Qed.

(** A new version, for the register. *)
Lemma epoch_write_rel y s e e' a l p' t' :
  epoch_rel y s -> einv (bs_box y) (epoch.eg_guard <$> bs_guards y) (bs_dropped y) e None ->
  versions s = snd <$> es_objs e -> pins_ok (bs_guards y) s e ->
  einv a (epoch.eg_guard <$> bs_guards y) (bs_dropped y ++ l) e' None ->
  es_objs e' = es_objs e ++ [(p', t')] ->
  es_guards e' = (fun r => r ++ [es_cur e]) <$> es_guards e ->
  epoch_rel (after l a (bs_guards y) y) (reg_write s t').
Proof.
  intros [Hw Hp _] I Hv [HF1 HF2] I' Ho Hg. split; [by apply reg_write_wf|done|].
  exists e'. split; [done|]. split; [cbn; by rewrite Hv, Ho, fmap_app|]. split; cbn.
  - rewrite Ho. eapply Forall2_impl; [exact HF1|]. intros g v Hgv. cbn in Hgv |- *.
    apply fmap_Some in Hgv as (x & Hx & ->). by rewrite (lookup_app_l_Some _ _ _ _ Hx).
  - rewrite Hg. apply Forall2_fmap_l. eapply Forall2_impl; [exact HF2|].
    intros r v Hrv. cbn. right. rewrite elem_of_app, list_elem_of_singleton.
    destruct Hrv; [by right|by left].
Qed.

(** A call that changes neither the versions nor the guards. *)
Lemma epoch_same_rel y s e e' a l :
  epoch_rel y s -> versions s = snd <$> es_objs e -> pins_ok (bs_guards y) s e ->
  einv a (epoch.eg_guard <$> bs_guards y) (bs_dropped y ++ l) e' None ->
  es_objs e' = es_objs e -> es_cur e' = es_cur e -> es_guards e' = es_guards e ->
  epoch_rel (after l a (bs_guards y) y) s.
Proof.
  intros [Hw Hp _] Hv [HF1 HF2] I' Ho Hc Hg. split; [done|done|]. exists e'. split; [done|].
  split; [by rewrite Ho|]. unfold pins_ok. by rewrite Ho, Hc, Hg.
Qed.

Lemma epoch_own_rel y s e g a1 a2 l a3 :
  epoch_rel y s -> versions s = snd <$> es_objs e -> pins_ok (bs_guards y) s e ->
  einv a1 ((epoch.eg_guard <$> bs_guards y) ++ [g]) (bs_dropped y) (es_pin e) None ->
  ep_rel a2 ((epoch.eg_guard <$> bs_guards y) ++ [g]) (es_pin e) -> ep_unpin a2 g = (l, a3) ->
  epoch_rel (after l a3 (bs_guards y) y) s.
Proof.
  intros R Hv Hpins I Hrel Hu.
  destruct (epoch_unpin_own _ _ _ _ _ _ _ _ I Hrel Hu) as (e' & I' & ? & ? & ?).
  by eapply epoch_same_rel.
Qed.

Lemma epoch_guard_lookup y s e k : pins_ok (bs_guards y) s e -> versions s = snd <$> es_objs e ->
  match bs_guards y !! k with
  | Some g => exists v t r, pins s !! k = Some v /\ es_objs e !! v = Some (epoch.eg_ptr g, t)
      /\ versions s !! v = Some t /\ es_guards e !! k = Some r /\ (v = es_cur e \/ v ∈ r)
  | None => pins s !! k = None
  end.
Proof.
  intros [HF1 HF2] Hv. destruct (bs_guards y !! k) as [g|] eqn:Hg.
  - destruct (Forall2_lookup_l _ _ _ _ _ HF1 Hg) as (v & Hk & Ho).
    destruct (Forall2_lookup_r _ _ _ _ _ HF2 Hk) as (r & Hr & Hor).
    destruct (es_objs e !! v) as [[p t]|] eqn:He; [|done]. injection Ho as Ho. cbn in Ho. subst p.
    exists v, t, r. rewrite Hv, list_lookup_fmap, He. done.
  - apply lookup_ge_None. apply lookup_ge_None in Hg. by rewrite <- (Forall2_length _ _ _ HF1).
Qed.

(** Under a guard that the call itself makes. *)
Lemma epoch_own_guard {V} a gs d e g a1 f :
  einv a gs d e None -> ep_pin a = (g, a1) ->
  exists p t, es_objs e !! es_cur e = Some (p, t) /\ ep_load a1 = p
    /\ einv a1 (gs ++ [g]) d (es_pin e) None
    /\ (u ← ep_deref a1 p; f u) = (f t : outcome V).
Proof.
  intros I Hp. pose proof (einv_pin _ _ _ _ _ _ _ I Hp) as I1.
  destruct (einv_current _ _ _ _ _ I1) as [t Ht]. cbn in Ht. exists (ep_load a1), t.
  split; [done|]. split; [done|]. split; [done|].
  rewrite (epoch_deref _ _ _ _ _ _ _ _ I1 Ht); [done|]. by left.
Qed.
Lemma epoch_get_rel y s e g a1 :
  epoch_rel y s -> einv (bs_box y) (epoch.eg_guard <$> bs_guards y) (bs_dropped y) e None ->
  versions s = snd <$> es_objs e -> pins_ok (bs_guards y) s e -> ep_pin (bs_box y) = (g, a1) ->
  epoch_rel (after [] a1 (bs_guards y ++ [epoch.mkEpochGuard g (ep_load a1)]) y)
    (mkReg (versions s) (pins s ++ [current s]) (freed s) (reg_poisoned s)).
Proof.
  intros [Hw Hp _] I Hv [HF1 HF2] Hpin. pose proof (einv_pin _ _ _ _ _ _ _ I Hpin) as I1. split; cbn; [|done|].
  - by apply (reg_exec_wf (U := unit) epoch_policy s BGet (Ret BUnit)).
  - exists (es_pin e). rewrite app_nil_r, fmap_app. split; [done|]. split; [done|].
    rewrite <- (epoch_current _ _ _ _ _ I Hv). split; cbn.
    + apply Forall2_app; [done|]. constructor; [|constructor].
      apply (ep_rel_load _ _ _ (ei_rel _ _ _ _ _ I1)).
    + apply Forall2_app; [done|]. constructor; [by left|constructor].
Qed.

Lemma epoch_drop_rel y s e k g v l a' :
  epoch_rel y s -> einv (bs_box y) (epoch.eg_guard <$> bs_guards y) (bs_dropped y) e None ->
  versions s = snd <$> es_objs e -> pins_ok (bs_guards y) s e ->
  bs_guards y !! k = Some g -> pins s !! k = Some v -> ep_unpin (bs_box y) (epoch.eg_guard g) = (l, a') ->
  epoch_rel (after l a' (delete k (bs_guards y)) y)
    (mkReg (versions s) (delete k (pins s))
      (freed s ++ if decide (v = current s \/ v ∈ delete k (pins s)) then [] else [v]) (reg_poisoned s)).
Proof.
  intros [Hw Hp _] I Hv [HF1 HF2] Hg Hk Hu.
  assert ((epoch.eg_guard <$> bs_guards y) !! k = Some (epoch.eg_guard g)) as Hg'
    by (by rewrite list_lookup_fmap, Hg).
  destruct (einv_unpin _ _ _ _ _ _ _ _ _ I Hg' Hu) as (e' & I' & Ho & Hc & Hgs).
  split; cbn; [by apply reg_drop_wf|done|]. exists e'. rewrite list_fmap_delete.
  split; [done|]. split; [by rewrite Ho|]. unfold pins_ok; cbn. rewrite Ho, Hc, Hgs.
  split; by apply Forall2_delete.
Qed.

(** Replacing the value, in a call that has pinned the epoch itself. *)
Lemma epoch_write_step y s e g a1 a2 p t p' t' l a3 l' a4 :
  epoch_rel y s -> einv (bs_box y) (epoch.eg_guard <$> bs_guards y) (bs_dropped y) e None ->
  versions s = snd <$> es_objs e -> pins_ok (bs_guards y) s e ->
  einv a1 ((epoch.eg_guard <$> bs_guards y) ++ [g]) (bs_dropped y) (es_pin e) None ->
  es_objs e !! es_cur e = Some (p, t) ->
  ep_rel a2 ((epoch.eg_guard <$> bs_guards y) ++ [g]) (es_swap p' t' (es_pin e)) ->
  ep_defer_destroy a2 g p = (l, a3) -> ep_unpin a3 g = (l', a4) ->
  epoch_rel (after (l ++ l') a4 (bs_guards y) y) (reg_write s t').
Proof.
  intros R I Hv Hpins I1 Ho Hrel Hd Hu.
  destruct (epoch_retire _ _ _ _ _ _ _ _ _ _ _ _ _ I1 Ho _ Hrel Hd Hu (ei_len _ _ _ _ _ I)) as (e' & I' & Ho' & Hg').
  by eapply epoch_write_rel.
Qed.

Lemma epoch_rel_step y s (c : box_call T U) : epoch_rel y s ->
  match box_exec y c with
  | Some (o, y') => exists s', reg_exec epoch_policy s c = Some (o, s') /\ epoch_rel y' s'
  | None => reg_exec epoch_policy s c = None
  end.
Proof.
  intros R. pose proof R as [Hw Hp (e & I & Hv & Hpins)].
  pose proof (epoch_current _ _ _ _ _ I Hv) as Hcur.
  destruct c as [|k|k|t'|f|f]; cbn.
  - unfold epoch.get. destruct (ep_pin (bs_box y)) as [g a1] eqn:Hpin. cbn.
    eexists. split; [reflexivity|]. by apply (epoch_get_rel y s e g a1).
  - pose proof (epoch_guard_lookup y s e k Hpins Hv) as Hk.
    destruct (bs_guards y !! k) as [g|]; cbn; [|by rewrite Hk].
    destruct Hk as (v & t & r & -> & Ho & Hvv & Hr & Hor). cbn. rewrite Hvv. cbn.
    exists s. split; [|done]. unfold epoch.deref.
    rewrite (epoch_deref _ _ _ _ _ _ _ _ I Ho); [done|]. destruct Hor; [by left|right].
    exists r. split; [|done]. by eapply list_elem_of_lookup_2.
  - pose proof (epoch_guard_lookup y s e k Hpins Hv) as Hk.
    destruct (bs_guards y !! k) as [g|] eqn:Hg; cbn; [|by rewrite Hk].
    destruct Hk as (v & t & r & Hk & _). rewrite Hk. cbn. unfold epoch.drop_guard.
    destruct (ep_unpin (bs_box y) (epoch.eg_guard g)) as [l a'] eqn:Hu. cbn.
    eexists. split; [reflexivity|]. by eapply epoch_drop_rel.
  - unfold epoch.write. destruct (ep_pin (bs_box y)) as [g a1] eqn:Hpin. rewrite Hp.
    destruct (ep_swap a1 t') as [p a2] eqn:Hs.
    destruct (ep_defer_destroy a2 g p) as [l a3] eqn:Hd. destruct (ep_unpin a3 g) as [l' a4] eqn:Hu. cbn.
    eexists. split; [reflexivity|].
    destruct (epoch_own_guard _ _ _ _ _ _ (fun _ => Panic : outcome unit) I Hpin) as (p0 & t & Ho & _ & I1 & _).
    destruct (ep_rel_swap _ _ _ _ _ _ (ei_rel _ _ _ _ _ I1) Hs) as (Hp0 & p' & Hrel).
    cbn in Hp0. rewrite Ho in Hp0. injection Hp0 as <-. by eapply epoch_write_step.
  - unfold epoch.update. destruct (ep_pin (bs_box y)) as [g a1] eqn:Hpin. rewrite Hp.
    destruct (epoch_own_guard _ _ _ _ _ _ f I Hpin) as (p & t & Ho & _ & I1 & Hf).
    pose proof (ep_rel_update _ _ _ p (fun q => u ← ep_deref a1 q; f u) (ei_rel _ _ _ _ _ I1)) as Hu.
    assert (versions s !! current s = Some t) as ->
      by (by rewrite Hv, <- Hcur, list_lookup_fmap, Ho).
    cbn in Hu |- *. destruct (ep_fetch_update a1 _) as [r a2]. rewrite Ho, Hf in Hu. specialize (Hu eq_refl).
    destruct (f t) as [[t'|]| | |].
    + destruct Hu as [-> [p' Hrel]].
      destruct (ep_defer_destroy a2 g p) as [l a3] eqn:Hd. destruct (ep_unpin a3 g) as [l' a4] eqn:Hu. cbn.
      eexists. split; [reflexivity|]. by eapply epoch_write_step.
    + destruct Hu as [-> Hrel]. destruct (ep_unpin a2 g) as [l a3] eqn:Hu. cbn.
      exists s. split; [done|]. by eapply epoch_own_rel.
    + destruct Hu as [-> Hrel]. destruct (ep_unpin a2 g) as [l a3] eqn:Hu. cbn.
      eexists. split; [reflexivity|]. rewrite <- Hp. destruct s. by eapply epoch_own_rel.
    + rewrite Hu. cbn. exists s. split; [done|]. no_drop. by destruct y.
    + rewrite Hu. cbn. exists s. split; [done|]. no_drop. by destruct y.
  - unfold epoch.inspect. destruct (ep_pin (bs_box y)) as [g a1] eqn:Hpin. cbn.
    destruct (epoch_own_guard _ _ _ _ _ _ f I Hpin) as (p & t & Ho & -> & I1 & ->).
    destruct (ep_unpin a1 g) as [l a2] eqn:Hu. cbn. rewrite Hv, <- Hcur, list_lookup_fmap, Ho. cbn.
    exists s. split; [done|]. eapply (epoch_own_rel y s e); try done. apply I1.
Qed.

Lemma epoch_rel_dropped y s : epoch_rel y s -> dropped_ok epoch_policy s (bs_dropped y).
Proof.
  intros [Hw _ (e & I & Hv & HF1 & HF2)]. exists (es_destroyed e). split; [|split; [apply I|split; [|done]]].
  - rewrite (ei_dropped _ _ _ _ _ I). apply list_fmap_ext. intros k i _. by rewrite Hv, list_lookup_fmap.
  - intros i Hi. destruct (ei_destroyed _ _ _ _ _ I i Hi) as [Hr Hf].
    apply (ei_retired _ _ _ _ _ I) in Hr as [Hr _]. apply (rw_freed s Hw).
    rewrite <- (epoch_current _ _ _ _ _ I Hv). split; [done|]. intros (k & Hk)%list_elem_of_lookup.
    destruct (Forall2_lookup_r _ _ _ _ _ HF2 Hk) as (r & Hk' & Hor).
    rewrite Forall_lookup in Hf. specialize (Hf _ _ Hk'). destruct Hor; [lia|done].
Qed.
End rel.

Lemma epoch_rel_start {T} (t : T) : epoch_rel (box_start t) (reg_start t).
Proof.
  split; [apply reg_start_wf|done|]. destruct (ep_rel_new t) as [p Hrel].
  exists (mkEp [(p, t)] 0 [] [] []). split; [|split; [done|by split]].
  split; cbn; try done.
  - intros i. rewrite elem_of_nil. split; [done|lia].
  - constructor.
Qed.

#[export] Instance epoch_laws : RcuBoxLaws A G.
Proof.
  refine {| box_policy := epoch_policy; box_rel := @epoch_rel |}.
  - intros T y s R. apply R.
  - intros T t. apply epoch_rel_start.
  - intros T U y s c R. pose proof (epoch_rel_step y s c R) as H. destruct (box_exec y c) as [[o y']|]; [done|by left].
  - intros T y s [_ _ (e & _ & _ & HF & _)]. by eapply Forall2_length.
  - intros T y s. apply epoch_rel_dropped.
  - intros T y s R _. exists []. split; [done|]. rewrite app_nil_r.
    destruct (epoch_rel_dropped y s R) as (d & Hd & Hn & Hf & _). exists d. split; [done|]. split; [done|].
    split; [|done]. split; [|done]. intros Hc%Hf. apply (rw_freed s (er_wf _ _ R)) in Hc as [? _]. lia.
Defined.
End epoch.

(** ** A collector

    It keeps the books of [ep_state] and destroys what it may whenever a guard
    is dropped or a destructor deferred. *)

Module ep_books.

Record books (T : Type) := mkBooks { bk_state : ep_state nat T; bk_ids : list nat; bk_next : nat }.
Arguments mkBooks {T} _ _ _.
Arguments bk_state {T} _.
Arguments bk_ids {T} _.
Arguments bk_next {T} _.

Section collect.
Context {T : Type}.
Implicit Types (e : ep_state nat T) (b : books T).

Definition due e : list nat :=
  filter (fun i => i ∉ es_destroyed e /\ Forall (fun r => i ∉ r) (es_guards e)) (es_retired e).

Definition collect e : list T * ep_state nat T :=
  (omap (fun i => snd <$> es_objs e !! i) (due e), es_destroy (due e) e).

Definition unpin b (g : nat) : list T * books T :=
  let k := default 0%nat (fst <$> list_find (eq g) (bk_ids b)) in
  let '(l, e) := collect (es_unpin k (bk_state b)) in
  (l, mkBooks e (delete k (bk_ids b)) (bk_next b)).

Definition deref b (p : nat) : outcome T :=
  if decide (p ∈ es_destroyed (bk_state b)) then UB
  else match es_objs (bk_state b) !! p with Some (_, t) => Ret t | None => UB end.

Definition swap b (t : T) : nat * books T :=
  let e := bk_state b in
  (es_cur e, mkBooks (es_swap (length (es_objs e)) t e) (bk_ids b) (bk_next b)).

Definition defer_destroy b (p : nat) : list T * books T :=
  let '(l, e) := collect (es_retire p (bk_state b)) in (l, mkBooks e (bk_ids b) (bk_next b)).

Definition fetch_update b (f : nat -> outcome (option T)) : outcome (result nat nat) * books T :=
  match f (es_cur (bk_state b)) with
  | Ret (Some t) => let '(p, b') := swap b t in (Ret (Ok p), b')
  | Ret None => (Ret (Err (es_cur (bk_state b))), b)
  | Panic => (Panic, b)
  | UB => (UB, b)
  | OutOfFuel => (OutOfFuel, b)
  end.
End collect.

#[global] Instance books_ops : EpochOps books nat nat := {
  ep_new T t := mkBooks (mkEp [(0%nat, t)] 0 [] [] []) [] 0;
  ep_pin T b := (bk_next b, mkBooks (es_pin (bk_state b)) (bk_ids b ++ [bk_next b]) (S (bk_next b)));
  ep_unpin := @unpin;
  ep_load T b := es_cur (bk_state b);
  ep_swap := @swap;
  ep_deref := @deref;
  ep_defer_destroy T b g := defer_destroy b;
  ep_fetch_update := @fetch_update;
}.

Section laws.
Context {T : Type}.
Implicit Types (e : ep_state nat T) (b : books T).

(** A pointer is the index of its object; objects are retired once. *)
Record good e : Prop := {
  go_ptr i p t : es_objs e !! i = Some (p, t) -> p = i;
  go_cur : (es_cur e < length (es_objs e))%nat;
  go_once : NoDup (es_retired e);
  go_retired i : i ∈ es_retired e -> (i < length (es_objs e))%nat;
}.

Record books_rel b (gs : list nat) e : Prop := {
  br_state : bk_state b = e;
  br_ids : bk_ids b = gs;
  br_good : good e;
  br_nodup : NoDup gs;
  br_next g : g ∈ gs -> (g < bk_next b)%nat;
}.

Lemma collect_good e : good e ->
  collectible e (due e) /\ Some <$> fst (collect e) = values e (due e) /\ good (es_destroy (due e) e).
Proof.
  intros [Hp Hc Hn Hr]. split; [|split].
  - split; [by apply NoDup_filter|]. intros i [[? ?] ?]%list_elem_of_filter. done.
  - unfold collect, values; cbn.
    assert (forall i, i ∈ due e -> (i < length (es_objs e))%nat) as Hd
      by (intros i [_ ?]%list_elem_of_filter; by apply Hr).
    induction (due e) as [|i l IH]; [done|]. cbn.
    destruct (lookup_lt_is_Some_2 (es_objs e) i) as [x Hx]; [by apply Hd; left|]. rewrite Hx. cbn.
    f_equal. apply IH. intros j Hj. apply Hd. by right.
  - by split.
Qed.

Lemma swap_good e t : good e -> good (es_swap (length (es_objs e)) t e).
Proof.
  intros [Hp Hc Hn Hr]. split; cbn; try done.
  - intros i p t' [Hi|[Hi [? [= <- <-]]%list_lookup_singleton_Some]]%lookup_app_Some; [by eapply Hp|lia].
  - rewrite length_app. cbn. lia.
  - intros i Hi%Hr. rewrite length_app. lia.
Qed.

Lemma retire_good e i : good e -> i ∉ es_retired e -> (i < length (es_objs e))%nat -> good (es_retire i e).
Proof.
  intros [Hp Hc Hn Hr] Hi Hlt. split; cbn; try done.
  - apply NoDup_app. split; [done|]. split; [|apply NoDup_singleton].
    intros j Hj ->%list_elem_of_singleton. done.
  - intros j [?| ->%list_elem_of_singleton]%elem_of_app; [by apply Hr|done].
Qed.

Lemma unpin_books b gs e k g l b' : books_rel b gs e -> gs !! k = Some g -> unpin b g = (l, b') ->
  exists js, collectible (es_unpin k e) js /\ Some <$> l = values e js
    /\ books_rel b' (delete k gs) (es_destroy js (es_unpin k e)).
Proof.
  intros [<- <- Hg Hn Hx] Hk. unfold unpin.
  assert (list_find (eq g) (bk_ids b) = Some (k, g)) as ->.
  { apply list_find_Some. split; [done|]. split; [done|]. intros j y Hj Hlt ->.
    pose proof (NoDup_lookup _ _ _ _ Hn Hj Hk). lia. }
  cbn. intros [= <- <-]. destruct (collect_good (es_unpin k (bk_state b))) as (Hc & Hl & Hg').
  { destruct Hg. by split. }
  eexists. split; [exact Hc|]. split; [exact Hl|]. split; cbn; try done.
  - eapply sublist_NoDup; [done|]. apply sublist_delete.
  - intros i Hi. apply Hx. eapply sublist_subseteq; [apply sublist_delete|done].
Qed.

Lemma swap_books b gs e t p b' : books_rel b gs e -> swap b t = (p, b') ->
  es_cur e = p /\ exists p', books_rel b' gs (es_swap p' t e).
Proof.
  intros [<- <- Hg Hn Hx] [= <- <-]. split; [done|]. eexists. split; cbn; try done. by apply swap_good.
Qed.

Lemma current_books b gs e : books_rel b gs e -> fst <$> es_objs e !! es_cur e = Some (es_cur e).
Proof.
  intros [_ _ [Hp Hc _ _] _ _]. destruct (lookup_lt_is_Some_2 _ _ Hc) as [[p t] Ho].
  rewrite Ho. cbn. by rewrite (Hp _ _ _ Ho).
Qed.
End laws.

#[global] Instance books_laws : EpochLaws books nat nat.
Proof.
  refine {| ep_rel := @books_rel |}; cbn.
  - intros T t. exists 0%nat. split; cbn; try done; [|constructor|by intros g ?%elem_of_nil].
    split; cbn; try done; [|lia|constructor|by intros i ?%elem_of_nil].
    intros [|i] p u; by intros [= <- <-].
  - intros T b gs e g b' [<- <- Hg Hn Hx] [= <- <-]. split; cbn; try done.
    + destruct Hg. by split.
    + apply NoDup_app. split; [done|]. split; [|apply NoDup_singleton].
      intros i Hi ->%list_elem_of_singleton. apply Hx in Hi. lia.
    + intros i [Hi%Hx| ->%list_elem_of_singleton]%elem_of_app; lia.
  - intros T b gs e k g l b' R. apply (unpin_books b gs e k g l b' R).
  - intros T b gs e R. rewrite (current_books _ _ _ R). by destruct R as [<- _ _ _ _].
  - intros T b gs e t p b' R Hs. destruct (swap_books _ _ _ _ _ _ R Hs) as [<- H].
    split; [by eapply current_books|done].
  - intros T b gs e i p t [<- <- Hg Hn Hx] Ho Hd. unfold deref.
    rewrite (go_ptr _ Hg _ _ _ Ho), decide_False by done. by rewrite Ho.
  - intros T b gs e g i p t l b' [<- <- Hg Hn Hx] _ Ho _ Hr _.
    rewrite (go_ptr _ Hg _ _ _ Ho). unfold defer_destroy. cbn. intros [= <- <-].
    destruct (collect_good (es_retire i (bk_state b))) as (Hc & Hl & Hg').
    { apply retire_good; [done..|]. by eapply lookup_lt_Some. }
    eexists. split; [exact Hc|]. split; [exact Hl|]. by split.
  - intros T b gs e p f R Hp. rewrite (current_books _ _ _ R) in Hp. injection Hp as <-.
    unfold fetch_update. pose proof R as [<- _ _ _ _]. destruct (f (es_cur (bk_state b))) as [[t|]| | |]; try done.
    split; [done|]. by apply (swap_books _ _ _ _ _ _ R eq_refl).
Defined.
End ep_books.
