(* ===== verification/RcuBoxCorrect.v ===== *)
(** Correctness of [RcuBox]: each of the five implementations is an atomic
    register, pins the values of its guards and drops the others, by lemmas on
    the interface. *)

From S2P Require Import Prelude RcuBox RcuBoxSpec RcuBoxProof.
From S2P Require Import RcuBoxSwap RcuBoxSwapProof RcuBoxEpoch RcuBoxEpochProof.

Section correct.
Context {B : Type -> Type} {G : Type} {Ops : RcuBoxOps B G} {T U : Type}.

(** A sequence of calls on the box and on its specification: what they answer and
    the state they leave; a panic ends a call, not the program. *)
Fixpoint box_run (y : box_sys B G T) (cs : list (box_call T U))
  : option (list (outcome (box_resp T U)) * box_sys B G T) :=
  match cs with
  | [] => Some ([], y)
  | c :: cs' => '(o, y') ← box_exec y c; '(os, y'') ← box_run y' cs'; Some (o :: os, y'')
  end.

Fixpoint reg_run (p : policy) (s : reg T) (cs : list (box_call T U))
  : option (list (outcome (box_resp T U)) * reg T) :=
  match cs with
  | [] => Some ([], s)
  | c :: cs' => '(o, s') ← reg_exec p s c; '(os, s'') ← reg_run p s' cs'; Some (o :: os, s'')
  end.

Context {Laws : RcuBoxLaws B G}.

Lemma box_run_refines cs : forall (y : box_sys B G T) s os y',
  box_rel y s -> box_run y cs = Some (os, y') ->
  exists s', reg_run box_policy s cs = Some (os, s') /\ box_rel y' s'.
Proof.
  induction cs as [|c cs IH]; intros y s os y' R; cbn [box_run reg_run].
  - intros [= <- <-]. by exists s.
  - intros Hr. apply bind_Some in Hr as ([o y1] & Hx & Hr).
    apply bind_Some in Hr as ([os' y2] & Hr & [= <- <-]).
    pose proof (rel_step y s c R) as Hs. rewrite Hx in Hs. destruct Hs as (s1 & Hs & R1).
    destruct (IH y1 s1 os' y2 R1 Hr) as (s2 & Hr2 & R2). exists s2. rewrite Hs. cbn.
    by rewrite Hr2.
Qed.



End correct.

(** The unit test passes with every implementation. *)
Lemma guard_pins_value_test_passes {B G} {Ops : RcuBoxOps B G} {Laws : RcuBoxLaws B G} :
  guard_pins_value_test (B := B) (G := G) = Ret tt.
Proof.
  pose proof (rel_start (B := B) (G := G) true) as R. unfold guard_pins_value_test. cbv zeta.
  pose proof (rel_step (U := unit) _ _ BGet R) as H1. cbn [reg_exec reg_start reg_poisoned] in H1.
  rewrite andb_false_r in H1. destruct (box_exec _ BGet) as [[o y1]|]; [|by destruct H1 as [?|[? _]]].
  destruct H1 as (s1 & [= <- <-] & R1).
  pose proof (rel_step (U := unit) _ _ (BWrite false) R1) as H2.
  set (y2 := match box_exec (U := unit) y1 (BWrite false) with Some (_, y') => y' | None => y1 end).
  assert (exists s, box_rel y2 s /\ pins s !! 0%nat = Some 0%nat /\ versions s !! 0%nat = Some true) as (s & R2 & Hp & Hv).
  { subst y2. destruct (box_exec y1 (BWrite false)) as [[o y2]|]; [|by eexists].
    destruct H2 as (s2 & [= _ <-] & R2). by eexists. }
  pose proof (rel_step (U := unit) y2 s (BDeref 0) R2) as H3. cbn [reg_exec] in H3.
  rewrite Hp in H3. cbn [mbind option_bind] in H3. rewrite Hv in H3. cbn [mbind option_bind] in H3.
  destruct (box_exec y2 (BDeref 0)) as [[o y3]|]; [|by destruct H3 as [?|[? _]]].
  by destruct H3 as (s3 & [= <- _] & _).
Qed.

(** ** What the theorems state of a box

    [box_run] runs the calls of any threads on the implementation, [reg_run] on
    the register. *)

Section statements.
Context {B : Type -> Type} {G : Type} (Ops : RcuBoxOps B G) (p : policy).

(** Every sequence of calls is answered as by the register; a call waits only if
    it writes while a guard is held. *)
Definition is_register : Prop :=
  forall (T U : Type) (t : T) (cs : list (box_call T U)) os y,
  box_run (box_start t) cs = Some (os, y) ->
  exists s, reg_run p (reg_start t) cs = Some (os, s)
    /\ forall c : box_call T U, box_exec y c = None ->
         reg_exec p s c = None \/ (writes c = true /\ bs_guards y <> []).


(** The values dropped are versions that are neither current nor pinned, each
    once; all of those, when the policy is to drop eagerly; and dropping the box,
    without guards, drops each value at most once in all, the current one exactly
    when the policy is to free it. *)
Definition drops_old_values : Prop :=
  forall (T U : Type) (t : T) (cs : list (box_call T U)) os y,
  box_run (box_start t) cs = Some (os, y) ->
  exists s, reg_run p (reg_start t) cs = Some (os, s)
    /\ (exists d, Some <$> bs_dropped y = (fun v => versions s !! v) <$> d /\ NoDup d
         /\ (forall v, v ∈ d -> (v < current s)%nat /\ v ∉ pins s)
         /\ (drops_eager p = true ->
              forall v, v ∈ d <-> (v < current s)%nat /\ v ∉ pins s))
    /\ (drops_eager p = true -> bs_guards y = [] -> length (bs_dropped y) = current s)
    /\ (bs_guards y = [] -> exists l d, box_drop (bs_box y) = Ret l
          /\ Some <$> bs_dropped y ++ l = (fun v => versions s !! v) <$> d /\ NoDup d
          /\ (current s ∈ d <-> box_frees p = true)).
End statements.

(** Of the box of each of the five features: on [RwLock] and [Mutex<Arc<T>>], whose
    reads fail on a poisoned lock and which drop a value with its last guard; on
    any cell of aarc and of arc-swap that keeps the promises of those crates, and
    on any crossbeam-epoch that keeps its own, whose reads do not fail.  A panic of
    a closure of [update] poisons all of them but the last, which alone does not
    free the current value with the box. *)
Definition each_feature (Q : forall B G, RcuBoxOps B G -> policy -> Prop) : Prop :=
  Q rwlock.rw_box unit rwlock.rwlock_ops (mkPolicy true true true true)
  /\ Q mutex_arc.arc_box nat mutex_arc.mutex_arc_ops (mkPolicy true true true true)
  /\ (forall C G (K : AtomicArcOps C G) (L : CellLaws C G (Cell := aarc_cell C G)),
         Q (locked_box C) G (aarc.aarc_ops C G) (mkPolicy false true (cell_eager (Cell := aarc_cell C G)) true))
  /\ (forall C G (K : ArcSwapOps C G) (L : CellLaws C G (Cell := arc_swap_cell C G)),
         Q (locked_box C) G (arc_swap.arc_swap_ops C G)
           (mkPolicy false true (cell_eager (Cell := arc_swap_cell C G)) true))
  /\ (forall A Gd P (E : EpochOps A Gd P) (L : EpochLaws A Gd P),
         Q A (epoch.epoch_guard Gd P) (epoch.epoch_ops A Gd P) (mkPolicy false false false false)).

(** What holds of every implementation that has the laws holds of the five. *)
Lemma each_has_laws (Q : forall B G, RcuBoxOps B G -> policy -> Prop) :
  (forall B G (Ops : RcuBoxOps B G) (Laws : RcuBoxLaws B G), Q B G Ops box_policy) -> each_feature Q.
Proof.
  intros H. split; [exact (H _ _ _ rwlock_laws)|]. split; [exact (H _ _ _ mutex_arc_laws)|].
  split; [|split].
  - intros C G K L. exact (H _ _ _ (locked_laws (Cell := aarc_cell C G))).
  - intros C G K L. exact (H _ _ _ (locked_laws (Cell := arc_swap_cell C G))).
  - intros A Gd P E L. exact (H _ _ _ epoch_laws).
Qed.

Section laws.
Context {B : Type -> Type} {G : Type} {Ops : RcuBoxOps B G} {Laws : RcuBoxLaws B G}.

Lemma laws_is_register : is_register Ops box_policy.
Proof.
  intros T U t cs os y Hr. destruct (box_run_refines cs _ _ os y (rel_start t) Hr) as (s & Hs & R).
  exists s. split; [done|]. intros c Hc. pose proof (rel_step y s c R) as H. rewrite Hc in H.
  destruct H as [H|[Hw Hp]]; [by left|right]. split; [done|]. intros Hg.
  pose proof (rel_guards y s R) as Hl. rewrite Hg in Hl. by destruct (pins s).
Qed.


Lemma laws_drops_old_values : drops_old_values Ops box_policy.
Proof.
  intros T U t cs os y Hr. destruct (box_run_refines cs _ _ os y (rel_start t) Hr) as (s & Hs & R).
  pose proof (rel_wf _ _ R) as Hw. destruct (rel_dropped y s R) as (d & Hd & Hnd & Hsub & He).
  exists s. split; [done|]. split; [|split].
  - exists d. split; [done|]. split; [done|]. split; [intros v Hv; by apply Hw, Hsub|].
    intros Heager v. rewrite (He Heager). apply Hw.
  - intros Heager Hg. specialize (He Heager) as ->.
    pose proof (rel_guards y s R) as Hl. rewrite Hg in Hl.
    apply (f_equal length) in Hd. rewrite !length_fmap in Hd. rewrite Hd.
    rewrite <- (length_seq (current s) 0). apply Permutation_length, NoDup_Permutation.
    + apply Hw.
    + apply NoDup_seq.
    + intros v. rewrite (rw_freed s Hw), elem_of_seq. destruct (pins s); [|done].
      split; [intros [? _]; lia|]. intros ?. split; [lia|apply not_elem_of_nil].
  - intros Hg. destruct (rel_drop_box y s R Hg) as (l & Hl & d' & ? & ? & ? & _). by exists l, d'.
Qed.
End laws.

(** ** Theorems *)

(** C27 (refinement). Each of the five boxes is an atomic register: in any program,
    whichever threads make the calls, [get], [inspect], [write] and [update]
    answer what they would on one variable, panics of the closures and poisoning
    included; and a call waits only if it writes while a guard is held. *)
Theorem box_is_register : each_feature (fun B G Ops p => is_register Ops p).
Proof. apply each_has_laws. intros. apply laws_is_register. Qed.

(** Counting in a box, with a closure that fails above 1; with [early] the guard
    is dropped before the next update, as the one on [RwLock] asks for. *)
Definition demo_box_calls (early : bool) : list (box_call Z Z) :=
  let count := BUpdate (fun n => if n >? 1 then Ret None else Ret (Some (n + 1))) in
  [count; BGet] ++ (if early then [BDeref 0; BDropGuard 0; count; count] else [count; count; BDeref 0; BDropGuard 0])
  ++ [BInspect (fun n => Ret (n * 10))].

Definition demo_box_answers (early : bool) : list (outcome (box_resp Z Z)) :=
  let updates := [Ret (BResult (Ok tt)); Ret (BResult (Err tt))] in
  let reads := [Ret (BValue 1); Ret BUnit] in
  [Ret (BResult (Ok tt)); Ret BUnit] ++ (if early then reads ++ updates else updates ++ reads)
  ++ [Ret (BInspected 20)].

(** The five boxes, those of the crates on the concrete ones; the flag says
    whether a write waits for the guards. *)
Definition at_features (Q : forall B G, RcuBoxOps B G -> policy -> bool -> Prop) : Prop :=
  Q _ _ rwlock.rwlock_ops (mkPolicy true true true true) true
  /\ Q _ _ mutex_arc.mutex_arc_ops (mkPolicy true true true true) false
  /\ Q _ _ (aarc.aarc_ops arc_cell.opt_box nat) (mkPolicy false true true true) false
  /\ Q _ _ (arc_swap.arc_swap_ops mutex_arc.arc_box nat) (mkPolicy false true true true) false
  /\ Q _ _ (epoch.epoch_ops ep_books.books nat nat) (mkPolicy false false false false) false.

(** The same answers from each implementation and from the register. *)
Lemma box_is_register_witness :
  at_features (fun B G Ops p waits => exists y s,
    box_run (box_start (B := B) 0) (demo_box_calls waits) = Some (demo_box_answers waits, y)
    /\ reg_run p (reg_start 0) (demo_box_calls waits) = Some (demo_box_answers waits, s)).
Proof.
  destruct box_is_register as (H1 & H2 & H3 & H4 & H5).
  specialize (H3 _ _ arc_cell.atomic_ops arc_cell.atomic_laws).
  specialize (H4 _ _ arc_cell.swap_ops arc_cell.swap_laws).
  specialize (H5 _ _ _ ep_books.books_ops ep_books.books_laws).
  split; [|split; [|split; [|split]]]; eexists;
    [edestruct (H1 Z Z 0 (demo_box_calls true)) as (s & Hs & _)
    |edestruct (H2 Z Z 0 (demo_box_calls false)) as (s & Hs & _)
    |edestruct (H3 Z Z 0 (demo_box_calls false)) as (s & Hs & _)
    |edestruct (H4 Z Z 0 (demo_box_calls false)) as (s & Hs & _)
    |edestruct (H5 Z Z 0 (demo_box_calls false)) as (s & Hs & _)];
    try (exists s; split; [|exact Hs]); vm_compute; reflexivity.
Defined.



(** C29 (invariant). In each of the five boxes the old values are destructed after
    their readers have completed, each at most once: what has been dropped are
    versions that are neither current nor pinned by a guard; on [RwLock] and
    [Mutex<Arc<T>>], and where the cell of the crate does so, all of them, so that
    without guards nothing but the current value is left.  Dropping the box,
    which no guard outlives, drops each value at most once in all, and the current
    one, except on crossbeam-epoch, which leaks it. *)
Theorem old_values_dropped : each_feature (fun B G Ops p => drops_old_values Ops p).
Proof. apply each_has_laws. intros. apply laws_drops_old_values. Qed.

(** Writes of 8 and 9 over 7, and then the drop of the box: on crossbeam-epoch the
    last value is never dropped. *)
Lemma old_values_dropped_witness :
  at_features (fun B G Ops p waits => exists y s d l d',
    box_run (U := Z) (box_start (B := B) 7) [BWrite 8; BWrite 9] = Some ([Ret BUnit; Ret BUnit], y)
    /\ reg_run (U := Z) p (reg_start 7) [BWrite 8; BWrite 9] = Some ([Ret BUnit; Ret BUnit], s)
    /\ Some <$> bs_dropped y = (fun v => versions s !! v) <$> d /\ NoDup d
    /\ box_drop (bs_box y) = Ret l
    /\ Some <$> bs_dropped y ++ l = (fun v => versions s !! v) <$> d'
    /\ (current s ∈ d' <-> box_frees p = true)).
Proof.
  destruct old_values_dropped as (H1 & H2 & H3 & H4 & H5).
  specialize (H3 _ _ arc_cell.atomic_ops arc_cell.atomic_laws).
  specialize (H4 _ _ arc_cell.swap_ops arc_cell.swap_laws).
  specialize (H5 _ _ _ ep_books.books_ops ep_books.books_laws).
  split; [|split; [|split; [|split]]];
    [edestruct (H1 Z Z 7 [BWrite 8; BWrite 9]) as (s & Hr & (d & Hd & Hn & _) & _ & Hb)
    |edestruct (H2 Z Z 7 [BWrite 8; BWrite 9]) as (s & Hr & (d & Hd & Hn & _) & _ & Hb)
    |edestruct (H3 Z Z 7 [BWrite 8; BWrite 9]) as (s & Hr & (d & Hd & Hn & _) & _ & Hb)
    |edestruct (H4 Z Z 7 [BWrite 8; BWrite 9]) as (s & Hr & (d & Hd & Hn & _) & _ & Hb)
    |edestruct (H5 Z Z 7 [BWrite 8; BWrite 9]) as (s & Hr & (d & Hd & Hn & _) & _ & Hb)];
    try (vm_compute; reflexivity);
    (destruct Hb as (l & d' & Hl & Hd' & _ & Hc); [reflexivity|]);
    (eexists _, s, d, l, d'; split; [vm_compute; reflexivity|]; split; [exact Hr|];
     split; [exact Hd|]; split; [exact Hn|]; split; [exact Hl|]; split; [exact Hd'|exact Hc]).
Defined.
