(* ===== verification/RcuGuarded.v ===== *)
(** [RcuCslabEntryGuard], [get_guarded] and [find_guarded] of rcu/src/rcu.rs: a box
    with an [RcuCslabReader] in it, for any implementation of the box and of the
    slab.

    The value in the box is the identity of a reader, so that what happens to the
    reader is seen through every guard.  Writing to the box moves a reader into
    it; when the box drops its value, the reader is dropped, which releases its
    generation.  [get_guarded] and [find_guarded] are several steps, between
    which anything else may happen. *)

From S2P Require Import Prelude CslabStorage CslabIter SlabInterface RcuCslab RcuSystem RcuBox.

Section guarded.
Context {B : Type -> Type} {G : Type} {BOps : RcuBoxOps B G}.
Context {W T S : Type} {Ops : SlabOps W T}.

(** The closure that [find_guarded] is given, with what it has captured. *)
Context (predicate : S -> Z -> T -> outcome (bool * S)).

(** What a guard on the box is held for. *)
Inductive hold : Type :=
| HGuard                               (* an [RcuGuard] *)
| HLookup (key : Z)                    (* [get_guarded] under way, after [self.get()] *)
| HFind (st : S) (head tail : Z)       (* [find_guarded] under way, with its [Iter] *)
| HEntry (key : Z) (item : T).         (* an [RcuCslabEntryGuard], and the item it was made for *)

Record gsys := mkGsys {
  gs_slab : sys W T;
  gs_ids : list nat;       (* the identities of its readers *)
  gs_next : nat;
  gs_box : box_sys B G nat;
  gs_boxed : list nat;     (* the readers that were moved into the box *)
  gs_holds : list hold;    (* for each guard on the box *)
}.

Definition set_slab_sys (s : sys W T) (y : gsys) : gsys :=
  mkGsys s (gs_ids y) (gs_next y) (gs_box y) (gs_boxed y) (gs_holds y).
Definition set_ids (l : list nat) (y : gsys) : gsys :=
  mkGsys (gs_slab y) l (gs_next y) (gs_box y) (gs_boxed y) (gs_holds y).
Definition set_box (b : box_sys B G nat) (y : gsys) : gsys :=
  mkGsys (gs_slab y) (gs_ids y) (gs_next y) b (gs_boxed y) (gs_holds y).
Definition set_holds (l : list hold) (y : gsys) : gsys :=
  mkGsys (gs_slab y) (gs_ids y) (gs_next y) (gs_box y) (gs_boxed y) l.
Definition add_boxed (n : nat) (y : gsys) : gsys :=
  mkGsys (gs_slab y) (gs_ids y) (gs_next y) (gs_box y) (n :: gs_boxed y) (gs_holds y).

Definition find_id (y : gsys) (n : nat) : option nat := fst <$> list_find (eq n) (gs_ids y).

(** ** Calls on the slab and its readers *)

(** New readers get an identity. *)
Definition track (y : gsys) (c : call T) (s : sys W T) : gsys :=
  let ids := match c with CReaderDrop k => delete k (gs_ids y) | _ => gs_ids y end in
  let more := (length (sys_readers s) - length ids)%nat in
  mkGsys s (ids ++ seq (gs_next y) more) (gs_next y + more) (gs_box y) (gs_boxed y) (gs_holds y).

Definition slab_step (y : gsys) (c : call T) : option (outcome (resp T) * gsys) :=
  '(o, s) ← exec (gs_slab y) c; Some (o, track y c s).

(** A reader in the box can be used through the guards, but not dropped. *)
Definition may_call (y : gsys) (c : call T) : bool :=
  match c with
  | CReaderDrop k => match gs_ids y !! k with Some n => bool_decide (n ∉ gs_boxed y) | None => false end
  | _ => true
  end.

(** ** Calls on the box *)

(** Drop the readers [l]. *)
Fixpoint drop_readers (l : list nat) (y : gsys) : outcome gsys :=
  match l with
  | [] => Ret y
  | n :: l' =>
      match find_id y n with
      | None => UB
      | Some k =>
          match slab_step y (CReaderDrop k) with
          | None => UB
          | Some (Ret _, y') => drop_readers l' y'
          | Some (Panic, _) => Panic
          | Some (UB, _) => UB
          | Some (OutOfFuel, _) => OutOfFuel
          end
      end
  end.

Definition box_step (y : gsys) (c : box_call nat unit) : option (outcome (box_resp nat unit) * gsys) :=
  '(o, b) ← box_exec (gs_box y) c;
  let dropped := drop (length (bs_dropped (gs_box y))) (bs_dropped b) in
  Some match drop_readers dropped (set_box b y) with
       | Ret y' => (o, y')
       | Panic => (Panic, set_box b y)
       | UB => (UB, set_box b y)
       | OutOfFuel => (OutOfFuel, set_box b y)
       end.

(** Getting a guard, for [h], and dropping one. *)
Definition get_guard (y : gsys) (h : hold) : option (outcome unit * gsys) :=
  '(o, y') ← box_step y BGet;
  Some match o with
       | Ret _ => (Ret tt, set_holds (gs_holds y' ++ [h]) y')
       | Panic => (Panic, y')
       | UB => (UB, y')
       | OutOfFuel => (OutOfFuel, y')
       end.

Definition drop_hold (y : gsys) (k : nat) : option (outcome unit * gsys) :=
  '(o, y') ← box_step y (BDropGuard k);
  Some (_ ← o; Ret tt, set_holds (delete k (gs_holds y')) y').

(** The reader that guard [k] refers to. *)
Definition guard_reader (y : gsys) (k : nat) : outcome nat :=
  match bs_guards (gs_box y) !! k with
  | None => UB
  | Some g =>
      n ← box_deref (bs_box (gs_box y)) g;
      match find_id y n with Some j => Ret j | None => UB end
  end.

(** ** Looking an entry up *)

Inductive gresp : Type :=
| GUnit
| GSlabResp (r : resp T)
| GPending              (* the call is not done *)
| GNone
| GFound (key : Z)
| GItem (t : T).

(** The load of the flag of [i], by the reader of guard [k], and the item there
    when it is set. *)
Definition load_flag (y : gsys) (k : nat) (i : Z) (flag : bool) : option (outcome (option T) * gsys) :=
  match guard_reader y k with
  | Ret j =>
      '(o, y') ← slab_step y (CReaderGet j i flag);
      Some (r ← o; match r with AGet x => Ret x | _ => UB end, y')
  | Panic => Some (Panic, y)
  | UB => Some (UB, y)
  | OutOfFuel => Some (OutOfFuel, y)
  end.

(** The guard is dropped and the call ends. *)
Definition end_lookup (y : gsys) (k : nat) (o : outcome gresp) : option (outcome gresp * gsys) :=
  '(o', y') ← drop_hold y k; Some (_ ← o'; o, y').

(** The next step of [get_guarded] or [find_guarded]. *)
Definition lookup_step (y : gsys) (k : nat) (flag : bool) : option (outcome gresp * gsys) :=
  h ← gs_holds y !! k;
  match h with
  | HLookup key =>
      '(o, y') ← load_flag y k key flag;
      match o with
      | Ret (Some t) => Some (Ret (GFound key), set_holds (<[k := HEntry key t]> (gs_holds y')) y')
      | Ret None => end_lookup y' k (Ret GNone)
      | Panic => Some (Panic, y')
      | UB => Some (UB, y')
      | OutOfFuel => Some (OutOfFuel, y')
      end
  | HFind st head tail =>
      if head >=? tail then end_lookup y k (Ret GNone)
      else
        '(o, y') ← load_flag y k head flag;
        match o with
        | Ret None => Some (Ret GPending, set_holds (<[k := HFind st (head + 1) tail]> (gs_holds y')) y')
        | Ret (Some t) =>
            match predicate st head t with
            | Ret (true, _) => Some (Ret (GFound head), set_holds (<[k := HEntry head t]> (gs_holds y')) y')
            | Ret (false, st') =>
                Some (Ret GPending, set_holds (<[k := HFind st' (head + 1) tail]> (gs_holds y')) y')
            | Panic => end_lookup y' k Panic
            | UB => Some (UB, y')
            | OutOfFuel => Some (OutOfFuel, y')
            end
        | Panic => Some (Panic, y')
        | UB => Some (UB, y')
        | OutOfFuel => Some (OutOfFuel, y')
        end
  | _ => None
  end.

(** [RcuCslabEntryGuard::deref] *)
Definition entry_guard_deref (y : gsys) (k : nat) (key : Z) : outcome T :=
  _ ← guard_reader y k; (reader_get_unchecked key (sys_heap (gs_slab y))).1.

(** ** The program *)

Inductive gcall : Type :=
| GSlab (c : call T)
| GWrite (k : nat)                   (* [write] to the box, of the reader [k] *)
| GGet
| GGetGuarded (key : Z)
| GFindGuarded (st : S) (tail : Z)
| GLookupStep (k : nat) (flag : bool)
| GDeref (k : nat)
| GDropGuard (k : nat).

Definition gexec (y : gsys) (c : gcall) : option (outcome gresp * gsys) :=
  match c with
  | GSlab c =>
      if may_call y c then '(o, y') ← slab_step y c; Some (r ← o; Ret (GSlabResp r), y') else None
  | GWrite k =>
      n ← gs_ids y !! k;
      if bool_decide (n ∉ gs_boxed y) then
        '(o, y') ← box_step (add_boxed n y) (BWrite n);
        Some (_ ← o; Ret GUnit, y')
      else None
  | GGet => '(o, y') ← get_guard y HGuard; Some (_ ← o; Ret GUnit, y')
  | GGetGuarded key => '(o, y') ← get_guard y (HLookup key); Some (_ ← o; Ret GPending, y')
  | GFindGuarded st tail =>
      (* [Iter::new]: the relaxed load of the frontier may be stale *)
      match reader_iter (sys_heap (gs_slab y)) with
      | (Ret it, _) =>
          if tail <=? it_tail it then
            '(o, y') ← get_guard y (HFind st (it_head it) tail); Some (_ ← o; Ret GPending, y')
          else None
      | (Panic, _) => Some (Panic, y)
      | (UB, _) => Some (UB, y)
      | (OutOfFuel, _) => Some (OutOfFuel, y)
      end
  | GLookupStep k flag => lookup_step y k flag
  | GDeref k =>
      h ← gs_holds y !! k;
      match h with
      | HEntry key _ => Some (t ← entry_guard_deref y k key; Ret (GItem t), y)
      | _ => None
      end
  | GDropGuard k =>
      h ← gs_holds y !! k;
      match h with
      | HGuard | HEntry _ _ => '(o, y') ← drop_hold y k; Some (_ ← o; Ret GUnit, y')
      | _ => None
      end
  end.

(** A new box with the first reader of a slab. *)
Definition gsys_new (s : sys W T) : option gsys :=
  '(o, s') ← exec s CReader;
  match o with
  | Ret _ => Some (mkGsys s' [0%nat] 1 (box_start 0%nat) [0%nat] [])
  | _ => None
  end.

(** Indices are [usize]s. *)
Definition gcall_usize (c : gcall) : Prop :=
  match c with GSlab c => call_usize c | GGetGuarded key => 0 <= key | _ => True end.

(** A panic of the predicate unwinds [find_guarded], and the program may go on. *)
Definition goes_on (c : gcall) (o : outcome gresp) : Prop :=
  match o, c with Ret _, _ => True | Panic, GLookupStep _ _ => True | _, _ => False end.

Inductive gsys_reachable (y0 : gsys) : gsys -> Prop :=
| gsys_reach_new : gsys_reachable y0 y0
| gsys_reach_step y c o y' :
    gsys_reachable y0 y -> gcall_usize c -> gexec y c = Some (o, y') -> goes_on c o ->
    gsys_reachable y0 y'.
End guarded.
Arguments hold : clear implicits.
Arguments gsys B G W T S : clear implicits.
Arguments gresp : clear implicits.
Arguments gcall : clear implicits.
