(* ===== verification/RcuGuardedProof.v ===== *)
(** The invariant of a program that has its reader in a box: what an entry guard
    has found is still there. *)

From S2P Require Import Prelude CslabStorage Cslab SlabSpec CslabIter SlabInterface.
From S2P Require Import RcuCslab RcuSystem RcuHeap RcuInv RcuSafe RcuSafeMut.
From S2P Require Import RcuBox RcuBoxSpec RcuGuarded.

(** ** What a call on the slab does to the readers *)

Section readers.
Context {W T : Type} {Ops : SlabOps W T} {Laws : SlabLaws W T}.
Implicit Types (y : sys W T) (v : view T).

Definition grows (rd rd' : reader T) : Prop :=
  r_gen rd' = r_gen rd /\ r_seen rd ⊆ r_seen rd'.

#[export] Instance grows_preorder : PreOrder grows.
Proof.
  split; [by split|]. intros a b c [H1 H2] [H3 H4]. split; [congruence|by etrans].
Qed.

Lemma run_on_inv {A} y (m : stateful (heap W T) A) k r y' : run_on y m k = (Ret r, y') ->
  exists x h, m (sys_heap y) = (Ret x, h) /\ k x (set_heap h y) = (r, y').
Proof.
  unfold run_on. destruct (m (sys_heap y)) as [[x| | |] h]; try done.
  destruct (k x (set_heap h y)) as [r0 y0] eqn:Hk. intros [= <- <-]. by exists x, h.
Qed.

Definition extends (l l' : list (reader T)) : Prop :=
  exists l1 l2, l' = l1 ++ l2 /\ Forall2 grows l l1.

Lemma extends_app l l2 : extends l (l ++ l2).
Proof. exists l, l2. split; [done|]. by apply Forall_Forall2_diag, Forall_true. Qed.

Lemma extends_refl l : extends l l.
Proof. pose proof (extends_app l []) as H. by rewrite app_nil_r in H. Qed.

Definition drops_reader (c : call T) : bool := match c with CReaderDrop _ => true | _ => false end.

Ltac run_inv :=
  match goal with
  | H : Some _ = Some _ |- _ => apply (inj Some) in H
  | H : run_on _ _ _ = (Ret _, _) |- _ => apply run_on_inv in H as (? & ? & _ & H)
  | H : (_, _) = (_, _) |- _ => injection H as _ <-
  | x : (_ * _)%type |- _ => destruct x
  | x : result _ _ |- _ => destruct x
  | H : mbind _ _ = Some _ |- _ => apply bind_Some in H as (? & ? & H)
  end; cbn in *.

(** Only reading an item changes what a reader has seen. *)
Lemma exec_other_readers y c r y' :
  exec y c = Some (Ret r, y') -> drops_reader c = false -> (forall k i flag, c <> CReaderGet k i flag) ->
  exists l, sys_readers y' = sys_readers y ++ l.
Proof.
  intros Hx Hc Hn.
  destruct c; try done; try (by destruct (Hn k i flag)); cbn in Hx; unfold exec_task in Hx; repeat run_inv;
    try (destruct (sys_borrow y); try done; cbn in Hx; repeat run_inv);
    try (destruct x; cbn in Hx; repeat run_inv);
    try (exists []; by rewrite app_nil_r); try (by eexists).
Qed.

(** The item that a reader has seen does not change. *)
Lemma get_grows y v k rd i t :
  sys_inv [] 0 0 y v -> sys_readers y !! k = Some rd ->
  (reader_get_unchecked i (sys_heap y)).1 = Ret t -> r_seen rd ⊆ <[i := t]> (r_seen rd).
Proof.
  intros I Hk Hg. apply map_subseteq_spec. intros j u Hj. destruct (decide (j = i)) as [->|Hne];
    [|by rewrite lookup_insert_ne by done].
  destruct (si_seen _ _ _ _ _ I rd (list_elem_of_lookup_2 _ _ _ Hk) i u Hj) as [_ Hs].
  rewrite (get_unchecked_call y v i u I) in Hg by naive_solver. injection Hg as <-.
  by rewrite lookup_insert_eq.
Qed.

Lemma exec_readers y v c r y' :
  sys_inv [] 0 0 y v -> exec y c = Some (Ret r, y') -> drops_reader c = false ->
  extends (sys_readers y) (sys_readers y').
Proof.
  intros I Hx Hc.
  assert ((forall k i flag, c <> CReaderGet k i flag) \/ exists k i flag, c = CReaderGet k i flag) as [Hn|(k & i & flag & ->)].
  { destruct c; try (by left); right; by eexists _, _, _. }
  { destruct (exec_other_readers y c r y' Hx Hc Hn) as [l ->]. apply extends_app. }
  cbn in Hx. destruct (sys_readers y !! k) as [rd|] eqn:Hk; [|done]. cbn in Hx.
  destruct (may_load _ _ _ _); [|done]. destruct flag; [|repeat run_inv; apply extends_refl].
  injection Hx as Hx. apply run_on_inv in Hx as (t & h & Hm & [= _ <-]).
  exists (<[k := mkReader (r_gen rd) (<[i := t]> (r_seen rd))]> (sys_readers y)), [].
  rewrite app_nil_r. split; [done|]. apply Forall2_lookup. intros j.
  destruct (decide (j = k)) as [->|Hne].
  - rewrite Hk, list_lookup_insert_eq by (by eapply lookup_lt_Some). constructor. split; [done|].
    eapply get_grows; [done|done|by rewrite Hm].
  - rewrite list_lookup_insert_ne by done. by destruct (sys_readers y !! j); constructor.
Qed.

Lemma exec_reader_drop y k r y' : exec y (CReaderDrop k) = Some (Ret r, y') ->
  is_Some (sys_readers y !! k) /\ sys_readers y' = delete k (sys_readers y).
Proof. cbn. intros Hx. repeat run_inv. by split. Qed.
End readers.

(** ** The invariant *)

Section inv.
Context {B : Type -> Type} {G : Type} {BOps : RcuBoxOps B G} {BLaws : RcuBoxLaws B G}.
Context {W T S : Type} {Ops : SlabOps W T} {Laws : SlabLaws W T}.
Abbreviation gsys := (gsys B G W T S).
Abbreviation hold := (hold T S).
Implicit Types (y : gsys) (s : reg nat).

(** The reader [n] has found [t] at [key]. *)
Definition sees y (n : nat) (key : Z) (t : T) : Prop :=
  exists j rd, gs_ids y !! j = Some n /\ sys_readers (gs_slab y) !! j = Some rd
    /\ r_seen rd !! key = Some t.

Definition hold_ok y s (k : nat) (h : hold) : Prop :=
  match h with
  | HGuard => True
  | HLookup key => 0 <= key
  | HFind _ head _ => 0 <= head
  | HEntry key t => exists v n, pins s !! k = Some v /\ versions s !! v = Some n /\ sees y n key t
  end.

Record ids_ok y : Prop := {
  io_slab : (exists v, sys_inv [] 0 0 (gs_slab y) v) \/ sys_done (gs_slab y);
  io_length : length (gs_ids y) = length (sys_readers (gs_slab y));
  io_nodup : NoDup (gs_ids y);
  io_fresh : forall n, n ∈ gs_ids y -> (n < gs_next y)%nat;
}.

(** The box holds readers, each once; those it has not dropped are there. *)
Record box_ok y s : Prop := {
  bo_rel : box_rel (gs_box y) s;
  bo_poisoned : reg_poisoned s = false;
  bo_nodup : NoDup (versions s);
  bo_boxed : forall n, n ∈ versions s -> n ∈ gs_boxed y;
  bo_alive : forall n, n ∈ versions s -> n ∉ bs_dropped (gs_box y) -> n ∈ gs_ids y;
}.

Record holds_ok y s : Prop := {
  ho_length : length (gs_holds y) = length (pins s);
  ho_ok : forall k h, gs_holds y !! k = Some h -> hold_ok y s k h;
}.

Record ginv y s : Prop := {
  gi_ids : ids_ok y;
  gi_box : box_ok y s;
  gi_holds : holds_ok y s;
}.

Lemma find_id_Some y n j : NoDup (gs_ids y) -> gs_ids y !! j = Some n -> find_id y n = Some j.
Proof.
  intros Hn Hj. unfold find_id.
  assert (list_find (eq n) (gs_ids y) = Some (j, n)) as ->; [|done].
  apply list_find_Some. split; [done|]. split; [done|]. intros k m Hk Hlt ->.
  pose proof (NoDup_lookup _ _ _ _ Hn Hk Hj). lia.
Qed.

(** A reader that a guard is on has not been dropped, and no reader is twice. *)
Lemma pinned_not_dropped y s v n :
  box_ok y s -> (v = current s \/ v ∈ pins s) -> versions s !! v = Some n -> n ∉ bs_dropped (gs_box y).
Proof.
  intros [R _ Hn _ _] Hv Hl.
  pose proof (rel_wf _ _ R) as Hw. destruct (rel_dropped _ _ R) as (d & Hd & _ & Hsub & _).
  intros Hin. apply list_elem_of_lookup in Hin as [j Hj].
  apply (f_equal (fun l => l !! j)) in Hd. rewrite !list_lookup_fmap, Hj in Hd. cbn in Hd.
  destruct (d !! j) as [v'|] eqn:Hv'; [|done]. cbn in Hd. injection Hd as Hd.
  pose proof (NoDup_lookup _ _ _ _ Hn Hl (eq_sym Hd)) as <-.
  apply list_elem_of_lookup_2, Hsub, (rw_freed s Hw) in Hv' as [Hlt Hp].
  destruct Hv as [->|Hv]; [lia|done].
Qed.

Lemma dropped_nodup y s : box_rel (gs_box y) s -> NoDup (versions s) ->
  NoDup (bs_dropped (gs_box y)) /\ bs_dropped (gs_box y) ⊆ versions s.
Proof.
  intros R Hn. destruct (rel_dropped _ _ R) as (d & Hd & Hnd & _). split.
  - apply NoDup_alt. intros i j n Hi Hj.
    pose proof (f_equal (fun l => l !! i) Hd) as Hi'. pose proof (f_equal (fun l => l !! j) Hd) as Hj'.
    cbn in Hi', Hj'. rewrite !list_lookup_fmap, Hi in Hi'. rewrite !list_lookup_fmap, Hj in Hj'.
    destruct (d !! i) as [v|] eqn:Hv; [|done]. destruct (d !! j) as [w|] eqn:Hw; [|done].
    cbn in Hi', Hj'. injection Hi' as Hi'. injection Hj' as Hj'.
    pose proof (NoDup_lookup _ _ _ _ Hn (eq_sym Hi') (eq_sym Hj')) as ->.
    by apply (NoDup_lookup _ _ _ _ Hnd Hv Hw).
  - intros n [i Hi]%list_elem_of_lookup.
    apply (f_equal (fun l => l !! i)) in Hd. rewrite !list_lookup_fmap, Hi in Hd. cbn in Hd.
    destruct (d !! i) as [v|]; [|done]. cbn in Hd. injection Hd as Hd. by eapply list_elem_of_lookup_2.
Qed.

(** ** Calls on the slab *)

Lemma sees_track y c z n key t r v :
  sys_inv [] 0 0 (gs_slab y) v -> exec (gs_slab y) c = Some (Ret r, z) -> sees y n key t ->
  (forall k, c = CReaderDrop k -> gs_ids y !! k <> Some n) ->
  sees (track y c z) n key t.
Proof.
  intros I Hx (j & rd & Hj & Hrd & Hs) Hc. destruct (drops_reader c) eqn:Hd.
  - destruct c; try done. destruct (exec_reader_drop _ _ _ _ Hx) as [_ Hr].
    assert (j <> k) as Hne by (intros ->; by apply (Hc k)).
    unfold sees, track; cbn. rewrite Hr. destruct (decide (j < k)%nat) as [Hlt|Hge].
    + exists j, rd. split; [|split; [by rewrite list_lookup_delete_lt|done]].
      apply lookup_app_l_Some. by rewrite list_lookup_delete_lt.
    + destruct j as [|j]; [lia|]. exists j, rd.
      split; [|split; [by rewrite list_lookup_delete_ge by lia|done]].
      apply lookup_app_l_Some. by rewrite list_lookup_delete_ge by lia.
  - destruct (exec_readers _ v _ _ _ I Hx Hd) as (l1 & l2 & Hl & HF).
    assert (match c with CReaderDrop k => delete k (gs_ids y) | _ => gs_ids y end = gs_ids y) as Heq
      by (by destruct c).
    destruct (Forall2_lookup_l _ _ _ _ _ HF Hrd) as (rd' & Hrd' & _ & Hsub).
    exists j, rd'. unfold track; cbn. rewrite Heq, Hl. split; [|split].
    + by apply lookup_app_l_Some.
    + by apply lookup_app_l_Some.
    + by eapply lookup_weaken.
Qed.

Lemma seq_fresh (l : list nat) next m : NoDup l -> (forall n, n ∈ l -> (n < next)%nat) ->
  NoDup (l ++ seq next m) /\ forall n, n ∈ l ++ seq next m -> (n < next + m)%nat.
Proof.
  intros Hn Hl. split.
  - apply NoDup_app. split; [done|]. split; [|apply NoDup_seq]. intros n Hn'%Hl. rewrite elem_of_seq. lia.
  - intros n [?%Hl|?%elem_of_seq]%elem_of_app; lia.
Qed.

Lemma track_ids y c z r v :
  ids_ok y -> sys_inv [] 0 0 (gs_slab y) v -> call_usize c -> exec (gs_slab y) c = Some (Ret r, z) ->
  ids_ok (track y c z).
Proof.
  intros [_ Hlen Hn Hf] I Hc Hx.
  assert ((exists v', sys_inv [] 0 0 z v') \/ sys_done z) as Hslab.
  { destruct (exec_good _ v c _ I Hc Hx) as [(r' & z' & [= <- <-] & _ & Hg)|(i & _ & _ & [=])]. done. }
  set (ids := match c with CReaderDrop k => delete k (gs_ids y) | _ => gs_ids y end).
  assert (ids `sublist_of` gs_ids y) as Hsub.
  { unfold ids. destruct c; try done. apply sublist_delete. }
  assert (length ids <= length (sys_readers z))%nat as Hle.
  { unfold ids. destruct (drops_reader c) eqn:Hd.
    - destruct c; try done. destruct (exec_reader_drop _ _ _ _ Hx) as [Hk ->].
      rewrite !length_delete; [lia|done|]. apply lookup_lt_is_Some. rewrite Hlen. by apply lookup_lt_is_Some.
    - destruct (exec_readers _ v _ _ _ I Hx Hd) as (l1 & l2 & -> & HF).
      rewrite length_app, <- (Forall2_length _ _ _ HF), <- Hlen. by destruct c; try done; lia. }
  destruct (seq_fresh ids (gs_next y) (length (sys_readers z) - length ids)) as [Hn' Hf'].
  { by eapply sublist_NoDup. }
  { intros n Hin. apply Hf. by eapply sublist_subseteq. }
  split; [done| |done|done]. unfold track; cbn. fold ids. rewrite length_app, length_seq. lia.
Qed.

Lemma track_box y s c z :
  box_ok y s ->
  (forall k n, c = CReaderDrop k -> gs_ids y !! k = Some n -> n ∈ versions s -> n ∈ bs_dropped (gs_box y)) ->
  box_ok (track y c z) s.
Proof.
  intros [R Hp Hn Hb Ha] Hc. split; try done. intros n Hv Hd. unfold track; cbn.
  apply elem_of_app. left. specialize (Ha n Hv Hd). destruct c; try done.
  apply list_elem_of_lookup in Ha as [j Hj].
  assert (j <> k) as Hne by (intros ->; apply Hd; by eapply Hc).
  apply list_elem_of_lookup. destruct (decide (j < k)%nat).
  - exists j. by rewrite list_lookup_delete_lt.
  - destruct j as [|j]; [lia|]. exists j. by rewrite list_lookup_delete_ge by lia.
Qed.

Lemma slab_inv y k n : ids_ok y -> gs_ids y !! k = Some n ->
  exists v rd, sys_inv [] 0 0 (gs_slab y) v /\ sys_readers (gs_slab y) !! k = Some rd.
Proof.
  intros [Hs Hl _ _] Hk. apply lookup_lt_Some in Hk. rewrite Hl in Hk.
  destruct (lookup_lt_is_Some_2 _ _ Hk) as [rd Hrd].
  destruct Hs as [[v I]|D]; [by exists v, rd|]. by rewrite (sd_readers _ D) in Hrd.
Qed.

(** Dropping readers that the box has dropped. *)
Lemma drop_readers_ok xs : forall y s,
  ids_ok y -> box_ok y s -> NoDup xs -> xs ⊆ gs_ids y -> xs ⊆ bs_dropped (gs_box y) ->
  exists y', drop_readers xs y = Ret y' /\ ids_ok y' /\ box_ok y' s
    /\ gs_box y' = gs_box y /\ gs_boxed y' = gs_boxed y /\ gs_holds y' = gs_holds y
    /\ forall n key t, n ∉ xs -> sees y n key t -> sees y' n key t.
Proof.
  induction xs as [|x xs IH]; intros y s Hi Hb Hn Hsub Hd; cbn [drop_readers]; [by exists y|].
  apply NoDup_cons in Hn as [Hx Hn].
  assert (x ∈ gs_ids y) as [k Hk]%list_elem_of_lookup by (apply Hsub; by left).
  rewrite (find_id_Some y x k) by (try apply Hi; done).
  destruct (slab_inv y k x Hi Hk) as (v & rd & I & Hrd). unfold slab_step.
  destruct (exec (gs_slab y) (CReaderDrop k)) as [[o z]|] eqn:Hex; [|by cbn in Hex; rewrite Hrd in Hex].
  cbn [mbind option_bind].
  destruct (exec_good _ v (CReaderDrop k) _ I Logic.I Hex) as [(r & z' & [= -> <-] & _)|(i & [=] & _)].
  destruct (IH (track y (CReaderDrop k) z) s) as (y' & -> & Hi' & Hb' & Hbox & Hbd & Hh & Hsee).
  - by eapply track_ids.
  - apply track_box; [done|]. intros k' n [= <-] Hk' _. rewrite Hk in Hk'. injection Hk' as <-. apply Hd. by left.
  - done.
  - intros n Hin. assert (n ∈ gs_ids y) as Hn' by (apply Hsub; by right). unfold track; cbn.
    apply elem_of_app. left. apply delete_Permutation in Hk. rewrite Hk in Hn'.
    apply elem_of_cons in Hn' as [->|?]; done.
  - intros n Hin. apply Hd. by right.
  - exists y'. repeat (split; [done|]). intros n key t Hni Hs. rewrite elem_of_cons in Hni.
    apply Hsee; [naive_solver|]. eapply sees_track; [done|done|done|].
    intros k' [= <-] Hk'. rewrite Hk in Hk'. injection Hk' as ->. naive_solver.
Qed.

(** ** Calls on the box *)

(** The calls that the program makes; a reader is moved into the box once. *)
Definition box_call_ok y s (c : box_call nat unit) : Prop :=
  match c with
  | BGet | BDropGuard _ => True
  | BWrite n => n ∈ gs_ids y /\ n ∈ gs_boxed y /\ n ∉ versions s
  | _ => False
  end.

Lemma box_exec_dropped (b b' : box_sys B G nat) (c : box_call nat unit) o : box_exec b c = Some (o, b') ->
  exists l, bs_dropped b' = bs_dropped b ++ l.
Proof.
  destruct c; cbn; intros Hx; repeat match goal with
    | H : mbind _ _ = Some _ |- _ => apply bind_Some in H as (? & ? & H)
    | x : (_ * _)%type |- _ => destruct x
    | H : (let '(_, _) := ?e in _) = Some _ |- _ => destruct e
    end; injection Hx as _ <-; cbn; try (by eexists). exists []. by rewrite app_nil_r.
Qed.

(** The versions after a call are those before and what it wrote. *)
Lemma reg_exec_versions y s c o s' : box_ok y s -> box_call_ok y s c ->
  reg_exec box_policy s c = Some (o, s') ->
  o = Ret BUnit /\ reg_poisoned s' = false /\ NoDup (versions s')
  /\ versions s' = versions s ++ match c with BWrite n => [n] | _ => [] end.
Proof.
  intros [R Hp Hn _ _] Hc Hx. destruct c as [|k|k|n|f|f]; try done; cbn in Hx; rewrite Hp in Hx.
  - rewrite andb_false_r in Hx. injection Hx as <- <-. by rewrite app_nil_r.
  - apply bind_Some in Hx as (v & _ & [= <- <-]). by rewrite app_nil_r.
  - injection Hx as <- <-. repeat (split; [done|]). split; [|done]. cbn. apply NoDup_app.
    split; [done|]. split; [|apply NoDup_singleton]. intros m Hm ->%list_elem_of_singleton. by apply Hc.
Qed.

Lemma box_step_ok y s c o y' : ids_ok y -> box_ok y s -> box_call_ok y s c ->
  box_step y c = Some (o, y') ->
  exists b' s', box_exec (gs_box y) c = Some (o, b') /\ reg_exec box_policy s c = Some (o, s')
    /\ o = Ret BUnit /\ ids_ok y' /\ box_ok y' s'
    /\ gs_box y' = b' /\ gs_holds y' = gs_holds y
    /\ forall v n key t, v ∈ pins s' -> versions s' !! v = Some n -> sees y n key t -> sees y' n key t.
Proof.
  intros Hi Hb Hc Hx. unfold box_step in Hx. apply bind_Some in Hx as ([o1 b'] & Hbx & Hx).
  destruct (box_exec_dropped _ _ _ _ Hbx) as [l Hl].
  pose proof (rel_step _ _ c (bo_rel _ _ Hb)) as Hs. rewrite Hbx in Hs. destruct Hs as (s' & Hs & R').
  destruct (reg_exec_versions y s c o1 s' Hb Hc Hs) as (-> & Hp' & Hn' & Hv').
  rewrite Hl, drop_app_length in Hx.
  assert (box_ok (set_box b' y) s') as Hb'.
  { split; cbn; try done; rewrite Hv'; intros n [Hn|Hn]%elem_of_app.
    - by apply Hb.
    - destruct c; try by apply elem_of_nil in Hn. apply list_elem_of_singleton in Hn as ->. by destruct Hc as (? & ? & ?).
    - intros Hd. apply (bo_alive _ _ Hb _ Hn). rewrite Hl in Hd. set_solver.
    - intros _. destruct c; try by apply elem_of_nil in Hn. apply list_elem_of_singleton in Hn as ->. by destruct Hc as (? & ? & ?). }
  destruct (dropped_nodup (set_box b' y) s' R' Hn') as [Hnd Hsub]. cbn in Hnd, Hsub. rewrite Hl in Hnd, Hsub.
  apply NoDup_app in Hnd as (_ & Hdisj & Hnl).
  destruct (drop_readers_ok l (set_box b' y) s') as (y1 & Hdr & Hi1 & Hb1 & Hbox & _ & Hh & Hsee).
  - by destruct Hi.
  - done.
  - done.
  - intros n Hn. assert (n ∈ versions s') as Hnv by (apply Hsub, elem_of_app; by right).
    rewrite Hv' in Hnv. apply elem_of_app in Hnv as [Hnv|Hnv].
    + apply (bo_alive _ _ Hb _ Hnv). intros Hd. by apply (Hdisj n Hd).
    + destruct c; try by apply elem_of_nil in Hnv. apply list_elem_of_singleton in Hnv as ->. by destruct Hc as (? & ? & ?).
  - cbn. rewrite Hl. intros n Hn. apply elem_of_app. by right.
  - rewrite Hdr in Hx. injection Hx as <- <-. exists b', s'. repeat (split; [done|]).
    intros v n key t Hv Hvn Hse. apply Hsee; [|done]. intros Hin.
    apply (pinned_not_dropped (set_box b' y) s' v n Hb'); [by right|done|].
    cbn. rewrite Hl. apply elem_of_app. by right.
Qed.

(** ** The guards *)

Lemma hold_mono y y' s s' k k' h :
  (forall v, pins s !! k = Some v -> pins s' !! k' = Some v) ->
  (forall v n, versions s !! v = Some n -> versions s' !! v = Some n) ->
  (forall v n key t, pins s' !! k' = Some v -> versions s' !! v = Some n -> sees y n key t -> sees y' n key t) ->
  hold_ok y s k h -> hold_ok y' s' k' h.
Proof.
  intros Hp Hv Hs. destruct h as [| | |key t]; try done. intros (v & n & Hk & Hn & Hse).
  exists v, n. split; [by apply Hp|]. split; [by apply Hv|]. eapply Hs; [by apply Hp|by apply Hv|done].
Qed.

Lemma hold_mono_pinned y y' s s' k k' h :
  (forall v, pins s !! k = Some v -> pins s' !! k' = Some v) ->
  versions s `prefix_of` versions s' ->
  (forall v n key t, v ∈ pins s' -> versions s' !! v = Some n -> sees y n key t -> sees y' n key t) ->
  hold_ok y s k h -> hold_ok y' s' k' h.
Proof.
  intros Hp Hv Hs. apply hold_mono; [done|by intros; eapply prefix_lookup_Some|].
  intros v n key t Hk. apply Hs. by eapply list_elem_of_lookup_2.
Qed.

(** What a new guard is for. *)
Definition start_ok (h : hold) : Prop :=
  match h with HEntry _ _ => False | HLookup key => 0 <= key | HFind _ head _ => 0 <= head | HGuard => True end.

Lemma get_guard_ok y s h o y' : ginv y s -> start_ok h -> get_guard y h = Some (o, y') ->
  o = Ret tt /\ exists s', ginv y' s'.
Proof.
  intros [Hi Hb [Hl Ho]] Hh Hx. unfold get_guard in Hx. apply bind_Some in Hx as ([o1 y1] & Hbx & Hx).
  destruct (box_step_ok y s BGet o1 y1 Hi Hb Logic.I Hbx) as (b' & s' & _ & Hs & -> & Hi' & Hb' & _ & Hh' & Hsee).
  injection Hx as <- <-. split; [done|]. exists s'. cbn in Hs.
  destruct (reads_checked box_policy && reg_poisoned s); [done|]. injection Hs as <-.
  split; [by destruct Hi'|by destruct Hb'|]. rewrite Hh'. split; cbn.
  - rewrite !length_app, Hl. done.
  - intros k h' [Hk|[_ [_ <-]%list_lookup_singleton_Some]]%lookup_app_Some.
    + eapply (hold_mono_pinned y y1); [| |exact Hsee|by apply Ho]; cbn; [|done].
      intros v Hv. by apply lookup_app_l_Some.
    + by destruct h.
Qed.

Lemma drop_hold_ok y s k o y' : ginv y s -> drop_hold y k = Some (o, y') ->
  o = Ret tt /\ exists s', ginv y' s'.
Proof.
  intros [Hi Hb [Hl Ho]] Hx. unfold drop_hold in Hx. apply bind_Some in Hx as ([o1 y1] & Hbx & Hx).
  destruct (box_step_ok y s (BDropGuard k) o1 y1 Hi Hb Logic.I Hbx)
    as (b' & s' & _ & Hs & -> & Hi' & Hb' & _ & Hh' & Hsee).
  injection Hx as <- <-. split; [done|]. exists s'. cbn in Hs.
  destruct (pins s !! k) as [v0|] eqn:Hk0; [|done]. cbn in Hs. injection Hs as <-.
  split; [by destruct Hi'|by destruct Hb'|]. rewrite Hh'. split; cbn.
  - pose proof (lookup_lt_Some _ _ _ Hk0).
    rewrite !length_delete by (apply lookup_lt_is_Some; lia). by rewrite Hl.
  - intros j h' Hj. destruct (decide (j < k)%nat) as [Hlt|Hge].
    + rewrite list_lookup_delete_lt in Hj by done.
      eapply (hold_mono_pinned y y1 s); [| |exact Hsee|by apply Ho]; cbn; [|done].
      intros v Hv. by rewrite list_lookup_delete_lt.
    + rewrite list_lookup_delete_ge in Hj by lia.
      eapply (hold_mono_pinned y y1 s); [| |exact Hsee|by apply Ho]; cbn; [|done].
      intros v Hv. by rewrite list_lookup_delete_ge by lia.
Qed.

Lemma write_reader_ok y s k n o y' : ginv y s -> gs_ids y !! k = Some n -> n ∉ gs_boxed y ->
  box_step (add_boxed n y) (BWrite n) = Some (o, y') -> o = Ret BUnit /\ exists s', ginv y' s'.
Proof.
  intros [Hi Hb [Hl Ho]] Hk Hn Hx.
  assert (box_ok (add_boxed n y) s) as Hb0.
  { destruct Hb as [R Hp Hnd Hbd Ha]. split; try done. intros m Hm%Hbd. cbn. by right. }
  destruct (box_step_ok (add_boxed n y) s (BWrite n) o y') as (b' & s' & _ & Hs & -> & Hi' & Hb' & _ & Hh' & Hsee);
    [by destruct Hi|done| |done|].
  { split; [by eapply list_elem_of_lookup_2|]. split; [by left|]. by intros ?%(bo_boxed _ _ Hb). }
  split; [done|]. exists s'. cbn in Hs. rewrite (bo_poisoned _ _ Hb) in Hs. injection Hs as <-.
  split; [done|done|]. split; rewrite Hh'; [done|]. intros j h Hj.
  eapply (hold_mono_pinned (add_boxed n y) y' s); [| |exact Hsee|by apply Ho]; cbn; [done|by apply prefix_app_r].
Qed.

(** The reader under a guard. *)
Lemma guard_reader_ok y s k h : ginv y s -> gs_holds y !! k = Some h ->
  exists j v n, guard_reader y k = Ret j /\ pins s !! k = Some v /\ versions s !! v = Some n
    /\ gs_ids y !! j = Some n.
Proof.
  intros [Hi Hb [Hl Ho]] Hk. pose proof (rel_guards _ _ (bo_rel _ _ Hb)) as Hg.
  pose proof (lookup_lt_Some _ _ _ Hk) as Hlt. rewrite Hl in Hlt.
  destruct (lookup_lt_is_Some_2 (pins s) k Hlt) as [v Hv]. rewrite <- Hg in Hlt.
  destruct (lookup_lt_is_Some_2 _ _ Hlt) as [g Hgk]. unfold guard_reader. rewrite Hgk.
  pose proof (rel_step _ _ (BDeref (U := unit) k) (bo_rel _ _ Hb)) as Hs. cbn in Hs. rewrite Hgk in Hs.
  cbn in Hs. rewrite Hv in Hs. cbn in Hs. destruct Hs as (s' & Hs & _).
  apply bind_Some in Hs as (n & Hn & [= Hs _]).
  destruct (box_deref (bs_box (gs_box y)) g) as [n'| | |]; try done. cbn in Hs. injection Hs as ->. cbn.
  assert (n' ∈ gs_ids y) as Hin.
  { apply (bo_alive _ _ Hb); [by eapply list_elem_of_lookup_2|].
    eapply pinned_not_dropped; [done| |done]. right. by eapply list_elem_of_lookup_2. }
  apply list_elem_of_lookup in Hin as [j Hj]. exists j, v, n'.
  by rewrite (find_id_Some y n' j) by (try apply Hi; done).
Qed.

(** ** Calls on the slab, in a program with guards *)

Lemma slab_step_ok y s c o y' : ginv y s -> call_usize c -> may_call y c = true ->
  slab_step y c = Some (o, y') ->
  (exists r, o = Ret r /\ ginv y' s /\ gs_holds y' = gs_holds y
    /\ forall v n key t, v ∈ pins s -> versions s !! v = Some n -> sees y n key t -> sees y' n key t)
  \/ (o = Panic /\ exists i, c = CMarkRemoved i).
Proof.
  intros [Hi Hb [Hl Ho]] Hu Hc Hx. unfold slab_step in Hx. apply bind_Some in Hx as ([o1 z] & Hex & [= <- <-]).
  destruct (io_slab _ Hi) as [[v I]|D]; [|by rewrite exec_done in Hex].
  destruct (exec_good _ v c _ I Hu Hex) as [(r & z' & [= -> <-] & _)|(i & -> & _ & [= -> _])].
  2:{ right. split; [done|]. by exists i. }
  left. exists r. split; [done|].
  assert (forall k n, c = CReaderDrop k -> gs_ids y !! k = Some n -> n ∉ versions s) as Hdrop.
  { intros k n -> Hk Hn%(bo_boxed _ _ Hb). cbn in Hc. rewrite Hk in Hc. by apply bool_decide_eq_true in Hc. }
  assert (forall v n key t, v ∈ pins s -> versions s !! v = Some n -> sees y n key t ->
            sees (track y c z) n key t) as Hsee.
  { intros w n key t Hw Hn Hs. eapply sees_track; [done|done|done|]. intros k -> Hk.
    apply (Hdrop k n eq_refl Hk). by eapply list_elem_of_lookup_2. }
  split; [|by split]. split; [by eapply track_ids| |].
  - apply track_box; [done|]. intros k n Hk Hkn Hv. by destruct (Hdrop k n Hk Hkn).
  - split; [done|]. intros k h Hk. by eapply (hold_mono_pinned y); [| |exact Hsee|by apply Ho].
Qed.

(** The load of a flag by the reader under a guard: what it finds, it has seen. *)
Lemma load_flag_ok y s k h i flag o y' : ginv y s -> gs_holds y !! k = Some h -> 0 <= i ->
  load_flag y k i flag = Some (o, y') ->
  exists x, o = Ret x /\ ginv y' s /\ gs_holds y' = gs_holds y
    /\ forall t, x = Some t -> hold_ok y' s k (HEntry i t).
Proof.
  intros Hg Hk Hi Hx. destruct (guard_reader_ok y s k h Hg Hk) as (j & v & n & Hr & Hv & Hn & Hj).
  unfold load_flag in Hx. rewrite Hr in Hx. apply bind_Some in Hx as ([o1 y1] & Hst & [= <- <-]).
  destruct (slab_step_ok y s (CReaderGet j i flag) o1 y1 Hg Hi eq_refl Hst)
    as [(r & -> & Hg' & Hh & _)|(_ & ? & ?)]; [|done].
  unfold slab_step in Hst. apply bind_Some in Hst as ([o2 z] & Hex & [= -> <-]).
  destruct (slab_inv y j n (gi_ids _ _ Hg) Hj) as (w & rd & _ & Hrd).
  cbn in Hex. rewrite Hrd in Hex. cbn in Hex. destruct (may_load _ _ _ _); [|done].
  destruct flag; [|injection Hex as <- <-; exists None; by split].
  injection Hex as Hex. apply run_on_inv in Hex as (t & hp & _ & [= <- <-]). exists (Some t).
  split; [done|]. split; [done|]. split; [done|]. intros t' [= <-]. exists v, n.
  split; [done|]. split; [done|].
  exists j, (mkReader (r_gen rd) (<[i := t]> (r_seen rd))). unfold track; cbn.
  split; [by apply lookup_app_l_Some|]. split; [|by rewrite lookup_insert_eq].
  apply list_lookup_insert_eq. by eapply lookup_lt_Some.
Qed.

Lemma set_hold_ok y s k h : ginv y s -> hold_ok y s k h -> ginv (set_holds (<[k := h]> (gs_holds y)) y) s.
Proof.
  intros [Hi Hb [Hl Ho]] Hh. split; [by destruct Hi|by destruct Hb|]. split; cbn.
  - by rewrite length_insert.
  - intros j h' [(-> & -> & _)|[_ Hj]]%list_lookup_insert_Some; [by destruct h'|].
    specialize (Ho j h' Hj). by destruct h'.
Qed.

Lemma end_lookup_ok y s k o o' y' : ginv y s -> end_lookup y k o = Some (o', y') -> o' = o /\ exists s', ginv y' s'.
Proof.
  intros Hg Hx. unfold end_lookup in Hx. apply bind_Some in Hx as ([o1 y1] & Hd & [= <- <-]).
  destruct (drop_hold_ok y s k o1 y1 Hg Hd) as [-> Hs]. done.
Qed.

(** An entry guard gives the item that it was made for. *)
Lemma entry_deref_ok y s k key t : ginv y s -> gs_holds y !! k = Some (HEntry key t) ->
  entry_guard_deref y k key = Ret t.
Proof.
  intros Hg Hk. destruct (guard_reader_ok y s k _ Hg Hk) as (j & v & n & Hr & Hv & Hn & Hj).
  unfold entry_guard_deref. rewrite Hr. cbn.
  destruct (ho_ok _ _ (gi_holds _ _ Hg) _ _ Hk) as (v' & n' & Hv' & Hn' & j' & rd & Hj' & Hrd & Hs).
  destruct (slab_inv y j' n' (gi_ids _ _ Hg) Hj') as (w & _ & I & _).
  destruct (si_seen _ _ _ _ _ I rd (list_elem_of_lookup_2 _ _ _ Hrd) key t Hs) as [_ Hp].
  by rewrite (get_unchecked_call (gs_slab y) w key t I) by naive_solver.
Qed.
End inv.

(** ** The program *)

Section program.
Context {B : Type -> Type} {G : Type} {BOps : RcuBoxOps B G} {BLaws : RcuBoxLaws B G}.
Context {W T S : Type} {Ops : SlabOps W T} {Laws : SlabLaws W T}.
Context (predicate : S -> Z -> T -> outcome (bool * S)).
Abbreviation gsys := (gsys B G W T S).
Implicit Types (y : gsys) (s : reg nat).

(** How a call may end: it returns; the program marks an item that is not there;
    or the closure fails, and if it panics the program goes on. *)
Definition call_ends (c : gcall T S) (o : outcome (gresp T)) (inv : Prop) : Prop :=
  ((exists r, o = Ret r) /\ inv)
  \/ (o = Panic /\ exists i, c = GSlab (CMarkRemoved i))
  \/ exists k flag st i t, c = GLookupStep k flag /\
       match predicate st i t with
       | Ret _ => False
       | Panic => o = Panic /\ inv
       | UB => o = UB
       | OutOfFuel => o = OutOfFuel
       end.

Lemma returns c r (inv : Prop) : inv -> call_ends c (Ret r) inv.
Proof. intros H. left. split; [by exists r|done]. Qed.

Lemma lookup_step_ok y s k flag o y' : ginv y s -> lookup_step predicate y k flag = Some (o, y') ->
  call_ends (GLookupStep k flag) o (exists s', ginv y' s').
Proof.
  intros Hg Hx. unfold lookup_step in Hx. apply bind_Some in Hx as (h & Hk & Hx).
  pose proof (ho_ok _ _ (gi_holds _ _ Hg) _ _ Hk) as Hok.
  destruct h as [|key|st head tail|key t]; try done.
  - apply bind_Some in Hx as ([o1 y1] & Hl & Hx).
    destruct (load_flag_ok y s k _ key flag o1 y1 Hg Hk Hok Hl) as (x & -> & Hg1 & _ & Hse).
    destruct x as [t|].
    + injection Hx as <- <-. apply returns. exists s. apply set_hold_ok; [done|by apply Hse].
    + apply (end_lookup_ok _ s) in Hx as [-> Hs']; [|done]. by apply returns.
  - destruct (head >=? tail).
    { apply (end_lookup_ok _ s) in Hx as [-> Hs']; [|done]. by apply returns. }
    apply bind_Some in Hx as ([o1 y1] & Hl & Hx).
    destruct (load_flag_ok y s k _ head flag o1 y1 Hg Hk Hok Hl) as (x & -> & Hg1 & _ & Hse).
    assert (forall st', ginv (set_holds (<[k := HFind st' (head + 1) tail]> (gs_holds y1)) y1) s) as Hnext.
    { intros st'. apply set_hold_ok; [done|]. cbn in *. lia. }
    destruct x as [t|]; [|injection Hx as <- <-; apply returns; by exists s].
    destruct (predicate st head t) as [[[|] st']| | |] eqn:Hp.
    + injection Hx as <- <-. apply returns. exists s. apply set_hold_ok; [done|by apply Hse].
    + injection Hx as <- <-. apply returns. by exists s.
    + apply (end_lookup_ok _ s) in Hx as [-> Hs']; [|done].
      right; right. exists k, flag, st, head, t. by rewrite Hp.
    + injection Hx as <- <-. right; right. exists k, flag, st, head, t. by rewrite Hp.
    + injection Hx as <- <-. right; right. exists k, flag, st, head, t. by rewrite Hp.
Qed.

Lemma gexec_ok y s c o y' : ginv y s -> gcall_usize c -> gexec predicate y c = Some (o, y') ->
  call_ends c o (exists s', ginv y' s').
Proof.
  intros Hg Hu Hx. destruct c as [c|k| |key|st tail|k flag|k|k]; cbn in Hx.
  - destruct (may_call y c) eqn:Hc; [|done]. apply bind_Some in Hx as ([o1 y1] & Hst & [= <- <-]).
    destruct (slab_step_ok y s c o1 y1 Hg Hu Hc Hst) as [(r & -> & Hg' & _)|(-> & i & ->)].
    + apply returns. by exists s.
    + right; left. split; [done|]. by exists i.
  - apply bind_Some in Hx as (n & Hn & Hx). case_bool_decide as Hnb; [|done].
    apply bind_Some in Hx as ([o1 y1] & Hw & [= <- <-]).
    destruct (write_reader_ok y s k n o1 y1 Hg Hn Hnb Hw) as [-> Hs]. by apply returns.
  - apply bind_Some in Hx as ([o1 y1] & Hw & [= <- <-]).
    destruct (get_guard_ok y s HGuard o1 y1 Hg Logic.I Hw) as [-> Hs]. by apply returns.
  - apply bind_Some in Hx as ([o1 y1] & Hw & [= <- <-]).
    destruct (get_guard_ok y s (HLookup key) o1 y1 Hg Hu Hw) as [-> Hs]. by apply returns.
  - destruct (io_slab _ (gi_ids _ _ Hg)) as [[v I]|D].
    + destruct (inv_slab _ v I) as (sl & Hsl & Ha). destruct (abs_iter_new sl _ Ha) as (it & Hnew & Hok & _).
      unfold reader_iter, read_storage in Hx. rewrite Hsl, Hnew in Hx. destruct (tail <=? it_tail it); [|done].
      apply bind_Some in Hx as ([o1 y1] & Hw & [= <- <-]).
      destruct (get_guard_ok y s (HFind st (it_head it) tail) o1 y1 Hg) as [-> Hs]; [|done|by apply returns].
      cbn. destruct Hok. lia.
    + exfalso. destruct (current_value s (rel_wf _ _ (bo_rel _ _ (gi_box _ _ Hg)))) as [n Hn].
      assert (n ∈ gs_ids y) as Hin.
      { apply (bo_alive _ _ (gi_box _ _ Hg)); [by eapply list_elem_of_lookup_2|].
        eapply pinned_not_dropped; [apply Hg| |done]. by left. }
      pose proof (io_length _ (gi_ids _ _ Hg)) as Hl. rewrite (sd_readers _ D) in Hl.
      destruct (gs_ids y); [by apply elem_of_nil in Hin|done].
  - by eapply lookup_step_ok.
  - apply bind_Some in Hx as (h & Hk & Hx). destruct h as [| | |key t]; try done.
    rewrite (entry_deref_ok y s k key t Hg Hk) in Hx. injection Hx as <- <-. apply returns. by exists s.
  - apply bind_Some in Hx as (h & Hk & Hx).
    destruct h as [| | |key t]; try done; apply bind_Some in Hx as ([o1 y1] & Hw & [= <- <-]);
      destruct (drop_hold_ok y s k o1 y1 Hg Hw) as [-> Hs]; by apply returns.
Qed.

Lemma gsys_reachable_inv y0 s0 y : ginv y0 s0 -> gsys_reachable predicate y0 y -> exists s, ginv y s.
Proof.
  intros Hg0. induction 1 as [|y c o y' _ [s Hg] Hu Hx Hgo]; [by exists s0|].
  destruct (gexec_ok y s c o y' Hg Hu Hx) as [[_ H]|[(-> & i & ->)|(k & flag & st & i & t & -> & H)]];
    [done|done|].
  destruct (predicate st i t); try done; [by destruct H|by subst o|by subst o].
Qed.

Lemma gsys_new_inv (z : sys W T) v y0 : sys_inv [] 0 0 z v -> sys_readers z = [] ->
  gsys_new (B := B) (S := S) z = Some y0 -> exists s, ginv y0 s.
Proof.
  intros I Hr Hx. unfold gsys_new in Hx. apply bind_Some in Hx as ([o z'] & Hex & Hx).
  destruct o as [r| | |]; try done. injection Hx as <-.
  destruct (exec_good _ v CReader _ I Logic.I Hex) as [(r' & z'' & [= <- <-] & _ & Hz)|(? & [=] & _)].
  pose proof (rel_start (B := B) 0%nat) as R. exists (reg_start 0%nat). split.
  - destruct (exec_other_readers _ _ _ _ Hex eq_refl) as [l Hl]; [done|].
    cbn in Hex. repeat match goal with
      | H : mbind _ _ = Some _ |- _ => apply bind_Some in H as (? & ? & H)
      end. destruct (sys_borrow z); try done. injection Hex as Hex.
    apply run_on_inv in Hex as (g & h & _ & [= _ <-]).
    split; cbn; [done|by rewrite Hr|apply NoDup_singleton|]. intros n ->%list_elem_of_singleton. lia.
  - split; cbn; [done|done|apply NoDup_singleton|done|]. intros n Hn _. done.
  - split; [done|]. intros k h Hk. done.
Qed.
End program.
