(* ===== verification/RcuGuardedCorrect.v ===== *)
(** Correctness of [RcuCslabEntryGuard]: its theorem, for any box that keeps the
    promises of [RcuBoxLaws], over the [Cslab]. *)

From S2P Require Import Prelude CslabStorage Cslab SlabSpec SlabInterface CslabProps.
From S2P Require Import RcuCslab RcuSystem RcuInv RcuSafe RcuSafeMut RcuCorrect.
From S2P Require Import RcuBox RcuBoxSpec RcuBoxProof RcuGuarded RcuGuardedProof.

Section guarded.
Context {B : Type -> Type} {G : Type} {BOps : RcuBoxOps B G} {BLaws : RcuBoxLaws B G}.
Context {T S : Type} (predicate : S -> Z -> T -> outcome (bool * S)).

(** The states that a program reaches from a new slab whose first reader is put
    in a box. *)
Definition guarded_reachable (el : layout) (cap : Z) (y : gsys B G (cslab T) T S) : Prop :=
  exists z y0, rcu_new el cap = Ret z /\ gsys_new z = Some y0 /\ gsys_reachable predicate y0 y.

Lemma guarded_reachable_inv el cap y :
  entry_layout_ok el -> guarded_reachable el cap y -> exists s, ginv y s.
Proof.
  intros Hel (z & y0 & Hz & Hy0 & Hy).
  assert (rcu_reachable el cap z) as Hr by (exists z; split; [done|constructor]).
  assert (sys_readers z = []) as Hnil.
  { unfold rcu_new in Hz. by apply bind_returns in Hz as ([r h] & _ & [= <-]). }
  destruct (rcu_reachable_inv el cap z Hel Hr) as [[v I]|D].
  - destruct (gsys_new_inv z v y0 I Hnil Hy0) as [s0 Hg0]. by eapply gsys_reachable_inv.
  - unfold gsys_new in Hy0. by rewrite exec_done in Hy0.
Qed.

(** Running calls, for closed runs. *)
Fixpoint grun (y : gsys B G (cslab T) T S) (cs : list (gcall T S)) : option (list (gresp T) * gsys B G (cslab T) T S) :=
  match cs with
  | [] => Some ([], y)
  | c :: cs' =>
      match gexec predicate y c with
      | Some (Ret r, y') => '(rs, y'') ← grun y' cs'; Some (r :: rs, y'')
      | _ => None
      end
  end.

Lemma grun_reachable y0 cs : forall y rs y',
  gsys_reachable predicate y0 y -> Forall gcall_usize cs -> grun y cs = Some (rs, y') ->
  gsys_reachable predicate y0 y'.
Proof.
  induction cs as [|c cs IH]; intros y rs y' Hy Hcs; cbn [grun]; [by intros [= _ <-]|].
  apply Forall_cons in Hcs as [Hc Hcs].
  destruct (gexec predicate y c) as [[[r| | |] y1]|] eqn:Hx; try done.
  intros Hr. apply bind_Some in Hr as ([rs' y2] & Hr & [= _ <-]).
  eapply IH; [|done|done]. by eapply gsys_reach_step.
Qed.
End guarded.

(** C17 (safety). An [RcuCslabEntryGuard] always gives the item that
    [get_guarded] or [find_guarded] made it for, whatever is written to the box,
    removed from the slab, finalized or dropped meanwhile, by any thread.
    Nothing in such a program is undefined or fails, but for marking an item
    that is not there, and for the closure of [find_guarded]. *)
Theorem entry_guards_sound {B G} {BOps : RcuBoxOps B G} {BLaws : RcuBoxLaws B G} {T S}
    (predicate : S -> Z -> T -> outcome (bool * S)) el cap y :
  entry_layout_ok el -> guarded_reachable (B := B) (G := G) predicate el cap y ->
  (forall k key t, gs_holds y !! k = Some (HEntry key t) ->
     gexec predicate y (GDeref k) = Some (Ret (GItem t), y))
  /\ (forall c o y', gcall_usize c -> gexec predicate y c = Some (o, y') ->
       (exists r, o = Ret r)
       \/ (o = Panic /\ exists i, c = GSlab (CMarkRemoved i))
       \/ (exists k flag st i t, c = GLookupStep k flag /\
             match predicate st i t with
             | Ret _ => False
             | Panic => o = Panic
             | UB => o = UB
             | OutOfFuel => o = OutOfFuel
             end)).
Proof.
  intros Hel Hy. destruct (guarded_reachable_inv predicate el cap y Hel Hy) as [s Hg]. split.
  - intros k key t Hk. cbn. rewrite Hk. cbn. by rewrite (entry_deref_ok y s k key t Hg Hk).
  - intros c o y' Hu Hx.
    destruct (gexec_ok predicate y s c o y' Hg Hu Hx) as [[H _]|[H|(k & flag & st & i & t & -> & H)]];
      [by left|by right; left|].
    right; right. exists k, flag, st, i, t. split; [done|].
    destruct (predicate st i t); try done. by destruct H.
Qed.

(** A guard from [get_guarded] and one from [find_guarded], whose entries are
    removed while a new reader is written to the box. *)
Definition demo_predicate (calls : Z) (i t : Z) : outcome (bool * Z) := Ret (t >? 15, calls + 1).

Definition demo_guarded_calls : list (gcall Z Z) :=
  [GSlab (CInsert 10); GSlab (CInsert 20);
   GGetGuarded 0; GLookupStep 0 true;
   GFindGuarded 0 2; GLookupStep 1 true; GLookupStep 1 true;
   GSlab (CMarkRemoved 0); GSlab CSchedule; GWrite 1;
   GSlab (CMarkRemoved 1); GSlab CSchedule; GWrite 2].

Definition demo_guarded : option (list (gresp Z) * gsys mutex_arc.arc_box nat (cslab Z) Z Z) :=
  match rcu_new demo_layout 70 with
  | Ret z => y0 ← gsys_new z; grun demo_predicate y0 demo_guarded_calls
  | _ => None
  end.

Lemma entry_guards_sound_witness :
  exists rs y, demo_guarded = Some (rs, y)
    /\ exec (gs_slab y) (CGet 0) = Some (Ret (AGet None), gs_slab y)
    /\ gexec demo_predicate y (GDeref 0) = Some (Ret (GItem 10), y)
    /\ gexec demo_predicate y (GDeref 1) = Some (Ret (GItem 20), y).
Proof.
  assert (exists z y0 rs y, rcu_new demo_layout 70 = Ret z /\ gsys_new z = Some y0
    /\ grun demo_predicate y0 demo_guarded_calls = Some (rs, y) /\ demo_guarded = Some (rs, y)
    /\ gs_holds y = [HEntry 0 10; HEntry 1 20]
    /\ exec (gs_slab y) (CGet 0) = Some (Ret (AGet None), gs_slab y)) as (z & y0 & rs & y & Hz & Hy0 & Hr & Hd & Hh & Hg).
  { eexists _, _, _, _. do 5 (split; [vm_compute; reflexivity|]). vm_compute; reflexivity. }
  destruct (entry_guards_sound demo_predicate demo_layout 70 y) as [H _]; [by_decide| |].
  { exists z, y0. split; [exact Hz|]. split; [exact Hy0|].
    apply (grun_reachable demo_predicate y0 demo_guarded_calls y0 rs y); [apply gsys_reach_new| |exact Hr].
    repeat (apply Forall_cons; split; [done|]). apply Forall_nil_2. }
  exists rs, y. split; [exact Hd|]. split; [exact Hg|].
  split; [apply (H 0%nat 0 10)|apply (H 1%nat 1 20)]; by rewrite Hh.
Defined.
