(* ===== verification/NetDefs.v ===== *)
(** Addresses and numbers of zpr-utils/src/net_defs.rs. *)

From S2P Require Import Prelude.

(** Bytes, and arrays of them. *)
Abbreviation bytes := (list Z).
Definition is_array (n : nat) (l : bytes) : Prop := length l = n /\ Forall (fun b => is_u8 b) l.

#[global] Instance is_array_dec n l : Decision (is_array n l).
Proof. unfold is_array. apply _. Defined.

(** ** Numbers *)

Module ethertype.
Definition IP : Z := 0x0800.
Definition IPV6 : Z := 0x86dd.
End ethertype.

Definition IPV4_ADDRESS_SIZE : nat := 4.
Definition IPV6_ADDRESS_SIZE : nat := 16.

Definition ip_version (pkt : bytes) : outcome Z :=
  match pkt with [] => Panic | b :: _ => Ret (Z.shiftr b 4) end.

Definition ip_ethertype (ip_version : Z) : Z :=
  if ip_version =? 4 then ethertype.IP else if ip_version =? 6 then ethertype.IPV6 else 0.

Module ip_number.
Definition HOPOPT : Z := 0.
Definition ICMP : Z := 1.
Definition IPINIP : Z := 4.
Definition TCP : Z := 6.
Definition UDP : Z := 17.
Definition IPV6_ROUTE : Z := 43.
Definition IPV6_FRAG : Z := 44.
Definition AH : Z := 51.
Definition IPV6_ICMP : Z := 58.
Definition IPV6_OPTS : Z := 60.
End ip_number.

(** The constants of the [zpr] crate's [vsapi_ip_number]. *)
Record vsapi_ip_number (P : Type) := mkVsapi {
  v_HOPOPT : P; v_ICMP : P; v_IPINIP : P; v_TCP : P; v_UDP : P;
  v_IPV6_ROUTE : P; v_IPV6_FRAG : P; v_AH : P; v_IPV6_ICMP : P; v_IPV6_OPTS : P;
}.
Arguments v_HOPOPT {P} _.
Arguments v_ICMP {P} _.
Arguments v_IPINIP {P} _.
Arguments v_TCP {P} _.
Arguments v_UDP {P} _.
Arguments v_IPV6_ROUTE {P} _.
Arguments v_IPV6_FRAG {P} _.
Arguments v_AH {P} _.
Arguments v_IPV6_ICMP {P} _.
Arguments v_IPV6_OPTS {P} _.

Definition vsapi_ip_to_defs_ip {P} `{EqDecision P} (V : vsapi_ip_number P) (vsapi_proto : P)
  : result Z unit :=
  if decide (vsapi_proto = v_HOPOPT V) then Ok ip_number.HOPOPT
  else if decide (vsapi_proto = v_ICMP V) then Ok ip_number.ICMP
  else if decide (vsapi_proto = v_IPINIP V) then Ok ip_number.IPINIP
  else if decide (vsapi_proto = v_TCP V) then Ok ip_number.TCP
  else if decide (vsapi_proto = v_UDP V) then Ok ip_number.UDP
  else if decide (vsapi_proto = v_IPV6_ROUTE V) then Ok ip_number.IPV6_ROUTE
  else if decide (vsapi_proto = v_IPV6_FRAG V) then Ok ip_number.IPV6_FRAG
  else if decide (vsapi_proto = v_AH V) then Ok ip_number.AH
  else if decide (vsapi_proto = v_IPV6_ICMP V) then Ok ip_number.IPV6_ICMP
  else if decide (vsapi_proto = v_IPV6_OPTS V) then Ok ip_number.IPV6_OPTS
  else Err tt.

(** ** Addresses of the standard library *)

Record Ipv4Addr := mkIpv4 { octets4 : bytes }.
Record Ipv6Addr := mkIpv6 { octets6 : bytes }.
Inductive IpAddr := V4 (v4 : Ipv4Addr) | V6 (v6 : Ipv6Addr).

#[global] Instance Ipv4Addr_eq_dec : EqDecision Ipv4Addr.
Proof. solve_decision. Defined.
#[global] Instance Ipv6Addr_eq_dec : EqDecision Ipv6Addr.
Proof. solve_decision. Defined.
#[global] Instance IpAddr_eq_dec : EqDecision IpAddr.
Proof. solve_decision. Defined.

Definition ip_wf (a : IpAddr) : Prop :=
  match a with V4 a => is_array 4 (octets4 a) | V6 a => is_array 16 (octets6 a) end.

#[global] Instance ip_wf_dec a : Decision (ip_wf a).
Proof. destruct a; apply _. Defined.

(** [SocketAddrV4] and [SocketAddrV6] *)
Inductive SocketAddr :=
| SockV4 (ip : Ipv4Addr) (port : Z)
| SockV6 (ip : Ipv6Addr) (port flowinfo scope_id : Z).

Definition sock_port (s : SocketAddr) : Z :=
  match s with SockV4 _ p => p | SockV6 _ p _ _ => p end.

(** [SocketAddr::set_ip]: the rest is kept if the family is the same. *)
Definition set_ip (s : SocketAddr) (ip : IpAddr) : SocketAddr :=
  match s, ip with
  | SockV4 _ p, V4 a => SockV4 a p
  | SockV6 _ p f sc, V6 a => SockV6 a p f sc
  | _, V4 a => SockV4 a (sock_port s)
  | _, V6 a => SockV6 a (sock_port s) 0 0
  end.

(** ** [IpAddress] *)

Record IpAddress := mkIpAddress { v6 : bytes }.

Definition UNSPECIFIED : IpAddress := mkIpAddress (replicate 16 0).

Definition new_from_v4 (v4_address : bytes) : IpAddress :=
  mkIpAddress [0; 0; 0; 0; 0; 0; 0; 0; 0; 0; 0xff; 0xff;
               v4_address !!! 0%nat; v4_address !!! 1%nat; v4_address !!! 2%nat; v4_address !!! 3%nat].

Definition read_as_v4 (a : IpAddress) : bytes :=
  [v6 a !!! 12%nat; v6 a !!! 13%nat; v6 a !!! 14%nat; v6 a !!! 15%nat].

Definition is_v4 (a : IpAddress) : bool :=
  (v6 a !!! 0%nat =? 0) && (v6 a !!! 1%nat =? 0) && (v6 a !!! 2%nat =? 0) && (v6 a !!! 3%nat =? 0)
  && (v6 a !!! 4%nat =? 0) && (v6 a !!! 5%nat =? 0) && (v6 a !!! 6%nat =? 0) && (v6 a !!! 7%nat =? 0)
  && (v6 a !!! 8%nat =? 0) && (v6 a !!! 9%nat =? 0)
  && (v6 a !!! 10%nat =? 0xff) && (v6 a !!! 11%nat =? 0xff).

Definition new_from_std_v4 (addr : Ipv4Addr) : IpAddress := new_from_v4 (octets4 addr).
Definition new_from_std_v6 (addr : Ipv6Addr) : IpAddress := mkIpAddress (octets6 addr).
Definition new_from_std (addr : IpAddr) : IpAddress :=
  match addr with V4 a => new_from_std_v4 a | V6 a => new_from_std_v6 a end.

Definition is_v6_unicast_link_local (a : IpAddress) : bool :=
  (v6 a !!! 0%nat =? 0xfe) && (Z.land (v6 a !!! 1%nat) 0xC0 =? 0x80).

(** [From] for [Ipv4Addr], [[u8; 4]], [Ipv6Addr], [[u8; 16]] and [IpAddr], and for
    references to them. *)
Definition from_Ipv4Addr (addr : Ipv4Addr) : IpAddress := new_from_std_v4 addr.
Definition from_Ipv4Addr_ref (addr : Ipv4Addr) : IpAddress := new_from_std_v4 addr.
Definition from_array4 (addr : bytes) : IpAddress := new_from_v4 addr.
Definition from_Ipv6Addr (addr : Ipv6Addr) : IpAddress := new_from_std_v6 addr.
Definition from_Ipv6Addr_ref (addr : Ipv6Addr) : IpAddress := new_from_std_v6 addr.
Definition from_array16 (addr : bytes) : IpAddress := mkIpAddress addr.
Definition from_IpAddr (addr : IpAddr) : IpAddress := new_from_std addr.
Definition from_IpAddr_ref (addr : IpAddr) : IpAddress := new_from_std addr.

(** [TryFrom<Vec<u8>>]; an error gives the vector back. *)
Definition try_from_vec (octets : bytes) : result IpAddress bytes :=
  match length octets with
  | 4%nat => Ok (from_array4 octets)
  | 16%nat => Ok (from_array16 octets)
  | _ => Err octets
  end.

(** [TryFrom<IpAddress> for Ipv4Addr], [From<IpAddress> for Ipv6Addr], [for IpAddr] *)
Definition to_ipv4 (a : IpAddress) : result Ipv4Addr unit :=
  if is_v4 a then Ok (mkIpv4 (read_as_v4 a)) else Err tt.
Definition to_ipv6 (a : IpAddress) : Ipv6Addr := mkIpv6 (v6 a).
Definition to_ip (a : IpAddress) : IpAddr :=
  if is_v4 a then V4 (mkIpv4 (read_as_v4 a)) else V6 (mkIpv6 (v6 a)).
Definition to_ip_ref (addr : IpAddress) : IpAddr := to_ip addr.

(** ** [ScopedIpAddr] *)

Record ScopedIpv6Addr := mkScoped6 { s6_ip : Ipv6Addr; s6_scope_id : Z }.
Inductive ScopedIpAddr := ScopedV4 (a : Ipv4Addr) | ScopedV6 (a : ScopedIpv6Addr).

Definition scoped6_new (ip : Ipv6Addr) (scope_id : Z) : ScopedIpv6Addr := mkScoped6 ip scope_id.
Definition scoped6_ip (a : ScopedIpv6Addr) : Ipv6Addr := s6_ip a.
Definition scoped6_scope_id (a : ScopedIpv6Addr) : Z := s6_scope_id a.

Definition scoped6_from (ip : Ipv6Addr) : ScopedIpv6Addr := mkScoped6 ip 0.
Definition scoped6_set_ip (a : ScopedIpv6Addr) (new_ip : Ipv6Addr) : ScopedIpv6Addr :=
  mkScoped6 new_ip (s6_scope_id a).
Definition scoped6_set_scope_id (a : ScopedIpv6Addr) (new_scope_id : Z) : ScopedIpv6Addr :=
  mkScoped6 (s6_ip a) new_scope_id.

Definition scoped_to_ip (a : ScopedIpAddr) : IpAddr :=
  match a with ScopedV4 a => V4 a | ScopedV6 a => V6 (s6_ip a) end.
Definition scoped_from (addr : IpAddr) : ScopedIpAddr :=
  match addr with V4 a => ScopedV4 a | V6 a => ScopedV6 (scoped6_from a) end.
Definition scoped_from_v4 (addr : Ipv4Addr) : ScopedIpAddr := ScopedV4 addr.
Definition scoped_from_scoped6 (addr : ScopedIpv6Addr) : ScopedIpAddr := ScopedV6 addr.
Definition scoped_from_v6 (addr : Ipv6Addr) : ScopedIpAddr := ScopedV6 (scoped6_from addr).

(** [SocketAddrExt] *)
Definition scoped_ip (s : SocketAddr) : ScopedIpAddr :=
  match s with
  | SockV4 a _ => ScopedV4 a
  | SockV6 a _ _ scope_id => ScopedV6 (scoped6_new a scope_id)
  end.

Definition set_scoped_ip (s : SocketAddr) (new_ip : ScopedIpAddr) : outcome SocketAddr :=
  match new_ip with
  | ScopedV4 a => Ret (set_ip s (V4 a))
  | ScopedV6 sv6 =>
      match set_ip s (V6 (s6_ip sv6)) with
      | SockV4 _ _ => Panic
      | SockV6 a p f _ => Ret (SockV6 a p f (s6_scope_id sv6))
      end
  end.

(** ** The unit tests of the conversion from vectors *)

(** [assert_eq!(IpAddress::from(octets), IpAddress::try_from(vec).expect(..))],
    of the arrays of both sizes. *)
Definition converts_like (array : bytes -> IpAddress) (octets : bytes) : outcome unit :=
  match try_from_vec octets with
  | Ok a => assert! bool_decide (v6 (array octets) = v6 a) ;; Ret tt
  | Err _ => Panic
  end.

Definition test_vec_to_ip_address_v4 : outcome unit :=
  converts_like from_array4 [0x01; 0x02; 0x03; 0x04].
Definition test_vec_to_ip_address_v6 : outcome unit :=
  converts_like from_array16
    [0x01; 0x02; 0x03; 0x04; 0x05; 0x06; 0x07; 0x08; 0x09; 0x0a; 0x0b; 0x0c; 0x0d; 0x0e; 0x0f; 0x10].
Definition test_vec_to_ip_address_invalid : outcome unit :=
  match try_from_vec [0x01; 0x02; 0x03; 0x04; 0x05; 0x06; 0x07; 0x08; 0x09] with
  | Ok _ => Panic
  | Err _ => Ret tt
  end.

Example vec_tests_pass :
  test_vec_to_ip_address_v4 = Ret tt /\ test_vec_to_ip_address_v6 = Ret tt
  /\ test_vec_to_ip_address_invalid = Ret tt.
Proof. repeat split; vm_compute; reflexivity. Qed.

(** ** Facts *)

Lemma array4 l : is_array 4 l -> exists a b c d, l = [a; b; c; d].
Proof. intros [Hl _]. destruct l as [|a [|b [|c [|d [|]]]]]; try done. eauto. Qed.

Lemma is_v4_mapped a : is_array 16 (v6 a) -> is_v4 a = true ->
  v6 a = [0; 0; 0; 0; 0; 0; 0; 0; 0; 0; 0xff; 0xff] ++ read_as_v4 a.
Proof.
  intros [Hl _]. destruct a as [l]; cbn in *.
  do 16 (destruct l as [|? l]; [done|]). destruct l; [|done].
  unfold is_v4, read_as_v4; cbn. rewrite !andb_true_iff, !Z.eqb_eq. intros H.
  destruct H as [[[[[[[[[[[]]]]]]]]]]]. by subst.
Qed.

Lemma new_from_v4_is_v4 l : is_v4 (new_from_v4 l) = true.
Proof. reflexivity. Qed.

Lemma read_new_from_v4 l : is_array 4 l -> read_as_v4 (new_from_v4 l) = l.
Proof. intros (a & b & c & d & ->)%array4. reflexivity. Qed.

Lemma new_from_read_v4 a : is_array 16 (v6 a) -> is_v4 a = true -> new_from_v4 (read_as_v4 a) = a.
Proof.
  intros Hl Ha. pose proof (is_v4_mapped a Hl Ha) as H. destruct a as [l].
  transitivity (mkIpAddress ([0; 0; 0; 0; 0; 0; 0; 0; 0; 0; 0xff; 0xff] ++ read_as_v4 (mkIpAddress l))).
  - reflexivity.
  - f_equal. symmetry. exact H.
Qed.

(** ** Theorems *)

(** The flat address represents every address: converting from [IpAddr] and back
    is the identity, except that the IPv4-mapped IPv6 addresses come back as the
    IPv4 addresses they map; converting a flat address to [IpAddr] and back is
    always the identity; and the conversion to [Ipv4Addr] succeeds exactly on
    what comes from one. *)
Lemma ip_conversions (addr : IpAddr) (a : IpAddress) :
  ip_wf addr -> is_array 16 (v6 a) ->
  (to_ip (new_from_std addr) = addr
   \/ exists o, addr = V6 (mkIpv6 ([0; 0; 0; 0; 0; 0; 0; 0; 0; 0; 0xff; 0xff] ++ o))
        /\ to_ip (new_from_std addr) = V4 (mkIpv4 o))
  /\ new_from_std (to_ip a) = a
  /\ (forall v4, to_ipv4 (new_from_std (V4 v4)) = Ok v4 \/ ~ ip_wf (V4 v4))
  /\ (forall v4, to_ipv4 a = Ok v4 -> new_from_std (V4 v4) = a).
Proof.
  intros Haddr Ha. split; [|split; [|split]].
  - destruct addr as [[l]|[l]]; cbn in Haddr.
    + left. unfold to_ip, new_from_std, new_from_std_v4. cbn [octets4]. rewrite new_from_v4_is_v4.
      by rewrite read_new_from_v4.
    + unfold to_ip, new_from_std, new_from_std_v6. cbn [octets6 v6].
      destruct (is_v4 (mkIpAddress l)) eqn:Hv; [right|by left].
      exists (read_as_v4 (mkIpAddress l)). split; [|done]. do 2 f_equal. by apply (is_v4_mapped (mkIpAddress l)).
  - unfold to_ip. destruct (is_v4 a) eqn:Hv; cbn.
    + by apply new_from_read_v4.
    + by destruct a.
  - intros [l]. destruct (decide (ip_wf (V4 (mkIpv4 l)))) as [Hw|]; [left|by right].
    unfold to_ipv4. cbn [new_from_std new_from_std_v4 octets4]. unfold new_from_std_v4; cbn [octets4].
    rewrite new_from_v4_is_v4. by rewrite read_new_from_v4.
  - intros v4. unfold to_ipv4. destruct (is_v4 a) eqn:Hv; [|done]. intros [= <-].
    by apply new_from_read_v4.
Qed.

(** Setting the scoped address of a socket address never panics;
    it is the one read back, scope identifier included; the port is kept; and
    setting the address it already has changes nothing. *)
Theorem scoped_ip_roundtrip (s : SocketAddr) (ip : ScopedIpAddr) :
  exists s', set_scoped_ip s ip = Ret s' /\ scoped_ip s' = ip /\ sock_port s' = sock_port s
    /\ set_scoped_ip s (scoped_ip s) = Ret s.
Proof. destruct s as [a p|a p f sc], ip as [b|[b sc']]; cbn; eexists; repeat split. Qed.
