(* ===== verification/NetText.v ===== *)
(** The text of the addresses of zpr-utils/src/net_defs.rs: their [Display] and
    [Debug], on top of those of the standard library's addresses.  The text is
    what [{}] gives: without a width or a precision. *)

From S2P Require Import Prelude NetDefs.
From Stdlib Require Import Ascii.
From Stdlib Require String.
Import String.StringSyntax.

Abbreviation text := (list ascii).
Definition txt (s : String.string) : text := String.list_ascii_of_string s.
Arguments txt s%_string_scope.

Definition colon : ascii := ":".
Definition dot : ascii := ".".
Definition percent : ascii := "%".

(** ** The standard library *)

(** Numbers, as [{}] (base 10) and [{:x}] (base 16) print them. *)
Definition digit (d : Z) : ascii := ascii_of_N (Z.to_N (if d <? 10 then 48 + d else 87 + d)).

Fixpoint digits (fuel : nat) (base n : Z) (acc : text) : text :=
  match fuel with
  | O => acc
  | S fuel' =>
      let acc' := digit (n mod base) :: acc in
      if n <? base then acc' else digits fuel' base (n / base) acc'
  end.

(** As many iterations as the number has bits are enough. *)
Definition fmt_num (base n : Z) : text := digits (S (Z.to_nat (Z.log2 n))) base n [].

(** [<Ipv4Addr as Display>::fmt] *)
Definition fmt_v4 (a : Ipv4Addr) : text :=
  fmt_num 10 (octets4 a !!! 0%nat) ++ dot :: fmt_num 10 (octets4 a !!! 1%nat)
    ++ dot :: fmt_num 10 (octets4 a !!! 2%nat) ++ dot :: fmt_num 10 (octets4 a !!! 3%nat).

(** [Ipv6Addr::segments] and [to_ipv4_mapped] *)
Fixpoint segments (l : bytes) : list Z :=
  match l with hi :: lo :: l' => hi * 256 + lo :: segments l' | _ => [] end.

Definition mapped_prefix : bytes := [0; 0; 0; 0; 0; 0; 0; 0; 0; 0; 0xff; 0xff].

Definition to_ipv4_mapped (a : Ipv6Addr) : option Ipv4Addr :=
  if decide (take 12 (octets6 a) = mapped_prefix) then Some (mkIpv4 (drop 12 (octets6 a))) else None.

(** The first of the longest runs of zeros. *)
Record span := mkSpan { sp_start : nat; sp_len : nat }.

Fixpoint zero_span (i : nat) (segs : list Z) (longest current : span) : span :=
  match segs with
  | [] => longest
  | segment :: segs' =>
      if segment =? 0 then
        let start := if (sp_len current =? 0)%nat then i else sp_start current in
        let current' := mkSpan start (S (sp_len current)) in
        let longest' := if (sp_len longest <? sp_len current')%nat then current' else longest in
        zero_span (S i) segs' longest' current'
      else zero_span (S i) segs' longest (mkSpan 0 0)
  end.

Fixpoint fmt_subslice (chunk : list Z) : text :=
  match chunk with
  | [] => []
  | [first] => fmt_num 16 first
  | first :: tail => fmt_num 16 first ++ colon :: fmt_subslice tail
  end.

Definition fmt_segments (segs : list Z) : text :=
  let zeroes := zero_span 0 segs (mkSpan 0 0) (mkSpan 0 0) in
  if (1 <? sp_len zeroes)%nat then
    fmt_subslice (take (sp_start zeroes) segs) ++ colon :: colon
      :: fmt_subslice (drop (sp_start zeroes + sp_len zeroes) segs)
  else fmt_subslice segs.

(** [<Ipv6Addr as Display>::fmt] *)
Definition fmt_v6 (a : Ipv6Addr) : text :=
  match to_ipv4_mapped a with
  | Some ipv4 => txt "::ffff:" ++ fmt_v4 ipv4
  | None => fmt_segments (segments (octets6 a))
  end.

(** ** The addresses of the source *)

Definition fmt_IpAddress (a : IpAddress) : text := fmt_v6 (to_ipv6 a).

Definition debug_IpAddress (a : IpAddress) : text :=
  if is_v4 a then txt "IpAddress(V4: " ++ fmt_IpAddress a ++ txt ")"
  else txt "IpAddress(V6: " ++ fmt_IpAddress a ++ txt ")".

Definition fmt_ScopedIpv6Addr (a : ScopedIpv6Addr) : text :=
  fmt_v6 (s6_ip a) ++ (if negb (s6_scope_id a =? 0) then percent :: fmt_num 10 (s6_scope_id a) else []).

Definition fmt_ScopedIpAddr (a : ScopedIpAddr) : text :=
  match a with ScopedV4 v4 => fmt_v4 v4 | ScopedV6 v6 => fmt_ScopedIpv6Addr v6 end.

Definition scoped_wf (a : ScopedIpAddr) : Prop :=
  match a with
  | ScopedV4 v4 => is_array 4 (octets4 v4)
  | ScopedV6 v6 => is_array 16 (octets6 (s6_ip v6)) /\ is_uint 32 (s6_scope_id v6)
  end.

Example fmt_examples :
  fmt_ScopedIpAddr (ScopedV4 (mkIpv4 [10; 0; 0; 255])) = txt "10.0.0.255"
  /\ fmt_ScopedIpAddr (ScopedV6 (mkScoped6 (mkIpv6 ([0xfe; 0x80; 0; 0; 0; 0; 0; 0; 2; 0; 0; 0; 0; 0; 0; 1])) 3))
     = txt "fe80::200:0:0:1%3"
  /\ fmt_IpAddress UNSPECIFIED = txt "::"
  /\ debug_IpAddress (new_from_v4 [10; 0; 0; 1]) = txt "IpAddress(V4: ::ffff:10.0.0.1)".
Proof. repeat split. Qed.

(** ** Reading numbers back *)

Definition plain (c : ascii) : Prop := c <> colon /\ c <> dot /\ c <> percent.

Definition value (c : ascii) : Z :=
  let k := Z.of_N (N_of_ascii c) in if k <? 58 then k - 48 else k - 87.

Definition read (base : Z) (l : text) : Z := fold_left (fun a c => a * base + value c) l 0.

Lemma digit_facts d : 0 <= d < 16 -> value (digit d) = d /\ plain (digit d).
Proof.
  intros Hd. assert (Forall (fun d => value (digit d) = d /\ plain (digit d)) (seqZ 0 16)) as H.
  { cbn. repeat (constructor; [by split|]). constructor. }
  rewrite Forall_forall in H. apply H, elem_of_seqZ. lia.
Qed.

Lemma digits_spec base fuel n acc : 2 <= base <= 16 -> 0 <= n < 2 ^ Z.of_nat (S fuel) ->
  exists l, digits (S fuel) base n acc = l ++ acc /\ read base l = n /\ l <> [] /\ Forall plain l.
Proof.
  intros Hb. revert n acc. induction fuel as [|fuel IH]; intros n acc Hn;
    (assert (0 <= n mod base < 16) as Hm by (pose proof (Z.mod_pos_bound n base); lia));
    destruct (digit_facts _ Hm) as [Hv Hp]; cbn [digits]; destruct (Z.ltb_spec n base) as [Hlt|Hge].
  1,3: exists [digit (n mod base)]; unfold read; cbn; rewrite Hv, Z.mod_small in * by lia;
    repeat split; try done; by constructor.
  - change (2 ^ Z.of_nat 1) with 2 in Hn. lia.
  - destruct (IH (n / base) (digit (n mod base) :: acc)) as (l & Hl & Hr & Hne & Hall).
    { split; [apply Z.div_pos; lia|]. apply Z.div_lt_upper_bound; [lia|].
      rewrite Nat2Z.inj_succ, Z.pow_succ_r in Hn by lia. nia. }
    cbn [digits] in Hl. exists (l ++ [digit (n mod base)]). rewrite Hl, <- app_assoc. split; [done|].
    split; [|split; [by destruct l|by apply Forall_app; auto]].
    unfold read in *. rewrite fold_left_app. cbn. rewrite Hr, Hv, Z.mul_comm.
    symmetry. apply Z.div_mod. lia.
Qed.

Lemma fmt_num_spec base n : 2 <= base <= 16 -> 0 <= n ->
  read base (fmt_num base n) = n /\ fmt_num base n <> [] /\ Forall plain (fmt_num base n).
Proof.
  intros Hb Hn. destruct (digits_spec base (Z.to_nat (Z.log2 n)) n [] Hb) as (l & Hl & H).
  - split; [done|]. rewrite Nat2Z.inj_succ, Z2Nat.id by apply Z.log2_nonneg.
    destruct (Z.eq_dec n 0) as [->|]; [done|]. apply Z.log2_spec. lia.
  - unfold fmt_num. by rewrite Hl, app_nil_r.
Qed.

(** ** Splitting a text at a character *)

Fixpoint split (c : ascii) (l : text) : list text :=
  match l with
  | [] => [[]]
  | x :: l' =>
      if decide (x = c) then [] :: split c l'
      else match split c l' with p :: ps => (x :: p) :: ps | [] => [[x]] end
  end.

Lemma split_app c l1 l2 : split c (l1 ++ c :: l2) = split c l1 ++ split c l2.
Proof.
  induction l1 as [|x l1 IH]; cbn; [by rewrite decide_True|]. rewrite IH.
  case_decide; [done|]. destruct (split c l1) eqn:E; [|done].
  destruct l1 as [|y l1]; cbn in E; [done|]. case_decide; [done|]. by destruct (split c l1).
Qed.

Lemma split_whole c l : c ∉ l -> split c l = [l].
Proof.
  induction l as [|x l IH]; cbn; [done|]. intros [Hx Hl]%not_elem_of_cons.
  rewrite decide_False by congruence. by rewrite IH.
Qed.

Lemma plain_not_in l : Forall plain l -> (colon ∉ l) /\ (dot ∉ l) /\ percent ∉ l.
Proof.
  rewrite Forall_forall. intros H.
  repeat split; intros Hin; destruct (H _ Hin) as (? & ? & ?); congruence.
Qed.

(** The leading nonempty pieces. *)
Fixpoint heads (l : list text) : list text :=
  match l with [] | [] :: _ => [] | p :: l' => p :: heads l' end.

Lemma heads_all l : Forall (fun p => p <> []) l -> heads l = l.
Proof. induction 1 as [|p l Hp _ IH]; [done|]. destruct p; [done|]. cbn. by rewrite IH. Qed.

Lemma heads_app l l' : Forall (fun p => p <> []) l -> heads (l ++ [] :: l') = l.
Proof. induction 1 as [|p l Hp _ IH]; [done|]. destruct p; [done|]. cbn. by rewrite IH. Qed.

(** ** IPv4 *)

Definition u16s (l : list Z) : Prop := Forall (fun s => 0 <= s) l.

Ltac num n := pose proof (fmt_num_spec 10 n) as (? & ? & (? & ? & ?)%plain_not_in); [lia|lia|].

Lemma fmt_v4_read a : is_array 4 (octets4 a) -> read 10 <$> split dot (fmt_v4 a) = octets4 a.
Proof.
  destruct a as [l]; cbn [octets4]. intros Ha. pose proof (array4 l Ha) as (a & b & c & d & ->).
  destruct Ha as [_ Ha]. rewrite !Forall_cons in Ha. destruct Ha as (? & ? & ? & ? & _).
  unfold is_uint in *. unfold fmt_v4; cbn [octets4 lookup_total list_lookup_total].
  num a. num b. num c. num d. rewrite !split_app, !split_whole by done. cbn [app fmap list_fmap]. by repeat f_equal.
Qed.

Lemma fmt_v4_inj a b : is_array 4 (octets4 a) -> is_array 4 (octets4 b) -> fmt_v4 a = fmt_v4 b -> a = b.
Proof.
  intros Ha%fmt_v4_read Hb%fmt_v4_read Heq. destruct a, b; cbn in *. f_equal. by rewrite <- Ha, <- Hb, Heq.
Qed.

Lemma fmt_v4_chars a : is_array 4 (octets4 a) -> dot ∈ fmt_v4 a /\ (colon ∉ fmt_v4 a) /\ percent ∉ fmt_v4 a.
Proof.
  destruct a as [l]; cbn [octets4]. intros Ha. pose proof (array4 l Ha) as (a & b & c & d & ->).
  destruct Ha as [_ Ha]. rewrite !Forall_cons in Ha. destruct Ha as (? & ? & ? & ? & _).
  unfold is_uint in *. unfold fmt_v4; cbn [octets4 lookup_total list_lookup_total].
  num a. num b. num c. num d. split; [apply elem_of_app; right; by left|].
  repeat rewrite ?not_elem_of_app, ?not_elem_of_cons. split_and!; (done || discriminate).
Qed.

(** ** The run of zeros *)

Definition zeros_at (segs : list Z) (s : span) : Prop :=
  (sp_start s + sp_len s <= length segs)%nat
  /\ forall j, (sp_start s <= j < sp_start s + sp_len s)%nat -> segs !! j = Some 0.

Lemma zero_span_sound segs done_ rest longest current :
  segs = done_ ++ rest -> zeros_at segs longest -> zeros_at segs current ->
  (sp_len current = 0 \/ sp_start current + sp_len current = length done_)%nat ->
  zeros_at segs (zero_span (length done_) rest longest current).
Proof.
  revert done_ longest current. induction rest as [|x rest IH]; intros done_ longest current Hs Hl Hc He; [done|].
  assert (segs = (done_ ++ [x]) ++ rest) as Hs' by (by rewrite <- app_assoc).
  assert (S (length done_) = length (done_ ++ [x])) as Hlen by (rewrite length_app; cbn; lia).
  assert (segs !! length done_ = Some x) as Hx by (rewrite Hs; by apply list_lookup_middle).
  apply lookup_lt_Some in Hx as Hlt. cbn [zero_span]. rewrite Hlen.
  destruct (Z.eqb_spec x 0) as [->|Hne].
  2:{ apply IH; try done; [|by left]. split; cbn; lia. }
  set (start := if (sp_len current =? 0)%nat then length done_ else sp_start current).
  assert (start + sp_len current = length done_)%nat as Hstart
    by (unfold start; destruct (Nat.eqb_spec (sp_len current) 0); lia).
  assert (zeros_at segs (mkSpan start (S (sp_len current)))) as Hc'.
  { destruct Hc as [_ Hc]. split; cbn; [lia|]. intros j Hj.
    destruct (decide (j = length done_)) as [->|]; [done|]. apply Hc. unfold start in *.
    destruct (Nat.eqb_spec (sp_len current) 0); lia. }
  apply IH; try done.
  - by destruct (sp_len longest <? _)%nat.
  - right. cbn. rewrite <- Hlen. lia.
Qed.

Lemma zeros_split segs s : zeros_at segs s ->
  segs = take (sp_start s) segs ++ replicate (sp_len s) 0 ++ drop (sp_start s + sp_len s) segs.
Proof.
  intros [Hle Hz]. rewrite <- (take_drop (sp_start s) segs) at 1. f_equal.
  rewrite <- (take_drop (sp_len s) (drop (sp_start s) segs)), drop_drop. f_equal.
  apply list_eq_same_length with (sp_len s).
  - by rewrite length_replicate.
  - rewrite length_take, length_drop. lia.
  - intros i x y Hi. rewrite lookup_take_lt, lookup_drop, Hz, lookup_replicate by lia.
    by intros [= <-] [-> _].
Qed.

(** ** IPv6 *)

Definition decode (pieces : list text) : list Z :=
  let pre := heads pieces in
  let post := rev (heads (rev pieces)) in
  if decide (length pre = length pieces) then read 16 <$> pre
  else (read 16 <$> pre) ++ replicate (8 - length pre - length post) 0 ++ (read 16 <$> post).

Definition pieces (chunk : list Z) : list text := split colon (fmt_subslice chunk).

Lemma pieces_cons s chunk : u16s (s :: chunk) -> pieces (s :: chunk) = fmt_num 16 <$> s :: chunk.
Proof.
  revert s. induction chunk as [|s' chunk IH]; intros s [Hs Hall]%Forall_cons;
    destruct (fmt_num_spec 16 s) as (_ & _ & (Hc & _)%plain_not_in); try lia.
  - unfold pieces. cbn. by rewrite split_whole.
  - unfold pieces in *.
    change (fmt_subslice (s :: s' :: chunk)) with (fmt_num 16 s ++ colon :: fmt_subslice (s' :: chunk)).
    rewrite split_app, (split_whole _ (fmt_num 16 s)) by done.
    by rewrite IH.
Qed.

Lemma hexes chunk : u16s chunk ->
  Forall (fun p => p <> []) (fmt_num 16 <$> chunk) /\ read 16 <$> (fmt_num 16 <$> chunk) = chunk.
Proof.
  induction 1 as [|s chunk Hs _ [IH1 IH2]]; [by split; constructor|].
  destruct (fmt_num_spec 16 s) as (Hr & Hne & _); try lia. rewrite !fmap_cons, IH2, Hr. split; [by constructor|done].
Qed.

Lemma heads_pieces chunk l : u16s chunk -> heads (pieces chunk ++ [] :: l) = fmt_num 16 <$> chunk.
Proof.
  intros H. destruct chunk as [|s chunk]; [done|]. rewrite pieces_cons by done. by apply heads_app, hexes.
Qed.

Lemma heads_rev_pieces chunk l : u16s chunk ->
  rev (heads (rev (l ++ [] :: pieces chunk))) = fmt_num 16 <$> chunk.
Proof.
  intros H. rewrite rev_app_distr. cbn [rev]. rewrite <- app_assoc. destruct chunk as [|s chunk]; [done|].
  rewrite pieces_cons by done. cbn [app]. rewrite heads_app; [apply rev_involutive|].
  apply Forall_rev, hexes. exact H.
Qed.

Lemma decode_segments segs : length segs = 8%nat -> u16s segs -> decode (split colon (fmt_segments segs)) = segs.
Proof.
  intros Hlen Hall. unfold fmt_segments.
  pose proof (zero_span_sound segs [] segs (mkSpan 0 0) (mkSpan 0 0) eq_refl) as Hz. cbn in Hz.
  set (z := zero_span 0 segs _ _) in *.
  assert (zeros_at segs z) as Hzz by (apply Hz; [split; cbn; lia..|by left]). clear Hz.
  destruct (Nat.ltb_spec 1 (sp_len z)) as [Hlt|Hge].
  - pose proof (zeros_split _ _ Hzz) as Hs. destruct Hzz as [Hle _].
    rewrite split_app. change (split colon (colon :: ?l)) with ([] :: split colon l).
    fold (pieces (take (sp_start z) segs)) (pieces (drop (sp_start z + sp_len z) segs)).
    unfold decode. rewrite heads_pieces, heads_rev_pieces by (by apply Forall_take || by apply Forall_drop).
    destruct (hexes (take (sp_start z) segs)) as [_ ->]; [by apply Forall_take|].
    destruct (hexes (drop (sp_start z + sp_len z) segs)) as [_ ->]; [by apply Forall_drop|].
    rewrite decide_False.
    2:{ rewrite length_app, length_fmap. cbn. destruct (take (sp_start z) segs) as [|x l] eqn:El; [cbn; lia|].
        rewrite pieces_cons, length_fmap by (rewrite <- El; by apply Forall_take). lia. }
    rewrite !length_fmap, length_take, length_drop.
    replace (8 - _ - _)%nat with (sp_len z) by lia. by symmetry.
  - fold (pieces segs). destruct segs as [|s segs]; [done|]. rewrite pieces_cons by done.
    destruct (hexes (s :: segs)) as [Hne Hr]; [done|]. unfold decode. rewrite heads_all by done.
    by rewrite decide_True.
Qed.

Lemma u16s_segments a : Forall (fun b => is_u8 b) a -> u16s (segments a).
Proof.
  unfold is_uint, u16s. revert a. fix IH 1. intros [|hi [|lo a]]; [by constructor..|].
  rewrite !Forall_cons. intros (? & ? & Ha). cbn [segments]. constructor; [lia|]. by apply IH.
Qed.

Lemma segments_inj a b : is_array 16 a -> is_array 16 b -> segments a = segments b -> a = b.
Proof.
  assert (forall n a b, length a = (2 * n)%nat -> length b = (2 * n)%nat ->
    Forall (fun b => is_u8 b) a -> Forall (fun b => is_u8 b) b -> segments a = segments b -> a = b) as H.
  { clear. unfold is_uint. induction n as [|n IH]; intros a b Ha Hb; [by destruct a, b|].
    destruct a as [|x [|y a]], b as [|x' [|y' b]]; cbn in Ha, Hb; try lia.
    rewrite !Forall_cons. intros (? & ? & Ha') (? & ? & Hb'). cbn [segments]. intros [= Hxy Hs].
    assert (x = x' /\ y = y') as [-> ->] by lia. do 2 f_equal. apply IH; try done; lia. }
  intros [Ha Ha'] [Hb Hb']. by apply (H 8%nat).
Qed.

Lemma segments_length a : length a = 16%nat -> length (segments a) = 8%nat.
Proof. do 16 (destruct a as [|? a]; [done|]). by destruct a. Qed.

Lemma fmt_subslice_chars chunk : u16s chunk -> Forall (fun c => plain c \/ c = colon) (fmt_subslice chunk).
Proof.
  induction 1 as [|s chunk Hs _ IH]; [constructor|].
  assert (Forall (fun c => plain c \/ c = colon) (fmt_num 16 s)) as Hn.
  { eapply Forall_impl; [apply fmt_num_spec; lia|]. by left. }
  destruct chunk as [|s' chunk]; [exact Hn|].
  change (fmt_subslice (s :: s' :: chunk)) with (fmt_num 16 s ++ colon :: fmt_subslice (s' :: chunk)).
  apply Forall_app. split; [done|]. constructor; [by right|done].
Qed.

Lemma fmt_segments_chars segs : (1 < length segs)%nat -> u16s segs ->
  colon ∈ fmt_segments segs /\ (dot ∉ fmt_segments segs) /\ percent ∉ fmt_segments segs.
Proof.
  intros Hlen Hall. assert (Forall (fun c => plain c \/ c = colon) (fmt_segments segs)) as H.
  { unfold fmt_segments. case_match; [|by apply fmt_subslice_chars].
    apply Forall_app. split; [by apply fmt_subslice_chars, Forall_take|].
    do 2 (constructor; [by right|]). by apply fmt_subslice_chars, Forall_drop. }
  rewrite Forall_forall in H. split.
  - unfold fmt_segments. case_match; [apply elem_of_app; right; by left|].
    destruct segs as [|s [|s' segs]]; cbn in Hlen; [lia..|].
    change (fmt_subslice (s :: s' :: segs)) with (fmt_num 16 s ++ colon :: fmt_subslice (s' :: segs)).
    apply elem_of_app. right. by left.
  - split; intros [(? & ? & ?)|[=]]%H; congruence.
Qed.

Lemma to_ipv4_mapped_Some a v4 : is_array 16 (octets6 a) -> to_ipv4_mapped a = Some v4 ->
  octets6 a = mapped_prefix ++ octets4 v4 /\ is_array 4 (octets4 v4).
Proof.
  unfold to_ipv4_mapped. case_decide as Hp; [|done]. intros [Hl Ha] [= <-]. cbn [octets4].
  split; [by rewrite <- Hp, take_drop|]. split; [by rewrite length_drop, Hl|by apply Forall_drop].
Qed.

Lemma fmt_v6_chars a : is_array 16 (octets6 a) ->
  colon ∈ fmt_v6 a /\ (percent ∉ fmt_v6 a) /\ (dot ∈ fmt_v6 a <-> is_Some (to_ipv4_mapped a)).
Proof.
  intros Ha. unfold fmt_v6. destruct (to_ipv4_mapped a) as [v4|] eqn:E.
  - destruct (to_ipv4_mapped_Some _ _ Ha E) as [_ Hv]. destruct (fmt_v4_chars _ Hv) as (Hd & _ & Hp).
    split; [by left|]. split; [|split; [by eauto|by intros _; apply elem_of_app; right]].
    rewrite not_elem_of_app. split; [by_decide|done].
  - destruct Ha as [Hl Ha]. destruct (fmt_segments_chars (segments (octets6 a))) as (? & ? & ?);
      [by rewrite segments_length; [lia|]|by apply u16s_segments|].
    split; [done|]. split; [done|]. split; [done|by intros [? ?]].
Qed.

Lemma fmt_v6_inj a b : is_array 16 (octets6 a) -> is_array 16 (octets6 b) -> fmt_v6 a = fmt_v6 b -> a = b.
Proof.
  intros Ha Hb Heq.
  assert (is_Some (to_ipv4_mapped a) <-> is_Some (to_ipv4_mapped b)) as Hm.
  { destruct (fmt_v6_chars a Ha) as (_ & _ & <-), (fmt_v6_chars b Hb) as (_ & _ & <-). by rewrite Heq. }
  unfold fmt_v6 in Heq. destruct a as [a], b as [b]; cbn [octets6] in *. f_equal.
  destruct (to_ipv4_mapped (mkIpv6 a)) as [v|] eqn:Ea, (to_ipv4_mapped (mkIpv6 b)) as [w|] eqn:Eb.
  - destruct (to_ipv4_mapped_Some (mkIpv6 a) _ Ha Ea) as [Hva Hv], (to_ipv4_mapped_Some (mkIpv6 b) _ Hb Eb) as [Hwb Hw].
    cbn [octets6] in *. apply app_inv_head in Heq. apply fmt_v4_inj in Heq as ->; [|done..]. congruence.
  - destruct (proj1 Hm) as [? ?]; [by eauto|done].
  - destruct (proj2 Hm) as [? ?]; [by eauto|done].
  - apply segments_inj; [done..|].
    rewrite <- (decode_segments (segments a)), <- (decode_segments (segments b)), Heq; try done;
      first [apply segments_length, Ha|apply segments_length, Hb|apply u16s_segments, Ha|apply u16s_segments, Hb].
Qed.

Lemma fmt_scoped6_inj a b :
  scoped_wf (ScopedV6 a) -> scoped_wf (ScopedV6 b) -> fmt_ScopedIpv6Addr a = fmt_ScopedIpv6Addr b -> a = b.
Proof.
  destruct a as [a sa], b as [b sb]. cbn. unfold is_uint. intros [Ha Hsa] [Hb Hsb] Heq.
  destruct (fmt_v6_chars a Ha) as (_ & Hpa & _), (fmt_v6_chars b Hb) as (_ & Hpb & _).
  destruct (fmt_num_spec 10 sa) as (Hra & _ & (_ & _ & Hna)%plain_not_in); [lia..|].
  destruct (fmt_num_spec 10 sb) as (Hrb & _ & (_ & _ & Hnb)%plain_not_in); [lia..|].
  unfold fmt_ScopedIpv6Addr in Heq. cbn [s6_ip s6_scope_id] in Heq. apply (f_equal (split percent)) in Heq.
  destruct (Z.eqb_spec sa 0), (Z.eqb_spec sb 0); cbn [negb] in Heq;
    rewrite ?app_nil_r, ?split_app, !split_whole in Heq by done; try done; injection Heq as Hf.
  all: apply fmt_v6_inj in Hf as ->; try done; congruence.
Qed.

Lemma fmt_scoped_inj a b :
  scoped_wf a -> scoped_wf b -> fmt_ScopedIpAddr a = fmt_ScopedIpAddr b -> a = b.
Proof.
  assert (forall v w, is_array 4 (octets4 v) -> scoped_wf (ScopedV6 w) -> fmt_v4 v <> fmt_ScopedIpv6Addr w) as Hne.
  { intros v w Hv [Hw _] Heq. destruct (fmt_v4_chars v Hv) as (_ & Hc & _). apply Hc. rewrite Heq.
    apply elem_of_app. left. by apply fmt_v6_chars. }
  destruct a as [v|v], b as [w|w]; cbn [fmt_ScopedIpAddr]; intros Ha Hb Heq.
  - f_equal. by apply fmt_v4_inj.
  - by destruct (Hne v w).
  - by destruct (Hne w v).
  - f_equal. by apply fmt_scoped6_inj.
Qed.

Lemma fmt_IpAddress_inj a b :
  is_array 16 (v6 a) -> is_array 16 (v6 b) -> fmt_IpAddress a = fmt_IpAddress b -> a = b.
Proof. intros Ha Hb Heq%fmt_v6_inj; try done. destruct a, b. by injection Heq as ->. Qed.

Lemma debug_IpAddress_inj a b :
  is_array 16 (v6 a) -> is_array 16 (v6 b) -> debug_IpAddress a = debug_IpAddress b -> a = b.
Proof.
  intros Ha Hb. unfold debug_IpAddress.
  destruct (is_v4 a), (is_v4 b); try done; intros Heq%app_inv_head%app_inv_tail; by apply fmt_IpAddress_inj.
Qed.

(** ** Theorems *)

(** C34 (roundtrip). Nothing is lost about an address.  The flat address
    represents every address: converting from [IpAddr] and back is the identity,
    except that the IPv4-mapped IPv6 addresses come back as the IPv4 addresses
    they map; converting a flat address to [IpAddr] and back is always the
    identity; and the conversion to [Ipv4Addr] succeeds exactly on what comes
    from one.  And the text identifies the address: two addresses that print
    the same are the same, scope identifier included. *)
Theorem ip_address_roundtrip (addr : IpAddr) (a b : IpAddress) (s s' : ScopedIpAddr) :
  ip_wf addr -> is_array 16 (v6 a) -> is_array 16 (v6 b) -> scoped_wf s -> scoped_wf s' ->
  (to_ip (new_from_std addr) = addr
   \/ exists o, addr = V6 (mkIpv6 ([0; 0; 0; 0; 0; 0; 0; 0; 0; 0; 0xff; 0xff] ++ o))
        /\ to_ip (new_from_std addr) = V4 (mkIpv4 o))
  /\ new_from_std (to_ip a) = a
  /\ (forall v4, to_ipv4 (new_from_std (V4 v4)) = Ok v4 \/ ~ ip_wf (V4 v4))
  /\ (forall v4, to_ipv4 a = Ok v4 -> new_from_std (V4 v4) = a)
  /\ (fmt_IpAddress a = fmt_IpAddress b -> a = b)
  /\ (debug_IpAddress a = debug_IpAddress b -> a = b)
  /\ (fmt_ScopedIpAddr s = fmt_ScopedIpAddr s' -> s = s').
Proof.
  intros Haddr Ha Hb Hs Hs'. destruct (ip_conversions addr a Haddr Ha) as (H1 & H2 & H3 & H4).
  split_and!; [done..|by apply fmt_IpAddress_inj|by apply debug_IpAddress_inj|by apply fmt_scoped_inj].
Qed.

Lemma ip_address_roundtrip_witness :
  to_ip (new_from_std (V4 (mkIpv4 [10; 0; 0; 1]))) = V4 (mkIpv4 [10; 0; 0; 1])
  /\ new_from_std (to_ip UNSPECIFIED) = UNSPECIFIED
  /\ (fmt_ScopedIpAddr (ScopedV4 (mkIpv4 [10; 0; 0; 1]))
        = fmt_ScopedIpAddr (ScopedV6 (mkScoped6 (mkIpv6 (replicate 16 0)) 3)) ->
      ScopedV4 (mkIpv4 [10; 0; 0; 1]) = ScopedV6 (mkScoped6 (mkIpv6 (replicate 16 0)) 3)).
Proof.
  destruct (ip_address_roundtrip (V4 (mkIpv4 [10; 0; 0; 1])) UNSPECIFIED UNSPECIFIED
    (ScopedV4 (mkIpv4 [10; 0; 0; 1])) (ScopedV6 (mkScoped6 (mkIpv6 (replicate 16 0)) 3)))
    as ([H|(o & H & _)] & H2 & _ & _ & _ & _ & H3); [by_decide..|split; by_decide| |discriminate H].
  split; [exact H|]. split; [exact H2|exact H3].
Defined.
