(* ===== verification/NetChecksum.v ===== *)
(** The transport-layer checksum of zpr-utils/src/net_defs.rs, over the
    [ip4sum] crate. *)

From S2P Require Import Prelude NetDefs.

(** ** The Internet checksum (RFC 1071) *)

(** The sum of the big-endian 16-bit words; an odd byte is padded with zero. *)
Fixpoint word_sum (l : bytes) : Z :=
  match l with
  | [] => 0
  | [b] => 256 * b
  | b :: b' :: l' => 256 * b + b' + word_sum l'
  end.

(** The one's complement sum that a sum of words stands for. *)
Definition ones_sum (s : Z) : Z := if s =? 0 then 0 else (s - 1) mod 65535 + 1.

Definition internet_checksum (l : bytes) : Z := 65535 - ones_sum (word_sum l).

(** The chunks the crate takes before the last one. *)
Definition chunk (c : bytes) : Prop := Nat.Even (length c) /\ Forall (fun b => is_u8 b) c.

Definition be16 (x : Z) : bytes := [Z.shiftr (wrap 16 x) 8; wrap 8 x].
Definition be32 (x : Z) : bytes :=
  [Z.shiftr (wrap 32 x) 24; wrap 8 (Z.shiftr x 16); wrap 8 (Z.shiftr x 8); wrap 8 x].

(** ** The code *)

Section checksum.
(** [ip4sum::Checksum]: its [new], [update] and [finalize]. *)
Context {csum : Type}.
Variable csum_new : csum.
Variable csum_update : csum -> bytes -> csum.
Variable csum_finalize : csum -> Z.

Definition checksum_ip_pseudo_header (c : csum) (ip_version : Z) (src_address dst_address : IpAddress)
    (ip_protocol l4_length : Z) : outcome csum :=
  if ip_version =? 4 then
    let c := csum_update c (read_as_v4 src_address) in
    let c := csum_update c (read_as_v4 dst_address) in
    let c := csum_update c [0; ip_protocol] in
    Ret (csum_update c (be16 (wrap 16 l4_length)))
  else if ip_version =? 6 then
    let c := csum_update c (v6 src_address) in
    let c := csum_update c (v6 dst_address) in
    let c := csum_update c (be32 l4_length) in
    Ret (csum_update c [0; ip_protocol])
  else Panic.

Definition inet_l4_checksum (ip_version : Z) (src_address dst_address : IpAddress) (ip_protocol : Z)
    (l4_payload : bytes) : outcome bytes :=
  c ← checksum_ip_pseudo_header csum_new ip_version src_address dst_address ip_protocol
        (wrap 32 (Z.of_nat (length l4_payload)));
  Ret (be16 (csum_finalize (csum_update c l4_payload))).

Definition validate_inet_l4_checksum (ip_version : Z) (src_address dst_address : IpAddress)
    (ip_protocol : Z) (l4_payload : bytes) : outcome bool :=
  r ← inet_l4_checksum ip_version src_address dst_address ip_protocol l4_payload;
  Ret (bool_decide (r = [0; 0])).

(** The unit tests; [L4_TEST_DATA] are packets with a valid checksum. *)
Definition L4_TEST_DATA : list (Z * IpAddress * IpAddress * Z * bytes) :=
  [(4, new_from_v4 [139; 255; 192; 233], new_from_v4 [10; 132; 4; 55], ip_number.TCP,
    [0x01; 0xbb; 0xc3; 0x74; 0x4b; 0xad; 0x33; 0x82; 0x10; 0xc5; 0x41; 0xfe; 0x80; 0x18; 0x03; 0x5f;
     0x7b; 0x94; 0x00; 0x00; 0x01; 0x01; 0x08; 0x0a; 0x26; 0x09; 0x2c; 0x37; 0x55; 0x41; 0x13; 0xf5;
     0x17; 0x03; 0x03; 0x00; 0x1a; 0xed; 0x93; 0xf6; 0x3d; 0xc0; 0xf6; 0x2f; 0xaa; 0x80; 0x03; 0xc7;
     0xc8; 0x5b; 0x99; 0xba; 0xf1; 0xc5; 0xd0; 0x8a; 0xfe; 0x12; 0xb8; 0x6f; 0xee; 0x5c; 0xd5]);
   (6, mkIpAddress [0xfe; 0x80; 0; 0; 0; 0; 0; 0; 0xc; 0xbb; 0x7e; 0xa4; 0x55; 0xf1; 0x7; 0x9f],
    mkIpAddress [0xfe; 0x80; 0; 0; 0; 0; 0; 0; 0xc; 0xbb; 0x7e; 0xa4; 0x55; 0xf1; 0x7; 0x9f],
    ip_number.IPV6_ICMP,
    [0x80; 0x00; 0x16; 0x20; 0x00; 0x05; 0x00; 0x01; 0xca; 0xd5; 0xb1; 0x69; 0x00; 0x00; 0x00; 0x00;
     0x51; 0x6b; 0x0e; 0x00; 0x00; 0x00; 0x00; 0x00; 0x10; 0x11; 0x12; 0x13; 0x14; 0x15; 0x16; 0x17;
     0x18; 0x19; 0x1a; 0x1b; 0x1c; 0x1d; 0x1e; 0x1f; 0x20; 0x21; 0x22; 0x23; 0x24; 0x25; 0x26; 0x27;
     0x28; 0x29; 0x2a; 0x2b; 0x2c; 0x2d; 0x2e; 0x2f; 0x30; 0x31; 0x32; 0x33; 0x34; 0x35; 0x36; 0x37])].

Definition test_pseudo_header_checksum : outcome unit :=
  foldr (fun '(ip_version, src_address, dst_address, ip_protocol, data) rest =>
    r ← inet_l4_checksum ip_version src_address dst_address ip_protocol data;
    assert! bool_decide (r = [0; 0]) ;; rest) (Ret tt) L4_TEST_DATA.

Definition test_checksum_handles_long_runs_of_ff : outcome unit :=
  let payload := replicate (Z.to_nat (65535 - 1)) 0xff in
  let address := new_from_v4 [0; 0; 0; 0] in
  r ← inet_l4_checksum 4 address address 0 payload;
  assert! bool_decide (r = [0; 1]) ;;
  Ret tt.

(** What the crate documents: feeding chunks, all but the last of even length,
    gives the Internet checksum of what they contain. *)
Definition computes_checksum : Prop :=
  forall chunks last,
    Forall chunk chunks ->
    Forall (fun b => is_u8 b) last ->
    csum_finalize (foldl csum_update csum_new (chunks ++ [last]))
      = internet_checksum (concat chunks ++ last).
End checksum.

(** A checksum that keeps the sum of the words. *)
Definition sum_update (s : Z) (l : bytes) : Z := s + word_sum l.
Definition sum_finalize (s : Z) : Z := 65535 - ones_sum s.

(** ** The pseudo-headers (RFC 9293 and RFC 8200) *)

Definition pseudo_header (ip_version : Z) (src dst : IpAddress) (proto len : Z) : bytes :=
  if ip_version =? 4 then
    read_as_v4 src ++ read_as_v4 dst ++ [0; proto] ++ be16 len
  else
    v6 src ++ v6 dst ++ be32 len ++ [0; 0; 0; proto].

(** ** Facts *)

Abbreviation all_bytes l := (Forall (fun b => is_u8 b) l).

Lemma list_ind2 {A} (P : list A -> Prop) :
  P [] -> (forall x, P [x]) -> (forall x y l, P l -> P (x :: y :: l)) -> forall l, P l.
Proof.
  intros H0 H1 H2. fix IH 1. intros [|x [|y l]]; [exact H0|apply H1|]. apply H2, IH.
Qed.

Lemma word_sum_app l l' : Nat.Even (length l) -> word_sum (l ++ l') = word_sum l + word_sum l'.
Proof.
  induction l as [|x|x y l IH] using list_ind2; intros He; [done|..].
  - destruct He as [k Hk]. cbn in Hk. lia.
  - cbn [app word_sum]. rewrite IH; [lia|]. destruct He as [k Hk]. cbn in Hk. exists (pred k). lia.
Qed.

Lemma word_sum_nonneg l : all_bytes l -> 0 <= word_sum l.
Proof.
  induction l as [|x|x y l IH] using list_ind2; intros Hl; [done|..];
    rewrite ?Forall_cons in Hl; unfold is_uint in Hl; cbn [word_sum].
  - lia.
  - destruct Hl as (? & ? & Hl). specialize (IH Hl). lia.
Qed.

Lemma ones_sum_bound s : 0 <= s -> 0 <= ones_sum s <= 65535.
Proof.
  intros Hs. unfold ones_sum. destruct (Z.eqb_spec s 0); [lia|].
  pose proof (Z.mod_pos_bound (s - 1) 65535). lia.
Qed.

Lemma ones_sum_mod s : 0 <= s -> ones_sum s mod 65535 = s mod 65535.
Proof.
  intros Hs. unfold ones_sum. destruct (Z.eqb_spec s 0) as [->|]; [done|].
  rewrite Zplus_mod_idemp_l. f_equal. lia.
Qed.

(** The checksum makes the one's complement sum all ones. *)
Lemma ones_sum_complete s : 0 <= s -> ones_sum (s + (65535 - ones_sum s)) = 65535.
Proof.
  intros Hs. pose proof (ones_sum_bound s Hs). pose proof (ones_sum_mod s Hs) as Hm.
  unfold ones_sum at 1. destruct (Z.eqb_spec (s + (65535 - ones_sum s)) 0) as [H0|H0].
  { assert (s = 0) as -> by lia. discriminate H0. }
  assert ((s + (65535 - ones_sum s) - 1) mod 65535 = 65534) as ->; [|lia].
  replace (s + (65535 - ones_sum s) - 1) with ((s - ones_sum s) + 65534) by lia.
  rewrite Z.add_mod, Zminus_mod, Hm, Z.sub_diag by lia. done.
Qed.

Lemma be16_word x : 0 <= x < 65536 ->
  all_bytes (be16 x) /\ word_sum (be16 x) = x.
Proof.
  intros Hx. unfold be16. rewrite (wrap_small 16) by (unfold is_uint; lia). unfold wrap.
  rewrite Z.shiftr_div_pow2 by lia. cbn [word_sum].
  change (2 ^ 8) with 256. pose proof (Z.div_mod x 256). pose proof (Z.mod_pos_bound x 256).
  assert (0 <= x / 256 < 256) by (split; [apply Z.div_pos|apply Z.div_lt_upper_bound]; lia).
  split; [|lia]. repeat constructor; unfold is_uint; lia.
Qed.

Lemma wrap_byte x : is_u8 (wrap 8 x).
Proof. apply wrap_bound. lia. Qed.

Lemma be32_bytes x : 0 <= x < 2 ^ 32 -> all_bytes (be32 x).
Proof.
  intros Hx. unfold be32. rewrite (wrap_small 32) by (unfold is_uint; lia).
  constructor; [|by repeat constructor; apply wrap_byte].
  rewrite Z.shiftr_div_pow2 by lia. split; [apply Z.div_pos|apply Z.div_lt_upper_bound]; lia.
Qed.

Lemma read_as_v4_bytes a : is_array 16 (v6 a) -> is_array 4 (read_as_v4 a).
Proof.
  intros [Hl Hb]. split; [done|]. destruct a as [l]; cbn in *.
  do 16 (destruct l as [|? l]; [done|]). destruct l; [|done]. unfold read_as_v4; cbn.
  rewrite !Forall_cons in Hb. rewrite !Forall_cons. tauto.
Qed.

Lemma chunk_v4 a : is_array 16 (v6 a) -> chunk (read_as_v4 a).
Proof. intros [Hl Hb]%read_as_v4_bytes. split; [|done]. rewrite Hl. by exists 2%nat. Qed.

Lemma chunk_v6 a : is_array 16 (v6 a) -> chunk (v6 a).
Proof. intros [Hl Hb]. split; [|done]. rewrite Hl. by exists 8%nat. Qed.

Lemma chunk_proto b : is_u8 b -> chunk [0; b].
Proof. intros Hb. split; [by exists 1%nat|]. rewrite !Forall_cons. done. Qed.

Lemma chunk_be16 x : 0 <= x < 65536 -> chunk (be16 x).
Proof. intros Hx. split; [by exists 1%nat|]. by apply be16_word. Qed.

Lemma chunk_be32 x : 0 <= x < 2 ^ 32 -> chunk (be32 x).
Proof. intros Hx. split; [by exists 2%nat|]. by apply be32_bytes. Qed.

Ltac chunks := rewrite ?Forall_cons, ?Forall_nil; split_and?; try exact I;
  first [by apply chunk_v4 | by apply chunk_v6 | by apply chunk_proto
        | apply chunk_be16; lia | apply chunk_be32; lia].

Section proofs.
Context {csum : Type} (csum_new : csum) (csum_update : csum -> bytes -> csum) (csum_finalize : csum -> Z).
Hypothesis ip4sum : computes_checksum csum_new csum_update csum_finalize.
Context (ver proto : Z) (src dst : IpAddress) (l : bytes).
Hypothesis (Hver : ver = 4 /\ Z.of_nat (length l) < 2 ^ 16 \/ ver = 6 /\ Z.of_nat (length l) < 2 ^ 32).
Hypothesis (Hsrc : is_array 16 (v6 src)) (Hdst : is_array 16 (v6 dst)).
Hypothesis (Hproto : is_u8 proto) (Hl : all_bytes l).

Lemma l4_checksum_rfc :
  inet_l4_checksum csum_new csum_update csum_finalize ver src dst proto l
  = Ret (be16 (internet_checksum (pseudo_header ver src dst proto (Z.of_nat (length l)) ++ l))).
Proof using ip4sum Hver Hsrc Hdst Hproto Hl.
  unfold inet_l4_checksum, checksum_ip_pseudo_header, pseudo_header.
  destruct Hver as [[-> Hlen]|[-> Hlen]]; cbn -[be16 be32 internet_checksum read_as_v4];
    rewrite (wrap_small 32) by (unfold is_uint; lia); do 2 f_equal.
  - rewrite (wrap_small 16) by (unfold is_uint; lia).
    pose proof (ip4sum [read_as_v4 src; read_as_v4 dst; [0; proto]; be16 (Z.of_nat (length l))] l) as H.
    cbn [app foldl concat] in H. rewrite H; [|chunks|done].
    by rewrite <- !app_assoc.
  - pose proof (ip4sum [v6 src; v6 dst; be32 (Z.of_nat (length l)); [0; proto]] l) as H.
    cbn [app foldl concat] in H. rewrite H; [|chunks|done].
    (* two leading zero bytes do not count *)
    destruct (chunk_v6 src Hsrc) as [? _], (chunk_v6 dst Hdst) as [? _].
    unfold internet_checksum. do 2 f_equal. rewrite <- !app_assoc.
    rewrite !word_sum_app by (done || (by exists 2%nat) || by exists 1%nat). done.
Qed.
End proofs.

Lemma chunk_app c c' : chunk c -> chunk c' -> chunk (c ++ c').
Proof.
  intros [[n Hn] Hc] [[m Hm] Hc']. split; [|by rewrite Forall_app].
  exists (n + m)%nat. rewrite length_app. lia.
Qed.

Lemma Forall_app_bytes l l' : all_bytes l -> all_bytes l' -> all_bytes (l ++ l').
Proof. rewrite Forall_app. done. Qed.

Lemma pseudo_header_chunk ver src dst proto len :
  is_array 16 (v6 src) -> is_array 16 (v6 dst) -> is_u8 proto ->
  ver = 4 /\ 0 <= len < 2 ^ 16 \/ ver = 6 /\ 0 <= len < 2 ^ 32 ->
  chunk (pseudo_header ver src dst proto len).
Proof.
  intros Hs Hd Hp [[-> Hl]|[-> Hl]]; unfold pseudo_header; cbn -[be16 be32 read_as_v4 app];
    repeat apply chunk_app; try chunks.
  split; [by exists 2%nat|]. rewrite !Forall_cons. done.
Qed.

(** Writing the checksum over two zero bytes at an even offset makes the
    checksum zero. *)
Lemma checksum_field_validates pre post :
  chunk pre -> all_bytes post ->
  let s := internet_checksum (pre ++ [0; 0] ++ post) in
  0 <= s < 65536 /\ internet_checksum (pre ++ be16 s ++ post) = 0.
Proof.
  intros [He Hb] Hp s. subst s. unfold internet_checksum.
  rewrite !(word_sum_app pre) by done.
  pose proof (word_sum_nonneg pre Hb). pose proof (word_sum_nonneg post Hp).
  change (word_sum ([0; 0] ++ post)) with (word_sum post).
  set (t := word_sum pre + word_sum post).
  pose proof (ones_sum_bound t ltac:(lia)).
  destruct (be16_word (65535 - ones_sum t)) as [_ Hw]; [lia|]. split; [lia|].
  rewrite word_sum_app by (by exists 1%nat). rewrite Hw.
  replace (word_sum pre + _) with (t + (65535 - ones_sum t)) by lia.
  rewrite ones_sum_complete; lia.
Qed.

(** A checksum that keeps a running sum is as the crate documents. *)
Lemma sum_computes : computes_checksum 0 sum_update sum_finalize.
Proof.
  assert (forall cs s, Forall chunk cs ->
    foldl sum_update s cs = s + word_sum (concat cs)) as Hf.
  { intros cs. induction cs as [|c cs IH]; intros s Hc; cbn; [lia|].
    apply Forall_cons in Hc as [[He _] Hc]. rewrite IH by done.
    unfold sum_update. rewrite word_sum_app by done. lia. }
  intros cs l Hc Hl. unfold internet_checksum, sum_finalize. rewrite foldl_app, (Hf cs) by done. cbn.
  do 2 f_equal. unfold sum_update.
  assert (chunk (concat cs)) as [He _]; [|by rewrite word_sum_app].
  clear -Hc. induction Hc as [|c cs Hc _ IH]; [|by apply chunk_app].
  split; [by exists 0%nat|constructor].
Qed.

(** ** Properties *)

(** C33 (functional). [inet_l4_checksum] computes the checksum the RFCs define,
    the Internet checksum of the pseudo-header and the payload, whenever the
    payload's length fits the pseudo-header's length field (16 bits in the
    IPv4 header the code builds, 32 bits in the IPv6 one), and it panics on any
    other IP version. Its bytes come in network order. *)
Theorem l4_checksum_is_rfc_checksum {csum} (csum_new : csum) csum_update csum_finalize ver src dst proto l :
  computes_checksum csum_new csum_update csum_finalize ->
  is_array 16 (v6 src) -> is_array 16 (v6 dst) -> is_u8 proto -> all_bytes l ->
  (ver = 4 /\ Z.of_nat (length l) < 2 ^ 16 \/ ver = 6 /\ Z.of_nat (length l) < 2 ^ 32 ->
     exists s, inet_l4_checksum csum_new csum_update csum_finalize ver src dst proto l = Ret (be16 s)
       /\ s = internet_checksum (pseudo_header ver src dst proto (Z.of_nat (length l)) ++ l)
       /\ 0 <= s < 2 ^ 16 /\ word_sum (be16 s) = s)
  /\ (ver <> 4 -> ver <> 6 ->
     inet_l4_checksum csum_new csum_update csum_finalize ver src dst proto l = Panic).
Proof.
  intros Hc Hs Hd Hp Hl. split.
  - intros Hver. eexists. split; [by apply l4_checksum_rfc|]. split; [done|].
    destruct (pseudo_header_chunk ver src dst proto (Z.of_nat (length l))) as [_ Hb]; [done..|lia|].
    pose proof (word_sum_nonneg _ (Forall_app_bytes _ _ Hb Hl)) as H0.
    pose proof (ones_sum_bound _ H0). unfold internet_checksum. split; [lia|].
    apply be16_word. lia.
  - intros H4 H6. unfold inet_l4_checksum, checksum_ip_pseudo_header.
    by destruct (Z.eqb_spec ver 4), (Z.eqb_spec ver 6).
Qed.

(** A sender that leaves the checksum field (two bytes at an
    even offset) zero, computes [inet_l4_checksum] and stores its bytes there
    produces a payload that [validate_inet_l4_checksum] accepts; for any
    payload that check says whether the one's complement sum of pseudo-header
    and payload is all ones. *)
Theorem stored_checksum_validates {csum} (csum_new : csum) csum_update csum_finalize ver src dst proto pre post :
  let l := pre ++ [0; 0] ++ post in
  computes_checksum csum_new csum_update csum_finalize ->
  is_array 16 (v6 src) -> is_array 16 (v6 dst) -> is_u8 proto ->
  all_bytes pre -> all_bytes post -> Nat.Even (length pre) ->
  ver = 4 /\ Z.of_nat (length l) < 2 ^ 16 \/ ver = 6 /\ Z.of_nat (length l) < 2 ^ 32 ->
  (exists field,
     inet_l4_checksum csum_new csum_update csum_finalize ver src dst proto l = Ret field
     /\ length field = 2%nat
     /\ validate_inet_l4_checksum csum_new csum_update csum_finalize ver src dst proto (pre ++ field ++ post)
        = Ret true)
  /\ validate_inet_l4_checksum csum_new csum_update csum_finalize ver src dst proto l
     = Ret (bool_decide (ones_sum (word_sum (pseudo_header ver src dst proto (Z.of_nat (length l)) ++ l)) = 65535)).
Proof.
  intros l Hc Hs Hd Hp Hpre Hpost He Hver.
  destruct (pseudo_header_chunk ver src dst proto (Z.of_nat (length l))) as [Hce Hcb]; [done..|lia|].
  assert (all_bytes l) as Hl. { unfold l. rewrite !Forall_app, !Forall_cons. done. }
  set (ph := pseudo_header ver src dst proto (Z.of_nat (length l))) in *.
  split.
  - destruct (checksum_field_validates (ph ++ pre) post) as [Hb H0]; [|done|].
    { by apply chunk_app. }
    set (s := internet_checksum ((ph ++ pre) ++ [0; 0] ++ post)) in *.
    exists (be16 s). split; [|split; [done|]].
    + rewrite (l4_checksum_rfc _ _ _ Hc) by done. fold ph. unfold s, l. by rewrite <- app_assoc.
    + unfold validate_inet_l4_checksum.
      assert (length (pre ++ be16 s ++ post) = length l) as Hlen by (unfold l; by rewrite !length_app).
      rewrite (l4_checksum_rfc _ _ _ Hc); [|by rewrite Hlen|done..|].
      * rewrite Hlen. fold ph. rewrite app_assoc, H0. done.
      * rewrite !Forall_app. split_and!; [done| |done]. by apply be16_word.
  - unfold validate_inet_l4_checksum. rewrite (l4_checksum_rfc _ _ _ Hc) by done. fold ph.
    cbn -[be16 word_sum internet_checksum]. f_equal. apply bool_decide_ext. unfold internet_checksum.
    pose proof (ones_sum_bound _ (word_sum_nonneg _ (Forall_app_bytes _ _ Hcb Hl))).
    destruct (be16_word (65535 - ones_sum (word_sum (ph ++ l)))) as [_ Hw]; [lia|].
    split; intros H1; [|by rewrite H1].
    rewrite H1 in Hw. cbn in Hw. lia.
Qed.

Definition demo_payload : bytes := [0x12; 0x34; 0; 0; 0xab].

Lemma l4_checksum_is_rfc_checksum_witness :
  inet_l4_checksum 0 sum_update sum_finalize 4 (new_from_v4 [10; 0; 0; 1]) (new_from_v4 [10; 0; 0; 2]) 17
    demo_payload = Ret [0x2e; 0xb2].
Proof.
  destruct (l4_checksum_is_rfc_checksum 0 sum_update sum_finalize 4 (new_from_v4 [10; 0; 0; 1])
    (new_from_v4 [10; 0; 0; 2]) 17 demo_payload) as [H _]; [apply sum_computes|by_decide..|].
  destruct H as (s & -> & -> & _); [left; split; [reflexivity|by_decide]|]. vm_compute. reflexivity.
Defined.

Lemma stored_checksum_validates_witness :
  validate_inet_l4_checksum 0 sum_update sum_finalize 6 (new_from_v4 [10; 0; 0; 1]) (new_from_v4 [10; 0; 0; 2]) 6
    demo_payload = Ret false.
Proof.
  destruct (stored_checksum_validates 0 sum_update sum_finalize 6 (new_from_v4 [10; 0; 0; 1])
    (new_from_v4 [10; 0; 0; 2]) 6 [0x12; 0x34] [0xab]) as [_ H];
    [apply sum_computes|by_decide..|by exists 1%nat|right; split; [reflexivity|by_decide]|].
  etransitivity; [exact H|]. vm_compute. reflexivity.
Defined.

Example checksum_tests_pass :
  test_pseudo_header_checksum 0 sum_update sum_finalize = Ret tt
  /\ test_checksum_handles_long_runs_of_ff 0 sum_update sum_finalize = Ret tt.
Proof. split; vm_compute; reflexivity. Qed.
