(* ===== verification/RsaSign.v ===== *)
(** Loading an RSA key from PEM and signing with it: zpr-utils/src/rsa_sign.rs.
    The crates pem-rfc7468 and aws-lc-rs are parameters. *)

From Stdlib Require Import String Ascii.
From S2P Require Import Prelude.

(** [pem::decode_vec], [RsaKeyPair] with its errors, its two parsers,
    [public_modulus_len], and [sign] into a buffer of the given length; [verify]
    is the one of the public key. *)
Class RsaCrates (Key E : Type) := {
  decode_vec : list Z -> result (string * list Z) E;
  from_der : list Z -> result Key E;
  from_pkcs8 : list Z -> result Key E;
  public_modulus_len : Key -> nat;
  key_sign : Key -> list Z -> nat -> result (list Z) E;
  verify : Key -> list Z -> list Z -> bool;
}.

(** Signing fills a buffer of the length of the modulus with a signature. *)
Class RsaLaws (Key E : Type) {C : RsaCrates Key E} := {
  key_sign_ok (key : Key) msg : exists signature : list Z,
    key_sign key msg (public_modulus_len key) = Ok signature
    /\ List.length signature = public_modulus_len key /\ verify key msg signature = true;
}.

Section rsa.
Context {Key E : Type} {C : RsaCrates Key E}.

Inductive BoxError : Type :=
| Boxed (e : E)
| UnsupportedTag (other : string).

Definition boxed {A} (r : result A E) : result A BoxError :=
  match r with Ok a => Ok a | Err e => Err (Boxed e) end.

Definition load_rsa_key (pem_bytes : list Z) : result Key BoxError :=
  match decode_vec pem_bytes with
  | Err e => Err (Boxed e)
  | Ok (label, der) =>
      if String.eqb label "RSA PRIVATE KEY" then boxed (from_der der)
      else if String.eqb label "PRIVATE KEY" then boxed (from_pkcs8 der)
      else Err (UnsupportedTag label)
  end.

Definition sign_rsa_key (key : Key) (msg : list Z) : outcome (list Z) :=
  let signature := replicate (public_modulus_len key) 0 in
  match key_sign key msg (List.length signature) with
  | Ok signature => Ret signature
  | Err _ => Panic       (* expect *)
  end.

(** The unit tests, of the keys [pem]. *)
Definition load_sign_verify (pem : list Z) : outcome unit :=
  match load_rsa_key pem with
  | Ok key =>
      let msg := map (fun a => Z.of_nat (nat_of_ascii a)) (list_ascii_of_string "the quick brown fox") in
      sig ← sign_rsa_key key msg;
      assert! verify key msg sig ;; Ret tt
  | Err _ => Panic
  end.

Definition rejects_unsupported_tag (pem : list Z) : outcome unit :=
  match load_rsa_key pem with Ok _ => Panic | Err _ => Ret tt end.

(** A key is loaded by the parser that its label asks for, and the errors of the
    crates are passed on. *)
Lemma load_rsa_key_spec pem_bytes key : load_rsa_key pem_bytes = Ok key <->
  exists label der, decode_vec pem_bytes = Ok (label, der)
    /\ (label = "RSA PRIVATE KEY"%string /\ from_der der = Ok key
        \/ label = "PRIVATE KEY"%string /\ from_pkcs8 der = Ok key).
Proof.
  unfold load_rsa_key, boxed. destruct (decode_vec pem_bytes) as [[label der]|e]; [|naive_solver].
  destruct (String.eqb_spec label "RSA PRIVATE KEY") as [->|H1].
  { split.
    - intros H. exists "RSA PRIVATE KEY"%string, der. split; [done|]. left. split; [done|].
      destruct (from_der der); naive_solver.
    - intros (? & ? & [= <- <-] & [[_ ->]|[[=] _]]). done. }
  destruct (String.eqb_spec label "PRIVATE KEY") as [->|H2].
  { split.
    - intros H. exists "PRIVATE KEY"%string, der. split; [done|]. right. split; [done|].
      destruct (from_pkcs8 der); naive_solver.
    - intros (? & ? & [= <- <-] & [[[=] _]|[_ ->]]). done. }
  split; [done|]. intros (? & ? & [= <- <-] & [[? _]|[? _]]); done.
Qed.

(** Signing does not panic: it returns a signature as long as the modulus, which
    the public key verifies. *)
Lemma sign_rsa_key_verifies {Laws : RsaLaws Key E} key msg : exists signature : list Z,
  sign_rsa_key key msg = Ret signature /\ List.length signature = public_modulus_len key
  /\ verify key msg signature = true.
Proof.
  unfold sign_rsa_key. rewrite length_replicate. destruct (key_sign_ok key msg) as (s & -> & Hs).
  by exists s.
Qed.

(** The unit tests pass, of the keys that the crates can read, and of the texts
    with another label. *)
Lemma load_sign_verify_passes {Laws : RsaLaws Key E} pem key :
  load_rsa_key pem = Ok key -> load_sign_verify pem = Ret tt.
Proof.
  intros Hk. unfold load_sign_verify. rewrite Hk. cbv zeta.
  match goal with |- context [sign_rsa_key key ?m] => destruct (sign_rsa_key_verifies key m) as (s & Hs & _ & Hv) end.
  rewrite Hs. cbn [mbind outcome_bind]. by rewrite Hv.
Qed.

Lemma rejects_unsupported_tag_passes pem der :
  decode_vec pem = Ok ("EC PRIVATE KEY"%string, der) -> rejects_unsupported_tag pem = Ret tt.
Proof. intros Hd. unfold rejects_unsupported_tag, load_rsa_key. by rewrite Hd. Qed.
End rsa.

(** A key that signs with its own length, to show that the laws can hold. *)
Definition demo_sign (key : nat) (msg : list Z) (n : nat) : result (list Z) unit :=
  if (n =? key)%nat then Ok (replicate n (Z.of_nat (List.length msg))) else Err tt.

#[export] Instance demo_rsa : RsaCrates nat unit := {
  decode_vec pem := match pem with [] => Err tt | n :: der => Ok ("PRIVATE KEY"%string, der) end;
  from_der der := Err tt;
  from_pkcs8 der := Ok (List.length der);
  public_modulus_len key := key;
  key_sign := demo_sign;
  verify key msg signature := bool_decide (signature = replicate key (Z.of_nat (List.length msg)));
}.

#[export] Instance demo_rsa_laws : RsaLaws nat unit.
Proof.
  split. intros key msg. eexists. cbn. unfold demo_sign. rewrite Nat.eqb_refl. split; [done|].
  split; [by rewrite length_replicate|]. by apply bool_decide_eq_true.
Qed.

Lemma demo_load_sign :
  load_rsa_key [1; 2; 3] = Ok 2%nat /\ sign_rsa_key 2%nat [7; 7; 7] = Ret [3; 3].
Proof. split; vm_compute; reflexivity. Qed.
