(* ===== verification/ExtStd.v ===== *)
(** [zpr_ext::std]: the single-threaded [UsizeCell] (cell.rs), [Vec::recycle]
    (vec.rs) and the copy-on-write file descriptor [CowFd] (os/fd.rs).

    Descriptors live in the process's table, a map from numbers to open files;
    the kernel chooses the numbers of new ones. *)

From S2P Require Import Prelude.

(** ** [UsizeCell] *)

Module scalar.

Definition UsizeCell : Type := Z.

Definition new (val : Z) : UsizeCell := val.
Definition into_inner (c : UsizeCell) : Z := c.
Definition load : stateful UsizeCell Z := fun c => (Ret c, c).
Definition store (val : Z) : stateful UsizeCell unit := fun _ => (Ret tt, val).

(** Lift a computation that does not touch the cell. *)
Definition pure {A} (o : outcome A) : stateful UsizeCell A := fun c => (o, c).

Definition fetch_add (val : Z) : stateful UsizeCell Z :=
  old ← load; store (wrap 64 (old + val));; mret old.
Definition fetch_sub (val : Z) : stateful UsizeCell Z :=
  old ← load; store (wrap 64 (old - val));; mret old.
Definition fetch_add_nowrap (val : Z) : stateful UsizeCell Z :=
  old ← load; new ← pure (add_u 64 old val); store new;; mret old.
Definition fetch_sub_nowrap (val : Z) : stateful UsizeCell Z :=
  old ← load; new ← pure (sub_u 64 old val); store new;; mret old.

#[local] Ltac run :=
  unfold fetch_add, fetch_sub, fetch_add_nowrap, fetch_sub_nowrap, load, store, pure;
  cbv [mbind stateful_bind mret stateful_ret]; cbn -[wrap].

Lemma fetch_add_sub c val : is_usize c ->
  (fetch_add val c).1 = Ret c
  /\ fetch_sub val (fetch_add val c).2 = (Ret (wrap 64 (c + val)), c).
Proof.
  intros Hc. split; [done|]. run. f_equal. unfold wrap.
  rewrite Zminus_mod_idemp_l. replace (c + val - val) with c by lia. by apply wrap_small.
Qed.

(** Without overflow the two kinds of operation agree; with one, the cell is
    as it was and the call panics. *)
Lemma fetch_add_nowrap_spec c val : is_usize c -> is_usize val ->
  fetch_add_nowrap val c = if decide (is_usize (c + val)) then fetch_add val c else (Panic, c).
Proof.
  intros Hc Hv. run. unfold add_u, is_uint in *.
  case_decide; destruct (Z.ltb_spec (c + val) (2 ^ 64)); try lia; [|done].
  by rewrite wrap_small.
Qed.

Lemma fetch_sub_nowrap_spec c val : is_usize c -> is_usize val ->
  fetch_sub_nowrap val c = if decide (is_usize (c - val)) then fetch_sub val c else (Panic, c).
Proof.
  intros Hc Hv. run. unfold sub_u, is_uint in *.
  case_decide; destruct (Z.leb_spec val c); try lia; [|done].
  by rewrite wrap_small.
Qed.
End scalar.

(** ** [Vec::recycle] *)

Definition recycle {T U} (self : list T) : outcome (list U) :=
  let self := @nil T in
  mapM (fun _ => Panic) self.

(** ** Descriptors *)

(** The process's descriptors and the files they are open on. *)
Abbreviation fd_table := (gmap Z nat).

Definition EBADF : Z := 9.

(** What the kernel chooses: the number of a new descriptor, or the error. *)
Class Kernel := { new_fd : fd_table -> result Z Z }.

(** A new descriptor is not open yet. *)
Class KernelLaws `{Kernel} := { new_fd_free t fd : new_fd t = Ok fd -> t !! fd = None }.

Section fds.
Context `{Kernel}.

(** [BorrowedFd::try_clone_to_owned], [OwnedFd::try_clone]: a duplicate, open on
    the same file. *)
Definition dup_fd (fd : Z) : stateful fd_table (result Z Z) := fun t =>
  match t !! fd with
  | None => (Ret (Err EBADF), t)
  | Some file =>
      match new_fd t with
      | Err e => (Ret (Err e), t)
      | Ok fd' => (Ret (Ok fd'), <[fd' := file]> t)
      end
  end.

(** Dropping an [OwnedFd]; that it is open is what owning it means. *)
Definition close_fd (fd : Z) : stateful fd_table unit := fun t =>
  match t !! fd with
  | None => (UB, t)
  | Some _ => (Ret tt, delete fd t)
  end.

Inductive CowFd : Type :=
| Borrowed (fd : Z)
| Owned (fd : Z).

#[global] Instance CowFd_eq_dec : EqDecision CowFd.
Proof. solve_decision. Defined.

Definition map_ok {A B E} (f : A -> B) (r : result A E) : result B E :=
  match r with Ok a => Ok (f a) | Err e => Err e end.

Definition try_clone (self : CowFd) : stateful fd_table (result CowFd Z) :=
  match self with
  | Borrowed fd => mret (Ok (Borrowed fd))
  | Owned fd => r ← dup_fd fd; mret (map_ok Owned r)
  end.

Definition try_clone_to_owned (self : CowFd) : stateful fd_table (result Z Z) :=
  match self with
  | Borrowed fd => dup_fd fd
  | Owned fd => dup_fd fd
  end.

Definition try_into_owned (self : CowFd) : stateful fd_table (result Z Z) :=
  match self with
  | Borrowed fd => dup_fd fd
  | Owned fd => mret (Ok fd)
  end.

Definition is_borrowed (self : CowFd) : bool :=
  match self with Borrowed _ => true | Owned _ => false end.
Definition is_owned (self : CowFd) : bool :=
  match self with Borrowed _ => false | Owned _ => true end.

Definition from_borrowed (fd : Z) : CowFd := Borrowed fd.
Definition from_owned (fd : Z) : CowFd := Owned fd.
Definition as_fd (self : CowFd) : Z := match self with Borrowed fd => fd | Owned fd => fd end.
Definition as_raw_fd (self : CowFd) : Z := match self with Borrowed fd => fd | Owned fd => fd end.

(** [OwnedFd] has no value for -1. *)
Definition from_raw_fd (fd : Z) : outcome CowFd :=
  if fd =? -1 then Panic else Ret (Owned fd).

(** Drop glue: only an owned descriptor is closed. *)
Definition drop_cow (self : CowFd) : stateful fd_table unit :=
  match self with
  | Borrowed _ => mret tt
  | Owned fd => close_fd fd
  end.

Fixpoint drop_cows (l : list CowFd) : stateful fd_table unit :=
  match l with
  | [] => mret tt
  | c :: l => drop_cow c;; drop_cows l
  end.
End fds.
