(* ===== verification/ExtFdCorrect.v ===== *)
(** Programs that hold [CowFd]s: who owns which descriptor. *)

From S2P Require Import Prelude ExtStd.

(** A program holds [CowFd]s; what they borrow belongs to the lenders, which
    outlive them.  [FIntoOwned] wraps what it gets again, so that it stays in
    the list. *)
Inductive fd_call : Type :=
| FBorrow (fd : Z)
| FClone (k : nat)
| FCloneToOwned (k : nat)
| FIntoOwned (k : nat)
| FDrop (k : nat).

Section calls.
Context `{Kernel}.
Variable lent : fd_table.

Record fd_sys := mkFdSys { fs_table : fd_table; fs_held : list CowFd }.

Definition push_ok (l : list CowFd) (r : result CowFd Z) : list CowFd :=
  match r with Ok c => l ++ [c] | Err _ => l end.

(** [None]: a call that the program cannot make. *)
Definition fd_exec (y : fd_sys) (c : fd_call) : option (outcome fd_sys) :=
  match c with
  | FBorrow fd =>
      _ ← lent !! fd; Some (Ret (mkFdSys (fs_table y) (fs_held y ++ [from_borrowed fd])))
  | FClone k =>
      c ← fs_held y !! k;
      let '(o, t) := try_clone c (fs_table y) in
      Some (r ← o; Ret (mkFdSys t (push_ok (fs_held y) r)))
  | FCloneToOwned k =>
      c ← fs_held y !! k;
      let '(o, t) := try_clone_to_owned c (fs_table y) in
      Some (r ← o; Ret (mkFdSys t (push_ok (fs_held y) (map_ok from_owned r))))
  | FIntoOwned k =>
      c ← fs_held y !! k;
      let '(o, t) := try_into_owned c (fs_table y) in
      Some (r ← o; Ret (mkFdSys t (push_ok (delete k (fs_held y)) (map_ok from_owned r))))
  | FDrop k =>
      c ← fs_held y !! k;
      let '(o, t) := drop_cow c (fs_table y) in
      Some (_ ← o; Ret (mkFdSys t (delete k (fs_held y))))
  end.

Fixpoint fd_run (y : fd_sys) (cs : list fd_call) : outcome fd_sys :=
  match cs with
  | [] => Ret y
  | c :: cs => match fd_exec y c with None => fd_run y cs | Some o => y' ← o; fd_run y' cs end
  end.
End calls.

(** The descriptors a list of [CowFd]s owns. *)
Fixpoint owned (l : list CowFd) : list Z :=
  match l with
  | [] => []
  | Owned fd :: l => fd :: owned l
  | Borrowed _ :: l => owned l
  end.

#[global] Instance owned_perm : Proper ((≡ₚ) ==> (≡ₚ)) owned.
Proof.
  intros l l' Hl. induction Hl as [|c l l' _ IH|c c' l|]; [done|..|by etrans].
  - destruct c; cbn; by rewrite IH.
  - destruct c, c'; cbn; done || apply Permutation_swap.
Qed.

Lemma elem_of_owned fd l : fd ∈ owned l <-> Owned fd ∈ l.
Proof.
  induction l as [|[fd'|fd'] l IH]; cbn; rewrite ?elem_of_nil, ?elem_of_cons, ?IH; naive_solver.
Qed.

(** Every borrowed descriptor is a lender's; every descriptor that is open
    belongs to a lender, or is owned by exactly one [CowFd]. *)
Record fd_inv (lent t : fd_table) (l : list CowFd) : Prop := {
  fi_borrowed fd : Borrowed fd ∈ l -> is_Some (lent !! fd);
  fi_lent : lent ⊆ t;
  fi_nodup : NoDup (owned l);
  fi_owned fd : fd ∈ owned l <-> is_Some (t !! fd) /\ lent !! fd = None;
}.

Section inv.
Context `{KernelLaws} (lent : fd_table).
Implicit Types (t : fd_table) (l : list CowFd).

Lemma fd_inv_perm t l l' : l ≡ₚ l' -> fd_inv lent t l -> fd_inv lent t l'.
Proof. intros Hl [Hb Hlt Hn Ho]. split; [intros fd|done| |intros fd]; rewrite <- Hl; auto. Qed.

Lemma fd_inv_start : fd_inv lent lent [].
Proof.
  split; [by intros ? ?%elem_of_nil|done|constructor|]. intros fd. cbn. split; [by intros ?%elem_of_nil|].
  intros [[f Hf] Hn]. congruence.
Qed.

Lemma fd_inv_borrow t l fd : is_Some (lent !! fd) -> fd_inv lent t l -> fd_inv lent t (Borrowed fd :: l).
Proof.
  intros Hfd [Hb Hlt Hn Ho]. split; [|done..]. intros fd' [[= ->]|]%elem_of_cons; [done|by apply Hb].
Qed.

Lemma fd_inv_open t l fd f :
  t !! fd = None -> fd_inv lent t l -> fd_inv lent (<[fd := f]> t) (Owned fd :: l).
Proof.
  intros Hfd [Hb Hlt Hn Ho].
  assert (lent !! fd = None) as Hl by (by eapply lookup_weaken_None).
  split; cbn.
  - intros fd' [?|]%elem_of_cons; [done|by apply Hb].
  - by apply insert_subseteq_r.
  - constructor; [|done]. intros [[? ?] _]%Ho. congruence.
  - intros fd'. rewrite elem_of_cons, Ho. destruct (decide (fd' = fd)) as [->|Hne].
    + rewrite lookup_insert_eq. naive_solver.
    + rewrite lookup_insert_ne by done. naive_solver.
Qed.

(** Dropping one [CowFd]. *)
Lemma fd_inv_drop t c l : fd_inv lent t (c :: l) ->
  exists t', drop_cow c t = (Ret tt, t') /\ fd_inv lent t' l.
Proof.
  intros [Hb Hlt Hn Ho]. destruct c as [fd|fd]; cbn in *.
  - exists t. split; [done|]. split; [|done..]. intros fd' Hfd'. apply Hb. by right.
  - destruct (proj1 (Ho fd)) as [[f Hf] Hl]; [by left|]. unfold close_fd. rewrite Hf.
    exists (delete fd t). split; [done|]. apply NoDup_cons in Hn as [Hnin Hn]. split.
    + intros fd' Hfd'. apply Hb. by right.
    + apply map_subseteq_spec. intros fd' f' Hf'. rewrite lookup_delete_ne by congruence.
      by eapply lookup_weaken.
    + done.
    + intros fd'. specialize (Ho fd'). rewrite elem_of_cons in Ho.
      destruct (decide (fd' = fd)) as [->|Hne].
      * rewrite lookup_delete_eq. split; [done|]. intros [[? ?] _]; done.
      * rewrite lookup_delete_ne by done. naive_solver.
Qed.

(** Duplicating a descriptor. *)
Lemma dup_fd_inv t l fd : fd_inv lent t l -> exists r t', dup_fd fd t = (Ret r, t') /\
  match r with
  | Ok fd' => fd_inv lent t' (Owned fd' :: l) /\ is_Some (t !! fd) /\ t' !! fd' = t !! fd
  | Err _ => t' = t
  end.
Proof.
  intros Hi. unfold dup_fd. destruct (t !! fd) as [f|] eqn:Hf; [|by exists (Err EBADF), t].
  destruct (new_fd t) as [fd'|e] eqn:Hd; [|by exists (Err e), t].
  exists (Ok fd'), (<[fd' := f]> t). split; [done|].
  split; [|split; [done|by rewrite lookup_insert_eq]].
  apply fd_inv_open; [by eapply new_fd_free|done].
Qed.

Lemma held_open t l c : fd_inv lent t l -> c ∈ l -> is_Some (t !! as_fd c).
Proof.
  intros [Hb Hlt Hn Ho] Hc. destruct c as [fd|fd]; cbn.
  - destruct (Hb fd Hc) as [f Hf]. exists f. by eapply lookup_weaken.
  - by apply Ho, elem_of_owned.
Qed.

Lemma fd_exec_inv y c o : fd_inv lent (fs_table y) (fs_held y) -> fd_exec lent y c = Some o ->
  exists y', o = Ret y' /\ fd_inv lent (fs_table y') (fs_held y').
Proof.
  destruct y as [t l]. cbn. intros Hi.
  assert (forall k c, l !! k = Some c -> fd_inv lent t (c :: delete k l)) as Hdel.
  { intros k c' Hk. eapply fd_inv_perm; [|exact Hi]. by apply delete_Permutation. }
  assert (forall t l c, fd_inv lent t (c :: l) -> fd_inv lent t (l ++ [c])) as Hpush.
  { intros t' l' c'. apply fd_inv_perm. by rewrite Permutation_app_comm. }
  assert (forall l fd, fd_inv lent t l -> exists r t', dup_fd fd t = (Ret r, t')
    /\ fd_inv lent t' (push_ok l (map_ok from_owned r))) as Hdup.
  { intros l' fd Hi'. destruct (dup_fd_inv t l' fd Hi') as (r & t' & Hd & Hr). exists r, t'.
    split; [done|]. destruct r; [by apply Hpush, Hr|by subst]. }
  destruct c as [fd|k|k|k|k]; cbn [fd_exec fs_held fs_table]; intros Ho.
  - destruct (lent !! fd) eqn:Hfd; [|done]. injection Ho as <-. eexists. split; [done|].
    apply Hpush, fd_inv_borrow; eauto.
  - destruct (l !! k) as [c|] eqn:Hk; [|done]. destruct c as [fd|fd]; cbn in Ho.
    + injection Ho as <-. eexists. split; [done|]. apply Hpush, fd_inv_borrow; [|done].
      eapply fi_borrowed; [done|]. by eapply list_elem_of_lookup_2.
    + destruct (Hdup l fd Hi) as (r & t' & Hd & Hr). cbv [mbind stateful_bind] in Ho.
      rewrite Hd in Ho. cbn in Ho. injection Ho as <-. eexists. split; [done|]. exact Hr.
  - destruct (l !! k) as [c|] eqn:Hk; [|done]. cbn in Ho.
    destruct (Hdup l (as_fd c) Hi) as (r & t' & Hd & Hr).
    assert (try_clone_to_owned c t = (Ret r, t')) as Hc by (by destruct c). rewrite Hc in Ho.
    injection Ho as <-. eexists. split; [done|]. exact Hr.
  - destruct (l !! k) as [c|] eqn:Hk; [|done]. cbn in Ho. specialize (Hdel k c Hk).
    destruct c as [fd|fd]; cbn in Ho.
    + destruct (fd_inv_drop _ _ _ Hdel) as (t' & [= <-] & Hi').
      destruct (Hdup _ fd Hi') as (r & t' & Hd & Hr). rewrite Hd in Ho.
      injection Ho as <-. eexists. split; [done|]. exact Hr.
    + injection Ho as <-. eexists. split; [done|]. by apply Hpush.
  - destruct (l !! k) as [c|] eqn:Hk; [|done]. cbn in Ho.
    destruct (fd_inv_drop _ _ _ (Hdel k c Hk)) as (t' & Hd & Hi'). rewrite Hd in Ho.
    injection Ho as <-. eexists. split; [done|]. exact Hi'.
Qed.

Lemma fd_run_inv cs y : fd_inv lent (fs_table y) (fs_held y) ->
  exists y', fd_run lent y cs = Ret y' /\ fd_inv lent (fs_table y') (fs_held y').
Proof.
  revert y. induction cs as [|c cs IH]; intros y Hi; cbn; [by exists y|].
  destruct (fd_exec lent y c) as [o|] eqn:Ho; [|by apply IH].
  destruct (fd_exec_inv y c o Hi Ho) as (y' & -> & Hi'). by apply IH.
Qed.
End inv.

(** ** Properties *)

(** C37 (invariant). In every program that borrows descriptors, clones and
    converts [CowFd]s and drops them, in any order and with any call failing for
    want of a free descriptor, no descriptor is closed that is not open; what is
    open is at every moment what the lenders have open plus the descriptors the
    [CowFd]s own, each owned by exactly one of them; every [CowFd] refers to an
    open descriptor, and a clone is of the same kind and on the same file. When
    no owned one is left the table is the lenders'. *)
Theorem cow_fds_owned_once `{KernelLaws} (lent : fd_table) (cs : list fd_call) :
  exists t l, fd_run lent (mkFdSys lent []) cs = Ret (mkFdSys t l)
  /\ (forall fd, is_Some (t !! fd) <-> is_Some (lent !! fd) \/ fd ∈ owned l)
  /\ lent ⊆ t /\ NoDup (owned l) /\ (forall fd, fd ∈ owned l -> lent !! fd = None)
  /\ (owned l = [] -> t = lent)
  /\ (forall c, c ∈ l -> is_Some (t !! as_fd c)
       /\ exists r t', try_clone c t = (Ret r, t')
          /\ match r with
             | Ok c' => is_owned c' = is_owned c /\ t' !! as_fd c' = t !! as_fd c
             | Err _ => t' = t /\ is_owned c = true
             end).
Proof.
  destruct (fd_run_inv lent cs (mkFdSys lent []) (fd_inv_start lent)) as ([t l] & Hr & Hi). cbn in Hi.
  exists t, l. split; [done|]. pose proof (fi_owned _ _ _ Hi) as Ho. pose proof (fi_lent _ _ _ Hi) as Hlt.
  assert (forall fd, is_Some (t !! fd) <-> is_Some (lent !! fd) \/ fd ∈ owned l) as Hopen.
  { intros fd. rewrite Ho. split.
    - intros Hs. destruct (lent !! fd) eqn:?; [left; eauto|by right].
    - intros [[f Hf]|[Hs _]]; [|done]. exists f. by eapply lookup_weaken. }
  split; [done|]. split; [done|]. split; [by apply (fi_nodup _ _ _ Hi)|].
  split; [by intros fd [_ ?]%Ho|]. split.
  { intros Hn. apply map_eq. intros fd. destruct (lent !! fd) as [f|] eqn:Hf.
    - by eapply lookup_weaken.
    - apply eq_None_not_Some. rewrite Hopen, Hf, Hn. intros [[? ?]|?%elem_of_nil]; done. }
  intros c Hc. split; [by eapply held_open|].
  destruct c as [fd|fd]; [by exists (Ok (Borrowed fd)), t|].
  destruct (dup_fd_inv lent t l fd Hi) as (r & t' & Hd & Hr'). exists (map_ok Owned r), t'.
  cbn. cbv [mbind stateful_bind]. rewrite Hd. split; [done|]. destruct r; cbn; naive_solver.
Qed.

(** A kernel that gives the lowest number that is free, below a limit. *)
Definition lowest_fd : Kernel := {| new_fd t :=
  match list_find (fun fd => t !! fd = None) (seqZ 0 64) with
  | Some (_, fd) => Ok fd
  | None => Err 24
  end |}.

Lemma lowest_fd_laws : @KernelLaws lowest_fd.
Proof.
  split. intros t fd. cbn. destruct (list_find _ _) as [[i fd']|] eqn:Hf; [|done].
  intros [= <-]. by apply list_find_Some in Hf as (_ & ? & _).
Qed.

Definition demo_lent : fd_table := {[ 0 := 10%nat; 2 := 12%nat ]}.
Definition demo_fd_calls : list fd_call := [FBorrow 2; FCloneToOwned 0; FClone 1; FIntoOwned 0; FDrop 1].

Lemma cow_fds_owned_once_witness :
  @fd_run lowest_fd demo_lent (mkFdSys demo_lent []) demo_fd_calls
    = Ret (mkFdSys (<[4 := 12%nat]> (<[1 := 12%nat]> demo_lent)) [Owned 1; Owned 4])
  /\ exists t l, @fd_run lowest_fd demo_lent (mkFdSys demo_lent []) demo_fd_calls = Ret (mkFdSys t l)
     /\ NoDup (owned l) /\ demo_lent ⊆ t.
Proof.
  split; [vm_compute; reflexivity|].
  destruct (@cow_fds_owned_once lowest_fd lowest_fd_laws demo_lent demo_fd_calls)
    as (t & l & Hr & _ & Hlt & Hn & _).
  exists t, l. split; [exact Hr|]. split; [exact Hn|exact Hlt].
Defined.
