(* ===== verification/ExtUnix.v ===== *)
(** Passing descriptors over Unix-domain sockets: [SocketAncillary] and the
    [uds_*_vectored_with_ancillary] functions of zpr-ext/src/std/os/unix.rs.

    The control-message macros and structures of [libc] and the two system
    calls are parameters. *)

From S2P Require Import Prelude ExtStd.

(** ** [libc] *)

Definition is_i32 (x : Z) : Prop := - 2 ^ 31 <= x < 2 ^ 31.
#[global] Instance is_i32_dec x : Decision (is_i32 x).
Proof. unfold is_i32. apply _. Defined.

Record cmsghdr := mkCmsghdr { cmsg_len : Z; cmsg_level : Z; cmsg_type : Z }.

(** [CMSG_DATA] is the offset of the data from the header; the header is read
    and written in place. [CMSG_FIRSTHDR], for a control area of the given
    length, says whether there is a header (at offset 0). *)
Class Libc := {
  SOL_SOCKET : Z;
  SCM_RIGHTS : Z;
  sizeof_cmsghdr : Z;
  alignof_cmsghdr : Z;
  CMSG_LEN : Z -> Z;
  CMSG_SPACE : Z -> Z;
  CMSG_DATA : Z;
  CMSG_FIRSTHDR : Z -> bool;
  get_cmsghdr : list Z -> cmsghdr;
  set_cmsghdr : cmsghdr -> list Z -> list Z;
}.

(** cmsg(3): the data follows the header at a fixed distance, [CMSG_LEN] counts
    up to the end of the data and [CMSG_SPACE] up to the end of its padding;
    there is a header when it fits. *)
Class LibcLaws `{Libc} := {
  sizeof_cmsghdr_pos : 0 < sizeof_cmsghdr;
  CMSG_DATA_bounds : sizeof_cmsghdr <= CMSG_DATA < 2 ^ 16;
  CMSG_LEN_data n : 0 <= n < 2 ^ 31 -> CMSG_LEN n = CMSG_DATA + n;
  CMSG_SPACE_bounds n : 0 <= n < 2 ^ 31 -> CMSG_LEN n <= CMSG_SPACE n;
  CMSG_FIRSTHDR_fits n : CMSG_FIRSTHDR n = bool_decide (sizeof_cmsghdr <= n);
  set_cmsghdr_length h b : length (set_cmsghdr h b) = length b;
  rights_i32 : is_i32 SOL_SOCKET /\ is_i32 SCM_RIGHTS;
  get_set_cmsghdr h b :
    is_usize (cmsg_len h) -> is_i32 (cmsg_level h) -> is_i32 (cmsg_type h) ->
    sizeof_cmsghdr <= Z.of_nat (length b) -> get_cmsghdr (set_cmsghdr h b) = h;
  get_cmsghdr_prefix b b' :
    take (Z.to_nat sizeof_cmsghdr) b = take (Z.to_nat sizeof_cmsghdr) b' -> get_cmsghdr b = get_cmsghdr b';
}.

(** ** Bytes *)

Definition sizeof_RawFd : Z := 4.

(** A [RawFd] (an [i32]) in memory, on a little-endian machine. *)
Definition fd_to_bytes (fd : Z) : list Z :=
  let x := wrap 32 fd in
  [wrap 8 x; wrap 8 (Z.shiftr x 8); wrap 8 (Z.shiftr x 16); wrap 8 (Z.shiftr x 24)].
Definition fd_from_bytes (b0 b1 b2 b3 : Z) : Z :=
  let x := b0 + 2 ^ 8 * b1 + 2 ^ 16 * b2 + 2 ^ 24 * b3 in
  if x <? 2 ^ 31 then x else x - 2 ^ 32.

(** [slice::from_raw_parts(p.cast(), n)] for [RawFd]s; [None] past the end. *)
Fixpoint read_fds (n : nat) (b : list Z) : option (list Z) :=
  match n, b with
  | O, _ => Some []
  | S n, b0 :: b1 :: b2 :: b3 :: b => l ← read_fds n b; Some (fd_from_bytes b0 b1 b2 b3 :: l)
  | S _, _ => None
  end.

(** Overwriting [src]'s length of bytes at an offset. *)
Definition write_at (off : nat) (src b : list Z) : list Z :=
  take off b ++ src ++ drop (off + length src) b.

Definition mul_u (w a b : Z) : outcome Z := if a * b <? 2 ^ w then Ret (a * b) else Panic.

(** ** [SocketAncillary] *)

(** The buffer is a slice: an address and its bytes. *)
Record SocketAncillary := mkAncillary { buffer_addr : Z; buffer : list Z; fds : list CowFd }.

Definition new (addr : Z) (b : list Z) : SocketAncillary := mkAncillary addr b [].
Definition add_fds (self : SocketAncillary) (l : list Z) : bool * SocketAncillary :=
  (true, mkAncillary (buffer_addr self) (buffer self) (fds self ++ map from_borrowed l)).
Definition clear (self : SocketAncillary) : stateful fd_table SocketAncillary :=
  drop_cows (fds self);; mret (mkAncillary (buffer_addr self) (buffer self) []).
Definition is_empty (self : SocketAncillary) : bool :=
  match fds self with [] => true | _ => false end.

Inductive AncillaryData : Type :=
| ScmRights (l : list CowFd)
| ScmCredentials.

(** What the iterator it returns yields. *)
Definition into_messages (self : SocketAncillary) : list (result AncillaryData unit) :=
  if is_empty self then [] else [Ok (ScmRights (fds self))].

(** ** The system calls *)

(** What a call leaves: its result, [errno], and for [recvmsg] the buffers, the
    control area with its length, and the descriptors it has opened. *)
Record recv_result := mkRecv {
  rm_res : Z; rm_errno : Z;
  rm_bufs : list (list Z); rm_control : list Z; rm_controllen : Z; rm_table : fd_table;
}.

Section uds.
Context `{Libc}.

(** The control area that [sendmsg] is given: none when there is nothing to send. *)
Definition send_control (self : SocketAncillary) : outcome (option (list Z) * SocketAncillary) :=
  let l := map as_fd (fds self) in
  fds_size ← mul_u 64 (Z.of_nat (length l)) sizeof_RawFd;
  if 0 <? fds_size then
    let msg_controllen := CMSG_SPACE (wrap 32 fds_size) in
    unsafe_requires CMSG_FIRSTHDR msg_controllen;;
    unsafe_requires (buffer_addr self mod alignof_cmsghdr =? 0);;
    unsafe_requires (sizeof_cmsghdr <=? Z.of_nat (length (buffer self)));;
    let b := set_cmsghdr (mkCmsghdr (CMSG_LEN (wrap 32 fds_size)) SOL_SOCKET SCM_RIGHTS) (buffer self) in
    unsafe_requires (CMSG_DATA + fds_size <=? Z.of_nat (length b));;
    let b := write_at (Z.to_nat CMSG_DATA) (l ≫= fd_to_bytes) b in
    unsafe_requires (msg_controllen <=? Z.of_nat (length b));;
    Ret (Some (take (Z.to_nat msg_controllen) b), mkAncillary (buffer_addr self) b (fds self))
  else Ret (None, self).

(** [sendmsg] gets the socket, the buffers and the control area, and changes the
    state of the kernel. *)
Definition uds_send_vectored_with_ancillary {K}
    (sendmsg : Z -> list (list Z) -> option (list Z) -> K -> (Z * Z) * K)
    (fd : Z) (bufs : list (list Z)) : stateful (K * SocketAncillary) (result Z Z) := fun '(k, ancillary) =>
  match send_control ancillary with
  | Ret (control, ancillary') =>
      let '((res, errno), k') := sendmsg fd bufs control k in
      (Ret (if 0 <? res then Ok (wrap 64 res) else Err errno), (k', ancillary'))
  | Panic => (Panic, (k, ancillary))
  | UB => (UB, (k, ancillary))
  | OutOfFuel => (OutOfFuel, (k, ancillary))
  end.

(** The descriptors of the first control message, when it holds some. *)
Definition recv_fds (addr : Z) (control : list Z) (controllen : Z) : outcome (option (list CowFd)) :=
  if CMSG_FIRSTHDR controllen then
    unsafe_requires (addr mod alignof_cmsghdr =? 0);;
    unsafe_requires (sizeof_cmsghdr <=? Z.of_nat (length control));;
    let h := get_cmsghdr control in
    if (cmsg_level h =? SOL_SOCKET) && (cmsg_type h =? SCM_RIGHTS) then
      twice ← mul_u 32 2 (CMSG_LEN sizeof_RawFd);
      size_of_hdr ← sub_u 32 twice (CMSG_LEN (2 * sizeof_RawFd));
      size ← sub_u 64 (cmsg_len h) size_of_hdr;
      let num_fds := size / sizeof_RawFd in
      match read_fds (Z.to_nat num_fds) (drop (Z.to_nat CMSG_DATA) control) with
      | None => UB
      | Some l => l ← mapM from_raw_fd l; Ret (Some l)
      end
    else Ret None
  else Ret None.

(** [recvmsg] gets the socket, the buffers, and the control area, all of the
    buffer. *)
Definition uds_recv_vectored_with_ancillary
    (recvmsg : fd_table -> Z -> list (list Z) -> list Z -> recv_result)
    (fd : Z) (bufs : list (list Z)) (ancillary : SocketAncillary)
    : stateful fd_table (result Z Z * list (list Z) * SocketAncillary) := fun t =>
  let r := recvmsg t fd bufs (buffer ancillary) in
  let anc l := mkAncillary (buffer_addr ancillary) (rm_control r) l in
  let res := if 0 <? rm_res r then Ok (wrap 64 (rm_res r)) else Err (rm_errno r) in
  match recv_fds (buffer_addr ancillary) (rm_control r) (rm_controllen r) with
  | Ret None => (Ret (res, rm_bufs r, anc (fds ancillary)), rm_table r)
  | Ret (Some l) => (drop_cows (fds ancillary);; mret (res, rm_bufs r, anc l)) (rm_table r)
  | Panic => (Panic, rm_table r)
  | UB => (UB, rm_table r)
  | OutOfFuel => (OutOfFuel, rm_table r)
  end.
End uds.

(** [UnixStreamExt for UnixStream]: the calls, on the stream's descriptor. *)
Module unix_stream.
Section stream.
Context `{Libc}.
Definition send_vectored_with_ancillary {K}
    (sendmsg : Z -> list (list Z) -> option (list Z) -> K -> (Z * Z) * K)
    (self : Z) (bufs : list (list Z)) : stateful (K * SocketAncillary) (result Z Z) :=
  uds_send_vectored_with_ancillary sendmsg self bufs.

Definition recv_vectored_with_ancillary
    (recvmsg : fd_table -> Z -> list (list Z) -> list Z -> recv_result)
    (self : Z) (bufs : list (list Z)) (ancillary : SocketAncillary)
    : stateful fd_table (result Z Z * list (list Z) * SocketAncillary) :=
  uds_recv_vectored_with_ancillary recvmsg self bufs ancillary.
End stream.
End unix_stream.

(** ** The unit tests

    A pair of streams [s1] and [s2], the file of /dev/zero, and the addresses of
    the two buffers, which are arrays of bytes on the stack; [read_byte] is
    [read_exact] of one byte. *)

Section tests.
Context `{Libc} `{Kernel} {K : Type}.
Context (sendmsg : Z -> list (list Z) -> option (list Z) -> K -> (Z * Z) * K).
Context (recvmsg : K -> fd_table -> Z -> list (list Z) -> list Z -> recv_result).
Context (read_byte : fd_table -> Z -> result Z Z).
Context (s1 s2 zero_file in_addr out_addr : Z).

Definition lift {A} (o : outcome A) : stateful fd_table A := fun t => (o, t).
Definition unwrap {A} (r : result A Z) : outcome A :=
  match r with Ok a => Ret a | Err _ => Panic end.

(** [assert_eq!(s1.send_vectored_with_ancillary(..).unwrap(), 3)] *)
Definition send_3 (k : K) (ancillary_in : SocketAncillary) : outcome K :=
  let '(r, (k, _)) := unix_stream.send_vectored_with_ancillary sendmsg s1 [[1; 2; 3]] (k, ancillary_in) in
  r ← r; n ← unwrap r;
  assert! (n =? 3) ;; Ret k.

Definition recv_3 (k : K) : stateful fd_table SocketAncillary :=
  '(r, _, ancillary_out) ← unix_stream.recv_vectored_with_ancillary (recvmsg k) s2 [replicate 4 0]
                             (new out_addr (replicate 256 0));
  n ← lift (unwrap r);
  _ ← lift (assert! (n =? 3) ;; Ret tt);
  mret ancillary_out.

Definition ancillary_no_ancillary (k : K) : stateful fd_table unit :=
  k ← lift (send_3 k (new in_addr (replicate 256 0)));
  ancillary_out ← recv_3 k;
  lift (match into_messages ancillary_out with [] => Ret tt | _ => Panic end).

(** The loop over the descriptors received; each [File] is dropped. *)
Fixpoint read_zeros (l : list CowFd) : stateful fd_table unit :=
  match l with
  | [] => mret tt
  | fd :: l =>
      r ← try_into_owned fd; file ← lift (unwrap r);
      b ← (fun t => (unwrap (read_byte t file), t));
      _ ← lift (assert! (b =? 0) ;; Ret tt);
      _ ← close_fd file;
      read_zeros l
  end.

Definition ancillary_fd (k : K) : stateful fd_table unit :=
  let '(_, ancillary_in) := add_fds (new in_addr (replicate 256 0)) [zero_file] in
  k ← lift (send_3 k ancillary_in);
  ancillary_out ← recv_3 k;
  match into_messages ancillary_out with
  | [Ok (ScmRights fds)] => _ ← lift (assert! (length fds =? 1)%nat ;; Ret tt); read_zeros fds
  | _ => lift Panic
  end.
End tests.
