(* ===== verification/ExtUnixCorrect.v ===== *)
(** What is received is what was sent, and what goes wrong when receiving
    fails. *)

From S2P Require Import Prelude ExtStd ExtUnix.

(** ** Descriptors in memory *)

Lemma fd_bytes_roundtrip fd b0 b1 b2 b3 : is_i32 fd -> fd_to_bytes fd = [b0; b1; b2; b3] ->
  fd_from_bytes b0 b1 b2 b3 = fd.
Proof.
  unfold is_i32, fd_to_bytes, fd_from_bytes, wrap. intros Hfd [= <- <- <- <-].
  rewrite !Z.shiftr_div_pow2 by lia.
  set (x := fd mod 2 ^ 32). pose proof (Z.mod_pos_bound fd (2 ^ 32) ltac:(lia)).
  assert (x = if 0 <=? fd then fd else fd + 2 ^ 32) as Hx.
  { subst x. destruct (Z.leb_spec 0 fd); [by apply Z.mod_small; lia|].
    symmetry. apply (Z.mod_unique_pos _ _ (-1)); lia. }
  assert (x mod 2 ^ 8 + 2 ^ 8 * (x / 2 ^ 8 mod 2 ^ 8) + 2 ^ 16 * (x / 2 ^ 16 mod 2 ^ 8)
    + 2 ^ 24 * (x / 2 ^ 24 mod 2 ^ 8) = x) as ->.
  { assert (0 <= x < 2 ^ 32) as Hb by lia. clear -Hb. Z.div_mod_to_equations. lia. }
  destruct (Z.leb_spec 0 fd), (Z.ltb_spec x (2 ^ 31)); lia.
Qed.

Lemma read_fds_written l rest : Forall is_i32 l ->
  read_fds (length l) ((l ≫= fd_to_bytes) ++ rest) = Some l.
Proof.
  induction 1 as [|fd l Hfd _ IH]; [done|]. cbn -[fd_to_bytes].
  destruct (fd_to_bytes fd) as [|b0 [|b1 [|b2 [|b3 [|]]]]] eqn:Hb; try done.
  cbn. rewrite IH. cbn. by rewrite (fd_bytes_roundtrip fd).
Qed.

Lemma length_fds_bytes l : length (l ≫= fd_to_bytes) = (4 * length l)%nat.
Proof. induction l as [|fd l IH]; [done|]. cbn -[fd_to_bytes]. rewrite length_app, IH. cbn. lia. Qed.

Lemma mapM_from_raw_fd l : Forall (fun fd => fd <> -1) l -> mapM from_raw_fd l = Ret (map Owned l).
Proof.
  induction 1 as [|fd l Hfd _ IH]; [done|].
  change (mapM from_raw_fd (fd :: l)) with (c ← from_raw_fd fd; k ← mapM from_raw_fd l; Ret (c :: k)).
  rewrite IH. unfold from_raw_fd. by destruct (Z.eqb_spec fd (-1)).
Qed.

(** ** The table after drops *)

Lemma drop_cows_owned l t : NoDup l -> (forall fd, fd ∈ l -> is_Some (t !! fd)) ->
  exists t', drop_cows (map Owned l) t = (Ret tt, t')
    /\ forall fd, t' !! fd = if decide (fd ∈ l) then None else t !! fd.
Proof.
  intros Hn. revert t. induction Hn as [|fd l Hfd Hn IH]; intros t Ho.
  - exists t. split; [done|]. intros fd. by rewrite decide_False by (by intros ?%elem_of_nil).
  - destruct (Ho fd) as [f Hf]; [by left|].
    destruct (IH (delete fd t)) as (t' & Ht' & Hl).
    { intros fd' Hfd'. rewrite lookup_delete_ne by congruence. apply Ho. by right. }
    exists t'. split.
    { cbn. cbv [mbind stateful_bind]. unfold close_fd. by rewrite Hf. }
    intros fd'. rewrite Hl. destruct (decide (fd' = fd)) as [->|Hne].
    + rewrite lookup_delete_eq. repeat case_decide; try done. exfalso. set_solver.
    + rewrite lookup_delete_ne by done. repeat case_decide; set_solver.
Qed.

(** ** The control message *)

Section control.
Context `{LibcLaws}.

(** The control message that carries [l], written over [b]. *)
Definition rights_message (l : list Z) (b : list Z) : list Z :=
  write_at (Z.to_nat CMSG_DATA) (l ≫= fd_to_bytes)
    (set_cmsghdr (mkCmsghdr (CMSG_LEN (sizeof_RawFd * Z.of_nat (length l))) SOL_SOCKET SCM_RIGHTS) b).

Lemma size_of_hdr_data :
  (twice ← mul_u 32 2 (CMSG_LEN sizeof_RawFd); sub_u 32 twice (CMSG_LEN (2 * sizeof_RawFd)))
  = Ret CMSG_DATA.
Proof.
  pose proof CMSG_DATA_bounds. pose proof sizeof_cmsghdr_pos.
  rewrite !CMSG_LEN_data by (unfold sizeof_RawFd; lia). unfold mul_u, sizeof_RawFd.
  destruct (Z.ltb_spec (2 * (CMSG_DATA + 4)) (2 ^ 32)); [|lia]. cbn -[sub_u].
  rewrite sub_u_Ret by lia. f_equal. lia.
Qed.

Lemma recv_rights addr l b rest controllen :
  let c := take (Z.to_nat CMSG_DATA) (rights_message l b) ++ (l ≫= fd_to_bytes) ++ rest in
  addr mod alignof_cmsghdr = 0 -> sizeof_cmsghdr <= controllen ->
  CMSG_DATA <= Z.of_nat (length b) -> 4 * Z.of_nat (length l) < 2 ^ 31 ->
  Forall is_i32 l -> Forall (fun fd => fd <> -1) l ->
  recv_fds addr c controllen = Ret (Some (map Owned l)).
Proof.
  intros c Ha Hc Hb Hl Hi Hn. pose proof CMSG_DATA_bounds. pose proof sizeof_cmsghdr_pos.
  set (h := mkCmsghdr (CMSG_LEN (sizeof_RawFd * Z.of_nat (length l))) SOL_SOCKET SCM_RIGHTS).
  assert (length (take (Z.to_nat CMSG_DATA) (set_cmsghdr h b)) = Z.to_nat CMSG_DATA) as Htake.
  { rewrite length_take, set_cmsghdr_length. lia. }
  assert (c = take (Z.to_nat CMSG_DATA) (set_cmsghdr h b) ++ (l ≫= fd_to_bytes) ++ rest) as ->.
  { subst c. unfold rights_message, write_at. fold h. f_equal.
    rewrite take_app_le by lia. rewrite take_take. f_equal. lia. }
  unfold recv_fds. rewrite CMSG_FIRSTHDR_fits, bool_decide_eq_true_2 by done.
  rewrite (proj2 (Z.eqb_eq _ _) Ha).
  rewrite (proj2 (Z.leb_le _ _)) by (rewrite length_app, Htake; lia).
  assert (get_cmsghdr (take (Z.to_nat CMSG_DATA) (set_cmsghdr h b) ++ (l ≫= fd_to_bytes) ++ rest) = h) as ->.
  { etransitivity; [|apply (get_set_cmsghdr h b);
      [by subst h; cbn; rewrite CMSG_LEN_data; unfold sizeof_RawFd, is_uint; lia|apply rights_i32..|lia]].
    apply get_cmsghdr_prefix. rewrite take_app_le by lia. rewrite take_take. f_equal. lia. }
  cbn [h cmsg_level cmsg_type cmsg_len]. rewrite !Z.eqb_refl. cbn [andb].
  pose proof size_of_hdr_data as Hs. destruct (mul_u 32 2 _) as [x| | |]; try done.
  cbn in Hs |- *. rewrite Hs. cbn -[sub_u CMSG_DATA].
  rewrite CMSG_LEN_data by (unfold sizeof_RawFd; lia).
  rewrite sub_u_Ret by (unfold sizeof_RawFd; lia). cbn -[Z.div].
  replace (Z.to_nat ((CMSG_DATA + sizeof_RawFd * Z.of_nat (length l) - CMSG_DATA) / sizeof_RawFd))
    with (length l).
  2: { unfold sizeof_RawFd. replace (CMSG_DATA + 4 * Z.of_nat (length l) - CMSG_DATA)
         with (Z.of_nat (length l) * 4) by lia. rewrite Z.div_mul by lia. lia. }
  rewrite drop_app_length' by done. rewrite read_fds_written by done.
  by rewrite mapM_from_raw_fd.
Qed.

Lemma take_rights_message l b k :
  CMSG_DATA + sizeof_RawFd * Z.of_nat (length l) <= k -> k <= Z.of_nat (length b) ->
  exists rest, take (Z.to_nat k) (rights_message l b)
    = take (Z.to_nat CMSG_DATA) (rights_message l b) ++ (l ≫= fd_to_bytes) ++ rest.
Proof.
  pose proof CMSG_DATA_bounds. pose proof sizeof_cmsghdr_pos. unfold sizeof_RawFd. intros Hk Hb.
  exists (drop (Z.to_nat CMSG_DATA + length (l ≫= fd_to_bytes)) (take (Z.to_nat k) (rights_message l b))).
  assert (take (Z.to_nat CMSG_DATA + length (l ≫= fd_to_bytes)) (rights_message l b)
    = take (Z.to_nat CMSG_DATA) (rights_message l b) ++ (l ≫= fd_to_bytes)) as Hsplit.
  { unfold rights_message, write_at.
    set (h := set_cmsghdr _ b). assert (length h = length b) as Hh by apply set_cmsghdr_length.
    rewrite (take_app_le _ _ (Z.to_nat CMSG_DATA)) by (rewrite length_take; lia).
    rewrite take_take, Nat.min_id, app_assoc.
    rewrite take_app_le, firstn_all2; rewrite ?length_app, ?length_take; done || lia. }
  rewrite app_assoc, <- Hsplit. rewrite <- (take_drop (Z.to_nat CMSG_DATA + length (l ≫= fd_to_bytes)) (take (Z.to_nat k) _)) at 1.
  rewrite take_take, length_fds_bytes. do 2 f_equal. lia.
Qed.

Lemma send_control_message anc : let l := map as_fd (fds anc) in let n := sizeof_RawFd * Z.of_nat (length l) in
  l <> [] -> n < 2 ^ 31 ->
  send_control anc =
    if decide (buffer_addr anc mod alignof_cmsghdr = 0 /\ CMSG_SPACE n <= Z.of_nat (length (buffer anc))) then
      let b := rights_message l (buffer anc) in
      Ret (Some (take (Z.to_nat (CMSG_SPACE n)) b), mkAncillary (buffer_addr anc) b (fds anc))
    else UB.
Proof.
  intros l n Hl Hn. pose proof CMSG_DATA_bounds. pose proof sizeof_cmsghdr_pos.
  assert (0 < n) as Hpos. { subst n. unfold sizeof_RawFd. destruct l; [done|]. cbn [length]. lia. }
  assert (CMSG_DATA + n <= CMSG_SPACE n) as Hsp. { rewrite <- CMSG_LEN_data by lia. apply CMSG_SPACE_bounds. lia. }
  unfold send_control. fold l. unfold mul_u. rewrite (Z.mul_comm (Z.of_nat _)). fold n.
  rewrite (proj2 (Z.ltb_lt _ _)) by lia. cbn -[write_at wrap]. rewrite (proj2 (Z.ltb_lt _ _) Hpos).
  rewrite wrap_small by (unfold is_uint; lia).
  rewrite CMSG_FIRSTHDR_fits, bool_decide_eq_true_2 by lia.
  assert (length (rights_message l (buffer anc)) = length (buffer anc)
    \/ Z.of_nat (length (buffer anc)) < CMSG_DATA + n) as Hlen.
  { destruct (Z.ltb_spec (Z.of_nat (length (buffer anc))) (CMSG_DATA + n)); [by right|left].
    subst n. unfold rights_message, write_at, sizeof_RawFd in *.
    rewrite !length_app, length_take, length_drop, !length_fds_bytes, set_cmsghdr_length. lia. }
  unfold rights_message in Hlen |- *. fold n in Hlen |- *. rewrite set_cmsghdr_length.
  destruct (Z.eqb_spec (buffer_addr anc mod alignof_cmsghdr) 0), (decide _); try tauto;
  destruct (Z.leb_spec sizeof_cmsghdr (Z.of_nat (length (buffer anc)))); try lia;
  destruct (Z.leb_spec (CMSG_DATA + n) (Z.of_nat (length (buffer anc)))); try lia; try done;
  destruct Hlen as [Hlen|]; try lia; rewrite Hlen;
  destruct (Z.leb_spec (CMSG_SPACE n) (Z.of_nat (length (buffer anc)))); try lia; done.
Qed.
End control.

(** ** Linux on 64 bits *)

#[local] Definition align8 (n : Z) : Z := Z.land (n + 7) (Z.lnot 7).

Definition linux : Libc := {|
  SOL_SOCKET := 1; SCM_RIGHTS := 1;
  sizeof_cmsghdr := 16; alignof_cmsghdr := 8;
  CMSG_LEN n := 16 + n;
  CMSG_SPACE n := 16 + align8 n;
  CMSG_DATA := 16;
  CMSG_FIRSTHDR n := 16 <=? n;
  set_cmsghdr h b :=
    if (16 <=? length b)%nat then
      fd_to_bytes (cmsg_len h) ++ fd_to_bytes (cmsg_len h / 2 ^ 32)
        ++ fd_to_bytes (cmsg_level h) ++ fd_to_bytes (cmsg_type h) ++ drop 16 b
    else b;
  get_cmsghdr b :=
    match read_fds 4 (take 16 b) with
    | Some [lo; hi; level; type] => mkCmsghdr (wrap 32 lo + 2 ^ 32 * wrap 32 hi) level type
    | _ => mkCmsghdr 0 0 0
    end |}.

Lemma fd_to_bytes_wrap x : exists fd, is_i32 fd /\ fd_to_bytes fd = fd_to_bytes x /\ wrap 32 fd = wrap 32 x.
Proof.
  exists (if wrap 32 x <? 2 ^ 31 then wrap 32 x else wrap 32 x - 2 ^ 32).
  assert (wrap 32 (if wrap 32 x <? 2 ^ 31 then wrap 32 x else wrap 32 x - 2 ^ 32) = wrap 32 x) as Hw.
  { unfold wrap. destruct (_ <? _); [by rewrite Zmod_mod|].
    rewrite <- (Z.mul_1_l (2 ^ 32)) at 2. rewrite Zminus_mod, Z_mod_mult, Z.sub_0_r, !Zmod_mod. done. }
  split; [|split; [unfold fd_to_bytes; by rewrite Hw|done]].
  pose proof (wrap_bound 32 x ltac:(lia)). unfold is_uint, is_i32 in *.
  destruct (Z.ltb_spec (wrap 32 x) (2 ^ 31)); lia.
Qed.

Lemma linux_laws : @LibcLaws linux.
Proof.
  split; cbn -[fd_to_bytes read_fds take drop wrap Z.pow Nat.leb].
  - lia.
  - lia.
  - done.
  - intros n Hn. unfold align8. rewrite <- Z.ldiff_land. change 7 with (Z.ones 3).
    rewrite Z.ldiff_ones_r, Z.shiftl_mul_pow2, Z.shiftr_div_pow2 by lia.
    change (Z.ones 3) with 7. change (2 ^ 3) with 8. Z.div_mod_to_equations. lia.
  - intros n. destruct (Z.leb_spec 16 n); [by rewrite bool_decide_eq_true_2 by lia|by rewrite bool_decide_eq_false_2 by lia].
  - intros h b. destruct (Nat.leb_spec 16 (length b)); [|done].
    rewrite !length_app, length_drop. cbn [length fd_to_bytes]. unfold fd_to_bytes. cbn [length]. lia.
  - split; by_decide.
  - intros [len level type] b Hl Hv Ht Hb. cbn -[fd_to_bytes read_fds take drop wrap Z.pow Nat.leb] in *.
    destruct (Nat.leb_spec 16 (length b)); [|lia].
    destruct (fd_to_bytes_wrap len) as (lo & Hlo & <- & Hlo').
    destruct (fd_to_bytes_wrap (len / 2 ^ 32)) as (hi & Hhi & <- & Hhi').
    pose proof (read_fds_written [lo; hi; level; type] []) as Hr.
    change ([lo; hi; level; type] ≫= fd_to_bytes) with
      (fd_to_bytes lo ++ fd_to_bytes hi ++ fd_to_bytes level ++ fd_to_bytes type ++ []) in Hr.
    change (take 16 _) with ((fd_to_bytes lo ++ fd_to_bytes hi ++ fd_to_bytes level ++ fd_to_bytes type ++ []) ++ []).
    cbn [length] in Hr. rewrite Hr by (by repeat (apply Forall_cons; split; [done|])).
    f_equal. rewrite Hlo', Hhi'. unfold wrap, is_uint in *.
    rewrite (Z.mod_small (len / 2 ^ 32)).
    + rewrite Z.add_comm. symmetry. apply Z.div_mod. lia.
    + split; [apply Z.div_pos|apply Z.div_lt_upper_bound]; lia.
  - intros b b' Hb. change (Z.to_nat 16) with 16%nat in Hb. by rewrite Hb.
Qed.

(** ** Properties *)

(** C35 (roundtrip). Sending a non-empty list of descriptors gives the kernel a
    control area of [CMSG_SPACE] bytes, when the buffer has as many and is
    aligned for a header; otherwise it has undefined behaviour, since the
    function checks neither. When the kernel delivers that area with the numbers
    [l'] it has given the descriptors in the receiver, whatever follows it in
    the receiver's buffer, the receiver owns exactly [l'], in order, and the
    messages yield them. *)
Theorem sent_fds_are_received `{LibcLaws} (sender : SocketAncillary) (l' rest : list Z) addr controllen :
  let n := sizeof_RawFd * Z.of_nat (length (fds sender)) in
  fds sender <> [] -> n < 2 ^ 31 ->
  length l' = length (fds sender) -> Forall is_i32 l' -> Forall (fun fd => fd <> -1) l' ->
  addr mod alignof_cmsghdr = 0 -> sizeof_cmsghdr <= controllen ->
  let message l := write_at (Z.to_nat CMSG_DATA) (l ≫= fd_to_bytes) (
    set_cmsghdr (mkCmsghdr (CMSG_LEN n) SOL_SOCKET SCM_RIGHTS) (buffer sender)) in
  (buffer_addr sender mod alignof_cmsghdr = 0 /\ CMSG_SPACE n <= Z.of_nat (length (buffer sender)) ->
     (exists sender', send_control sender
        = Ret (Some (take (Z.to_nat (CMSG_SPACE n)) (message (map as_fd (fds sender)))), sender')
        /\ fds sender' = fds sender)
     /\ recv_fds addr (take (Z.to_nat (CMSG_SPACE n)) (message l') ++ rest) controllen
        = Ret (Some (map Owned l'))
     /\ into_messages (mkAncillary addr rest (map Owned l')) = [Ok (ScmRights (map Owned l'))])
  /\ (~ (buffer_addr sender mod alignof_cmsghdr = 0 /\ CMSG_SPACE n <= Z.of_nat (length (buffer sender))) ->
     send_control sender = UB).
Proof.
  intros n Hne Hn Hlen Hi Hm Ha Hc message.
  pose proof (send_control_message sender) as Hs. cbn in Hs. rewrite length_map in Hs.
  fold n in Hs. rewrite Hs; [|by intros ?%map_eq_nil|done]. clear Hs.
  split; intros Hfit; [|by destruct (decide _)].
  destruct (decide _) as [[Hb Hsp]|]; [|tauto]. clear Hfit.
  assert (forall l, length l = length (fds sender) -> message l = rights_message l (buffer sender)) as Hmsg.
  { intros l Hl. unfold message, rights_message. by rewrite Hl. }
  split; [|split].
  - exists (mkAncillary (buffer_addr sender) (rights_message (map as_fd (fds sender)) (buffer sender)) (fds sender)).
    split; [|done]. rewrite Hmsg by apply length_map. done.
  - rewrite Hmsg by done.
    pose proof CMSG_DATA_bounds. pose proof sizeof_cmsghdr_pos.
    assert (CMSG_DATA + n <= CMSG_SPACE n) as Hd.
    { rewrite <- CMSG_LEN_data by (subst n; unfold sizeof_RawFd in *; lia).
      apply CMSG_SPACE_bounds. subst n; unfold sizeof_RawFd in *; lia. }
    destruct (take_rights_message l' (buffer sender) (CMSG_SPACE n)) as [pad ->]; [rewrite Hlen; fold n; lia|done|].
    assert (0 <= n) by (subst n; unfold sizeof_RawFd; lia).
    rewrite <- !app_assoc. apply recv_rights; try done; [lia|].
    subst n. unfold sizeof_RawFd in *. lia.
  - unfold into_messages, is_empty. cbn.
    destruct l'; [|done]. by destruct (fds sender).
Qed.

(** C36 (error). A failed [recvmsg] leaves the control area as it was, but the
    function reads it all the same: a program that has received descriptors into
    a [SocketAncillary] (rather than added them to it) and receives into it
    again, unsuccessfully (there is nothing to read yet), is left owning the same descriptors a second time
    while the assignment to the field has closed them; clearing the value, like
    dropping it, then closes descriptors that it does not own. *)
Theorem failed_recv_readopts `{LibcLaws} recvmsg fd bufs bufs' addr b t anc n t1 errno l :
  uds_recv_vectored_with_ancillary recvmsg fd bufs (new addr b) t = (Ret (Ok n, bufs', anc), t1) ->
  fds anc = map Owned l -> l <> [] -> NoDup l -> (forall d, d ∈ l -> is_Some (t1 !! d)) ->
  recvmsg t1 fd bufs' (buffer anc)
    = mkRecv (-1) errno bufs' (buffer anc) (Z.of_nat (length (buffer anc))) t1 ->
  exists t2,
    uds_recv_vectored_with_ancillary recvmsg fd bufs' anc t1 = (Ret (Err errno, bufs', anc), t2)
    /\ (forall d, t2 !! d = if decide (d ∈ l) then None else t1 !! d)
    /\ (clear anc t2).1 = UB.
Proof.
  intros Hr Hl Hne Hn Ho Hfail.
  assert (exists cl, recv_fds addr (buffer anc) cl = Ret (Some (map Owned l)) /\ buffer_addr anc = addr)
    as (cl & Hrf & Ha).
  { unfold uds_recv_vectored_with_ancillary in Hr. cbn in Hr.
    set (r := recvmsg t fd bufs b) in *. exists (rm_controllen r).
    destruct (recv_fds addr (rm_control r) (rm_controllen r)) as [[l'|]| | |] eqn:Hrf; try done.
    - cbn in Hr. injection Hr as _ _ <- _. cbn in *. by subst l'.
    - injection Hr as _ _ <- _. cbn in Hl. by destruct l. }
  assert (recv_fds addr (buffer anc) (Z.of_nat (length (buffer anc))) = Ret (Some (map Owned l))) as Hrf'.
  { unfold recv_fds in *. rewrite CMSG_FIRSTHDR_fits in Hrf |- *.
    case_bool_decide; [|done]. destruct (addr mod alignof_cmsghdr =? 0); [|done].
    destruct (Z.leb_spec sizeof_cmsghdr (Z.of_nat (length (buffer anc)))); [|done].
    by rewrite bool_decide_eq_true_2. }
  destruct (drop_cows_owned l t1 Hn Ho) as (t2 & Hd & Ht2). exists t2.
  split; [|split; [done|]].
  - unfold uds_recv_vectored_with_ancillary. rewrite Hfail, Ha. cbn [rm_control rm_controllen rm_res rm_errno rm_bufs rm_table].
    rewrite Hrf'. cbv [mbind stateful_bind mret stateful_ret]. rewrite Hl, Hd. cbn.
    do 3 f_equal. destruct anc; cbn in *. by subst.
  - unfold clear. rewrite Hl. destruct l as [|d l]; [done|]. cbn. cbv [mbind stateful_bind].
    unfold close_fd. rewrite Ht2. by rewrite decide_True by (by left).
Qed.

Definition demo_sender : SocketAncillary :=
  mkAncillary 4096 (replicate 32 0) [Borrowed 3; Owned 300; Borrowed 5].

Lemma sent_fds_are_received_witness :
  exists c sender', @send_control linux demo_sender = Ret (Some c, sender')
  /\ length c = 32%nat
  /\ @recv_fds linux 8192 (take 16 c ++ ([7; 8; 70000] ≫= fd_to_bytes) ++ drop 28 c ++ [1; 2]) 40
    = Ret (Some [Owned 7; Owned 8; Owned 70000]).
Proof.
  destruct (@sent_fds_are_received linux linux_laws demo_sender [7; 8; 70000] [1; 2] 8192 40)
    as [Hok _]; [done|by_decide|reflexivity|by_decide..| |].
  { by_decide. }
  destruct Hok as ((sender' & Hs & _) & Hr & _); [split; by_decide|].
  eexists _, sender'. split; [exact Hs|]. split; [vm_compute; reflexivity|].
  etransitivity; [|exact Hr]. vm_compute. reflexivity.
Defined.

(** A kernel with one message to deliver, at first: descriptor 7 is open from
    then on. *)
Definition demo_recvmsg (t : fd_table) (fd : Z) (bufs : list (list Z)) (control : list Z) : recv_result :=
  match t !! 7 with
  | Some _ => mkRecv (-1) 11 bufs control (Z.of_nat (length control)) t
  | None => mkRecv 3 0 [[1; 2; 3]]
      (@set_cmsghdr linux (mkCmsghdr 20 1 1) (take 16 control) ++ fd_to_bytes 7 ++ drop 20 control) 24
      (<[7 := 1%nat]> t)
  end.

Definition demo_recv_table : fd_table := {[ 7 := 1%nat; 3 := 0%nat ]}.

Lemma failed_recv_readopts_witness :
  let anc := mkAncillary 0 ([20; 0; 0; 0; 0; 0; 0; 0; 1; 0; 0; 0; 1; 0; 0; 0; 7; 0; 0; 0] ++ replicate 12 0) [Owned 7] in
  exists t2,
    @uds_recv_vectored_with_ancillary linux demo_recvmsg 3 [[1; 2; 3]] anc demo_recv_table
      = (Ret (Err 11, [[1; 2; 3]], anc), t2)
    /\ t2 !! 7 = None /\ (clear anc t2).1 = UB.
Proof.
  intros anc.
  destruct (@failed_recv_readopts linux linux_laws demo_recvmsg 3 [[0; 0; 0]] [[1; 2; 3]] 0 (replicate 32 0)
    {[ 3 := 0%nat ]} anc 3 demo_recv_table 11 [7]) as (t2 & Hr & Hl & Hc).
  - vm_compute. reflexivity.
  - reflexivity.
  - discriminate.
  - by_decide.
  - intros d ->%list_elem_of_singleton. by exists 1%nat.
  - vm_compute. reflexivity.
  - exists t2. split; [exact Hr|]. split; [|exact Hc]. rewrite Hl. reflexivity.
Defined.

(** ** The unit tests *)

(** A kernel with one message in flight: its bytes, and the files of its
    descriptors.  Those that it opens are numbered from 10. *)
Definition in_flight : Type := fd_table * option (list Z * list nat).

Definition pair_sendmsg (fd : Z) (bufs : list (list Z)) (control : option (list Z)) (k : in_flight)
  : (Z * Z) * in_flight :=
  let l := match control with
           | None => Some []
           | Some c =>
               read_fds (Z.to_nat ((cmsg_len (@get_cmsghdr linux c) - 16) / 4)) (drop 16 c)
           end in
  match l ≫= mapM (fun fd => k.1 !! fd) with
  | Some files => ((Z.of_nat (length (concat bufs)), 0), (k.1, Some (concat bufs, files)))
  | None => ((-1, EBADF), k)
  end.

Definition pair_recvmsg (k : in_flight) (t : fd_table) (fd : Z) (bufs : list (list Z)) (control : list Z)
  : recv_result :=
  match k.2 with
  | None => mkRecv (-1) 11 bufs control (Z.of_nat (length control)) t
  | Some (data, []) => mkRecv (Z.of_nat (length data)) 0 [data] control 0 t
  | Some (data, files) =>
      let l := seqZ 10 (Z.of_nat (length files)) in
      let n := (16 + 4 * length files)%nat in
      mkRecv (Z.of_nat (length data)) 0 [data]
        (@set_cmsghdr linux (mkCmsghdr (Z.of_nat n) 1 1) (take 16 control)
          ++ (l ≫= fd_to_bytes) ++ drop n control)
        (Z.of_nat n) (list_to_map (zip l files) ∪ t)
  end.

#[local] Definition no_dup_fd : Kernel := {| new_fd _ := Err 24 |}.

(** Descriptors 3 and 4 are the sockets, 5 is /dev/zero: file 0 reads as zeros. *)
Definition pair_table : fd_table := {[ 3 := 1%nat; 4 := 2%nat; 5 := 0%nat ]}.
Definition pair_read (t : fd_table) (fd : Z) : result Z Z :=
  match t !! fd with Some O => Ok 0 | _ => Err EBADF end.

(** The tests pass, and leave the descriptors as they were; but nothing aligns
    the array of the sender for a control message: when it is not aligned, the
    test has undefined behaviour. *)
Example unix_tests_pass :
  @ancillary_no_ancillary linux _ pair_sendmsg pair_recvmsg 3 4 4096 8192 (pair_table, None) pair_table
    = (Ret tt, pair_table)
  /\ @ancillary_fd linux no_dup_fd _ pair_sendmsg pair_recvmsg pair_read 3 4 5 4096 8192 (pair_table, None)
      pair_table = (Ret tt, pair_table)
  /\ (@ancillary_fd linux no_dup_fd _ pair_sendmsg pair_recvmsg pair_read 3 4 5 4097 8192 (pair_table, None)
      pair_table).1 = UB.
Proof. by_decide. Qed.
