(* ===== verification/ExtTokio.v ===== *)
(** The asynchronous [UnixStreamExt] of zpr-ext/src/tokio.rs: the loops of
    [send_vectored_with_ancillary] and [recv_vectored_with_ancillary] around the
    system calls of ExtUnix.v.

    The reactor of tokio is a parameter, with its documented behaviour as laws. *)

From S2P Require Import Prelude ExtStd ExtUnix.

(** ** tokio *)

Inductive Interest : Type := READABLE | WRITABLE.

(** [io::ErrorKind::WouldBlock] *)
Definition EAGAIN : Z := 11.

Definition would_block (o : outcome (result Z Z)) : bool :=
  match o with Ret (Err e) => e =? EAGAIN | _ => false end.

(** A registered socket, and what will happen to it: whether it is marked ready,
    [readable().await] and [writable().await] ([None]: they wait forever),
    [try_io], and unmarking it. *)
Class Tokio (R : Type) := {
  ready : R -> Interest -> bool;
  await_ready : Interest -> R -> option (result unit Z * R);
  try_io {St} : Interest -> stateful St (result Z Z) -> stateful (R * St) (result Z Z);
  clear_ready : Interest -> R -> R;
}.

(** The closure of [try_io] is called only when the socket is marked ready for
    the interest; when it would block, the mark is removed. *)
Class TokioLaws (R : Type) {K : Tokio R} := {
  await_ready_ok i r r' : await_ready i r = Some (Ok tt, r') -> ready r' i = true;
  try_io_ready {St} i r (s : St) f : ready r i = true ->
    try_io i f (r, s) =
      let '(o, s') := f s in (o, (if would_block o then clear_ready i r else r, s'));
  try_io_not_ready {St} i r (s : St) f : ready r i = false ->
    try_io i f (r, s) = (Ret (Err EAGAIN), (r, s));
}.

(** ** The loops *)

(** What awaiting a call gives: its outcome, or it stays pending. *)
Inductive poll : Type :=
| Pending
| Done (o : outcome (result Z Z)).

Section loops.
Context `{Libc} {R : Type} {K : Tokio R}.

(** [loop { self.wait().await?; match self.try_io(interest, f) { .. } }] *)
Fixpoint io_loop {St} (fuel : nat) (wait interest : Interest) (f : stateful St (result Z Z)) (rs : R * St)
  : poll * (R * St) :=
  match fuel with
  | O => (Done OutOfFuel, rs)
  | S fuel' =>
      match await_ready wait rs.1 with
      | None => (Pending, rs)
      | Some (Err err, r) => (Done (Ret (Err err)), (r, rs.2))
      | Some (Ok _, r) =>
          let '(res, rs') := try_io interest f (r, rs.2) in
          if would_block res then io_loop fuel' wait interest f rs' else (Done res, rs')
      end
  end.

Definition send_vectored_with_ancillary {Kn} (fuel : nat)
    (sendmsg : Z -> list (list Z) -> option (list Z) -> Kn -> (Z * Z) * Kn) (fd : Z) (bufs : list (list Z))
  : R * (Kn * SocketAncillary) -> poll * (R * (Kn * SocketAncillary)) :=
  io_loop fuel WRITABLE WRITABLE (uds_send_vectored_with_ancillary sendmsg fd bufs).

(** What [uds_recv_vectored_with_ancillary] changes: the kernel, the buffers, the
    ancillary data and the descriptors. *)
Definition recv_state (Kn : Type) : Type := (Kn * list (list Z) * SocketAncillary * fd_table)%type.

Definition recv_call {Kn}
    (recvmsg : fd_table -> Z -> list (list Z) -> list Z -> Kn -> recv_result * Kn) (fd : Z)
  : stateful (recv_state Kn) (result Z Z) := fun '(k, bufs, ancillary, t) =>
  let k' := (recvmsg t fd bufs (buffer ancillary) k).2 in
  match uds_recv_vectored_with_ancillary (fun t fd b c => (recvmsg t fd b c k).1) fd bufs ancillary t with
  | (Ret (res, bufs', ancillary'), t') => (Ret res, (k', bufs', ancillary', t'))
  | (Panic, t') => (Panic, (k', bufs, ancillary, t'))
  | (UB, t') => (UB, (k', bufs, ancillary, t'))
  | (OutOfFuel, t') => (OutOfFuel, (k', bufs, ancillary, t'))
  end.

Definition recv_vectored_with_ancillary {Kn} (fuel : nat)
    (recvmsg : fd_table -> Z -> list (list Z) -> list Z -> Kn -> recv_result * Kn) (fd : Z)
  : R * recv_state Kn -> poll * (R * recv_state Kn) :=
  io_loop fuel READABLE WRITABLE (recv_call recvmsg fd).
End loops.
