(* ===== verification/ExtTokioCorrect.v ===== *)
(** What the asynchronous sends and receives of zpr-ext/src/tokio.rs return, and
    when they do not. *)

From S2P Require Import Prelude ExtStd ExtUnix ExtUnixCorrect ExtTokio.

(** The first of at most [n] calls that does not say that it would block. *)
Fixpoint attempts {St} (n : nat) (f : stateful St (result Z Z)) (s : St)
  : option (outcome (result Z Z) * St) :=
  match n with
  | O => None
  | S n' => let '(o, s') := f s in if would_block o then attempts n' f s' else Some (o, s')
  end.

Section loops.
Context `{Libc} {R : Type} {K : Tokio R} {KLaws : TokioLaws R}.

(** States from which the socket gets ready whenever it is waited for. *)
Definition keeps_getting_ready (wait interest : Interest) (live : R -> Prop) : Prop :=
  forall r, live r -> exists r', await_ready wait r = Some (Ok tt, r')
    /\ live r' /\ live (clear_ready interest r').

Lemma io_loop_attempts {St} i live (f : stateful St (result Z Z)) : keeps_getting_ready i i live ->
  forall n fuel r s, live r -> (n <= fuel)%nat ->
  match attempts n f s with
  | Some (o, s') => exists r', io_loop fuel i i f (r, s) = (Done o, (r', s'))
  | None => True
  end.
Proof.
  intros Hlive. induction n as [|n IH]; intros fuel r s Hr Hn; cbn [attempts]; [done|].
  destruct fuel as [|fuel]; [lia|]. destruct (Hlive r Hr) as (r' & Ha & Hr' & Hc).
  cbn [io_loop fst snd]. rewrite Ha, (try_io_ready i r' s f (await_ready_ok i r r' Ha)).
  destruct (f s) as [o s']. destruct (would_block o) eqn:Hw; rewrite ?Hw.
  - apply IH; [done|lia].
  - by exists r'.
Qed.

Lemma io_loop_inv {St} i live (f : stateful St (result Z Z)) : keeps_getting_ready i i live ->
  forall fuel r s o rs', live r -> io_loop fuel i i f (r, s) = (Done o, rs') -> o <> OutOfFuel ->
  exists n, attempts n f s = Some (o, rs'.2).
Proof.
  intros Hlive. induction fuel as [|fuel IH]; intros r s o rs' Hr; cbn [io_loop fst snd].
  { by intros [= <- _]. }
  destruct (Hlive r Hr) as (r' & Ha & Hr' & Hc).
  rewrite Ha, (try_io_ready i r' s f (await_ready_ok i r r' Ha)).
  destruct (f s) as [o1 s'] eqn:Hf. destruct (would_block o1) eqn:Hw; rewrite ?Hw.
  - intros Hl Ho. destruct (IH _ _ _ _ Hc Hl Ho) as [n Hn]. exists (S n). cbn. by rewrite Hf, Hw.
  - intros [= <- <-] _. exists 1%nat. cbn. by rewrite Hf, Hw.
Qed.

(** A loop whose call is not made, or would block each time. *)
Lemma io_loop_stuck {St} wait interest (stuck : R * St -> Prop) (f : stateful St (result Z Z)) :
  (forall r s, stuck (r, s) -> exists r', await_ready wait r = Some (Ok tt, r')
     /\ exists rs', try_io interest f (r', s) = (Ret (Err EAGAIN), rs') /\ stuck rs') ->
  forall fuel rs, stuck rs -> exists rs', io_loop fuel wait interest f rs = (Done OutOfFuel, rs') /\ stuck rs'.
Proof.
  intros Hs. induction fuel as [|fuel IH]; intros [r s] Hrs; cbn [io_loop fst snd]; [by eexists|].
  destruct (Hs r s Hrs) as (r' & -> & rs' & -> & Hrs'). cbn. by apply IH.
Qed.
End loops.

(** ** A reactor to try them on *)

(** The marks, and whether the socket gets ready again when it is waited for. *)
Record reactor := mkReactor { rc_readable : bool; rc_writable : bool; rc_again : bool }.

Definition rc_ready (r : reactor) (i : Interest) : bool :=
  match i with READABLE => rc_readable r | WRITABLE => rc_writable r end.

Definition rc_await (i : Interest) (r : reactor) : option (result unit Z * reactor) :=
  if rc_ready r i then Some (Ok tt, r)
  else if rc_again r then
    Some (Ok tt, match i with
                 | READABLE => mkReactor true (rc_writable r) (rc_again r)
                 | WRITABLE => mkReactor (rc_readable r) true (rc_again r)
                 end)
  else None.

Definition rc_clear (i : Interest) (r : reactor) : reactor :=
  match i with
  | READABLE => mkReactor false (rc_writable r) (rc_again r)
  | WRITABLE => mkReactor (rc_readable r) false (rc_again r)
  end.

#[export] Instance reactor_tokio : Tokio reactor := {
  ready := rc_ready;
  await_ready := rc_await;
  try_io St i f '(r, s) :=
    if rc_ready r i then
      let '(o, s') := f s in (o, (if would_block o then rc_clear i r else r, s'))
    else (Ret (Err EAGAIN), (r, s));
  clear_ready := rc_clear;
}.

#[export] Instance reactor_laws : TokioLaws reactor.
Proof.
  split.
  - intros i r r'. cbn. unfold rc_await. destruct (rc_ready r i) eqn:Hr; [by intros [= <-]|].
    destruct (rc_again r); [|done]. intros [= <-]. by destruct i.
  - intros St i r s f Hr. cbn in Hr |- *. by rewrite Hr.
  - intros St i r s f Hr. cbn in Hr |- *. by rewrite Hr.
Qed.

(** ** Theorems *)

(** C39 (termination). When the socket keeps getting writable, the asynchronous
    send returns, after as many attempts as it takes, what the first [sendmsg]
    that does not say that it would block returns, and no other result. *)
Theorem async_send_returns `{Libc} {R} {K : Tokio R} {KLaws : TokioLaws R} {Kn}
    (sendmsg : Z -> list (list Z) -> option (list Z) -> Kn -> (Z * Z) * Kn) fd bufs live (r : R) s :
  keeps_getting_ready WRITABLE WRITABLE live -> live r ->
  let call := uds_send_vectored_with_ancillary sendmsg fd bufs in
  (forall n o s', attempts n call s = Some (o, s') -> forall fuel, (n <= fuel)%nat ->
     exists r', send_vectored_with_ancillary fuel sendmsg fd bufs (r, s) = (Done o, (r', s')))
  /\ (forall fuel o rs', send_vectored_with_ancillary fuel sendmsg fd bufs (r, s) = (Done o, rs') ->
       o <> OutOfFuel -> exists n, attempts n call s = Some (o, rs'.2)).
Proof.
  intros Hlive Hr call. split.
  - intros n o s' Ha fuel Hn. pose proof (io_loop_attempts WRITABLE live call Hlive n fuel r s Hr Hn) as Hx.
    by rewrite Ha in Hx.
  - intros fuel o rs' Hl Ho. by eapply io_loop_inv.
Qed.

(** A kernel whose socket takes three bytes at the third attempt. *)
Definition demo_sendmsg (fd : Z) (bufs : list (list Z)) (control : option (list Z)) (k : nat) : (Z * Z) * nat :=
  match k with O => ((3, 0), 0%nat) | S k' => ((-1, EAGAIN), k') end.

Lemma async_send_returns_witness :
  @send_vectored_with_ancillary linux reactor _ nat 5 demo_sendmsg 3 [[1; 2; 3]]
    (mkReactor false false true, (2%nat, new 0 []))
  = (Done (Ret (Ok 3)), (mkReactor false true true, (0%nat, new 0 []))).
Proof.
  destruct (@async_send_returns linux reactor _ _ nat demo_sendmsg 3 [[1; 2; 3]] (fun r => rc_again r = true)
    (mkReactor false false true) (2%nat, new 0 [])) as [H _].
  - intros r Hr. cbn. unfold rc_await. rewrite Hr. cbn. destruct (rc_writable r); by eexists.
  - reflexivity.
  - destruct (H 3%nat (Ret (Ok 3)) (0%nat, new 0 []) eq_refl 5%nat) as (r' & Hr'); [lia|].
    rewrite Hr'. vm_compute in Hr'. injection Hr' as <-. reflexivity.
Defined.

(** C40 (error). The asynchronous receive waits until the socket is readable, but
    asks to write: while the socket is not writable it never calls [recvmsg],
    however much there is to read.  And when the peer has closed the connection
    after an attempt that would have blocked, it takes the [errno] of that
    attempt for the result: it never returns. *)
Theorem async_recv_hangs `{LibcLaws} {R} {K : Tokio R} {KLaws : TokioLaws R} {Kn}
    (recvmsg : fd_table -> Z -> list (list Z) -> list Z -> Kn -> recv_result * Kn) fd (live : R -> Prop)
    (r : R) (k : Kn) bufs ancillary t :
  keeps_getting_ready READABLE WRITABLE live -> live r ->
  let s := (k, bufs, ancillary, t) in
  ((forall r, live r -> ready r WRITABLE = false) ->
     forall fuel, exists r', recv_vectored_with_ancillary fuel recvmsg fd (r, s) = (Done OutOfFuel, (r', s)))
  /\ ((forall k, (recvmsg t fd bufs (buffer ancillary) k).1
         = mkRecv 0 EAGAIN bufs (buffer ancillary) 0 t) ->
       forall fuel, exists rs', recv_vectored_with_ancillary fuel recvmsg fd (r, s) = (Done OutOfFuel, rs')).
Proof.
  intros Hlive Hr s. split.
  - intros Hw fuel.
    destruct (io_loop_stuck READABLE WRITABLE (fun rs => live rs.1 /\ rs.2 = s) (recv_call recvmsg fd))
      with (fuel := fuel) (rs := (r, s)) as ([r' s'] & Hl & _ & Hs'); [|done|].
    + intros r0 s0 [Hr0 Hs0]. cbn in Hr0, Hs0. subst s0. destruct (Hlive r0 Hr0) as (r1 & Ha & Hr1 & _).
      exists r1. split; [done|]. eexists. split; [apply try_io_not_ready; by apply Hw|done].
    + cbn in Hs'. subst s'. by exists r'.
  - intros Heof fuel.
    assert (forall k0, recv_call recvmsg fd (k0, bufs, ancillary, t)
      = (Ret (Err EAGAIN), ((recvmsg t fd bufs (buffer ancillary) k0).2, bufs, ancillary, t))) as Hcall.
    { intros k0. unfold recv_call, uds_recv_vectored_with_ancillary. rewrite Heof. cbn.
      unfold recv_fds. pose proof sizeof_cmsghdr_pos.
      rewrite CMSG_FIRSTHDR_fits, bool_decide_eq_false_2 by lia. by destruct ancillary. }
    destruct (io_loop_stuck READABLE WRITABLE
      (fun rs => live rs.1 /\ exists k0, rs.2 = (k0, bufs, ancillary, t)) (recv_call recvmsg fd))
      with (fuel := fuel) (rs := (r, s)) as (rs' & Hl & _); [| |by exists rs'].
    + intros r0 s0 [Hr0 [k0 Hs0]]. cbn in Hr0, Hs0. subst s0.
      destruct (Hlive r0 Hr0) as (r1 & Ha & Hr1 & Hc1). exists r1. split; [done|].
      destruct (ready r1 WRITABLE) eqn:Hw.
      * rewrite (try_io_ready _ _ _ _ Hw), Hcall. eexists. split; [done|]. split; [done|]. by eexists.
      * rewrite (try_io_not_ready _ _ _ _ Hw). eexists. split; [done|]. split; [done|]. by exists k0.
    + split; [done|]. by exists k.
Qed.

(** A socket with data to read, or closed by its peer, and full for writing. *)
Definition demo_async_recvmsg (eof : bool) (t : fd_table) (fd : Z) (bufs : list (list Z)) (control : list Z) (k : unit)
  : recv_result * unit :=
  (if eof then mkRecv 0 EAGAIN bufs control 0 t else demo_recvmsg t fd bufs control, k).

Lemma async_recv_hangs_witness :
  (exists rs, @recv_vectored_with_ancillary linux reactor _ unit 100 (demo_async_recvmsg false) 3
     (mkReactor true false false, (tt, [[0; 0; 0]], new 0 [], ∅)) = (Done OutOfFuel, rs))
  /\ (exists rs, @recv_vectored_with_ancillary linux reactor _ unit 100 (demo_async_recvmsg true) 3
     (mkReactor true true true, (tt, [[0; 0; 0]], new 0 [], ∅)) = (Done OutOfFuel, rs)).
Proof.
  split.
  - destruct (@async_recv_hangs linux linux_laws reactor _ _ unit (demo_async_recvmsg false) 3
      (fun r => rc_readable r = true /\ rc_writable r = false) (mkReactor true false false) tt [[0; 0; 0]] (new 0 []) ∅)
      as [H _]; [|done|].
    + intros r [Hr Hw]. exists r. cbn. unfold rc_await. cbn. by rewrite Hr.
    + destruct (H (fun r Hr => proj2 Hr) 100%nat) as [r' Hr']. by eexists.
  - destruct (@async_recv_hangs linux linux_laws reactor _ _ unit (demo_async_recvmsg true) 3
      (fun r => rc_readable r = true) (mkReactor true true true) tt [[0; 0; 0]] (new 0 []) ∅)
      as [_ H]; [|done|].
    + intros r Hr. exists r. cbn. unfold rc_await. cbn. by rewrite Hr.
    + apply (H (fun _ => eq_refl) 100%nat).
Defined.
