(* ===== verification/ExtBytes.v ===== *)
(** Values as bytes, through buffers: [BufExt] (zpr-ext/src/bytes.rs),
    [IntoBytesExt] and [FromBytesExt] (zerocopy.rs), [slice_assume_init_mut]
    (std/mem.rs) and [UdpSocketExt] (std/net.rs).

    The traits [Buf] and [BufMut] of the crate bytes, those of zerocopy, and the
    system calls are parameters, with their documented behaviour as laws. *)

From S2P Require Import Prelude ExtUnix.

(** ** The crates *)

(** Memory of type [MaybeUninit<u8>]. *)
Abbreviation uninit := (list (option Z)).

(** [bytes::Buf]: the bytes that are left to read. *)
Class Buf (B : Type) := {
  remaining : B -> Z;
  copy_to_slice : nat -> B -> outcome (list Z * B);   (* a destination of this length *)
}.

Class BufLaws (B : Type) {O : Buf B} := {
  buf_bytes : B -> list Z;
  remaining_bytes b : remaining b = Z.of_nat (length (buf_bytes b));
  copy_to_slice_bytes n b :
    if (n <=? length (buf_bytes b))%nat then
      exists b', copy_to_slice n b = Ret (take n (buf_bytes b), b') /\ buf_bytes b' = drop n (buf_bytes b)
    else copy_to_slice n b = Panic;
}.

(** [bytes::BufMut]: what has been written, and room for more; [chunk_mut] is
    uninitialized memory of the buffer, which the caller may write to. *)
Class BufMut (B : Type) := {
  remaining_mut : B -> Z;
  put : list Z -> B -> outcome B;
  chunk_mut : B -> uninit;
  write_chunk : uninit -> B -> B;
  advance_mut : nat -> B -> outcome B;
}.

Class BufMutLaws (B : Type) {O : BufMut B} := {
  written : B -> list Z;
  put_written l b :
    if Z.of_nat (length l) <=? remaining_mut b then
      exists b', put l b = Ret b' /\ written b' = written b ++ l
        /\ remaining_mut b' = remaining_mut b - Z.of_nat (length l)
    else put l b = Panic;
  chunk_room b : Z.of_nat (length (chunk_mut b)) <= remaining_mut b;
  write_chunk_written c b : length c = length (chunk_mut b) ->
    chunk_mut (write_chunk c b) = c /\ written (write_chunk c b) = written b;
  advance_written n b l : (n <= length (chunk_mut b))%nat -> take n (chunk_mut b) = Some <$> l ->
    exists b', advance_mut n b = Ret b' /\ written b' = written b ++ l;
}.

(** [zerocopy::IntoBytes] and [FromBytes]: the bytes of a value, reading a value
    from memory that has been initialized, and a value to overwrite. *)
Class AsBytes (T : Type) := {
  size_of : nat;
  as_bytes : T -> list Z;
  of_bytes : list Z -> T;
  new_zeroed : T;
}.

Class AsBytesLaws (T : Type) {O : AsBytes T} := {
  as_bytes_length (t : T) : length (as_bytes t) = size_of;
  of_as_bytes (t : T) : of_bytes (as_bytes t) = t;
}.

(** ** [slice_assume_init_mut], [BufExt] *)

(** The slice keeps its length; it may only be written to before it is read. *)
Definition slice_assume_init_mut (slice : uninit) : uninit := slice.

(** The destination after the call. *)
Definition copy_to_maybe_uninit_slice_mut {B} `{Buf B} (self : B) (dst : uninit) : outcome (list Z * B) :=
  let slice := slice_assume_init_mut dst in
  copy_to_slice (length slice) self.

Definition get_array {B} `{Buf B} (N : nat) (self : B) : outcome (list Z * B) :=
  let ret := replicate N 0 in
  copy_to_slice (length ret) self.

(** ** [IntoBytesExt], [FromBytesExt] *)

Section zerocopy.
Context {T : Type} {A : AsBytes T}.

Definition write_to_buf {B} `{BufMut B} (self : T) (buf : B) : outcome (result unit unit * B) :=
  let bytes := as_bytes self in
  if remaining_mut buf <? Z.of_nat (length bytes) then Ret (Err tt, buf)
  else buf' ← put bytes buf; Ret (Ok tt, buf').

(** The memory of a value. *)
Definition as_uninit_bytes_mut (self : T) : uninit := Some <$> as_bytes self.

Definition read_from_buf {B} `{Buf B} (buf : B) : outcome (result T unit * B) :=
  if remaining buf <? Z.of_nat (size_of (T := T)) then Ret (Err tt, buf)
  else
    '(ret, buf') ← copy_to_maybe_uninit_slice_mut buf (as_uninit_bytes_mut new_zeroed);
    Ret (Ok (of_bytes ret), buf').
End zerocopy.

(** ** [UdpSocketExt] *)

Module udp.
(** [getsockopt(IP_MTU)] gives an [i32]; [mtu as u32]. *)
Definition mtu (ip_mtu : result Z Z) : result Z Z :=
  match ip_mtu with Ok m => Ok (wrap 32 m) | Err errno => Err errno end.

(** [sock_fprog] is a pointer to the instructions and their number, a [u16];
    [setsockopt] gets the instructions that these stand for. *)
Definition attach_reuse_port_cbpf {I} (setsockopt : list I -> Z * Z) (filter : list I) : result unit Z :=
  let len := wrap 16 (Z.of_nat (length filter)) in
  let '(res, errno) := setsockopt (take (Z.to_nat len) filter) in
  if res <? 0 then Err errno else Ok tt.
End udp.

(** The same methods of tokio's [UdpSocket] (tokio.rs). *)
Module tokio_udp.
Definition mtu (ip_mtu : result Z Z) : result Z Z :=
  match ip_mtu with Ok m => Ok (wrap 32 m) | Err errno => Err errno end.

Definition attach_reuse_port_cbpf {I} (setsockopt : list I -> Z * Z) (filter : list I) : result unit Z :=
  let len := wrap 16 (Z.of_nat (length filter)) in
  let '(res, errno) := setsockopt (take (Z.to_nat len) filter) in
  if res <? 0 then Err errno else Ok tt.
End tokio_udp.

(** [recv] and [recv_from] write to the memory that they are given. *)
Definition recv_buf {B} `{BufMut B} (recv : uninit -> result nat Z * uninit) (buf : B)
  : outcome (result nat Z * B) :=
  let chunk := chunk_mut buf in
  let '(r, chunk) := recv chunk in
  let buf := write_chunk chunk buf in
  match r with
  | Err errno => Ret (Err errno, buf)
  | Ok recvd => buf ← advance_mut recvd buf; Ret (Ok recvd, buf)
  end.

Definition recv_buf_from {B Addr} `{BufMut B} (recv_from : uninit -> result (nat * Addr) Z * uninit) (buf : B)
  : outcome (result (nat * Addr) Z * B) :=
  let chunk := chunk_mut buf in
  let '(r, chunk) := recv_from chunk in
  let buf := write_chunk chunk buf in
  match r with
  | Err errno => Ret (Err errno, buf)
  | Ok (recvd, from) => buf ← advance_mut recvd buf; Ret (Ok (recvd, from), buf)
  end.

(** recv(2): at most the length of the memory is written, from its start. *)
Definition receives {R} (count : R -> nat) (recv : uninit -> result R Z * uninit) : Prop :=
  forall c, match recv c with
    | (Ok r, c') => exists l, length l = count r /\ (count r <= length c)%nat
        /\ c' = (Some <$> l) ++ drop (count r) c
    | (Err _, c') => c' = c
    end.

(** ** Small things *)

(** [Option<NonZero<T>>::unwrap_or_zero] (std/num.rs): [None] is stored as zero. *)
Definition unwrap_or_zero (self : option Z) : Z := match self with Some n => n | None => 0 end.

(** [NonZero::new] *)
Definition non_zero_new (n : Z) : option Z := if n =? 0 then None else Some n.

(** [SockAddr::new_unspec] (socket2.rs), with [try_init] of socket2, which calls
    the closure on storage for an address and its length. *)
Record sock_storage := mkStorage { ss_family : Z; ss_rest : list Z; sl : Z }.

Definition new_unspec {SockAddr E} (AF_UNSPEC sizeof_sockaddr : Z)
    (try_init : (sock_storage -> result unit E * sock_storage) -> result (unit * SockAddr) E) : outcome SockAddr :=
  match try_init (fun s => (Ok tt, mkStorage (wrap 16 AF_UNSPEC) (ss_rest s) (wrap 32 sizeof_sockaddr))) with
  | Ok (_, addr) => Ret addr
  | Err _ => Panic        (* unwrap *)
  end.
