(* ===== verification/ExtBytesCorrect.v ===== *)
(** Correctness of the byte conversions and of receiving into a buffer. *)

From S2P Require Import Prelude ExtBytes.

(** ** Buffers to try them on *)

(** A slice, and a buffer of fixed capacity. *)
#[export] Instance slice_buf : Buf (list Z) := {
  remaining b := Z.of_nat (length b);
  copy_to_slice n b := if (n <=? length b)%nat then Ret (take n b, drop n b) else Panic;
}.

#[export] Instance slice_buf_laws : BufLaws (list Z).
Proof.
  refine {| buf_bytes b := b |}; [done|]. intros n b. cbn. destruct (n <=? length b)%nat; [|done]. by eexists.
Defined.

Record fixed_buf := mkFixed { fb_written : list Z; fb_room : list (option Z) }.

Definition fixed_put (l : list Z) (b : fixed_buf) : outcome fixed_buf :=
  if (length l <=? length (fb_room b))%nat
  then Ret (mkFixed (fb_written b ++ l) (drop (length l) (fb_room b))) else Panic.

Definition fixed_advance (n : nat) (b : fixed_buf) : outcome fixed_buf :=
  if (n <=? length (fb_room b))%nat then
    match mapM id (take n (fb_room b)) with
    | Some l => Ret (mkFixed (fb_written b ++ l) (drop n (fb_room b)))
    | None => UB
    end
  else Panic.

#[export] Instance fixed_buf_mut : BufMut fixed_buf := {
  remaining_mut b := Z.of_nat (length (fb_room b));
  put := fixed_put;
  chunk_mut := fb_room;
  write_chunk c b := mkFixed (fb_written b) c;
  advance_mut := fixed_advance;
}.

#[export] Instance fixed_buf_laws : BufMutLaws fixed_buf.
Proof.
  refine {| written := fb_written |}; cbn.
  - intros l b. unfold fixed_put. destruct (Z.leb_spec (Z.of_nat (length l)) (Z.of_nat (length (fb_room b)))).
    + rewrite (proj2 (Nat.leb_le _ _)) by lia. eexists. split; [done|]. split; [done|].
      cbn. rewrite length_drop. lia.
    + by rewrite (proj2 (Nat.leb_gt _ _)) by lia.
  - lia.
  - done.
  - intros n b l Hn Hl. unfold fixed_advance. rewrite (proj2 (Nat.leb_le _ _) Hn), Hl.
    assert (mapM id (Some <$> l) = Some l) as ->; [|by eexists].
    apply mapM_Some. by apply Forall2_fmap_r, Forall_Forall2_diag, Forall_true.
Defined.

(** A [u16], in network order. *)
#[export] Instance u16_bytes : AsBytes (Z * Z) := {
  size_of := 2;
  as_bytes t := [t.1; t.2];
  of_bytes l := match l with [a; b] => (a, b) | _ => (0, 0) end;
  new_zeroed := (0, 0);
}.

#[export] Instance u16_laws : AsBytesLaws (Z * Z).
Proof. split; [done|]. by intros []. Qed.

(** ** Theorems *)

Lemma copy_uninit {B} `{BufLaws B} (r : B) (dst : list (option Z)) l rest :
  buf_bytes r = l ++ rest -> length dst = length l ->
  exists r', copy_to_maybe_uninit_slice_mut r dst = Ret (l, r') /\ buf_bytes r' = rest.
Proof.
  intros Hr Hd. unfold copy_to_maybe_uninit_slice_mut, slice_assume_init_mut. rewrite Hd.
  pose proof (copy_to_slice_bytes (length l) r) as Hc. rewrite Hr in Hc.
  rewrite (proj2 (Nat.leb_le _ _)), take_app_length, drop_app_length in Hc by (rewrite length_app; lia).
  destruct Hc as (r' & -> & Hr'). by exists r'.
Qed.

(** [get_array] panics on a short buffer. *)
Lemma get_array_spec {B} `{BufLaws B} (N : nat) (r : B) :
  if (N <=? length (buf_bytes r))%nat then
    exists r', get_array N r = Ret (take N (buf_bytes r), r') /\ buf_bytes r' = drop N (buf_bytes r)
  else get_array N r = Panic.
Proof. unfold get_array. rewrite length_replicate. apply copy_to_slice_bytes. Qed.

(** C38 (roundtrip). [write_to_buf] appends the bytes of a value when they fit and
    otherwise fails and writes nothing; [read_from_buf] takes a value back from
    the bytes that [write_to_buf] wrote, and leaves what follows them; on a
    shorter buffer it fails and reads nothing. Neither panics. *)
Theorem write_read_buf {T B R} `{AsBytesLaws T} `{BufMutLaws B} `{BufLaws R} (t : T) (b : B) (r : R) :
  (if Z.of_nat (size_of (T := T)) <=? remaining_mut b then
     exists b', write_to_buf t b = Ret (Ok tt, b') /\ written b' = written b ++ as_bytes t
   else write_to_buf t b = Ret (Err tt, b))
  /\ (forall rest, buf_bytes r = as_bytes t ++ rest ->
        exists r', read_from_buf r = Ret (Ok t, r') /\ buf_bytes r' = rest)
  /\ (Z.of_nat (length (buf_bytes r)) < Z.of_nat (size_of (T := T)) ->
        read_from_buf (T := T) r = Ret (Err tt, r)).
Proof.
  split; [|split].
  - unfold write_to_buf. rewrite as_bytes_length. pose proof (put_written (as_bytes t) b) as Hp.
    rewrite as_bytes_length in Hp. destruct (Z.leb_spec (Z.of_nat (size_of (T := T))) (remaining_mut b)).
    + rewrite (proj2 (Z.ltb_ge _ _)) by lia. destruct Hp as (b' & -> & Hb' & _). by exists b'.
    + by rewrite (proj2 (Z.ltb_lt _ _)) by lia.
  - intros rest Hr. unfold read_from_buf. rewrite remaining_bytes, Hr.
    rewrite (proj2 (Z.ltb_ge _ _)) by (rewrite length_app, as_bytes_length; lia).
    destruct (copy_uninit r (as_uninit_bytes_mut (T := T) new_zeroed) _ rest Hr) as (r' & -> & Hr').
    { unfold as_uninit_bytes_mut. by rewrite length_fmap, !as_bytes_length. }
    cbn. rewrite of_as_bytes. by exists r'.
  - intros Hr. unfold read_from_buf. by rewrite remaining_bytes, (proj2 (Z.ltb_lt _ _)).
Qed.

Lemma write_read_buf_witness :
  write_to_buf (1, 2) (mkFixed [9] [None; None; None]) = Ret (Ok tt, mkFixed [9; 1; 2] [None])
  /\ write_to_buf (1, 2) (mkFixed [9] [None]) = Ret (Err tt, mkFixed [9] [None])
  /\ read_from_buf [1; 2; 7] = Ret (Ok (1, 2), [7]).
Proof.
  split; [vm_compute; reflexivity|]. split; [vm_compute; reflexivity|].
  destruct (write_read_buf (1, 2) (mkFixed [9] [None; None; None]) [1; 2; 7]) as (_ & H & _).
  destruct (H [7] eq_refl) as (r' & Hr & Hr'). cbn in Hr'. subst r'. exact Hr.
Defined.

(** Writing what was received to the chunk, and advancing over it. *)
Lemma receive_advance {B} `{BufMutLaws B} (b : B) (l : list Z) :
  (length l <= length (chunk_mut b))%nat ->
  exists b', advance_mut (length l) (write_chunk ((Some <$> l) ++ drop (length l) (chunk_mut b)) b) = Ret b'
    /\ written b' = written b ++ l.
Proof.
  intros Hle. set (c := (Some <$> l) ++ drop (length l) (chunk_mut b)).
  assert (length c = length (chunk_mut b)) as Hc.
  { unfold c. rewrite length_app, length_fmap, length_drop. lia. }
  destruct (write_chunk_written c b Hc) as [Hch Hw].
  destruct (advance_written (length l) (write_chunk c b) l) as (b' & Hb' & Hwb').
  - rewrite Hch. lia.
  - rewrite Hch. unfold c. by rewrite take_app_length' by (by rewrite length_fmap).
  - exists b'. by rewrite <- Hw.
Qed.

(** Receiving into a buffer reads no uninitialized memory: what
    [recv_buf] and [recv_buf_from] append to the buffer is what the socket
    received, as many bytes as they return; on an error the buffer holds what it
    held. *)
Theorem recv_buf_appends {B Addr} `{BufMutLaws B} (b : B)
    (recv : list (option Z) -> result nat Z * list (option Z))
    (recv_from : list (option Z) -> result (nat * Addr) Z * list (option Z)) :
  (receives id recv -> exists r b', recv_buf recv b = Ret (r, b') /\ r = (recv (chunk_mut b)).1
     /\ match r with
        | Ok n => exists l, length l = n /\ take n (recv (chunk_mut b)).2 = Some <$> l
            /\ written b' = written b ++ l
        | Err _ => written b' = written b
        end)
  /\ (receives fst recv_from -> exists r b', recv_buf_from recv_from b = Ret (r, b')
     /\ r = (recv_from (chunk_mut b)).1
     /\ match r with
        | Ok (n, _) => exists l, length l = n /\ take n (recv_from (chunk_mut b)).2 = Some <$> l
            /\ written b' = written b ++ l
        | Err _ => written b' = written b
        end).
Proof.
  split; intros Hr; specialize (Hr (chunk_mut b)).
  - unfold recv_buf. destruct (recv (chunk_mut b)) as [[n|e] c'].
    + destruct Hr as (l & Hl & Hle & ->). cbn in *. subst n.
      destruct (receive_advance b l Hle) as (b' & -> & Hb'). eexists _, b'. split; [done|]. split; [done|].
      exists l. split; [done|]. split; [|done]. by rewrite take_app_length' by (by rewrite length_fmap).
    + subst c'. eexists _, _. split; [done|]. split; [done|]. by apply write_chunk_written.
  - unfold recv_buf_from. destruct (recv_from (chunk_mut b)) as [[[n from]|e] c'].
    + destruct Hr as (l & Hl & Hle & ->). cbn in *. subst n.
      destruct (receive_advance b l Hle) as (b' & -> & Hb'). eexists _, b'. split; [done|]. split; [done|].
      exists l. split; [done|]. split; [|done]. by rewrite take_app_length' by (by rewrite length_fmap).
    + subst c'. eexists _, _. split; [done|]. split; [done|]. by apply write_chunk_written.
Qed.

(** A datagram of two bytes, in a buffer with room for three. *)
Definition demo_recv (c : list (option Z)) : result nat Z * list (option Z) :=
  if (2 <=? length c)%nat then (Ok 2%nat, [Some 5; Some 6] ++ drop 2 c) else (Err 11, c).
Definition demo_recv_from (c : list (option Z)) : result (nat * Z) Z * list (option Z) :=
  if (2 <=? length c)%nat then (Ok (2%nat, 80), [Some 5; Some 6] ++ drop 2 c) else (Err 11, c).

Lemma recv_buf_appends_witness :
  recv_buf demo_recv (mkFixed [9] [None; None; None]) = Ret (Ok 2%nat, mkFixed [9; 5; 6] [None])
  /\ exists r b', recv_buf demo_recv (mkFixed [9] [None; None; None]) = Ret (r, b').
Proof.
  split; [vm_compute; reflexivity|].
  destruct (recv_buf_appends (mkFixed [9] [None; None; None]) demo_recv demo_recv_from) as [H _].
  destruct H as (r & b' & Hr & _); [|by exists r, b'].
  intros c. unfold demo_recv. destruct (Nat.leb_spec 2 (length c)); [|done]. exists [5; 6]. by split.
Defined.

(** [attach_reuse_port_cbpf] attaches the filter that it is given
    when its length fits in 16 bits; a longer one is cut, without an error, to
    its length modulo 65536. *)
Theorem attach_cbpf_truncates {I} (setsockopt : list I -> Z * Z) (filter : list I) :
  let attached := take (Z.to_nat (Z.of_nat (length filter) mod 2 ^ 16)) filter in
  udp.attach_reuse_port_cbpf setsockopt filter
    = (let '(res, errno) := setsockopt attached in if res <? 0 then Err errno else Ok tt)
  /\ (attached = filter <-> Z.of_nat (length filter) < 2 ^ 16).
Proof.
  cbv zeta. split; [done|]. pose proof (Z.mod_pos_bound (Z.of_nat (length filter)) (2 ^ 16)) as Hb.
  split; intros Hf.
  - apply (f_equal length) in Hf. rewrite length_take in Hf. lia.
  - rewrite Z.mod_small by lia. apply take_ge. lia.
Qed.

(** ** Small things *)

Lemma unwrap_or_zero_new n : unwrap_or_zero (non_zero_new n) = n.
Proof. unfold non_zero_new. by destruct (Z.eqb_spec n 0). Qed.

(** [try_init] succeeds when its closure does, so that [new_unspec] never fails. *)
Lemma new_unspec_returns {SockAddr E} AF_UNSPEC sizeof_sockaddr (make : sock_storage -> SockAddr) (s0 : sock_storage)
    (try_init : (sock_storage -> result unit E * sock_storage) -> result (unit * SockAddr) E) :
  (forall init s, init s0 = (Ok tt, s) -> try_init init = Ok (tt, make s)) ->
  exists addr, new_unspec AF_UNSPEC sizeof_sockaddr try_init = Ret addr
    /\ addr = make (mkStorage (wrap 16 AF_UNSPEC) (ss_rest s0) (wrap 32 sizeof_sockaddr)).
Proof. intros H. unfold new_unspec. erewrite H by reflexivity. by eexists. Qed.

(** The methods of the two kinds of socket agree. *)
Lemma tokio_udp_agrees {I} ip_mtu (setsockopt : list I -> Z * Z) filter :
  tokio_udp.mtu ip_mtu = udp.mtu ip_mtu
  /\ tokio_udp.attach_reuse_port_cbpf setsockopt filter = udp.attach_reuse_port_cbpf setsockopt filter.
Proof. done. Qed.
