(* ===== verification/Weak.v ===== *)
(** The memory model under the concurrent slab: C++20 atomics and data races, as
    far as one writer and any number of readers of a [CslabStorage] use them.

    An atomic location keeps all the values stored to it, in modification order,
    each with the view that a release store passes on; a thread's view says, for
    each location, the latest store that it must not read behind.  The entries
    of the table are not atomic: an access that does not happen after every
    conflicting one is a data race, and so undefined behaviour. *)

From S2P Require Import Prelude CslabStorage.

(** ** Programs

    The accesses of an operation to the shared storage, in program order. *)

Inductive aloc : Type :=
| LFrontier
| LWord (w : Z).

#[global] Instance aloc_eq_dec : EqDecision aloc.
Proof. solve_decision. Defined.

Inductive prog (T A : Type) : Type :=
| PDone (o : outcome A)
| PLoad (l : aloc) (acquire : bool) (k : Z -> prog T A)
| PStore (l : aloc) (release : bool) (v : Z) (k : prog T A)
| PRead (i : Z) (k : entry T -> prog T A)
| PWrite (i : Z) (e : entry T) (k : prog T A).
Arguments PDone {T A} _.
Arguments PLoad {T A} _ _ _.
Arguments PStore {T A} _ _ _ _.
Arguments PRead {T A} _ _.
Arguments PWrite {T A} _ _ _.

Fixpoint prog_bind {T A B} (f : A -> prog T B) (p : prog T A) : prog T B :=
  match p with
  | PDone (Ret a) => f a
  | PDone Panic => PDone Panic
  | PDone UB => PDone UB
  | PDone OutOfFuel => PDone OutOfFuel
  | PLoad l acquire k => PLoad l acquire (fun v => prog_bind f (k v))
  | PStore l release v k => PStore l release v (prog_bind f k)
  | PRead i k => PRead i (fun e => prog_bind f (k e))
  | PWrite i e k => PWrite i e (prog_bind f k)
  end.

#[global] Instance prog_mret T : MRet (prog T) := fun A a => PDone (Ret a).
#[global] Instance prog_mbind T : MBind (prog T) := fun A B f p => prog_bind f p.

(** What a program computes when nothing else runs. *)
Fixpoint run_alone {T A} (p : prog T A) (s : storage T) : outcome (A * storage T) :=
  match p with
  | PDone o => a ← o; Ret (a, s)
  | PLoad LFrontier _ k => run_alone (k (frontier s)) s
  | PLoad (LWord w) _ k =>
      match bitmap s !! Z.to_nat w with Some v => run_alone (k v) s | None => UB end
  | PStore LFrontier _ v k => run_alone k (set_frontier v s)
  | PStore (LWord w) _ v k => run_alone k (set_bitmap (store (bitmap s) w v) s)
  | PRead i k =>
      match table s !! Z.to_nat i with Some e => run_alone (k e) s | None => UB end
  | PWrite i e k => run_alone k (set_table (store (table s) i e) s)
  end.

(** ** Views *)

(** For each atomic location the position in its modification order, for each
    entry the number of writes, and the reads of entries, that happen before. *)
Record view := mkView {
  v_atomic : aloc -> nat;
  v_entry : Z -> nat;
  v_reads : gset nat;
}.

Definition vbot : view := mkView (fun _ => 0%nat) (fun _ => 0%nat) ∅.

Definition vjoin (V V' : view) : view :=
  mkView (fun l => Nat.max (v_atomic V l) (v_atomic V' l))
         (fun i => Nat.max (v_entry V i) (v_entry V' i))
         (v_reads V ∪ v_reads V').

(** The order on the stores that are seen. *)
Definition vle (V V' : view) : Prop :=
  (forall l, v_atomic V l <= v_atomic V' l)%nat /\ (forall i, v_entry V i <= v_entry V' i)%nat.

Definition see_atomic (l : aloc) (ts : nat) (V : view) : view :=
  mkView (<[l := ts]> (v_atomic V)) (v_entry V) (v_reads V).
Definition see_entry (i : Z) (ts : nat) (V : view) : view :=
  mkView (v_atomic V) (<[i := ts]> (v_entry V)) (v_reads V).
Definition add_read (rid : nat) (V : view) : view :=
  mkView (v_atomic V) (v_entry V) ({[ rid ]} ∪ v_reads V).

#[global] Instance vle_preorder : PreOrder vle.
Proof.
  split; [by intros V; split|]. intros V V' V'' [H1 H2] [H3 H4].
  split; intros; etrans; eauto.
Qed.

Lemma vle_join_l V V' : vle V (vjoin V V').
Proof. split; cbn; lia. Qed.
Lemma vle_join_r V V' : vle V' (vjoin V V').
Proof. split; cbn; lia. Qed.
Lemma vle_join V V' V'' : vle V V'' -> vle V' V'' -> vle (vjoin V V') V''.
Proof. intros [H1 H2] [H3 H4]. split; cbn; intros; apply Nat.max_lub; auto. Qed.

(** Joining with a view that is behind changes nothing of what is seen. *)
Lemma vjoin_le_atomic V V' l : vle V' V -> v_atomic (vjoin V V') l = v_atomic V l.
Proof. intros [H _]. cbn. specialize (H l). lia. Qed.
Lemma vjoin_le_entry V V' i : vle V' V -> v_entry (vjoin V V') i = v_entry V i.
Proof. intros [_ H]. cbn. specialize (H i). lia. Qed.

(** ** Memory *)

Record message := mkMsg { msg_val : Z; msg_view : view }.

(** [c_ts] counts the writes of the entry, [c_reads] are the reads of it since
    the last one. *)
Record cell (T : Type) := mkCell { c_val : entry T; c_ts : nat; c_reads : gset nat }.
Arguments mkCell {T} _ _ _.
Arguments c_val {T} _.
Arguments c_ts {T} _.
Arguments c_reads {T} _.

Record mem (T : Type) := mkMem {
  m_hist : aloc -> list message;
  m_cell : Z -> cell T;
  m_next_read : nat;
}.
Arguments mkMem {T} _ _ _.
Arguments m_hist {T} _.
Arguments m_cell {T} _.
Arguments m_next_read {T} _.

(** The storage as it is allocated: zeroed. *)
Definition mem_new {T} : mem T :=
  mkMem (fun _ => [mkMsg 0 vbot]) (fun _ => mkCell (Free 0) 0 ∅) 0.

(** One access, by a thread with view [V].  A load may return any store that is
    not behind the view ([choice] is its position); an acquire load gets the
    view that the store passes on.  All the stores to an atomic location come
    from one thread, so that a store that does not follow the last one would
    itself be a conflict. *)
Definition prog_step {T A} (m : mem T) (V : view) (p : prog T A) (choice : nat)
  : option (outcome (mem T * view * prog T A)) :=
  match p with
  | PDone _ => None
  | PLoad l acquire k =>
      if decide (v_atomic V l <= choice)%nat then
        msg ← m_hist m l !! choice;
        let V' := see_atomic l choice V in
        Some (Ret (m, if acquire then vjoin V' (msg_view msg) else V', k (msg_val msg)))
      else None
  | PStore l release v k =>
      if decide (S (v_atomic V l) = length (m_hist m l)) then
        let V' := see_atomic l (length (m_hist m l)) V in
        let msg := mkMsg v (if release then V' else vbot) in
        Some (Ret (mkMem (<[l := m_hist m l ++ [msg]]> (m_hist m)) (m_cell m) (m_next_read m), V', k))
      else Some UB
  | PRead i k =>
      let c := m_cell m i in
      if decide (c_ts c = v_entry V i) then
        let rid := m_next_read m in
        Some (Ret (mkMem (m_hist m)
                     (<[i := mkCell (c_val c) (c_ts c) ({[ rid ]} ∪ c_reads c)]> (m_cell m)) (S rid),
                   add_read rid V, k (c_val c)))
      else Some UB
  | PWrite i e k =>
      let c := m_cell m i in
      if decide (c_ts c = v_entry V i /\ c_reads c ⊆ v_reads V) then
        Some (Ret (mkMem (m_hist m) (<[i := mkCell e (S (c_ts c)) ∅]> (m_cell m)) (m_next_read m),
                   see_entry i (S (c_ts c)) V, k))
      else Some UB
  end.
