(* ===== verification/WeakCslab.v ===== *)
(** The operations of the slab as programs over shared storage: every access of
    cslab/src/lib.rs to the table, the bitmap and the frontier, with its memory
    ordering (the labels [Ii], [Ib], ... are those of the source). *)

From S2P Require Import Prelude CslabWord CslabStorage Cslab CslabIter Weak.

(** The orderings that matter: the release stores to the bitmap by [insert] [Ib]
    and by [mark_removed] [Rb], and the acquire loads of it [Gb]. *)
Record orderings := mkOrd { o_insert : bool; o_mark : bool; o_get : bool }.

(** Those of the source. *)
Definition source_orderings : orderings := mkOrd true true true.

(** The fields of [struct Cslab] that are the writer's own, and the size. *)
Record header := mkHeader { h_size : Z; h_first_free : Z; h_in_use : Z; h_allocated : Z }.

Section programs.
Context {T : Type} (ord : orderings).
Abbreviation P := (prog T).

Definition lift {A} (o : outcome A) : P A := PDone o.
Definition load (l : aloc) (acquire : bool) : P Z := PLoad l acquire (fun v => mret v).
Definition store_to (l : aloc) (release : bool) (v : Z) : P unit := PStore l release v (mret tt).

(** [self.storage.bitmap()[idx / BITS]] and [self.storage.table()[idx]]: the
    bounds checks, and the location. *)
Definition bitmap_at (n idx : Z) : outcome aloc :=
  len ← bitmap_len n;
  if (0 <=? idx / usize_BITS) && (idx / usize_BITS <? len) then Ret (LWord (idx / usize_BITS)) else Panic.

Definition table_at (n idx : Z) : outcome Z :=
  if (0 <=? idx) && (idx <? n) then Ret idx else Panic.

Definition read_entry (n idx : Z) : P (entry T) :=
  i ← lift (table_at n idx); PRead i (fun e => mret e).
Definition write_entry (n idx : Z) (e : entry T) : P unit :=
  i ← lift (table_at n idx); PWrite i e (mret tt).

Definition insert_prog (c : header) (item : T) : P (result Z unit * header) :=
  let idx := h_first_free c in
  if idx >=? h_size c then mret (Err tt, c)
  else
    e ← read_entry (h_size c) idx;
    next ← lift (read_next_free e);
    ff ← lift (add_isize (as_isize idx) 1);
    ff ← lift (add_isize ff next);
    write_entry (h_size c) idx (Item item);;                     (* [Ii] *)
    old_frontier ← load LFrontier false;
    (if idx >=? old_frontier
     then f ← lift (add_u 64 idx 1); store_to LFrontier false f   (* [Im] *)
     else mret tt);;
    l ← lift (bitmap_at (h_size c) idx);
    mask ← load l false;
    lift (assert! (flag mask idx =? 0);; Ret tt);;
    store_to l (o_insert ord) (Z.lor mask (shl 1 (idx mod usize_BITS)));;   (* [Ib] *)
    new_in_use ← lift (add_u 64 (h_in_use c) 1);
    new_allocated ← lift (add_u 64 (h_allocated c) 1);
    mret (Ok idx, mkHeader (h_size c) (wrap 64 ff) new_in_use new_allocated).

Definition mark_removed_prog (c : header) (idx : Z) : P header :=
  l ← lift (bitmap_at (h_size c) idx);
  mask ← load l false;
  lift (assert! (flag mask idx =? 1);; Ret tt);;
  store_to l (o_mark ord) (Z.land mask (not_ (shl 1 (idx mod usize_BITS))));;   (* [Rb] *)
  new_in_use ← lift (sub_u 64 (h_in_use c) 1);
  mret (mkHeader (h_size c) (h_first_free c) new_in_use (h_allocated c)).

Definition finalize_remove_prog (c : header) (idx : Z) : P (T * header) :=
  l ← lift (bitmap_at (h_size c) idx);
  mask ← load l false;
  lift (assert! (flag mask idx =? 0);; Ret tt);;
  e ← read_entry (h_size c) idx;                                 (* [Ri] *)
  item ← lift (read_item e);
  nf ← lift (sub_isize (as_isize (h_first_free c)) (as_isize idx));
  nf ← lift (sub_isize nf 1);
  write_entry (h_size c) idx (Free nf);;
  new_allocated ← lift (sub_u 64 (h_allocated c) 1);
  mret (item, mkHeader (h_size c) idx (h_in_use c) new_allocated).

(** The readers know the size [n] of the storage. *)
Definition contains_key_prog (n idx : Z) : P bool :=
  if idx >=? n then mret false
  else
    l ← lift (bitmap_at n idx);
    mask ← load l (o_get ord);                                   (* [Gb] *)
    mret (negb (flag mask idx =? 0)).

Definition get_unchecked_prog (n idx : Z) : P T :=
  e ← read_entry n idx; lift (read_item e).                      (* [Gi] *)

Definition get_prog (n idx : Z) : P (option T) :=
  b ← contains_key_prog n idx;
  if (b : bool) then t ← get_unchecked_prog n idx; mret (Some t) else mret None.

Definition iter_new_prog (n : Z) : P iter :=
  f ← load LFrontier false;                                      (* [Sm] *)
  lift (assert! (f <=? n);; Ret tt);;
  mret (mkIter 0 f).

Fixpoint next_loop_prog (fuel : nat) (n : Z) (it : iter) : P (yielded T) :=
  match fuel with
  | O => lift OutOfFuel
  | S fuel' =>
      l ← lift (bitmap_at n (it_head it));
      word ← load l (o_get ord);                                 (* [Gb] *)
      let bme := shr word (it_head it mod usize_BITS) in
      d ← lift (if bme =? 0 then sub_u 64 usize_BITS (it_head it mod usize_BITS)
                else Ret (trailing_zeros bme));
      rest ← lift (sub_u 64 (it_tail it) (it_head it));
      if d >=? rest then mret (None, mkIter (it_tail it) (it_tail it))
      else
        idx ← lift (add_u 64 (it_head it) d);
        if negb (bme =? 0) then
          head' ← lift (add_u 64 idx 1);
          t ← get_unchecked_prog n idx;
          mret (Some (idx, t), mkIter head' (it_tail it))
        else next_loop_prog fuel' n (mkIter idx (it_tail it))
  end.

Definition iter_next_prog (fuel : nat) (n : Z) (it : iter) : P (yielded T) :=
  if it_head it >=? it_tail it then mret (None, it) else next_loop_prog fuel n it.

Fixpoint next_back_loop_prog (fuel : nat) (n : Z) (it : iter) : P (yielded T) :=
  match fuel with
  | O => lift OutOfFuel
  | S fuel' =>
      last ← lift (sub_u 64 (it_tail it) 1);
      l ← lift (bitmap_at n last);
      word ← load l (o_get ord);                                 (* [Gb] *)
      let bme := shl word (usize_BITS - (last mod usize_BITS + 1)) in
      let d := if bme =? 0 then last mod usize_BITS + 1 else leading_zeros bme in
      rest ← lift (sub_u 64 (it_tail it) (it_head it));
      if d >=? rest then mret (None, mkIter (it_head it) (it_head it))
      else
        tail' ← lift (sub_u 64 (it_tail it) d);
        if negb (bme =? 0) then
          idx ← lift (sub_u 64 tail' 1);
          t ← get_unchecked_prog n idx;
          mret (Some (idx, t), mkIter (it_head it) idx)
        else next_back_loop_prog fuel' n (mkIter (it_head it) tail')
  end.

Definition iter_next_back_prog (fuel : nat) (n : Z) (it : iter) : P (yielded T) :=
  if it_tail it <=? it_head it then mret (None, it) else next_back_loop_prog fuel n it.
End programs.

(** One iteration of a loop per word of the bitmap is enough. *)
Definition scan_fuel (n : Z) : nat := S (Z.to_nat (words n)).
