(* ===== verification/WeakSystem.v ===== *)
(** A program that uses a [Cslab] and its [CslabReader]s on any threads, one
    memory access at a time.

    The client keeps the contract of [mark_removed] and [finalize_remove]: after
    marking, each reader is notified by a release-acquire synchronization from
    the writer, and acknowledges by one to the writer, when it holds no
    reference to the item any more. *)

From S2P Require Import Prelude CslabStorage Cslab CslabIter Weak WeakCslab.

Section system.
Context {T : Type} (ord : orderings).

(** What the operations of the writer and of the readers return. *)
Inductive wresp : Type :=
| WInserted (r : result Z unit)
| WMarked (i : Z)
| WFinalized (t : T).

Inductive rresp : Type :=
| RGot (i : Z) (o : option T)
| RContains (i : Z) (b : bool)
| RIterNew (it : iter)
| RNext (front : bool) (it : iter) (y : yielded T).   (* [it]: before the call *)

(** A [CslabReader], on the thread that uses it. *)
Record reader := mkReader {
  r_view : view;
  r_held : gset Z;               (* the items it has found and may still read *)
  r_iter : option iter;
  r_prog : option (prog T rresp);
  (* what the client knows: *)
  r_must : gset Z;               (* present when it last synchronized, not marked since *)
  r_noted : gset Z;              (* marked when it last synchronized *)
  r_acked : gset Z;              (* those of them it has acknowledged *)
}.

Record sys := mkSys {
  y_mem : mem T;
  y_view : view;                 (* of the writer *)
  y_header : header;
  y_prog : option (option T * prog T (header * wresp));   (* with the item to insert or to remove *)
  y_items : gmap Z T;            (* inserted, not finalized *)
  y_marked : gset Z;             (* marked, not finalized *)
  y_readers : list reader;
}.

Definition sys_new (size : Z) : sys := mkSys mem_new vbot (mkHeader size 0 0 0) None ∅ ∅ [].

Definition set_mem (m : mem T) (y : sys) : sys :=
  mkSys m (y_view y) (y_header y) (y_prog y) (y_items y) (y_marked y) (y_readers y).
Definition set_view (V : view) (y : sys) : sys :=
  mkSys (y_mem y) V (y_header y) (y_prog y) (y_items y) (y_marked y) (y_readers y).
Definition set_prog (p : option (option T * prog T (header * wresp))) (y : sys) : sys :=
  mkSys (y_mem y) (y_view y) (y_header y) p (y_items y) (y_marked y) (y_readers y).
Definition set_items (its : gmap Z T) (ms : gset Z) (y : sys) : sys :=
  mkSys (y_mem y) (y_view y) (y_header y) (y_prog y) its ms (y_readers y).
Definition set_readers (l : list reader) (y : sys) : sys :=
  mkSys (y_mem y) (y_view y) (y_header y) (y_prog y) (y_items y) (y_marked y) l.
Definition set_header (c : header) (y : sys) : sys :=
  mkSys (y_mem y) (y_view y) c (y_prog y) (y_items y) (y_marked y) (y_readers y).

Definition rset_view (V : view) (r : reader) : reader :=
  mkReader V (r_held r) (r_iter r) (r_prog r) (r_must r) (r_noted r) (r_acked r).
Definition rset_prog (p : option (prog T rresp)) (r : reader) : reader :=
  mkReader (r_view r) (r_held r) (r_iter r) p (r_must r) (r_noted r) (r_acked r).
Definition rset_held (h : gset Z) (it : option iter) (r : reader) : reader :=
  mkReader (r_view r) h it (r_prog r) (r_must r) (r_noted r) (r_acked r).
Definition rset_known (must noted acked : gset Z) (r : reader) : reader :=
  mkReader (r_view r) (r_held r) (r_iter r) (r_prog r) must noted acked.

(** ** The operations *)

Definition insert_op (c : header) (t : T) : prog T (header * wresp) :=
  '(r, c') ← insert_prog ord c t; mret (c', WInserted r).
Definition mark_op (c : header) (i : Z) : prog T (header * wresp) :=
  c' ← mark_removed_prog ord c i; mret (c', WMarked i).
Definition finalize_op (c : header) (i : Z) : prog T (header * wresp) :=
  '(t, c') ← finalize_remove_prog c i; mret (c', WFinalized t).

Definition get_op (n i : Z) : prog T rresp := o ← get_prog ord n i; mret (RGot i o).
Definition contains_op (n i : Z) : prog T rresp := b ← contains_key_prog ord n i; mret (RContains i b).
Definition unchecked_op (n i : Z) : prog T rresp := t ← get_unchecked_prog n i; mret (RGot i (Some t)).
Definition iter_new_op (n : Z) : prog T rresp := it ← iter_new_prog n; mret (RIterNew it).
Definition next_op (n : Z) (front : bool) (it : iter) : prog T rresp :=
  y ← (if front then iter_next_prog ord (scan_fuel n) n it
       else iter_next_back_prog ord (scan_fuel n) n it);
  mret (RNext front it y).

(** What the client knows when an operation of the writer returns; the next one
    starts with the header that it leaves. *)
Definition finish_writer (res : header * wresp) (t : option T) (y : sys) : sys :=
  let y := set_header res.1 (set_prog None y) in
  match res.2, t with
  | WInserted (Ok i), Some t => set_items (<[i := t]> (y_items y)) (y_marked y) y
  | _, _ => y
  end.

(** The references that the operations of a reader return. *)
Definition found (res : rresp) : gset Z :=
  match res with
  | RGot i (Some _) => {[ i ]}
  | RContains i true => {[ i ]}
  | RNext _ _ (Some (i, _), _) => {[ i ]}
  | _ => ∅
  end.

Definition finish_reader (res : rresp) (r : reader) : reader :=
  rset_prog None (rset_held (r_held r ∪ found res)
    (match res with RIterNew it => Some it | RNext _ _ (_, it) => Some it | _ => r_iter r end) r).

(** ** The steps *)

Inductive event : Type :=
| EInsert (t : T)
| EMark (i : Z)
| EFinalize (i : Z)
| EWriter (choice : nat)
| ENewReader
| EClone (k : nat) (ks : list nat)   (* on a thread that has synchronized with those of [ks] *)
| ETake (k : nat) (i : Z)            (* a clone that takes the reference to an item along *)
| EDrop (k : nat)
| EGet (k : nat) (i : Z)
| EContains (k : nat) (i : Z)
| EUnchecked (k : nat) (i : Z)
| EIter (k : nat)
| ENext (k : nat) (front : bool)
| EReader (k : nat) (choice : nat)
| ERelease (k : nat) (i : Z)
| EUpdate (k : nat)
| ECallback (k : nat)
| EGossip (k k' : nat).

Inductive resp : Type :=
| AStep
| AWriter (r : wresp)
| AReader (r : rresp).

(** An operation of the writer that has reached its end, and one that has not;
    [t] is the item that it inserts or removes. *)
Definition run_writer (t : option T) (p : prog T (header * wresp)) (y : sys) : outcome (resp * sys) :=
  match p with
  | PDone o => res ← o; Ret (AWriter res.2, finish_writer res t y)
  | _ => Ret (AStep, set_prog (Some (t, p)) y)
  end.

Definition run_reader (k : nat) (p : prog T rresp) (r : reader) (y : sys) : outcome (resp * sys) :=
  match p with
  | PDone o => res ← o; Ret (AReader res, set_readers (<[k := finish_reader res r]> (y_readers y)) y)
  | _ => Ret (AStep, set_readers (<[k := rset_prog (Some p) r]> (y_readers y)) y)
  end.

(** The reader [k], between two operations. *)
Definition idle_reader (y : sys) (k : nat) : option reader :=
  r ← y_readers y !! k; match r_prog r with None => Some r | Some _ => None end.

Definition writer_idle (y : sys) : bool := match y_prog y with None => true | Some _ => false end.

Definition forget (i : Z) (r : reader) : reader :=
  rset_known (r_must r ∖ {[ i ]}) (r_noted r ∖ {[ i ]}) (r_acked r ∖ {[ i ]}) r.
Definition forget_must (i : Z) (r : reader) : reader :=
  rset_known (r_must r ∖ {[ i ]}) (r_noted r) (r_acked r) r.

(** A clone of [r], and one of [c] that has synchronized with [r]. *)
Definition clone_reader (r : reader) : reader :=
  mkReader (r_view r) ∅ None None (r_must r) (r_noted r) (r_noted r).
Definition merge_reader (c r : reader) : reader :=
  mkReader (vjoin (r_view c) (r_view r)) ∅ None None
    (r_must c ∪ r_must r) (r_noted c ∪ r_noted r) (r_noted c ∪ r_noted r).

(** One event; [None] when the client cannot make it in this state. *)
Definition exec_writer (y : sys) (e : event) : option (outcome (resp * sys)) :=
  match e with
  | EInsert t => Some (run_writer (Some t) (insert_op (y_header y) t) y)
  | EMark i =>
      if decide (is_Some (y_items y !! i) /\ i ∉ y_marked y) then
        Some (run_writer None (mark_op (y_header y) i)
          (set_readers (forget_must i <$> y_readers y) (set_items (y_items y) ({[ i ]} ∪ y_marked y) y)))
      else None
  | EFinalize i =>
      if decide (i ∈ y_marked y /\ Forall (fun r => i ∈ r_acked r) (y_readers y)) then
        Some (run_writer (y_items y !! i) (finalize_op (y_header y) i)
          (set_readers (forget i <$> y_readers y)
             (set_items (delete i (y_items y)) (y_marked y ∖ {[ i ]}) y)))
      else None
  | ENewReader =>
      Some (Ret (AStep, set_readers (y_readers y ++
        [mkReader (y_view y) ∅ None None (dom (y_items y) ∖ y_marked y) (y_marked y) (y_marked y)]) y))
  | EUpdate k =>
      r ← idle_reader y k;
      Some (Ret (AStep, set_readers (<[k :=
        rset_known (dom (y_items y) ∖ y_marked y) (y_marked y) (r_acked r)
          (rset_view (vjoin (r_view r) (y_view y)) r)]> (y_readers y)) y))
  | ECallback k =>
      r ← idle_reader y k;
      Some (Ret (AStep, set_view (vjoin (y_view y) (r_view r)) (set_readers (<[k :=
        rset_known (r_must r) (r_noted r) (r_acked r ∪ (r_noted r ∖ r_held r)) r]> (y_readers y)) y)))
  | EDrop k =>
      r ← idle_reader y k;
      Some (Ret (AStep, set_view (vjoin (y_view y) (r_view r)) (set_readers (delete k (y_readers y)) y)))
  | _ => None
  end.

Definition exec_reader (y : sys) (e : event) : option (outcome (resp * sys)) :=
  let n := h_size (y_header y) in
  match e with
  | EGet k i =>
      r ← idle_reader y k; if decide (0 <= i) then Some (run_reader k (get_op n i) r y) else None
  | EContains k i =>
      r ← idle_reader y k; if decide (0 <= i) then Some (run_reader k (contains_op n i) r y) else None
  | EUnchecked k i =>
      r ← idle_reader y k;
      if decide (i ∈ r_held r) then Some (run_reader k (unchecked_op n i) r y) else None
  | EIter k => r ← idle_reader y k; Some (run_reader k (iter_new_op n) r y)
  | ENext k front =>
      r ← idle_reader y k; it ← r_iter r; Some (run_reader k (next_op n front it) r y)
  | EReader k choice =>
      r ← y_readers y !! k; p ← r_prog r;
      o ← prog_step (y_mem y) (r_view r) p choice;
      Some ('(m, V, p') ← o; run_reader k p' (rset_view V r) (set_mem m y))
  | ERelease k i =>
      r ← idle_reader y k;
      Some (Ret (AStep, set_readers (<[k := rset_held (r_held r ∖ {[ i ]}) (r_iter r) r]> (y_readers y)) y))
  | EClone k ks =>
      r ← idle_reader y k; rs ← mapM (idle_reader y) ks;
      Some (Ret (AStep, set_readers (y_readers y ++ [foldl merge_reader (clone_reader r) rs]) y))
  | ETake k i =>
      r ← idle_reader y k;
      if decide (i ∈ r_held r) then
        Some (Ret (AStep, set_readers (<[k := rset_held (r_held r ∖ {[ i ]}) (r_iter r) r]> (y_readers y) ++
          [mkReader (r_view r) {[ i ]} None None (r_must r) (r_noted r) (r_noted r ∖ {[ i ]})]) y))
      else None
  | EGossip k k' =>
      r ← idle_reader y k; r' ← idle_reader y k';
      Some (Ret (AStep, set_readers (<[k' :=
        rset_view (vjoin (r_view r') (r_view r)) r']> (y_readers y)) y))
  | _ => None
  end.

Definition exec (y : sys) (e : event) : option (outcome (resp * sys)) :=
  match e with
  | EWriter choice =>
      '(t, p) ← y_prog y;
      o ← prog_step (y_mem y) (y_view y) p choice;
      Some ('(m, V, p') ← o; run_writer t p' (set_view V (set_mem m y)))
  | EInsert _ | EMark _ | EFinalize _ | ENewReader | EUpdate _ | ECallback _ | EDrop _ =>
      if writer_idle y then exec_writer y e else None
  | _ => exec_reader y e
  end.

(** The states of a client, from a new slab. *)
Inductive reachable (size : Z) : sys -> Prop :=
| reach_new : reachable size (sys_new size)
| reach_step y e r y' :
    reachable size y -> exec y e = Some (Ret (r, y')) -> reachable size y'.
End system.
Arguments wresp : clear implicits.
Arguments rresp : clear implicits.
Arguments reader : clear implicits.
Arguments sys : clear implicits.
Arguments event : clear implicits.
Arguments resp : clear implicits.
Arguments reachable : clear implicits.
