(* ===== verification/WeakInv.v ===== *)
(** The invariant that relates the shared memory to what the writer and each
    reader may assume, and its preservation by single accesses. *)

From S2P Require Import Prelude CslabStorage Weak.

(** A reader: its view, the items it may read, and what the client knows. *)
Record ghost (T : Type) := mkGhost {
  g_view : view;
  g_read : gmap Z T;
  g_must : gset Z;
  g_noted : gset Z;
  g_acked : gset Z;
}.
Arguments mkGhost {T} _ _ _ _ _.
Arguments g_view {T} _.
Arguments g_read {T} _.
Arguments g_must {T} _.
Arguments g_noted {T} _.
Arguments g_acked {T} _.

Section inv.
Context {T : Type} (n : Z).
Implicit Types (m : mem T) (V : view) (s : storage T) (priv keep : Z -> Prop) (g : ghost T).

(** The flag of index [i] in a word. *)
Definition has (v i : Z) : Prop := Z.testbit v (i mod 64) = true.
#[global] Instance has_dec v i : Decision (has v i).
Proof. unfold has. apply _. Defined.

(** A reader with view [V] that finds the flag of [i] set, in any store that it
    may still load, gets to see the item that is in the slot now. *)
Definition vis m priv (noted : gset Z) V : Prop :=
  forall i ts msg, 0 <= i -> (v_atomic V (LWord (i / 64)) <= ts)%nat ->
    m_hist m (LWord (i / 64)) !! ts = Some msg -> has (msg_val msg) i ->
    v_entry (msg_view msg) i = c_ts (m_cell m i)
    /\ (exists t, c_val (m_cell m i) = Item t) /\ ~ priv i /\ i ∉ noted.

(** The frontier that [V] sees is past [i]. *)
Definition sees m V (i : Z) : Prop :=
  exists f, m_hist m LFrontier !! v_atomic V LFrontier = Some f /\ i < msg_val f.

Definition readable m priv (acked : gset Z) V (R : gmap Z T) : Prop :=
  forall i t, R !! i = Some t ->
    0 <= i < n /\ v_entry V i = c_ts (m_cell m i) /\ c_val (m_cell m i) = Item t
    /\ ~ priv i /\ i ∉ acked /\ sees m V i.

(** What the reader must find. *)
Definition found_by m V (i : Z) : Prop :=
  0 <= i < n /\ sees m V i
  /\ forall ts msg, (v_atomic V (LWord (i / 64)) <= ts)%nat ->
       m_hist m (LWord (i / 64)) !! ts = Some msg -> has (msg_val msg) i.

Record reader_ok m V0 priv keep g : Prop := {
  ro_le : vle (g_view g) V0;
  ro_vis : vis m priv (g_noted g) (g_view g);
  ro_read : readable m priv (g_acked g) (g_view g) (g_read g);
  ro_must i : i ∈ g_must g -> keep i /\ found_by m (g_view g) i;
  ro_noted i : i ∈ g_noted g -> ~ priv i;
  ro_acked : g_acked g ⊆ g_noted g;
}.

(** [s] is the storage as the writer sees it, [priv] are the slots that no
    reader may look into, [keep] are the flags that readers rely on. *)
Record minv m V0 s priv keep (gs : list (ghost T)) : Prop := {
  mi_size : size s = n /\ length (table s) = Z.to_nat n /\ length (bitmap s) = Z.to_nat (words n);
  mi_latest l : S (v_atomic V0 l) = length (m_hist m l);
  mi_entry i : v_entry V0 i = c_ts (m_cell m i);
  mi_frontier : exists msg, m_hist m LFrontier !! v_atomic V0 LFrontier = Some msg /\ msg_val msg = frontier s;
  mi_words w : 0 <= w < words n -> exists msg,
    m_hist m (LWord w) !! v_atomic V0 (LWord w) = Some msg /\ bitmap s !! Z.to_nat w = Some (msg_val msg);
  mi_table i : 0 <= i < n -> table s !! Z.to_nat i = Some (c_val (m_cell m i));
  mi_msg l ts msg : m_hist m l !! ts = Some msg -> vle (msg_view msg) V0;
  mi_bits w ts msg : m_hist m (LWord w) !! ts = Some msg ->
    is_usize (msg_val msg)
    /\ forall i, 0 <= i -> i / 64 = w -> has (msg_val msg) i -> i < n /\ sees m (msg_view msg) i;
  mi_mono ts ts' f f' : (ts <= ts')%nat ->
    m_hist m LFrontier !! ts = Some f -> m_hist m LFrontier !! ts' = Some f' -> msg_val f <= msg_val f';
  mi_frange ts f : m_hist m LFrontier !! ts = Some f -> 0 <= msg_val f <= n;
  mi_vis : vis m priv ∅ V0;
  mi_readers : Forall (reader_ok m V0 priv keep) gs;
  mi_reads i rid : rid ∈ c_reads (m_cell m i) ->
    rid ∈ v_reads V0 \/ exists g, g ∈ gs /\ rid ∈ v_reads (g_view g) /\ ~ priv i /\ i ∉ g_acked g;
}.

(** ** Views that see more *)

Lemma vis_mono m priv noted V V' :
  (forall w, v_atomic V (LWord w) <= v_atomic V' (LWord w))%nat -> vis m priv noted V -> vis m priv noted V'.
Proof. intros HV Hv i ts msg Hi Hts. apply Hv; [done|]. etrans; [apply HV|done]. Qed.

Section facts.
Context m V0 s priv keep gs (I : minv m V0 s priv keep gs).

Lemma hist_latest l : is_Some (m_hist m l !! v_atomic V0 l).
Proof using I. apply lookup_lt_is_Some_2. rewrite <- (mi_latest _ _ _ _ _ _ I l). lia. Qed.

Lemma hist_below V l : vle V V0 -> is_Some (m_hist m l !! v_atomic V l).
Proof using I.
  intros [HV _]. apply lookup_lt_is_Some_2. rewrite <- (mi_latest _ _ _ _ _ _ I l).
  specialize (HV l). lia.
Qed.

Lemma sees_mono V V' i :
  (v_atomic V LFrontier <= v_atomic V' LFrontier)%nat -> vle V' V0 -> sees m V i -> sees m V' i.
Proof using I.
  intros Hle HV' (f & Hf & Hi). destruct (hist_below V' LFrontier HV') as [f' Hf'].
  exists f'. split; [done|]. pose proof (mi_mono _ _ _ _ _ _ I _ _ _ _ Hle Hf Hf'). lia.
Qed.

Lemma found_mono V V' i : vle V V' -> vle V' V0 -> found_by m V i -> found_by m V' i.
Proof using I.
  intros [HV He] HV' (Hi & Hs & Hf). split; [done|]. split; [eapply sees_mono; [apply HV|done|done]|].
  intros ts msg Hts. apply Hf. etrans; [apply HV|done].
Qed.

Lemma readable_mono acked V V' R : vle V V' -> vle V' V0 ->
  readable m priv acked V R -> readable m priv acked V' R.
Proof using I.
  intros HV HV' HR i t Hi. destruct (HR i t Hi) as (Hb & Hts & Hc & Hp & Ha & Hs).
  split; [done|]. split; [|split; [done|split; [done|split; [done|]]]].
  - destruct HV as [_ HV], HV' as [_ HV']. pose proof (mi_entry _ _ _ _ _ _ I i).
    specialize (HV i). specialize (HV' i). lia.
  - eapply sees_mono; [apply HV|done|done].
Qed.

(** A reader that sees more, with the same knowledge. *)
Lemma reader_ok_mono g V' : vle (g_view g) V' -> vle V' V0 ->
  reader_ok m V0 priv keep g ->
  reader_ok m V0 priv keep (mkGhost V' (g_read g) (g_must g) (g_noted g) (g_acked g)).
Proof using I.
  intros HV HV' [Hle Hv Hr Hm Hn Ha]. split; cbn; [done|..|done|done].
  - eapply vis_mono; [|done]. intros w. apply HV.
  - by eapply readable_mono.
  - intros i Hi. destruct (Hm i Hi) as [? ?]. split; [done|]. by eapply found_mono.
Qed.

(** The writer, seen otherwise the same. *)
Lemma minv_view V0' :
  (forall l, v_atomic V0' l = v_atomic V0 l) -> (forall i, v_entry V0' i = v_entry V0 i) ->
  v_reads V0 ⊆ v_reads V0' -> minv m V0' s priv keep gs.
Proof using I.
  intros Ha He Hr. assert (vle V0 V0') as Hle by (split; intros; rewrite ?Ha, ?He; lia).
  destruct I as [I1 I2 I3 I4 I5 I6 I7 I8 I9 I10 I11 I12 I13].
  split; try done.
  - intros l. by rewrite Ha.
  - intros i. by rewrite He.
  - by rewrite Ha.
  - intros w. rewrite Ha. apply I5.
  - intros l ts msg Hm. etrans; [by eapply I7|done].
  - eapply vis_mono; [|done]. intros w. by rewrite Ha.
  - eapply Forall_impl; [exact I12|]. intros g [H1 H2 H3 H4 H5 H6]. split; try done. by etrans.
  - intros i rid Hi. destruct (I13 i rid Hi) as [?|?]; [left; set_solver|by right].
Qed.
End facts.
(** ** The reads and the readers *)

(** A read of a slot, with an identifier that its reader keeps. *)
Definition mem_read (i : Z) (rid : nat) m : mem T :=
  let c := m_cell m i in
  mkMem (m_hist m) (<[i := mkCell (c_val c) (c_ts c) ({[ rid ]} ∪ c_reads c)]> (m_cell m)) (S rid).

Lemma mem_read_cell i rid m j :
  c_val (m_cell (mem_read i rid m) j) = c_val (m_cell m j)
  /\ c_ts (m_cell (mem_read i rid m) j) = c_ts (m_cell m j).
Proof.
  cbn. destruct (decide (j = i)) as [->|Hne]; [by rewrite fn_lookup_insert|by rewrite fn_lookup_insert_ne].
Qed.

Lemma minv_read m V0 s priv keep gs i rid :
  minv m V0 s priv keep gs ->
  rid ∈ v_reads V0 \/ (exists g, g ∈ gs /\ rid ∈ v_reads (g_view g) /\ ~ priv i /\ i ∉ g_acked g) ->
  minv (mem_read i rid m) V0 s priv keep gs.
Proof.
  intros [I1 I2 I3 I4 I5 I6 I7 I8 I9 I10 I11 I12 I13] Hrid.
  assert (forall P V, vis m priv P V -> vis (mem_read i rid m) priv P V) as Hvis.
  { intros P V Hv j ts msg Hj Hts Hm Hb. destruct (mem_read_cell i rid m j) as [-> ->].
    by apply (Hv j ts msg). }
  split; try done.
  - intros j. by rewrite (proj2 (mem_read_cell i rid m j)).
  - intros j. rewrite (proj1 (mem_read_cell i rid m j)). apply I6.
  - by apply Hvis.
  - eapply Forall_impl; [exact I12|]. intros g [H1 H2 H3 H4 H5 H6]. split; try done.
    + by apply Hvis.
    + intros j t Hj. destruct (mem_read_cell i rid m j) as [-> ->]. by apply (H3 j t).
  - intros j rid'. cbn. destruct (decide (j = i)) as [->|Hne].
    + rewrite fn_lookup_insert. cbn. intros [->%elem_of_singleton|Hr]%elem_of_union; auto.
    + rewrite fn_lookup_insert_ne by done. apply I13.
Qed.

(** Replacing what one reader knows. *)
Lemma minv_reader m V0 s priv keep gs k g g' :
  minv m V0 s priv keep gs -> gs !! k = Some g ->
  reader_ok m V0 priv keep g' -> v_reads (g_view g) ⊆ v_reads (g_view g') ->
  (forall i, i ∈ g_acked g' -> i ∈ g_acked g \/ v_reads (g_view g) ⊆ v_reads V0) ->
  minv m V0 s priv keep (<[k := g']> gs).
Proof.
  intros [I1 I2 I3 I4 I5 I6 I7 I8 I9 I10 I11 I12 I13] Hk Hok Hr Ha. split; try done.
  - by apply Forall_insert.
  - intros i rid Hi. destruct (I13 i rid Hi) as [?|(g0 & Hg0 & Hrid & Hp & Hna)]; [by left|].
    apply list_elem_of_lookup in Hg0 as [k0 Hk0]. destruct (decide (k0 = k)) as [->|Hne].
    + rewrite Hk in Hk0. injection Hk0 as <-.
      destruct (decide (i ∈ g_acked g')) as [Hin|Hnin].
      * destruct (Ha i Hin) as [?|Hsub]; [done|]. left. by apply Hsub.
      * right. exists g'. split; [|by split; [apply Hr|]].
        apply list_elem_of_lookup. exists k. apply list_lookup_insert_eq. by eapply lookup_lt_Some.
    + right. exists g0. split; [|done]. apply list_elem_of_lookup. exists k0.
      by rewrite list_lookup_insert_ne.
Qed.

Lemma minv_add_reader m V0 s priv keep gs g :
  minv m V0 s priv keep gs -> reader_ok m V0 priv keep g -> minv m V0 s priv keep (gs ++ [g]).
Proof.
  intros [I1 I2 I3 I4 I5 I6 I7 I8 I9 I10 I11 I12 I13] Hok. split; try done.
  - apply Forall_app. split; [done|]. by constructor.
  - intros i rid Hi. destruct (I13 i rid Hi) as [?|(g0 & Hg0 & ?)]; [by left|right].
    exists g0. split; [set_solver|done].
Qed.

Lemma minv_drop_reader m V0 s priv keep gs k g :
  minv m V0 s priv keep gs -> gs !! k = Some g -> v_reads (g_view g) ⊆ v_reads V0 ->
  minv m V0 s priv keep (delete k gs).
Proof.
  intros [I1 I2 I3 I4 I5 I6 I7 I8 I9 I10 I11 I12 I13] Hk Hr. split; try done.
  - by apply Forall_delete.
  - intros i rid Hi. destruct (I13 i rid Hi) as [?|(g0 & Hg0 & Hrid & ?)]; [by left|].
    rewrite (delete_Permutation gs k g Hk) in Hg0. apply elem_of_cons in Hg0 as [->|Hg0].
    + left. by apply Hr.
    + right. by exists g0.
Qed.

(** A slot that no reader may look into any more becomes private. *)
Lemma minv_private m V0 s priv keep gs gs' i :
  minv m V0 s priv keep gs -> 
  (exists msg, m_hist m (LWord (i / 64)) !! v_atomic V0 (LWord (i / 64)) = Some msg /\ ~ has (msg_val msg) i) ->
  Forall2 (fun g g' => i ∈ g_acked g /\ i ∉ g_must g' /\ g_view g' = g_view g /\ g_read g' = g_read g
    /\ g_must g' ⊆ g_must g /\ g_noted g' = g_noted g ∖ {[ i ]} /\ g_acked g' = g_acked g ∖ {[ i ]}) gs gs' ->
  minv m V0 s (fun j => j = i \/ priv j) keep gs'.
Proof.
  intros [I1 I2 I3 I4 I5 I6 I7 I8 I9 I10 I11 I12 I13] (msg0 & Hmsg0 & Hnb) HF. split; try done.
  - intros j ts msg Hj Hts Hm Hb. destruct (I11 j ts msg Hj Hts Hm Hb) as (? & ? & Hp & ?).
    split; [done|]. split; [done|]. split; [|done]. intros [->|]; [|done].
    assert (ts = v_atomic V0 (LWord (i / 64))) as ->.
    { apply lookup_lt_Some in Hm. rewrite <- I2 in Hm. lia. }
    congruence.
  - apply Forall_lookup. intros k g' Hk. destruct (Forall2_lookup_r _ _ _ _ _ HF Hk)
      as (g & Hg & Hack & Hmust & HV & HR & Hsub & Hnoted & Hacked).
    rewrite Forall_lookup in I12. destruct (I12 k g Hg) as [H1 H2 H3 H4 H5 H6].
    assert (i ∈ g_noted g) as Hin by (by apply H6).
    destruct g' as [V' R' must' noted' acked']; cbn in *; subst V' R' noted' acked'.
    split; cbn; [done|..].
    + intros j ts msg Hj Hts Hm Hb. destruct (H2 j ts msg Hj Hts Hm Hb) as (? & ? & Hp & Hnn).
      split; [done|]. split; [done|]. split; [|set_solver]. intros [->|]; done.
    + intros j t Hj. destruct (H3 j t Hj) as (? & ? & ? & Hp & Hna & ?).
      do 3 (split; [done|]). split; [|split; [set_solver|done]]. intros [->|]; done.
    + intros j Hj. apply H4. by apply Hsub.
    + intros j [Hj Hji]%elem_of_difference [->|Hp]; [set_solver|by apply (H5 j)].
    + set_solver.
  - intros j rid Hrid. destruct (I13 j rid Hrid) as [?|(g & Hg & Hr & Hp & Hna)]; [by left|].
    apply list_elem_of_lookup in Hg as [k Hk]. destruct (Forall2_lookup_l _ _ _ _ _ HF Hk)
      as (g' & Hk' & Hack & Hmust & HV & HR & Hsub & Hnoted & Hacked).
    right. exists g'. split; [by eapply list_elem_of_lookup_2|]. rewrite HV, Hacked.
    split; [done|]. split; [|set_solver]. intros [->|]; done.
Qed.

(** Readers that know less, a marked slot. *)
Lemma minv_forget_must m V0 s priv keep keep' gs i :
  minv m V0 s priv keep gs -> (forall j, j <> i -> keep j -> keep' j) ->
  minv m V0 s priv keep'
    ((fun g => mkGhost (g_view g) (g_read g) (g_must g ∖ {[ i ]}) (g_noted g) (g_acked g)) <$> gs).
Proof.
  intros [I1 I2 I3 I4 I5 I6 I7 I8 I9 I10 I11 I12 I13] Hk. split; try done.
  - apply Forall_fmap. eapply Forall_impl; [exact I12|]. intros g [H1 H2 H3 H4 H5 H6]. split; try done.
    intros j. cbn. intros [Hj Hne]%elem_of_difference. destruct (H4 j Hj). split; [|done].
    apply Hk; [set_solver|done].
  - intros j rid Hrid. destruct (I13 j rid Hrid) as [?|(g & Hg & Hr)]; [by left|right].
    eexists. split; [by apply list_elem_of_fmap_2|]. done.
Qed.

Lemma minv_iff m V0 s priv priv' keep gs :
  (forall i, priv i <-> priv' i) -> minv m V0 s priv keep gs -> minv m V0 s priv' keep gs.
Proof.
  intros Hp [I1 I2 I3 I4 I5 I6 I7 I8 I9 I10 I11 I12 I13].
  assert (forall noted V, vis m priv noted V -> vis m priv' noted V) as Hvis.
  { intros noted V Hv i ts msg Hi Hts Hm Hb. rewrite <- Hp. by apply (Hv i ts msg). }
  split; try done.
  - by apply Hvis.
  - eapply Forall_impl; [exact I12|]. intros g [H1 H2 H3 H4 H5 H6]. split; try done.
    + by apply Hvis.
    + intros i t Hi. rewrite <- Hp. by apply H3.
    + intros i Hi Hp'%Hp. by apply (H5 i).
  - intros i rid Hr. destruct (I13 i rid Hr) as [?|(g & ? & ? & ? & ?)]; [by left|right].
    exists g. by rewrite <- Hp.
Qed.

Lemma minv_keep m V0 s priv keep keep' gs :
  (forall j, keep j -> keep' j) -> minv m V0 s priv keep gs -> minv m V0 s priv keep' gs.
Proof.
  intros Hk [I1 I2 I3 I4 I5 I6 I7 I8 I9 I10 I11 I12 I13]. split; try done.
  eapply Forall_impl; [exact I12|]. intros g [H1 H2 H3 H4 H5 H6]. split; try done.
  intros j Hj. destruct (H4 j Hj). auto.
Qed.
End inv.
