(* ===== verification/WeakWriter.v ===== *)
(** The writer's side: what a program of the writer must respect, and that its
    steps then preserve the invariant. *)

From S2P Require Import Prelude CslabStorage Weak WeakInv.

Section writer.
Context {T : Type} (n : Z).
Implicit Types (m : mem T) (V : view) (s : storage T) (priv keep : Z -> Prop) (g : ghost T).

(** ** Writing to a private slot *)

Definition mem_write (i : Z) (e : entry T) m : mem T :=
  mkMem (m_hist m) (<[i := mkCell e (S (c_ts (m_cell m i))) ∅]> (m_cell m)) (m_next_read m).

Lemma minv_write m V0 s priv keep gs i e :
  minv n m V0 s priv keep gs -> priv i -> 0 <= i < n ->
  minv n (mem_write i e m) (see_entry i (S (c_ts (m_cell m i))) V0)
    (set_table (store (table s) i e) s) priv keep gs.
Proof.
  intros [I1 I2 I3 I4 I5 I6 I7 I8 I9 I10 I11 I12 I13] Hp Hi.
  assert (vle V0 (see_entry i (S (c_ts (m_cell m i))) V0)) as Hle.
  { split; [done|]. intros j. cbn. destruct (decide (j = i)) as [->|Hne];
      [rewrite fn_lookup_insert, I3; lia|by rewrite fn_lookup_insert_ne]. }
  assert (forall j, j <> i -> m_cell (mem_write i e m) j = m_cell m j) as Hcell.
  { intros j Hne. cbn. by rewrite fn_lookup_insert_ne. }
  assert (forall P V, vis m priv P V -> vis (mem_write i e m) priv P V) as Hvis.
  { intros P V Hv j ts msg Hj Hts Hm Hb. destruct (Hv j ts msg Hj Hts Hm Hb) as (? & ? & Hnp & ?).
    rewrite Hcell by (by intros ->). done. }
  split; try done.
  - destruct I1 as (? & ? & ?). cbn. unfold store. by rewrite length_insert.
  - intros j. cbn. destruct (decide (j = i)) as [->|Hne];
      [by rewrite !fn_lookup_insert|by rewrite !fn_lookup_insert_ne].
  - intros j Hj. cbn. unfold store. destruct (decide (j = i)) as [->|Hne].
    + rewrite fn_lookup_insert. apply list_lookup_insert_eq. lia.
    + rewrite fn_lookup_insert_ne, list_lookup_insert_ne by (done || lia). by apply I6.
  - intros l ts msg Hm. etrans; [by eapply I7|done].
  - by apply Hvis.
  - eapply Forall_impl; [exact I12|]. intros g [H1 H2 H3 H4 H5 H6]. split; try done.
    + by etrans.
    + by apply Hvis.
    + intros j t Hj. destruct (H3 j t Hj) as (? & ? & ? & Hnp & ?).
      rewrite Hcell by (by intros ->). done.
  - intros j rid. destruct (decide (j = i)) as [->|Hne].
    + cbn. rewrite fn_lookup_insert. cbn. set_solver.
    + rewrite Hcell by done. apply I13.
Qed.

(** The reads of a private slot all happen before. *)
Lemma private_reads m V0 s priv keep gs i :
  minv n m V0 s priv keep gs -> priv i -> c_reads (m_cell m i) ⊆ v_reads V0.
Proof.
  intros I Hp rid Hrid. destruct (mi_reads _ _ _ _ _ _ _ I i rid Hrid) as [?|(g & _ & _ & Hnp & _)]; done.
Qed.

(** ** Storing to an atomic location *)

Definition mem_store (l : aloc) (msg : message) m : mem T :=
  mkMem (<[l := m_hist m l ++ [msg]]> (m_hist m)) (m_cell m) (m_next_read m).

Lemma mem_store_old l msg m l' ts x :
  m_hist m l' !! ts = Some x -> m_hist (mem_store l msg m) l' !! ts = Some x.
Proof.
  intros Hx. cbn. destruct (decide (l' = l)) as [->|Hne].
  - rewrite fn_lookup_insert. by apply lookup_app_l_Some.
  - by rewrite fn_lookup_insert_ne.
Qed.

Lemma mem_store_inv l msg m l' ts x :
  m_hist (mem_store l msg m) l' !! ts = Some x ->
  m_hist m l' !! ts = Some x \/ l' = l /\ ts = length (m_hist m l) /\ x = msg.
Proof.
  cbn. destruct (decide (l' = l)) as [->|Hne].
  - rewrite fn_lookup_insert. intros [Hx|[Hlt Hx]]%lookup_app_Some; [by left|right].
    apply list_lookup_singleton_Some in Hx as [? <-]. split; [done|]. split; [lia|done].
  - rewrite fn_lookup_insert_ne by done. by left.
Qed.

Lemma mem_store_new l msg m : m_hist (mem_store l msg m) l !! length (m_hist m l) = Some msg.
Proof. cbn. rewrite fn_lookup_insert. by rewrite lookup_app_r, Nat.sub_diag by lia. Qed.

Lemma mem_store_sees l msg m V i : sees m V i -> sees (mem_store l msg m) V i.
Proof. intros (f & Hf & Hi). exists f. split; [by apply mem_store_old|done]. Qed.

Section store.
Context m V0 s priv keep gs (I : minv n m V0 s priv keep gs).

Lemma see_latest l : vle V0 (see_atomic l (length (m_hist m l)) V0).
Proof using I.
  split; [|done]. intros l'. cbn. destruct (decide (l' = l)) as [->|Hne].
  - rewrite fn_lookup_insert, <- (mi_latest _ _ _ _ _ _ _ I). lia.
  - by rewrite fn_lookup_insert_ne.
Qed.

Lemma store_latest l msg l' :
  S (v_atomic (see_atomic l (length (m_hist m l)) V0) l') = length (m_hist (mem_store l msg m) l').
Proof using I.
  cbn. destruct (decide (l' = l)) as [->|Hne].
  - rewrite !fn_lookup_insert, length_app. cbn. lia.
  - rewrite !fn_lookup_insert_ne by done. apply I.
Qed.

(** [Im] *)
Lemma minv_store_frontier rel v :
  let V' := see_atomic LFrontier (length (m_hist m LFrontier)) V0 in
  frontier s <= v <= n ->
  minv n (mem_store LFrontier (mkMsg v (if rel : bool then V' else vbot)) m) V' (set_frontier v s) priv keep gs.
Proof using I.
  intros V' Hv. pose proof (see_latest LFrontier) as Hle. fold V' in Hle.
  set (msg := mkMsg v _).
  assert (forall w, m_hist (mem_store LFrontier msg m) (LWord w) = m_hist m (LWord w)) as Hw.
  { intros w. cbn. by rewrite fn_lookup_insert_ne. }
  pose proof (store_latest LFrontier msg) as Hlatest. fold V' in Hlatest.
  destruct I as [I1 I2 I3 I4 I5 I6 I7 I8 I9 I10 I11 I12 I13].
  assert (forall ts f, m_hist m LFrontier !! ts = Some f -> msg_val f <= frontier s) as Hmax.
  { intros ts f Hf. destruct I4 as (f0 & Hf0 & <-). eapply I9; [|exact Hf|exact Hf0].
    apply lookup_lt_Some in Hf. rewrite <- I2 in Hf. lia. }
  assert (vle (msg_view msg) V') as Hmv.
  { subst msg. destruct rel; cbn; [done|]. split; cbn; lia. }
  split; try done.
  - exists msg. split; [|done]. unfold V'. cbn [v_atomic see_atomic]. rewrite fn_lookup_insert.
    apply mem_store_new.
  - intros l ts x [Hx|(-> & -> & ->)]%mem_store_inv; [|done]. etrans; [by eapply I7|done].
  - intros w ts x. rewrite Hw. intros Hx. destruct (I8 w ts x Hx) as [? Hb]. split; [done|].
    intros i Hi Hiw Hbit. destruct (Hb i Hi Hiw Hbit). split; [done|by apply mem_store_sees].
  - intros ts ts' f f' Hts Hf Hf'. apply mem_store_inv in Hf, Hf'.
    destruct Hf as [Hf|(_ & -> & ->)], Hf' as [Hf'|(_ & -> & ->)]; cbn; [by eapply I9| | |done].
    + specialize (Hmax ts f Hf). lia.
    + apply lookup_lt_Some in Hf'. lia.
  - intros ts f [Hf|(_ & _ & ->)]%mem_store_inv; [by eapply I10|]. cbn.
    destruct I4 as (f0 & Hf0 & Hf0'). specialize (I10 _ _ Hf0). lia.
  - eapply Forall_impl; [exact I12|]. intros g [H1 H2 H3 H4 H5 H6]. split; try done.
    + by etrans.
    + intros i t Hi. destruct (H3 i t Hi) as (? & ? & ? & ? & ? & ?).
      do 5 (split; [done|]). by apply mem_store_sees.
    + intros i Hi. destruct (H4 i Hi) as (? & ? & ? & Hf). split; [done|]. split; [done|].
      split; [by apply mem_store_sees|]. intros ts x. rewrite Hw. apply Hf.
Qed.

(** The flags of a word that is stored show no slot but those that are visible
    already and those that become so. *)
Lemma vis_store_word w v old noted V :
  let V' := see_atomic (LWord w) (length (m_hist m (LWord w))) V0 in
  let priv' i := priv i /\ ~ (i / 64 = w /\ has v i) in
  m_hist m (LWord w) !! v_atomic V0 (LWord w) = Some old ->
  (forall i, 0 <= i -> i / 64 = w -> has v i -> i < n /\ i < frontier s
    /\ (has (msg_val old) i \/ priv i /\ exists t, table s !! Z.to_nat i = Some (Item t))) ->
  vle V V0 -> vis m priv noted V -> (forall i, i ∈ noted -> ~ priv i) ->
  vis (mem_store (LWord w) (mkMsg v V') m) priv' noted V.
Proof using I.
  intros V' priv' Hold Hbits [HV _] Hvis Hnoted i ts x Hi Hts Hx Hb.
  apply mem_store_inv in Hx as [Hx|([= Hiw] & -> & ->)].
  - destruct (Hvis i ts x Hi Hts Hx Hb) as (? & ? & Hnp & ?). split; [done|]. split; [done|].
    split; [|done]. by intros [? _].
  - pose proof (mi_entry _ _ _ _ _ _ _ I i) as He.
    destruct (Hbits i Hi Hiw Hb) as (Hin & _ & [Ho|[Hp (t & Ht)]]).
    + destruct (Hvis i (v_atomic V0 (LWord (i / 64))) old Hi) as (? & ? & Hnp & ?);
        [apply HV|by rewrite Hiw|done|].
      cbn. split; [by rewrite He|]. split; [done|]. split; [|done]. by intros [? _].
    + cbn. split; [by rewrite He|]. split.
      { exists t. assert (Some (c_val (m_cell m i)) = Some (Item t)) as [= ?]; [|done].
        rewrite <- Ht. symmetry. apply (mi_table _ _ _ _ _ _ _ I). lia. }
      split; [intros [_ []]; done|]. intros Hin'. by apply (Hnoted i).
Qed.

(** [Ib] and [Rb]: a release store, of flags that are set already or of private
    slots that hold an item; the flags that readers rely on stay set. *)
Lemma minv_store_word w v :
  let V' := see_atomic (LWord w) (length (m_hist m (LWord w))) V0 in
  let priv' i := priv i /\ ~ (i / 64 = w /\ has v i) in
  0 <= w < words n -> is_usize v ->
  (forall i, 0 <= i -> i / 64 = w -> has v i -> i < n /\ i < frontier s
    /\ (has (bitmap s !!! Z.to_nat w) i \/ priv i /\ exists t, table s !! Z.to_nat i = Some (Item t))) ->
  (forall i, 0 <= i -> i / 64 = w -> keep i -> has v i) ->
  minv n (mem_store (LWord w) (mkMsg v V') m) V' (set_bitmap (store (bitmap s) w v) s) priv' keep gs.
Proof using I.
  intros V' priv' Hw Hv Hbits Hkeep. pose proof (see_latest (LWord w)) as Hle. fold V' in Hle.
  set (msg := mkMsg v V'). pose proof (store_latest (LWord w) msg) as Hlatest. fold V' in Hlatest.
  assert (m_hist (mem_store (LWord w) msg m) LFrontier = m_hist m LFrontier) as HF.
  { cbn. by rewrite fn_lookup_insert_ne. }
  assert (forall V i, sees m V i <-> sees (mem_store (LWord w) msg m) V i) as Hsees.
  { intros V i. unfold sees. by rewrite HF. }
  pose proof (fun old noted V => vis_store_word w v old noted V) as Hvs.
  destruct I as [I1 I2 I3 I4 I5 I6 I7 I8 I9 I10 I11 I12 I13].
  destruct (I5 w Hw) as (old & Hold & Hbm). specialize (Hvs old).
  assert (bitmap s !!! Z.to_nat w = msg_val old) as Hword by (by apply list_lookup_total_correct).
  rewrite Hword in Hbits.
  assert (forall noted V, vle V V0 -> vis m priv noted V -> (forall i, i ∈ noted -> ~ priv i) ->
    vis (mem_store (LWord w) msg m) priv' noted V) as Hvis by (intros noted V; by apply Hvs).
  split; try done.
  - destruct I1 as (? & ? & ?). cbn. unfold store. by rewrite length_insert.
  - intros w' Hw'. destruct (decide (w' = w)) as [->|Hne].
    + exists msg. unfold V'. cbn [v_atomic see_atomic]. rewrite fn_lookup_insert. split; [apply mem_store_new|].
      cbn. unfold store. apply list_lookup_insert_eq. destruct I1 as (_ & _ & ->). lia.
    + destruct (I5 w' Hw') as (x & Hx & Hbm'). exists x. unfold V'. cbn [v_atomic see_atomic].
      rewrite fn_lookup_insert_ne by congruence. split; [by apply mem_store_old|].
      cbn. unfold store. by rewrite list_lookup_insert_ne by lia.
  - intros l ts x [Hx|(-> & -> & ->)]%mem_store_inv; [|done]. etrans; [by eapply I7|done].
  - intros w' ts x [Hx|([= ->] & -> & ->)]%mem_store_inv.
    + destruct (I8 w' ts x Hx) as [? Hb]. split; [done|]. intros i Hi Hiw Hbit.
      destruct (Hb i Hi Hiw Hbit). split; [done|by apply Hsees].
    + split; [done|]. intros i Hi Hiw Hbit. destruct (Hbits i Hi Hiw Hbit) as (? & Hlt & _).
      split; [done|]. apply Hsees. destruct I4 as (f & Hf & Hfs). exists f.
      split; [exact Hf|lia].
  - eapply vis_mono; [|apply (Hvis ∅ V0); [done|done|set_solver]]. intros w'. apply Hle.
  - eapply Forall_impl; [exact I12|]. intros g [H1 H2 H3 H4 H5 H6]. split; try done.
    + by etrans.
    + by apply Hvis.
    + intros i t Hi. destruct (H3 i t Hi) as (? & ? & ? & Hnp & ? & ?).
      do 3 (split; [done|]). split; [by intros [? _]|]. split; [done|by apply Hsees].
    + intros i Hi. destruct (H4 i Hi) as (Hk & Hin & Hs & Hf). split; [done|]. split; [done|].
      split; [by apply Hsees|]. intros ts x Hts [Hx|([= Hiw] & -> & ->)]%mem_store_inv; [by apply (Hf ts)|].
      apply Hkeep; [lia|done|done].
    + intros i Hi [Hp _]. by apply (H5 i).
  - intros i rid Hrid. destruct (I13 i rid Hrid) as [?|(g & Hg & ? & Hnp & ?)]; [by left|right].
    exists g. split; [done|]. split; [done|]. split; [|done]. by intros [? _].
Qed.
End store.

(** ** Programs of the writer

    The writer always sees the latest stores, so that its program runs on the
    storage [s] as if it were alone; but it must only touch the contents of
    private slots, and its last access publishes. [Q] is about its result. *)
Fixpoint wsafe {A} keep priv s (p : prog T A) (Q : (Z -> Prop) -> storage T -> A -> Prop) : Prop :=
  match p with
  | PDone (Ret a) => Q priv s a
  | PDone _ => False
  | PLoad LFrontier _ k => wsafe keep priv s (k (frontier s)) Q
  | PLoad (LWord w) _ k => 0 <= w < words n /\ wsafe keep priv s (k (bitmap s !!! Z.to_nat w)) Q
  | PStore LFrontier _ v k => frontier s <= v <= n /\ wsafe keep priv (set_frontier v s) k Q
  | PStore (LWord w) rel v k =>
      rel = true /\ 0 <= w < words n /\ is_usize v
      /\ (forall i, 0 <= i -> i / 64 = w -> has v i -> i < n /\ i < frontier s
           /\ (has (bitmap s !!! Z.to_nat w) i
               \/ priv i /\ exists t, table s !! Z.to_nat i = Some (Item t)))
      /\ (forall i, 0 <= i -> i / 64 = w -> keep i -> has v i)
      /\ exists a, k = PDone (Ret a)
           /\ Q (fun i => priv i /\ ~ (i / 64 = w /\ has v i)) (set_bitmap (store (bitmap s) w v) s) a
  | PRead i k =>
      priv i /\ 0 <= i < n /\ exists e, table s !! Z.to_nat i = Some e /\ wsafe keep priv s (k e) Q
  | PWrite i e k =>
      priv i /\ 0 <= i < n /\ wsafe keep priv (set_table (store (table s) i e) s) k Q
  end.

Lemma wsafe_step {A} m V0 s priv keep gs (p : prog T A) Q choice o :
  minv n m V0 s priv keep gs -> wsafe keep priv s p Q -> prog_step m V0 p choice = Some o ->
  exists m' V0' p' s', o = Ret (m', V0', p')
    /\ (forall i, 0 <= i -> ~ priv i -> table s' !! Z.to_nat i = table s !! Z.to_nat i)
    /\ (minv n m' V0' s' priv keep gs /\ wsafe keep priv s' p' Q
        \/ exists a priv', p' = PDone (Ret a) /\ minv n m' V0' s' priv' keep gs /\ Q priv' s' a).
Proof.
  intros I Hs Hstep. destruct p as [o'|l acq k|l rel v k|i k|i e k]; cbn in Hstep; [done|..].
  - (* a load returns the latest store *)
    case_decide as Hle; [|done]. destruct (m_hist m l !! choice) as [msg|] eqn:Hmsg; [|done].
    cbn in Hstep. injection Hstep as <-.
    assert (choice = v_atomic V0 l) as ->.
    { apply lookup_lt_Some in Hmsg. rewrite <- (mi_latest _ _ _ _ _ _ _ I) in Hmsg. lia. }
    eexists m, _, _, s. split; [done|]. split; [done|]. left. split.
    + eapply minv_view; [exact I|..].
      * intros l'. pose proof (proj1 (mi_msg _ _ _ _ _ _ _ I _ _ _ Hmsg) l') as Hm.
        destruct acq; cbn; (destruct (decide (l' = l)) as [->|];
          [rewrite fn_lookup_insert|rewrite fn_lookup_insert_ne by done]); lia.
      * intros i. pose proof (proj2 (mi_msg _ _ _ _ _ _ _ I _ _ _ Hmsg) i) as Hm.
        destruct acq; cbn; lia.
      * destruct acq; cbn; set_solver.
    + destruct l as [|w]; cbn in Hs.
      * destruct (mi_frontier _ _ _ _ _ _ _ I) as (f & Hf & Hv).
        rewrite Hmsg in Hf. injection Hf as <-. by rewrite Hv.
      * destruct Hs as [Hw Hs]. destruct (mi_words _ _ _ _ _ _ _ I w Hw) as (f & Hf & Hv).
        rewrite Hmsg in Hf. injection Hf as <-.
        apply list_lookup_total_correct in Hv. by rewrite Hv in Hs.
  - (* a store *)
    rewrite decide_True in Hstep by apply (mi_latest _ _ _ _ _ _ _ I). injection Hstep as <-.
    destruct l as [|w]; cbn in Hs.
    + destruct Hs as [Hv Hs]. eexists _, _, _, _. split; [done|]. split; [|left; split; [|exact Hs]]; [done|].
      by apply (minv_store_frontier _ _ _ _ _ _ I).
    + destruct Hs as (-> & Hw & Hv & Hbits & Hkeep & a & -> & HQ).
      eexists _, _, _, _. split; [done|]. split; [|right; eexists a, _; split; [done|split; [|exact HQ]]]; [done|].
      by apply (minv_store_word _ _ _ _ _ _ I).
  - (* a read *)
    rewrite decide_True in Hstep by (symmetry; apply (mi_entry _ _ _ _ _ _ _ I)). injection Hstep as <-.
    destruct Hs as (Hp & Hi & e & He & Hs). eexists _, _, _, s. split; [done|]. split; [done|]. left. split.
    + apply minv_read; [|left; cbn; set_solver].
      by eapply minv_view; [exact I|..|cbn; set_solver].
    + rewrite (mi_table _ _ _ _ _ _ _ I i Hi) in He. injection He as ->. done.
  - (* a write *)
    destruct Hs as (Hp & Hi & Hs).
    rewrite decide_True in Hstep
      by (split; [symmetry; apply (mi_entry _ _ _ _ _ _ _ I)|eapply private_reads; [exact I|exact Hp]]).
    injection Hstep as <-. eexists _, _, _, _. split; [done|].
    split; [|left; split; [|exact Hs]]; [|by apply minv_write].
    intros j Hj Hnp. cbn. unfold store. rewrite list_lookup_insert_ne; [done|].
    intros Heq. apply Hnp. by replace j with i by lia.
Qed.
End writer.
