(* ===== verification/WeakReader.v ===== *)
(** The readers' side: what a program of a reader may rely on. *)

From S2P Require Import Prelude CslabStorage Weak WeakInv WeakWriter.

Section reader.
Context {T : Type} (n : Z).
Implicit Types (m : mem T) (V : view) (s : storage T) (priv keep : Z -> Prop) (g : ghost T).
Implicit Types (R : gmap Z T) (S : gset Z).

(** A program of a reader that may read the items [R]: an acquire load of the
    bitmap lets it read the items whose flags are set in what it gets; the
    flags of [S] are set in every value, and the frontier is past what it may
    read and past [S]. [Q] is about its result and what it may read in the end. *)
Fixpoint rsafe {A} S R (p : prog T A) (Q : gmap Z T -> A -> Prop) : Prop :=
  match p with
  | PDone (Ret a) => Q R a
  | PDone _ => False
  | PLoad LFrontier _ k =>
      forall f, 0 <= f <= n -> (forall i, i ∈ S \/ is_Some (R !! i) -> i < f) -> rsafe S R (k f) Q
  | PLoad (LWord w) acq k =>
      acq = true /\ 0 <= w < words n
      /\ forall v R', is_usize v -> R ⊆ R' ->
           (forall i, 0 <= i -> i / 64 = w -> has v i -> i < n /\ is_Some (R' !! i)) ->
           (forall i, i ∈ S -> i / 64 = w -> has v i) -> rsafe S R' (k v) Q
  | PRead i k => exists t, R !! i = Some t /\ rsafe S R (k (Item t)) Q
  | PStore _ _ _ _ | PWrite _ _ _ => False
  end.

Lemma rsafe_mono {A} S R (p : prog T A) (Q Q' : gmap Z T -> A -> Prop) :
  (forall R' a, R ⊆ R' -> Q R' a -> Q' R' a) -> rsafe S R p Q -> rsafe S R p Q'.
Proof.
  revert R. induction p as [o|l acq k IH|l rel v k IH|i k IH|i e k IH]; intros R HQ; cbn; [|..|done].
  - destruct o; try done. by apply HQ.
  - destruct l as [|w].
    + intros Hs f Hf Hb. apply IH; auto.
    + intros (? & ? & Hs). split; [done|]. split; [done|]. intros v R' Hv HR Hb HS.
      apply IH; [|by apply Hs]. intros R'' a HR''. apply HQ. by etrans.
  - done.
  - intros (t & Ht & Hs). exists t. split; [done|]. apply IH; auto.
Qed.

Lemma rsafe_bind {A B} S R (p : prog T A) (f : A -> prog T B) Q :
  rsafe S R p (fun R' a => rsafe S R' (f a) Q) -> rsafe S R (prog_bind f p) Q.
Proof.
  revert R. induction p as [o|l acq k IH|l rel v k IH|i k IH|i e k IH]; intros R; cbn; [|..|done].
  - by destruct o.
  - destruct l as [|w]; [by auto|]. intros (? & ? & Hs). by auto 10.
  - done.
  - intros (t & Ht & Hs). eauto.
Qed.

(** The items that a set of flags makes readable. *)
Lemma extend_readable (P : Z -> T -> Prop) (l : list Z) R :
  (forall i t t', P i t -> P i t' -> t = t') -> (forall i t, R !! i = Some t -> P i t) ->
  (forall i, i ∈ l -> exists t, P i t) ->
  exists R', R ⊆ R' /\ (forall i, i ∈ l -> is_Some (R' !! i)) /\ (forall i t, R' !! i = Some t -> P i t).
Proof.
  intros Hfun. revert R. induction l as [|j l IH]; intros R HR Hl.
  - exists R. split; [done|]. split; [by intros i ?%elem_of_nil|done].
  - destruct (Hl j) as [t Ht]; [by left|].
    destruct (IH (<[j := t]> R)) as (R' & Hsub & Hin & HP).
    + intros i t'. destruct (decide (i = j)) as [->|Hne].
      * rewrite lookup_insert_eq. by intros [= <-].
      * rewrite lookup_insert_ne by done. apply HR.
    + intros i Hi. apply Hl. by right.
    + exists R'. split; [|split; [|done]].
      * apply map_subseteq_spec. intros i t' Hi. eapply lookup_weaken; [|exact Hsub].
        destruct (decide (i = j)) as [->|Hne]; [|by rewrite lookup_insert_ne].
        rewrite lookup_insert_eq. f_equal. by eapply Hfun; [|apply HR].
      * intros i [->|Hi]%elem_of_cons; [|by apply Hin]. exists t.
        eapply lookup_weaken; [|exact Hsub]. apply lookup_insert_eq.
Qed.

Section step.
Context m V0 s priv keep gs k g (I : minv n m V0 s priv keep gs) (Hk : gs !! k = Some g).

Lemma reader_k : reader_ok n m V0 priv keep g.
Proof using I Hk. pose proof (mi_readers _ _ _ _ _ _ _ I) as HF. rewrite Forall_lookup in HF. by eapply HF. Qed.

(** The view after loading the store at [ts]. *)
Lemma load_view l ts msg acq :
  (v_atomic (g_view g) l <= ts)%nat -> m_hist m l !! ts = Some msg ->
  let V' := see_atomic l ts (g_view g) in
  let V'' := if acq : bool then vjoin V' (msg_view msg) else V' in
  vle (g_view g) V'' /\ vle V'' V0 /\ v_reads (g_view g) ⊆ v_reads V'' /\ (ts <= v_atomic V'' l)%nat.
Proof using I Hk.
  intros Hts Hm V' V''. pose proof (ro_le _ _ _ _ _ _ reader_k) as [Hla Hle].
  assert (vle (g_view g) V') as H1.
  { split; [|done]. intros l'. cbn. destruct (decide (l' = l)) as [->|];
      [by rewrite fn_lookup_insert|by rewrite fn_lookup_insert_ne]. }
  assert (vle V' V0) as H2.
  { split; [|done]. intros l'. cbn. destruct (decide (l' = l)) as [->|];
      [rewrite fn_lookup_insert|by rewrite fn_lookup_insert_ne].
    apply lookup_lt_Some in Hm. rewrite <- (mi_latest _ _ _ _ _ _ _ I) in Hm. lia. }
  assert (ts <= v_atomic V' l)%nat as H3 by (cbn; by rewrite fn_lookup_insert).
  subst V''. destruct acq; [|done]. split; [|split; [|split]].
  - etrans; [exact H1|apply vle_join_l].
  - apply vle_join; [done|by eapply mi_msg].
  - cbn. set_solver.
  - etrans; [exact H3|]. apply vle_join_l.
Qed.

Lemma set_reader_view V' R' :
  vle (g_view g) V' -> vle V' V0 -> v_reads (g_view g) ⊆ v_reads V' ->
  readable n m priv (g_acked g) V' R' ->
  minv n m V0 s priv keep (<[k := mkGhost V' R' (g_must g) (g_noted g) (g_acked g)]> gs).
Proof using I Hk.
  intros HV HV' Hr HR. eapply minv_reader; [exact I|exact Hk| |exact Hr|auto].
  pose proof (reader_ok_mono n m V0 s priv keep gs I g V' HV HV' reader_k) as [H1 H2 H3 H4 H5 H6].
  by split.
Qed.

(** An acquire load of a word makes the items whose flags it shows readable. *)
Lemma load_word_readable w choice msg :
  0 <= w < words n -> (v_atomic (g_view g) (LWord w) <= choice)%nat -> m_hist m (LWord w) !! choice = Some msg ->
  let V' := vjoin (see_atomic (LWord w) choice (g_view g)) (msg_view msg) in
  exists R', (g_read g ⊆ R')
    /\ minv n m V0 s priv keep (<[k := mkGhost V' R' (g_must g) (g_noted g) (g_acked g)]> gs)
    /\ forall i, 0 <= i -> i / 64 = w -> has (msg_val msg) i -> i < n /\ is_Some (R' !! i).
Proof using I Hk.
  intros Hw Hle Hmsg V'. pose proof reader_k as Hok.
  destruct (load_view (LWord w) choice msg true Hle Hmsg) as (HV & HV' & Hr & Hts). fold V' in HV, HV', Hr, Hts.
  destruct (mi_bits _ _ _ _ _ _ _ I w choice msg Hmsg) as [Hu Hbits].
  destruct (extend_readable
    (fun i t => 0 <= i < n /\ v_entry V' i = c_ts (m_cell m i) /\ c_val (m_cell m i) = Item t
       /\ ~ priv i /\ i ∉ g_acked g /\ sees m V' i)
    (base.filter (fun i => has (msg_val msg) i) (seqZ (64 * w) 64)) (g_read g))
    as (R' & Hsub & Hin & HP).
  - intros i t t' (_ & _ & H1 & _) (_ & _ & H2 & _). congruence.
  - eapply readable_mono; [exact I|done..|apply Hok].
  - intros i [Hb Hi%elem_of_seqZ]%list_elem_of_filter.
    assert (i / 64 = w) as Hiw by (symmetry; apply (Z.div_unique _ _ _ (i - 64 * w)); lia).
    destruct (Hbits i) as [Hin Hsees]; [lia|done|done|].
    destruct (ro_vis _ _ _ _ _ _ Hok i choice msg) as (He & [t Ht] & Hnp & Hnn);
      [lia|by rewrite Hiw|by rewrite Hiw|done|].
    exists t. split; [lia|]. split; [|split; [done|split; [done|split]]].
    + pose proof (mi_entry _ _ _ _ _ _ _ I i). destruct HV' as [_ HV']. specialize (HV' i).
      unfold V' in *. cbn in *. lia.
    + intros Ha. apply Hnn. by apply (ro_acked _ _ _ _ _ _ Hok).
    + eapply sees_mono; [exact I| |exact HV'|exact Hsees]. unfold V'. cbn. lia.
  - exists R'. split; [done|]. split; [by apply set_reader_view|].
    intros i Hi Hiw Hb. split; [by apply Hbits|]. apply Hin.
    apply list_elem_of_filter. split; [done|]. apply elem_of_seqZ.
    pose proof (Z_div_mod_eq_full i 64). pose proof (Z.mod_pos_bound i 64). lia.
Qed.

Lemma rsafe_step {A} (p : prog T A) (Qs : gset Z -> gmap Z T -> A -> Prop) choice o :
  (forall S, S ⊆ g_must g -> rsafe S (g_read g) p (Qs S)) ->
  prog_step m (g_view g) p choice = Some o ->
  exists m' V' p' R', o = Ret (m', V', p')
    /\ minv n m' V0 s priv keep (<[k := mkGhost V' R' (g_must g) (g_noted g) (g_acked g)]> gs)
    /\ g_read g ⊆ R'
    /\ (forall S, S ⊆ g_must g -> rsafe S R' p' (Qs S)).
Proof using I Hk.
  intros Hs Hstep. pose proof reader_k as Hok. pose proof (Hs ∅ (empty_subseteq _)) as Hs0.
  destruct p as [o'|l acq kont|l rel v kont|i kont|i e kont]; cbn in Hstep; try done.
  - case_decide as Hle; [|done]. destruct (m_hist m l !! choice) as [msg|] eqn:Hmsg; [|done].
    cbn in Hstep. injection Hstep as <-.
    destruct (load_view l choice msg acq Hle Hmsg) as (HV & HV' & Hr & Hts).
    set (V' := if acq then vjoin (see_atomic l choice (g_view g)) (msg_view msg)
               else see_atomic l choice (g_view g)) in *.
    destruct l as [|w].
    + (* the frontier *)
      eexists m, V', _, (g_read g). split; [done|]. split; [|split; [done|]].
      * apply set_reader_view; [done..|]. eapply readable_mono; [exact I|done..|apply Hok].
      * intros S HS. apply (Hs S HS); [by eapply mi_frange|].
        assert (forall i, sees m (g_view g) i -> i < msg_val msg) as Hsees.
        { intros i (f & Hf & Hi). pose proof (mi_mono _ _ _ _ _ _ _ I _ _ _ _ Hle Hf Hmsg). lia. }
        intros i [Hi|[t Hi]]; apply Hsees.
        -- by destruct (ro_must _ _ _ _ _ _ Hok i (HS i Hi)) as [_ (_ & ? & _)].
        -- by destruct (ro_read _ _ _ _ _ _ Hok i t Hi) as (_ & _ & _ & _ & _ & ?).
    + (* a word of the bitmap *)
      destruct Hs0 as (Hacq & Hw & _). subst acq.
      destruct (load_word_readable w choice msg Hw Hle Hmsg) as (R' & Hsub & Hm & HR).
      eexists m, V', _, R'. split; [done|]. split; [exact Hm|]. split; [done|].
      intros S HS. destruct (Hs S HS) as (_ & _ & Hs'). destruct (mi_bits _ _ _ _ _ _ _ I w choice msg Hmsg) as [Hu _].
      apply Hs'; [done|done|exact HR|].
      intros i Hi Hiw. destruct (ro_must _ _ _ _ _ _ Hok i (HS i Hi)) as [_ (Hin' & _ & Hf)].
      apply (Hf choice); by rewrite Hiw.
  - (* an item *)
    destruct Hs0 as (t & Ht & _).
    destruct (ro_read _ _ _ _ _ _ Hok i t Ht) as (Hi & He & Hc & Hnp & Hna & _).
    rewrite decide_True in Hstep by done. injection Hstep as <-.
    eexists _, _, _, (g_read g). split; [done|]. split; [|split; [done|]].
    + apply (minv_read n m V0 s priv keep _ i (m_next_read m)).
      * apply set_reader_view; [by split|apply Hok|cbn; set_solver|apply Hok].
      * right. exists (mkGhost (add_read (m_next_read m) (g_view g)) (g_read g) (g_must g) (g_noted g) (g_acked g)).
        split; [|split; [cbn; set_solver|done]].
        apply list_elem_of_lookup. exists k. apply list_lookup_insert_eq. by eapply lookup_lt_Some.
    + intros S HS. destruct (Hs S HS) as (t' & Ht' & Hs'). rewrite Ht in Ht'. injection Ht' as <-.
      by rewrite Hc.
Qed.
End step.
End reader.
