(* ===== verification/WeakWriterOps.v ===== *)
(** What the operations of the writer do to the storage, access by access. *)

From S2P Require Import Prelude CslabWord CslabStorage Cslab SlabSpec CslabProof.
From S2P Require Import Weak WeakCslab WeakSystem WeakInv WeakWriter.

(** The slab that the writer sees. *)
Definition slab_of {T} (h : header) (s : storage T) : cslab T :=
  mkCslab (h_first_free h) (h_in_use h) (h_allocated h) s.

Ltac prog_simpl :=
  cbn [mbind prog_mbind prog_bind lift mret prog_mret wsafe read_next_free read_item frontier set_table set_bitmap set_frontier].

Section ops.
Context {T : Type} (n : Z) (ord : orderings).
Implicit Types (s : storage T) (priv keep : Z -> Prop) (items : gmap Z T) (marked : gset Z).

(** Between two operations, the items and the marked ones are those of the
    abstract slab. *)
Definition slab_has h s items marked : Prop :=
  h_size h = n
  /\ exists a, slab_rel (slab_of h s) a /\ sp_cap a = n
       /\ present a ∪ pending a = items /\ dom (pending a) = marked.

Definition items_after (t : option T) items (r : wresp T) : gmap Z T :=
  match r, t with WInserted (Ok i), Some t => <[i := t]> items | _, _ => items end.

(** What an operation leaves and answers, on a slab with [items] and [marked];
    [t] is the item to insert or to remove. *)
Definition writer_post (t : option T) items marked
    (priv : Z -> Prop) s (res : header * wresp T) : Prop :=
  slab_has res.1 s (items_after t items res.2) marked
  /\ (forall i, priv i <-> items_after t items res.2 !! i = None)
  /\ match res.2 with
     | WInserted (Ok i) => items !! i = None /\ 0 <= i < n
     | WInserted (Err _) => Z.of_nat (base.size items) = n
     | WMarked i => i ∈ marked
     | WFinalized t' => t = Some t'
     end.

Lemma bitmap_at_Ret i : 0 <= i < n -> n <= isize_MAX -> bitmap_at n i = Ret (LWord (i / 64)).
Proof.
  intros Hi Hn. pose proof (words_index n i Hi) as Hw. unfold isize_MAX in Hn.
  unfold bitmap_at. rewrite bitmap_len_eq by lia. cbn [mbind outcome_bind]. unfold usize_BITS.
  destruct (Z.leb_spec 0 (i / 64)), (Z.ltb_spec (i / 64) (words n)); (done || lia).
Qed.

Lemma table_at_Ret i : 0 <= i < n -> table_at n i = Ret i.
Proof. intros Hi. unfold table_at. destruct (Z.leb_spec 0 i), (Z.ltb_spec i n); (done || lia). Qed.

Lemma has_set w i j :
  j / 64 = i / 64 -> has (Z.lor w (shl 1 (i mod usize_BITS))) j <-> j = i \/ has w j.
Proof.
  intros Hd. unfold has, usize_BITS. pose proof (mod64_bound i). pose proof (mod64_bound j).
  rewrite bit_set_testbit, orb_true_iff, Z.eqb_eq by lia. split; intros [H1|?]; auto.
  - left. by apply div_mod_eq.
  - left. by rewrite H1.
Qed.

Lemma has_clear w i j : is_usize w ->
  j / 64 = i / 64 -> has (Z.land w (not_ (shl 1 (i mod usize_BITS)))) j <-> j <> i /\ has w j.
Proof.
  intros Hw Hd. unfold has, usize_BITS. pose proof (mod64_bound i). pose proof (mod64_bound j).
  rewrite bit_clear_testbit, andb_true_iff, negb_true_iff, Z.eqb_neq by (done || lia).
  split; intros [H1 ?]; (split; [|done]); intros Heq; apply H1; [by rewrite Heq|by apply div_mod_eq].
Qed.

Section slab.
Context h s a (R : slab_rel (slab_of h s) a) (Hn : sp_cap a = n) (Hh : h_size h = n).

Lemma bits_present w i :
  0 <= w < words n -> 0 <= i -> i / 64 = w -> has (bitmap s !!! Z.to_nat w) i ->
  is_Some (present a !! i) /\ i < n /\ i < frontier s.
Proof using R Hn.
  intros Hw Hi <- Hb. assert (bit s i = true) as Hbit by exact Hb.
  change s with (slab_storage (slab_of h s)) in Hbit.
  rewrite (rel_bits _ _ R), bool_decide_eq_true in Hbit by (done || rewrite Hn; lia).
  split; [done|]. split; [rewrite <- Hn; by apply (present_bound _ _ R)|by apply (rel_frontier _ _ R)].
Qed.

Lemma present_bits i :
  is_Some (present a !! i) -> has (bitmap s !!! Z.to_nat (i / 64)) i.
Proof using R.
  intros Hs. pose proof (present_bound _ _ R i Hs) as Hi. unfold has.
  change (bit (slab_storage (slab_of h s)) i = true).
  rewrite (rel_bits _ _ R), bool_decide_eq_true by (lia || by apply words_index). done.
Qed.
End slab.

(** The last access of [insert], and what it publishes. *)
Lemma insert_publish h s a t i l nf priv keep :
  slab_rel (slab_of h s) a -> sp_cap a = n ->
  free a = i :: l -> table s !! Z.to_nat i = Some (Free nf) ->
  chain (table s) n (i + 1 + nf) l -> 0 <= i + 1 + nf <= n ->
  (forall i, priv i <-> (present a ∪ pending a) !! i = None) ->
  (forall i, keep i -> is_Some (present a !! i)) ->
  let w := bitmap s !!! Z.to_nat (i / 64) in
  wsafe n keep priv
    (mkStorage (size s) (Z.max (frontier s) (i + 1)) (store (table s) i (Item t)) (bitmap s) (bitmap_offset s))
    (PStore (LWord (i / 64)) true (Z.lor w (shl 1 (i mod usize_BITS)))
       (PDone (Ret (mkHeader n (wrap 64 (i + 1 + nf)) (h_in_use h + 1) (h_allocated h + 1), WInserted (Ok i)))))
    (writer_post (Some t) (present a ∪ pending a) (dom (pending a))).
Proof.
  intros R Hn Hf Hnf Hc Hb Hpriv Hkeep w.
  destruct (free_head _ _ R i l Hf) as (Hff & Hi & Hp & Hq & Hni & _).
  pose proof (inserted_rel _ _ R t i l nf Hf Hnf (eq_ind_r (fun x => chain _ x _ _) Hc Hn)) as R'.
  pose proof (cap_bound _ _ R) as Hcap. unfold isize_MAX in Hcap. rewrite Hn in Hi, Hcap.
  pose proof (words_index n i Hi) as Hw.
  assert (is_usize w) as Hwu by (apply (word_usize s), (rel_words _ _ R)).
  assert (forall j, has w j -> 0 <= j -> j / 64 = i / 64 ->
    is_Some (present a !! j) /\ j < n /\ j < frontier s) as Hbits.
  { intros j Hj H0 Hd. by apply (bits_present h s a R Hn (i / 64)). }
  cbn [wsafe]. split; [done|]. split; [done|]. split; [by apply bit_set_usize|].
  split; [|split; [|eexists; split; [reflexivity|]]]; cbn [bitmap frontier table].
  - intros j Hj Hd Hb'. apply (has_set _ _ _ Hd) in Hb' as [->|Hb'].
    + split; [lia|]. split; [lia|]. right. split; [by apply Hpriv; rewrite lookup_union, Hp, Hq|].
      exists t. unfold store. apply list_lookup_insert_eq. pose proof (rel_table _ _ R) as Ht. cbn in Ht. lia.
    + destruct (Hbits j Hb' Hj Hd) as (_ & ? & ?). split; [done|]. split; [lia|by left].
  - intros j Hj Hd Hk. apply (has_set _ _ _ Hd). right. unfold w. rewrite <- Hd.
    apply (present_bits h s a R), Hkeep, Hk.
  - split; [|split]; cbn [fst snd items_after].
    + split; [done|]. eexists. split; [|split; [|split]].
      * rewrite wrap_small by (unfold is_uint; lia). exact R'.
      * done.
      * cbn. by rewrite insert_union_l.
      * done.
    + intros j. rewrite (Hpriv j). destruct (decide (j = i)) as [->|Hne].
      * rewrite lookup_insert_eq. split; [|done]. intros [_ []]. split; [done|]. apply has_set; auto.
      * rewrite lookup_insert_ne by done. split; [by intros [? _]|]. intros Hj. split; [done|].
        intros [Hd Hb']. apply (has_set _ _ _ Hd) in Hb' as [?|Hb']; [done|].
        assert (0 <= j) as H0 by (pose proof (Z.div_lt_upper_bound j 64 0); lia).
        destruct (Hbits j Hb' H0 Hd) as ((x & Hx) & _).
        by rewrite lookup_union, Hx, union_Some_l in Hj.
    + by rewrite lookup_union, Hp, Hq.
Qed.

Lemma insert_wsafe h s items marked priv keep t :
  o_insert ord = true -> slab_has h s items marked ->
  (forall i, priv i <-> items !! i = None) -> (forall i, keep i -> i ∈ dom items ∖ marked) ->
  wsafe n keep priv s (insert_op ord h t) (writer_post (Some t) items marked).
Proof.
  intros Hord (Hh & a & R & Hn & <- & <-) Hpriv Hkeep.
  assert (forall i, keep i -> is_Some (present a !! i)) as Hkeep'.
  { intros i Hi%Hkeep. rewrite dom_union_L, elem_of_difference, elem_of_union, !elem_of_dom in Hi. tauto. }
  pose proof (cap_bound _ _ R) as Hcap. pose proof (used_bound _ _ R) as Hused.
  pose proof (rel_frontier _ _ R) as [Hfr _]. rewrite Hn in *. cbn in Hfr.
  assert (base.size (present a ∪ pending a) = base.size (present a) + base.size (pending a))%nat as Hsz.
  { apply map_size_disj_union, (rel_wf _ _ R). }
  unfold insert_op, insert_prog. rewrite Hh. destruct (free a) as [|i l] eqn:Hf; cbn in Hused.
  - pose proof (rel_free _ _ R) as Hff. rewrite Hf in Hff. cbn in Hff. rewrite Hff, Hn.
    destruct (Z.geb_spec n n) as [_|?]; [|lia]. prog_simpl. split; [|split; [done|cbn; lia]].
    split; [done|]. by exists a.
  - destruct (free_head _ _ R i l Hf) as (Hff & Hi & Hp & Hq & Hni & nf & Hnf & Hb & Hc).
    pose proof (rel_in_use _ _ R) as Hu. pose proof (rel_allocated _ _ R) as Hal. cbn in Hu, Hal.
    pose proof (flag_in _ _ R i Hi) as Hflag. cbn in Hflag.
    rewrite Hp, bool_decide_eq_false_2 in Hflag by (by intros []).
    cbn in Hff, Hnf. rewrite Hn in Hi, Hb, Hc. rewrite Hff.
    destruct (Z.geb_spec i n) as [?|_]; [lia|].
    unfold read_entry, write_entry, load, store_to. rewrite table_at_Ret by done. prog_simpl.
    assert (priv i) as Hpi by (apply Hpriv; by rewrite lookup_union, Hp, Hq).
    split; [done|]. split; [done|]. exists (Free nf). split; [done|]. prog_simpl.
    unfold isize_MAX in Hcap. rewrite as_isize_small by (unfold isize_MAX; lia).
    do 2 (rewrite add_isize_Ret by (unfold isize_MAX, isize_MIN; lia); prog_simpl).
    split; [done|]. split; [done|].
    rewrite bitmap_at_Ret by (unfold isize_MAX; lia). prog_simpl.
    set (s1 := mkStorage (size s) (Z.max (frontier s) (i + 1)) (store (table s) i (Item t))
                 (bitmap s) (bitmap_offset s)).
    destruct (Z.geb_spec i (frontier s)) as [Hge|Hlt];
      [rewrite (add_u_Ret 64 i) by lia; prog_simpl; split; [lia|];
       replace (set_frontier _ _) with s1 by (unfold s1, set_frontier; cbn; f_equal; lia)
      |replace (set_table _ _) with s1 by (destruct s; unfold s1, set_table; cbn in *; f_equal; lia)].
    all: prog_simpl; split; [by apply words_index|]; change (bitmap s1) with (bitmap s).
    all: rewrite Hflag; cbn [Z.b2z Z.eqb]; prog_simpl.
    all: do 2 (rewrite add_u_Ret by lia; prog_simpl); rewrite Hord; by eapply insert_publish.
Qed.

Lemma mark_wsafe h s items marked priv keep i :
  o_mark ord = true -> slab_has h s items marked -> is_Some (items !! i) -> i ∉ marked ->
  (forall j, priv j <-> items !! j = None) -> (forall j, keep j -> j ∈ dom items ∖ ({[ i ]} ∪ marked)) ->
  wsafe n keep priv s (mark_op ord h i) (writer_post None items ({[ i ]} ∪ marked)).
Proof.
  intros Hord (Hh & a & R & Hn & <- & <-) [t Ht] Hnp Hpriv Hkeep.
  assert (present a !! i = Some t) as Hp.
  { apply lookup_union_Some_raw in Ht as [?|[_ Ht]]; [done|]. destruct Hnp. by eapply elem_of_dom_2. }
  assert (0 <= i < n) as Hi by (rewrite <- Hn; apply (present_bound _ _ R); eauto).
  pose proof (marked_rel _ _ R i t Hp) as R'. pose proof (cap_bound _ _ R) as Hcap. rewrite Hn in Hcap.
  pose proof (words_index n i Hi) as Hw. pose proof (rel_in_use _ _ R) as Hu. cbn in Hu.
  assert (base.size (present a) <> 0%nat) as Hne.
  { intros Hz%map_size_empty_inv. rewrite Hz in Hp. by rewrite lookup_empty in Hp. }
  pose proof (flag_in _ _ R i) as Hflag. cbn in Hflag. rewrite Hp, bool_decide_eq_true_2 in Hflag by eauto.
  set (w := bitmap s !!! Z.to_nat (i / 64)) in *.
  assert (is_usize w) as Hwu by (apply (word_usize s), (rel_words _ _ R)).
  unfold mark_op, mark_removed_prog. rewrite Hh, bitmap_at_Ret by (done || lia).
  unfold load, store_to. prog_simpl. split; [done|]. fold w. rewrite Hflag by (rewrite Hn; lia).
  cbn [Z.b2z Z.eqb Pos.eqb]. prog_simpl. rewrite sub_u_Ret by lia. prog_simpl.
  assert (forall j, has w j -> 0 <= j -> j / 64 = i / 64 ->
    is_Some (present a !! j) /\ j < n /\ j < frontier s) as Hbits.
  { intros j Hj H0 Hd. by apply (bits_present h s a R Hn (i / 64)). }
  split; [done|]. split; [done|]. split; [apply bit_clear_usize; [apply mod64_bound|done]|].
  split; [|split; [|eexists; split; [reflexivity|]]].
  - intros j Hj Hd Hb. apply (has_clear _ _ _ Hwu Hd) in Hb as [_ Hb].
    destruct (Hbits j Hb Hj Hd) as (_ & ? & ?). split; [done|]. split; [done|by left].
  - intros j Hj Hd Hk%Hkeep. apply (has_clear _ _ _ Hwu Hd). split; [set_solver|].
    unfold w. rewrite <- Hd. apply (present_bits h s a R).
    rewrite dom_union_L, !elem_of_difference, !elem_of_union, !elem_of_dom in Hk. tauto.
  - split; [|split; [|cbn; set_solver]]; cbn [fst snd items_after].
    + split; [done|]. eexists. split; [exact R'|]. split; [done|]. cbn. split.
      * apply map_eq. intros j. destruct (decide (j = i)) as [->|Hne'].
        -- by rewrite !lookup_union, lookup_delete_eq, lookup_insert_eq, Hp, union_Some_l, (left_id_L None _).
        -- by rewrite !lookup_union, lookup_delete_ne, lookup_insert_ne by done.
      * by rewrite dom_insert_L.
    + intros j. rewrite <- Hpriv. split; [by intros [? _]|]. intros Hj. split; [done|]. intros [Hd Hb].
      apply (has_clear _ _ _ Hwu Hd) in Hb as [_ Hb].
      assert (0 <= j) as H0 by (pose proof (Z.div_lt_upper_bound j 64 0); lia).
      destruct (Hbits j Hb H0 Hd) as ((x & Hx) & _).
      apply Hpriv in Hj. by rewrite lookup_union, Hx, union_Some_l in Hj.
Qed.

Lemma finalize_wsafe h s items marked priv keep i t :
  slab_has h s items marked -> items !! i = Some t -> i ∈ marked ->
  (forall j, priv j <-> delete i items !! j = None) ->
  wsafe n keep priv s (finalize_op h i) (writer_post (Some t) (delete i items) (marked ∖ {[ i ]})).
Proof.
  intros (Hh & a & R & Hn & <- & <-) Ht Hin Hpriv.
  assert (present a !! i = None) as Hp.
  { apply not_elem_of_dom. intros Hd. destruct (rel_wf _ _ R) as (_ & Hdis & _).
    apply map_disjoint_dom in Hdis. set_solver. }
  assert (pending a !! i = Some t) as Hq by (by rewrite lookup_union, Hp, (left_id_L None _) in Ht).
  assert (0 <= i < n) as Hi by (rewrite <- Hn; apply (pending_bound _ _ R); eauto).
  pose proof (finalized_rel _ _ R i t Hq) as R'. pose proof (cap_bound _ _ R) as Hcap.
  pose proof (chain_bound _ _ _ _ (proj1 Hcap) (rel_free _ _ R)) as Hff.
  rewrite Hn in Hcap, Hff. cbn in Hff. unfold isize_MAX in Hcap.
  pose proof (words_index n i Hi) as Hw. pose proof (rel_allocated _ _ R) as Hal. cbn in Hal.
  assert (base.size (pending a) <> 0%nat) as Hne.
  { intros Hz%map_size_empty_inv. rewrite Hz in Hq. by rewrite lookup_empty in Hq. }
  pose proof (flag_in _ _ R i) as Hflag. cbn in Hflag.
  rewrite Hp, bool_decide_eq_false_2 in Hflag by (by intros []).
  unfold finalize_op, finalize_remove_prog. rewrite Hh, bitmap_at_Ret by (done || unfold isize_MAX; lia).
  unfold load, read_entry, write_entry. rewrite table_at_Ret by done. prog_simpl. split; [done|].
  rewrite Hflag by (rewrite Hn; lia). cbn [Z.b2z Z.eqb]. prog_simpl.
  assert (priv i) as Hpi by (apply Hpriv, lookup_delete_eq).
  split; [done|]. split; [done|]. exists (Item t).
  split; [apply (rel_items _ _ R); [lia|by right]|]. prog_simpl.
  rewrite !as_isize_small by (unfold isize_MAX; lia).
  do 2 (rewrite sub_isize_Ret by (unfold isize_MAX, isize_MIN; lia); prog_simpl).
  split; [done|]. split; [done|]. rewrite sub_u_Ret by lia. prog_simpl.
  split; [|split; [exact Hpriv|done]]; cbn [fst snd items_after].
  split; [done|]. eexists. split; [exact R'|]. split; [done|]. cbn. split.
  - apply map_eq. intros j. destruct (decide (j = i)) as [->|Hne'].
    + by rewrite !lookup_union, !lookup_delete_eq, Hp.
    + by rewrite lookup_delete_ne, !lookup_union, lookup_delete_ne.
  - by rewrite dom_delete_L.
Qed.
End ops.
