(* ===== verification/WeakReaderOps.v ===== *)
(** What the operations of the readers find, whatever the loads return. *)

From S2P Require Import Prelude CslabWord CslabStorage Cslab SlabSpec CslabProof CslabIter CslabIterProof.
From S2P Require Import Weak WeakCslab WeakSystem WeakInv WeakReader WeakWriterOps.

Section ops.
Context {T : Type} (n : Z) (Hn : 0 < n <= isize_MAX) (ord : orderings) (Hord : o_get ord = true).
Context (S : gset Z) (HS : forall i, i ∈ S -> 0 <= i < n).
Implicit Types (R : gmap Z T) (it : iter).

(** The range of an iterator. *)
Definition iter_range it : Prop := 0 <= it_head it <= it_tail it /\ it_tail it <= n.

(** [next] and [next_back] yield an item of the range, and skip none of [S]. *)
Definition next_post (front : bool) it R (y : yielded T) : Prop :=
  match y with
  | (None, it') =>
      it' = (if front then mkIter (it_tail it) (it_tail it) else mkIter (it_head it) (it_head it))
      /\ forall j, j ∈ S -> ~ (it_head it <= j < it_tail it)
  | (Some (i, t), it') =>
      it' = (if front then mkIter (i + 1) (it_tail it) else mkIter (it_head it) i)
      /\ R !! i = Some t /\ it_head it <= i < it_tail it
      /\ forall j, j ∈ S -> if front then ~ (it_head it <= j < i) else ~ (i < j < it_tail it)
  end.

(** What a reader gets to know that may read [R] and must find [S]. *)
Definition reader_post R (res : rresp T) : Prop :=
  match res with
  | RGot i (Some t) => R !! i = Some t
  | RContains i true => is_Some (R !! i)
  | RGot i None | RContains i false => i ∉ S
  | RIterNew it => it_head it = 0 /\ 0 <= it_tail it <= n /\ forall i, i ∈ S -> i < it_tail it
  | RNext front it y => iter_range it /\ next_post front it R y
  end.

Lemma get_unchecked_rsafe {A} i t R (k : T -> prog T A) Q :
  0 <= i < n -> R !! i = Some t -> rsafe n S R (k t) Q ->
  rsafe n S R (prog_bind k (get_unchecked_prog n i)) Q.
Proof using.
  intros Hi Ht Hk. unfold get_unchecked_prog, read_entry. rewrite table_at_Ret by done.
  cbn. by exists t.
Qed.

(** A load of the flag of [i], which decides whether the item may be read. *)
Lemma contains_rsafe {A} i R (k : bool -> prog T A) Q :
  0 <= i ->
  (forall R' (b : bool), R ⊆ R' -> (if b then i < n /\ is_Some (R' !! i) else i ∉ S) -> rsafe n S R' (k b) Q) ->
  rsafe n S R (prog_bind k (contains_key_prog ord n i)) Q.
Proof using Hn Hord HS.
  intros Hi Hk. unfold contains_key_prog. destruct (Z.geb_spec i n) as [Hge|Hlt].
  - cbn. apply Hk; [done|]. intros Hin%HS. lia.
  - rewrite bitmap_at_Ret by (lia || apply Hn). cbn. split; [done|].
    split; [by apply words_index|]. intros v R' Hv HR Hb Hin. apply Hk; [done|].
    rewrite flag_b2z by done. destruct (Z.testbit v (i mod 64)) eqn:Hbit; cbn.
    + by apply Hb.
    + intros Hi'. specialize (Hin i Hi' eq_refl). unfold has in Hin. congruence.
Qed.

Lemma get_rsafe i R : 0 <= i -> rsafe n S R (get_op ord n i) reader_post.
Proof using Hn Hord HS.
  intros Hi. unfold get_op, get_prog. apply rsafe_bind, contains_rsafe; [done|].
  intros R' [] HR Hb; [|done]. destruct Hb as [Hlt [t Ht]].
  by apply (get_unchecked_rsafe i t).
Qed.

Lemma contains_op_rsafe i R : 0 <= i -> rsafe n S R (contains_op ord n i) reader_post.
Proof using Hn Hord HS.
  intros Hi. unfold contains_op. apply contains_rsafe; [done|]. intros R' [] HR Hb; [by apply Hb|done].
Qed.

Lemma unchecked_rsafe i R : 0 <= i < n -> is_Some (R !! i) -> rsafe n S R (unchecked_op n i) reader_post.
Proof using. intros Hi [t Ht]. by apply (get_unchecked_rsafe i t). Qed.

Lemma iter_new_rsafe R : rsafe n S R (iter_new_op n) reader_post.
Proof using Hn.
  unfold iter_new_op, iter_new_prog. cbn. intros f Hf Hb.
  destruct (Z.leb_spec f n); [|lia]. cbn. split; [done|]. split; [done|]. auto.
Qed.

(** ** The scans *)

Lemma next_loop_rsafe fuel : forall it R,
  iter_range it -> it_head it < it_tail it ->
  (it_tail it - 1) / 64 - it_head it / 64 < Z.of_nat fuel ->
  rsafe n S R (next_loop_prog ord fuel n it) (next_post true it).
Proof using Hn Hord HS.
  induction fuel as [|fuel IH]; intros [h t] R [Hh Ht] Hlt Hfuel; cbn in *.
  { pose proof (Z.div_le_mono h (t - 1) 64). lia. }
  unfold isize_MAX in Hn. pose proof (mod64_bound h) as Hm.
  rewrite bitmap_at_Ret by (lia || unfold isize_MAX; lia). cbn. split; [done|].
  split; [apply words_index; lia|]. intros v R' Hv HR Hb Hin.
  destruct (scan_step_spec v (h mod 64) Hv Hm) as (Hs0 & Hs1 & Hs2).
  unfold usize_BITS. set (d := scan_step v (h mod 64)) in *.
  replace (if shr v (h mod 64) =? 0 then sub_u 64 64 (h mod 64) else _) with (Ret d)
    by (unfold d, scan_step; case_match; [by rewrite sub_u_Ret by lia|done]).
  rewrite sub_u_Ret by lia. cbn [prog_bind lift].
  assert (forall j, h <= j < h + d -> j ∉ S) as Hskip.
  { intros j Hj Hj'. destruct (same_word h (j - h)) as [Hd Hmod]; [lia|].
    replace (h + (j - h)) with j in Hd, Hmod by lia. specialize (Hin j Hj' Hd).
    unfold has in Hin. rewrite Hmod, Hs1 in Hin by lia. done. }
  destruct (Z.geb_spec d (t - h)) as [Hge|Hsmall]; cbn.
  - split; [done|]. intros j Hj Hr. apply (Hskip j); [lia|done].
  - rewrite add_u_Ret by lia. cbn [prog_bind lift].
    destruct (Z.eqb_spec (shr v (h mod 64)) 0) as [Hz|Hnz]; cbn [negb].
    + assert (d = 64 - h mod 64) as Hstep by (unfold d, scan_step; by rewrite Hz).
      assert ((h + d) / 64 = h / 64 + 1) as Hdiv.
      { pose proof (Z_div_mod_eq_full h 64). symmetry. apply (Z.div_unique _ _ _ 0); lia. }
      eapply rsafe_mono; [|apply (IH (mkIter (h + d) t) R'); [split; cbn; lia|cbn; lia|cbn; lia]].
      intros R'' [[[i x]|] it'] HR''; cbn.
      * intros (-> & Hx & Hi & Hj). repeat split; try (done || lia). intros j Hj' Hr.
        destruct (decide (j < h + d)); [by apply (Hskip j); [lia|]|by apply (Hj j Hj'); lia].
      * intros [-> Hj]. split; [done|]. intros j Hj' Hr.
        destruct (decide (j < h + d)); [by apply (Hskip j); [lia|]|by apply (Hj j Hj'); lia].
    + destruct (Hs2 Hnz) as [Hlt' Hbit]. rewrite add_u_Ret by lia. cbn [prog_bind lift].
      destruct (same_word h d) as [Hd Hmod]; [lia|].
      destruct (Hb (h + d)) as [_ [x Hx]]; [lia|done|unfold has; by rewrite Hmod|].
      eapply (get_unchecked_rsafe _ x); [lia|done|]. cbn. repeat split; try (done || lia).
      intros j Hj Hr. apply (Hskip j); [lia|done].
Qed.

Lemma next_back_loop_rsafe fuel : forall it R,
  iter_range it -> it_head it < it_tail it ->
  (it_tail it - 1) / 64 - it_head it / 64 < Z.of_nat fuel ->
  rsafe n S R (next_back_loop_prog ord fuel n it) (next_post false it).
Proof using Hn Hord HS.
  induction fuel as [|fuel IH]; intros [h t] R [Hh Ht] Hlt Hfuel; cbn in *.
  { pose proof (Z.div_le_mono h (t - 1) 64). lia. }
  unfold isize_MAX in Hn. pose proof (mod64_bound (t - 1)) as Hm.
  rewrite (sub_u_Ret 64 t 1) by lia. cbn [prog_bind lift].
  rewrite bitmap_at_Ret by (lia || unfold isize_MAX; lia). cbn. split; [done|].
  split; [apply words_index; lia|]. intros v R' Hv HR Hb Hin.
  destruct (scan_back_step_spec v ((t - 1) mod 64) Hm) as (Hs0 & Hs1 & Hs2).
  unfold usize_BITS. change (if shl v (64 - ((t - 1) mod 64 + 1)) =? 0 then (t - 1) mod 64 + 1 else _)
    with (scan_back_step v ((t - 1) mod 64)).
  set (d := scan_back_step v ((t - 1) mod 64)) in *.
  rewrite (sub_u_Ret 64 t h) by lia. cbn [prog_bind lift].
  assert (forall j, t - d <= j < t -> j ∉ S) as Hskip.
  { intros j Hj Hj'. destruct (decide (t - 1 - j <= (t - 1) mod 64)) as [Hle|]; [|lia].
    destruct (same_word_back (t - 1) (t - 1 - j)) as [Hd Hmod]; [lia|].
    replace (t - 1 - (t - 1 - j)) with j in Hd, Hmod by lia. specialize (Hin j Hj' Hd).
    unfold has in Hin. rewrite Hmod, Hs1 in Hin by lia. done. }
  destruct (Z.geb_spec d (t - h)) as [Hge|Hsmall]; cbn.
  - split; [done|]. intros j Hj Hr. apply (Hskip j); [lia|done].
  - rewrite (sub_u_Ret 64 t d) by lia. cbn [prog_bind lift].
    destruct (Z.eqb_spec (shl v (64 - ((t - 1) mod 64 + 1))) 0) as [Hz|Hnz]; cbn [negb].
    + assert (d = (t - 1) mod 64 + 1) as Hstep by (unfold d, scan_back_step; by rewrite Hz).
      assert ((t - d - 1) / 64 = (t - 1) / 64 - 1) as Hdiv.
      { pose proof (Z_div_mod_eq_full (t - 1) 64). symmetry. apply (Z.div_unique _ _ _ 63); lia. }
      eapply rsafe_mono; [|apply (IH (mkIter h (t - d)) R'); [split; cbn; lia|cbn; lia|cbn; lia]].
      intros R'' [[[i x]|] it'] HR''; cbn.
      * intros (-> & Hx & Hi & Hj). repeat split; try (done || lia). intros j Hj' Hr.
        destruct (decide (t - d <= j)); [by apply (Hskip j); [lia|]|by apply (Hj j Hj'); lia].
      * intros [-> Hj]. split; [done|]. intros j Hj' Hr.
        destruct (decide (t - d <= j)); [by apply (Hskip j); [lia|]|by apply (Hj j Hj'); lia].
    + destruct (Hs2 Hnz) as [Hlt' Hbit]. rewrite sub_u_Ret by lia. cbn [prog_bind lift].
      destruct (same_word_back (t - 1) d) as [Hd Hmod]; [lia|].
      replace (t - 1 - d) with (t - d - 1) in Hd, Hmod by lia.
      destruct (Hb (t - d - 1)) as [_ [x Hx]]; [lia|done|unfold has; by rewrite Hmod|].
      eapply (get_unchecked_rsafe _ x); [lia|done|]. cbn. repeat split; try (done || lia).
      intros j Hj Hr. apply (Hskip j); [lia|done].
Qed.

Lemma next_rsafe front it R : iter_range it -> rsafe n S R (next_op ord n front it) reader_post.
Proof using Hn Hord HS.
  intros Hit. pose proof Hit as [[Hh Hle] Ht]. unfold next_op. apply rsafe_bind.
  assert ((it_tail it - 1) / 64 - it_head it / 64 < Z.of_nat (scan_fuel n)) as Hfuel.
  { pose proof (Z.div_pos (it_head it) 64). unfold scan_fuel.
    destruct (decide (0 < it_tail it)).
    - pose proof (words_index n (it_tail it - 1)). lia.
    - pose proof (Z.div_lt_upper_bound (it_tail it - 1) 64 0). lia. }
  apply (rsafe_mono n _ _ _ (next_post front it)); [by intros R' y _ Hy|].
  destruct front; unfold iter_next_prog, iter_next_back_prog.
  - destruct (Z.geb_spec (it_head it) (it_tail it)); [|by apply next_loop_rsafe].
    destruct it as [h t]; cbn in *. split; [f_equal; lia|]. intros; lia.
  - destruct (Z.leb_spec (it_tail it) (it_head it)); [|by apply next_back_loop_rsafe].
    destruct it as [h t]; cbn in *. split; [f_equal; lia|]. intros; lia.
Qed.
End ops.
