(* ===== verification/WeakSysInv.v ===== *)
(** The invariant of the whole system. *)

From S2P Require Import Prelude CslabWord CslabStorage Cslab SlabSpec CslabProof CslabIter.
From S2P Require Import Weak WeakCslab WeakSystem WeakInv WeakWriter WeakReader WeakWriterOps WeakReaderOps.

Section inv.
Context {T : Type} (n : Z).
Implicit Types (y : sys T) (s : storage T) (items : gmap Z T) (marked : gset Z) (r : reader T).

Definition priv_of items (i : Z) : Prop := items !! i = None.
Definition keep_of items marked (i : Z) : Prop := i ∈ dom items ∖ marked.

(** A reader and what the invariant of the memory says of it. *)
Record reader_rel r (g : ghost T) : Prop := {
  rr_view : g_view g = r_view r;
  rr_must : g_must g = r_must r;
  rr_noted : g_noted g = r_noted r;
  rr_acked : g_acked g = r_acked r;
  rr_held : r_held r ⊆ dom (g_read g);
  rr_iter it : r_iter r = Some it -> iter_range n it;
  rr_prog p : r_prog r = Some p ->
    forall S, S ⊆ r_must r -> rsafe n S (g_read g) p (reader_post n S);
}.

Definition items_ok s items marked : Prop :=
  marked ⊆ dom items
  /\ forall i t, items !! i = Some t -> 0 <= i < n /\ table s !! Z.to_nat i = Some (Item t).

Record sinv y s (gs : list (ghost T)) : Prop := {
  si_mem : minv n (y_mem y) (y_view y) s (priv_of (y_items y)) (keep_of (y_items y) (y_marked y)) gs;
  si_readers : Forall2 reader_rel (y_readers y) gs;
  si_noted : Forall (fun r => r_noted r ⊆ y_marked y) (y_readers y);
  si_items : items_ok s (y_items y) (y_marked y);
  si_size : h_size (y_header y) = n;
  si_writer :
    match y_prog y with
    | None => slab_has n (y_header y) s (y_items y) (y_marked y)
    | Some (t, p) =>
        wsafe n (keep_of (y_items y) (y_marked y)) (priv_of (y_items y)) s p
          (writer_post n t (y_items y) (y_marked y))
    end;
}.

(** What the operations of the writer answer. *)
Definition writer_answer (t : option T) items marked (res : wresp T) : Prop :=
  match res with
  | WInserted (Ok i) => items !! i = None /\ 0 <= i < n
  | WInserted (Err _) => Z.of_nat (base.size items) = n
  | WMarked i => i ∈ marked
  | WFinalized t' => t = Some t'
  end.

(** ** Lemmas on the parts *)

Lemma slab_has_items h s items marked : slab_has n h s items marked -> items_ok s items marked.
Proof.
  intros (_ & a & R & Ha & <- & <-). split; [rewrite dom_union_L; set_solver|].
  intros i t Ht. assert (0 <= i < n) as Hi.
  { rewrite <- Ha. apply lookup_union_Some_raw in Ht as [?|[_ ?]];
      [apply (present_bound _ _ R)|apply (pending_bound _ _ R)]; eauto. }
  split; [done|]. apply (rel_items _ _ R); [lia|].
  apply lookup_union_Some_raw in Ht as [?|[_ ?]]; auto.
Qed.

(** A flag in the latest bitmap. *)
Lemma slab_has_flag h s items marked m V0 priv keep gs i msg :
  slab_has n h s items marked -> minv n m V0 s priv keep gs -> 0 <= i < n ->
  m_hist m (LWord (i / 64)) !! v_atomic V0 (LWord (i / 64)) = Some msg ->
  has (msg_val msg) i <-> i ∈ dom items ∖ marked.
Proof.
  intros (_ & a & R & Ha & <- & <-) I Hi Hmsg.
  destruct (mi_words _ _ _ _ _ _ _ I (i / 64)) as (x & Hx & Hb); [by apply words_index|].
  rewrite Hmsg in Hx. injection Hx as <-. apply list_lookup_total_correct in Hb.
  pose proof (rel_bits _ _ R i) as Hbit. rewrite Ha in Hbit. unfold bit in Hbit. cbn in Hbit.
  rewrite Hb in Hbit. unfold has. rewrite Hbit by (lia || by apply words_index).
  rewrite bool_decide_eq_true, dom_union_L, elem_of_difference, elem_of_union, !elem_of_dom.
  destruct (rel_wf _ _ R) as (_ & Hd & _). split; [|tauto]. intros Hp. split; [by left|].
  intros Hq. apply map_disjoint_dom in Hd. rewrite <- elem_of_dom in Hp, Hq. set_solver.
Qed.

(** A reader that has synchronized with the idle writer. *)
Lemma fresh_reader_ok h s items marked m V0 gs V R acked :
  slab_has n h s items marked -> minv n m V0 s (priv_of items) (keep_of items marked) gs ->
  vle V0 V -> vle V V0 -> acked ⊆ marked ->
  readable n m (priv_of items) acked V R ->
  reader_ok n m V0 (priv_of items) (keep_of items marked)
    (mkGhost V R (dom items ∖ marked) marked acked).
Proof.
  intros Hslab I H1 H2 Ha HR. pose proof (slab_has_items _ _ _ _ Hslab) as [Hm Hit].
  assert (forall l, v_atomic V l = v_atomic V0 l) as HV.
  { intros l. destruct H1 as [H1 _], H2 as [H2 _]. specialize (H1 l). specialize (H2 l). lia. }
  assert (forall i ts msg, 0 <= i -> (v_atomic V0 (LWord (i / 64)) <= ts)%nat ->
    m_hist m (LWord (i / 64)) !! ts = Some msg -> ts = v_atomic V0 (LWord (i / 64))) as Hlast.
  { intros i ts msg Hi Hts Hmsg. apply lookup_lt_Some in Hmsg.
    rewrite <- (mi_latest _ _ _ _ _ _ _ I) in Hmsg. lia. }
  split; cbn; [done| |done|..|done].
  - intros i ts msg Hi Hts Hmsg Hb. rewrite HV in Hts.
    destruct (mi_vis _ _ _ _ _ _ _ I i ts msg Hi Hts Hmsg Hb) as (? & ? & Hp & _).
    split; [done|]. split; [done|]. split; [done|]. pose proof (Hlast _ _ _ Hi Hts Hmsg) as ->.
    apply (slab_has_flag _ _ _ _ _ _ _ _ _ i msg Hslab I) in Hb; [set_solver| |done].
    split; [done|]. by eapply (mi_bits _ _ _ _ _ _ _ I); [exact Hmsg|..].
  - intros i Hi. split; [done|].
    assert (0 <= i < n) as Hin.
    { apply elem_of_difference in Hi as [[t Ht]%elem_of_dom _]. by eapply Hit. }
    destruct (mi_words _ _ _ _ _ _ _ I (i / 64)) as (x & Hx & _); [by apply words_index|].
    assert (has (msg_val x) i) as Hb by (by eapply (slab_has_flag _ _ _ _ _ _ _ _ _ i x Hslab I)).
    split; [done|]. split.
    + destruct (mi_bits _ _ _ _ _ _ _ I _ _ _ Hx) as [_ Hs].
      destruct (Hs i) as [_ Hsees]; [lia|done|done|].
      eapply sees_mono; [exact I| |exact H2|exact Hsees].
      etrans; [|apply H1]. by apply (mi_msg _ _ _ _ _ _ _ I _ _ _ Hx).
    + intros ts msg Hts Hmsg. rewrite HV in Hts.
      pose proof (Hlast i ts msg (proj1 Hin) Hts Hmsg) as ->. congruence.
  - intros i Hi Hp. apply Hm, elem_of_dom in Hi as [t Ht]. unfold priv_of in Hp. congruence.
Qed.

Lemma reader_post_mono (S : gset Z) (R R' : gmap Z T) (res : rresp T) : R ⊆ R' -> reader_post n S R res -> reader_post n S R' res.
Proof.
  intros HR. destruct res as [i [t|]|i []|it|front it [[[i t]|] it']]; cbn; try done.
  - intros Ht. by eapply lookup_weaken.
  - intros [t Ht]. exists t. by eapply lookup_weaken.
  - intros (? & ? & Ht & ?). do 2 (split; [done|]). split; [by eapply lookup_weaken|done].
Qed.

(** What a reader may read is what is in the slab. *)
Lemma read_items y s gs k g : sinv y s gs -> gs !! k = Some g -> g_read g ⊆ y_items y.
Proof.
  intros I Hk. pose proof (si_mem _ _ _ I) as M. apply map_subseteq_spec. intros i t Hi.
  destruct (ro_read _ _ _ _ _ _ (reader_k n _ _ _ _ _ _ _ _ M Hk) i t Hi) as (Hin & _ & Hc & Hp & _).
  destruct (y_items y !! i) as [t'|] eqn:Ht; [|by destruct Hp].
  destruct (si_items _ _ _ I) as [_ Hit]. apply Hit in Ht as [_ Ht].
  rewrite (mi_table _ _ _ _ _ _ _ M i Hin), Hc in Ht. congruence.
Qed.
End inv.
