(* ===== verification/WeakSteps.v ===== *)
(** Every event of the system returns and preserves the invariant. *)

From S2P Require Import Prelude CslabWord CslabStorage Cslab CslabIter.
From S2P Require Import Weak WeakCslab WeakSystem WeakInv WeakWriter WeakReader WeakWriterOps WeakReaderOps WeakSysInv.

Section steps.
Context {T : Type} (n : Z).
Implicit Types (y : sys T) (s : storage T) (items : gmap Z T) (marked : gset Z) (r : reader T).

Local Abbreviation ord := source_orderings.

(** The reader that an event is about. *)
Definition event_reader (e : event T) : option nat :=
  match e with
  | EGet k _ | EContains k _ | EUnchecked k _ | EIter k | ENext k _ | EReader k _ => Some k
  | _ => None
  end.

(** The item that the operation of the writer inserts or removes. *)
Definition event_item y (e : event T) : option T :=
  match y_prog y, e with
  | Some (t, _), _ => t
  | None, EInsert t => Some t
  | _, _ => None
  end.

Definition answer_ok y (e : event T) (a : resp T) : Prop :=
  match a with
  | AStep => True
  | AWriter res => writer_answer n (event_item y e) (y_items y) (y_marked y) res
  | AReader res => exists k r, event_reader e = Some k /\ y_readers y !! k = Some r
      /\ reader_post n (r_must r) (y_items y) res
  end.

Definition returns y (e : event T) (o : outcome (resp T * sys T)) : Prop :=
  exists a y', o = Ret (a, y') /\ (exists s' gs', sinv n y' s' gs') /\ answer_ok y e a.

(** ** Readers *)

Lemma sinv_readers y s gs l gs' :
  sinv n y s gs ->
  minv n (y_mem y) (y_view y) s (priv_of (y_items y)) (keep_of (y_items y) (y_marked y)) gs' ->
  Forall2 (reader_rel n) l gs' -> Forall (fun r => r_noted r ⊆ y_marked y) l ->
  sinv n (set_readers l y) s gs'.
Proof. intros [I1 I2 I3 I4 I5 I6] M HF HN. by split. Qed.

Lemma sinv_reader y s gs k r r' g g' :
  sinv n y s gs -> y_readers y !! k = Some r -> gs !! k = Some g ->
  reader_rel n r' g' -> r_noted r' ⊆ y_marked y ->
  minv n (y_mem y) (y_view y) s (priv_of (y_items y)) (keep_of (y_items y) (y_marked y)) (<[k := g']> gs) ->
  sinv n (set_readers (<[k := r']> (y_readers y)) y) s (<[k := g']> gs).
Proof.
  intros I Hr Hg Hrel Hnoted M. eapply sinv_readers; [exact I|exact M|..].
  - apply Forall2_insert; [apply I|done].
  - apply Forall_insert; [apply I|done].
Qed.

Lemma sinv_reader_same y s gs k r r' g :
  sinv n y s gs -> y_readers y !! k = Some r -> gs !! k = Some g ->
  reader_rel n r' g -> r_noted r' ⊆ y_marked y ->
  sinv n (set_readers (<[k := r']> (y_readers y)) y) s gs.
Proof.
  intros I Hr Hg Hrel Hnoted. rewrite <- (list_insert_id gs k g Hg).
  eapply sinv_reader; [done..|]. rewrite list_insert_id by done. apply I.
Qed.

Lemma sinv_ghost y s gs k r :
  sinv n y s gs -> y_readers y !! k = Some r ->
  exists g, gs !! k = Some g /\ reader_rel n r g /\ r_noted r ⊆ y_marked y
    /\ reader_ok n (y_mem y) (y_view y) (priv_of (y_items y)) (keep_of (y_items y) (y_marked y)) g.
Proof.
  intros I Hr. destruct (Forall2_lookup_l _ _ _ _ _ (si_readers _ _ _ _ I) Hr) as (g & Hg & Hrel).
  exists g. split; [done|]. split; [done|]. split.
  - pose proof (si_noted _ _ _ _ I) as HN. rewrite Forall_lookup in HN. by eapply HN.
  - eapply reader_k; [apply I|exact Hg].
Qed.

(** A result of a reader's operation. *)
Lemma found_read (S : gset Z) (R : gmap Z T) res : reader_post n S R res -> found res ⊆ dom R.
Proof.
  destruct res as [i [t|]|i []|it|front it [[[i t]|] it']]; cbn;
    try (intros _; apply empty_subseteq); rewrite singleton_subseteq_l, elem_of_dom.
  - by eexists.
  - done.
  - intros (_ & _ & Ht & _). by eexists.
Qed.

Lemma finish_reader_rel r g res :
  reader_rel n (rset_prog None r) g -> reader_post n (r_must r) (g_read g) res ->
  reader_rel n (finish_reader res r) g.
Proof.
  intros [H1 H2 H3 H4 H5 H6 _] Hres. split; try done; cbn in *.
  - apply union_subseteq. split; [done|].
    by eapply found_read.
  - intros it. destruct res as [i o|i b|it0|front it0 [o it']]; cbn in *; [apply H6|apply H6|..]; intros [= <-].
    + destruct Hres as (Hh & Ht & _). unfold iter_range. lia.
    + destruct Hres as ([[? ?] ?] & Hres).
      assert (exists h t, it' = mkIter h t /\ it_head it0 <= h <= t /\ t <= it_tail it0) as (h & t & -> & ?).
      { destruct o as [[i t]|]; [destruct Hres as (-> & _ & ? & _)|destruct Hres as [-> _]];
          destruct front; eexists _, _; (split; [reflexivity|lia]). }
      unfold iter_range; cbn; lia.
Qed.

Lemma run_reader_inv y e s gs k r g p y0 r0 :
  (forall r', reader_rel n r' g -> r_noted r' = r_noted r ->
     sinv n (set_readers (<[k := r']> (y_readers y)) y) s gs) ->
  gs !! k = Some g -> reader_rel n (rset_prog None r) g ->
  (forall S, S ⊆ r_must r -> rsafe n S (g_read g) p (reader_post n S)) ->
  event_reader e = Some k -> y_readers y0 !! k = Some r0 -> r_must r0 = r_must r -> y_items y0 = y_items y ->
  returns y0 e (run_reader k p r y).
Proof.
  intros I Hg Hrel Hp He Hr0 Hmust Hitems. pose proof (Hp (r_must r) (reflexivity _)) as Hpm.
  assert (g_read g ⊆ y_items y) as HR.
  { by apply (read_items n _ _ _ k g (I _ Hrel eq_refl)). }
  assert ((forall o, p <> PDone o) -> returns y0 e
    (Ret (AStep, set_readers (<[k := rset_prog (Some p) r]> (y_readers y)) y))) as Hrun.
  { intros _. eexists _, _. split; [reflexivity|]. split; [|done]. exists s, gs. apply I; [|done].
    destruct Hrel as [H1 H2 H3 H4 H5 H6 _]. split; try done. cbn. by intros p' [= <-]. }
  destruct p as [[res| | |]|l acq kont|l rel v kont|i kont|i x kont]; try done; [|by apply Hrun..].
  eexists _, _. split; [reflexivity|]. split.
  - exists s, gs. apply I; [|done]. by apply finish_reader_rel.
  - exists k, r0. split; [done|]. split; [done|]. rewrite Hmust, Hitems.
    by eapply reader_post_mono.
Qed.

(** An operation of an idle reader begins. *)
Lemma start_reader y e s gs k r p :
  sinv n y s gs -> idle_reader y k = Some r -> event_reader e = Some k ->
  (forall g S, gs !! k = Some g -> reader_rel n r g -> (forall i, i ∈ S -> 0 <= i < n) ->
     (forall i, i ∈ r_held r -> 0 <= i < n /\ is_Some (g_read g !! i)) ->
     rsafe n S (g_read g) p (reader_post n S)) ->
  returns y e (run_reader k p r y).
Proof.
  intros I Hidle He Hp. unfold idle_reader in Hidle.
  destruct (y_readers y !! k) as [r1|] eqn:Hr; [|done]. cbn in Hidle.
  destruct (r_prog r1) eqn:Hprog; [done|]. injection Hidle as ->.
  destruct (sinv_ghost y s gs k r I Hr) as (g & Hg & Hrel & Hnoted & Hok).
  eapply (run_reader_inv y e s gs k r g); try done.
  - intros r' Hrel' Hn'. eapply sinv_reader_same; [done..|by rewrite Hn'].
  - destruct Hrel as [H1 H2 H3 H4 H5 H6 H7]. by split.
  - intros S HS. apply Hp; [done|done|..].
    + intros i Hi%HS. rewrite <- (rr_must _ _ _ Hrel) in Hi.
      by destruct (ro_must _ _ _ _ _ _ Hok i Hi) as [_ [? _]].
    + intros i Hi%(rr_held _ _ _ Hrel). apply elem_of_dom in Hi as [t Ht].
      split; [by apply (ro_read _ _ _ _ _ _ Hok i t)|eauto].
Qed.
(** ** The writer *)

(** All of the invariant but the program of the writer. *)
Record sinv_parts y s gs : Prop := {
  sp_mem : minv n (y_mem y) (y_view y) s (priv_of (y_items y)) (keep_of (y_items y) (y_marked y)) gs;
  sp_readers : Forall2 (reader_rel n) (y_readers y) gs;
  sp_noted : Forall (fun r => r_noted r ⊆ y_marked y) (y_readers y);
  sp_items : items_ok n s (y_items y) (y_marked y);
  sp_size : h_size (y_header y) = n;
}.

Lemma finish_writer_inv y s gs priv t res :
  minv n (y_mem y) (y_view y) s priv (keep_of (y_items y) (y_marked y)) gs ->
  Forall2 (reader_rel n) (y_readers y) gs ->
  Forall (fun r => r_noted r ⊆ y_marked y) (y_readers y) ->
  writer_post n t (y_items y) (y_marked y) priv s res ->
  sinv n (finish_writer res t y) s gs /\ writer_answer n t (y_items y) (y_marked y) res.2.
Proof.
  intros M HF HN (Hslab & Hpriv & Hans). split; [|exact Hans].
  assert (finish_writer res t y = mkSys (y_mem y) (y_view y) res.1 None
    (items_after t (y_items y) res.2) (y_marked y) (y_readers y)) as ->.
  { by destruct res as [h' [[i|]|i|t']], t. }
  pose proof (slab_has_items n _ _ _ _ Hslab) as Hitems. split; cbn; [|done|done|done|apply Hslab|done].
  apply (minv_keep n _ _ _ _ (keep_of (y_items y) (y_marked y))).
  - intros i. unfold keep_of, items_after. destruct (res.2) as [[j|]|j|t'], t; try done.
    rewrite dom_insert_L. set_solver.
  - by apply (minv_iff n _ _ _ priv).
Qed.

Lemma run_writer_inv y s gs t p :
  sinv_parts y s gs ->
  wsafe n (keep_of (y_items y) (y_marked y)) (priv_of (y_items y)) s p
    (writer_post n t (y_items y) (y_marked y)) ->
  exists a y', run_writer t p y = Ret (a, y') /\ (exists s' gs', sinv n y' s' gs')
    /\ (a = AStep \/ exists res, a = AWriter res.2 /\ p = PDone (Ret res)
          /\ writer_answer n t (y_items y) (y_marked y) res.2).
Proof.
  intros [M HF HN HI HS] Hp.
  assert (exists s' gs', sinv n (set_prog (Some (t, p)) y) s' gs') as Hrun by (exists s, gs; by split).
  destruct p as [[res| | |]|l acq kont|l rel v kont|i kont|i x kont]; try done;
    [|eexists _, _; split; [reflexivity|split; [exact Hrun|by left]]..].
  destruct (finish_writer_inv y s gs _ t res M HF HN Hp) as [I Hans].
  eexists _, _. split; [reflexivity|]. split; [by exists s, gs|]. right. by exists res.
Qed.

Context (Hn : 0 < n <= isize_MAX).

(** The removals start with a load of the bitmap. *)
Lemma mark_first h i o : 0 <= i < n -> h_size h = n -> mark_op ord (T:=T) h i <> PDone o.
Proof using Hn.
  intros Hi Hh. unfold mark_op, mark_removed_prog. rewrite Hh, bitmap_at_Ret by (done || apply Hn). done.
Qed.

Lemma finalize_first h i o : 0 <= i < n -> h_size h = n -> finalize_op (T:=T) h i <> PDone o.
Proof using Hn.
  intros Hi Hh. unfold finalize_op, finalize_remove_prog. rewrite Hh, bitmap_at_Ret by (done || apply Hn). done.
Qed.

Lemma sinv_idle y s gs :
  sinv n y s gs -> writer_idle y = true ->
  sinv_parts y s gs /\ slab_has n (y_header y) s (y_items y) (y_marked y) /\ y_prog y = None.
Proof.
  intros [I1 I2 I3 I4 I5 I6]. unfold writer_idle. destruct (y_prog y); [done|]. intros _.
  split; [by split|done].
Qed.

Lemma insert_returns y s gs t :
  sinv n y s gs -> writer_idle y = true ->
  returns y (EInsert t) (run_writer (Some t) (insert_op ord (y_header y) t) y).
Proof.
  intros I Hidle. destruct (sinv_idle y s gs I Hidle) as (P & Hslab & Hp).
  destruct (run_writer_inv y s gs (Some t) (insert_op ord (y_header y) t) P) as (a & y' & Hr & I' & Ha).
  { by apply insert_wsafe. }
  exists a, y'. split; [done|]. split; [done|].
  destruct Ha as [->|(res & -> & _ & Ha)]; [done|]. cbn. unfold event_item. by rewrite Hp.
Qed.

(** The readers forget what they know of a slot. *)
Lemma readers_fmap l gs (f : reader T -> reader T) (fg : ghost T -> ghost T) :
  Forall2 (reader_rel n) l gs -> (forall r g, reader_rel n r g -> reader_rel n (f r) (fg g)) ->
  Forall2 (reader_rel n) (f <$> l) (fg <$> gs).
Proof. intros HF Hf. apply Forall2_fmap. by eapply Forall2_impl. Qed.

Definition gforget_must (i : Z) (g : ghost T) : ghost T :=
  mkGhost (g_view g) (g_read g) (g_must g ∖ {[ i ]}) (g_noted g) (g_acked g).
Definition gforget (i : Z) (g : ghost T) : ghost T :=
  mkGhost (g_view g) (g_read g) (g_must g ∖ {[ i ]}) (g_noted g ∖ {[ i ]}) (g_acked g ∖ {[ i ]}).

Lemma mark_returns y s gs i :
  sinv n y s gs -> writer_idle y = true -> is_Some (y_items y !! i) -> i ∉ y_marked y ->
  returns y (EMark i) (run_writer None (mark_op ord (y_header y) i)
    (set_readers (forget_must i <$> y_readers y) (set_items (y_items y) ({[ i ]} ∪ y_marked y) y))).
Proof using Hn.
  intros I Hidle Hi Him. destruct (sinv_idle y s gs I Hidle) as ([M HF HN HI HS] & Hslab & Hp).
  set (y1 := set_readers _ _).
  assert (sinv_parts y1 s (gforget_must i <$> gs)) as P.
  { split; cbn; [..|done].
    - eapply minv_forget_must; [exact M|]. unfold keep_of. set_solver.
    - apply readers_fmap; [done|]. intros r g [H1 H2 H3 H4 H5 H6 H7]. split; cbn; try done.
      + by rewrite H2.
      + intros p Hrp S HS'. apply H7; [done|set_solver].
    - apply Forall_fmap. eapply Forall_impl; [exact HN|]. cbn. set_solver.
    - destruct HI as [HI1 HI2]. split; [|done]. apply union_subseteq. split; [|done].
      by apply singleton_subseteq_l, elem_of_dom. }
  destruct (run_writer_inv y1 s _ None (mark_op ord (y_header y) i) P) as (a & y' & Hr & I' & Ha).
  { by apply mark_wsafe. }
  exists a, y'. split; [done|]. split; [done|].
  destruct Ha as [->|(res & _ & Hpd & _)]; [done|]. destruct Hi as [t Ht].
  exfalso. eapply mark_first; [| |exact Hpd]; [by eapply HI|done].
Qed.

Lemma finalize_returns y s gs i :
  sinv n y s gs -> writer_idle y = true -> i ∈ y_marked y -> Forall (fun r => i ∈ r_acked r) (y_readers y) ->
  returns y (EFinalize i) (run_writer (y_items y !! i) (finalize_op (y_header y) i)
    (set_readers (forget i <$> y_readers y) (set_items (delete i (y_items y)) (y_marked y ∖ {[ i ]}) y))).
Proof using Hn.
  intros I Hidle Him Hack. destruct (sinv_idle y s gs I Hidle) as ([M HF HN HI HS] & Hslab & Hp).
  destruct HI as [HI1 HI2]. pose proof (HI1 i Him) as [t Ht]%elem_of_dom. rewrite Ht.
  destruct (HI2 i t Ht) as [Hi _].
  set (y1 := set_readers _ _).
  assert (sinv_parts y1 s (gforget i <$> gs)) as P.
  { split; cbn; [..|done].
    - apply (minv_keep n _ _ _ _ (keep_of (y_items y) (y_marked y))).
      { unfold keep_of. intros j. rewrite dom_delete_L. set_solver. }
      eapply (minv_iff n _ _ _ (fun j => j = i \/ priv_of (y_items y) j)).
      { intros j. unfold priv_of. rewrite lookup_delete_None. naive_solver. }
      apply (minv_private n _ _ _ _ _ gs); [done|..].
      + destruct (mi_words _ _ _ _ _ _ _ M (i / 64)) as (msg & Hmsg & _); [by apply words_index|].
        exists msg. split; [done|]. intros Hb.
        apply (slab_has_flag n _ _ _ _ _ _ _ _ _ i msg Hslab M) in Hb; [set_solver|done..].
      + apply Forall2_fmap_r, Forall_Forall2_diag, Forall_lookup. intros k g Hg.
        destruct (Forall2_lookup_r _ _ _ _ _ HF Hg) as (r & Hr & Hrel).
        rewrite Forall_lookup in Hack. specialize (Hack k r Hr).
        rewrite (rr_acked _ _ _ Hrel).
        split; [done|]. split; [cbn; set_solver|]. do 2 (split; [done|]). split; [cbn; set_solver|].
        split; [done|]. cbn. by rewrite (rr_acked _ _ _ Hrel).
    - apply readers_fmap; [done|]. intros r g [H1 H2 H3 H4 H5 H6 H7].
      split; cbn; try done; [by rewrite H2|by rewrite H3|by rewrite H4|].
      intros p Hrp S HS'. apply H7; [done|set_solver].
    - apply Forall_fmap. eapply Forall_impl; [exact HN|]. intros r Hr. cbn. set_solver.
    - split; [rewrite dom_delete_L; set_solver|]. intros j t' [_ Hj]%lookup_delete_Some. by apply HI2. }
  destruct (run_writer_inv y1 s _ (Some t) (finalize_op (y_header y) i) P) as (a & y' & Hr & I' & Ha).
  { by apply finalize_wsafe. }
  exists a, y'. split; [done|]. split; [done|].
  destruct Ha as [->|(res & _ & Hpd & _)]; [done|].
  exfalso. by eapply finalize_first; [| |exact Hpd].
Qed.
End steps.
