(* ===== verification/WeakExec.v ===== *)
(** The remaining events, and the induction on the history of a client. *)

From S2P Require Import Prelude CslabWord CslabStorage Cslab CslabIter SlabSpec CslabProof.
From S2P Require Import Weak WeakCslab WeakSystem WeakInv WeakWriter WeakReader WeakWriterOps WeakReaderOps WeakSysInv WeakSteps.

Section exec.
Context {T : Type} (n : Z).
Implicit Types (y : sys T) (s : storage T) (r : reader T).

Local Abbreviation ord := source_orderings.

(** ** Single accesses *)

Lemma writer_returns y s gs choice o :
  sinv n y s gs -> exec ord y (EWriter choice) = Some o -> returns n y (EWriter choice) o.
Proof.
  intros I. cbn. destruct (y_prog y) as [[t p]|] eqn:Hp; [|done]. cbn.
  destruct (prog_step (y_mem y) (y_view y) p choice) as [o'|] eqn:Hstep; [|done]. cbn. intros [= <-].
  destruct I as [M HF HN HI HS HW]. rewrite Hp in HW. destruct HI as [HI1 HI2].
  destruct (wsafe_step n _ _ _ _ _ _ _ _ _ _ M HW Hstep) as (m' & V' & p' & s' & -> & Htab & Hcase). cbn.
  set (y1 := set_view V' (set_mem m' y)).
  assert (items_ok n s' (y_items y) (y_marked y)) as HI.
  { split; [done|]. intros i t' Hi. destruct (HI2 i t' Hi) as [Hin ?]. split; [done|].
    rewrite Htab; [done|lia|]. unfold priv_of. congruence. }
  destruct Hcase as [[M' HW']|(res & priv' & -> & M' & HQ)].
  - assert (sinv_parts n y1 s' gs) as P by (by split).
    destruct (run_writer_inv n y1 s' gs t p' P HW') as (a & y' & Hr & I' & Ha).
    exists a, y'. split; [done|]. split; [done|].
    destruct Ha as [->|(res & -> & _ & Ha)]; [done|]. cbn. unfold event_item. by rewrite Hp.
  - destruct (finish_writer_inv n y1 s' gs priv' t res M' HF HN HQ) as [I' Ha].
    eexists _, _. split; [reflexivity|]. split; [by exists s', gs|]. cbn. unfold event_item. by rewrite Hp.
Qed.

Lemma reader_returns y s gs k choice o :
  sinv n y s gs -> exec ord y (EReader k choice) = Some o -> returns n y (EReader k choice) o.
Proof.
  intros I. cbn. destruct (y_readers y !! k) as [r|] eqn:Hr; [|done]. cbn.
  destruct (r_prog r) as [p|] eqn:Hp; [|done]. cbn.
  destruct (prog_step (y_mem y) (r_view r) p choice) as [o'|] eqn:Hstep; [|done]. cbn. intros [= <-].
  destruct (sinv_ghost n y s gs k r I Hr) as (g & Hg & Hrel & Hnoted & _).
  destruct Hrel as [H1 H2 H3 H4 H5 H6 H7]. rewrite <- H1 in Hstep.
  destruct (rsafe_step n _ _ _ _ _ _ _ _ (si_mem _ _ _ _ I) Hg p (reader_post n) choice o')
    as (m' & V' & p' & R' & -> & M' & HR & Hp'); [by rewrite H2; apply H7|done|]. cbn.
  set (g' := mkGhost V' R' (g_must g) (g_noted g) (g_acked g)).
  assert (reader_rel n (rset_prog None (rset_view V' r)) g') as Hrel'.
  { split; cbn; try done. etrans; [exact H5|]. by apply subseteq_dom. }
  destruct I as [M HF HN HI HS HW].
  eapply (run_reader_inv n _ _ s (<[k := g']> gs) k _ g' _ y r); try done.
  - intros r' Hr' Hn'. split; cbn; try done.
    + by apply Forall2_insert.
    + apply Forall_insert; [done|]. by rewrite Hn'.
  - apply list_lookup_insert_eq. by eapply lookup_lt_Some.
  - intros S HS'. apply Hp'. by rewrite H2.
Qed.

(** ** Synchronizations *)

Lemma idle_lookup y k r : idle_reader y k = Some r -> y_readers y !! k = Some r /\ r_prog r = None.
Proof.
  unfold idle_reader. destruct (y_readers y !! k) as [r1|]; [|done]. cbn.
  by destruct (r_prog r1) eqn:?; [|intros [= ->]].
Qed.

Lemma returns_step y y' e s gs : sinv n y' s gs -> returns n y e (Ret (AStep, y')).
Proof. intros I. exists AStep, y'. split; [done|]. split; [by exists s, gs|done]. Qed.

(** The writer sees what an idle reader has seen. *)
Lemma sinv_writer_sees y s gs k r :
  sinv n y s gs -> y_readers y !! k = Some r ->
  sinv n (set_view (vjoin (y_view y) (r_view r)) y) s gs
  /\ v_reads (r_view r) ⊆ v_reads (vjoin (y_view y) (r_view r)).
Proof.
  intros I Hr. destruct (sinv_ghost n y s gs k r I Hr) as (g & Hg & Hrel & _ & Hok).
  split; [|cbn; set_solver]. pose proof (ro_le _ _ _ _ _ _ Hok) as Hle. rewrite (rr_view _ _ _ Hrel) in Hle.
  destruct I as [M HF HN HI HS HW]. split; try done. eapply minv_view; [exact M|..].
  - intros l. by apply vjoin_le_atomic.
  - intros i. by apply vjoin_le_entry.
  - cbn. set_solver.
Qed.

Lemma new_reader_returns y s gs :
  sinv n y s gs -> writer_idle y = true ->
  returns n y ENewReader (Ret (AStep, set_readers (y_readers y ++
    [mkReader (y_view y) ∅ None None (dom (y_items y) ∖ y_marked y) (y_marked y) (y_marked y)]) y)).
Proof.
  intros I Hidle. destruct (sinv_idle n y s gs I Hidle) as ([M HF HN HI HS] & Hslab & _).
  set (g := mkGhost (T:=T) (y_view y) ∅ (dom (y_items y) ∖ y_marked y) (y_marked y) (y_marked y)).
  apply (returns_step _ _ _ s (gs ++ [g])). apply (sinv_readers n y s gs); [done|..].
  - apply minv_add_reader; [done|]. by eapply fresh_reader_ok.
  - apply Forall2_app; [done|]. by constructor; [split|].
  - apply Forall_app. split; [done|]. by constructor.
Qed.

(** A reader without references, as the invariant has it. *)
Definition blank y (c : reader T) : Prop :=
  (exists g, reader_rel n c g
     /\ reader_ok n (y_mem y) (y_view y) (priv_of (y_items y)) (keep_of (y_items y) (y_marked y)) g)
  /\ r_noted c ⊆ y_marked y /\ r_held c = ∅ /\ r_acked c = r_noted c /\ r_prog c = None.

Lemma clone_blank y s gs k r : sinv n y s gs -> y_readers y !! k = Some r -> blank y (clone_reader r).
Proof.
  intros I Hr. destruct (sinv_ghost n y s gs k r I Hr) as (g & Hg & Hrel & Hnoted & [O1 O2 O3 O4 O5 O6]).
  destruct Hrel as [H1 H2 H3 H4 _ _ _]. rewrite ?H1, ?H2, ?H3, ?H4 in *.
  split; [|done]. exists (mkGhost (T:=T) (r_view r) ∅ (r_must r) (r_noted r) (r_noted r)). by split; split.
Qed.

Lemma merge_blank y s gs k r c : sinv n y s gs -> y_readers y !! k = Some r -> blank y c -> blank y (merge_reader c r).
Proof.
  intros I Hr ((g & Hrel & [O1 O2 O3 O4 O5 O6]) & Hnoted & _).
  destruct (sinv_ghost n y s gs k r I Hr) as (g' & _ & Hrel' & Hnoted' & [P1 P2 P3 P4 P5 P6]).
  destruct Hrel as [H1 H2 H3 _ _ _ _], Hrel' as [G1 G2 G3 _ _ _ _].
  rewrite ?H1, ?H2, ?H3, ?G1, ?G2, ?G3 in *. assert (vle (vjoin (r_view c) (r_view r)) (y_view y)) as HV by by apply vle_join.
  split; [|split; [cbn; set_solver|done]].
  exists (mkGhost (T:=T) (vjoin (r_view c) (r_view r)) ∅ (r_must c ∪ r_must r) (r_noted c ∪ r_noted r) (r_noted c ∪ r_noted r)).
  split; [by split|]. split; cbn; [done| |done|..|done].
  - intros i ts msg Hi Hts Hm Hb.
    destruct (O2 i ts msg) as (? & ? & ? & ?); [done|cbn in Hts; lia|done..|].
    destruct (P2 i ts msg) as (? & ? & ? & ?); [done|cbn in Hts; lia|done..|]. set_solver.
  - intros i [Hi|Hi]%elem_of_union.
    + destruct (O4 i Hi) as [? Hf]. split; [done|]. eapply found_mono; [apply I|apply vle_join_l|done|done].
    + destruct (P4 i Hi) as [? Hf]. split; [done|]. eapply found_mono; [apply I|apply vle_join_r|done|done].
  - intros i [?|?]%elem_of_union; auto.
Qed.

Lemma blank_returns y s gs e c : sinv n y s gs -> blank y c ->
  returns n y e (Ret (AStep, set_readers (y_readers y ++ [c]) y)).
Proof.
  intros I ((g & Hrel & Hok) & Hnoted & _).
  apply (returns_step _ _ _ s (gs ++ [g])). apply (sinv_readers n y s gs); [done|..].
  - apply minv_add_reader; [apply I|done].
  - apply Forall2_app; [apply I|]. by constructor.
  - apply Forall_app. split; [apply I|]. by constructor.
Qed.

Lemma clone_returns y s gs k r ks rs :
  sinv n y s gs -> idle_reader y k = Some r -> mapM (idle_reader y) ks = Some rs ->
  returns n y (EClone k ks) (Ret (AStep, set_readers (y_readers y ++ [foldl merge_reader (clone_reader r) rs]) y)).
Proof.
  intros I [Hr _]%idle_lookup Hrs%mapM_Some. apply (blank_returns y s gs); [done|].
  pose proof (clone_blank y s gs k r I Hr) as Hc. revert Hc. generalize (clone_reader r) as c.
  induction Hrs as [|k' r' ks rs [Hr' _]%idle_lookup _ IH]; [done|]. intros c Hc. cbn. apply IH.
  by eapply merge_blank.
Qed.

Lemma take_returns y s gs k r i :
  sinv n y s gs -> idle_reader y k = Some r -> i ∈ r_held r ->
  returns n y (ETake k i) (Ret (AStep,
    set_readers (<[k := rset_held (r_held r ∖ {[ i ]}) (r_iter r) r]> (y_readers y) ++
      [mkReader (r_view r) {[ i ]} None None (r_must r) (r_noted r) (r_noted r ∖ {[ i ]})]) y)).
Proof.
  intros I [Hr Hp]%idle_lookup Hi.
  destruct (sinv_ghost n y s gs k r I Hr) as (g & Hg & Hrel & Hnoted & [O1 O2 O3 O4 O5 O6]).
  destruct Hrel as [H1 H2 H3 H4 H5 H6 H7]. destruct (elem_of_dom (g_read g) i) as [Hd _].
  destruct (Hd (H5 i Hi)) as [t Ht]. rewrite ?H1, ?H2, ?H3, ?H4 in *.
  set (g' := mkGhost (r_view r) {[ i := t ]} (r_must r) (r_noted r) (r_noted r ∖ {[ i ]})).
  apply (returns_step _ _ _ s (gs ++ [g'])). apply (sinv_readers n y s gs); [done|..].
  - apply minv_add_reader; [apply I|]. split; cbn; try done; [|set_solver].
    intros j t' [<- <-]%lookup_singleton_Some. destruct (O3 i t Ht) as (? & ? & ? & ? & ? & ?).
    do 4 (split; [done|]). split; [set_solver|done].
  - apply Forall2_app.
    + rewrite <- (list_insert_id gs k g Hg). apply Forall2_insert; [apply I|]. split; cbn; try done. set_solver.
    + constructor; [|done]. split; cbn; try done. by rewrite dom_singleton_L.
  - apply Forall_app. split; [|by constructor]. apply Forall_insert; [apply I|done].
Qed.

Lemma update_returns y s gs k r :
  sinv n y s gs -> writer_idle y = true -> idle_reader y k = Some r ->
  returns n y (EUpdate k) (Ret (AStep, set_readers (<[k :=
    rset_known (dom (y_items y) ∖ y_marked y) (y_marked y) (r_acked r)
      (rset_view (vjoin (r_view r) (y_view y)) r)]> (y_readers y)) y)).
Proof.
  intros I Hidle [Hr Hp]%idle_lookup. destruct (sinv_idle n y s gs I Hidle) as ([M _ _ _ _] & Hslab & _).
  destruct (sinv_ghost n y s gs k r I Hr) as (g & Hg & Hrel & Hnoted & Hok).
  destruct Hrel as [H1 H2 H3 H4 H5 H6 H7]. destruct Hok as [O1 O2 O3 O4 O5 O6].
  set (V := vjoin (r_view r) (y_view y)).
  assert (vle V (y_view y)) as HV by (apply vle_join; [by rewrite <- H1|done]).
  eapply returns_step, (sinv_reader n y s gs k r _ g
    (mkGhost V (g_read g) (dom (y_items y) ∖ y_marked y) (y_marked y) (r_acked r))); try done.
  - split; cbn; try done. by rewrite Hp.
  - eapply minv_reader; [exact M|exact Hg|..].
    + eapply fresh_reader_ok; [done|exact M|apply vle_join_r|done|..].
      * etrans; [|exact Hnoted]. by rewrite <- H3, <- H4.
      * rewrite <- H4. eapply readable_mono; [exact M| |exact HV|exact O3]. rewrite H1. apply vle_join_l.
    + cbn. rewrite H1. set_solver.
    + cbn. intros i Hi. left. by rewrite H4.
Qed.

Lemma callback_returns y s gs k r :
  sinv n y s gs -> idle_reader y k = Some r ->
  returns n y (ECallback k) (Ret (AStep, set_view (vjoin (y_view y) (r_view r)) (set_readers (<[k :=
    rset_known (r_must r) (r_noted r) (r_acked r ∪ (r_noted r ∖ r_held r)) r]> (y_readers y)) y))).
Proof.
  intros I0 [Hr Hp]%idle_lookup. destruct (sinv_writer_sees y s gs k r I0 Hr) as [I Hreads].
  set (y1 := set_view _ y) in *.
  destruct (sinv_ghost n y1 s gs k r I Hr) as (g & Hg & Hrel & Hnoted & [O1 O2 O3 O4 O5 O6]).
  destruct Hrel as [H1 H2 H3 H4 H5 H6 H7].
  set (R := base.filter (fun p => p.1 ∈ r_held r) (g_read g)).
  set (g' := mkGhost (g_view g) R (g_must g) (g_noted g) (g_acked g ∪ (g_noted g ∖ r_held r))).
  eapply returns_step, (sinv_reader n y1 s gs k r _ g g'); try done.
  - split; cbn; try done.
    + by rewrite H3, H4.
    + intros i Hi. pose proof (H5 i Hi) as [t Ht]%elem_of_dom. apply elem_of_dom. exists t.
      by apply map_lookup_filter_Some.
    + by rewrite Hp.
  - eapply minv_reader; [apply I|exact Hg|..].
    + split; cbn; try done; [|set_solver]. intros i t [Ht Hi]%map_lookup_filter_Some.
      destruct (O3 i t Ht) as (? & ? & ? & ? & ? & ?). do 4 (split; [done|]). split; [|done].
      cbn in Hi. set_solver.
    + done.
    + intros i _. right. by rewrite H1.
Qed.

Lemma drop_returns y s gs k r :
  sinv n y s gs -> idle_reader y k = Some r ->
  returns n y (EDrop k) (Ret (AStep, set_view (vjoin (y_view y) (r_view r))
    (set_readers (delete k (y_readers y)) y))).
Proof.
  intros I0 [Hr Hp]%idle_lookup. destruct (sinv_writer_sees y s gs k r I0 Hr) as [I Hreads].
  set (y1 := set_view _ y) in *.
  destruct (sinv_ghost n y1 s gs k r I Hr) as (g & Hg & Hrel & _ & _).
  apply (returns_step _ _ _ s (delete k gs)), (sinv_readers n y1 s gs); [done|..].
  - eapply minv_drop_reader; [apply I|exact Hg|]. by rewrite (rr_view _ _ _ Hrel).
  - apply Forall2_delete, I.
  - apply Forall_delete, I.
Qed.

Lemma release_returns y s gs k r i :
  sinv n y s gs -> idle_reader y k = Some r ->
  returns n y (ERelease k i) (Ret (AStep, set_readers (<[k :=
    rset_held (r_held r ∖ {[ i ]}) (r_iter r) r]> (y_readers y)) y)).
Proof.
  intros I [Hr Hp]%idle_lookup. destruct (sinv_ghost n y s gs k r I Hr) as (g & Hg & Hrel & Hnoted & _).
  destruct Hrel as [H1 H2 H3 H4 H5 H6 H7].
  eapply returns_step, (sinv_reader_same n y s gs k r _ g); try done.
  split; cbn; try done. set_solver.
Qed.

Lemma gossip_returns y s gs k k' r r' :
  sinv n y s gs -> idle_reader y k = Some r -> idle_reader y k' = Some r' ->
  returns n y (EGossip k k') (Ret (AStep, set_readers (<[k' :=
    rset_view (vjoin (r_view r') (r_view r)) r']> (y_readers y)) y)).
Proof.
  intros I [Hr Hp]%idle_lookup [Hr' Hp']%idle_lookup.
  destruct (sinv_ghost n y s gs k r I Hr) as (g & Hg & Hrel & _ & Hok).
  destruct (sinv_ghost n y s gs k' r' I Hr') as (g' & Hg' & Hrel' & Hnoted & Hok').
  destruct Hrel' as [H1 H2 H3 H4 H5 H6 H7]. pose proof (rr_view _ _ _ Hrel) as Hv.
  set (V := vjoin (r_view r') (r_view r)).
  assert (vle V (y_view y)) as HV.
  { apply vle_join; [rewrite <- H1; apply Hok'|rewrite <- Hv; apply Hok]. }
  eapply returns_step, (sinv_reader n y s gs k' r' _ g'
    (mkGhost V (g_read g') (g_must g') (g_noted g') (g_acked g'))); try done.
  eapply minv_reader; [apply I|exact Hg'|..].
  - eapply reader_ok_mono; [apply I| |exact HV|exact Hok']. rewrite H1. apply vle_join_l.
  - cbn. rewrite H1. set_solver.
  - auto.
Qed.
End exec.
