(* ===== verification/WeakAlone.v ===== *)
(** When nothing else runs, the access-by-access operations compute what the
    atomic operations of Cslab.v and CslabIter.v do, and each ends within a
    bounded number of accesses whatever its loads return. *)

From S2P Require Import Prelude CslabWord CslabStorage Cslab CslabIter.
From S2P Require Import Weak WeakCslab WeakSystem WeakWriterOps.

(** A storage of size [n]. *)
Definition storage_shape {T} (n : Z) (s : storage T) : Prop :=
  0 < n <= isize_MAX /\ size s = n /\ length (table s) = Z.to_nat n
  /\ Z.of_nat (length (bitmap s)) = words n.

Section alone.
Context {T : Type} (n : Z) (ord : orderings).
Implicit Types (s : storage T).

Lemma load_word_at s idx : storage_shape n s ->
  load_word s idx =
    (l ← bitmap_at n idx;
     match l with
     | LWord w => match bitmap s !! Z.to_nat w with Some v => Ret v | None => UB end
     | LFrontier => UB
     end).
Proof.
  intros (Hn & _ & _ & Hb). unfold isize_MAX in Hn. unfold load_word, bitmap_at, index.
  rewrite bitmap_len_eq by lia. cbn [mbind outcome_bind].
  destruct (Z.leb_spec 0 (idx / usize_BITS)), (Z.ltb_spec (idx / usize_BITS) 0); try lia; [|done].
  cbn [andb]. destruct (Z.ltb_spec (idx / usize_BITS) (words n)) as [Hlt|Hge]; cbn.
  - destruct (lookup_lt_is_Some_2 (bitmap s) (Z.to_nat (idx / usize_BITS))) as [v ->]; [lia|done].
  - by rewrite lookup_ge_None_2 by lia.
Qed.

Lemma index_at s i : storage_shape n s ->
  index (table s) i =
    (j ← table_at n i; match table s !! Z.to_nat j with Some e => Ret e | None => UB end).
Proof.
  intros (Hn & _ & Ht & _). unfold table_at, index.
  destruct (Z.leb_spec 0 i), (Z.ltb_spec i 0); try lia; [|done].
  cbn [andb]. destruct (Z.ltb_spec i n) as [Hlt|Hge]; cbn.
  - destruct (lookup_lt_is_Some_2 (table s) (Z.to_nat i)) as [v ->]; [lia|done].
  - by rewrite lookup_ge_None_2 by lia.
Qed.

Lemma shape_table s i e : storage_shape n s -> storage_shape n (set_table (store (table s) i e) s).
Proof. intros (? & ? & ? & ?). do 2 (split; [done|]). unfold store. cbn. by rewrite length_insert. Qed.
Lemma shape_frontier s f : storage_shape n s -> storage_shape n (set_frontier f s).
Proof. done. Qed.

Lemma bitmap_at_inv idx l : bitmap_at n idx = Ret l -> l = LWord (idx / usize_BITS).
Proof.
  unfold bitmap_at. destruct (bitmap_len n) as [k| | |]; cbn; [|done..].
  by destruct (_ && _); [intros [= <-]|].
Qed.

Lemma table_at_inv idx i : table_at n idx = Ret i -> i = idx.
Proof. unfold table_at. by destruct (_ && _); [intros [= <-]|]. Qed.

(** Both sides of an equation take the same branches. *)
Ltac same_branches :=
  repeat (cbn [mbind outcome_bind prog_mbind prog_bind lift mret prog_mret run_alone load store_to
               read_entry write_entry read_item read_next_free
               bitmap table frontier size set_frontier set_table set_bitmap];
    match goal with
    | |- context [load_word ?s ?i] => rewrite (load_word_at s i) by eauto using shape_frontier, shape_table
    | E : bitmap_at n ?i = _ |- context [bitmap_at n ?i] => rewrite E
    | E : ?x = _ |- context [match ?x with _ => _ end] => rewrite E
    | |- context [match bitmap_at n ?i with _ => _ end] =>
        let E := fresh in destruct (bitmap_at n i) as [l| | |] eqn:E;
          [pose proof (bitmap_at_inv _ _ E); subst l|..]
    | |- context [match table_at n ?i with _ => _ end] =>
        let E := fresh in destruct (table_at n i) as [j| | |] eqn:E;
          [pose proof (table_at_inv _ _ E); subst j|..]
    | |- context [match ?x with _ => _ end] =>
        lazymatch x with
        | context [match _ with _ => _ end] => fail
        | _ => destruct x eqn:?
        end
    end; try done).

Lemma get_unchecked_alone s i : storage_shape n s ->
  run_alone (get_unchecked_prog n i) s = (t ← get_unchecked_impl s i; Ret (t, s)).
Proof.
  intros Hs. unfold get_unchecked_prog, get_unchecked_impl, read_entry. rewrite (index_at s i Hs).
  same_branches.
Qed.

Lemma run_alone_bind {A B} (f : A -> prog T B) (p : prog T A) s :
  run_alone (p ≫= f) s = ('(a, s') ← run_alone p s; run_alone (f a) s').
Proof.
  cbv [mbind prog_mbind]. revert s. induction p as [o|l acq k IH|l rel v k IH|i k IH|i e k IH]; intros s; cbn.
  - by destruct o.
  - destruct l as [|w]; [apply IH|]. destruct (bitmap s !! Z.to_nat w); [apply IH|done].
  - destruct l as [|w]; apply IH.
  - destruct (table s !! Z.to_nat i); [apply IH|done].
  - apply IH.
Qed.

Lemma contains_alone s i : storage_shape n s ->
  run_alone (contains_key_prog ord n i) s = (b ← contains_key_impl s i; Ret (b, s)).
Proof.
  intros Hs. unfold contains_key_prog, contains_key_impl. rewrite (load_word_at s i Hs).
  destruct Hs as (_ & -> & _). same_branches.
Qed.

Lemma get_alone s i : storage_shape n s ->
  run_alone (get_prog ord n i) s = (o ← get_impl s i; Ret (o, s)).
Proof.
  intros Hs. unfold get_prog, get_impl.
  rewrite run_alone_bind, contains_alone by done.
  destruct (contains_key_impl s i) as [[]| | |]; cbn [mbind outcome_bind]; try done.
  rewrite run_alone_bind, get_unchecked_alone by done.
  by destruct (get_unchecked_impl s i).
Qed.

Lemma iter_new_alone s : storage_shape n s ->
  run_alone (iter_new_prog n) s = (it ← iter_new s; Ret (it, s)).
Proof. intros (_ & Hn & _). unfold iter_new_prog, iter_new. rewrite Hn. same_branches. Qed.

(** ** The scans *)

Lemma next_loop_alone s fuel it : storage_shape n s ->
  run_alone (next_loop_prog ord fuel n it) s = (y ← next_loop fuel s it; Ret (y, s)).
Proof.
  intros Hs. revert it. induction fuel as [|fuel IH]; intros it; [done|].
  cbn [next_loop_prog next_loop]. rewrite (load_word_at s _ Hs).
  same_branches; try apply IH.
  all: rewrite run_alone_bind, get_unchecked_alone by done; cbn [mbind outcome_bind];
    by destruct (get_unchecked_impl _ _).
Qed.

Lemma next_back_loop_alone s fuel it : storage_shape n s ->
  run_alone (next_back_loop_prog ord fuel n it) s = (y ← next_back_loop fuel s it; Ret (y, s)).
Proof.
  intros Hs. revert it. induction fuel as [|fuel IH]; intros it; [done|].
  cbn [next_back_loop_prog next_back_loop].
  destruct (sub_u 64 (it_tail it) 1) as [last| | |]; try done. cbn [mbind outcome_bind].
  rewrite (load_word_at s _ Hs).
  same_branches; try apply IH.
  all: rewrite run_alone_bind, get_unchecked_alone by done; cbn [mbind outcome_bind];
    by destruct (get_unchecked_impl _ _).
Qed.

Lemma iter_next_alone s it : storage_shape n s ->
  run_alone (iter_next_prog ord (scan_fuel n) n it) s = (y ← iter_next s it; Ret (y, s)).
Proof.
  intros Hs. unfold iter_next_prog, iter_next. case_match; [done|].
  rewrite next_loop_alone by done. do 2 f_equal.
  destruct Hs as (_ & _ & _ & Hb). unfold scan_fuel, iter_fuel. lia.
Qed.

Lemma iter_next_back_alone s it : storage_shape n s ->
  run_alone (iter_next_back_prog ord (scan_fuel n) n it) s = (y ← iter_next_back s it; Ret (y, s)).
Proof.
  intros Hs. unfold iter_next_back_prog, iter_next_back. case_match; [done|].
  rewrite next_back_loop_alone by done. do 2 f_equal.
  destruct Hs as (_ & _ & _ & Hb). unfold scan_fuel, iter_fuel. lia.
Qed.

(** ** The writer *)

(** The header and the storage that an operation leaves, as a slab. *)
Definition as_slab {A} (x : A * header * storage T) : A * cslab T := (x.1.1, slab_of x.1.2 x.2).

Lemma insert_alone h s t : storage_shape n s -> h_size h = n ->
  (x ← run_alone (insert_prog ord h t) s; Ret (as_slab x)) = insert (slab_of h s) t.
Proof.
  intros Hs Hh. unfold insert_prog, insert, table_len. rewrite Hh.
  pose proof Hs as (Hn & _ & Ht & _). cbn [slab_of slab_storage first_free in_use allocated].
  rewrite Ht, Z2Nat.id by lia. rewrite (index_at s _ Hs).
  same_branches.
Qed.

Lemma mark_alone h s i : storage_shape n s -> h_size h = n ->
  ('(h', s') ← run_alone (mark_removed_prog ord h i) s; Ret (slab_of h' s'))
  = mark_removed (slab_of h s) i.
Proof.
  intros Hs Hh. unfold mark_removed_prog, mark_removed. rewrite Hh.
  cbn [slab_of slab_storage first_free in_use allocated]. same_branches.
Qed.

Lemma finalize_alone h s i : storage_shape n s -> h_size h = n ->
  (x ← run_alone (finalize_remove_prog h i) s; Ret (as_slab x)) = finalize_remove (slab_of h s) i.
Proof.
  intros Hs Hh. unfold finalize_remove_prog, finalize_remove. rewrite Hh.
  cbn [slab_of slab_storage first_free in_use allocated]. rewrite (index_at s _ Hs). same_branches.
Qed.
End alone.
