(* ===== verification/WeakBound.v ===== *)
(** The operations of the slab are wait-free: a bound on the accesses of each,
    and its preservation in the system. *)

From S2P Require Import Prelude CslabWord CslabStorage Cslab CslabIter.
From S2P Require Import Weak WeakCslab WeakSystem.

(** ** Programs *)

(** At most [k] accesses are left, whatever the loads and reads return. *)
Fixpoint ends_within {T A} (p : prog T A) (k : nat) : Prop :=
  match p, k with
  | PDone _, _ => True
  | _, O => False
  | PLoad _ _ f, S k' => forall v, ends_within (f v) k'
  | PStore _ _ _ q, S k' | PWrite _ _ q, S k' => ends_within q k'
  | PRead _ f, S k' => forall e, ends_within (f e) k'
  end.

Definition is_done {T A} (p : prog T A) : bool := match p with PDone _ => true | _ => false end.

Section programs.
Context {T : Type}.

Lemma ends_within_mono {A} (p : prog T A) k k' : (k <= k')%nat -> ends_within p k -> ends_within p k'.
Proof.
  revert k k'. induction p as [o|l acq f IH|l rel v q IH|i f IH|i e q IH]; intros [|k] [|k'] Hle; cbn;
    try done; try lia; intros H; try (intros x; eapply IH, H; lia); eapply IH, H; lia.
Qed.

Lemma ends_within_bind {A B} (p : prog T A) (f : A -> prog T B) k k' :
  ends_within p k -> (forall a, ends_within (f a) k') -> ends_within (p ≫= f) (k + k').
Proof.
  intros Hp Hf. cbv [mbind prog_mbind]. revert k Hp.
  induction p as [[a| | |]|l acq g IH|l rel v q IH|i g IH|i e q IH]; intros [|k] Hp; cbn in *; try done; auto.
  - apply (ends_within_mono _ k'); [lia|done].
Qed.

Lemma ends_lift {A} (o : outcome A) : ends_within (T:=T) (lift o) 0.
Proof. by destruct o. Qed.

Lemma ends_step {A} (m m' : mem T) V V' (p p' : prog T A) choice k :
  prog_step m V p choice = Some (Ret (m', V', p')) -> ends_within p (S k) -> ends_within p' k.
Proof.
  destruct p as [o|l acq f|l rel v q|i f|i e q]; cbn; [done|..].
  - case_decide; [|done]. destruct (m_hist m l !! choice) as [msg|]; [|done]. cbn. intros [= <- <- <-] Hk. apply Hk.
  - case_decide; [|done]. by intros [= <- <- <-].
  - case_decide; [|done]. intros [= <- <- <-] Hk. apply Hk.
  - case_decide; [|done]. by intros [= <- <- <-].
Qed.

(** A program that is not at its end has a step, if its view is of this memory. *)
Lemma step_enabled {A} (m : mem T) V (p : prog T A) :
  (forall l, is_Some (m_hist m l !! v_atomic V l)) -> is_done p = false ->
  exists choice, is_Some (prog_step m V p choice).
Proof.
  intros HV Hp. destruct p as [o|l acq f|l rel v q|i f|i e q]; [done|..].
  - exists (v_atomic V l). cbn. rewrite decide_True by done. destruct (HV l) as [msg ->]. by eexists.
  - exists 0%nat. cbn. case_decide; by eexists.
  - exists 0%nat. cbn. case_decide; by eexists.
  - exists 0%nat. cbn. case_decide; by eexists.
Qed.
End programs.

(** ** The operations *)

Section ops.
Context {T : Type} (ord : orderings).

Ltac bounded :=
  repeat match goal with
  | |- ends_within (lift ?o ≫= ?f) ?k => apply (ends_within_bind (lift o) f 0 k); [apply ends_lift|intros ?]
  | |- ends_within (load ?l ?a ≫= ?f) (S ?k) => apply (ends_within_bind (load l a) f 1 k); [by cbn|intros ?]
  | |- ends_within (store_to ?l ?r ?v ≫= ?f) (S ?k) =>
      apply (ends_within_bind (store_to l r v) f 1 k); [done|intros ?]
  | |- ends_within (match ?x with _ => _ end) _ => destruct x
  | |- ends_within (mret _) _ => done
  end.

Lemma get_unchecked_ends n i : ends_within (get_unchecked_prog (T:=T) n i) 1.
Proof.
  unfold get_unchecked_prog, read_entry. apply (ends_within_bind _ _ 1 0); [|intros e; apply ends_lift].
  bounded. by cbn.
Qed.

Lemma contains_ends n i : ends_within (contains_key_prog (T:=T) ord n i) 1.
Proof. unfold contains_key_prog. bounded. Qed.

Lemma next_loop_ends n fuel it : ends_within (next_loop_prog (T:=T) ord fuel n it) (S fuel).
Proof.
  revert it. induction fuel as [|fuel IH]; intros it; [done|]. cbn [next_loop_prog]. bounded; [|apply IH].
  apply (ends_within_bind _ _ 1 fuel); [apply get_unchecked_ends|done].
Qed.

Lemma next_back_loop_ends n fuel it : ends_within (next_back_loop_prog (T:=T) ord fuel n it) (S fuel).
Proof.
  revert it. induction fuel as [|fuel IH]; intros it; [done|]. cbn [next_back_loop_prog]. bounded; [|apply IH].
  apply (ends_within_bind _ _ 1 fuel); [apply get_unchecked_ends|done].
Qed.

(** The bounds: a scan loads each word of the bitmap at most once, and reads one
    item. *)
Definition reader_bound (n : Z) : nat := S (scan_fuel n).
Definition writer_bound : nat := 6.

Lemma get_op_ends n i : ends_within (get_op (T:=T) ord n i) (reader_bound n).
Proof.
  apply (ends_within_mono _ 2); [unfold reader_bound, scan_fuel; lia|].
  apply (ends_within_bind _ _ 2 0); [|done]. apply (ends_within_bind _ _ 1 1); [apply contains_ends|].
  intros []; [|done]. apply (ends_within_bind _ _ 1 0); [apply get_unchecked_ends|done].
Qed.

Lemma contains_op_ends n i : ends_within (contains_op (T:=T) ord n i) (reader_bound n).
Proof.
  apply (ends_within_mono _ 1); [unfold reader_bound; lia|].
  apply (ends_within_bind _ _ 1 0); [apply contains_ends|done].
Qed.

Lemma unchecked_op_ends n i : ends_within (unchecked_op (T:=T) n i) (reader_bound n).
Proof.
  apply (ends_within_mono _ 1); [unfold reader_bound; lia|].
  apply (ends_within_bind _ _ 1 0); [apply get_unchecked_ends|done].
Qed.

Lemma iter_new_op_ends n : ends_within (iter_new_op (T:=T) n) (reader_bound n).
Proof.
  apply (ends_within_mono _ 1); [unfold reader_bound; lia|].
  apply (ends_within_bind _ _ 1 0); [|done]. unfold iter_new_prog. bounded.
Qed.

Lemma next_op_ends n front it : ends_within (next_op (T:=T) ord n front it) (reader_bound n).
Proof.
  unfold next_op, reader_bound. rewrite <- (Nat.add_0_r (S _)). apply ends_within_bind; [|done].
  destruct front; unfold iter_next_prog, iter_next_back_prog; case_match; try done;
    [apply next_loop_ends|apply next_back_loop_ends].
Qed.

Lemma insert_op_ends h t : ends_within (insert_op (T:=T) ord h t) writer_bound.
Proof.
  apply (ends_within_bind _ _ 6 0); [|by intros [r h']]. unfold insert_prog, read_entry, write_entry.
  case_match; [done|]. apply (ends_within_bind _ _ 1 5); [bounded; by cbn|intros e]. bounded.
  apply (ends_within_bind _ _ 1 4); [bounded; by cbn|intros []]. bounded.
  apply (ends_within_bind _ _ 1 2); [bounded; by cbn|intros []]. bounded.
Qed.

Lemma mark_op_ends h i : ends_within (mark_op (T:=T) ord h i) writer_bound.
Proof.
  apply (ends_within_mono _ 2); [unfold writer_bound; lia|].
  apply (ends_within_bind _ _ 2 0); [|done]. unfold mark_removed_prog. bounded.
Qed.

Lemma finalize_op_ends h i : ends_within (finalize_op (T:=T) h i) writer_bound.
Proof.
  apply (ends_within_mono _ 3); [unfold writer_bound; lia|].
  apply (ends_within_bind _ _ 3 0); [|by intros [t h']]. unfold finalize_remove_prog, read_entry, write_entry.
  bounded. apply (ends_within_bind _ _ 1 1); [bounded; by cbn|intros e]. bounded.
  apply (ends_within_bind _ _ 1 0); [bounded; by cbn|intros []]. bounded.
Qed.
End ops.

(** ** The system *)

Section system.
Context {T : Type} (ord : orderings) (n : Z).
Implicit Types (y : sys T) (r : reader T).

Definition reader_bounded r : Prop :=
  forall p, r_prog r = Some p -> is_done p = false /\ ends_within p (reader_bound n).

Record bounded_sys y : Prop := {
  bs_writer t p : y_prog y = Some (t, p) -> is_done p = false /\ ends_within p writer_bound;
  bs_readers : Forall reader_bounded (y_readers y);
}.

Lemma bounded_readers y l : bounded_sys y -> Forall reader_bounded l -> bounded_sys (set_readers l y).
Proof. intros [H1 H2] Hl. by split. Qed.

Lemma bounded_fmap y (f : reader T -> reader T) :
  bounded_sys y -> (forall r, r_prog (f r) = r_prog r) -> bounded_sys (set_readers (f <$> y_readers y) y).
Proof.
  intros B Hf. apply bounded_readers; [done|]. apply Forall_fmap.
  eapply Forall_impl; [apply B|]. intros r Hr p. cbn. rewrite Hf. apply Hr.
Qed.

Lemma bounded_reader y k r r' :
  bounded_sys y -> y_readers y !! k = Some r -> r_prog r' = r_prog r ->
  bounded_sys (set_readers (<[k := r']> (y_readers y)) y).
Proof.
  intros B Hr Hp. apply bounded_readers; [done|]. apply Forall_insert; [apply B|].
  pose proof (bs_readers y B) as HF. rewrite Forall_lookup in HF.
  intros p. rewrite Hp. by eapply HF.
Qed.

Lemma run_reader_bounded y k p r a y' :
  bounded_sys y -> ends_within p (reader_bound n) -> run_reader k p r y = Ret (a, y') -> bounded_sys y'.
Proof.
  intros B Hp. assert (forall r', reader_bounded r' -> bounded_sys (set_readers (<[k := r']> (y_readers y)) y)) as Hset.
  { intros r' Hr'. apply bounded_readers; [done|]. apply Forall_insert; [apply B|done]. }
  unfold run_reader. destruct p as [[res| | |]|l acq f|l rel v q|i f|i e q]; try done; intros [= <- <-];
    apply Hset; (by intros p') || (intros p' [= <-]; done).
Qed.

Lemma run_writer_bounded y t p a y' :
  bounded_sys y -> ends_within p writer_bound -> run_writer t p y = Ret (a, y') -> bounded_sys y'.
Proof.
  intros [B1 B2] Hp. unfold run_writer.
  assert (is_done p = false -> bounded_sys (set_prog (Some (t, p)) y)) as Hset.
  { intros Hd. split; [|done]. by intros t' p' [= <- <-]. }
  destruct p as [[res| | |]|l acq f|l rel v q|i f|i e q]; try done; intros [= <- <-]; try by apply Hset.
  destruct res as [h [[i|]|i|t']], t as [t|]; by split.
Qed.

Lemma bounded_frame y y' :
  bounded_sys y -> y_prog y' = y_prog y -> y_readers y' = y_readers y -> bounded_sys y'.
Proof. intros [B1 B2] Hp Hr. split; [by rewrite Hp|by rewrite Hr]. Qed.

(** ** The events *)

Lemma idle_inv y k r : idle_reader y k = Some r -> y_readers y !! k = Some r /\ r_prog r = None.
Proof.
  unfold idle_reader. destruct (y_readers y !! k) as [r1|]; [|done]. cbn.
  by destruct (r_prog r1) eqn:?; [|intros [= ->]].
Qed.

Lemma bounded_add y r : bounded_sys y -> r_prog r = None -> bounded_sys (set_readers (y_readers y ++ [r]) y).
Proof.
  intros B Hr. apply bounded_readers; [done|]. apply Forall_app. split; [apply B|].
  constructor; [|done]. intros p. by rewrite Hr.
Qed.

Lemma exec_writer_bounded y e a y' :
  bounded_sys y -> exec_writer ord y e = Some (Ret (a, y')) -> bounded_sys y'.
Proof.
  intros B. assert (forall V, bounded_sys (set_view V y)) as BV by (intros V; by apply (bounded_frame y)).
  destruct e as [t|i|i|choice| |k ks|k i|k|k i|k i|k i|k|k front|k choice|k i|k|k|k k']; unfold exec_writer; try done.
  - intros Ho%(inj Some). eapply run_writer_bounded, Ho; [done|apply insert_op_ends].
  - case_decide; [|done]. intros Ho%(inj Some). eapply run_writer_bounded, Ho; [|apply mark_op_ends].
    apply (bounded_fmap (set_items _ _ y)); [by apply (bounded_frame y)|done].
  - case_decide; [|done]. intros Ho%(inj Some). eapply run_writer_bounded, Ho; [|apply finalize_op_ends].
    apply (bounded_fmap (set_items _ _ y)); [by apply (bounded_frame y)|done].
  - intros [= <- <-]. by apply bounded_add.
  - destruct (idle_reader y k) as [r|] eqn:Hr; [|done]. apply idle_inv in Hr as [Hr Hp]. intros [= <- <-].
    apply (bounded_readers (set_view _ y)); [done|]. apply Forall_delete, B.
  - destruct (idle_reader y k) as [r|] eqn:Hr; [|done]. apply idle_inv in Hr as [Hr Hp]. intros [= <- <-].
    by eapply bounded_reader.
  - destruct (idle_reader y k) as [r|] eqn:Hr; [|done]. apply idle_inv in Hr as [Hr Hp]. intros [= <- <-].
    by apply (bounded_reader (set_view _ y) k r).
Qed.

Lemma exec_reader_bounded y e a y' :
  h_size (y_header y) = n -> bounded_sys y -> exec_reader ord y e = Some (Ret (a, y')) -> bounded_sys y'.
Proof.
  intros Hn B. destruct e as [t|i|i|choice| |k ks|k i|k|k i|k i|k i|k|k front|k choice|k i|k|k|k k'];
    unfold exec_reader; rewrite ?Hn; try done.
  all: try (destruct (idle_reader y k) as [r|] eqn:Hr; [|done]; apply idle_inv in Hr as [Hr Hp];
            cbn [mbind option_bind]).
  - destruct (mapM (idle_reader y) ks) as [rs|]; [|done]. intros [= <- <-]. apply bounded_add; [done|].
    assert (r_prog (clone_reader r) = None) as Hc by done. revert Hc. generalize (clone_reader r) as c.
    induction rs as [|r' rs IH]; intros c Hc; [done|]. by apply IH.
  - case_decide; [|done]. intros [= <- <-].
    apply (bounded_add (set_readers (<[k := rset_held (r_held r ∖ {[ i ]}) (r_iter r) r]> (y_readers y)) y)); [|done].
    by eapply bounded_reader.
  - case_decide; [|done]. intros Ho%(inj Some). eapply run_reader_bounded, Ho; [done|apply get_op_ends].
  - case_decide; [|done]. intros Ho%(inj Some). eapply run_reader_bounded, Ho; [done|apply contains_op_ends].
  - case_decide; [|done]. intros Ho%(inj Some). eapply run_reader_bounded, Ho; [done|apply unchecked_op_ends].
  - intros Ho%(inj Some). eapply run_reader_bounded, Ho; [done|apply iter_new_op_ends].
  - destruct (r_iter r) as [it|]; [|done]. intros Ho%(inj Some).
    eapply run_reader_bounded, Ho; [done|apply next_op_ends].
  - destruct (y_readers y !! k) as [r|] eqn:Hr; [|done]. cbn. destruct (r_prog r) as [p|] eqn:Hp; [|done]. cbn.
    destruct (prog_step (y_mem y) (r_view r) p choice) as [[[[m V] p']| | |]|] eqn:Hs; try done. cbn.
    intros Ho%(inj Some). pose proof (bs_readers y B) as HF. rewrite Forall_lookup in HF.
    destruct (HF k r Hr p Hp) as [_ Hb]. eapply run_reader_bounded, Ho; [by apply (bounded_frame y)|].
    apply (ends_within_mono _ (scan_fuel n)); [unfold reader_bound; lia|]. by eapply ends_step.
  - intros [= <- <-]. by eapply bounded_reader.
  - destruct (idle_reader y k') as [r'|] eqn:Hr'; [|done]. apply idle_inv in Hr' as [Hr' _].
    intros [= <- <-]. by eapply bounded_reader.
Qed.

Lemma exec_bounded y e a y' :
  h_size (y_header y) = n -> bounded_sys y -> exec ord y e = Some (Ret (a, y')) -> bounded_sys y'.
Proof.
  intros Hn B. unfold exec.
  destruct e as [t|i|i|choice| |k ks|k i|k|k i|k i|k i|k|k front|k choice|k i|k|k|k k'];
    try (by apply exec_reader_bounded);
    try (destruct (writer_idle y); [by apply exec_writer_bounded|done]).
  destruct (y_prog y) as [[t p]|] eqn:Hp; [|done]. cbn.
  destruct (prog_step (y_mem y) (y_view y) p choice) as [[[[m V] p']| | |]|] eqn:Hs; try done. cbn.
  intros Ho%(inj Some). destruct (bs_writer y B t p Hp) as [_ Hb].
  eapply run_writer_bounded, Ho; [by apply (bounded_frame y)|].
  apply (ends_within_mono _ 5); [unfold writer_bound; lia|]. by eapply ends_step.
Qed.
(** ** Progress *)

(** The program [p], of which the accesses are the events [access], has at most
    [bound] accesses left, is not blocked, and each access answers or leaves one
    less. *)
Definition wait_free {A} y (p : prog T A) (bound : nat) (access : nat -> event T)
    (running : sys T -> prog T A -> Prop) : Prop :=
  ends_within p bound
  /\ (exists choice a y', exec ord y (access choice) = Some (Ret (a, y')))
  /\ forall choice a y' m, ends_within p (S m) ->
       exec ord y (access choice) = Some (Ret (a, y')) ->
       a <> AStep \/ exists p', running y' p' /\ ends_within p' m.

Definition reader_runs (k : nat) y (p : prog T (rresp T)) : Prop :=
  exists r, y_readers y !! k = Some r /\ r_prog r = Some p.
Definition writer_runs (t : option T) y (p : prog T (header * wresp T)) : Prop := y_prog y = Some (t, p).

Lemma reader_wait_free y k r p :
  bounded_sys y -> y_readers y !! k = Some r -> r_prog r = Some p ->
  (forall l, is_Some (m_hist (y_mem y) l !! v_atomic (r_view r) l)) ->
  (forall e o, exec ord y e = Some o -> exists a y', o = Ret (a, y')) ->
  wait_free y p (reader_bound n) (EReader k) (reader_runs k).
Proof.
  intros B Hr Hp HV Hret. pose proof (bs_readers y B) as HF. rewrite Forall_lookup in HF.
  destruct (HF k r Hr p Hp) as [Hd Hb]. split; [done|split].
  - destruct (step_enabled (y_mem y) (r_view r) p HV Hd) as (choice & o & Ho).
    exists choice. edestruct (Hret (EReader k choice)) as (a & y' & Hy').
    { cbn. rewrite Hr. cbn. rewrite Hp. cbn. rewrite Ho. reflexivity. }
    exists a, y'. cbn. rewrite Hr. cbn. rewrite Hp. cbn. rewrite Ho. cbn. by rewrite <- Hy'.
  - intros choice a y' m Hm. cbn. rewrite Hr. cbn. rewrite Hp. cbn.
    destruct (prog_step (y_mem y) (r_view r) p choice) as [[[[m' V] p']| | |]|] eqn:Hs; try done. cbn.
    intros Ho%(inj Some). pose proof (ends_step _ _ _ _ _ _ _ _ Hs Hm) as Hm'.
    unfold run_reader in Ho. pose proof (lookup_lt_Some _ _ _ Hr) as Hlt.
    destruct p' as [[res| | |]|l acq f|l rel v q|i f|i e q]; try done; injection Ho as <- <-; [by left|..];
      right; eexists; (split; [|exact Hm']); eexists; (split; [by apply list_lookup_insert_eq|done]).
Qed.

Lemma writer_wait_free y t p :
  bounded_sys y -> y_prog y = Some (t, p) ->
  (forall l, is_Some (m_hist (y_mem y) l !! v_atomic (y_view y) l)) ->
  (forall e o, exec ord y e = Some o -> exists a y', o = Ret (a, y')) ->
  wait_free y p writer_bound EWriter (writer_runs t).
Proof.
  intros B Hp HV Hret. destruct (bs_writer y B t p Hp) as [Hd Hb]. split; [done|split].
  - destruct (step_enabled (y_mem y) (y_view y) p HV Hd) as (choice & o & Ho).
    exists choice. edestruct (Hret (EWriter choice)) as (a & y' & Hy').
    { cbn. rewrite Hp. cbn. rewrite Ho. reflexivity. }
    exists a, y'. cbn. rewrite Hp. cbn. rewrite Ho. cbn. by rewrite <- Hy'.
  - intros choice a y' m Hm. cbn. rewrite Hp. cbn.
    destruct (prog_step (y_mem y) (y_view y) p choice) as [[[[m' V] p']| | |]|] eqn:Hs; try done. cbn.
    intros Ho%(inj Some). pose proof (ends_step _ _ _ _ _ _ _ _ Hs Hm) as Hm'.
    unfold run_writer in Ho.
    destruct p' as [[res| | |]|l acq f|l rel v q|i f|i e q]; try done; injection Ho as <- <-; [by left|..];
      right; eexists; (split; [|exact Hm']); done.
Qed.
End system.
