(* ===== verification/WeakCorrect.v ===== *)
(** The slab under concurrent use: the theorems on the weak-memory system. *)

From S2P Require Import Prelude CslabWord CslabStorage Cslab CslabIter SlabSpec CslabProof SlabInterface CslabProps.
From S2P Require Import Weak WeakCslab WeakSystem WeakInv WeakWriter WeakReader WeakWriterOps WeakReaderOps.
From S2P Require Import WeakSysInv WeakSteps WeakExec WeakBound WeakAlone.

Section correct.
Context {T : Type} (n : Z) (Hn : 0 < n <= isize_MAX).
Implicit Types (y : sys T) (s : storage T).

Lemma exec_returns y s gs e o :
  sinv n y s gs -> exec source_orderings y e = Some o -> returns n y e o.
Proof using Hn.
  intros I. assert (h_size (y_header y) = n) as HS by apply I.
  destruct e as [t|i|i|choice| |k ks|k i|k|k i|k i|k i|k|k front|k choice|k i|k|k|k k'];
    unfold exec;
    try (destruct (writer_idle y) eqn:Hidle; [|done]); unfold exec_writer, exec_reader.
  - intros <-%(inj Some). by eapply insert_returns.
  - case_decide as Hd; [|done]. intros <-%(inj Some). destruct Hd. by eapply mark_returns.
  - case_decide as Hd; [|done]. intros <-%(inj Some). destruct Hd. by eapply finalize_returns.
  - by eapply writer_returns.
  - intros <-%(inj Some). by eapply new_reader_returns.
  - destruct (idle_reader y k) as [r|] eqn:Hr; [|done]. cbn [mbind option_bind].
    destruct (mapM (idle_reader y) ks) as [rs|] eqn:Hrs; [|done]. intros <-%(inj Some). by eapply clone_returns.
  - destruct (idle_reader y k) as [r|] eqn:Hr; [|done]. cbn [mbind option_bind].
    case_decide; [|done]. intros <-%(inj Some). by eapply take_returns.
  - destruct (idle_reader y k) as [r|] eqn:Hr; [|done]. intros <-%(inj Some). by eapply drop_returns.
  - destruct (idle_reader y k) as [r|] eqn:Hr; [|done]. cbn [mbind option_bind]. case_decide; [|done]. intros <-%(inj Some).
    eapply start_reader; [done|done|done|]. intros. rewrite HS. by apply get_rsafe.
  - destruct (idle_reader y k) as [r|] eqn:Hr; [|done]. cbn [mbind option_bind]. case_decide; [|done]. intros <-%(inj Some).
    eapply start_reader; [done|done|done|]. intros. rewrite HS. by apply contains_op_rsafe.
  - destruct (idle_reader y k) as [r|] eqn:Hr; [|done]. cbn [mbind option_bind]. case_decide as Hi; [|done]. intros <-%(inj Some).
    eapply start_reader; [done|done|done|]. intros g S _ _ _ Hheld. rewrite HS.
    destruct (Hheld i Hi). by apply unchecked_rsafe.
  - destruct (idle_reader y k) as [r|] eqn:Hr; [|done]. cbn [mbind option_bind]. intros <-%(inj Some).
    eapply start_reader; [done|done|done|]. intros. rewrite HS. by apply iter_new_rsafe.
  - destruct (idle_reader y k) as [r|] eqn:Hr; [|done]. cbn [mbind option_bind].
    destruct (r_iter r) as [it|] eqn:Hit; [|done]. cbn [mbind option_bind]. intros <-%(inj Some).
    eapply start_reader; [done|done|done|]. intros g S _ Hrel HS' _. rewrite HS.
    apply next_rsafe; try done. by apply (rr_iter _ _ _ Hrel).
  - by eapply reader_returns.
  - destruct (idle_reader y k) as [r|] eqn:Hr; [|done]. cbn [mbind option_bind]. intros <-%(inj Some). by eapply release_returns.
  - destruct (idle_reader y k) as [r|] eqn:Hr; [|done]. cbn [mbind option_bind]. intros <-%(inj Some). by eapply update_returns.
  - destruct (idle_reader y k) as [r|] eqn:Hr; [|done]. cbn [mbind option_bind]. intros <-%(inj Some). by eapply callback_returns.
  - destruct (idle_reader y k) as [r|] eqn:Hr; [|done]. cbn [mbind option_bind].
    destruct (idle_reader y k') as [r'|] eqn:Hr'; [|done]. cbn [mbind option_bind]. intros <-%(inj Some). by eapply gossip_returns.
Qed.

(** A new slab. *)
Lemma sinv_new el (c : cslab T) :
  8 <= l_size el -> 0 < l_align el -> with_fixed_capacity el n = Ret c ->
  sinv n (sys_new n) (slab_storage c) [].
Proof using Hn.
  intros Hel Hal Hc. pose proof (with_fixed_capacity_rel el n c Hel Hal Hc) as R.
  assert (first_free c = 0 /\ in_use c = 0 /\ allocated c = 0 /\ frontier (slab_storage c) = 0
    /\ (forall i, 0 <= i < n -> table (slab_storage c) !! Z.to_nat i = Some (Free 0))
    /\ (forall w, 0 <= w < words n -> bitmap (slab_storage c) !! Z.to_nat w = Some 0))
    as (H1 & H2 & H3 & H4 & H5 & H6).
  { unfold isize_MAX in Hn. unfold with_fixed_capacity, storage_with_fixed_capacity in Hc.
    destruct (n >? 0); [|done]. destruct (storage_layout el n) as [[l off]| | |]; try done.
    cbn [mbind outcome_bind] in Hc. rewrite bitmap_len_eq in Hc by lia. cbn in Hc. injection Hc as <-.
    do 4 (split; [done|]). split; intros; cbn; apply lookup_replicate; (split; [done|lia]). }
  assert (0 <= words n) as Hw by (apply Z.div_pos; lia).
  assert (forall i j, [mkMsg 0 vbot] !! i = Some j -> i = 0%nat /\ j = mkMsg 0 vbot) as Hmsg.
  { intros [|i] j; [by intros [= <-]|by destruct i]. }
  split; cbn; [|constructor|constructor|split; [done|by intros i t ?%lookup_empty_Some]|done|].
  - split; cbn; try done.
    + split; [apply R|]. split; [apply R|]. pose proof (rel_bitmap _ _ R). cbn in *. lia.
    + by eexists.
    + intros w Hwn. eexists. split; [reflexivity|]. by apply H6.
    + intros l ts msg [_ ->]%Hmsg. done.
    + intros w ts msg [_ ->]%Hmsg. cbn. split; [unfold is_uint; lia|]. intros i Hi _ Hb.
      unfold has in Hb. by rewrite Z.bits_0 in Hb.
    + by intros ts ts' f f' _ [_ ->]%Hmsg [_ ->]%Hmsg.
    + intros ts f [_ ->]%Hmsg. cbn. lia.
    + intros i ts msg _ _ [_ ->]%Hmsg Hb. unfold has in Hb. by rewrite Z.bits_0 in Hb.
  - split; [done|]. exists (spec_new n). unfold slab_of. cbn.
    assert (mkCslab 0 0 0 (slab_storage c) = c) as -> by (destruct c; cbn in *; congruence).
    done.
Qed.

Lemma reachable_inv el (c : cslab T) y :
  entry_layout_ok el -> with_fixed_capacity el n = Ret c ->
  reachable T source_orderings n y -> exists s gs, sinv n y s gs.
Proof using Hn.
  intros [Hel Hal] Hc. induction 1 as [|y e r y' _ (s & gs & I) Hexec].
  - eexists _, _. by eapply sinv_new.
  - destruct (exec_returns y s gs e _ I Hexec) as (a & y'' & [= <- <-] & Hinv & _). done.
Qed.

Lemma reachable_bounded el (c : cslab T) y :
  entry_layout_ok el -> with_fixed_capacity el n = Ret c ->
  reachable T source_orderings n y -> bounded_sys n y.
Proof using Hn.
  intros Hel Hc. induction 1 as [|y e r y' Hy B Hexec]; [by split|].
  destruct (reachable_inv el c y Hel Hc Hy) as (s & gs & I).
  by eapply exec_bounded; [apply (si_size _ _ _ _ I)|..].
Qed.
End correct.

Lemma capacity_bound {T} el n (c : cslab T) :
  entry_layout_ok el -> with_fixed_capacity el n = Ret c -> 0 < n <= isize_MAX.
Proof.
  intros [Hel Hal] Hc. by apply (cap_bound _ _ (with_fixed_capacity_rel el n c Hel Hal Hc)).
Qed.

(** ** Data races *)

Section races.
Context {T : Type}.
Implicit Types (m : mem T) (y : sys T).

(** The next access of a thread with view [V] conflicts with another thread's:
    it reads an entry of which there is a write that does not happen before, or
    writes one of which there is such a write or such a read. *)
Definition access_races {A} m (V : view) (p : prog T A) : bool :=
  match p with
  | PRead i _ => bool_decide (v_entry V i < c_ts (m_cell m i))%nat
  | PWrite i _ _ =>
      bool_decide (v_entry V i < c_ts (m_cell m i))%nat || negb (bool_decide (c_reads (m_cell m i) ⊆ v_reads V))
  | _ => false
  end.

Definition reader_races y (k : nat) : bool :=
  if y_readers y !! k is Some r
  then if r_prog r is Some p then access_races (y_mem y) (r_view r) p else false
  else false.

Definition writer_races y : bool :=
  if y_prog y is Some (_, p) then access_races (y_mem y) (y_view y) p else false.

(** The entry that a reader is about to read. *)
Definition reading_entry y (k : nat) : option Z :=
  r ← y_readers y !! k; p ← r_prog r; if p is PRead i _ then Some i else None.

Lemma access_races_ub {A} m V (p : prog T A) choice :
  access_races m V p = true -> prog_step m V p choice = Some UB.
Proof.
  destruct p as [|?|?|i k|i e k]; cbn; try done.
  - intros H%bool_decide_eq_true. rewrite decide_False; [done|lia].
  - intros [H%bool_decide_eq_true|H%negb_true_iff%bool_decide_eq_false]%orb_true_iff;
      (rewrite decide_False; [done|]); [lia|by intros []].
Qed.

Lemma reader_races_ub ord y k choice :
  reader_races y k = true -> exec ord y (EReader k choice) = Some UB.
Proof.
  unfold reader_races, exec, exec_reader. destruct (y_readers y !! k) as [r|]; [|done]. cbn.
  destruct (r_prog r) as [p|]; [|done]. cbn. intros H. by rewrite (access_races_ub _ _ p choice H).
Qed.

Lemma writer_races_ub ord y choice :
  writer_races y = true -> exec ord y (EWriter choice) = Some UB.
Proof.
  unfold writer_races. cbn. destruct (y_prog y) as [[t p]|]; [|done]. intros H. cbn.
  by rewrite (access_races_ub _ _ p choice H).
Qed.
End races.

(** ** Histories, for the examples *)

Section histories.
Context {T : Type} (ord : orderings).

Fixpoint run_events (y : sys T) (es : list (event T)) : option (sys T) :=
  match es with
  | [] => Some y
  | e :: es' =>
      match exec ord y e with Some (Ret (_, y')) => run_events y' es' | _ => None end
  end.

Lemma run_events_reachable n y es y' :
  reachable T ord n y -> run_events y es = Some y' -> reachable T ord n y'.
Proof.
  revert y. induction es as [|e es IH]; intros y Hy; cbn; [by intros [= <-]|].
  destruct (exec ord y e) as [[[r y1]| | |]|] eqn:He; try done. apply IH. by eapply reach_step.
Qed.

(** Whether the history ends with reader [k] about to read entry [i], in a race. *)
Definition races_after (n : Z) (es : list (event T)) (k : nat) (i : Z) : bool :=
  if run_events (sys_new n) es is Some y
  then bool_decide (reading_entry y k = Some i) && reader_races y k
  else false.

Lemma races_after_reachable n es k i :
  races_after n es k i = true ->
  exists y, reachable T ord n y /\ reading_entry y k = Some i /\ reader_races y k = true.
Proof.
  unfold races_after. destruct (run_events (sys_new n) es) as [y|] eqn:Hy; [|done].
  intros [Hi%bool_decide_eq_true Hr]%andb_true_iff. exists y. split; [|done].
  eapply run_events_reachable, Hy. apply reach_new.
Qed.
End histories.

(** The accesses of an insertion that moves the frontier; the loads of the writer
    return the latest stores, of which there have been [f] and [b]. *)
Definition inserting (t : Z) (f b : nat) : list (event Z) :=
  [EInsert t; EWriter 0; EWriter 0; EWriter f; EWriter 0; EWriter b; EWriter 0].

(** A reader loads the flag that an insertion has stored. *)
Definition insert_history : list (event Z) := [ENewReader] ++ inserting 7 0 0 ++ [EGet 0 0; EReader 0 1].

(** A reader loads the flags as a removal of another item has left them. *)
Definition mask_history : list (event Z) :=
  [ENewReader] ++ inserting 7 0 0 ++ inserting 8 1 1 ++ [EMark 0; EWriter 2; EWriter 0]
    ++ [EGet 0 1; EReader 0 3].

(** A whole life: a reader gets an item, which is removed, finalized when the
    reader has acknowledged, and its slot used again. *)
Definition life_history : list (event Z) :=
  insert_history ++ [EReader 0 0; EMark 0; EWriter 1; EWriter 0; EUpdate 0; ERelease 0 0; ECallback 0;
    EFinalize 0; EWriter 2; EWriter 0; EWriter 0;
    EInsert 9; EWriter 0; EWriter 0; EWriter 1; EWriter 2; EWriter 0; EGet 0 0; EReader 0 3].

Definition life_state : sys Z := default (sys_new 2) (run_events source_orderings (sys_new 2) life_history).

Lemma life_reachable : reachable Z source_orderings 2 life_state.
Proof.
  apply (run_events_reachable source_orderings 2 (sys_new 2) life_history); [apply reach_new|].
  unfold life_state. assert (is_Some (run_events source_orderings (sys_new 2) life_history)) as [y ->];
    [by vm_compute; eexists|done].
Qed.

(** ** Theorems *)

(** C7 (safety). With the orderings of the source, whatever the loads return
    that C++20 allows, every access of every operation of the writer and of any
    number of readers on other threads returns: there is no data race, no item
    is read that is not there, and no assertion fails. *)
Theorem weak_memory_safe {T} el n (c : cslab T) y e o :
  entry_layout_ok el -> with_fixed_capacity el n = Ret c -> reachable T source_orderings n y ->
  exec source_orderings y e = Some o -> exists a y', o = Ret (a, y').
Proof.
  intros Hel Hc Hy He. pose proof (capacity_bound el n c Hel Hc) as Hn.
  destruct (reachable_inv n Hn el c y Hel Hc Hy) as (s & gs & I).
  destruct (exec_returns n Hn y s gs e o I He) as (a & y' & Ho & _). eauto.
Qed.

Lemma weak_memory_safe_witness :
  exists o, exec source_orderings life_state (EReader 0 0) = Some o /\ exists a y', o = Ret (a, y').
Proof.
  eexists. split; [vm_compute; reflexivity|].
  eapply (weak_memory_safe demo_layout 2 _ life_state (EReader 0 0));
    [by_decide|reflexivity|exact life_reachable|vm_compute; reflexivity].
Defined.

(** C8 (functional). What the operations answer, however stale their loads: a
    reader gets an item only as it is in the slab, misses none that was there
    when it last synchronized and has not been marked since, and its iteration
    skips none of them; an insertion takes a free index or the slab is full,
    and a finalization returns the item that was marked. *)
Theorem weak_memory_answers {T} el n (c : cslab T) y e a y' :
  entry_layout_ok el -> with_fixed_capacity el n = Ret c -> reachable T source_orderings n y ->
  exec source_orderings y e = Some (Ret (a, y')) -> answer_ok n y e a.
Proof.
  intros Hel Hc Hy He. pose proof (capacity_bound el n c Hel Hc) as Hn.
  destruct (reachable_inv n Hn el c y Hel Hc Hy) as (s & gs & I).
  by destruct (exec_returns n Hn y s gs e _ I He) as (a' & y'' & [= <- <-] & _ & Ha).
Qed.

Lemma weak_memory_answers_witness :
  exists y', exec source_orderings life_state (EReader 0 0) = Some (Ret (AReader (RGot 0 (Some 9)), y'))
  /\ answer_ok 2 life_state (EReader 0 0) (AReader (RGot 0 (Some 9))).
Proof.
  eexists. split; [vm_compute; reflexivity|].
  eapply (weak_memory_answers demo_layout 2 _ life_state (EReader 0 0));
    [by_decide|reflexivity|exact life_reachable|vm_compute; reflexivity].
Defined.

(** C9 (safety). The orderings of the source are exactly the ones that are
    needed.  With them no state of any slab has a data race, neither of the
    writer nor of a reader, whatever the loads return.  With any of the release
    stores of [insert] and [mark_removed] or the acquire load of the readers
    relaxed, whatever the others are, a slab of two slots has a state in which
    a reader, inside of [get], is about to read an entry of which there is a
    write that does not happen before, and that access is undefined
    behaviour. *)
Theorem orderings_exact :
  (forall (T : Type) el n (c : cslab T) y,
    entry_layout_ok el -> with_fixed_capacity el n = Ret c -> reachable T source_orderings n y ->
    writer_races y = false /\ forall k, reader_races y k = false)
  /\ (forall ord, ord <> source_orderings ->
    exists y i, reachable Z ord 2 y /\ reading_entry y 0 = Some i /\ reader_races y 0 = true
      /\ exec ord y (EReader 0 0) = Some UB).
Proof.
  split.
  - intros T el n c y Hel Hc Hy. pose proof (capacity_bound el n c Hel Hc) as Hn.
    destruct (reachable_inv n Hn el c y Hel Hc Hy) as (s & gs & I).
    split; [|intros k]; apply not_true_is_false; intros Hr.
    + apply (writer_races_ub source_orderings _ 0%nat) in Hr. by destruct (exec_returns n Hn y s gs _ _ I Hr) as (? & ? & ? & _).
    + apply (reader_races_ub source_orderings _ _ 0%nat) in Hr. by destruct (exec_returns n Hn y s gs _ _ I Hr) as (? & ? & ? & _).
  - intros ord Hne. enough (exists (es : list (event Z)) i, races_after ord 2 es 0 i = true) as (es & i & (y & Hy & Hi & Hr)%races_after_reachable).
    { exists y, i. split; [done|]. split; [done|]. split; [done|by apply reader_races_ub]. }
    destruct ord as [[] [] []]; try done.
    all: first [exists insert_history, 0; vm_compute; reflexivity
               |exists mask_history, 1; vm_compute; reflexivity].
Qed.

(** A reader in the middle of a lookup of a slot that is in use again does not
    race, while it would if the flags were removed with a relaxed store. *)
Lemma orderings_exact_witness :
  (reading_entry life_state 0 = Some 0 /\ reader_races life_state 0 = false)
  /\ exists y i, reachable Z (mkOrd true false true) 2 y /\ reading_entry y 0 = Some i /\ reader_races y 0 = true.
Proof.
  split; [split; [vm_compute; reflexivity|]|].
  - by apply (proj1 orderings_exact Z demo_layout 2 _ life_state ltac:(by_decide) eq_refl life_reachable).
  - destruct (proj2 orderings_exact (mkOrd true false true)) as (y & i & ? & ? & ? & _); [done|]. by exists y, i.
Defined.

(** C23 (termination). Every operation is wait-free: in every reachable state
    the running operation of a reader has at most one access per word of the
    bitmap and two more left, that of the writer at most six, whatever its loads
    return; it is never blocked, whatever the others are in the middle of; and
    each of its accesses answers or leaves one less. *)
Theorem operations_wait_free {T} el n (c : cslab T) y :
  entry_layout_ok el -> with_fixed_capacity el n = Ret c -> reachable T source_orderings n y ->
  (forall k p, reader_runs k y p ->
    wait_free source_orderings y p (S (S (Z.to_nat (words n)))) (EReader k) (reader_runs k))
  /\ (forall t p, writer_runs t y p ->
    wait_free source_orderings y p 6 EWriter (writer_runs t)).
Proof.
  intros Hel Hc Hy. pose proof (capacity_bound el n c Hel Hc) as Hn.
  destruct (reachable_inv n Hn el c y Hel Hc Hy) as (s & gs & I).
  pose proof (reachable_bounded n Hn el c y Hel Hc Hy) as B.
  assert (forall e o, exec source_orderings y e = Some o -> exists a y', o = Ret (a, y')) as Hret.
  { intros e o He. destruct (exec_returns n Hn y s gs e o I He) as (a & y' & Ho & _). eauto. }
  split.
  - intros k p (r & Hr & Hp). apply (reader_wait_free source_orderings n y k r p); try done.
    intros l. eapply hist_below; [apply I|]. destruct (sinv_ghost n y s gs k r I Hr) as (g & _ & Hrel & _ & Hok).
    rewrite <- (rr_view _ _ _ Hrel). apply Hok.
  - intros t p Hp. apply (writer_wait_free source_orderings n y t p); try done.
    intros l. eapply hist_below; [apply I|done].
Qed.

(** A reader in the middle of a lookup. *)
Lemma operations_wait_free_witness :
  exists p, reader_runs 0 life_state p
  /\ wait_free source_orderings life_state p 3 (EReader 0) (reader_runs 0).
Proof.
  assert (exists p, reader_runs 0 life_state p) as [p Hp]
    by (unfold reader_runs; vm_compute; do 2 eexists; split; reflexivity).
  exists p. split; [exact Hp|].
  apply (proj1 (operations_wait_free demo_layout 2 _ life_state ltac:(by_decide) eq_refl life_reachable) 0%nat p Hp).
Defined.

(** Run alone, access by access, the operations compute what
    the atomic operations compute, on every storage of the right shape: results,
    panics, undefined behaviour, and the state that is left. *)
Theorem sequential_agreement {T} n (ord : orderings) (s : storage T) h t i it :
  storage_shape n s -> h_size h = n ->
  (x ← run_alone (insert_prog ord h t) s; Ret (as_slab x)) = insert (slab_of h s) t
  /\ ('(h', s') ← run_alone (mark_removed_prog ord h i) s; Ret (slab_of h' s')) = mark_removed (slab_of h s) i
  /\ (x ← run_alone (finalize_remove_prog h i) s; Ret (as_slab x)) = finalize_remove (slab_of h s) i
  /\ run_alone (get_prog ord n i) s = (o ← get_impl s i; Ret (o, s))
  /\ run_alone (contains_key_prog ord n i) s = (b ← contains_key_impl s i; Ret (b, s))
  /\ run_alone (get_unchecked_prog n i) s = (x ← get_unchecked_impl s i; Ret (x, s))
  /\ run_alone (iter_new_prog n) s = (j ← iter_new s; Ret (j, s))
  /\ run_alone (iter_next_prog ord (scan_fuel n) n it) s = (y ← iter_next s it; Ret (y, s))
  /\ run_alone (iter_next_back_prog ord (scan_fuel n) n it) s = (y ← iter_next_back s it; Ret (y, s)).
Proof.
  intros Hs Hh. split; [by eapply insert_alone|]. split; [by eapply mark_alone|].
  split; [by eapply finalize_alone|]. split; [by eapply get_alone|]. split; [by eapply contains_alone|].
  split; [by eapply get_unchecked_alone|]. split; [by eapply iter_new_alone|].
  split; [by eapply iter_next_alone|by eapply iter_next_back_alone].
Qed.

Lemma sequential_agreement_witness :
  exists h, slab_of h (slab_storage demo_slab) = demo_slab
  /\ (x ← run_alone (insert_prog source_orderings h 15) (slab_storage demo_slab); Ret (as_slab x))
     = insert demo_slab 15
  /\ exists i c', insert demo_slab 15 = Ret (Ok i, c').
Proof.
  exists (mkHeader 70 (first_free demo_slab) (in_use demo_slab) (allocated demo_slab)).
  split; [reflexivity|]. split; [|do 2 eexists; vm_compute; reflexivity].
  apply (sequential_agreement 70 source_orderings (slab_storage demo_slab) (mkHeader 70 _ _ _) 15 0 (mkIter 0 0));
    [|reflexivity].
  split; [by_decide|]. split; [reflexivity|]. split; reflexivity.
Defined.
