(* ===== verification/RcuWeak.v ===== *)
(** The RCU-friendly slab under concurrent use, one memory access at a time: what
    [RcuCslab], its [RcuCslabReader]s on any threads and the drops of generations
    of cslab/src/lib.rs do with the shared storage of Weak.v.

    The mutex of the [Cslab] and the counts of the [Arc]s have the orderings of
    the standard library: locking gets the view that unlocking passes on; a
    decrement is a release, the last one also an acquire, and an increment is
    relaxed.  A thread is the handle that it uses, or the drop that it runs: the
    drop of a generation has its own view, so that what runs on the same thread
    is only known to follow it when a [CGossip] says so. *)

From S2P Require Import Prelude CslabStorage Cslab CslabIter Weak WeakCslab WeakSystem.

(** The drop of an [Arc<RcuCslabGen>]: releasing the reference; then, for the
    last one, finalizing, which takes the lock; then freeing the generation. *)
Inductive phase : Type := Releasing | Finalizing | Locked | Freeing.

#[global] Instance phase_eq_dec : EqDecision phase.
Proof. solve_decision. Defined.

Record drop_task := mkTask { dt_gen : nat; dt_view : view; dt_phase : phase }.

Section system.
Context {T : Type} (ord : orderings).

(** An [Arc<RcuCslabGen>]: its count, the view that the decrements of the count
    pass on, and the [RcuCslabGenInner]. *)
Record arc_gen := mkArcGen {
  ag_strong : nat;
  ag_view : view;
  ag_pending : list Z;
  ag_next : option nat;
}.

(** An [RcuCslabReader], or the [RcuCslab] itself, on the thread that uses it. *)
Record handle := mkHandle {
  hd_gen : nat;
  hd_view : view;
  hd_held : gset Z;                    (* the items it has found and may still read *)
  hd_iter : option iter;
  hd_prog : option (prog T (rresp T));
}.

(** What is done under the lock; for a drop, with the indexes that it has still
    to finalize after this one, and the items that it has collected. *)
Inductive locked_op : Type :=
| OInsert (t : T)
| OMark (i : Z)
| OVacant                              (* a [VacantRcuEntry] holds the lock; no access *)
| OFill (t : T)                        (* [VacantRcuEntry::insert] *)
| OFinalize (j : nat) (rest : list Z) (drops : list T).

Record critical := mkCritical {
  k_op : locked_op;
  k_view : view;                       (* of the thread that holds the lock *)
  k_prog : prog T (header * wresp T);
}.

Record rsys := mkRSys {
  x_mem : mem T;
  x_header : header;                   (* in the mutex *)
  x_lock_view : view;                  (* what unlocking has passed on *)
  x_crit : option critical;
  x_gens : gmap nat arc_gen;
  x_next_gen : nat;
  x_handles : gmap nat handle;
  x_owner : option nat;                (* the [RcuCslab] among them *)
  x_push : option Z;                   (* marked by the [RcuCslab], not yet in [pending_removes] *)
  x_tasks : gmap nat drop_task;
  x_fresh : nat;                       (* names handles and drops *)
}.

(** [RcuCslab::with_fixed_capacity] *)
Definition rsys_new (size : Z) : rsys :=
  mkRSys mem_new (mkHeader size 0 0 0) vbot None {[ 0%nat := mkArcGen 1 vbot [] None ]} 1
    {[ 0%nat := mkHandle 0 vbot ∅ None None ]} (Some 0%nat) None ∅ 1.

Definition rset_mem (m : mem T) (x : rsys) : rsys :=
  mkRSys m (x_header x) (x_lock_view x) (x_crit x) (x_gens x) (x_next_gen x) (x_handles x)
    (x_owner x) (x_push x) (x_tasks x) (x_fresh x).
Definition set_lock (h : header) (V : view) (c : option critical) (x : rsys) : rsys :=
  mkRSys (x_mem x) h V c (x_gens x) (x_next_gen x) (x_handles x)
    (x_owner x) (x_push x) (x_tasks x) (x_fresh x).
Definition set_crit (c : option critical) (x : rsys) : rsys := set_lock (x_header x) (x_lock_view x) c x.
Definition set_gens (gs : gmap nat arc_gen) (x : rsys) : rsys :=
  mkRSys (x_mem x) (x_header x) (x_lock_view x) (x_crit x) gs (x_next_gen x) (x_handles x)
    (x_owner x) (x_push x) (x_tasks x) (x_fresh x).
Definition set_next_gen (n : nat) (x : rsys) : rsys :=
  mkRSys (x_mem x) (x_header x) (x_lock_view x) (x_crit x) (x_gens x) n (x_handles x)
    (x_owner x) (x_push x) (x_tasks x) (x_fresh x).
Definition set_handles (hs : gmap nat handle) (x : rsys) : rsys :=
  mkRSys (x_mem x) (x_header x) (x_lock_view x) (x_crit x) (x_gens x) (x_next_gen x) hs
    (x_owner x) (x_push x) (x_tasks x) (x_fresh x).
Definition set_owner (o : option nat) (x : rsys) : rsys :=
  mkRSys (x_mem x) (x_header x) (x_lock_view x) (x_crit x) (x_gens x) (x_next_gen x) (x_handles x)
    o (x_push x) (x_tasks x) (x_fresh x).
Definition set_push (i : option Z) (x : rsys) : rsys :=
  mkRSys (x_mem x) (x_header x) (x_lock_view x) (x_crit x) (x_gens x) (x_next_gen x) (x_handles x)
    (x_owner x) i (x_tasks x) (x_fresh x).
Definition set_tasks (ts : gmap nat drop_task) (x : rsys) : rsys :=
  mkRSys (x_mem x) (x_header x) (x_lock_view x) (x_crit x) (x_gens x) (x_next_gen x) (x_handles x)
    (x_owner x) (x_push x) ts (x_fresh x).
Definition bump (x : rsys) : rsys :=
  mkRSys (x_mem x) (x_header x) (x_lock_view x) (x_crit x) (x_gens x) (x_next_gen x) (x_handles x)
    (x_owner x) (x_push x) (x_tasks x) (S (x_fresh x)).

Definition put_handle (k : nat) (h : handle) (x : rsys) : rsys := set_handles (<[k := h]> (x_handles x)) x.
Definition put_gen (g : nat) (w : arc_gen) (x : rsys) : rsys := set_gens (<[g := w]> (x_gens x)) x.
Definition put_task (j : nat) (d : drop_task) (x : rsys) : rsys := set_tasks (<[j := d]> (x_tasks x)) x.

(** A new drop, of a reference of [h]. *)
Definition spawn_drop (h : handle) (x : rsys) : rsys :=
  bump (put_task (x_fresh x) (mkTask (hd_gen h) (hd_view h) Releasing) x).

Definition hset_view (V : view) (h : handle) : handle :=
  mkHandle (hd_gen h) V (hd_held h) (hd_iter h) (hd_prog h).
Definition hset_prog (p : option (prog T (rresp T))) (h : handle) : handle :=
  mkHandle (hd_gen h) (hd_view h) (hd_held h) (hd_iter h) p.
Definition hset_held (l : gset Z) (it : option iter) (h : handle) : handle :=
  mkHandle (hd_gen h) (hd_view h) l it (hd_prog h).
Definition hset_gen (g : nat) (h : handle) : handle :=
  mkHandle g (hd_view h) (hd_held h) (hd_iter h) (hd_prog h).

(** What a [&mut] call leaves of the references that were borrowed. *)
Definition end_borrows (h : handle) : handle := hset_held ∅ None h.

Definition aset_strong (k : nat) (V : view) (w : arc_gen) : arc_gen :=
  mkArcGen k V (ag_pending w) (ag_next w).
Definition aset_inner (l : list Z) (n : option nat) (w : arc_gen) : arc_gen :=
  mkArcGen (ag_strong w) (ag_view w) l n.

Inductive revent : Type :=
| CInsert (t : T)
| CMark (i : Z)
| CPush                        (* the second half of [mark_removed] *)
| CVacant                      (* [vacant_entry] *)
| CKey                         (* [key], [insert] and the drop of the entry *)
| CFill (t : T)
| CUnlock
| CLen                         (* [len], [allocated] or [vacant_key] *)
| CAdvance                     (* [advance_generation] *)
| CDropRcu
| CCrit (choice : nat)         (* an access under the lock *)
| CTask (j : nat)              (* a step of a drop *)
| CClone (k : nat)             (* of a reader; [reader], of the [RcuCslab] *)
| CDrop (k : nat)
| CGet (k : nat) (i : Z)
| CContains (k : nat) (i : Z)
| CUnchecked (k : nat) (i : Z)
| CIter (k : nat)
| CNext (k : nat) (front : bool)
| CRead (k : nat) (choice : nat)      (* an access of a reader *)
| CForget (k : nat) (i : Z)           (* a reference to an item ends *)
| CGossip (k k' : nat).               (* any other synchronization *)

Inductive ransw : Type :=
| RStep
| RHeader (h : header)
| RWriter (r : wresp T)
| RReader (r : rresp T)
| RDropped (l : list T)
| RVacant (r : result unit unit)
| RKey (i : Z).

(** ** Under the lock *)

(** Unlocking, by the [RcuCslab]. *)
Definition unlock_owner (h : header) (V : view) (x : rsys) : rsys :=
  let x := set_lock h V None x in
  match x_owner x with
  | Some o => set_handles (alter (fun hd => hset_view (vjoin (hd_view hd) V) hd) o (x_handles x)) x
  | None => x
  end.

(** Unlocking, by a drop. *)
Definition unlock_drop (j : nat) (h : header) (V : view) (x : rsys) : rsys :=
  set_tasks (alter (fun d => mkTask (dt_gen d) V Freeing) j (x_tasks x)) (set_lock h V None x).

(** [RcuCslabGen::drop]: one [finalize_remove] after the other. *)
Fixpoint finalize_from (j : nat) (l : list Z) (drops : list T) (V : view) (h : header) (x : rsys)
  : outcome (ransw * rsys) :=
  match l with
  | [] => Ret (RDropped drops, unlock_drop j h V x)
  | i :: rest =>
      match finalize_op h i with
      | PDone o => '(h', r) ← o;
          finalize_from j rest (drops ++ match r with WFinalized t => [t] | _ => [] end) V h' x
      | p => Ret (RStep, set_lock h (x_lock_view x) (Some (mkCritical (OFinalize j rest drops) V p)) x)
      end
  end.

(** An operation that has reached its end, and one that has not. *)
Definition finish_crit (op : locked_op) (V : view) (res : header * wresp T) (x : rsys)
  : outcome (ransw * rsys) :=
  match op with
  | OInsert _ => Ret (RWriter res.2, unlock_owner res.1 V x)
  | OMark i => Ret (RWriter res.2, set_push (Some i) (unlock_owner res.1 V x))
  | OVacant => Ret (RStep, unlock_owner res.1 V x)
  | OFill _ =>
      match res.2 with
      | WInserted (Ok _) => Ret (RWriter res.2, unlock_owner res.1 V x)
      | _ => Panic                     (* unwrap *)
      end
  | OFinalize j rest drops =>
      finalize_from j rest (drops ++ match res.2 with WFinalized t => [t] | _ => [] end) V res.1 x
  end.

Definition run_crit (op : locked_op) (V : view) (p : prog T (header * wresp T)) (x : rsys)
  : outcome (ransw * rsys) :=
  match p with
  | PDone o => res ← o; finish_crit op V res x
  | _ => Ret (RStep, set_crit (Some (mkCritical op V p)) x)
  end.

(** ** The calls *)

(** Whether the [RcuCslab] is in the middle of a call. *)
Definition owner_busy (x : rsys) : bool :=
  match x_push x with Some _ => true | None => false end
  || match x_crit x with
     | Some c => match k_op c with OFinalize _ _ _ => false | _ => true end
     | None => false
     end.

(** A handle, between two calls. *)
Definition idle (x : rsys) (k : nat) : option handle :=
  h ← x_handles x !! k;
  match hd_prog h with
  | None => if bool_decide (x_owner x = Some k) && owner_busy x then None else Some h
  | Some _ => None
  end.

Definition idle_owner (x : rsys) : option (nat * handle) :=
  o ← x_owner x; h ← idle x o; Some (o, h).

(** [self.writer.lock()], by the [RcuCslab]. *)
Definition lock_owner (op : locked_op) (p : header -> prog T (header * wresp T)) (x : rsys)
  : option (outcome (ransw * rsys)) :=
  '(o, h) ← idle_owner x;
  match x_crit x with
  | Some _ => None
  | None =>
      Some (run_crit op (vjoin (x_lock_view x) (hd_view h)) (p (x_header x))
              (put_handle o (end_borrows h) x))
  end.

(** [Cslab::vacant_key] *)
Definition header_key (c : header) : result Z unit :=
  let idx := h_first_free c in if idx >=? h_size c then Err tt else Ok idx.

(** A [VacantRcuEntry] between its calls: nothing is left to do but to unlock. *)
Definition no_access (c : header) : prog T (header * wresp T) := mret (c, WInserted (Err tt)).

(** [RcuCslab::vacant_entry]: the entry keeps the lock. *)
Definition lock_vacant (x : rsys) : option (outcome (ransw * rsys)) :=
  '(o, h) ← idle_owner x;
  match x_crit x with
  | Some _ => None
  | None =>
      let V := vjoin (x_lock_view x) (hd_view h) in
      let x := put_handle o (end_borrows h) x in
      Some (Ret match header_key (x_header x) with
                | Err _ => (RVacant (Err tt), unlock_owner (x_header x) V x)
                | Ok _ => (RVacant (Ok tt), set_crit (Some (mkCritical OVacant V (no_access (x_header x)))) x)
                end)
  end.

(** The calls on it. *)
Definition exec_vacant (x : rsys) (e : revent) : option (outcome (ransw * rsys)) :=
  c ← x_crit x;
  match k_op c, e with
  | OVacant, CKey =>
      Some match header_key (x_header x) with
           | Ok i => Ret (RKey i, x)
           | Err _ => Panic            (* unwrap *)
           end
  | OVacant, CFill t => Some (run_crit (OFill t) (k_view c) (insert_op ord (x_header x) t) x)
  | OVacant, CUnlock => Some (run_crit OVacant (k_view c) (no_access (x_header x)) x)
  | _, _ => None
  end.

(** [self.inner.lock().unwrap().pending_removes.push(idx)], the second half of
    [RcuCslabGen::mark_removed]. *)
Definition push_pending (x : rsys) : option (outcome (ransw * rsys)) :=
  i ← x_push x; o ← x_owner x; h ← x_handles x !! o;
  Some match x_gens x !! hd_gen h with
       | None => UB
       | Some w =>
           Ret (RStep, set_push None (put_gen (hd_gen h) (aset_inner (ag_pending w ++ [i]) (ag_next w) w) x))
       end.

(** [len], [allocated] and [vacant_key] look at the header under the lock. *)
Definition locked_header (x : rsys) : option (outcome (ransw * rsys)) :=
  '(o, h) ← idle_owner x;
  match x_crit x with
  | Some _ => None
  | None =>
      let V := vjoin (x_lock_view x) (hd_view h) in
      Some (Ret (RHeader (x_header x), unlock_owner (x_header x) V x))
  end.

(** [RcuCslab::advance_generation]: the new generation is the next one of the
    old, and the [RcuCslab]'s; its reference to the old one is dropped. *)
Definition next_generation (x : rsys) : option (outcome (ransw * rsys)) :=
  '(o, h) ← idle_owner x;
  Some match x_gens x !! hd_gen h with
       | None => UB
       | Some w =>
           match ag_next w with
           | Some _ => Panic           (* debug_assert! *)
           | None =>
               let n := x_next_gen x in
               Ret (RStep,
                 spawn_drop h (put_handle o (hset_gen n (end_borrows h))
                   (put_gen n (mkArcGen 2 vbot [] None)
                      (put_gen (hd_gen h) (aset_inner (ag_pending w) (Some n) w)
                         (set_next_gen (S n) x)))))
           end
       end.

(** The end of the [RcuCslab]. *)
Definition end_rcu (x : rsys) : option (outcome (ransw * rsys)) :=
  '(o, h) ← idle_owner x;
  Some (Ret (RStep, spawn_drop h (set_owner None (set_handles (delete o (x_handles x)) x)))).

Definition exec_owner (x : rsys) (e : revent) : option (outcome (ransw * rsys)) :=
  match e with
  | CInsert t => lock_owner (OInsert t) (fun c => insert_op ord c t) x
  | CMark i => if decide (0 <= i) then lock_owner (OMark i) (fun c => mark_op ord c i) x else None
  | CPush => push_pending x
  | CVacant => lock_vacant x
  | CKey | CFill _ | CUnlock => exec_vacant x e
  | CLen => locked_header x
  | CAdvance => next_generation x
  | CDropRcu => end_rcu x
  | _ => None
  end.

(** ** The drop of a generation *)

(** The decrement: a release, and for the last reference an acquire. *)
Definition release_ref (j : nat) (d : drop_task) (x : rsys) : outcome (ransw * rsys) :=
  let g := dt_gen d in
  match x_gens x !! g with
  | None => UB
  | Some w =>
      match ag_strong w with
      | O => UB
      | S n =>
          let V := vjoin (ag_view w) (dt_view d) in
          let x := put_gen g (aset_strong n V w) x in
          Ret (RStep,
            if decide (n = 0%nat) then put_task j (mkTask g (vjoin (dt_view d) V) Finalizing) x
            else set_tasks (delete j (x_tasks x)) x)
      end
  end.

(** [RcuCslabGen::drop], with the lock. *)
Definition finalize_pending (j : nat) (d : drop_task) (x : rsys) : outcome (ransw * rsys) :=
  let g := dt_gen d in
  match x_gens x !! g with
  | None => UB
  | Some w =>
      finalize_from j (ag_pending w) [] (vjoin (x_lock_view x) (dt_view d)) (x_header x)
        (put_task j (mkTask g (dt_view d) Locked) x)
  end.

(** The drop of the fields, [next_gen] among them. *)
Definition free_fields (j : nat) (d : drop_task) (x : rsys) : outcome (ransw * rsys) :=
  let g := dt_gen d in
  match x_gens x !! g with
  | None => UB
  | Some w =>
      let x := set_gens (delete g (x_gens x)) x in
      Ret (RStep,
        match ag_next w with
        | Some n => put_task j (mkTask n (dt_view d) Releasing) x
        | None => set_tasks (delete j (x_tasks x)) x
        end)
  end.

Definition exec_task (x : rsys) (j : nat) : option (outcome (ransw * rsys)) :=
  d ← x_tasks x !! j;
  match dt_phase d with
  | Releasing => Some (release_ref j d x)
  | Finalizing => match x_crit x with Some _ => None | None => Some (finalize_pending j d x) end
  | Locked => None
  | Freeing => Some (free_fields j d x)
  end.

(** ** The calls on a handle *)

(** A clone of a reader, or [RcuCslab::reader]: a relaxed increment. *)
Definition clone_handle (h : handle) (x : rsys) : outcome (ransw * rsys) :=
  match x_gens x !! hd_gen h with
  | None => UB
  | Some w =>
      Ret (RStep,
        bump (put_handle (x_fresh x) (mkHandle (hd_gen h) (hd_view h) ∅ None None)
          (put_gen (hd_gen h) (aset_strong (S (ag_strong w)) (ag_view w) w) x)))
  end.

Definition finish_handle (res : rresp T) (h : handle) : handle :=
  hset_prog None (hset_held (hd_held h ∪ found res)
    (match res with RIterNew it => Some it | RNext _ _ (_, it) => Some it | _ => hd_iter h end) h).

Definition run_handle (k : nat) (p : prog T (rresp T)) (h : handle) (x : rsys) : outcome (ransw * rsys) :=
  match p with
  | PDone o => res ← o; Ret (RReader res, put_handle k (finish_handle res h) x)
  | _ => Ret (RStep, put_handle k (hset_prog (Some p) h) x)
  end.

Definition exec_handle (x : rsys) (e : revent) : option (outcome (ransw * rsys)) :=
  let n := h_size (x_header x) in
  match e with
  | CClone k => h ← idle x k; Some (clone_handle h x)
  | CDrop k =>
      h ← idle x k;
      if decide (x_owner x = Some k) then None
      else Some (Ret (RStep, spawn_drop h (set_handles (delete k (x_handles x)) x)))
  | CGet k i => h ← idle x k; if decide (0 <= i) then Some (run_handle k (get_op ord n i) h x) else None
  | CContains k i =>
      h ← idle x k; if decide (0 <= i) then Some (run_handle k (contains_op ord n i) h x) else None
  | CUnchecked k i =>
      h ← idle x k; if decide (i ∈ hd_held h) then Some (run_handle k (unchecked_op n i) h x) else None
  | CIter k => h ← idle x k; Some (run_handle k (iter_new_op n) h x)
  | CNext k front => h ← idle x k; it ← hd_iter h; Some (run_handle k (next_op ord n front it) h x)
  | CRead k choice =>
      h ← x_handles x !! k; p ← hd_prog h;
      o ← prog_step (x_mem x) (hd_view h) p choice;
      Some ('(m, V, p') ← o; run_handle k p' (hset_view V h) (rset_mem m x))
  | CForget k i =>
      h ← idle x k; Some (Ret (RStep, put_handle k (hset_held (hd_held h ∖ {[ i ]}) (hd_iter h) h) x))
  | CGossip k k' =>
      h ← idle x k; h' ← idle x k';
      Some (Ret (RStep, put_handle k' (hset_view (vjoin (hd_view h') (hd_view h)) h') x))
  | _ => None
  end.

Definition rexec (x : rsys) (e : revent) : option (outcome (ransw * rsys)) :=
  match e with
  | CCrit choice =>
      c ← x_crit x;
      o ← prog_step (x_mem x) (k_view c) (k_prog c) choice;
      Some ('(m, V, p) ← o; run_crit (k_op c) V p (rset_mem m x))
  | CTask j => exec_task x j
  | CInsert _ | CMark _ | CPush | CVacant | CKey | CFill _ | CUnlock | CLen | CAdvance | CDropRcu => exec_owner x e
  | _ => exec_handle x e
  end.

Inductive rreachable (size : Z) : rsys -> Prop :=
| rreach_new : rreachable size (rsys_new size)
| rreach_step x e a x' : rreachable size x -> rexec x e = Some (Ret (a, x')) -> rreachable size x'.
End system.
Arguments handle : clear implicits.
Arguments locked_op : clear implicits.
Arguments critical : clear implicits.
Arguments rsys : clear implicits.
Arguments revent : clear implicits.
Arguments ransw : clear implicits.
Arguments rreachable : clear implicits.
