(* ===== verification/RcuWeakProto.v ===== *)
(** The counts of the generations under concurrent use: which generations are
    alive, who holds a reference to each, and that the drops follow their order. *)

From S2P Require Import Prelude CslabStorage Cslab CslabIter Weak WeakCslab WeakSystem RcuWeak.

(** ** Counting the values of a map *)

Lemma alter_Some {A} (f : A -> A) (m : gmap nat A) k a : m !! k = Some a -> alter f k m = <[k := f a]> m.
Proof.
  intros Hk. apply map_eq. intros j. destruct (decide (j = k)) as [->|].
  - by rewrite lookup_alter_eq, lookup_insert_eq, Hk.
  - by rewrite lookup_alter_ne, lookup_insert_ne.
Qed.

Section count.
Context {A : Type} (f : A -> bool).
Implicit Types m : gmap nat A.

Definition count m : nat := base.size (base.filter (fun kv => f kv.2 = true) m).

Lemma count_insert m k a : m !! k = None -> count (<[k := a]> m) = ((if f a then 1 else 0) + count m)%nat.
Proof.
  intros Hk. unfold count. destruct (f a) eqn:Hf.
  - rewrite map_filter_insert_True by done. rewrite map_size_insert_None; [done|].
    apply map_lookup_filter_None. by left.
  - rewrite map_filter_insert_False by (cbn; congruence). by rewrite delete_id.
Qed.

Lemma count_delete m k a : m !! k = Some a -> count m = ((if f a then 1 else 0) + count (delete k m))%nat.
Proof.
  intros Hk. rewrite <- (insert_delete_id m k a Hk) at 1. apply count_insert, lookup_delete_eq.
Qed.

Lemma count_update m k a b : m !! k = Some a ->
  ((if f a then 1 else 0) + count (<[k := b]> m) = (if f b then 1 else 0) + count m)%nat.
Proof.
  intros Hk. rewrite (count_delete _ _ _ Hk), <- (insert_delete_eq m k b), count_insert by apply lookup_delete_eq.
  lia.
Qed.

Lemma count_same m k a b : m !! k = Some a -> f a = f b -> count (<[k := b]> m) = count m.
Proof. intros Hk Hf. pose proof (count_update m k a b Hk). rewrite Hf in *. lia. Qed.

Lemma count_0 m k a : count m = 0%nat -> m !! k = Some a -> f a = false.
Proof. intros Hc Hk. rewrite (count_delete _ _ _ Hk) in Hc. by destruct (f a). Qed.

Lemma count_none m : (forall k a, m !! k = Some a -> f a = false) -> count m = 0%nat.
Proof.
  intros Hm. unfold count. apply map_size_empty_iff, map_empty_filter_2.
  intros k a Hk. cbn. by rewrite (Hm k a Hk).
Qed.

End count.

(** ** The invariant *)

Section proto.
Context {T : Type}.
Implicit Types (x : rsys T) (h : handle T).

Definition of_gen (g : nat) h : bool := (hd_gen h =? g)%nat.
Definition releases (g : nat) (d : drop_task) : bool :=
  match dt_phase d with Releasing => (dt_gen d =? g)%nat | _ => false end.

(** The references to [g]: handles, drops, and the previous generation. *)
Definition refs (x : rsys T) (lo g : nat) : nat :=
  (count (of_gen g) (x_handles x) + count (releases g) (x_tasks x) + if decide (lo < g)%nat then 1 else 0)%nat.

Definition owner_op (x : rsys T) : bool :=
  match x_crit x with
  | Some c => match k_op c with OFinalize _ _ _ => false | _ => true end
  | None => false
  end.

Lemma owner_op_busy x : owner_op x = true -> owner_busy x = true.
Proof. unfold owner_busy, owner_op. intros ->. apply orb_true_r. Qed.

(** The generations alive are [lo] and those after it; a drop that is past its
    release is the only one, and of [lo]. *)
Record proto (x : rsys T) (lo : nat) : Prop := {
  pr_gens g : is_Some (x_gens x !! g) <-> (lo <= g < x_next_gen x)%nat;
  pr_next g w : x_gens x !! g = Some w ->
    ag_next w = if decide (S g < x_next_gen x)%nat then Some (S g) else None;
  pr_count g w : x_gens x !! g = Some w -> ag_strong w = refs x lo g;
  pr_handle k h : x_handles x !! k = Some h -> (lo <= hd_gen h < x_next_gen x)%nat;
  pr_owner o : x_owner x = Some o -> exists h, x_handles x !! o = Some h
    /\ S (hd_gen h) = x_next_gen x /\ (owner_busy x = true -> hd_prog h = None);
  pr_no_owner : x_owner x = None -> owner_busy x = false;
  pr_push : x_push x <> None -> owner_op x = false;
  pr_release j d : x_tasks x !! j = Some d -> dt_phase d = Releasing -> (lo <= dt_gen d < x_next_gen x)%nat;
  pr_front j d : x_tasks x !! j = Some d -> dt_phase d <> Releasing ->
    dt_gen d = lo /\ exists w, x_gens x !! lo = Some w /\ ag_strong w = 0%nat;
  pr_one j d j' d' : x_tasks x !! j = Some d -> dt_phase d <> Releasing ->
    x_tasks x !! j' = Some d' -> dt_phase d' <> Releasing -> j = j';
  pr_locked j d : x_tasks x !! j = Some d -> dt_phase d = Locked ->
    exists rest drops V p, x_crit x = Some (mkCritical (OFinalize j rest drops) V p);
  pr_crit c j rest drops : x_crit x = Some c -> k_op c = OFinalize j rest drops ->
    exists d, x_tasks x !! j = Some d /\ dt_phase d = Locked;
  pr_fresh k : (x_fresh x <= k)%nat -> x_handles x !! k = None /\ x_tasks x !! k = None;
}.

(** The generation whose count has come to zero has no references at all. *)
Lemma proto_dead x lo g w : proto x lo -> x_gens x !! g = Some w -> ag_strong w = 0%nat ->
  g = lo
  /\ (forall k h, x_handles x !! k = Some h -> hd_gen h <> g)
  /\ (forall j d, x_tasks x !! j = Some d -> dt_phase d = Releasing -> dt_gen d <> g).
Proof.
  intros P Hg H0. rewrite (pr_count _ _ P g w Hg) in H0. unfold refs in H0.
  assert (lo <= g < x_next_gen x)%nat as Hlo by (apply (pr_gens _ _ P); by eexists).
  split; [case_decide; lia|]. split.
  - intros k h Hk. assert (of_gen g h = false) as Hf by (eapply count_0; [|done]; lia).
    by apply Nat.eqb_neq in Hf.
  - intros j d Hj Hph. assert (releases g d = false) as Hf by (eapply count_0; [|done]; lia).
    unfold releases in Hf. rewrite Hph in Hf. by apply Nat.eqb_neq in Hf.
Qed.

Lemma proto_new n : proto (rsys_new n) 0.
Proof.
  split; cbn.
  - intros g. rewrite lookup_singleton_is_Some. lia.
  - intros g w [<- <-]%lookup_singleton_Some. done.
  - intros g w [<- <-]%lookup_singleton_Some. reflexivity.
  - intros k h [<- <-]%lookup_singleton_Some. cbn. lia.
  - intros o [= <-]. eexists. split; [apply lookup_singleton_eq|]. split; [done|]. done.
  - done.
  - done.
  - intros j d Hj. by rewrite lookup_empty in Hj.
  - intros j d Hj. by rewrite lookup_empty in Hj.
  - intros j d j' d' Hj. by rewrite lookup_empty in Hj.
  - intros j d Hj. by rewrite lookup_empty in Hj.
  - done.
  - intros k Hk. split; [|apply lookup_empty]. apply lookup_singleton_ne. lia.
Qed.

(** ** The parts of a step *)

Lemma proto_mem x lo m : proto x lo -> proto (rset_mem m x) lo.
Proof. intros []. by split. Qed.

(** Using a handle. *)
Lemma proto_put_handle x lo k h h' :
  proto x lo -> x_handles x !! k = Some h -> hd_gen h' = hd_gen h ->
  (x_owner x = Some k -> owner_busy x = true -> hd_prog h' = None) ->
  proto (put_handle k h' x) lo.
Proof.
  intros P Hk Hg Hb. destruct P. split; cbn; try done.
  - intros g w Hw. rewrite (pr_count0 g w Hw). unfold refs. cbn.
    rewrite (count_same _ _ k h h'); [done|done|]. unfold of_gen. by rewrite Hg.
  - intros k' h0. rewrite lookup_insert_Some. intros [[<- <-]|[_ Hk']]; [rewrite Hg; by eapply pr_handle0|by eapply pr_handle0].
  - intros o Ho. destruct (pr_owner0 o Ho) as (ho & Hho & Hgo & Hbo). destruct (decide (o = k)) as [->|Hne].
    + rewrite Hk in Hho. injection Hho as <-. exists h'. rewrite lookup_insert_eq, Hg. split; [done|]. split; [done|].
      intros Hbusy. by apply Hb.
    + exists ho. by rewrite lookup_insert_ne.
  - intros k' Hk'. destruct (pr_fresh0 k' Hk') as [Hn Ht]. split; [|done].
    rewrite lookup_insert_ne; [done|]. congruence.
Qed.

(** Taking the lock, holding it, and releasing it, by the [RcuCslab]. *)
Lemma proto_owner_crit x lo hd V c :
  proto x lo -> (x_crit x = None \/ owner_op x = true) ->
  match c with
  | Some c => x_push x = None
      /\ (forall j rest drops, k_op c <> OFinalize j rest drops)
      /\ exists o h, x_owner x = Some o /\ x_handles x !! o = Some h /\ hd_prog h = None
  | None => True
  end -> proto (set_lock hd V c x) lo.
Proof.
  intros P Hold Hc.
  assert (forall j rest drops V p, x_crit x <> Some (mkCritical (OFinalize j rest drops) V p)) as Hno.
  { intros j rest drops V' p Heq. destruct Hold as [?|Hop]; [congruence|]. unfold owner_op in Hop. by rewrite Heq in Hop. }
  destruct P. split; cbn; try done.
  - intros o Ho. destruct (pr_owner0 o Ho) as (h & Hh & Hg & Hb). exists h. split; [done|]. split; [done|].
    unfold owner_busy in *. cbn in *. intros Hbusy. destruct c as [c|].
    + destruct Hc as (_ & _ & o' & h' & Ho' & Hh' & Hp). congruence.
    + rewrite orb_false_r in Hbusy. apply Hb. by rewrite Hbusy.
  - intros Ho. specialize (pr_no_owner0 Ho). unfold owner_busy in *. cbn in *.
    apply orb_false_iff in pr_no_owner0 as [Hp _]. rewrite Hp. cbn. destruct c as [c|]; [|done].
    destruct Hc as (_ & _ & o' & h' & Ho' & _). congruence.
  - intros Hp. unfold owner_op. cbn. destruct c as [c|]; [|done]. by destruct Hc as (Hp' & _).
  - intros j d Hj Hph. destruct (pr_locked0 j d Hj Hph) as (rest & drops & V' & p & Heq). by apply Hno in Heq.
  - intros c0 j rest drops Heq Hop. destruct c as [c|]; [|done]. injection Heq as ->.
    destruct Hc as (_ & Hne & _). by apply Hne in Hop.
Qed.

Lemma proto_push x lo i :
  proto x lo -> x_crit x = None -> x_push x = None ->
  (exists o h, x_owner x = Some o /\ x_handles x !! o = Some h /\ hd_prog h = None) ->
  proto (set_push (Some i) x) lo.
Proof.
  intros P Hc Hp (o & h & Ho & Hh & Hpr). destruct P. split; cbn; try done.
  - intros o' Ho'. destruct (pr_owner0 o' Ho') as (h' & Hh' & Hg & _). exists h'. split; [done|]. split; [done|].
    intros _. congruence.
  - congruence.
  - intros _. unfold owner_op. cbn. by rewrite Hc.
Qed.

Lemma proto_end_push x lo : proto x lo -> proto (set_push None x) lo.
Proof.
  intros P. destruct P. split; cbn; try done.
  - intros o Ho. destruct (pr_owner0 o Ho) as (h & Hh & Hg & Hb). exists h. split; [done|]. split; [done|].
    intros Hbusy. apply Hb. unfold owner_busy in *. cbn in *. rewrite Hbusy. apply orb_true_r.
  - intros Ho. specialize (pr_no_owner0 Ho). unfold owner_busy in *. cbn.
    by apply orb_false_iff in pr_no_owner0 as [_ ?].
Qed.

(** What a generation holds, but for its count and what comes next. *)
Lemma proto_put_gen x lo g w w' :
  proto x lo -> x_gens x !! g = Some w -> ag_strong w' = ag_strong w -> ag_next w' = ag_next w ->
  proto (put_gen g w' x) lo.
Proof.
  intros P Hg Hs Hn. destruct P. split; cbn; try done.
  - intros g'. rewrite lookup_insert_is_Some. rewrite <- pr_gens0. split; [intros [<-|[_ ?]]; [by eexists|done]|].
    destruct (decide (g = g')); [by left|by right].
  - intros g' w0. rewrite lookup_insert_Some. intros [[<- <-]|[_ ?]]; [rewrite Hn|]; by apply pr_next0.
  - intros g' w0. rewrite lookup_insert_Some. intros [[<- <-]|[_ Hw]]; [rewrite Hs|]; by rewrite (pr_count0 _ _ ltac:(eassumption)).
  - intros j d Hj Hph. destruct (pr_front0 j d Hj Hph) as (He & w0 & Hw0 & H0). split; [done|].
    destruct (decide (g = lo)) as [->|].
    + exists w'. rewrite lookup_insert_eq. split; [done|]. congruence.
    + exists w0. by rewrite lookup_insert_ne.
Qed.

(** One more or one less reference to [g]. *)
Lemma refs_clone x lo g h g' :
  x_handles x !! x_fresh x = None -> hd_gen h = g ->
  refs (put_handle (x_fresh x) h x) lo g' = ((if decide (g' = g) then 1 else 0) + refs x lo g')%nat.
Proof.
  intros Hf Hg. unfold refs. cbn. rewrite count_insert by done. unfold of_gen at 1. rewrite Hg.
  destruct (Nat.eqb_spec g g'), (decide (g' = g)); try congruence; lia.
Qed.

Lemma proto_clone x lo k h w :
  proto x lo -> x_handles x !! k = Some h -> x_gens x !! hd_gen h = Some w ->
  proto (bump (put_handle (x_fresh x) (mkHandle (hd_gen h) (hd_view h) ∅ None None)
    (put_gen (hd_gen h) (aset_strong (S (ag_strong w)) (ag_view w) w) x))) lo.
Proof.
  intros P Hk Hw. pose proof (pr_fresh _ _ P (x_fresh x) (le_n _)) as [Hfh Hft].
  pose proof (proto_dead x lo (hd_gen h) w P Hw) as Hdead.
  pose proof (refs_clone x lo (hd_gen h) (mkHandle (hd_gen h) (hd_view h) ∅ None None)) as Hrefs.
  destruct P. split; cbn; try done.
  - intros g'. rewrite lookup_insert_is_Some, <- pr_gens0. split; [intros [<-|[_ ?]]; [by eexists|done]|].
    destruct (decide (hd_gen h = g')); [by left|by right].
  - intros g' w0. rewrite lookup_insert_Some. intros [[<- <-]|[_ ?]]; [apply (pr_next0 _ _ Hw)|by apply pr_next0].
  - intros g' w0. rewrite lookup_insert_Some.
    change (refs _ lo g') with (refs (put_handle (x_fresh x) (mkHandle (hd_gen h) (hd_view h) ∅ None None) x) lo g').
    rewrite (Hrefs g') by done. intros [[<- <-]|[Hne Hg']].
    + cbn. rewrite decide_True by done. by rewrite (pr_count0 _ _ Hw).
    + rewrite decide_False by done. by apply pr_count0.
  - intros k' h0. rewrite lookup_insert_Some. intros [[<- <-]|[_ ?]]; [cbn|]; by eapply pr_handle0.
  - intros o Ho. destruct (pr_owner0 o Ho) as (ho & Hho & ?). exists ho. split; [|done].
    rewrite lookup_insert_ne; [done|]. congruence.
  - intros j d Hj Hph. destruct (pr_front0 j d Hj Hph) as (He & w0 & Hw0 & H0). split; [done|].
    exists w0. split; [|done]. rewrite lookup_insert_ne; [done|]. intros Heq. rewrite Heq in Hw.
    rewrite Hw0 in Hw. injection Hw as <-. destruct (Hdead H0) as (_ & Hn & _). by apply (Hn k h).
  - intros k' Hk'. destruct (pr_fresh0 k' ltac:(lia)) as [? ?]. split; [|done].
    rewrite lookup_insert_ne by lia. done.
Qed.

(** The end of a handle: its reference passes to a drop. *)
Lemma proto_spawn x lo k h :
  proto x lo -> x_handles x !! k = Some h -> x_owner x <> Some k ->
  proto (spawn_drop h (set_handles (delete k (x_handles x)) x)) lo.
Proof.
  intros P Hk Ho. pose proof (pr_fresh _ _ P (x_fresh x) (le_n _)) as [Hfh Hft].
  assert (forall g w, x_gens x !! g = Some w -> ag_strong w = 0%nat -> hd_gen h <> g) as Hdead.
  { intros g w Hg H0. destruct (proto_dead x lo g w P Hg H0) as (_ & Hn & _). by apply (Hn k h). }
  destruct P. split; cbn; try done.
  - intros g w Hg. rewrite (pr_count0 g w Hg). unfold refs. cbn. rewrite (count_insert _ (x_tasks x)) by done.
    rewrite (count_delete _ _ _ _ Hk). cbn. unfold of_gen at 1. lia.
  - intros k' h0 [_ Hk']%lookup_delete_Some. by eapply pr_handle0.
  - intros o Ho'. destruct (pr_owner0 o Ho') as (ho & Hho & ?). exists ho. split; [|done].
    rewrite lookup_delete_ne; [done|]. congruence.
  - intros j d. rewrite lookup_insert_Some. intros [[<- <-]|[_ ?]]; cbn; intros; by eapply pr_handle0 || by eapply pr_release0.
  - intros j d. rewrite lookup_insert_Some. intros [[<- <-]|[_ ?]]; cbn; [done|]. by apply (pr_front0 j).
  - intros j d j' d'. rewrite !lookup_insert_Some. intros [[_ <-]|[_ ?]]; cbn; [done|].
    intros ? [[_ <-]|[_ ?]]; cbn; [done|]. by apply (pr_one0 j d).
  - intros j d. rewrite lookup_insert_Some. intros [[<- <-]|[_ ?]]; cbn; [done|]. by apply (pr_locked0 j).
  - intros c j rest drops Hc Hop. destruct (pr_crit0 c j rest drops Hc Hop) as (d & Hd & Hph). exists d.
    split; [|done]. rewrite lookup_insert_ne; [done|]. congruence.
  - intros k' Hk'. destruct (pr_fresh0 k' ltac:(lia)) as [Hh Ht]. split.
    + apply lookup_delete_None. by right.
    + rewrite lookup_insert_ne by lia. done.
Qed.

Lemma proto_no_owner x lo : proto x lo -> owner_busy x = false -> proto (set_owner None x) lo.
Proof. intros P Hb. destruct P. by split. Qed.

(** The references after [advance_generation]: the new generation has two, of the
    [RcuCslab] and of the previous one, to which the drop takes over. *)
Lemma advance_refs x lo o h h' z :
  proto x lo -> x_handles x !! o = Some h -> (hd_gen h < x_next_gen x)%nat -> hd_gen h' = x_next_gen x ->
  x_handles z = <[o := h']> (x_handles x) ->
  x_tasks z = <[x_fresh x := mkTask (hd_gen h) (hd_view h) Releasing]> (x_tasks x) ->
  refs z lo (x_next_gen x) = 2%nat
  /\ forall g, (g < x_next_gen x)%nat -> refs z lo g = refs x lo g.
Proof.
  intros P Hh Hlt Hg' Hzh Hzt. pose proof (pr_handle _ _ P o h Hh) as Hlo. pose proof (pr_fresh _ _ P (x_fresh x) (le_n _)) as [_ Hft].
  assert (forall g, (count (of_gen g) (x_handles z) + (if Nat.eqb (hd_gen h) g then 1 else 0)
    = count (of_gen g) (x_handles x) + if Nat.eqb (x_next_gen x) g then 1 else 0)%nat) as Hc.
  { intros g. rewrite Hzh. pose proof (count_update (of_gen g) _ _ _ h' Hh) as Hc.
    unfold of_gen at 1 3 in Hc. rewrite Hg' in Hc. lia. }
  assert (forall g, count (releases g) (x_tasks z)
    = (count (releases g) (x_tasks x) + if Nat.eqb (hd_gen h) g then 1 else 0)%nat) as Ht.
  { intros g. rewrite Hzt, count_insert by done. unfold releases at 1. cbn. lia. }
  unfold refs. setoid_rewrite Ht. split.
  - specialize (Hc (x_next_gen x)). rewrite Nat.eqb_refl in Hc.
    assert (count (of_gen (x_next_gen x)) (x_handles x) = 0%nat) as H1.
    { apply count_none. intros k hk Hk. pose proof (pr_handle _ _ P k hk Hk). apply Nat.eqb_neq. lia. }
    assert (count (releases (x_next_gen x)) (x_tasks x) = 0%nat) as H2.
    { apply count_none. intros j d Hj. unfold releases. destruct (dt_phase d) eqn:Hph; try done.
      pose proof (pr_release _ _ P j d Hj Hph). apply Nat.eqb_neq. lia. }
    rewrite decide_True by lia. destruct (Nat.eqb_spec (hd_gen h) (x_next_gen x)); lia.
  - intros g Hg. specialize (Hc g). destruct (Nat.eqb_spec (x_next_gen x) g); lia.
Qed.

(** [advance_generation]. *)
Lemma proto_advance x lo o h h' w :
  proto x lo -> x_owner x = Some o -> x_handles x !! o = Some h -> owner_busy x = false ->
  x_gens x !! hd_gen h = Some w -> hd_gen h' = x_next_gen x ->
  proto (spawn_drop h (put_handle o h'
    (put_gen (x_next_gen x) (mkArcGen 2 vbot [] None)
      (put_gen (hd_gen h) (aset_inner (ag_pending w) (Some (x_next_gen x)) w)
        (set_next_gen (S (x_next_gen x)) x))))) lo.
Proof.
  intros P Ho Hh Hb Hw Hg'. pose proof (pr_fresh _ _ P (x_fresh x) (le_n _)) as [Hfh Hft].
  destruct (pr_owner _ _ P o Ho) as (h0 & Hh0 & Hcur & _). rewrite Hh in Hh0. injection Hh0 as <-.
  pose proof (pr_handle _ _ P o h Hh) as Hhg.
  assert (forall g w, x_gens x !! g = Some w -> ag_strong w = 0%nat -> hd_gen h <> g) as Hdead.
  { intros g w0 Hg H0. destruct (proto_dead x lo g w0 P Hg H0) as (_ & Hn & _). by apply (Hn o h). }
  assert (forall g, is_Some (x_gens x !! g) -> (g < x_next_gen x)%nat) as Hlt
    by (intros g Hg; by apply (pr_gens _ _ P)).
  match goal with |- proto ?z _ =>
    destruct (advance_refs x lo o h h' z P Hh ltac:(lia) Hg' eq_refl eq_refl) as [Hr1 Hr2] end.
  destruct P. split; cbn -[refs]; try done.
  - intros g. rewrite !lookup_insert_is_Some. destruct (decide (x_next_gen x = g)) as [<-|]; [split; [lia|by left]|].
    destruct (decide (hd_gen h = g)) as [<-|]; [split; [lia|by right; split; [|left]]|].
    rewrite pr_gens0. split; [intros [?|[_ [?|[_ ?]]]]; [done..|lia]|]. intros ?. right. split; [done|]. right. split; [done|lia].
  - intros g w0. rewrite !lookup_insert_Some. intros [[<- <-]|[Hne [[<- <-]|[Hne' Hg]]]]; cbn.
    + by rewrite decide_False by lia.
    + rewrite decide_True by lia. by rewrite Hcur.
    + rewrite (pr_next0 g w0 Hg). assert (g < x_next_gen x)%nat by (apply Hlt; by eexists).
      assert (S g <> x_next_gen x) by lia. do 2 case_decide; try done; lia.
  - intros g w0. rewrite !lookup_insert_Some. intros [[<- <-]|[Hne [[<- <-]|[Hne' Hg]]]]; cbn.
    + done.
    + rewrite Hr2 by lia. by apply pr_count0.
    + rewrite Hr2 by (apply Hlt; by eexists). by apply pr_count0.
  - intros k h0. rewrite lookup_insert_Some. intros [[<- <-]|[_ Hk]]; [lia|].
    specialize (pr_handle0 k h0 Hk). lia.
  - intros o' Ho'. rewrite Ho in Ho'. injection Ho' as <-. exists h'. rewrite lookup_insert_eq.
    split; [done|]. split; [by rewrite Hg'|]. intros Hb'. unfold owner_busy in *. cbn in Hb'. congruence.
  - intros j d. rewrite lookup_insert_Some. intros [[<- <-]|[_ Hj]]; cbn; intros Hph; [lia|].
    specialize (pr_release0 j d Hj Hph). lia.
  - intros j d. rewrite lookup_insert_Some. intros [[<- <-]|[_ Hj]]; cbn; [done|]. intros Hph.
    destruct (pr_front0 j d Hj Hph) as (He & w0 & Hw0 & H0). split; [done|].
    assert (lo < x_next_gen x)%nat by (apply Hlt; by eexists).
    exists w0. rewrite !lookup_insert_ne; [done| |lia]. by eapply Hdead.
  - intros j d j' d'. rewrite !lookup_insert_Some. intros [[_ <-]|[_ ?]]; cbn; [done|].
    intros ? [[_ <-]|[_ ?]]; cbn; [done|]. by apply (pr_one0 j d).
  - intros j d. rewrite lookup_insert_Some. intros [[<- <-]|[_ ?]]; cbn; [done|]. by apply (pr_locked0 j).
  - intros c j rest drops Hc Hop. destruct (pr_crit0 c j rest drops Hc Hop) as (d & Hd & Hph). exists d.
    split; [|done]. rewrite lookup_insert_ne; [done|]. congruence.
  - intros k' Hk'. destruct (pr_fresh0 k' ltac:(lia)) as [? ?]. split.
    + rewrite lookup_insert_ne; [done|]. congruence.
    + rewrite lookup_insert_ne by lia. done.
Qed.

(** A drop that is past its release goes on, with or without the lock. *)
Lemma proto_drop_phase x lo j d d' hd V c :
  proto x lo -> x_tasks x !! j = Some d -> dt_phase d <> Releasing ->
  dt_gen d' = dt_gen d -> dt_phase d' <> Releasing ->
  (x_crit x = None \/ exists rest drops V p, x_crit x = Some (mkCritical (OFinalize j rest drops) V p)) ->
  match c with
  | Some c => dt_phase d' = Locked /\ exists rest drops V p, c = mkCritical (OFinalize j rest drops) V p
  | None => dt_phase d' <> Locked
  end -> proto (set_lock hd V c (put_task j d' x)) lo.
Proof.
  intros P Hj Hph Hgen Hph' Hold Hc.
  assert (owner_busy (set_lock hd V c (put_task j d' x)) = owner_busy x) as Hbusy.
  { unfold owner_busy. cbn. f_equal. destruct c as [c|].
    - destruct Hc as (_ & rest & drops & V' & p & ->). cbn. by destruct Hold as [->|(? & ? & ? & ? & ->)].
    - by destruct Hold as [->|(? & ? & ? & ? & ->)]. }
  destruct P. split; cbn; try done.
  - intros g w Hg. rewrite (pr_count0 g w Hg). unfold refs. cbn.
    rewrite (count_same _ (x_tasks x) j d d' Hj); [done|]. unfold releases.
    destruct (dt_phase d), (dt_phase d'); done.
  - intros o Ho. destruct (pr_owner0 o Ho) as (h & ? & ? & Hb). exists h. split; [done|]. split; [done|].
    rewrite Hbusy. done.
  - intros Ho. rewrite Hbusy. by apply pr_no_owner0.
  - intros _. unfold owner_op. cbn. destruct c as [c|]; [|done]. by destruct Hc as (_ & ? & ? & ? & ? & ->).
  - intros j' d0. rewrite lookup_insert_Some. intros [[<- <-]|[_ ?]]; [done|]. by apply (pr_release0 j').
  - intros j' d0. rewrite lookup_insert_Some. intros [[<- <-]|[_ ?]]; [rewrite Hgen; intros _|]; by eapply pr_front0.
  - intros j1 d1 j2 d2. rewrite !lookup_insert_Some. intros [[<- <-]|[Hn1 H1]] Hp1 [[<- <-]|[Hn2 H2]] Hp2; try done.
    + by eapply pr_one0.
    + by eapply pr_one0.
    + by eapply pr_one0.
  - intros j' d0. rewrite lookup_insert_Some. intros [[<- <-]|[Hne Hj']] Hp.
    + destruct c as [c|]; [|done]. destruct Hc as (_ & rest & drops & V' & p & ->). by eexists _, _, _, _.
    + destruct Hne. eapply pr_one0; [done..|]. by rewrite Hp.
  - intros c0 j' rest drops Hc0 Hop. destruct c as [c|]; [|done]. injection Hc0 as ->.
    destruct Hc as (Hl & rest' & drops' & V' & p & ->). injection Hop as <- _ _. exists d'.
    by rewrite lookup_insert_eq.
  - intros k Hk. destruct (pr_fresh0 k Hk) as [? ?]. split; [done|]. rewrite lookup_insert_ne; [done|]. congruence.
Qed.

(** One [finalize_remove] after the other: the next one is under way, or the lock
    is released. *)
Lemma finalize_from_shape j l drops V hd (x : rsys T) a x' :
  finalize_from j l drops V hd x = Ret (a, x') ->
  (exists i rest drops' hd', a = RStep /\ x' =
      set_lock hd' (x_lock_view x) (Some (mkCritical (OFinalize j rest drops') V (finalize_op hd' i))) x)
  \/ exists drops' hd', a = RDropped drops' /\ x' = unlock_drop j hd' V x.
Proof.
  revert drops hd. induction l as [|i l IH]; intros drops hd; cbn [finalize_from].
  - intros [= <- <-]. right. by eexists _, _.
  - destruct (finalize_op hd i) as [[[h' r]| | |]|lo acq k|lo rel v k|i' k|i' e k] eqn:E; try done.
    + cbn [mbind outcome_bind]. intros H. apply IH in H as [(i' & rest & drops' & hd' & -> & ->)|(drops' & hd' & -> & ->)].
      * left. by eexists _, _, _, _.
      * right. by eexists _, _.
    + intros [= <- <-]. left. exists i, l, drops, hd. by rewrite E.
    + intros [= <- <-]. left. exists i, l, drops, hd. by rewrite E.
    + intros [= <- <-]. left. exists i, l, drops, hd. by rewrite E.
    + intros [= <- <-]. left. exists i, l, drops, hd. by rewrite E.
Qed.

Lemma unlock_drop_eq j hd V (x : rsys T) d : x_tasks x !! j = Some d ->
  unlock_drop j hd V x = set_lock hd V None (put_task j (mkTask (dt_gen d) V Freeing) x).
Proof. intros Hj. unfold unlock_drop. by rewrite (alter_Some _ _ _ _ Hj). Qed.

Lemma put_put_task j d d' (x : rsys T) : put_task j d' (put_task j d x) = put_task j d' x.
Proof. unfold put_task, set_tasks. cbn. by rewrite insert_insert_eq. Qed.

Lemma put_task_id j d (x : rsys T) : x_tasks x !! j = Some d -> put_task j d x = x.
Proof. intros Hj. unfold put_task, set_tasks. rewrite insert_id by done. by destruct x. Qed.

Lemma proto_release_more x lo j d w n :
  proto x lo -> x_tasks x !! j = Some d -> dt_phase d = Releasing ->
  x_gens x !! dt_gen d = Some w -> ag_strong w = S n -> n <> 0%nat ->
  forall V, proto (set_tasks (delete j (x_tasks x)) (put_gen (dt_gen d) (aset_strong n V w) x)) lo.
Proof.
  intros P Hj Hph Hw Hs Hn V. destruct P. split; cbn; try done.
  - intros g. rewrite lookup_insert_is_Some, <- pr_gens0. split; [intros [<-|[_ ?]]; [by eexists|done]|].
    destruct (decide (dt_gen d = g)); [by left|by right].
  - intros g w0. rewrite lookup_insert_Some. intros [[<- <-]|[_ ?]]; [apply (pr_next0 _ _ Hw)|by apply pr_next0].
  - intros g w0. unfold refs. cbn. pose proof (count_delete (releases g) _ _ _ Hj) as Hc.
    unfold releases at 2 in Hc. rewrite Hph in Hc. rewrite lookup_insert_Some. intros [[<- <-]|[Hne Hg]].
    + cbn. rewrite Nat.eqb_refl in Hc. pose proof (pr_count0 _ _ Hw) as Hq. unfold refs in Hq. lia.
    + apply Nat.eqb_neq in Hne. rewrite Hne in Hc. pose proof (pr_count0 _ _ Hg) as Hq. unfold refs in Hq. lia.
  - intros j' d' [_ ?]%lookup_delete_Some. by apply (pr_release0 j').
  - intros j' d' [_ Hj']%lookup_delete_Some Hp. destruct (pr_front0 j' d' Hj' Hp) as (He & w0 & Hw0 & H0).
    split; [done|]. exists w0. split; [|done]. rewrite lookup_insert_ne; [done|]. intros Heq. rewrite Heq in Hw. congruence.
  - intros j1 d1 j2 d2 [_ ?]%lookup_delete_Some ? [_ ?]%lookup_delete_Some ?. by eapply pr_one0.
  - intros j' d' [_ ?]%lookup_delete_Some. by apply (pr_locked0 j').
  - intros c j' rest drops Hc Hop. destruct (pr_crit0 c j' rest drops Hc Hop) as (d' & Hd' & Hl). exists d'.
    split; [|done]. rewrite lookup_delete_ne; [done|]. congruence.
  - intros k Hk. destruct (pr_fresh0 k Hk) as [? ?]. split; [done|]. apply lookup_delete_None. by right.
Qed.

Lemma proto_release_last x lo j d w :
  proto x lo -> x_tasks x !! j = Some d -> dt_phase d = Releasing ->
  x_gens x !! dt_gen d = Some w -> ag_strong w = 1%nat ->
  forall V V', proto (put_task j (mkTask (dt_gen d) V' Finalizing) (put_gen (dt_gen d) (aset_strong 0 V w) x)) lo.
Proof.
  intros P Hj Hph Hw Hs V V'. pose proof (pr_count _ _ P _ _ Hw) as Hq. unfold refs in Hq.
  rewrite (count_delete (releases (dt_gen d)) _ _ _ Hj) in Hq. unfold releases at 1 in Hq.
  rewrite Hph, Nat.eqb_refl in Hq.
  assert (lo <= dt_gen d < x_next_gen x)%nat as Hlo by (by eapply (pr_release _ _ P)).
  assert (dt_gen d = lo) as Heq by (case_decide; lia). rewrite Heq in *. rewrite decide_False in Hq by lia.
  assert (forall j' d', x_tasks x !! j' = Some d' -> dt_phase d' <> Releasing -> False) as Hno.
  { intros j' d' Hj' Hp. destruct (pr_front _ _ P j' d' Hj' Hp) as (_ & w0 & Hw0 & H0). congruence. }
  destruct P. split; cbn; try done.
  - intros g. rewrite lookup_insert_is_Some, <- pr_gens0. split; [intros [<-|[_ ?]]; [by eexists|done]|].
    destruct (decide (lo = g)); [by left|by right].
  - intros g w0. rewrite lookup_insert_Some. intros [[<- <-]|[_ ?]]; [apply (pr_next0 _ _ Hw)|by apply pr_next0].
  - intros g w0. unfold refs. cbn.
    pose proof (count_update (releases g) (x_tasks x) j d (mkTask lo V' Finalizing) Hj) as Hc.
    unfold releases at 1 3 in Hc. rewrite Hph, Heq in Hc. cbn [dt_phase] in Hc.
    rewrite lookup_insert_Some. intros [[<- <-]|[Hne Hg]].
    + rewrite Nat.eqb_refl in Hc. cbn. rewrite decide_False by lia.
      rewrite (count_delete (releases lo) _ _ _ Hj) in Hc. unfold releases at 2 in Hc.
      rewrite Hph, Heq, Nat.eqb_refl in Hc. lia.
    + pose proof (pr_count0 _ _ Hg) as Hq'. unfold refs in Hq'.
      apply Nat.eqb_neq in Hne. rewrite Hne in Hc. lia.
  - intros j' d'. rewrite lookup_insert_Some. intros [[<- <-]|[_ ?]]; [done|]. by apply (pr_release0 j').
  - intros j' d'. rewrite lookup_insert_Some. intros [[<- <-]|[_ Hj']] Hp.
    + split; [done|]. eexists. rewrite lookup_insert_eq. by split.
    + by destruct (Hno j' d' Hj' Hp).
  - intros j1 d1 j2 d2. rewrite !lookup_insert_Some. intros [[<- <-]|[Hn1 H1]] Hp1 [[<- <-]|[Hn2 H2]] Hp2; try done.
    + by destruct (Hno j2 d2 H2 Hp2).
    + by destruct (Hno j1 d1 H1 Hp1).
    + by destruct (Hno j1 d1 H1 Hp1).
  - intros j' d'. rewrite lookup_insert_Some. intros [[<- <-]|[_ Hj']] Hp; [done|]. by apply (pr_locked0 j' d').
  - intros c j' rest drops Hc Hop. destruct (pr_crit0 c j' rest drops Hc Hop) as (d' & Hd' & Hl). exists d'.
    split; [|done]. rewrite lookup_insert_ne; [done|]. congruence.
  - intros k Hk. destruct (pr_fresh0 k Hk) as [? ?]. split; [done|]. rewrite lookup_insert_ne; [done|]. congruence.
Qed.

(** Freeing the oldest generation. *)
Lemma proto_free x lo j d w :
  proto x lo -> x_tasks x !! j = Some d -> dt_phase d = Freeing -> x_gens x !! dt_gen d = Some w ->
  dt_gen d = lo
  /\ proto (match ag_next w with
            | Some n => put_task j (mkTask n (dt_view d) Releasing) (set_gens (delete lo (x_gens x)) x)
            | None => set_tasks (delete j (x_tasks x)) (set_gens (delete lo (x_gens x)) x)
            end) (S lo).
Proof.
  intros P Hj Hph Hw. destruct (pr_front _ _ P j d Hj ltac:(congruence)) as (Heq & w0 & Hw0 & H0).
  split; [done|]. rewrite Heq, Hw0 in Hw. injection Hw as <-.
  destruct (proto_dead x lo lo w0 P Hw0 H0) as (_ & Hnh & Hnr).
  pose proof (pr_next _ _ P lo w0 Hw0) as Hnext.
  assert (lo < x_next_gen x)%nat as Hlt by (apply (pr_gens _ _ P); by eexists).
  assert (forall g, releases g d = false) as Hrel by (intros g; unfold releases; by rewrite Hph).
  assert (forall j' d', x_tasks x !! j' = Some d' -> dt_phase d' <> Releasing -> j' = j) as Hone.
  { intros j' d' Hj' Hp. eapply (pr_one _ _ P); [done..|]. congruence. }
  assert (forall c j' rest drops, x_crit x = Some c -> k_op c = OFinalize j' rest drops -> False) as Hnc.
  { intros c j' rest drops Hc Hop. destruct (pr_crit _ _ P c j' rest drops Hc Hop) as (d' & Hd' & Hl).
    assert (j' = j) as -> by (eapply Hone; [done|congruence]). congruence. }
  destruct P. rewrite Hnext. destruct (decide (S lo < x_next_gen x)%nat) as [Hs|Hs].
  - split; cbn; try done.
    + intros g. rewrite lookup_delete_is_Some, pr_gens0. lia.
    + intros g w [_ Hg]%lookup_delete_Some. by apply pr_next0.
    + intros g w [Hne Hg]%lookup_delete_Some. rewrite (pr_count0 g w Hg). unfold refs. cbn.
      assert (lo <= g)%nat by (apply pr_gens0; by eexists).
      pose proof (count_update (releases g) (x_tasks x) j d (mkTask (S lo) (dt_view d) Releasing) Hj) as Hc.
      rewrite Hrel in Hc. unfold releases at 2 in Hc. cbn [dt_phase dt_gen] in Hc.
      destruct (Nat.eqb_spec (S lo) g), (decide (lo < g)%nat), (decide (S lo < g)%nat); lia.
    + intros k h Hk. specialize (pr_handle0 k h Hk). specialize (Hnh k h Hk). lia.
    + intros j' d'. rewrite lookup_insert_Some. intros [[<- <-]|[_ Hj']] Hp; cbn; [lia|].
      specialize (pr_release0 j' d' Hj' Hp). specialize (Hnr j' d' Hj' Hp). lia.
    + intros j' d'. rewrite lookup_insert_Some. intros [[<- <-]|[Hne Hj']] Hp; [done|]. destruct Hne. symmetry. by eapply Hone.
    + intros j1 d1 j2 d2. rewrite !lookup_insert_Some. intros [[<- <-]|[Hn1 H1]] Hp1 [[<- <-]|[Hn2 H2]] Hp2; try done.
      by eapply pr_one0.
    + intros j' d'. rewrite lookup_insert_Some. intros [[<- <-]|[_ Hj']] Hp; [done|]. by apply (pr_locked0 j' d').
    + intros c j' rest drops Hc Hop. by destruct (Hnc c j' rest drops).
    + intros k Hk. destruct (pr_fresh0 k Hk) as [? ?]. split; [done|]. rewrite lookup_insert_ne; [done|]. congruence.
  - split; cbn; try done.
    + intros g. rewrite lookup_delete_is_Some, pr_gens0. lia.
    + intros g w [_ Hg]%lookup_delete_Some. by apply pr_next0.
    + intros g w [Hne Hg]%lookup_delete_Some. assert (lo <= g < x_next_gen x)%nat by (apply pr_gens0; by eexists). lia.
    + intros k h Hk. specialize (pr_handle0 k h Hk). specialize (Hnh k h Hk). lia.
    + intros j' d' [_ Hj']%lookup_delete_Some Hp.
      specialize (pr_release0 j' d' Hj' Hp). specialize (Hnr j' d' Hj' Hp). lia.
    + intros j' d' [Hne Hj']%lookup_delete_Some Hp. destruct Hne. symmetry. by eapply Hone.
    + intros j1 d1 j2 d2 [? ?]%lookup_delete_Some ? [? ?]%lookup_delete_Some ?. by eapply pr_one0.
    + intros j' d' [_ ?]%lookup_delete_Some. by apply (pr_locked0 j').
    + intros c j' rest drops Hc Hop. by destruct (Hnc c j' rest drops).
    + intros k Hk. destruct (pr_fresh0 k Hk) as [? ?]. split; [done|]. apply lookup_delete_None. by right.
Qed.
End proto.
