(* ===== verification/RcuWeakRel.v ===== *)
(** The [RcuCslab] under concurrent use as a client of the slab of WeakSystem.v:
    the relation between its states and the client's.

    To the slab, the [RcuCslab] and its readers are readers.  A reader that has
    been dropped stays one, until the generation that it held is finalized:
    only then is its view known to have reached the writer. *)

From S2P Require Import Prelude CslabStorage Cslab CslabIter Weak WeakCslab WeakSystem.
From S2P Require Import RcuWeak RcuWeakProto.
From Stdlib Require Import FunctionalExtensionality.

(** ** Views *)

(** Everything that happens before [V] happens before [V']. *)
Definition vsub (V V' : view) : Prop := vle V V' /\ v_reads V ⊆ v_reads V'.

#[global] Instance vsub_preorder : PreOrder vsub.
Proof. split; [by intros V|]. intros V V' V'' [? ?] [? ?]. split; [by etrans|set_solver]. Qed.

Lemma vsub_antisym V V' : vsub V V' -> vsub V' V -> V = V'.
Proof.
  intros [[H1 H2] H3] [[H4 H5] H6]. destruct V as [a e r], V' as [a' e' r']; cbn in *. f_equal.
  - extensionality l. specialize (H1 l). specialize (H4 l). lia.
  - extensionality i. specialize (H2 i). specialize (H5 i). lia.
  - set_solver.
Qed.

Lemma vsub_join_l V V' : vsub V (vjoin V V').
Proof. split; [apply vle_join_l|]. cbn. set_solver. Qed.
Lemma vsub_join_r V V' : vsub V' (vjoin V V').
Proof. split; [apply vle_join_r|]. cbn. set_solver. Qed.
Lemma vsub_join V V' V'' : vsub V V'' -> vsub V' V'' -> vsub (vjoin V V') V''.
Proof. intros [? ?] [? ?]. split; [by apply vle_join|]. cbn. set_solver. Qed.

Lemma vjoin_absorb V V' : vsub V' V -> vjoin V V' = V.
Proof. intros H. apply vsub_antisym; [by apply vsub_join|apply vsub_join_l]. Qed.

(** [V] has nothing that is neither in [V0] nor in one of the views [P]. *)
Record covered (V V0 : view) (P : view -> Prop) : Prop := {
  cv_atomic l : (v_atomic V l <= v_atomic V0 l)%nat \/ exists z, P z /\ (v_atomic V l <= v_atomic z l)%nat;
  cv_entry i : (v_entry V i <= v_entry V0 i)%nat \/ exists z, P z /\ (v_entry V i <= v_entry z i)%nat;
  cv_reads r : r ∈ v_reads V -> r ∈ v_reads V0 \/ exists z, P z /\ r ∈ v_reads z;
}.

Lemma covered_sub V V0 P : vsub V V0 -> covered V V0 P.
Proof. intros [[? ?] ?]. split; intros; left; auto. Qed.

Lemma covered_mono V V0 V0' P P' :
  covered V V0 P -> vsub V0 V0' -> (forall z, P z -> P' z \/ vsub z V0') -> covered V V0' P'.
Proof.
  intros [Ha He Hr] [[Hsa Hse] Hsr] HP. split.
  - intros l. destruct (Ha l) as [H|(z & Hz & H)]; [left; specialize (Hsa l); lia|].
    destruct (HP z Hz) as [?|[[H' _] _]]; [right; by exists z|left; specialize (H' l); lia].
  - intros i. destruct (He i) as [H|(z & Hz & H)]; [left; specialize (Hse i); lia|].
    destruct (HP z Hz) as [?|[[_ H'] _]]; [right; by exists z|left; specialize (H' i); lia].
  - intros r Hr'. destruct (Hr r Hr') as [H|(z & Hz & H)]; [left; set_solver|].
    destruct (HP z Hz) as [?|[_ H']]; [right; by exists z|left; set_solver].
Qed.

Lemma covered_join V V' V0 P : covered V V0 P -> covered V' V0 P -> covered (vjoin V V') V0 P.
Proof.
  intros [Ha He Hr] [Ha' He' Hr']. split; cbn.
  - intros l. destruct (Nat.max_spec (v_atomic V l) (v_atomic V' l)) as [[_ ->]|[_ ->]]; auto.
  - intros i. destruct (Nat.max_spec (v_entry V i) (v_entry V' i)) as [[_ ->]|[_ ->]]; auto.
  - intros r [?|?]%elem_of_union; auto.
Qed.

Lemma covered_self V V0 (P : view -> Prop) : P V -> covered V V0 P.
Proof. intros HP. split; intros; right; eauto. Qed.

(** A view between the two. *)
Lemma covered_vsub V V0 P V' : covered V V0 P -> vsub V0 V' -> (forall z, P z -> vsub z V') -> vsub V V'.
Proof.
  intros [Ha He Hr] [[Hsa Hse] Hsr] HP. split; [split|].
  - intros l. destruct (Ha l) as [H|(z & Hz & H)]; [specialize (Hsa l); lia|].
    destruct (HP z Hz) as [[H' _] _]. specialize (H' l). lia.
  - intros i. destruct (He i) as [H|(z & Hz & H)]; [specialize (Hse i); lia|].
    destruct (HP z Hz) as [[_ H'] _]. specialize (H' i). lia.
  - intros r Hr'. destruct (Hr r Hr') as [H|(z & Hz & H)]; [set_solver|]. destruct (HP z Hz) as [_ H']. set_solver.
Qed.

(** ** What a program does on every path *)

(** Each answer is in [Q], and the atomic locations are stored to only if [store]. *)
Fixpoint always {T A} (Q : A -> Prop) (store : Prop) (p : prog T A) : Prop :=
  match p with
  | PDone (Ret a) => Q a
  | PDone _ => True
  | PLoad _ _ k => forall v, always Q store (k v)
  | PStore _ _ _ k => store /\ always Q store k
  | PRead _ k => forall e, always Q store (k e)
  | PWrite _ _ k => always Q store k
  end.

Lemma always_bind {T A B} (f : A -> prog T B) (p : prog T A) Q store :
  always (fun a => always Q store (f a)) store p -> always Q store (prog_bind f p).
Proof. induction p as [[a| | |]|l acq k IH|l rel v k IH|i k IH|i e k IH]; cbn; intuition auto. Qed.

Lemma always_step {T A} (m m' : mem T) V V' (p p' : prog T A) choice Q store :
  always Q store p -> prog_step m V p choice = Some (Ret (m', V', p')) ->
  always Q store p' /\ (~ store -> m_hist m' = m_hist m).
Proof.
  intros Hp. destruct p as [o|l acq k|l rel v k|i k|i e k]; cbn in *; [done|..].
  - case_decide; [|done]. destruct (m_hist m l !! choice); [|done]. by intros [= <- _ <-].
  - case_decide; [|done]. intros [= <- _ <-]. tauto.
  - case_decide; [|done]. by intros [= <- _ <-].
  - case_decide; [|done]. by intros [= <- _ <-].
Qed.

Ltac always_tac :=
  repeat first
    [ done | intros ? | progress cbn
    | match goal with
      | |- always _ _ (prog_bind _ _) => apply always_bind
      | |- always _ _ (mbind _ _) => apply always_bind
      | |- _ /\ _ => split
      | |- context [match ?a with _ => _ end] => destruct a
      end ].

Abbreviation no_store := (always (fun _ => True) False).

(** [finalize_remove] stores nothing. *)
Lemma finalize_no_store {T} hd i : no_store (finalize_op (T:=T) hd i).
Proof. unfold finalize_op, finalize_remove_prog, read_entry, write_entry, table_at, lift. always_tac. Qed.

Definition inserted {T} (res : header * wresp T) : Prop := exists i, res.2 = WInserted (Ok i).

(** [insert] succeeds where there is a vacant slot. *)
Lemma insert_inserts {T} ord hd (t : T) : h_first_free hd < h_size hd ->
  always inserted True (insert_op ord hd t).
Proof.
  intros Hf. unfold insert_op, insert_prog. apply always_bind.
  destruct (Z.geb_spec (h_first_free hd) (h_size hd)) as [|_]; [lia|].
  unfold read_entry, write_entry, table_at, bitmap_at, lift. always_tac; by eexists.
Qed.

(** ** The relation *)

(** The readers of the slab: a handle, or one that has been dropped; its
    reference to [g] is with the drop [j], or has been released. *)
Inductive tag : Type :=
| TLive (k : nat)
| TDead (g : nat) (j : option nat).

#[global] Instance tag_eq_dec : EqDecision tag.
Proof. solve_decision. Defined.

Section rel.
Context {T : Type} (n : Z).
Implicit Types (x : rsys T) (y : sys T) (r : reader T) (h : handle T).
Abbreviation trs := (list (tag * reader T)).

Record live_rel h r : Prop := {
  lv_view : hd_view h = r_view r;
  lv_held : hd_held h = r_held r;
  lv_iter : hd_iter h = None \/ hd_iter h = r_iter r;
  lv_prog : hd_prog h = r_prog r;
}.

Definition lives (l : trs) : list nat := omap (fun p => match p.1 with TLive k => Some k | _ => None end) l.

(** The handles of [x] are the live readers [l]. *)
Record handles_rel x (l : trs) : Prop := {
  hr_live k : is_Some (x_handles x !! k) <-> k ∈ lives l;
  hr_once : NoDup (lives l);
  hr_rel k h r : (TLive k, r) ∈ l -> x_handles x !! k = Some h -> live_rel h r;
  hr_dead g j r : (TDead g j, r) ∈ l -> r_prog r = None;
}.

(** The generation that a reader has a reference to, or had. *)
Definition tag_gen x (t : tag) (g : nat) : Prop :=
  match t with
  | TLive k => exists h, x_handles x !! k = Some h /\ hd_gen h = g
  | TDead g' _ => g' = g
  end.

(** The index that the [RcuCslab] has marked, and that is not in [pending_removes]
    yet; [y_prog] tells whether the item is there. *)
Definition marking x y : option Z :=
  match x_push x with
  | Some i => Some i
  | None =>
      match x_crit x, y_prog y with
      | Some c, Some _ => match k_op c with OMark i => Some i | _ => None end
      | _, _ => None
      end
  end.

(** The indexes that are marked and in [g]: [rem] are those that are left of the
    generation that is being finalized, [lo]. *)
Definition todo x (mk : option Z) (lo : nat) (rem : list Z) (g : nat) (w : arc_gen) : list Z :=
  (if decide (g = lo) then rem else ag_pending w)
    ++ (if decide (S g = x_next_gen x) then option_list mk else []).

Definition rem_ok x (lo : nat) (rem : list Z) : Prop :=
  (forall c j rest drops, x_crit x = Some c -> k_op c = OFinalize j rest drops -> rem = rest)
  /\ (forall j d, x_tasks x !! j = Some d -> dt_phase d = Freeing -> rem = [])
  /\ ((forall j d, x_tasks x !! j = Some d -> dt_phase d = Releasing \/ dt_phase d = Finalizing) ->
      forall w, x_gens x !! lo = Some w -> rem = ag_pending w).

(** What is done under the lock is what the writer of the slab does; but for the
    marking of an item that is not there, which is about to panic. *)
Definition crit_rel x y (c : critical T) : Prop :=
  match k_op c with
  | OInsert t => y_prog y = Some (Some t, k_prog c)
  | OMark i => y_prog y = Some (None, k_prog c)
      \/ (y_prog y = None /\ k_prog c = mark_op source_orderings (x_header x) i
          /\ 0 <= i /\ ~ (is_Some (y_items y !! i) /\ i ∉ y_marked y))
  | OVacant => y_prog y = None /\ k_prog c = no_access (x_header x) /\ exists i, header_key (x_header x) = Ok i
  | OFill t => y_prog y = Some (Some t, k_prog c) /\ always inserted True (k_prog c)
  | OFinalize _ _ _ => exists t, y_prog y = Some (t, k_prog c) /\ no_store (k_prog c)
  end.

(** The indexes that are [marked], each with its generation; [mk] is the one that
    is not in [pending_removes] yet. *)
Record marks_rel x (marked : gset Z) (l : trs) (pd : gmap Z nat) (lo : nat) (rem : list Z) (mk : option Z)
  : Prop := {
  mk_dom : dom pd = marked;
  mk_todo g w : x_gens x !! g = Some w ->
    NoDup (todo x mk lo rem g w) /\ forall i, i ∈ todo x mk lo rem g w <-> pd !! i = Some g;
  mk_gen i g : pd !! i = Some g -> is_Some (x_gens x !! g);
  mk_acked t r g i g' : (t, r) ∈ l -> tag_gen x t g -> pd !! i = Some g' -> (g' < g)%nat -> i ∈ r_acked r;
  mk_owner o r i : x_owner x = Some o -> (TLive o, r) ∈ l -> i ∈ marked ->
    i ∈ r_acked r \/ (x_push x = None /\ mk = Some i);
}.

(** The views of those that have been dropped. *)
Definition dead (l : trs) (g : nat) (j : option nat) (z : view) : Prop :=
  exists r, (TDead g j, r) ∈ l /\ r_view r = z.

Record views_rel x y (l : trs) (lo : nat) : Prop := {
  vr_dead_gen g r : (TDead g None, r) ∈ l ->
    exists w, x_gens x !! g = Some w /\ vsub (r_view r) (ag_view w);
  vr_dead_task g j r : (TDead g (Some j), r) ∈ l ->
    exists d, x_tasks x !! j = Some d /\ dt_phase d = Releasing /\ dt_gen d = g /\ vsub (r_view r) (dt_view d);
  vr_gen g w : x_gens x !! g = Some w -> covered (ag_view w) (y_view y) (dead l g None);
  vr_task j d : x_tasks x !! j = Some d ->
    match dt_phase d with
    | Releasing => covered (dt_view d) (y_view y) (dead l (dt_gen d) (Some j))
    | Finalizing => exists w, x_gens x !! lo = Some w /\ dt_view d = ag_view w
    | Locked => forall j' r, (TDead lo j', r) ∉ l
    | Freeing => (forall j' r, (TDead lo j', r) ∉ l) /\ vsub (dt_view d) (y_view y)
    end;
}.

(** All but the memory and the lock. *)
Record core x y (l : trs) (pd : gmap Z nat) (lo : nat) (rem : list Z) (mk : option Z) : Prop := {
  co_proto : proto x lo;
  co_readers : y_readers y = l.*2;
  co_handles : handles_rel x l;
  co_marks : marks_rel x (y_marked y) l pd lo rem mk;
  co_rem : rem_ok x lo rem;
  co_views : views_rel x y l lo;
}.

Record rel x y (l : trs) (pd : gmap Z nat) (lo : nat) (rem : list Z) : Prop := {
  re_reach : reachable T source_orderings n y;
  re_core : core x y l pd lo rem (marking x y);
  re_mem : y_mem y = x_mem x;
  re_header : y_header y = x_header x;
  re_view : y_view y = match x_crit x with Some c => k_view c | None => x_lock_view x end;
  re_prog : match x_crit x with Some c => crit_rel x y c | None => y_prog y = None end;
  re_own o h : owner_op x = true -> x_owner x = Some o -> x_handles x !! o = Some h ->
    hd_held h = ∅ /\ vsub (hd_view h) (y_view y);
}.

Lemma todo_none x lo rem g w : todo x None lo rem g w = if decide (g = lo) then rem else ag_pending w.
Proof. unfold todo. by destruct (decide (S g = x_next_gen x)); apply app_nil_r. Qed.

Lemma re_proto x y l pd lo rem : rel x y l pd lo rem -> proto x lo.
Proof. intros R. apply R. Qed.

Lemma re_readers x y l pd lo rem : rel x y l pd lo rem -> y_readers y = l.*2.
Proof. intros R. apply R. Qed.

Lemma lives_app (l l' : trs) : lives (l ++ l') = lives l ++ lives l'.
Proof. apply omap_app. Qed.

Lemma lives_in (l : trs) k : k ∈ lives l <-> exists r, (TLive k, r) ∈ l.
Proof.
  unfold lives. rewrite list_elem_of_omap. split.
  - intros ([[k'|] r] & Hin & [= ->]). by exists r.
  - intros [r Hr]. by exists (TLive k, r).
Qed.

(** ** Steps of the client *)

Definition estep (y y' : sys T) : Prop := exists e a, exec source_orderings y e = Some (Ret (a, y')).
Definition esteps : sys T -> sys T -> Prop := rtc estep.

Lemma esteps_reachable y y' :
  reachable T source_orderings n y -> esteps y y' -> reachable T source_orderings n y'.
Proof. intros Hy. induction 1 as [|y y1 y2 (e & a & He) _ IH]; [done|]. apply IH. by eapply reach_step. Qed.

Definition first_reader : reader T := mkReader vbot ∅ None None ∅ ∅ ∅.

Lemma rel_new :
  esteps (sys_new n) (set_readers [first_reader] (sys_new n))
  /\ rel (rsys_new n) (set_readers [first_reader] (sys_new n)) [(TLive 0, first_reader)] ∅ 0 [].
Proof.
  assert (estep (sys_new n) (set_readers [first_reader] (sys_new n))) as Hs.
  { exists ENewReader, AStep. reflexivity. }
  split; [by apply rtc_once|]. split; cbn; try done.
  - eapply esteps_reachable; [apply reach_new|by apply rtc_once].
  - split; cbn; [apply proto_new|done|..].
    + split; cbn; [|apply NoDup_singleton|..].
      * intros k. by rewrite lookup_singleton_is_Some, list_elem_of_singleton.
      * intros k h r [= -> ->]%list_elem_of_singleton [_ <-]%lookup_singleton_Some. by split; try left.
      * intros g j r [=]%list_elem_of_singleton.
    + split; cbn.
      * done.
      * intros g w [<- <-]%lookup_singleton_Some. unfold todo, marking. cbn. split; [constructor|].
        intros i. by rewrite lookup_empty, elem_of_nil.
      * intros i g Hi. by rewrite lookup_empty in Hi.
      * intros t r g i g' _ _ Hi. by rewrite lookup_empty in Hi.
      * intros o r i _ _ Hi. set_solver.
    + split; [done|]. split; [intros j d Hj; cbn in Hj; by rewrite lookup_empty in Hj|].
      intros _ w Hw. cbn in Hw. by apply lookup_singleton_Some in Hw as [_ <-].
    + split; cbn.
      * intros g r [=]%list_elem_of_singleton.
      * intros g j r [=]%list_elem_of_singleton.
      * intros g w [_ <-]%lookup_singleton_Some. by apply covered_sub.
      * intros j d Hj. by rewrite lookup_empty in Hj.
Qed.

(** ** The parts of the relation that a step leaves alone *)

Definition same_on {B} (f : arc_gen -> B) x x' : Prop :=
  forall g, f <$> x_gens x' !! g = f <$> x_gens x !! g.

Lemma same_on_some {B} (f : arc_gen -> B) x x' g w' : same_on f x x' -> x_gens x' !! g = Some w' ->
  exists w, x_gens x !! g = Some w /\ f w = f w'.
Proof.
  intros Hs Hg. specialize (Hs g). rewrite Hg in Hs. cbn in Hs.
  destruct (x_gens x !! g) as [w|]; [|done]. exists w. split; [done|]. by injection Hs.
Qed.

Lemma same_on_is_Some {B} (f : arc_gen -> B) x x' g : same_on f x x' ->
  is_Some (x_gens x !! g) -> is_Some (x_gens x' !! g).
Proof.
  intros Hs [w Hw]. specialize (Hs g). rewrite Hw in Hs. destruct (x_gens x' !! g); [by eexists|done].
Qed.

Lemma same_on_put {B} (f : arc_gen -> B) x g w w' :
  x_gens x !! g = Some w -> f w' = f w -> same_on f x (put_gen g w' x).
Proof.
  intros Hw Hf g'. cbn. destruct (decide (g = g')) as [<-|].
  - rewrite lookup_insert_eq, Hw. cbn. by rewrite Hf.
  - by rewrite lookup_insert_ne.
Qed.

Lemma rem_ok_ext x x' lo rem :
  rem_ok x lo rem ->
  (forall c' j rest drops, x_crit x' = Some c' -> k_op c' = OFinalize j rest drops ->
     exists c drops', x_crit x = Some c /\ k_op c = OFinalize j rest drops') ->
  same_on ag_pending x x' ->
  (forall j d, x_tasks x' !! j = Some d -> dt_phase d = Freeing -> x_tasks x !! j = Some d) ->
  (forall j d, x_tasks x !! j = Some d -> dt_phase d = Locked \/ dt_phase d = Freeing ->
     exists j' d', x_tasks x' !! j' = Some d' /\ dt_phase d' = dt_phase d) ->
  rem_ok x' lo rem.
Proof.
  intros (H1 & H2 & H3) Hc Hg Ht1 Ht2. split; [intros c' j rest drops Hc' Hop; destruct (Hc c' j rest drops Hc' Hop) as (c & drops' & ? & ?); eauto|].
  split; [eauto|].
  intros Hno w' Hw'. destruct (same_on_some _ _ _ _ _ Hg Hw') as (w & Hw & <-). apply H3; [|done].
  intros j d Hj. destruct (dt_phase d) eqn:Hph; auto.
  - destruct (Ht2 j d Hj) as (j' & d' & Hj' & Hph'); [by left|]. destruct (Hno j' d' Hj'); congruence.
  - destruct (Ht2 j d Hj) as (j' & d' & Hj' & Hph'); [by right|]. destruct (Hno j' d' Hj'); congruence.
Qed.

Lemma marks_ext x D l pd lo rem mk x' l' :
  marks_rel x D l pd lo rem mk -> same_on ag_pending x x' ->
  x_next_gen x' = x_next_gen x -> x_push x' = x_push x ->
  (forall t r' g, (t, r') ∈ l' -> tag_gen x' t g ->
    exists t0 r, (t0, r) ∈ l /\ tag_gen x t0 g /\ r_acked r ⊆ r_acked r') ->
  (forall o, x_owner x' = Some o -> x_owner x = Some o /\
    forall r', (TLive o, r') ∈ l' -> exists r, (TLive o, r) ∈ l /\ r_acked r ⊆ r_acked r') ->
  marks_rel x' D l' pd lo rem mk.
Proof.
  intros M Hg Hn Hp Hacks Howner. destruct M as [M1 M3 M4 M5 M6]. split.
  - done.
  - intros g w' Hw'. destruct (same_on_some _ _ _ _ _ Hg Hw') as (w & Hw & Heq).
    unfold todo. rewrite Hn, <- Heq. by apply M3.
  - intros i g Hi. eapply same_on_is_Some; [done|]. by eapply M4.
  - intros t r' g i g' Hin Hgen Hi Hlt. destruct (Hacks t r' g Hin Hgen) as (t0 & r & Hr & Hgen0 & Hsub).
    apply Hsub. eauto.
  - intros o r' i Ho Hin Hi. rewrite Hp. destruct (Howner o Ho) as [Ho' Hl].
    destruct (Hl r' Hin) as (r & Hr & Hsub). destruct (M6 o r i Ho' Hr Hi) as [?|?]; [left; by apply Hsub|by right].
Qed.

Lemma views_ext x y l lo x' y' l' :
  views_rel x y l lo -> same_on ag_view x x' -> x_tasks x' = x_tasks x -> vsub (y_view y) (y_view y') ->
  (forall g j r, (TDead g j, r) ∈ l' <-> (TDead g j, r) ∈ l) -> views_rel x' y' l' lo.
Proof.
  intros [V1 V2 V3 V4] Hg Ht Hv Hl.
  assert (forall g j z, dead l g j z -> dead l' g j z \/ vsub z (y_view y')) as Hd.
  { intros g j z (r & Hr & <-). left. exists r. split; [by apply Hl|done]. }
  assert (forall g w, x_gens x !! g = Some w -> exists w', x_gens x' !! g = Some w' /\ ag_view w' = ag_view w) as Hg'.
  { intros g w Hw. destruct (same_on_is_Some _ _ _ g Hg ltac:(by eexists)) as [w' Hw']. exists w'. split; [done|].
    destruct (same_on_some _ _ _ _ _ Hg Hw') as (w0 & Hw0 & Heq). congruence. }
  split.
  - intros g r Hr. apply Hl in Hr. destruct (V1 g r Hr) as (w & Hw & Hs). destruct (Hg' g w Hw) as (w' & Hw' & Heq).
    exists w'. by rewrite Heq.
  - intros g j r. rewrite Hl, Ht. apply V2.
  - intros g w' Hw'. destruct (same_on_some _ _ _ _ _ Hg Hw') as (w & Hw & <-).
    eapply covered_mono; [by apply V3|done|apply Hd].
  - intros j d. rewrite Ht. intros Hj. specialize (V4 j d Hj). destruct (dt_phase d).
    + eapply covered_mono; [done|done|apply Hd].
    + destruct V4 as (w & Hw & Heq). destruct (Hg' _ w Hw) as (w' & Hw' & Heq'). exists w'. split; [done|congruence].
    + intros j' r. rewrite Hl. apply V4.
    + destruct V4 as [V4 V5]. split; [intros j' r; rewrite Hl; apply V4|by etrans].
Qed.

(** There is one reader for each handle. *)
Lemma live_unique (l1 l2 : trs) k r r0 : NoDup (lives (l1 ++ (TLive k, r) :: l2)) ->
  (TLive k, r0) ∈ l1 ++ (TLive k, r) :: l2 -> r0 = r.
Proof.
  rewrite lives_app, elem_of_app, elem_of_cons. intros (_ & H1 & H2)%NoDup_app Hin.
  destruct Hin as [Hin|[[= ->]|Hin]]; [|done|]; exfalso.
  - apply (H1 k); [apply lives_in; by eexists|by left].
  - apply NoDup_cons in H2 as [H2 _]. apply H2, lives_in. by eexists.
Qed.

Lemma handles_update x x' (l1 l2 : trs) k r h' r' :
  handles_rel x (l1 ++ (TLive k, r) :: l2) -> x_handles x' = <[k := h']> (x_handles x) ->
  live_rel h' r' -> handles_rel x' (l1 ++ (TLive k, r') :: l2).
Proof.
  intros [H1 H2 H3 H4] Hh Hl.
  assert (lives (l1 ++ (TLive k, r') :: l2) = lives (l1 ++ (TLive k, r) :: l2)) as Heq
    by (by rewrite !lives_app).
  assert (k ∈ lives (l1 ++ (TLive k, r) :: l2)) as Hk.
  { rewrite lives_app. apply elem_of_app. right. by left. }
  assert (forall t r0, (t, r0) ∈ l1 ++ (TLive k, r') :: l2 ->
    (t, r0) = (TLive k, r') \/ (t <> TLive k /\ (t, r0) ∈ l1 ++ (TLive k, r) :: l2)) as Hin.
  { intros t r0 Hin. rewrite elem_of_app, elem_of_cons in Hin.
    destruct (decide (t = TLive k)) as [->|Hne].
    - left. f_equal. apply (live_unique l1 l2 k r' r0); [by rewrite Heq|].
      by rewrite elem_of_app, elem_of_cons.
    - right. split; [done|]. rewrite elem_of_app, elem_of_cons.
      destruct Hin as [?|[[= ? _]|?]]; [by left|done|by right; right]. }
  split.
  - intros k'. rewrite Heq, <- H1, Hh, lookup_insert_is_Some. apply H1 in Hk.
    destruct (decide (k = k')) as [<-|]; naive_solver.
  - by rewrite Heq.
  - intros k' h0 r0 Hr. rewrite Hh, lookup_insert_Some. intros [[<- <-]|[Hne Hh0]].
    + by apply Hin in Hr as [[= ->]|[? _]].
    + apply Hin in Hr as [[= ? ?]|[_ Hr]]; [congruence|]. by eapply H3.
  - intros g j r0 [[=]|[_ Hr]]%Hin. by eapply H4.
Qed.

(** A new handle, and one that ends. *)
Lemma handles_add x x' (l : trs) k h' r' :
  handles_rel x l -> x_handles x !! k = None -> x_handles x' = <[k := h']> (x_handles x) ->
  live_rel h' r' -> handles_rel x' (l ++ [(TLive k, r')]).
Proof.
  intros [H1 H2 H3 H4] Hk Hh Hl.
  assert (k ∉ lives l) as Hn by (rewrite <- H1, Hk; by intros [? ?]).
  split.
  - intros k'. rewrite lives_app, elem_of_app, <- H1, Hh, lookup_insert_is_Some.
    change (lives [(TLive k, r')]) with [k]. rewrite list_elem_of_singleton.
    destruct (decide (k = k')) as [<-|]; naive_solver.
  - rewrite lives_app. apply NoDup_app. split; [done|]. change (lives [(TLive k, r')]) with [k].
    split; [|apply NoDup_singleton]. by intros k' Hk' ->%list_elem_of_singleton.
  - intros k' h0 r0. rewrite Hh, elem_of_app, list_elem_of_singleton, lookup_insert_Some.
    intros [Hr|[= Heq ->]] [[<- <-]|[Hne Hh0]]; try done.
    + destruct Hn. apply lives_in. by eexists.
    + by eapply H3.
  - intros g j r0. rewrite elem_of_app, list_elem_of_singleton. intros [Hr|[=]]. by eapply H4.
Qed.

Lemma handles_end x x' (l1 l2 : trs) k r g j :
  handles_rel x (l1 ++ (TLive k, r) :: l2) -> x_handles x' = delete k (x_handles x) -> r_prog r = None ->
  handles_rel x' (l1 ++ (TDead g j, r) :: l2).
Proof.
  intros [H1 H2 H3 H4] Hh Hp. rewrite lives_app in H1, H2. cbn in H1, H2.
  assert (lives (l1 ++ (TDead g j, r) :: l2) = lives l1 ++ lives l2) as Heq by (by rewrite lives_app).
  apply NoDup_app in H2 as (Ha & Hb & [Hc Hd]%NoDup_cons).
  assert (k ∉ lives l1 ++ lives l2) as Hn.
  { rewrite elem_of_app. intros [?|?]; [|done]. apply (Hb k); [done|by left]. }
  split.
  - intros k'. rewrite Heq, Hh, lookup_delete_is_Some, H1, !elem_of_app, elem_of_cons.
    rewrite elem_of_app in Hn. destruct (decide (k = k')) as [<-|]; naive_solver.
  - rewrite Heq. apply NoDup_app. split; [done|]. split; [|done]. intros k' Hk' Hk2. apply (Hb k'); [done|by right].
  - intros k' h0 r0. rewrite Hh, elem_of_app, elem_of_cons, lookup_delete_Some. intros Hin [Hne Hh0].
    eapply H3; [|done]. rewrite elem_of_app, elem_of_cons. destruct Hin as [?|[[=]|?]]; auto.
  - intros g' j' r0. rewrite elem_of_app, elem_of_cons. intros Hin. destruct Hin as [?|[[= -> -> ->]|?]]; [|done|].
    + eapply (H4 g' j'). rewrite elem_of_app. by left.
    + eapply (H4 g' j'). rewrite elem_of_app. right. by right.
Qed.

(** The view of a handle passes to the drop of its reference. *)
Lemma views_spawn x y (l1 l2 : trs) lo x' y' k r j d :
  views_rel x y (l1 ++ (TLive k, r) :: l2) lo ->
  (forall g w, x_gens x !! g = Some w -> exists w', x_gens x' !! g = Some w' /\ ag_view w' = ag_view w) ->
  (forall g w', x_gens x' !! g = Some w' ->
    vsub (ag_view w') (y_view y') \/ exists w, x_gens x !! g = Some w /\ ag_view w = ag_view w') ->
  x_tasks x' = <[j := d]> (x_tasks x) -> x_tasks x !! j = None ->
  dt_phase d = Releasing -> dt_view d = r_view r -> vsub (y_view y) (y_view y') ->
  (forall j' d', x_tasks x !! j' = Some d' -> dt_phase d' <> Releasing -> dt_gen d <> lo) ->
  views_rel x' y' (l1 ++ (TDead (dt_gen d) (Some j), r) :: l2) lo.
Proof.
  intros [V1 V2 V3 V4] Hg Hg' Ht Hj Hph Hv Hy Hlo.
  set (l := l1 ++ (TLive k, r) :: l2) in *. set (l' := l1 ++ (TDead (dt_gen d) (Some j), r) :: l2).
  assert (forall g j0 r0, (TDead g j0, r0) ∈ l' -> (TDead g j0, r0) ∈ l \/ (g = dt_gen d /\ j0 = Some j /\ r0 = r)) as Hin.
  { intros g j0 r0. unfold l, l'. rewrite !elem_of_app, !elem_of_cons.
    intros [?|[[= -> -> ->]|?]]; [by left; left|by right|by left; right; right]. }
  assert (forall g j0 r0, (TDead g j0, r0) ∈ l -> (TDead g j0, r0) ∈ l') as Hin'.
  { intros g j0 r0. unfold l, l'. rewrite !elem_of_app, !elem_of_cons. intros [?|[[=]|?]]; auto. }
  assert (forall g j0 z, dead l g j0 z -> dead l' g j0 z \/ vsub z (y_view y')) as Hd.
  { intros g j0 z (r0 & Hr & <-). left. exists r0. split; [by apply Hin'|done]. }
  split.
  - intros g r0 Hr. apply Hin in Hr as [Hr|(_ & ? & _)]; [|done].
    destruct (V1 g r0 Hr) as (w & Hw & Hs). destruct (Hg g w Hw) as (w' & Hw' & Heq). exists w'. by rewrite Heq.
  - intros g j0 r0 Hr. rewrite Ht. apply Hin in Hr as [Hr|(-> & [= ->] & ->)].
    + destruct (V2 g j0 r0 Hr) as (d0 & Hd0 & ?). exists d0. split; [|done].
      rewrite lookup_insert_ne; [done|]. congruence.
    + exists d. rewrite lookup_insert_eq, Hv. done.
  - intros g w' Hw'. destruct (Hg' g w' Hw') as [?|(w & Hw & <-)]; [by apply covered_sub|].
    eapply covered_mono; [by apply V3|done|apply Hd].
  - intros j0 d0. rewrite Ht, lookup_insert_Some. intros [[<- <-]|[Hne Hj0]].
    + rewrite Hph. apply covered_self. rewrite Hv. exists r. split; [|done].
      unfold l'. rewrite elem_of_app. right. by left.
    + specialize (V4 j0 d0 Hj0). destruct (dt_phase d0) eqn:Hph0.
      * eapply covered_mono; [done|done|apply Hd].
      * destruct V4 as (w & Hw & Heq). destruct (Hg _ w Hw) as (w' & Hw' & Heq'). exists w'. split; [done|congruence].
      * intros j' r0 Hr. apply Hin in Hr as [Hr|(Heq & _)]; [by eapply V4|].
        apply (Hlo j0 d0 Hj0); [congruence|done].
      * destruct V4 as [V4 V5]. split; [|by etrans]. intros j' r0 Hr.
        apply Hin in Hr as [Hr|(Heq & _)]; [by eapply V4|]. apply (Hlo j0 d0 Hj0); [congruence|done].
Qed.

(** ** Steps of a handle *)

Lemma core_mem x y l pd lo rem mk m : core x y l pd lo rem mk -> core (rset_mem m x) y l pd lo rem mk.
Proof. intros [C1 C2 [] [] ? []]. split; [by apply proto_mem|done|by split|by split|done|by split]. Qed.

(** A handle that stays on its generation. *)
Lemma core_handle x y l1 l2 k r pd lo rem mk h h' r' y' :
  core x y (l1 ++ (TLive k, r) :: l2) pd lo rem mk -> x_handles x !! k = Some h ->
  y_readers y' = (l1 ++ (TLive k, r') :: l2).*2 -> y_marked y' = y_marked y -> vsub (y_view y) (y_view y') ->
  live_rel h' r' -> hd_gen h' = hd_gen h -> r_acked r ⊆ r_acked r' ->
  (x_owner x = Some k -> owner_busy x = true -> hd_prog h' = None) ->
  core (put_handle k h' x) y' (l1 ++ (TLive k, r') :: l2) pd lo rem mk.
Proof.
  intros [C1 C2 C3 C4 C6 C5] Hk Hr Hm Hv Hl Hg Ha Hb. split; [|done|..].
  - by apply (proto_put_handle _ _ _ h).
  - by eapply handles_update.
  - rewrite Hm. eapply marks_ext; [exact C4|..]; try done.
    + intros t r0 g Hin Hgen. assert (tag_gen x t g) as Hgen0.
      { destruct t as [k'|]; [|done]. destruct Hgen as (h0 & Hh0 & <-). cbn in Hh0.
        apply lookup_insert_Some in Hh0 as [[<- <-]|[_ ?]]; [by exists h|by exists h0]. }
      rewrite elem_of_app, elem_of_cons in Hin. destruct Hin as [?|[[= -> ->]|?]].
      * exists t, r0. split; [set_solver|done].
      * exists (TLive k), r. split; [set_solver|done].
      * exists t, r0. split; [set_solver|done].
    + intros o Ho. split; [done|]. intros r0. rewrite elem_of_app, elem_of_cons. intros [?|[[= -> ->]|?]].
      * exists r0. split; [set_solver|done].
      * exists r. split; [set_solver|done].
      * exists r0. split; [set_solver|done].
  - apply (rem_ok_ext x); [done|eauto|done|done|]. intros j d Hj _. by exists j, d.
  - eapply views_ext; [exact C5|done|done|done|]. intros g j r0. rewrite !elem_of_app, !elem_of_cons.
    split; intros [?|[[=]|?]]; auto.
Qed.
End rel.
Arguments re_proto {T n x y l pd lo rem} _.
Arguments re_readers {T n x y l pd lo rem} _.
