(* ===== verification/RcuWeakSim.v ===== *)
(** Every step of the [RcuCslab] under concurrent use is made of steps of a
    client that keeps the contract of the slab: the calls on readers. *)

From S2P Require Import Prelude CslabStorage Cslab CslabIter CslabProps Weak WeakCslab WeakSystem WeakCorrect.
From S2P Require Import RcuWeak RcuWeakProto RcuWeakRel.

Section sim.
Context {T : Type} (el : layout) (n : Z) (c0 : cslab T).
Context (Hel : entry_layout_ok el) (Hnew : with_fixed_capacity el n = Ret c0).
Implicit Types (x : rsys T) (y : sys T) (r : reader T) (h : handle T).
Abbreviation trs := (list (tag * reader T)).
Abbreviation ord := source_orderings.
Abbreviation rel := (rel n).

Lemma client_inv y : reachable T ord n y -> exists s gs, WeakSysInv.sinv n y s gs.
Proof using Hel Hnew. intros Hy. eapply reachable_inv; [by eapply capacity_bound|done..]. Qed.

Lemma client_returns y e o : reachable T ord n y -> exec ord y e = Some o -> exists a y', o = Ret (a, y').
Proof using Hel Hnew.
  intros Hy He. destruct (client_inv y Hy) as (s & gs & I).
  destruct (exec_returns n (capacity_bound el n c0 Hel Hnew) y s gs e o I He) as (a & y' & Ho & _). eauto.
Qed.

(** The answers that the client of the slab gets, too. *)
Definition visible (a : ransw T) : option (resp T) :=
  match a with RReader r => Some (AReader r) | RWriter r => Some (AWriter r) | _ => None end.

Definition heard y (a : ransw T) y' : Prop :=
  match visible a with
  | None => True
  | Some b => exists y1 e y2, esteps y y1 /\ exec ord y1 e = Some (Ret (b, y2)) /\ esteps y2 y'
  end.

(** What a step of [x] has to be. *)
Definition simulated y (o : outcome (ransw T * rsys T)) : Prop :=
  exists a x' y' l' pd' lo' rem', o = Ret (a, x') /\ esteps y y' /\ heard y a y' /\ rel x' y' l' pd' lo' rem'.

Lemma idle_reader_at y (l1 l2 : trs) t r : y_readers y = (l1 ++ (t, r) :: l2).*2 -> r_prog r = None ->
  idle_reader y (length l1) = Some r.
Proof using.
  intros Hy Hr. unfold idle_reader. rewrite Hy, fmap_app, fmap_cons, list_lookup_middle by (by rewrite length_fmap).
  cbn. by rewrite Hr.
Qed.

Lemma set_reader_at y (l1 l2 : trs) t t' r r' : y_readers y = (l1 ++ (t, r) :: l2).*2 ->
  <[length l1 := r']> (y_readers y) = (l1 ++ (t', r') :: l2).*2.
Proof using.
  intros ->. rewrite !fmap_app, !fmap_cons. cbn.
  rewrite insert_app_r_alt by (by rewrite length_fmap). by rewrite length_fmap, Nat.sub_diag.
Qed.

Lemma set_mem_id y : WeakSystem.set_mem (y_mem y) y = y.
Proof using. by destruct y. Qed.

Lemma rset_mem_id x : rset_mem (x_mem x) x = x.
Proof using. by destruct x. Qed.

(** What a reader has acknowledged, it has been told of. *)
Lemma client_noted y (l1 l2 : trs) t r : reachable T ord n y -> y_readers y = (l1 ++ (t, r) :: l2).*2 ->
  r_acked r ⊆ r_noted r.
Proof using Hel Hnew.
  intros Hreach Hy. destruct (client_inv y Hreach) as (s & gs & I).
  assert (y_readers y !! length l1 = Some r) as Hr.
  { rewrite Hy, fmap_app, fmap_cons. apply list_lookup_middle. by rewrite length_fmap. }
  destruct (WeakSteps.sinv_ghost n y s gs _ _ I Hr) as (g & _ & Hrel & _ & Hok).
  rewrite <- (WeakSysInv.rr_acked _ _ _ Hrel), <- (WeakSysInv.rr_noted _ _ _ Hrel). apply Hok.
Qed.

(** ** Handles *)

Lemma live_split x y l pd lo rem k h : rel x y l pd lo rem -> x_handles x !! k = Some h ->
  exists l1 r l2, l = l1 ++ (TLive k, r) :: l2 /\ live_rel h r.
Proof using.
  intros R Hk. assert (k ∈ lives l) as Hin.
  { apply (hr_live _ _ (co_handles _ _ _ _ _ _ _ (re_core _ _ _ _ _ _ _ R))). by eexists. }
  apply lives_in in Hin as [r Hr]. pose proof Hr as Hr'. apply list_elem_of_split in Hr' as (l1 & l2 & ->).
  exists l1, r, l2. split; [done|]. by apply (hr_rel _ _ (co_handles _ _ _ _ _ _ _ (re_core _ _ _ _ _ _ _ R)) k h r).
Qed.

(** What a handle does that stays on its generation. *)
Lemma rel_handle x y l1 l2 k r pd lo rem h h' r' m y' :
  rel x y (l1 ++ (TLive k, r) :: l2) pd lo rem -> x_handles x !! k = Some h ->
  esteps y y' -> y' = set_readers ((l1 ++ (TLive k, r') :: l2).*2) (WeakSystem.set_mem m y) ->
  live_rel h' r' -> hd_gen h' = hd_gen h -> r_acked r' = r_acked r ->
  (x_owner x = Some k -> owner_busy x = false) ->
  rel (put_handle k h' (rset_mem m x)) y' (l1 ++ (TLive k, r') :: l2) pd lo rem.
Proof using.
  intros R Hk Hs -> Hl Hg Ha Hb. destruct R as [R1 C R3 R4 R5 R6 R7]. split; cbn; try done.
  - by eapply esteps_reachable.
  - eapply (core_handle (rset_mem m x)); [by apply core_mem|done..|by rewrite Ha|].
    cbn. intros Ho Hb'. change (owner_busy x = true) in Hb'. rewrite (Hb Ho) in Hb'. done.
  - intros o h0 Hop Ho. rewrite lookup_insert_Some. intros [[-> <-]|[_ Hh0]]; [|by eapply R7].
    apply owner_op_busy in Hop. change (owner_busy x = true) in Hop. rewrite (Hb Ho) in Hop. done.
Qed.

(** An access of a handle, or its first. *)
Lemma sim_run x y l1 l2 k r pd lo rem h p h0 r0 m e :
  rel x y (l1 ++ (TLive k, r) :: l2) pd lo rem -> x_handles x !! k = Some h ->
  hd_gen h0 = hd_gen h -> r_acked r0 = r_acked r ->
  hd_view h0 = r_view r0 -> hd_held h0 = r_held r0 -> (hd_iter h0 = None \/ hd_iter h0 = r_iter r0) ->
  (x_owner x = Some k -> owner_busy x = false) ->
  exec ord y e = Some (run_reader (length l1) p r0 (WeakSystem.set_mem m y)) ->
  simulated y (run_handle k p h0 (rset_mem m x)).
Proof using Hel Hnew.
  intros R Hk Hgen Hack Hview Hheld Hiter Hbusy He.
  destruct (client_returns y e _ (re_reach _ _ _ _ _ _ _ R) He) as (a & y' & Hret).
  assert (estep y y') as Hs by (exists e, a; by rewrite He, Hret).
  assert (forall r' h', live_rel h' r' -> hd_gen h' = hd_gen h -> r_acked r' = r_acked r ->
    y' = set_readers (<[length l1 := r']> (y_readers y)) (WeakSystem.set_mem m y) ->
    rel (put_handle k h' (rset_mem m x)) y' (l1 ++ (TLive k, r') :: l2) pd lo rem) as Hrel.
  { intros r' h' Hl Hg' Ha' Hy'. eapply rel_handle; try done; [by apply rtc_once|].
    rewrite Hy'. f_equal. eapply set_reader_at, R. }
  unfold simulated, run_handle, run_reader in *. destruct p as [o|l a0 f|l rel v f|i f|i e0 f].
  { destruct o as [res| | |]; try done. injection Hret as <- <-.
    eexists _, _, _, _, pd, lo, rem. split; [reflexivity|]. split; [by apply rtc_once|].
    split; [by eexists y, e, _; split; [apply rtc_refl|split; [rewrite He; reflexivity|apply rtc_refl]]|].
    apply (Hrel (finish_reader res r0)); try done. split; cbn; try done; [by rewrite Hheld|].
    destruct res as [?|?|it|? ? [? it]]; auto. }
  all: injection Hret as <- <-; eexists _, _, _, _, pd, lo, rem; split; [reflexivity|];
    split; [by apply rtc_once|]; split; [done|]; eapply Hrel; [| | |reflexivity]; [by split|done..].
Qed.

Lemma idle_spec x k h : idle x k = Some h ->
  x_handles x !! k = Some h /\ hd_prog h = None /\ (x_owner x = Some k -> owner_busy x = false).
Proof using.
  unfold idle. destruct (x_handles x !! k) as [h'|]; [|done]. cbn. destruct (hd_prog h') eqn:Hp; [done|].
  destruct (bool_decide (x_owner x = Some k)) eqn:Ho, (owner_busy x) eqn:Hb; cbn; try done; intros [= <-];
    (split; [done|]); (split; [done|]); try done.
  intros Ho'. apply bool_decide_eq_false in Ho. done.
Qed.

(** A call on an idle handle. *)
Lemma sim_call x y l pd lo rem k h p e :
  rel x y l pd lo rem -> idle x k = Some h ->
  (forall l1 r l2, l = l1 ++ (TLive k, r) :: l2 -> live_rel h r -> idle_reader y (length l1) = Some r ->
    exec ord y (e (length l1)) = Some (run_reader (length l1) p r y)) ->
  simulated y (run_handle k p h x).
Proof using Hel Hnew.
  intros R Hi He. apply idle_spec in Hi as (Hk & Hp & Hb).
  destruct (live_split _ _ _ _ _ _ _ _ R Hk) as (l1 & r & l2 & -> & Hl).
  assert (idle_reader y (length l1) = Some r) as Hidle.
  { eapply idle_reader_at; [apply R|]. by rewrite <- (lv_prog _ _ Hl). }
  rewrite <- (rset_mem_id x), <- (re_mem _ _ _ _ _ _ _ R).
  eapply sim_run; [exact R|done|done|done|apply Hl..|done|].
  rewrite set_mem_id. by apply (He l1 r l2).
Qed.

Lemma sim_read x y l pd lo rem k h p choice o :
  rel x y l pd lo rem -> x_handles x !! k = Some h -> hd_prog h = Some p ->
  prog_step (x_mem x) (hd_view h) p choice = Some o ->
  simulated y ('(m, V, p') ← o; run_handle k p' (hset_view V h) (rset_mem m x)).
Proof using Hel Hnew.
  intros R Hk Hp Ho. destruct (live_split _ _ _ _ _ _ _ _ R Hk) as (l1 & r & l2 & -> & Hl).
  assert (y_readers y !! length l1 = Some r) as Hr.
  { rewrite (re_readers R), fmap_app, fmap_cons. apply list_lookup_middle. by rewrite length_fmap. }
  rewrite (lv_view _ _ Hl), <- (re_mem _ _ _ _ _ _ _ R) in Ho.
  assert (exec ord y (EReader (length l1) choice)
    = Some ('(m, V, p') ← o; run_reader (length l1) p' (rset_view V r) (WeakSystem.set_mem m y))) as He.
  { cbn. rewrite Hr. cbn. rewrite <- (lv_prog _ _ Hl), Hp. cbn. by rewrite Ho. }
  destruct o as [[[m V] p']| | |]; cbn [mbind outcome_bind] in *;
    try by destruct (client_returns y _ _ (re_reach _ _ _ _ _ _ _ R) He) as (? & ? & ?).
  refine (sim_run _ _ _ _ _ _ _ _ _ _ _ _ _ _ _ R Hk _ _ _ _ _ _ He); [done|done|done|apply Hl..|].
  intros Hown. destruct (owner_busy x) eqn:Hb; [|done].
  destruct (pr_owner _ _ (re_proto R) k Hown) as (h' & Hh' & _ & Hbusy).
  rewrite Hk in Hh'. injection Hh' as <-. rewrite (Hbusy Hb) in Hp. done.
Qed.

Lemma sim_forget x y l pd lo rem k h i :
  rel x y l pd lo rem -> idle x k = Some h ->
  simulated y (Ret (RStep, put_handle k (hset_held (hd_held h ∖ {[ i ]}) (hd_iter h) h) x)).
Proof using.
  intros R Hi. apply idle_spec in Hi as (Hk & Hp & Hb).
  destruct (live_split _ _ _ _ _ _ _ _ R Hk) as (l1 & r & l2 & -> & Hl).
  assert (estep y (set_readers ((l1 ++ (TLive k, rset_held (r_held r ∖ {[ i ]}) (r_iter r) r) :: l2).*2)
    (WeakSystem.set_mem (x_mem x) y))) as Hs.
  { exists (ERelease (length l1) i), AStep. cbn.
    rewrite (idle_reader_at _ _ _ _ _ (re_readers R)) by (by rewrite <- (lv_prog _ _ Hl)).
    cbn. rewrite (set_reader_at _ _ _ _ (TLive k) _ _ (re_readers R)).
    by rewrite <- (re_mem _ _ _ _ _ _ _ R), set_mem_id. }
  eexists _, _, _, _, pd, lo, rem. split; [reflexivity|]. split; [by apply rtc_once|]. split; [done|].
  rewrite <- (rset_mem_id x) at 1. eapply rel_handle; try done; [by apply rtc_once|].
  destruct Hl. split; cbn; try done; [congruence|..]; auto.
Qed.

Lemma sim_gossip x y l pd lo rem k k' h h' :
  rel x y l pd lo rem -> idle x k = Some h -> idle x k' = Some h' ->
  simulated y (Ret (RStep, put_handle k' (hset_view (vjoin (hd_view h') (hd_view h)) h') x)).
Proof using.
  intros R Hi Hi'. apply idle_spec in Hi as (Hk & Hp & _). apply idle_spec in Hi' as (Hk' & Hp' & Hb').
  destruct (live_split _ _ _ _ _ _ _ _ R Hk) as (m1 & r & m2 & Heq & Hl).
  destruct (live_split _ _ _ _ _ _ _ _ R Hk') as (l1 & r' & l2 & -> & Hl').
  assert (y_readers y = (m1 ++ (TLive k, r) :: m2).*2) as Hy by (rewrite <- Heq; apply R).
  assert (estep y (set_readers ((l1 ++ (TLive k', rset_view (vjoin (r_view r') (r_view r)) r') :: l2).*2)
    (WeakSystem.set_mem (x_mem x) y))) as Hs.
  { exists (EGossip (length m1) (length l1)), AStep. cbn.
    rewrite (idle_reader_at _ _ _ _ _ Hy) by (by rewrite <- (lv_prog _ _ Hl)). cbn.
    rewrite (idle_reader_at _ _ _ _ _ (re_readers R)) by (by rewrite <- (lv_prog _ _ Hl')). cbn.
    rewrite (set_reader_at _ _ _ _ (TLive k') _ _ (re_readers R)).
    by rewrite <- (re_mem _ _ _ _ _ _ _ R), set_mem_id. }
  eexists _, _, _, _, pd, lo, rem. split; [reflexivity|]. split; [by apply rtc_once|]. split; [done|].
  rewrite <- (rset_mem_id x) at 1. eapply rel_handle; try done; [by apply rtc_once|].
  destruct Hl, Hl'. split; cbn; try done. congruence.
Qed.

Lemma sim_clone x y l pd lo rem k h w :
  rel x y l pd lo rem -> idle x k = Some h -> x_gens x !! hd_gen h = Some w ->
  simulated y (Ret (RStep, bump (put_handle (x_fresh x) (mkHandle (hd_gen h) (hd_view h) ∅ None None)
    (put_gen (hd_gen h) (aset_strong (S (ag_strong w)) (ag_view w) w) x)))).
Proof using Hel Hnew.
  intros R Hi Hw. apply idle_spec in Hi as (Hk & Hp & _).
  destruct (live_split _ _ _ _ _ _ _ _ R Hk) as (l1 & r & l2 & Heq & Hl).
  set (r' := mkReader (r_view r) ∅ None None (r_must r) (r_noted r) (r_noted r) : reader T).
  assert (y_readers y = (l1 ++ (TLive k, r) :: l2).*2) as Hy by (rewrite <- Heq; apply R).
  assert (estep y (set_readers ((l ++ [(TLive (x_fresh x), r')]).*2) y)) as Hs.
  { exists (EClone (length l1) []), AStep. cbn. rewrite (idle_reader_at _ _ _ _ _ Hy) by (by rewrite <- (lv_prog _ _ Hl)).
    cbn. rewrite fmap_app. cbn. by rewrite (re_readers R). }
  pose proof (client_noted y l1 l2 (TLive k) r (re_reach _ _ _ _ _ _ _ R) Hy) as Hsub.
  destruct (pr_fresh _ _ (re_proto R) (x_fresh x) (le_n _)) as [Hfresh _].
  eexists _, _, _, _, pd, lo, rem. split; [reflexivity|]. split; [by apply rtc_once|]. split; [done|].
  assert (same_on ag_pending x (put_gen (hd_gen h) (aset_strong (S (ag_strong w)) (ag_view w) w) x)) as Hsp
    by (by eapply same_on_put).
  assert (same_on ag_view x (put_gen (hd_gen h) (aset_strong (S (ag_strong w)) (ag_view w) w) x)) as Hsv
    by (by eapply same_on_put).
  assert ((TLive k, r) ∈ l) as Hin by (rewrite Heq, elem_of_app; right; by left).
  destruct R as [R1 [C1 C2 C3 C4 C6 C5] R3 R4 R5 R6 R7]. split; cbn; try done;
    [by eapply esteps_reachable; [|by apply rtc_once]| |].
  2: { intros o h0 Hop Ho. rewrite lookup_insert_Some. intros [[<- <-]|[_ ?]]; [|by eapply R7].
       destruct (pr_owner _ _ C1 _ Ho) as (h1 & Hh1 & _). congruence. }
  split; cbn; [by eapply proto_clone|done|..].
  - eapply handles_add; [exact C3|exact Hfresh|reflexivity|]. split; cbn; try done; [apply Hl|by left].
  - eapply marks_ext; [exact C4|..]; try done.
    + intros t r0 g. rewrite elem_of_app, list_elem_of_singleton. intros [Hin0|[= -> ->]] Hgen.
      * exists t, r0. split; [done|]. split; [|done]. destruct t as [k'|]; [|done].
        destruct Hgen as (h0 & Hh0 & <-). cbn in Hh0. apply lookup_insert_Some in Hh0 as [[<- <-]|[_ ?]]; [|by exists h0].
        exfalso. assert (is_Some (x_handles x !! x_fresh x)) as [? ?]; [|congruence].
        apply (hr_live _ _ C3), lives_in. by eexists.
      * exists (TLive k), r. split; [done|]. split; [|done]. destruct Hgen as (h0 & Hh0 & <-). cbn in Hh0.
        rewrite lookup_insert_eq in Hh0. injection Hh0 as <-. by exists h.
    + intros o Ho. split; [done|]. intros r0. rewrite elem_of_app, list_elem_of_singleton. intros [?|[= -> ->]].
      * by exists r0.
      * destruct (pr_owner _ _ C1 _ Ho) as (h0 & Hh0 & _). congruence.
  - apply (rem_ok_ext x); [done|eauto|exact Hsp|done|]. intros j d Hj _. by exists j, d.
  - eapply views_ext; [exact C5|exact Hsv|done|done|]. intros g j r0.
    rewrite elem_of_app, list_elem_of_singleton. split; [intros [?|[=]]; done|by left].
Qed.

(** The end of a handle; that of the [RcuCslab] takes the name of its owner. *)
Lemma sim_end x y l pd lo rem k h ow :
  rel x y l pd lo rem -> idle x k = Some h ->
  (ow = x_owner x /\ x_owner x <> Some k \/ ow = None /\ x_owner x = Some k) ->
  simulated y (Ret (RStep, spawn_drop h (set_owner ow (set_handles (delete k (x_handles x)) x)))).
Proof using.
  intros R Hi How. apply idle_spec in Hi as (Hk & Hp & Hb).
  destruct (live_split _ _ _ _ _ _ _ _ R Hk) as (l1 & r & l2 & -> & Hl).
  destruct (pr_fresh _ _ (re_proto R) (x_fresh x) (le_n _)) as [Hfh Hft].
  eexists _, _, y, (l1 ++ (TDead (hd_gen h) (Some (x_fresh x)), r) :: l2), pd, lo, rem.
  split; [reflexivity|]. split; [apply rtc_refl|]. split; [done|].
  assert (proto (set_owner ow x) lo) as P'.
  { destruct How as [[-> _]|[-> Ho]]; [by destruct x; apply R|]. apply proto_no_owner; [apply R|auto]. }
  destruct R as [R1 [C1 C2 C3 C4 C6 C5] R3 R4 R5 R6 R7].
  split; cbn; try done; cycle 1.
  { intros o h0 Hop Ho [_ Hh0]%lookup_delete_Some. destruct How as [[-> _]|[-> _]]; [|done]. by eapply R7. }
  split; cbn; [|by rewrite C2, !fmap_app|..].
  - apply (proto_spawn (set_owner ow x) lo k h P' Hk). cbn. destruct How as [[-> ?]|[-> ?]]; done.
  - eapply handles_end; [exact C3|reflexivity|]. by rewrite <- (lv_prog _ _ Hl).
  - eapply marks_ext; [exact C4|..]; try done.
    + intros t r0 g. rewrite elem_of_app, elem_of_cons.
      assert (forall t, tag_gen (spawn_drop h (set_owner ow (set_handles (delete k (x_handles x)) x))) t g -> tag_gen x t g) as Hgen.
      { intros [k'|]; [|done]. intros (h0 & Hh0 & <-). cbn in Hh0. apply lookup_delete_Some in Hh0 as [_ ?]. by exists h0. }
      intros [?|[[= -> ->]|?]] Ht.
      * exists t, r0. rewrite elem_of_app. auto.
      * exists (TLive k), r. split; [rewrite elem_of_app; right; by left|]. split; [by exists h|done].
      * exists t, r0. rewrite elem_of_app, elem_of_cons. auto.
    + intros o Ho. destruct How as [[-> Hne]|[-> _]]; [|done]. split; [done|]. intros r0.
      rewrite elem_of_app, elem_of_cons. intros [?|[[=]|?]]; exists r0; rewrite elem_of_app, elem_of_cons; auto.
  - apply (rem_ok_ext x); [done|eauto|done| |]; cbn.
    + intros j d. rewrite lookup_insert_Some. intros [[<- <-]|[_ ?]] Hph; done.
    + intros j d Hj _. exists j, d. rewrite lookup_insert_ne; [done|]. congruence.
  - apply (views_spawn x y l1 l2 lo _ y k r (x_fresh x) (mkTask (hd_gen h) (hd_view h) Releasing)); try done.
    + intros g w Hw. by exists w.
    + intros g w Hw. right. by exists w.
    + apply Hl.
    + cbn. intros j d Hj Hph Heq. destruct (pr_front _ _ C1 j d Hj Hph) as (_ & w & Hw & H0).
      destruct (proto_dead x lo lo w C1 Hw H0) as (_ & Hn & _). by apply (Hn k h).
Qed.
End sim.
