(* ===== verification/RcuWeakOwner.v ===== *)
(** The steps of the [RcuCslab] itself as steps of a client that keeps the
    contract: what it does under the lock, [mark_removed] and
    [advance_generation]. *)

From S2P Require Import Prelude CslabStorage Cslab CslabIter CslabProps Weak WeakCslab WeakSystem WeakCorrect.
From S2P Require Import RcuWeak RcuWeakProto RcuWeakRel RcuWeakSim.

(** An access adds to the view of its thread. *)
Lemma prog_step_grows {T A} (m m' : mem T) V V' (p p' : prog T A) choice :
  prog_step m V p choice = Some (Ret (m', V', p')) -> vsub V V'.
Proof.
  destruct p as [o|l acq k|l rel v k|i k|i e k]; cbn; [done|..].
  - case_decide as Hc; [|done]. destruct (m_hist m l !! choice) as [msg|]; [|done].
    assert (vsub V (see_atomic l choice V)) as Hs.
    { split; [split|]; cbn; [|done|done]. intros l'. destruct (decide (l' = l)) as [->|].
      - by rewrite fn_lookup_insert.
      - by rewrite fn_lookup_insert_ne. }
    intros [= <- <- <-]. destruct acq; [|done]. etrans; [exact Hs|apply vsub_join_l].
  - case_decide as Hc; [|done]. intros [= <- <- <-]. split; [split|]; cbn; [|done|done].
    intros l'. destruct (decide (l' = l)) as [->|].
    + rewrite fn_lookup_insert. lia.
    + by rewrite fn_lookup_insert_ne.
  - case_decide as Hc; [|done]. intros [= <- <- <-]. split; [done|]. cbn. apply union_subseteq_r.
  - case_decide as Hc; [|done]. intros [= <- <- <-]. split; [split|]; cbn; [done| |done].
    intros i'. destruct (decide (i' = i)) as [->|].
    + rewrite fn_lookup_insert. lia.
    + by rewrite fn_lookup_insert_ne.
Qed.

Section parts.
Context {T : Type}.
Implicit Types (x : rsys T) (y : sys T) (r : reader T) (h : handle T).
Abbreviation trs := (list (tag * reader T)).

(** ** Parts of the relation *)

(** A step of the slab that leaves the readers and the marks. *)
Lemma core_slab x y y' (l : trs) pd lo rem mk :
  core x y l pd lo rem mk -> y_readers y' = y_readers y -> y_marked y' = y_marked y ->
  vsub (y_view y) (y_view y') -> core x y' l pd lo rem mk.
Proof.
  intros [C1 C2 C3 C4 C5 C6] Hr Hm Hv. split; try done; [by rewrite Hr|by rewrite Hm|].
  by eapply views_ext.
Qed.

(** The lock, in the hands of the [RcuCslab]. *)
Lemma core_lock x y (l : trs) pd lo rem mk hd V c :
  core x y l pd lo rem mk -> (x_crit x = None \/ owner_op x = true) ->
  match c with
  | Some c => x_push x = None
      /\ (forall j rest drops, k_op c <> OFinalize j rest drops)
      /\ exists o h, x_owner x = Some o /\ x_handles x !! o = Some h /\ hd_prog h = None
  | None => True
  end -> core (set_lock hd V c x) y l pd lo rem mk.
Proof.
  intros [C1 C2 [] [] C5 []] Hold Hc. split; [by apply proto_owner_crit|done|by split|by split| |by split].
  apply (rem_ok_ext x); [done| |done|done|by intros j d Hj _; exists j, d].
  cbn. intros c' j rest drops -> Hop. destruct Hc as (_ & Hno & _). by destruct (Hno j rest drops).
Qed.

(** The index that has been marked waits to be put into [pending_removes]. *)
Lemma core_push x y (l : trs) pd lo rem i o h :
  core x y l pd lo rem (Some i) -> x_crit x = None -> x_push x = None ->
  x_owner x = Some o -> x_handles x !! o = Some h -> hd_prog h = None ->
  (forall r, (TLive o, r) ∈ l -> y_marked y ⊆ r_acked r) ->
  core (set_push (Some i) x) y l pd lo rem (Some i).
Proof.
  intros [C1 C2 [] [M1 M2 M3 M4 M5] C5 []] Hc Hp Ho Hh Hpr Ha.
  split; [apply proto_push; eauto|done|by split| |done|by split]. split; try done.
  cbn. rewrite Ho. intros o' r i' [= <-] Hr Hi. left. by apply (Ha r Hr).
Qed.

Lemma set_push_none x : x_push x = None -> set_push None x = x.
Proof. intros <-. by destruct x. Qed.

(** A step that changes only what the client knows of its readers. *)
Lemma lives_map (f : reader T -> reader T) (l : trs) : lives (prod_map id f <$> l) = lives l.
Proof. induction l as [|[[k|g j] r] l IH]; [done|..]; cbn; unfold lives in *; cbn; by rewrite IH. Qed.

Lemma map_in (f : reader T -> reader T) (l : trs) t r' :
  (t, r') ∈ prod_map id f <$> l <-> exists r, (t, r) ∈ l /\ r' = f r.
Proof.
  rewrite list_elem_of_fmap. split.
  - intros ([t0 r] & [= -> ->] & Hin). by exists r.
  - intros (r & Hin & ->). by exists (t, r).
Qed.

Lemma handles_map x (f : reader T -> reader T) (l : trs) :
  (forall r, r_view (f r) = r_view r /\ r_held (f r) = r_held r /\ r_iter (f r) = r_iter r /\ r_prog (f r) = r_prog r) ->
  handles_rel x l -> handles_rel x (prod_map id f <$> l).
Proof.
  intros Hf [H1 H2 H3 H4]. split.
  - intros k. by rewrite lives_map.
  - by rewrite lives_map.
  - intros k h r' (r & Hr & ->)%map_in Hk. destruct (H3 k h r Hr Hk), (Hf r) as (E1 & E2 & E3 & E4).
    split; by rewrite ?E1, ?E2, ?E3, ?E4.
  - intros g j r' (r & Hr & ->)%map_in. destruct (Hf r) as (_ & _ & _ & ->). by eapply H4.
Qed.

Lemma views_map x y y' (f : reader T -> reader T) (l : trs) lo :
  (forall r, r_view (f r) = r_view r) -> vsub (y_view y) (y_view y') ->
  views_rel x y l lo -> views_rel x y' (prod_map id f <$> l) lo.
Proof.
  intros Hf Hv [V1 V2 V3 V4].
  assert (forall g j z, dead l g j z -> dead (prod_map id f <$> l) g j z \/ vsub z (y_view y')) as Hd.
  { intros g j z (r & Hr & <-). left. exists (f r). split; [|done]. apply map_in. by exists r. }
  split.
  - intros g r' (r & Hr & ->)%map_in. rewrite Hf. by apply V1.
  - intros g j r' (r & Hr & ->)%map_in. rewrite Hf. by apply V2.
  - intros g w Hw. eapply covered_mono; [by apply V3|done|apply Hd].
  - intros j d Hj. specialize (V4 j d Hj). destruct (dt_phase d).
    + eapply covered_mono; [done|done|apply Hd].
    + done.
    + intros j' r' (r & Hr & ->)%map_in. by eapply V4.
    + destruct V4 as [V4 V5]. split; [|by etrans]. intros j' r' (r & Hr & ->)%map_in. by eapply V4.
Qed.

(** The generation of a reader exists. *)
Lemma tag_gen_alive x y (l : trs) lo t r g : proto x lo -> views_rel x y l lo -> (t, r) ∈ l ->
  tag_gen x t g -> (lo <= g < x_next_gen x)%nat.
Proof.
  intros P [V1 V2 _ _] Hin Hg. destruct t as [k|g' [j|]].
  - destruct Hg as (h & Hh & <-). by apply (pr_handle _ _ P k).
  - cbn in Hg. subst g'. destruct (V2 g j r Hin) as (d & Hd & Hph & <- & _). by apply (pr_release _ _ P j).
  - cbn in Hg. subst g'. destruct (V1 g r Hin) as (w & Hw & _). apply (pr_gens _ _ P). by eexists.
Qed.

(** Marking an index that is not marked yet. *)
Lemma core_mark x y y' (l : trs) pd lo rem i cur :
  core x y l pd lo rem None -> i ∉ y_marked y -> S cur = x_next_gen x -> (lo <= cur)%nat -> x_push x = None ->
  y_readers y' = forget_must i <$> y_readers y -> y_marked y' = {[ i ]} ∪ y_marked y ->
  vsub (y_view y) (y_view y') ->
  core x y' (prod_map id (forget_must i) <$> l) (<[i := cur]> pd) lo rem (Some i).
Proof.
  intros [C1 C2 C3 C4 C5 C6] Hi Hcur Hlo Hp Hr Hm Hv. destruct C4 as [M1 M2 M3 M4 M5].
  assert (pd !! i = None) as Hpd by (apply not_elem_of_dom; by rewrite M1).
  split; try done.
  - rewrite Hr, C2, <- !list_fmap_compose. by apply list_fmap_ext.
  - by apply handles_map.
  - rewrite Hm. split.
    + by rewrite dom_insert_L, M1.
    + intros g w Hw. destruct (M2 g w Hw) as [Hnd Hin]. unfold todo in *.
      destruct (decide (S g = x_next_gen x)) as [Hg|Hg].
      * assert (g = cur) as -> by lia. change (option_list (Some i)) with [i].
        change (option_list None) with (@nil Z) in Hnd, Hin. rewrite app_nil_r in Hnd, Hin. split.
        { apply NoDup_app. split; [done|]. split; [|apply NoDup_singleton].
          intros i' Hi' ->%list_elem_of_singleton. apply Hin in Hi'. congruence. }
        intros i'. rewrite elem_of_app, Hin, list_elem_of_singleton, lookup_insert_Some.
        destruct (decide (i = i')) as [->|]; naive_solver.
      * rewrite app_nil_r in *. split; [done|]. intros i'. rewrite Hin, lookup_insert_Some.
        split; [|naive_solver lia]. intros Hi'. right. split; congruence.
    + intros i' g. rewrite lookup_insert_Some. intros [[<- <-]|[_ ?]]; [|by eapply M3].
      apply (pr_gens _ _ C1). lia.
    + intros t r' g i' g' (r & Hin & ->)%map_in Hg. cbn. rewrite lookup_insert_Some.
      pose proof (tag_gen_alive _ _ _ _ _ _ _ C1 C6 Hin Hg).
      intros [[<- <-]|[_ ?]] Hlt; [lia|]. by eapply M4.
    + intros o r' i' Ho (r & Hin & ->)%map_in Hi'. cbn. destruct (decide (i' = i)) as [->|Hne]; [by right|].
      left. destruct (M5 o r i' Ho Hin) as [?|[_ ?]]; [set_solver|done|done].
  - by eapply views_map.
Qed.
End parts.

Section sim.
Context {T : Type} (el : layout) (n : Z) (c0 : cslab T).
Context (Hel : entry_layout_ok el) (Hnew : with_fixed_capacity el n = Ret c0).
Implicit Types (x : rsys T) (y : sys T) (r : reader T) (h : handle T).
Abbreviation trs := (list (tag * reader T)).
Abbreviation ord := source_orderings.
Abbreviation rel := (rel n).
Abbreviation reachable := (reachable T ord n).

Lemma core_split x y (l : trs) pd lo rem mk k h : core x y l pd lo rem mk -> x_handles x !! k = Some h ->
  exists l1 r l2, l = l1 ++ (TLive k, r) :: l2 /\ live_rel h r.
Proof using.
  intros C Hk. assert (k ∈ lives l) as Hin by (apply (hr_live _ _ (co_handles _ _ _ _ _ _ _ C)); by eexists).
  apply lives_in in Hin as [r Hr]. pose proof Hr as Hr'. apply list_elem_of_split in Hr' as (l1 & l2 & ->).
  exists l1, r, l2. split; [done|]. by apply (hr_rel _ _ (co_handles _ _ _ _ _ _ _ C) k h r).
Qed.

(** ** Steps of the client *)

Lemma estep_update y (l1 l2 : trs) t r :
  y_readers y = (l1 ++ (t, r) :: l2).*2 -> r_prog r = None -> y_prog y = None ->
  estep y (set_readers ((l1 ++ (t, rset_known (dom (y_items y) ∖ y_marked y) (y_marked y) (r_acked r)
    (rset_view (vjoin (r_view r) (y_view y)) r)) :: l2).*2) y).
Proof using.
  intros Hr Hp Hy. exists (EUpdate (length l1)), AStep. cbn. unfold writer_idle. rewrite Hy.
  rewrite (idle_reader_at _ _ _ _ _ Hr Hp). cbn. by rewrite (set_reader_at _ _ _ _ t _ _ Hr).
Qed.

Lemma estep_callback y (l1 l2 : trs) t r :
  y_readers y = (l1 ++ (t, r) :: l2).*2 -> r_prog r = None -> y_prog y = None ->
  estep y (set_view (vjoin (y_view y) (r_view r)) (set_readers ((l1 ++ (t,
    rset_known (r_must r) (r_noted r) (r_acked r ∪ (r_noted r ∖ r_held r)) r) :: l2).*2) y)).
Proof using.
  intros Hr Hp Hy. exists (ECallback (length l1)), AStep. cbn. unfold writer_idle. rewrite Hy.
  rewrite (idle_reader_at _ _ _ _ _ Hr Hp). cbn. by rewrite (set_reader_at _ _ _ _ t _ _ Hr).
Qed.

(** Releasing all that a reader holds. *)
Lemma esteps_release y (l1 l2 : trs) t r :
  y_readers y = (l1 ++ (t, r) :: l2).*2 -> r_prog r = None ->
  esteps y (set_readers ((l1 ++ (t, rset_held ∅ (r_iter r) r) :: l2).*2) y).
Proof using.
  intros Hr Hp. assert (forall L : list Z,
    esteps y (set_readers ((l1 ++ (t, rset_held (r_held r ∖ list_to_set L) (r_iter r) r) :: l2).*2) y)) as HL.
  { induction L as [|i L IH].
    - assert (rset_held (r_held r ∖ list_to_set (@nil Z)) (r_iter r) r = r) as ->
        by (destruct r; unfold rset_held; cbn; by rewrite difference_empty_L).
      rewrite <- Hr. destruct y. apply rtc_refl.
    - etrans; [exact IH|]. apply rtc_once. exists (ERelease (length l1) i), AStep. cbn.
      set (r1 := rset_held (r_held r ∖ list_to_set L) (r_iter r) r).
      set (y1 := set_readers ((l1 ++ (t, r1) :: l2).*2) y).
      rewrite (idle_reader_at y1 l1 l2 t r1 eq_refl Hp). cbn.
      rewrite (set_reader_at y1 l1 l2 t t r1 (rset_held (r_held r1 ∖ {[ i ]}) (r_iter r1) r1) eq_refl).
      unfold y1, r1, set_readers, rset_held. cbn. by rewrite difference_difference_l_L, (union_comm_L _ {[ i ]}). }
  specialize (HL (elements (r_held r))). by rewrite list_to_set_elements_L, difference_diag_L in HL.
Qed.

(** ** Unlocking *)

Lemma sim_unlock x y l pd lo rem mk hd V o h :
  reachable y -> core x y l pd lo rem mk -> y_prog y = None ->
  y_mem y = x_mem x -> y_header y = hd -> y_view y = V ->
  (x_crit x = None \/ owner_op x = true) -> x_push x = None ->
  x_owner x = Some o -> x_handles x !! o = Some h -> hd_prog h = None -> vsub (hd_view h) V ->
  (mk = None \/ hd_held h = ∅) ->
  exists y' l', esteps y y' /\ rel (set_push mk (unlock_owner hd V x)) y' l' pd lo rem.
Proof using.
  clear Hel Hnew. intros Hy C Hp Hm Hh Hv Hc Hpush Ho Hk Hpr Hsub Hmk.
  destruct (core_split _ _ _ _ _ _ _ _ _ C Hk) as (l1 & r & l2 & -> & Hl).
  assert (r_prog r = None) as Hrp by (by rewrite <- (lv_prog _ _ Hl)).
  pose proof (estep_update y l1 l2 (TLive o) r (co_readers _ _ _ _ _ _ _ C) Hrp Hp) as S1.
  set (r1 := rset_known _ _ _ _) in S1. set (y1 := set_readers _ y) in S1.
  pose proof (estep_callback y1 l1 l2 (TLive o) r1 eq_refl Hrp Hp) as S2.
  set (r2 := rset_known _ _ _ _) in S2. set (y2 := set_view _ _) in S2.
  assert (r_view r1 = vjoin (hd_view h) V) as Hr1 by (cbn; by rewrite Hv, (lv_view _ _ Hl)).
  assert (y_view y2 = V) as Hv2.
  { change (vjoin (y_view y) (r_view r1) = V). rewrite Hv, Hr1. apply vjoin_absorb. by apply vsub_join. }
  set (h' := hset_view (vjoin (hd_view h) V) h).
  assert (unlock_owner hd V x = put_handle o h' (set_lock hd V None x)) as ->.
  { unfold unlock_owner. cbn. by rewrite Ho, (alter_Some _ _ _ _ Hk). }
  assert (esteps y y2) as Hs by (eapply rtc_l; [exact S1|by apply rtc_once]).
  assert (core (put_handle o h' (set_lock hd V None x)) y2 (l1 ++ (TLive o, r2) :: l2) pd lo rem mk) as C2.
  { eapply (core_handle (set_lock hd V None x) y); [by apply core_lock|done|done|done|by rewrite Hv, Hv2|..]; [|done|cbn; set_solver|].
    - by destruct Hl; split.
    - cbn. intros _. unfold owner_busy. cbn. by rewrite Hpush. }
  exists y2, (l1 ++ (TLive o, r2) :: l2). split; [done|].
  assert (core (set_push mk (put_handle o h' (set_lock hd V None x))) y2 (l1 ++ (TLive o, r2) :: l2) pd lo rem mk) as C3.
  { destruct mk as [i|].
    - eapply (core_push _ _ _ _ _ _ _ o h'); [done|done|done|done|by apply lookup_insert_eq|done|].
      intros r0 Hr0. apply (live_unique _ _ _ _ _ (hr_once _ _ (co_handles _ _ _ _ _ _ _ C2))) in Hr0 as ->.
      cbn. destruct Hmk as [|Hheld]; [done|]. rewrite <- (lv_held _ _ Hl), Hheld. set_solver.
    - by rewrite (set_push_none (put_handle o h' (set_lock hd V None x)) Hpush). }
  split; try done.
  - by eapply esteps_reachable.
  - unfold marking. cbn. by destruct mk.
Qed.

(** ** Under the lock *)

Definition op_mark (op : locked_op T) : option Z := match op with OMark i => Some i | _ => None end.

(** The first access of an operation, or one more. *)
Lemma sim_owner_run x y y0 l pd lo rem op t p e o h V :
  reachable y0 -> exec ord y0 e = Some (run_writer t p y) ->
  core x y l pd lo rem (op_mark op) -> x_push x = None -> (x_crit x = None \/ owner_op x = true) ->
  x_owner x = Some o -> x_handles x !! o = Some h -> hd_prog h = None -> hd_held h = ∅ -> vsub (hd_view h) V ->
  y_mem y = x_mem x -> y_header y = x_header x -> y_view y = V ->
  match op with
  | OInsert t' => t = Some t'
  | OMark _ => t = None
  | OFill t' => t = Some t' /\ always inserted True p
  | OVacant | OFinalize _ _ _ => False
  end -> simulated n y0 (run_crit op V p x).
Proof using Hel Hnew.
  intros Hy0 He C Hpush Hc Ho Hk Hpr Hheld Hsub Hm Hh Hv Hop.
  destruct (client_returns el n c0 Hel Hnew y0 e _ Hy0 He) as (a & y' & Hret).
  assert (estep y0 y') as Hs by (exists e, a; by rewrite He, Hret).
  assert (reachable y') as Hy' by (eapply esteps_reachable; [exact Hy0|by apply rtc_once]).
  assert (a = AStep -> y' = set_prog (Some (t, p)) y -> k_prog (mkCritical op V p) = p ->
    rel (set_crit (Some (mkCritical op V p)) x) y' l pd lo rem) as Hstay.
  { intros _ -> _. split; cbn; try done.
    - assert (marking (set_crit (Some (mkCritical op V p)) x) (set_prog (Some (t, p)) y) = op_mark op) as ->.
      { unfold marking. cbn. by rewrite Hpush. }
      apply (core_slab _ y); [|done|done|done]. apply core_lock; [done|done|]. split; [done|].
      split; [by destruct op|]. by exists o, h.
    - unfold crit_rel. cbn. destruct op; [by rewrite Hop|left; by rewrite Hop|done|destruct Hop as [-> ?]; by split|done].
    - intros o' h' _ Ho' Hk'. rewrite Ho in Ho'. injection Ho' as <-. rewrite Hk in Hk'. injection Hk' as <-.
      by rewrite Hv. }
  unfold simulated, run_crit, run_writer in *. destruct p as [res|l0 a0 f|l0 rv v f|i f|i e0 f].
  { destruct res as [[hd res]| | |]; try done. cbn [mbind outcome_bind] in *. injection Hret as <- <-.
    set (y1 := finish_writer (hd, res) t y) in *.
    assert (y_readers y1 = y_readers y /\ y_marked y1 = y_marked y /\ y_view y1 = y_view y
      /\ y_mem y1 = y_mem y /\ y_header y1 = hd /\ y_prog y1 = None) as (E1 & E2 & E3 & E4 & E5 & E6).
    { unfold y1, finish_writer. cbn. by destruct res as [[|]| |], t. }
    destruct (sim_unlock x y1 l pd lo rem (op_mark op) hd V o h) as (y2 & l2 & Hs2 & R2); try done.
    - apply (core_slab _ y); [done..|by rewrite E3].
    - congruence.
    - congruence.
    - by right.
    - assert (esteps y0 y2) as Hs' by (by eapply rtc_l).
      assert (heard y0 (RWriter res) y2) as Hheard by (exists y0, e, y1; split; [apply rtc_refl|by rewrite He]).
      assert (x_push (unlock_owner hd V x) = None) as Hp' by (unfold unlock_owner; cbn; by rewrite Ho).
      destruct op as [t'|i| |t'|]; cbn [finish_crit op_mark] in *; [|..|done| |done].
      + rewrite (set_push_none _ Hp') in R2. eexists _, _, y2, l2, pd, lo, rem. by split; [|split].
      + eexists _, _, y2, l2, pd, lo, rem. by split; [|split].
      + rewrite (set_push_none _ Hp') in R2. destruct Hop as [_ [i Hi]]. cbn in *. subst res.
        eexists _, _, y2, l2, pd, lo, rem. by split; [|split]. }
  all: injection Hret as <- <-; eexists _, _, _, l, pd, lo, rem; split; [reflexivity|];
    split; [by apply rtc_once|split; [done|by apply Hstay]].
Qed.

(** Locking: the references that the [RcuCslab] has lent end, and its view joins
    that of the lock. *)
Lemma idle_owner_spec x o h : idle_owner x = Some (o, h) ->
  x_owner x = Some o /\ x_handles x !! o = Some h /\ hd_prog h = None /\ owner_busy x = false.
Proof using.
  unfold idle_owner. destruct (x_owner x) as [o'|] eqn:Ho; [|done]. cbn.
  destruct (idle x o') as [h'|] eqn:Hi; [|done]. cbn. intros [= -> ->].
  apply idle_spec in Hi as (Hk & Hp & Hb). auto.
Qed.

Lemma not_busy x : owner_busy x = false -> x_push x = None /\ owner_op x = false.
Proof using. unfold owner_busy, owner_op. intros [Hp Hc]%orb_false_iff. by destruct (x_push x). Qed.

Lemma marking_idle x y : owner_busy x = false -> marking x y = None.
Proof using.
  intros [Hp Hc]%not_busy. unfold marking, owner_op in *. rewrite Hp.
  destruct (x_crit x) as [c|], (y_prog y); try done. by destruct (k_op c).
Qed.

Lemma sim_begin x y l pd lo rem o h :
  rel x y l pd lo rem -> x_crit x = None ->
  x_owner x = Some o -> x_handles x !! o = Some h -> hd_prog h = None -> owner_busy x = false ->
  forall h0, h0 = h \/ h0 = end_borrows h ->
  exists y' l', esteps y y' /\ core (put_handle o h0 x) y' l' pd lo rem None
  /\ y_prog y' = None /\ y_mem y' = x_mem x /\ y_header y' = x_header x
  /\ y_view y' = vjoin (x_lock_view x) (hd_view h) /\ y_items y' = y_items y /\ y_marked y' = y_marked y.
Proof using.
  clear Hel Hnew. intros R Hc Ho Hk Hpr Hb h0 Hh0. destruct R as [R1 R2 R3 R4 R5 R6 R7].
  rewrite (marking_idle _ _ Hb) in R2. rewrite Hc in R5, R6.
  destruct (core_split _ _ _ _ _ _ _ _ _ R2 Hk) as (l1 & r & l2 & -> & Hl).
  assert (r_prog r = None) as Hrp by (by rewrite <- (lv_prog _ _ Hl)).
  assert (exists y1 r1, esteps y y1 /\ y1 = set_readers ((l1 ++ (TLive o, r1) :: l2).*2) y
    /\ live_rel h0 r1 /\ r_acked r1 = r_acked r /\ r_prog r1 = None) as (y1 & r1 & Hs1 & Hy1 & Hl1 & Ha1 & Hp1).
  { destruct Hh0 as [->| ->].
    - exists y, r. split; [apply rtc_refl|]. split; [|done]. rewrite <- (co_readers _ _ _ _ _ _ _ R2). by destruct y.
    - eexists _, _. split; [by apply (esteps_release y l1 l2 (TLive o) r); [apply R2|]|]. split; [reflexivity|].
      split; [|done]. destruct Hl. split; try done. by left. }
  assert (hd_gen h0 = hd_gen h /\ hd_view h0 = hd_view h) as [Eg Ev] by (by destruct Hh0 as [->| ->]).
  pose proof (estep_callback y1 l1 l2 (TLive o) r1) as S2. rewrite Hy1 in S2.
  specialize (S2 eq_refl Hp1 R6). rewrite <- Hy1 in S2.
  set (r2 := rset_known _ _ _ _) in S2. set (y2 := set_view _ _) in S2.
  assert (y_view y2 = vjoin (x_lock_view x) (hd_view h)) as Hv2.
  { unfold y2. cbn. by rewrite Hy1, <- Ev, (lv_view _ _ Hl1), <- R5. }
  exists y2, (l1 ++ (TLive o, r2) :: l2). split; [by eapply rtc_r|]. split; [|by rewrite Hv2; unfold y2; cbn; rewrite Hy1].
  eapply (core_handle _ y); [exact R2|done|done|by unfold y2; cbn; rewrite Hy1| |by destruct Hl1; split|done| |].
  - rewrite Hv2, R5. apply vsub_join_l.
  - unfold r2. cbn. rewrite Ha1. set_solver.
  - intros _. by rewrite Hb.
Qed.
End sim.
