(* ===== verification/RcuWeakOwnerOps.v ===== *)
(** The calls of the [RcuCslab] as steps of the client: [insert], [mark_removed]
    and its two halves, and [len]. *)

From S2P Require Import Prelude CslabWord CslabStorage Cslab CslabIter CslabProps Weak WeakCslab WeakSystem.
From S2P Require Import WeakInv WeakWriterOps WeakReaderOps WeakSysInv WeakCorrect.
From S2P Require Import RcuWeak RcuWeakProto RcuWeakRel RcuWeakSim RcuWeakOwner.

(** No item can be found at [i]: it is out of range, or its latest flag is clear. *)
Definition absent {T} (x : rsys T) (i : Z) : Prop :=
  ~ (i < h_size (x_header x)
     /\ exists msg, last (m_hist (x_mem x) (LWord (i / 64))) = Some msg /\ has (msg_val msg) i).

Section ops.
Context {T : Type} (el : layout) (n : Z) (c0 : cslab T).
Context (Hel : entry_layout_ok el) (Hnew : with_fixed_capacity el n = Ret c0).
Implicit Types (x : rsys T) (y : sys T) (r : reader T) (h : handle T).
Abbreviation trs := (list (tag * reader T)).
Abbreviation ord := source_orderings.
Abbreviation rel := (rel n).
Abbreviation reachable := (reachable T ord n).
Abbreviation simulated := (simulated n).

Lemma simulated_after y y' (o : outcome (ransw T * rsys T)) : esteps y y' -> simulated y' o -> simulated y o.
Proof using.
  intros Hs (a & x' & y2 & l' & pd' & lo' & rem' & -> & Hs' & Hh & R).
  exists a, x', y2, l', pd', lo', rem'. split; [done|]. split; [by etrans|]. split; [|done].
  unfold heard in *. destruct (visible a); [|done]. destruct Hh as (y3 & e & y4 & Hs3 & He & Hs4).
  exists y3, e, y4. split; [by etrans|done].
Qed.

Lemma client_size y : reachable y -> h_size (y_header y) = n.
Proof using Hel Hnew.
  intros Hy. destruct (client_inv el n c0 Hel Hnew y Hy) as (s & gs & I). apply I.
Qed.

(** ** insert *)

Lemma sim_insert x y l pd lo rem t res :
  rel x y l pd lo rem -> lock_owner (OInsert t) (fun c => insert_op ord c t) x = Some res -> simulated y res.
Proof using Hel Hnew.
  intros R. unfold lock_owner. destruct (idle_owner x) as [[o h]|] eqn:Hi; [|done]. cbn [mbind option_bind].
  destruct (x_crit x) eqn:Hc; [done|]. intros [= <-].
  apply idle_owner_spec in Hi as (Ho & Hk & Hpr & Hb). destruct (not_busy _ Hb) as [Hpush _].
  destruct (sim_begin n x y l pd lo rem o h R Hc Ho Hk Hpr Hb (end_borrows h) ltac:(by right))
    as (y1 & l1 & Hs & C & Hp & Hm & Hh & Hv & _).
  apply (simulated_after _ y1); [done|].
  eapply (sim_owner_run el n c0 Hel Hnew _ y1 y1 l1 pd lo rem (OInsert t) (Some t) _ (EInsert t) o (end_borrows h));
    try done; cbn.
  - eapply esteps_reachable; [apply R|done].
  - unfold writer_idle. by rewrite Hp, Hh.
  - by left.
  - by apply lookup_insert_eq.
  - apply vsub_join_r.
Qed.

(** ** mark_removed *)

Lemma mark_op_shape hd i : 0 <= i -> h_size hd = n ->
  (mark_op (T:=T) ord hd i = PDone Panic /\ ~ i < n)
  \/ exists f, mark_op (T:=T) ord hd i = PLoad (LWord (i / 64)) false f
     /\ forall v, ~ has v i -> f v = PDone Panic.
Proof using Hel Hnew.
  intros Hi Hh. pose proof (capacity_bound el n c0 Hel Hnew) as Hn.
  assert (bitmap_at n i = Ret (LWord (i / 64)) \/ bitmap_at n i = Panic /\ ~ i < n) as [Hb|[Hb Hin]].
  { destruct (decide (i < n)); [left; apply bitmap_at_Ret; lia|]. unfold isize_MAX in Hn. unfold bitmap_at.
    rewrite bitmap_len_eq by lia. cbn [mbind outcome_bind]. unfold usize_BITS. case_match; auto. }
  - right. unfold mark_op, mark_removed_prog. rewrite Hh, Hb. eexists. split; [reflexivity|].
    intros v Hbit. cbn. rewrite flag_b2z by done. unfold has in Hbit.
    by destruct (Z.testbit v (i mod 64)).
  - left. split; [|done]. unfold mark_op, mark_removed_prog. by rewrite Hh, Hb.
Qed.

Lemma sim_mark x y l pd lo rem i res :
  rel x y l pd lo rem -> 0 <= i -> lock_owner (OMark i) (fun c => mark_op ord c i) x = Some res ->
  simulated y res \/ res = Panic /\ absent x i.
Proof using Hel Hnew.
  intros R Hi0. unfold lock_owner. destruct (idle_owner x) as [[o h]|] eqn:Hi; [|done]. cbn [mbind option_bind].
  destruct (x_crit x) eqn:Hc; [done|]. intros [= <-].
  apply idle_owner_spec in Hi as (Ho & Hk & Hpr & Hb). destruct (not_busy _ Hb) as [Hpush Hop].
  destruct (sim_begin n x y l pd lo rem o h R Hc Ho Hk Hpr Hb (end_borrows h) ltac:(by right))
    as (y1 & l1 & Hs & C & Hp & Hm & Hh & Hv & Hits & Hms).
  assert (reachable y1) as Hy1 by (eapply esteps_reachable; [apply R|done]).
  set (x1 := put_handle o (end_borrows h) x) in *.
  assert (x_handles x1 !! o = Some (end_borrows h)) as Hk1 by apply lookup_insert_eq.
  destruct (decide (is_Some (y_items y1 !! i) /\ i ∉ y_marked y1)) as [Hin|Hno].
  - left. apply (simulated_after _ y1); [done|]. destruct (pr_owner _ _ (re_proto R) o Ho) as (h' & Hh' & Hcur & _).
    rewrite Hk in Hh'. injection Hh' as <-. pose proof (pr_handle _ _ (re_proto R) o h Hk) as Hg.
    set (y2 := set_readers (forget_must i <$> y_readers y1) (set_items (y_items y1) ({[ i ]} ∪ y_marked y1) y1)).
    assert (core x1 y2 (prod_map id (forget_must i) <$> l1) (<[i := hd_gen h]> pd) lo rem (Some i)) as C2
      by (apply (core_mark x1 y1); try done; [by apply Hin|apply Hg]).
    eapply (sim_owner_run el n c0 Hel Hnew x1 y2 y1 _ _ _ _ (OMark i) None _ (EMark i) o (end_borrows h));
      try done; cbn.
    + unfold writer_idle. rewrite Hp, decide_True by done. by rewrite Hh.
    + by left.
    + apply vsub_join_r.
  - assert (h_size (x_header x) = n) as Hn by (by rewrite <- Hh; apply client_size).
    destruct (mark_op_shape (x_header x) i Hi0 Hn) as [[-> Hlt]|(f & Hf & Hbad)].
    { right. split; [done|]. rewrite <- Hn in Hlt. by intros [? _]. }
    left. apply (simulated_after _ y1); [done|]. unfold run_crit. rewrite Hf.
    eexists _, _, y1, l1, pd, lo, rem. split; [reflexivity|]. split; [apply rtc_refl|]. split; [done|].
    split; cbn; try done.
    + assert (marking (set_crit (Some (mkCritical (OMark i) (vjoin (x_lock_view x) (hd_view h))
        (PLoad (LWord (i / 64)) false f))) x1) y1 = None) as ->.
      { unfold marking. cbn. by rewrite Hpush, Hp. }
      apply core_lock; [done|by left|]. split; [done|]. split; [done|]. by exists o, (end_borrows h).
    + right. split; [exact Hp|]. split; [symmetry; exact Hf|by split].
    + intros o' h' _ Ho' Hk'. rewrite Ho in Ho'. injection Ho' as <-.
      change (x_handles x1 !! o = Some h') in Hk'. rewrite Hk1 in Hk'. injection Hk' as <-.
      rewrite Hv. split; [done|apply vsub_join_r].
Qed.

(** ** One access more *)

(** Marking an index that is not there panics at the load of the flag. *)
Lemma bad_mark_panics x y l pd lo rem i V choice o :
  rel x y l pd lo rem -> y_prog y = None -> y_view y = V -> 0 <= i ->
  ~ (is_Some (y_items y !! i) /\ i ∉ y_marked y) ->
  prog_step (x_mem x) V (mark_op ord (x_header x) i) choice = Some o ->
  ('(m, V, p) ← o; run_crit (OMark i) V p (rset_mem m x)) = Panic /\ absent x i.
Proof using Hel Hnew.
  intros R Hyp Hv Hi0 Hno Hstep. pose proof (re_reach _ _ _ _ _ _ _ R) as Hy.
  assert (h_size (x_header x) = n) as Hn by (by rewrite <- (re_header _ _ _ _ _ _ _ R); apply client_size).
  destruct (mark_op_shape (x_header x) i Hi0 Hn) as [[Hf _]|(f & Hf & Hbad)]; rewrite Hf in Hstep; [done|].
  destruct (client_inv el n c0 Hel Hnew y Hy) as (s & gs & I).
  pose proof (si_mem _ _ _ _ I) as M. pose proof (si_writer _ _ _ _ I) as W. rewrite Hyp in W.
  rewrite <- Hv, <- (re_mem _ _ _ _ _ _ _ R) in Hstep. cbn in Hstep. case_decide as Hle; [|done].
  destruct (m_hist (y_mem y) (LWord (i / 64)) !! choice) as [msg|] eqn:Hmsg; [|done]. injection Hstep as <-.
  assert (choice = v_atomic (y_view y) (LWord (i / 64))) as Hch.
  { pose proof (lookup_lt_Some _ _ _ Hmsg) as Hlt. rewrite <- (mi_latest _ _ _ _ _ _ _ M) in Hlt. lia. }
  assert (~ has (msg_val msg) i) as Hflag.
  { intros Hbit. destruct (mi_bits _ _ _ _ _ _ _ M _ _ _ Hmsg) as [_ Hb]. destruct (Hb i) as [Hin _]; [done..|].
    rewrite Hch in Hmsg. apply (slab_has_flag n _ _ _ _ _ _ _ _ _ i msg W M) in Hbit; [|done..].
    apply Hno. rewrite <- elem_of_dom. set_solver. }
  cbn. rewrite (Hbad _ Hflag). split; [done|]. intros (_ & msg' & Hlast & Hbit').
  rewrite <- (re_mem _ _ _ _ _ _ _ R), last_lookup, <- (mi_latest _ _ _ _ _ _ _ M) in Hlast. cbn in Hlast.
  rewrite <- Hch, Hmsg in Hlast. by injection Hlast as <-.
Qed.

Lemma sim_crit_owner x y l pd lo rem c choice o :
  rel x y l pd lo rem -> x_crit x = Some c -> owner_op x = true ->
  prog_step (x_mem x) (k_view c) (k_prog c) choice = Some o ->
  simulated y ('(m, V, p) ← o; run_crit (k_op c) V p (rset_mem m x))
  \/ exists i, k_op c = OMark i /\ ('(m, V, p) ← o; run_crit (k_op c) V p (rset_mem m x)) = Panic /\ absent x i.
Proof using Hel Hnew.
  intros R Hc Hop Hstep. pose proof (re_proto R) as P.
  assert (x_push x = None) as Hpush.
  { destruct (x_push x) eqn:Hpu; [|done]. rewrite (pr_push _ _ P) in Hop; congruence. }
  pose proof (owner_op_busy _ Hop) as Hbusy.
  destruct (x_owner x) as [ow|] eqn:Ho; [|by rewrite (pr_no_owner _ _ P Ho) in Hbusy].
  destruct (pr_owner _ _ P ow Ho) as (h & Hk & _ & Hpr). specialize (Hpr Hbusy).
  destruct (re_own _ _ _ _ _ _ _ R ow h Hop Ho Hk) as [Hheld Hsub].
  pose proof (re_view _ _ _ _ _ _ _ R) as Hv. rewrite Hc in Hv.
  pose proof (re_prog _ _ _ _ _ _ _ R) as Hprog. rewrite Hc in Hprog.
  pose proof (re_reach _ _ _ _ _ _ _ R) as Hy.
  assert (forall t, y_prog y = Some (t, k_prog c) ->
    match k_op c with
    | OInsert t' => t = Some t'
    | OMark _ => t = None
    | OFill t' => t = Some t' /\ always inserted True (k_prog c)
    | OVacant | OFinalize _ _ _ => False
    end -> simulated y ('(m, V, p) ← o; run_crit (k_op c) V p (rset_mem m x))) as Hgood.
  { intros t Hyp Ht.
    assert (exec ord y (EWriter choice)
      = Some ('(m, V, p') ← o; run_writer t p' (set_view V (WeakSystem.set_mem m y)))) as He.
    { cbn. rewrite Hyp. cbn. by rewrite Hv, (re_mem _ _ _ _ _ _ _ R), Hstep. }
    destruct o as [[[m V] p]| | |]; cbn [mbind outcome_bind] in *;
      try by destruct (client_returns el n c0 Hel Hnew y _ _ Hy He) as (? & ? & ?).
    pose proof (prog_step_grows _ _ _ _ _ _ _ Hstep) as Hgrow.
    assert (match k_op c with
      | OInsert t' => t = Some t'
      | OMark _ => t = None
      | OFill t' => t = Some t' /\ always inserted True p
      | OVacant | OFinalize _ _ _ => False
      end) as Ht'.
    { destruct (k_op c); try done. destruct Ht as [-> Hall]. split; [done|]. by eapply always_step. }
    eapply (sim_owner_run el n c0 Hel Hnew _ _ _ l pd lo rem _ t _ _ ow h V); [exact Hy|exact He|..]; try done; cbn.
    - assert (op_mark (k_op c) = marking x y) as ->.
      { unfold marking. rewrite Hpush, Hc, Hyp. by destruct (k_op c). }
      apply core_mem. apply (core_slab _ y); [apply R|done|done|]. cbn. by rewrite Hv.
    - by right.
    - etrans; [exact Hsub|]. by rewrite Hv.
    - apply R. }
  unfold owner_op in Hop. rewrite Hc in Hop. unfold crit_rel in Hprog.
  destruct (k_op c) as [t|i| |t|j rest drops] eqn:Hk_op; [left; by apply (Hgood (Some t))| | | |done].
  2: { destruct Hprog as (_ & Hp & _). by rewrite Hp in Hstep. }
  2: { destruct Hprog as [? ?]. left. by apply (Hgood (Some t)). }
  destruct Hprog as [Hyp|(Hyp & Hmark & Hi0 & Hno)]; [left; by apply (Hgood None)|].
  right. exists i. split; [done|]. rewrite Hmark in Hstep. by eapply bad_mark_panics.
Qed.

(** ** len *)

Lemma put_handle_id x k h : x_handles x !! k = Some h -> put_handle k h x = x.
Proof using. intros Hk. unfold put_handle, set_handles. rewrite insert_id by done. by destruct x. Qed.

Lemma sim_len x y l pd lo rem o h :
  rel x y l pd lo rem -> idle_owner x = Some (o, h) -> x_crit x = None ->
  simulated y (Ret (RHeader (x_header x), unlock_owner (x_header x) (vjoin (x_lock_view x) (hd_view h)) x)).
Proof using.
  intros R (Ho & Hk & Hpr & Hb)%idle_owner_spec Hc. destruct (not_busy _ Hb) as [Hpush _].
  destruct (sim_begin n x y l pd lo rem o h R Hc Ho Hk Hpr Hb h ltac:(by left))
    as (y1 & l1 & Hs & C & Hp & Hm & Hh & Hv & _).
  rewrite (put_handle_id _ _ _ Hk) in C.
  destruct (sim_unlock n x y1 l1 pd lo rem None (x_header x) (vjoin (x_lock_view x) (hd_view h)) o h)
    as (y2 & l2 & Hs2 & R2); try done.
  - eapply esteps_reachable; [apply R|done].
  - by left.
  - apply vsub_join_r.
  - by left.
  - eexists _, _, y2, l2, pd, lo, rem. split; [reflexivity|]. split; [by etrans|]. split; [done|].
    assert (x_push (unlock_owner (x_header x) (vjoin (x_lock_view x) (hd_view h)) x) = None) as Hp'
      by (unfold unlock_owner; cbn; by rewrite Ho).
    by rewrite <- (set_push_none _ Hp').
Qed.

(** ** Vacant entries *)

Lemma header_key_Ok (hd : header) i : header_key hd = Ok i -> h_first_free hd < h_size hd.
Proof using. unfold header_key. case_match eqn:E; [done|]. intros _. rewrite Z.geb_leb in E. lia. Qed.

Lemma sim_vacant x y l pd lo rem res :
  rel x y l pd lo rem -> lock_vacant x = Some res -> simulated y res.
Proof using.
  intros R. unfold lock_vacant. destruct (idle_owner x) as [[o h]|] eqn:Hi; [|done]. cbn [mbind option_bind].
  destruct (x_crit x) eqn:Hc; [done|]. intros [= <-].
  apply idle_owner_spec in Hi as (Ho & Hk & Hpr & Hb). destruct (not_busy _ Hb) as [Hpush _].
  destruct (sim_begin n x y l pd lo rem o h R Hc Ho Hk Hpr Hb (end_borrows h) ltac:(by right))
    as (y1 & l1 & Hs & C & Hp & Hm & Hh & Hv & _).
  assert (reachable y1) as Hy1 by (eapply esteps_reachable; [apply R|done]).
  set (V := vjoin (x_lock_view x) (hd_view h)) in *. set (x1 := put_handle o (end_borrows h) x) in *.
  assert (x_handles x1 !! o = Some (end_borrows h)) as Hk1 by apply lookup_insert_eq.
  cbn [x_header x1 put_handle set_handles]. destruct (header_key (x_header x)) as [i|] eqn:Hkey.
  - eexists _, _, y1, l1, pd, lo, rem. split; [reflexivity|]. split; [done|]. split; [done|]. split; cbn; try done.
    + assert (marking (set_crit (Some (mkCritical OVacant V (no_access (x_header x)))) x1) y1 = None) as ->.
      { unfold marking. cbn. by rewrite Hpush, Hp. }
      apply core_lock; [done|by left|]. split; [done|]. split; [done|]. by exists o, (end_borrows h).
    + unfold crit_rel. cbn. eauto.
    + intros o' h' _ Ho' Hk'. rewrite Ho in Ho'. injection Ho' as <-.
      change (x_handles x1 !! o = Some h') in Hk'. rewrite Hk1 in Hk'. injection Hk' as <-.
      rewrite Hv. split; [done|apply vsub_join_r].
  - destruct (sim_unlock n x1 y1 l1 pd lo rem None (x_header x) V o (end_borrows h)) as (y2 & l2 & Hs2 & R2);
      try done; [by left|apply vsub_join_r|by left|].
    assert (x_push (unlock_owner (x_header x) V x1) = None) as Hp' by (unfold unlock_owner; cbn; by rewrite Ho).
    rewrite (set_push_none _ Hp') in R2. eexists _, _, y2, l2, pd, lo, rem.
    split; [reflexivity|]. split; [by etrans|by split].
Qed.

Lemma sim_exec_vacant x y l pd lo rem e res :
  rel x y l pd lo rem -> exec_vacant ord x e = Some res -> simulated y res.
Proof using Hel Hnew.
  intros R He. unfold exec_vacant in He. destruct (x_crit x) as [c|] eqn:Hc; [|done]. cbn [mbind option_bind] in He.
  destruct (k_op c) as [t|i| |t|j rest drops] eqn:Hk_op; [done|done| |done|done].
  assert (owner_op x = true) as Hop by (unfold owner_op; by rewrite Hc, Hk_op).
  pose proof (re_proto R) as P. pose proof (owner_op_busy _ Hop) as Hbusy.
  destruct (x_owner x) as [o|] eqn:Ho; [|by rewrite (pr_no_owner _ _ P Ho) in Hbusy].
  destruct (pr_owner _ _ P o Ho) as (h & Hk & _ & Hpr). specialize (Hpr Hbusy).
  destruct (re_own _ _ _ _ _ _ _ R o h Hop Ho Hk) as [Hheld Hsub].
  assert (x_push x = None) as Hpush.
  { destruct (x_push x) eqn:Hpu; [|done]. rewrite (pr_push _ _ P) in Hop; congruence. }
  pose proof R as [R1 R2 R3 R4 R5 R6 _]. rewrite Hc in R5, R6. unfold crit_rel in R6. rewrite Hk_op in R6.
  destruct R6 as (Hp & Hkp & i & Hkey).
  assert (marking x y = None) as Hmk by (unfold marking; by rewrite Hpush, Hc, Hp).
  rewrite Hmk in R2.
  destruct e; try done; injection He as <-.
  - rewrite Hkey. eexists _, _, y, l, pd, lo, rem. split; [reflexivity|]. split; [apply rtc_refl|by split].
  - eapply (sim_owner_run el n c0 Hel Hnew x y y l pd lo rem (OFill t) (Some t) _ (EInsert t) o h); try done; cbn.
    + unfold writer_idle. by rewrite Hp, R4.
    + by right.
    + by rewrite <- R5.
    + split; [done|]. apply insert_inserts. by eapply header_key_Ok.
  - cbn [run_crit no_access mret mbind outcome_bind finish_crit].
    destruct (sim_unlock n x y l pd lo rem None (x_header x) (k_view c) o h) as (y2 & l2 & Hs2 & R2');
      try done; [by right|by rewrite <- R5|by left|].
    assert (x_push (unlock_owner (x_header x) (k_view c) x) = None) as Hp' by (unfold unlock_owner; cbn; by rewrite Ho).
    rewrite (set_push_none _ Hp') in R2'. eexists _, _, y2, l2, pd, lo, rem.
    split; [reflexivity|]. by split.
Qed.

(** ** The second half of [mark_removed] *)

(** No drop is past the release of the last generation, while it is the
    [RcuCslab]'s. *)
Lemma owner_no_front x lo o h j d : proto x lo -> x_owner x = Some o -> x_handles x !! o = Some h -> hd_gen h = lo ->
  x_tasks x !! j = Some d -> dt_phase d = Releasing.
Proof using.
  intros P Ho Hk Hg Hj. destruct (decide (dt_phase d = Releasing)) as [|Hne]; [done|exfalso].
  destruct (pr_front _ _ P j d Hj Hne) as (_ & w & Hw & H0).
  destruct (proto_dead x lo lo w P Hw H0) as (_ & Hn & _). by apply (Hn o h).
Qed.

Lemma sim_push x y l pd lo rem i o h w :
  rel x y l pd lo rem -> x_push x = Some i -> x_owner x = Some o -> x_handles x !! o = Some h ->
  x_gens x !! hd_gen h = Some w ->
  simulated y (Ret (RStep,
    set_push None (put_gen (hd_gen h) (aset_inner (ag_pending w ++ [i]) (ag_next w) w) x))).
Proof using.
  intros [R1 [C1 C2 C3 [M1 M2 M3 M4 M5] C5 C6] R3 R4 R5 R6 R7] Hp Ho Hk Hw.
  set (cur := hd_gen h) in *. set (w' := aset_inner (ag_pending w ++ [i]) (ag_next w) w).
  destruct (pr_owner _ _ C1 o Ho) as (h' & Hh' & Hcur & _).
  rewrite Hk in Hh'. injection Hh' as <-. fold cur in Hcur.
  assert (marking x y = Some i) as Hmk by (unfold marking; by rewrite Hp).
  rewrite Hmk in *.
  assert (owner_op x = false) as Hop by (apply (pr_push _ _ C1); congruence).
  eexists _, _, y, l, pd, lo, (if decide (cur = lo) then rem ++ [i] else rem). split; [reflexivity|].
  split; [apply rtc_refl|]. split; [done|]. split; try done.
  assert (marking (set_push None (put_gen cur w' x)) y = None) as ->.
  { unfold marking, owner_op in *. cbn. destruct (x_crit x) as [c|], (y_prog y); try done. by destruct (k_op c). }
  split; [|done|by destruct C3; split|..].
  - apply proto_end_push. by eapply proto_put_gen.
  - split; try done.
    + intros g w0. cbn. rewrite todo_none, lookup_insert_Some. intros [[<- <-]|[Hne Hw0]].
      * specialize (M2 cur w Hw). unfold todo in M2. rewrite (decide_True _ _ Hcur) in M2.
        change (option_list (Some i)) with [i] in M2. by case_decide.
      * specialize (M2 g w0 Hw0). unfold todo in M2. rewrite (decide_False (P := S g = x_next_gen x)) in M2 by lia.
        rewrite app_nil_r in M2. case_decide; [|done]. subst g. by rewrite (decide_False (P := cur = lo)).
    + intros i' g Hi'. cbn. rewrite lookup_insert_is_Some. destruct (decide (cur = g)); [by left|right; eauto].
    + intros o' r i' Ho' Hin Hi'. destruct (M5 o' r i' Ho' Hin Hi') as [?|[? _]]; [by left|congruence].
  - destruct (decide (cur = lo)) as [Heq|Hne].
    + assert (forall j d, x_tasks x !! j = Some d -> dt_phase d = Releasing) as Hrel
        by (intros j d; by eapply owner_no_front).
      split; [|split; cbn].
      * cbn. intros c j rest drops Hc Hk_op. destruct (pr_crit _ _ C1 c j rest drops Hc Hk_op) as (d & Hd & Hl).
        specialize (Hrel j d Hd). congruence.
      * intros j d Hd Hl. specialize (Hrel j d Hd). congruence.
      * intros Hall w0. rewrite Heq, lookup_insert_eq. intros [= <-]. cbn. f_equal.
        apply C5; [|by rewrite <- Heq]. done.
    + destruct C5 as (H1 & H2 & H3). split; [done|]. split; [done|]. cbn. intros Hall w0.
      rewrite lookup_insert_ne by done. by apply H3.
  - by apply (views_ext x y l); [|eapply same_on_put|..].
Qed.

End ops.
