(* ===== verification/RcuWeakAdvance.v ===== *)
(** [advance_generation] as a step of the client: the [RcuCslab] goes on as the
    reader that it is, and a clone of it stands for the reference to the old
    generation that is dropped. *)

From S2P Require Import Prelude CslabStorage Cslab CslabIter CslabProps Weak WeakCslab WeakSystem WeakCorrect.
From S2P Require Import RcuWeak RcuWeakProto RcuWeakRel RcuWeakSim RcuWeakOwner RcuWeakOwnerOps.

Section advance.
Context {T : Type}.
Implicit Types (x : rsys T) (y : sys T) (r : reader T) (h : handle T).
Abbreviation trs := (list (tag * reader T)).

Lemma handles_add_dead x (l : trs) g j r : handles_rel x l -> r_prog r = None ->
  handles_rel x (l ++ [(TDead g j, r)]).
Proof using.
  intros [H1 H2 H3 H4] Hp. assert (lives (l ++ [(TDead g j, r)]) = lives l) as E
    by (rewrite lives_app; apply app_nil_r).
  split.
  - intros k. by rewrite E.
  - by rewrite E.
  - intros k h r0. rewrite elem_of_app, list_elem_of_singleton. intros [?|[=]]. by apply H3.
  - intros g' j' r0. rewrite elem_of_app, list_elem_of_singleton. intros [?|[= -> -> ->]]; [by eapply H4|done].
Qed.

Context x y (l1 l2 : trs) (r rc : reader T) (pd : gmap Z nat) (lo o : nat) (rem : list Z) h (w : arc_gen).
Abbreviation cur := (hd_gen h).
Abbreviation nxt := (x_next_gen x).
Abbreviation l := (l1 ++ (TLive o, r) :: l2).
Context (C : core x y l pd lo rem None) (Ho : x_owner x = Some o) (Hk : x_handles x !! o = Some h).
Context (Hb : owner_busy x = false) (Hw : x_gens x !! cur = Some w).
Context (Hrv : r_view rc = hd_view h) (Hrp : r_prog rc = None) (Hra : r_acked r ⊆ r_acked rc).

Abbreviation x' := (spawn_drop h (put_handle o (hset_gen nxt (end_borrows h))
  (put_gen nxt (mkArcGen 2 vbot [] None) (put_gen cur (aset_inner (ag_pending w) (Some nxt) w)
    (set_next_gen (S nxt) x))))).
Abbreviation r' := (rset_held ∅ (r_iter r) r).
Abbreviation l' := (l1 ++ (TLive o, r') :: l2 ++ [(TDead cur (Some (x_fresh x)), rc)]).

Lemma advance_gens g w' : x_gens x' !! g = Some w' ->
  g = nxt /\ w' = mkArcGen 2 vbot [] None
  \/ g <> nxt /\ exists w0, x_gens x !! g = Some w0 /\ ag_pending w' = ag_pending w0 /\ ag_view w' = ag_view w0.
Proof using C Hw.
  cbn. rewrite !lookup_insert_Some. intros [[<- <-]|[Hne [[<- <-]|[Hne' Hg]]]]; [by left|right..].
  - split; [done|]. by exists w.
  - split; [done|]. by exists w'.
Qed.

Lemma advance_cur : S cur = nxt /\ (lo <= cur)%nat.
Proof using C Ho Hk.
  destruct (pr_owner _ _ (co_proto _ _ _ _ _ _ _ C) o Ho) as (h' & Hh' & Hcur & _).
  rewrite Hk in Hh'. injection Hh' as <-. split; [done|].
  apply (pr_handle _ _ (co_proto _ _ _ _ _ _ _ C) o h Hk).
Qed.

Lemma advance_handles : handles_rel x' l'.
Proof using C Hk Hrp.
  destruct C as [C1 C2 C3 _ _ _].
  change (l1 ++ (TLive o, r') :: l2 ++ [(TDead cur (Some (x_fresh x)), rc)])
    with (l1 ++ ((TLive o, r') :: l2) ++ [(TDead cur (Some (x_fresh x)), rc)]).
  rewrite app_assoc. apply handles_add_dead; [|done].
  eapply (handles_update x x'); [exact C3|reflexivity|].
  destruct (hr_rel _ _ C3 o h r) as [? ? ? ?]; [rewrite elem_of_app; right; by left|done|].
  split; cbn; try done. by left.
Qed.

Lemma advance_marks : marks_rel x' (y_marked y) l' pd lo rem None.
Proof using C Ho Hk Hw Hrp Hra.
  destruct advance_cur as [Hcur Hlo]. pose proof advance_handles as H'. destruct C as [C1 _ C3 [M1 M2 M3 M4 M5] _ _].
  assert ((TLive o, r) ∈ l) as Hr by (rewrite elem_of_app; right; by left).
  assert (forall i, i ∈ y_marked y -> i ∈ r_acked r) as Hall
    by (intros i Hi; by destruct (M5 o r i Ho Hr Hi) as [?|[_ ?]]).
  split; try done.
  - intros g w' [[-> ->]|(Hne & w0 & Hw0 & Hp & _)]%advance_gens.
    + rewrite todo_none, decide_False by lia. cbn. split; [constructor|]. intros i. split; [by intros ?%elem_of_nil|].
      intros Hi%M3. apply (pr_gens _ _ C1) in Hi. lia.
    + rewrite todo_none, Hp, <- (todo_none x). by apply M2.
  - intros i g Hi. cbn. rewrite !lookup_insert_is_Some. destruct (decide (nxt = g)); [by left|]. right.
    split; [done|]. destruct (decide (cur = g)); [by left|]. right. eauto.
  - intros t r0 g i g' Hin Hg Hi Hlt.
    assert (i ∈ y_marked y) as Hm by (rewrite <- M1; by apply elem_of_dom_2 in Hi).
    rewrite elem_of_app, elem_of_cons, elem_of_app, list_elem_of_singleton in Hin.
    assert ((t, r0) ∈ l1 \/ (t, r0) ∈ l2 -> i ∈ r_acked r0) as Hold.
    { intros Hin'. assert ((t, r0) ∈ l) as Hin0 by (rewrite elem_of_app, elem_of_cons; tauto).
      destruct t as [k|g0 j]; [|by apply (M4 (TDead g0 j) r0 g i g')].
      destruct Hg as (h0 & Hh0 & Hg). cbn in Hh0. apply lookup_insert_Some in Hh0 as [[<- <-]|[_ Hh0]].
      - apply (live_unique _ _ _ _ _ (hr_once _ _ C3)) in Hin0 as ->. by apply Hall.
      - apply (M4 (TLive k) r0 g i g'); try done. by exists h0. }
    destruct Hin as [?|[[= -> ->]|[?|[= -> ->]]]]; [by apply Hold; left|by apply Hall|by apply Hold; right|].
    apply Hra. by apply Hall.
  - intros o' r0 i Ho' Hin Hi. cbn in Ho'. rewrite Ho in Ho'. injection Ho' as <-.
    apply (live_unique _ _ _ _ _ (hr_once _ _ H')) in Hin as ->. left. by apply Hall.
Qed.

Lemma advance_views y' : y_view y' = y_view y -> views_rel x' y' l' lo.
Proof using C Ho Hk Hw Hrv Hb Hrp Hra.
  intros Hy. destruct C as [C1 _ _ _ _ C6].
  destruct (pr_fresh _ _ C1 (x_fresh x) (le_n _)) as [_ Hft].
  assert (views_rel x y (l ++ (TLive o, rc) :: []) lo) as V.
  { eapply views_ext; [exact C6|done|done|done|]. intros g j r0.
    rewrite (elem_of_app l), list_elem_of_singleton. split; [intros [?|[=]]; done|by left]. }
  assert (views_rel x' y' (l ++ (TDead cur (Some (x_fresh x)), rc) :: []) lo) as V'.
  { apply (views_spawn x y l [] lo x' y' o rc (x_fresh x) (mkTask cur (hd_view h) Releasing)); try done.
    - intros g w0 Hg. cbn. assert (g < nxt)%nat by (apply (pr_gens _ _ C1); by eexists).
      rewrite lookup_insert_ne by lia. destruct (decide (cur = g)) as [<-|].
      + rewrite lookup_insert_eq. eexists. split; [done|]. cbn. congruence.
      + rewrite lookup_insert_ne by done. by exists w0.
    - intros g w' [[-> ->]|(_ & w0 & Hw0 & _ & Hv)]%advance_gens; [left|right; by exists w0].
      split; [split; cbn; lia|]. cbn. set_solver.
    - by rewrite Hy.
    - cbn. intros j d Hj Hph Heq. apply Hph. by apply (owner_no_front x lo o h j d). }
  eapply views_ext; [exact V'|done|done|done|]. intros g j r0.
  assert (forall r1, (TDead g j, r0) <> (TLive o, r1)) as Hne by done.
  repeat rewrite ?elem_of_app, ?elem_of_cons, ?elem_of_nil.
  pose proof (Hne r) as N1. pose proof (Hne r') as N2. clear -N1 N2. tauto.
Qed.

Lemma advance_core y' :
  y_readers y' = l'.*2 -> y_marked y' = y_marked y -> y_view y' = y_view y -> core x' y' l' pd lo rem None.
Proof using C Ho Hk Hb Hw Hrv Hrp Hra.
  intros Hr Hm Hv. destruct advance_cur as [Hcur Hlo]. destruct C as [C1 C2 C3 C4 C5 C6]. split; [|done|..].
  - by eapply proto_advance.
  - apply advance_handles.
  - rewrite Hm. apply advance_marks.
  - destruct C5 as (H1 & H2 & H3). split; [done|]. split; cbn.
    + intros j d. rewrite lookup_insert_Some. intros [[_ <-]|[_ ?]]; [done|]. by apply (H2 j).
    + intros Hall w'. rewrite lookup_insert_ne by lia. rewrite lookup_insert_Some. intros Hw'.
      assert (forall j d, x_tasks x !! j = Some d -> dt_phase d = Releasing \/ dt_phase d = Finalizing) as Hall'.
      { intros j d Hj. apply (Hall j). rewrite lookup_insert_ne; [done|].
        destruct (pr_fresh _ _ C1 (x_fresh x) (le_n _)) as [_ Hft]. congruence. }
      destruct Hw' as [[Heq <-]|[_ Hw']]; [|by apply H3]. cbn. apply H3; [done|]. by rewrite <- Heq.
  - by apply advance_views.
Qed.
End advance.

Section sim_advance.
Context {T : Type} (el : layout) (n : Z) (c0 : cslab T).
Context (Hel : entry_layout_ok el) (Hnew : with_fixed_capacity el n = Ret c0).
Implicit Types (x : rsys T) (y : sys T) (r : reader T) (h : handle T).
Abbreviation ord := source_orderings.

Lemma sim_advance x y l pd lo rem o h w :
  rel n x y l pd lo rem -> idle_owner x = Some (o, h) -> x_gens x !! hd_gen h = Some w ->
  ag_next w = None
  /\ simulated n y (Ret (RStep, spawn_drop h (put_handle o (hset_gen (x_next_gen x) (end_borrows h))
       (put_gen (x_next_gen x) (mkArcGen 2 vbot [] None)
         (put_gen (hd_gen h) (aset_inner (ag_pending w) (Some (x_next_gen x)) w)
           (set_next_gen (S (x_next_gen x)) x)))))).
Proof using Hel Hnew.
  intros R (Ho & Hk & Hpr & Hb)%idle_owner_spec Hw.
  destruct (live_split n _ _ _ _ _ _ _ _ R Hk) as (l1 & r & l2 & -> & Hl).
  destruct R as [R1 C R3 R4 R5 R6 R7]. rewrite (marking_idle _ _ Hb) in C.
  pose proof (advance_cur x y l1 l2 r pd lo o rem h C Ho Hk) as [Hcur _].
  split; [rewrite (pr_next _ _ (co_proto _ _ _ _ _ _ _ C) _ w Hw), decide_False by lia; done|].
  assert (r_prog r = None) as Hrp by (by rewrite <- (lv_prog _ _ Hl)).
  pose proof (co_readers _ _ _ _ _ _ _ C) as Hy.
  pose proof (esteps_release y l1 l2 (TLive o) r Hy Hrp) as S1.
  set (y1 := set_readers _ y) in S1. set (r1 := rset_held ∅ (r_iter r) r) in *.
  set (rc := mkReader (r_view r) ∅ None None (r_must r) (r_noted r) (r_noted r) : reader T).
  set (y2 := set_readers ((l1 ++ (TLive o, r1) :: l2 ++ [(TDead (hd_gen h) (Some (x_fresh x)), rc)]).*2) y1).
  assert (estep y1 y2) as S2.
  { exists (EClone (length l1) []), AStep. cbn. rewrite (idle_reader_at y1 l1 l2 (TLive o) r1 eq_refl Hrp). cbn.
    do 3 f_equal. unfold y2. f_equal. rewrite !fmap_app, !fmap_cons, fmap_app. cbn. by rewrite <- app_assoc. }
  assert (esteps y y2) as Hs by (by eapply rtc_r).
  eexists _, _, y2, _, pd, lo, rem. split; [reflexivity|]. split; [exact Hs|]. split; [done|].
  split; try done.
  - by eapply esteps_reachable.
  - rewrite marking_idle by done. apply (advance_core x y l1 l2 r rc); try done.
    + by rewrite (lv_view _ _ Hl).
    + by apply (client_noted el n c0 Hel Hnew y l1 l2 (TLive o)).
  - intros o' h' Hop. apply owner_op_busy in Hop. change (owner_busy x = true) in Hop. congruence.
Qed.
End sim_advance.
