(* ===== verification/RcuWeakDrop.v ===== *)
(** The drop of a reference to a generation, and the end of the generation: what
    releasing does to the relation with the client, which readers end with the
    generation, and what finalizing one of its removals does. *)

From S2P Require Import Prelude CslabStorage Cslab CslabIter CslabProps Weak WeakCslab WeakSystem WeakSteps WeakCorrect.
From S2P Require Import RcuWeak RcuWeakProto RcuWeakRel RcuWeakSim RcuWeakOwner RcuWeakOwnerOps.

(** ** Releasing a reference *)

(** The drop [j] leaves its view with the count. *)
Definition retag (j : nat) (t : tag) : tag :=
  match t with
  | TDead g (Some j') => if decide (j' = j) then TDead g None else t
  | _ => t
  end.

Section release.
Context {T : Type}.
Implicit Types (x : rsys T) (y : sys T) (r : reader T) (h : handle T).
Abbreviation trs := (list (tag * reader T)).

Definition retagged (j : nat) (l : trs) : trs := prod_map (retag j) id <$> l.

Lemma retagged_in j (l : trs) t' r : (t', r) ∈ retagged j l <-> exists t, (t, r) ∈ l /\ t' = retag j t.
Proof.
  unfold retagged. rewrite list_elem_of_fmap. split.
  - intros ([t r0] & [= -> ->] & Hin). by exists t.
  - intros (t & Hin & ->). by exists (t, r).
Qed.

Lemma retagged_none j (l : trs) g r : (TDead g None, r) ∈ retagged j l <->
  (TDead g None, r) ∈ l \/ (TDead g (Some j), r) ∈ l.
Proof.
  rewrite retagged_in. split.
  - intros ([k|g' [j'|]] & Hin & Heq); cbn in Heq; [done| |injection Heq as <-; by left].
    case_decide; [|done]. subst j'. injection Heq as <-. by right.
  - intros [Hin|Hin]; eexists; (split; [exact Hin|]); cbn; [done|by rewrite decide_True].
Qed.

Lemma retagged_some j (l : trs) g j' r : (TDead g (Some j'), r) ∈ retagged j l <->
  (TDead g (Some j'), r) ∈ l /\ j' <> j.
Proof.
  rewrite retagged_in. split.
  - intros ([k|g' [j0|]] & Hin & Heq); cbn in Heq; [done| |done].
    case_decide; [done|]. injection Heq as <- <-. done.
  - intros [Hin Hne]. eexists. split; [exact Hin|]. cbn. by rewrite decide_False.
Qed.

Lemma retagged_handles x j (l : trs) : handles_rel x l -> handles_rel x (retagged j l).
Proof.
  intros [H1 H2 H3 H4]. assert (lives (retagged j l) = lives l) as E.
  { clear. induction l as [|p l IH]; [done|]. unfold lives, retagged in *. cbn in *. rewrite IH.
    destruct p as [[k|g [j'|]] r]; try done. cbn. by case_decide. }
  split.
  - intros k. by rewrite E.
  - by rewrite E.
  - intros k h r ([k'|g [j'|]] & Hin & Heq)%retagged_in; cbn in Heq; [|by case_decide|done].
    injection Heq as <-. by apply H3.
  - intros g j' r ([k'|g' j0] & Hin & Heq)%retagged_in; [done|]. by apply (H4 g' j0).
Qed.

Lemma retagged_gen x j t g : tag_gen x (retag j t) g <-> tag_gen x t g.
Proof. destruct t as [k|g' [j'|]]; cbn; [done| |done]. by case_decide. Qed.

Context x y (l : trs) (pd : gmap Z nat) (lo : nat) (rem : list Z) (mk : option Z) (j k : nat) (d : drop_task) (w : arc_gen).
Context (C : core x y l pd lo rem mk) (Hj : x_tasks x !! j = Some d) (Hph : dt_phase d = Releasing).
Context (Hw : x_gens x !! dt_gen d = Some w) (Hs : ag_strong w = S k).
Abbreviation V := (vjoin (ag_view w) (dt_view d)).
Abbreviation x1 := (put_gen (dt_gen d) (aset_strong k V w) x).
Abbreviation x' := (if decide (k = 0%nat) then put_task j (mkTask (dt_gen d) (vjoin (dt_view d) V) Finalizing) x1
  else set_tasks (delete j (x_tasks x1)) x1).

Lemma release_shape :
  x_gens x' = <[dt_gen d := aset_strong k V w]> (x_gens x) /\ x_handles x' = x_handles x
  /\ x_next_gen x' = x_next_gen x /\ x_crit x' = x_crit x /\ x_push x' = x_push x /\ x_owner x' = x_owner x
  /\ (forall j', j' <> j -> x_tasks x' !! j' = x_tasks x !! j')
  /\ (forall d', x_tasks x' !! j = Some d' -> d' = mkTask (dt_gen d) V Finalizing).
Proof.
  assert (vjoin (dt_view d) V = V) as HV.
  { apply vsub_antisym; [|apply vsub_join_r]. apply vsub_join; [apply vsub_join_r|done]. }
  case_decide; cbn; do 6 (split; [done|]); (split; [intros j' Hne|intros d']).
  - by rewrite lookup_insert_ne.
  - rewrite lookup_insert_eq, HV. by intros [= <-].
  - by rewrite lookup_delete_ne.
  - by rewrite lookup_delete_eq.
Qed.

Lemma release_proto : proto x' lo.
Proof using C Hj Hph Hw Hs.
  pose proof (co_proto _ _ _ _ _ _ _ C) as P. case_decide as Hk.
  - rewrite Hk. eapply proto_release_last; try done. congruence.
  - by apply (proto_release_more x lo j d w k).
Qed.

Lemma release_views : views_rel x' y (retagged j l) lo.
Proof using C Hj Hph Hw Hs.
  pose proof release_proto as P'. destruct C as [P _ _ _ _ [V1 V2 V3 V4]].
  destruct release_shape as (Eg & _ & _ & _ & _ & _ & Et & Ej).
  assert (forall z g, dead l g None z -> dead (retagged j l) g None z \/ vsub z (y_view y)) as Hd.
  { intros z g (r & Hr & <-). left. exists r. split; [|done]. apply retagged_none. by left. }
  split.
  - intros g r Hr. rewrite Eg. apply retagged_none in Hr as [Hr|Hr].
    + destruct (V1 g r Hr) as (w0 & Hw0 & Hsub). destruct (decide (dt_gen d = g)) as [<-|Hne].
      * rewrite lookup_insert_eq. eexists. split; [done|]. rewrite Hw in Hw0. injection Hw0 as <-. cbn.
        etrans; [exact Hsub|apply vsub_join_l].
      * rewrite lookup_insert_ne by done. by exists w0.
    + destruct (V2 g j r Hr) as (d0 & Hd0 & _ & Hg & Hsub). rewrite Hj in Hd0. injection Hd0 as <-.
      rewrite Hg, lookup_insert_eq. eexists. split; [done|]. cbn. etrans; [exact Hsub|apply vsub_join_r].
  - intros g j' r [Hr Hne]%retagged_some. destruct (V2 g j' r Hr) as (d0 & Hd0 & ?). exists d0. by rewrite Et.
  - intros g w'. rewrite Eg, lookup_insert_Some. intros [[<- <-]|[_ Hw']].
    + cbn. apply covered_join.
      * eapply covered_mono; [by apply V3|done|intros z; apply Hd].
      * specialize (V4 j d Hj). rewrite Hph in V4. eapply covered_mono; [exact V4|done|].
        intros z (r & Hr & <-). left. exists r. split; [|done]. apply retagged_none. by right.
    + eapply covered_mono; [by apply V3|done|intros z; apply Hd].
  - intros j' d' Hj'. destruct (decide (j' = j)) as [->|Hne].
    + pose proof (Ej d' Hj') as ->. cbn [dt_phase dt_view].
      destruct (pr_front _ _ P' j _ Hj' ltac:(done)) as [Heq _]. cbn in Heq.
      rewrite Eg, Heq, lookup_insert_eq. by eexists.
    + rewrite (Et j' Hne) in Hj'. specialize (V4 j' d' Hj'). destruct (dt_phase d') eqn:Hph'.
      * eapply covered_mono; [exact V4|done|]. intros z (r & Hr & <-). left. exists r.
        split; [|done]. by apply retagged_some.
      * destruct V4 as (w0 & Hw0 & Heq). exists w0. rewrite Eg, lookup_insert_ne; [done|].
        destruct (pr_front _ _ P j' d' Hj' ltac:(congruence)) as (_ & w1 & Hw1 & H0). congruence.
      * intros j0 r ([k'|g' j1] & Hin & Heq)%retagged_in; [done|]. cbn in Heq.
        destruct j1 as [j1|]; [case_decide|]; injection Heq as -> ->; by eapply V4.
      * destruct V4 as [V4 V5]. split; [|done]. intros j0 r ([k'|g' j1] & Hin & Heq)%retagged_in; [done|]. cbn in Heq.
        destruct j1 as [j1|]; [case_decide|]; injection Heq as -> ->; by eapply V4.
Qed.

Lemma release_core : core x' y (retagged j l) pd lo rem mk.
Proof using C Hj Hph Hw Hs.
  pose proof release_proto as P'. pose proof release_views as V'.
  destruct release_shape as (Eg & Eh & En & Ec & Ep & Eo & Et & Ej).
  destruct C as [P C2 C3 C4 C5 _]. split; try done.
  - rewrite C2. unfold retagged. rewrite <- list_fmap_compose. by apply list_fmap_ext.
  - destruct (retagged_handles x j l C3) as [H1 H2 H3 H4]. split; rewrite ?Eh; done.
  - assert (same_on ag_pending x x') as Hp.
    { intros g. rewrite Eg. by apply (same_on_put ag_pending x (dt_gen d) w). }
    eapply marks_ext; [exact C4|exact Hp|done|done|..].
    + intros t' r g (t & Hin & ->)%retagged_in Hg. apply retagged_gen in Hg. exists t, r. split; [done|].
      split; [|done]. destruct t as [k'|]; [|done]. unfold tag_gen in *. by rewrite Eh in Hg.
    + intros o. rewrite Eo. split; [done|]. intros r ([k'|g' [j1|]] & Hin & Heq)%retagged_in; cbn in Heq;
        [|by case_decide|done]. injection Heq as <-. by exists r.
  - assert (same_on ag_pending x x') as Hp.
    { intros g. rewrite Eg. by apply (same_on_put ag_pending x (dt_gen d) w). }
    apply (rem_ok_ext x); [done|rewrite Ec; eauto|exact Hp|..].
    + intros j' d' Hj' Hl. destruct (decide (j' = j)) as [->|Hne]; [|by rewrite <- (Et j' Hne)].
      by rewrite (Ej d' Hj') in Hl.
    + intros j' d' Hj' Hl. exists j', d'. rewrite Et; [done|]. intros ->. rewrite Hj in Hj'. injection Hj' as <-.
      rewrite Hph in Hl. by destruct Hl.
Qed.
End release.

Section parts.
Context {T : Type}.
Implicit Types (x : rsys T) (y : sys T) (r : reader T) (h : handle T).
Abbreviation trs := (list (tag * reader T)).

(** ** The readers that held the generation *)

Definition ended (lo : nat) (t : tag) : bool := match t with TDead g _ => (g =? lo)%nat | _ => false end.
Definition others (lo : nat) (l : trs) : trs := base.filter (fun p => ended lo p.1 = false) l.

Lemma ended_true lo t : ended lo t = true <-> exists j, t = TDead lo j.
Proof.
  destruct t as [k|g j]; cbn; [split; [done|by intros [? ?]]|]. rewrite Nat.eqb_eq.
  split; [intros ->; by exists j|by intros [? [= -> _]]].
Qed.

Lemma others_in lo (l : trs) t r : (t, r) ∈ others lo l <-> (t, r) ∈ l /\ ended lo t = false.
Proof. unfold others. rewrite list_elem_of_filter. cbn. tauto. Qed.

Lemma others_none lo (l : trs) j r : (TDead lo j, r) ∉ others lo l.
Proof. rewrite others_in. cbn. rewrite Nat.eqb_refl. by intros [_ ?]. Qed.

Lemma others_lives lo (l : trs) : lives (others lo l) = lives l.
Proof.
  unfold others. induction l as [|p l IH]; [done|]. rewrite filter_cons. unfold lives in *.
  destruct p as [[k|g j] r]; cbn in *; case_decide; cbn; (done || congruence).
Qed.

(** They end one after the other; the view of the writer gets theirs, and
    nothing else. *)
Lemma esteps_drop lo (l2 l1 : trs) y :
  y_readers y = (l1 ++ l2).*2 -> y_prog y = None -> (forall t r, (t, r) ∈ l2 -> ended lo t = true -> r_prog r = None) ->
  exists V, esteps y (set_view V (set_readers ((l1 ++ others lo l2).*2) y)) /\ vsub (y_view y) V
  /\ (forall t r, (t, r) ∈ l2 -> ended lo t = true -> vsub (r_view r) V)
  /\ (forall V', vsub (y_view y) V' -> (forall t r, (t, r) ∈ l2 -> ended lo t = true -> vsub (r_view r) V') ->
        vsub V V').
Proof.
  revert l1 y. induction l2 as [|[t r] l2 IH]; intros l1 y Hy Hp Hd.
  { exists (y_view y). cbn. rewrite <- Hy. split; [destruct y; apply rtc_refl|]. split; [done|].
    split; [by intros t r ?%elem_of_nil|done]. }
  assert (forall t0 r0, (t0, r0) ∈ l2 -> ended lo t0 = true -> r_prog r0 = None) as Hd'
    by (intros t0 r0 Hin; apply (Hd t0); by right).
  unfold others. rewrite filter_cons. cbn. destruct (ended lo t) eqn:He.
  - rewrite decide_False by done. fold (others lo l2).
    set (y1 := set_view (vjoin (y_view y) (r_view r)) (set_readers ((l1 ++ l2).*2) y)).
    assert (estep y y1) as S1.
    { exists (EDrop (length l1)), AStep. cbn. unfold writer_idle. rewrite Hp.
      rewrite (idle_reader_at y l1 l2 t r Hy) by (eapply Hd; [by left|done]). cbn. do 4 f_equal.
      rewrite Hy, !fmap_app. cbn. rewrite <- (length_fmap snd l1). by rewrite delete_middle. }
    destruct (IH l1 y1 eq_refl Hp Hd') as (V & Hs & Hv & Hin & Hmin). exists V.
    split; [by eapply rtc_l|]. split; [etrans; [apply vsub_join_l|exact Hv]|]. split.
    + intros t0 r0 [[= -> ->]|Hr0]%elem_of_cons Ht0; [etrans; [apply vsub_join_r|exact Hv]|by apply (Hin t0)].
    + intros V' Hy' Hr'. apply Hmin; [apply vsub_join; [done|apply (Hr' t); [by left|done]]|].
      intros t0 r0 Hr0. apply (Hr' t0). by right.
  - rewrite decide_True by done. fold (others lo l2).
    destruct (IH (l1 ++ [(t, r)]) y) as (V & Hs & Hv & Hin & Hmin); [by rewrite <- app_assoc|done|done|].
    exists V. rewrite <- app_assoc in Hs. split; [exact Hs|]. split; [done|]. split.
    + intros t0 r0 [[= -> ->]|Hr0]%elem_of_cons Ht0; [congruence|by apply (Hin t0)].
    + intros V' Hy' Hr'. apply Hmin; [done|]. intros t0 r0 Hr0. apply (Hr' t0). by right.
Qed.

(** The relation without them. *)
Lemma others_handles x lo (l : trs) : handles_rel x l -> handles_rel x (others lo l).
Proof.
  intros [H1 H2 H3 H4]. split.
  - intros k. by rewrite others_lives.
  - by rewrite others_lives.
  - intros k h r [Hr _]%others_in. by apply H3.
  - intros g j r [Hr _]%others_in. by eapply H4.
Qed.

Lemma others_marks x D lo (l : trs) pd rem mk : marks_rel x D l pd lo rem mk -> marks_rel x D (others lo l) pd lo rem mk.
Proof.
  intros M. eapply marks_ext; [exact M|done..| |].
  - intros t r g [Hr _]%others_in Hg. by exists t, r.
  - intros o Ho. split; [done|]. intros r [Hr _]%others_in. by exists r.
Qed.

Lemma others_views x y y' lo (l : trs) : views_rel x y l lo -> vsub (y_view y) (y_view y') ->
  (forall t r, (t, r) ∈ l -> ended lo t = true -> vsub (r_view r) (y_view y')) -> views_rel x y' (others lo l) lo.
Proof.
  intros [V1 V2 V3 V4] Hv Hd.
  assert (forall g j z, dead l g j z -> dead (others lo l) g j z \/ vsub z (y_view y')) as Hd'.
  { intros g j z (r & Hr & <-). destruct (ended lo (TDead g j)) eqn:He; [right; by eapply Hd|].
    left. exists r. split; [|done]. by apply others_in. }
  split.
  - intros g r [Hr _]%others_in. by apply V1.
  - intros g j r [Hr _]%others_in. by apply V2.
  - intros g w Hw. eapply covered_mono; [by apply V3|done|apply Hd'].
  - intros j d Hj. specialize (V4 j d Hj). destruct (dt_phase d).
    + eapply covered_mono; [done|done|apply Hd'].
    + done.
    + intros j' r [Hr _]%others_in. by eapply V4.
    + destruct V4 as [V4 V5]. split; [|by etrans]. intros j' r [Hr _]%others_in. by eapply V4.
Qed.

(** ** The drop that is past its release *)

(** No one refers to the generation that ends, and nothing is added to it. *)
Lemma front_alone x y lo (l : trs) j d t r g : proto x lo -> views_rel x y l lo ->
  (forall j r, (TDead lo j, r) ∉ l) -> x_tasks x !! j = Some d -> dt_phase d <> Releasing ->
  (t, r) ∈ l -> tag_gen x t g -> (lo < g)%nat.
Proof.
  intros P V Hno Hj Hph Hin Hg. pose proof (tag_gen_alive _ _ _ _ _ _ _ P V Hin Hg) as Hlo.
  destruct (decide (g = lo)) as [->|]; [exfalso|lia]. destruct t as [k|g' j']; [|cbn in Hg; subst; by eapply Hno].
  destruct Hg as (h & Hh & Hg). destruct (pr_front _ _ P j d Hj Hph) as (_ & w & Hw & H0).
  destruct (proto_dead x lo lo w P Hw H0) as (_ & Hn & _). by apply (Hn k h).
Qed.

Lemma front_idle x lo j d : proto x lo -> x_tasks x !! j = Some d -> dt_phase d <> Releasing ->
  S lo = x_next_gen x -> owner_busy x = false.
Proof.
  intros P Hj Hph Hlo. destruct (x_owner x) as [o|] eqn:Ho.
  - destruct (pr_owner _ _ P o Ho) as (h & Hh & Hg & _). exfalso. apply Hph.
    eapply (owner_no_front x lo o h); try done. lia.
  - by apply (pr_no_owner _ _ P).
Qed.

Lemma front_todo x lo rem w j d : proto x lo -> x_tasks x !! j = Some d -> dt_phase d <> Releasing ->
  todo x (x_push x) lo rem lo w = rem.
Proof.
  intros P Hj Hph. unfold todo. rewrite decide_True by done. case_decide as Hlo; [|apply app_nil_r].
  destruct (not_busy _ (front_idle _ _ _ _ P Hj Hph Hlo)) as [-> _]. apply app_nil_r.
Qed.

Lemma front_views x x' y lo (l : trs) j d d' : views_rel x y l lo -> (forall j r, (TDead lo j, r) ∉ l) ->
  x_tasks x !! j = Some d -> dt_phase d <> Releasing ->
  x_gens x' = x_gens x -> x_tasks x' = <[j := d']> (x_tasks x) ->
  match dt_phase d' with Locked => True | Freeing => vsub (dt_view d') (y_view y) | _ => False end ->
  views_rel x' y l lo.
Proof.
  intros [V1 V2 V3 V4] Hno Hj Hph Hg Ht Hd'. split; rewrite ?Hg, ?Ht; try done.
  - intros g j' r Hr. destruct (V2 g j' r Hr) as (d0 & Hd0 & Hph0 & ?). exists d0.
    rewrite lookup_insert_ne; [done|]. congruence.
  - intros j' d0. rewrite lookup_insert_Some. intros [[<- <-]|[Hne Hd0]]; [|by apply V4].
    by destruct (dt_phase d').
Qed.

(** Finalizing one of the indexes. *)
Lemma front_marks x D (l : trs) pd lo i rest mk : marks_rel x D l pd lo (i :: rest) mk ->
  is_Some (x_gens x !! lo) ->
  marks_rel x (D ∖ {[ i ]}) (prod_map id (forget i) <$> l) (delete i pd) lo rest mk.
Proof.
  intros [M1 M2 M3 M4 M5] [w Hw]. destruct (M2 lo w Hw) as [Hnd Hin].
  unfold todo in Hnd, Hin. rewrite decide_True in Hnd, Hin by done. cbn in Hnd, Hin.
  assert (pd !! i = Some lo) as Hi by (apply Hin; by left).
  apply NoDup_cons in Hnd as [Hni Hnd].
  split.
  - by rewrite dom_delete_L, M1.
  - intros g w0 Hw0. destruct (decide (g = lo)) as [->|Hne].
    + unfold todo. rewrite decide_True by done. split; [exact Hnd|]. intros i'. rewrite lookup_delete_Some, <- Hin, elem_of_cons.
      destruct (decide (i = i')) as [->|Hne]; [tauto|]. split; [tauto|]. intros [_ [?|?]]; [congruence|done].
    + specialize (M2 g w0 Hw0). unfold todo in *. rewrite decide_False in * by done.
      destruct M2 as [Hnd' Hin']. split; [done|]. intros i'. rewrite Hin', lookup_delete_Some.
      split; [|tauto]. intros Hi'. split; [|done]. intros ->. congruence.
  - intros i' g [_ Hi']%lookup_delete_Some. by eapply M3.
  - intros t r' g i' g' (r & Hr & ->)%map_in Hg [Hne Hi']%lookup_delete_Some Hlt. cbn.
    pose proof (M4 t r g i' g' Hr Hg Hi' Hlt). set_solver.
  - intros o r' i' Ho (r & Hr & ->)%map_in Hi'. cbn. apply elem_of_difference in Hi' as [Hi' Hne].
    destruct (M5 o r i' Ho Hr Hi') as [?|?]; [left; set_solver|by right].
Qed.
End parts.
