(* ===== verification/RcuWeakEnd.v ===== *)
(** The steps of the drop of a generation as steps of the client: releasing,
    finalizing under the lock, and freeing. *)

From S2P Require Import Prelude CslabStorage Cslab CslabIter CslabProps Weak WeakCslab WeakSystem WeakSysInv WeakSteps WeakCorrect.
From S2P Require Import RcuWeak RcuWeakProto RcuWeakRel RcuWeakSim RcuWeakOwner RcuWeakOwnerOps RcuWeakDrop.

Section sim.
Context {T : Type} (el : layout) (n : Z) (c0 : cslab T).
Context (Hel : entry_layout_ok el) (Hnew : with_fixed_capacity el n = Ret c0).
Implicit Types (x : rsys T) (y : sys T) (r : reader T) (h : handle T).
Abbreviation trs := (list (tag * reader T)).
Abbreviation ord := source_orderings.
Abbreviation rel := (rel n).
Abbreviation reachable := (reachable T ord n).
Abbreviation simulated := (simulated n).

(** ** Releasing *)

Lemma sim_release x y l pd lo rem j d w k :
  rel x y l pd lo rem -> x_tasks x !! j = Some d -> dt_phase d = Releasing ->
  x_gens x !! dt_gen d = Some w -> ag_strong w = S k ->
  simulated y (Ret (RStep,
    let V := vjoin (ag_view w) (dt_view d) in
    let x := put_gen (dt_gen d) (aset_strong k V w) x in
    if decide (k = 0%nat) then put_task j (mkTask (dt_gen d) (vjoin (dt_view d) V) Finalizing) x
    else set_tasks (delete j (x_tasks x)) x)).
Proof using.
  intros R Hj Hph Hw Hs. cbv zeta. eexists _, _, y, (retagged j l), pd, lo, rem.
  split; [reflexivity|]. split; [apply rtc_refl|]. split; [done|]. destruct R as [R1 C R3 R4 R5 R6 R7].
  pose proof (release_core x y l pd lo rem _ j k d w C Hj Hph Hw Hs) as C'.
  case_decide; by split.
Qed.

(** ** Finalizing *)

Section finalize.
Context x y (l : trs) (pd : gmap Z nat) (lo : nat) (l0 : list Z) (j : nat) (d : drop_task).
Context (P : proto x lo) (Hj : x_tasks x !! j = Some d) (Hph : dt_phase d = Finalizing \/ dt_phase d = Locked).
Context (Hold : x_crit x = None \/ exists rest drops V p, x_crit x = Some (mkCritical (OFinalize j rest drops) V p)).
Context (Hr : y_readers y = l.*2) (H : handles_rel x l) (M : marks_rel x (y_marked y) l pd lo l0 (x_push x)).
Context (V : views_rel x y l lo) (Hno : forall j r, (TDead lo j, r) ∉ l).
Context (Hy : reachable y) (Hp : y_prog y = None) (Hm : y_mem y = x_mem x).

Lemma finalize_phase : dt_phase d <> Releasing.
Proof using Hph. destruct Hph as [-> | ->]; done. Qed.

Lemma finalize_gen : dt_gen d = lo /\ exists w, x_gens x !! lo = Some w.
Proof using P Hj Hph.
  destruct (pr_front _ _ P j d Hj finalize_phase) as (? & w & ? & _). split; [done|]. by exists w.
Qed.

(** All are finalized: the lock is released. *)
Lemma finalize_done drops hd v : y_header y = hd -> l0 = [] ->
  simulated y (Ret (RDropped drops, unlock_drop j hd (y_view y) (put_task j (mkTask lo v Locked) x))).
Proof using P Hj Hph Hold Hr H M V Hno Hy Hp Hm.
  intros Hh ->. pose proof finalize_phase as Hnr. destruct finalize_gen as [Hg _].
  rewrite (unlock_drop_eq _ _ _ _ (mkTask lo v Locked)) by apply lookup_insert_eq. rewrite put_put_task. cbn [dt_gen].
  eexists _, _, y, l, pd, lo, []. split; [reflexivity|]. split; [apply rtc_refl|]. split; [done|].
  set (x' := set_lock hd (y_view y) None (put_task j (mkTask lo (y_view y) Freeing) x)).
  assert (marking x' y = x_push x) as Hmk by (unfold marking; cbn; by destruct (x_push x)).
  split; try done. rewrite Hmk. split; try done.
  - eapply (proto_drop_phase x lo j d); try done.
  - by destruct H; split.
  - by destruct M; split.
  - split; [done|]. split; [done|]. intros Hall. destruct (Hall j (mkTask lo (y_view y) Freeing)) as [?|?];
      [apply lookup_insert_eq|done..].
  - by eapply (front_views x x' y lo l j d).
Qed.

(** The next one: the client may finalize it, as all readers that are left have
    acknowledged its removal. *)
Lemma finalize_ready i rest : l0 = i :: rest ->
  i ∈ y_marked y /\ Forall (fun r => i ∈ r_acked r) (y_readers y) /\ 0 <= i < n.
Proof using Hel Hnew P Hj Hph Hr H M V Hno Hy.
  intros Hl0. pose proof finalize_phase as Hnr. destruct finalize_gen as [_ [w Hw]].
  assert (pd !! i = Some lo) as Hi.
  { apply (mk_todo _ _ _ _ _ _ _ M lo w Hw). rewrite (front_todo _ _ _ _ _ _ P Hj Hnr), Hl0. by left. }
  assert (i ∈ y_marked y) as Him by (rewrite <- (mk_dom _ _ _ _ _ _ _ M); by apply elem_of_dom_2 in Hi).
  split; [done|]. split.
  - rewrite Hr, Forall_fmap. apply Forall_forall. intros [t r] Hin. cbn.
    assert (exists g, tag_gen x t g) as [g Hgt].
    { destruct t as [k|g j']; [|by exists g]. assert (is_Some (x_handles x !! k)) as [h Hh0].
      { apply (hr_live _ _ H), lives_in. by exists r. }
      by exists (hd_gen h), h. }
    eapply (mk_acked _ _ _ _ _ _ _ M t r g i lo); try done. by eapply (front_alone x y lo l j d).
  - destruct (client_inv el n c0 Hel Hnew y Hy) as (s & gs & I).
    destruct (si_items _ _ _ _ I) as [Hsub Hit]. apply Hsub, elem_of_dom in Him as [t Ht]. by eapply Hit.
Qed.

Lemma finalize_next_rel i rest drops hd v t p : y_header y = hd -> l0 = i :: rest -> no_store p ->
  let x' := set_lock hd (x_lock_view x) (Some (mkCritical (OFinalize j rest drops) (y_view y) p))
    (put_task j (mkTask lo v Locked) x) in
  let y' := set_prog (Some (t, p))
    (set_readers (forget i <$> y_readers y) (set_items (delete i (y_items y)) (y_marked y ∖ {[ i ]}) y)) in
  reachable y' -> rel x' y' (prod_map id (forget i) <$> l) (delete i pd) lo rest.
Proof using P Hj Hph Hold Hr H M V Hno Hm.
  intros Hh Hl0 Hst x' y' Hy'. pose proof finalize_phase as Hnr. destruct finalize_gen as [Hg Hw].
  assert (marks_rel x (y_marked y ∖ {[ i ]}) (prod_map id (forget i) <$> l) (delete i pd) lo rest (x_push x)) as M'
    by (apply front_marks; [by rewrite <- Hl0|done]).
  assert (marking x' y' = x_push x) as Hmk by (unfold marking; cbn; by destruct (x_push x)).
  assert (views_rel x y' (prod_map id (forget i) <$> l) lo) as V1 by (by apply (views_map x y)).
  assert (handles_rel x (prod_map id (forget i) <$> l)) as H1 by (by apply handles_map).
  split; [done| |done|done|done|exists t; split; [done|exact Hst]|done]. rewrite Hmk. split.
  - eapply (proto_drop_phase x lo j d); try done. split; [done|]. by eexists _, _, _, _.
  - cbn. rewrite Hr, <- !list_fmap_compose. by apply list_fmap_ext.
  - by destruct H1; split.
  - by destruct M'; split.
  - split; [by intros c j' rest' drops' [= <-] [= _ <- _]|]. split.
    + intros j' d'. cbn. rewrite lookup_insert_Some. intros [[_ <-]|[Hne Hj']] Hf; [done|].
      destruct Hne. eapply (pr_one _ _ P); [exact Hj|done|exact Hj'|congruence].
    + intros Hall. destruct (Hall j (mkTask lo v Locked)) as [?|?]; [apply lookup_insert_eq|done..].
  - eapply (front_views x x' _ lo _ j d); try done. intros j' r (r0 & Hr0 & _)%map_in. by eapply Hno.
Qed.

Lemma finalize_next i rest drops hd v : y_header y = hd -> l0 = i :: rest ->
  simulated y (finalize_from j (i :: rest) drops (y_view y) hd (put_task j (mkTask lo v Locked) x)).
Proof using Hel Hnew P Hj Hph Hold Hr H M V Hno Hy Hp Hm.
  intros Hh Hl0. destruct (finalize_ready i rest Hl0) as (Him & Hack & Hin).
  set (t := y_items y !! i). set (p := finalize_op (T:=T) hd i).
  assert (forall res, p <> PDone res) as Hnd.
  { intros res. unfold p. apply finalize_first with (n := n); [by eapply capacity_bound|done|].
    rewrite <- Hh. by apply (client_size el n c0). }
  set (y1 := set_readers (forget i <$> y_readers y) (set_items (delete i (y_items y)) (y_marked y ∖ {[ i ]}) y)).
  assert (exec ord y (EFinalize i) = Some (Ret (AStep, set_prog (Some (t, p)) y1))) as He.
  { assert (run_writer t p y1 = Ret (AStep, set_prog (Some (t, p)) y1)) as <-.
    { unfold run_writer. destruct p; try done. by destruct (Hnd o). }
    cbn. unfold writer_idle. rewrite Hp, decide_True by done. by rewrite Hh. }
  assert (estep y (set_prog (Some (t, p)) y1)) as Hs by (by exists (EFinalize i), AStep).
  assert (finalize_from j (i :: rest) drops (y_view y) hd (put_task j (mkTask lo v Locked) x)
    = Ret (RStep, set_lock hd (x_lock_view x) (Some (mkCritical (OFinalize j rest drops) (y_view y) p))
        (put_task j (mkTask lo v Locked) x))) as ->.
  { cbn [finalize_from]. fold p. destruct p; try done. by destruct (Hnd o). }
  eexists _, _, _, _, _, lo, rest. split; [reflexivity|]. split; [by apply rtc_once|]. split; [done|].
  apply (finalize_next_rel i rest drops hd v t p Hh Hl0 (finalize_no_store hd i)). by eapply reach_step.
Qed.

Lemma sim_finalize drops hd v : y_header y = hd ->
  simulated y (finalize_from j l0 drops (y_view y) hd (put_task j (mkTask lo v Locked) x)).
Proof using Hel Hnew P Hj Hph Hold Hr H M V Hno Hy Hp Hm.
  intros Hh. assert (l0 = [] \/ exists i rest, l0 = i :: rest) as [E|(i & rest & E)]
    by (clear; destruct l0; eauto); rewrite E.
  - by apply finalize_done.
  - by apply finalize_next.
Qed.
End finalize.

(** Taking the lock: the readers that held the generation end first. *)
Lemma sim_lock_drop x y l pd lo rem j d w :
  rel x y l pd lo rem -> x_tasks x !! j = Some d -> dt_phase d = Finalizing -> x_crit x = None ->
  x_gens x !! dt_gen d = Some w ->
  simulated y (finalize_from j (ag_pending w) [] (vjoin (x_lock_view x) (dt_view d)) (x_header x)
    (put_task j (mkTask (dt_gen d) (dt_view d) Locked) x)).
Proof using Hel Hnew.
  intros [R1 [C1 C2 C3 C4 C5 C6] R3 R4 R5 R6 R7] Hj Hph Hc Hw. rewrite Hc in R5, R6.
  assert (dt_phase d <> Releasing) as Hnr by congruence.
  destruct (pr_front _ _ C1 j d Hj Hnr) as (Hg & w0 & Hw0 & H0). rewrite Hg, Hw0 in Hw. injection Hw as ->.
  destruct (proto_dead x lo lo w C1 Hw0 H0) as (_ & _ & Hnorel). rewrite Hg.
  pose proof (vr_task _ _ _ _ C6 j d Hj) as Hv. rewrite Hph in Hv. destruct Hv as (w1 & Hw1 & Hv).
  rewrite Hw0 in Hw1. injection Hw1 as <-.
  assert (forall t r, (t, r) ∈ l -> ended lo t = true -> t = TDead lo None /\ r_prog r = None) as Hend.
  { intros t r Hin [j' ->]%ended_true. split; [|by eapply C3]. destruct j' as [j'|]; [exfalso|done].
    destruct (vr_dead_task _ _ _ _ C6 lo j' r Hin) as (d' & Hd' & Hph' & Hg' & _). by apply (Hnorel j' d'). }
  destruct (esteps_drop lo l [] y C2 R6) as (V & Hs & HV & Hin & Hmin); [intros t r Hr Ht; by apply (Hend t)|].
  assert (V = vjoin (x_lock_view x) (dt_view d)) as HVeq.
  { apply vsub_antisym.
    - apply Hmin; [rewrite R5; apply vsub_join_l|]. intros t r Hr Ht.
      destruct (Hend t r Hr Ht) as [-> _]. destruct (vr_dead_gen _ _ _ _ C6 lo r Hr) as (w1 & Hw1 & Hsub).
      rewrite Hw0 in Hw1. injection Hw1 as <-. rewrite Hv. etrans; [exact Hsub|apply vsub_join_r].
    - rewrite <- R5. apply vsub_join; [done|]. rewrite Hv.
      eapply (covered_vsub _ (y_view y) (dead l lo None)); [by apply (vr_gen _ _ _ _ C6)|done|].
      intros z (r & Hr & <-). apply (Hin (TDead lo None)); [done|]. cbn. apply Nat.eqb_refl. }
  apply (simulated_after _ _ (set_view V (set_readers ([] ++ others lo l).*2 y))); [exact Hs|].
  assert (marking x y = x_push x) as Hmk by (unfold marking; rewrite Hc; by destruct (x_push x)).
  rewrite Hmk in C4.
  assert (rem = ag_pending w) as Hrem.
  { destruct C5 as (_ & _ & H3). apply (H3); [|done]. intros j' d' Hj'.
    destruct (decide (dt_phase d' = Releasing)) as [|Hne]; [by left|right].
    assert (j' = j) as -> by (by eapply (pr_one _ _ C1)). congruence. }
  rewrite <- HVeq, <- Hrem.
  apply (sim_finalize x (set_view V (set_readers ([] ++ others lo l).*2 y)) (others lo l) pd lo rem j d); try done.
  - by left.
  - by left.
  - by apply others_handles.
  - by apply others_marks.
  - apply (others_views x y); [done|done|exact Hin].
  - apply others_none.
  - by eapply esteps_reachable.
Qed.

(** One access more: still in the middle of it, or on to the next one. *)
Lemma crit_drop_stays x y l pd lo rest c j drops d m V t p :
  core x y l pd lo rest (x_push x) -> x_crit x = Some c -> k_op c = OFinalize j rest drops ->
  x_tasks x !! j = Some d -> dt_phase d = Locked -> no_store p -> reachable (set_prog (Some (t, p)) y) ->
  y_header y = x_header x -> y_mem y = m -> y_view y = V ->
  rel (set_crit (Some (mkCritical (OFinalize j rest drops) V p)) (rset_mem m x))
    (set_prog (Some (t, p)) y) l pd lo rest.
Proof using.
  intros C Hc Hop Hj Hph Hst Hy Hh Hm Hv. destruct (core_mem _ _ _ _ _ _ _ m C) as [D1 D2 D3 D4 D5 D6].
  split; [done| |done|done|done|by exists t|done].
  match goal with |- core ?x' ?y' _ _ _ _ _ =>
    assert (marking x' y' = x_push x) as -> by (unfold marking; cbn; by destruct (x_push x)) end.
  split; [|done|by destruct D3; split|by destruct D4; split| |by destruct D6; split].
  - rewrite <- (put_task_id j d (rset_mem m x)) by done.
    eapply (proto_drop_phase _ lo j d d); try done; [congruence|congruence| |split; [done|]; by eexists _, _, _, _].
    right. exists rest, drops, (k_view c), (k_prog c). cbn. rewrite Hc. destruct c. cbn in *. congruence.
  - apply (rem_ok_ext x); [done| |done|done|by intros j' d' Hj' _; exists j', d'].
    intros c' j' rest' drops' [= <-] [= <- <- <-]. by exists c, drops.
Qed.

Lemma sim_crit_drop x y l pd lo rem c choice o j rest drops :
  rel x y l pd lo rem -> x_crit x = Some c -> k_op c = OFinalize j rest drops ->
  prog_step (x_mem x) (k_view c) (k_prog c) choice = Some o ->
  simulated y ('(m, V, p) ← o; run_crit (k_op c) V p (rset_mem m x)).
Proof using Hel Hnew.
  intros [R1 [C1 C2 C3 C4 C5 C6] R3 R4 R5 R6 R7] Hc Hop Hstep. rewrite Hc in R5, R6.
  unfold crit_rel in R6. rewrite Hop in R6. destruct R6 as [t [Hyp Hst]].
  destruct (pr_crit _ _ C1 c j rest drops Hc Hop) as (d & Hj & Hph).
  destruct (pr_front _ _ C1 j d Hj ltac:(congruence)) as (Hg & _).
  pose proof (vr_task _ _ _ _ C6 j d Hj) as Hno. rewrite Hph in Hno.
  assert (rem = rest) as -> by (by eapply C5).
  assert (marking x y = x_push x) as Hmk.
  { unfold marking. rewrite Hc, Hop. by destruct (x_push x), (y_prog y). }
  rewrite Hmk in C4.
  assert (exec ord y (EWriter choice)
    = Some ('(m, V, p') ← o; run_writer t p' (set_view V (WeakSystem.set_mem m y)))) as He.
  { cbn. rewrite Hyp. cbn. by rewrite R5, R3, Hstep. }
  destruct (client_returns el n c0 Hel Hnew y _ _ R1 He) as (a & y' & Hret).
  destruct o as [[[m V] p]| | |]; cbn [mbind outcome_bind] in *; try done.
  destruct (always_step _ _ _ _ _ _ _ _ _ Hst Hstep) as [Hst' _].
  assert (estep y y') as Hs by (exists (EWriter choice), a; by rewrite He, Hret).
  assert (reachable y') as Hy' by (eapply esteps_reachable; [exact R1|by apply rtc_once]).
  assert (core x (set_view V (WeakSystem.set_mem m y)) l pd lo rest (x_push x)) as Cm.
  { apply (core_slab _ y); [by split|done|done|]. cbn. rewrite R5. by eapply prog_step_grows. }
  rewrite Hop. unfold run_crit, run_writer in *. destruct p as [res|l0 a0 f|l0 rv v f|i f|i e0 f].
  { destruct res as [[hd res]| | |]; try done. cbn [mbind outcome_bind finish_crit] in *. injection Hret as <- <-.
    set (y1 := finish_writer (hd, res) t (set_view V (WeakSystem.set_mem m y))) in *.
    assert (y_readers y1 = y_readers y /\ y_marked y1 = y_marked y /\ y_view y1 = V
      /\ y_mem y1 = m /\ y_header y1 = hd /\ y_prog y1 = None) as (E1 & E2 & E3 & E4 & E5 & E6).
    { unfold y1, finish_writer. cbn. by destruct res as [[|]| |], t. }
    apply (simulated_after _ _ y1); [by apply rtc_once|].
    destruct (core_mem _ _ _ _ _ _ _ m (core_slab _ _ y1 _ _ _ _ _ Cm E1 E2 ltac:(by rewrite E3))) as [D1 D2 D3 D4 D5 D6].
    rewrite <- (put_task_id j d (rset_mem m x)) by done.
    assert (d = mkTask lo (dt_view d) Locked) as -> by (destruct d; cbn in *; congruence).
    rewrite <- E3. cbn [snd fst].
    eapply (sim_finalize (rset_mem m x) y1 l pd lo rest j); try done.
    - by right.
    - right. exists rest, drops, (k_view c), (k_prog c). cbn. rewrite Hc. destruct c. cbn in *. congruence. }
  all: injection Hret as <- <-; eexists _, _, _, l, pd, lo, rest; split; [reflexivity|];
    split; [by apply rtc_once|]; split; [done|]; by apply (crit_drop_stays x _ _ _ _ _ c j drops d m V).
Qed.
End sim.

(** ** Freeing *)

Section free.
Context {T : Type} (n : Z).
Implicit Types (x : rsys T) (y : sys T) (r : reader T).
Abbreviation trs := (list (tag * reader T)).

(** What is left to finalize of the generation that comes next. *)
Definition next_rem x (g : nat) : list Z :=
  match x_gens x !! g with Some w => ag_pending w | None => [] end.

Section parts.
Context x y (l : trs) (pd : gmap Z nat) (lo : nat) (rem : list Z) (mk : option Z) (j : nat) (d : drop_task) (w : arc_gen).
Context (C : core x y l pd lo rem mk) (Hmk : S lo = x_next_gen x -> mk = None).
Context (Hj : x_tasks x !! j = Some d) (Hph : dt_phase d = Freeing) (Hw : x_gens x !! dt_gen d = Some w).

Abbreviation x1 := (set_gens (delete lo (x_gens x)) x).
Abbreviation x' := (match ag_next w with
  | Some m => put_task j (mkTask m (dt_view d) Releasing) x1
  | None => set_tasks (delete j (x_tasks x)) x1
  end).

Lemma free_shape :
  x_gens x' = delete lo (x_gens x) /\ x_handles x' = x_handles x
  /\ x_next_gen x' = x_next_gen x /\ x_crit x' = x_crit x /\ x_push x' = x_push x /\ x_owner x' = x_owner x
  /\ (forall j', j' <> j -> x_tasks x' !! j' = x_tasks x !! j')
  /\ (forall d', x_tasks x' !! j = Some d' -> dt_view d' = dt_view d /\ dt_phase d' = Releasing).
Proof.
  destruct (ag_next w); cbn; do 6 (split; [done|]); (split; [intros j' Hne|intros d']).
  - by rewrite lookup_insert_ne.
  - rewrite lookup_insert_eq. by intros [= <-].
  - by rewrite lookup_delete_ne.
  - by rewrite lookup_delete_eq.
Qed.

Lemma free_alone j' d' : x_tasks x !! j' = Some d' -> j' <> j -> dt_phase d' = Releasing.
Proof using C Hj Hph.
  intros Hj' Hne. destruct (decide (dt_phase d' = Releasing)) as [|Hr]; [done|].
  destruct Hne. apply (pr_one _ _ (co_proto _ _ _ _ _ _ _ C) j' d' j d); try done. congruence.
Qed.

Lemma free_no_final c j' rest drops : x_crit x = Some c -> k_op c <> OFinalize j' rest drops.
Proof using C Hj Hph.
  intros Hc Hop. destruct (pr_crit _ _ (co_proto _ _ _ _ _ _ _ C) c j' rest drops Hc Hop) as (d' & Hd' & Hl).
  destruct (decide (j' = j)) as [->|Hne]; [congruence|]. pose proof (free_alone j' d' Hd' Hne). congruence.
Qed.

Lemma free_marks : marks_rel x' (y_marked y) l pd (S lo) (next_rem x (S lo)) mk.
Proof using C Hmk Hj Hph Hw.
  destruct free_shape as (Eg & Eh & En & _ & Ep & Eo & _).
  destruct C as [C1 _ _ [M1 M2 M3 M4 M5] (_ & H2 & _) C6].
  assert (rem = []) as -> by (by eapply H2).
  destruct (pr_front _ _ C1 j d Hj ltac:(congruence)) as (_ & w0 & Hw0 & _).
  assert (forall i, pd !! i <> Some lo) as Hlo.
  { intros i Hi. apply (M2 lo w0 Hw0) in Hi. unfold todo in Hi. rewrite decide_True in Hi by done.
    case_decide as Hcur; [rewrite (Hmk Hcur) in Hi|]; by apply elem_of_nil in Hi. }
  split; [done|..].
  - intros g w'. rewrite Eg, lookup_delete_Some. intros [Hne Hg]. specialize (M2 g w' Hg).
    unfold todo in *. rewrite En. rewrite decide_False in M2 by congruence.
    destruct (decide (g = S lo)) as [Hg'|]; [|done].
    unfold next_rem. by rewrite <- Hg', Hg.
  - intros i g Hi. rewrite Eg, lookup_delete_is_Some. split; [|by eapply M3]. intros <-. by apply (Hlo i).
  - intros t r g i g' Hin Hg Hi Hlt. apply (M4 t r g i g'); try done.
    destruct t as [k|g0 j']; [|done]. unfold tag_gen in *. by rewrite Eh in Hg.
  - intros o r i. rewrite Eo, Ep. apply M5.
Qed.

Lemma free_views : views_rel x' y l (S lo).
Proof using C Hj Hph Hw.
  destruct free_shape as (Eg & _ & _ & _ & _ & _ & Et & Ej). pose proof free_alone as Hal.
  destruct C as [C1 _ _ _ _ [V1 V2 V3 V4]].
  pose proof (V4 j d Hj) as Hv. rewrite Hph in Hv. destruct Hv as [Hno Hv].
  split.
  - intros g r Hr. destruct (V1 g r Hr) as (w0 & Hw0 & ?). exists w0. rewrite Eg, lookup_delete_ne; [done|].
    intros <-. by apply (Hno None r).
  - intros g j' r Hr. destruct (V2 g j' r Hr) as (d0 & Hd0 & Hph0 & ?). exists d0. rewrite Et; [done|]. congruence.
  - intros g w'. rewrite Eg, lookup_delete_Some. intros [_ Hg]. by apply V3.
  - intros j' d' Hj'. destruct (decide (j' = j)) as [->|Hne].
    + destruct (Ej d' Hj') as [Hv' ->]. apply covered_sub. by rewrite Hv'.
    + rewrite (Et j' Hne) in Hj'. specialize (V4 j' d' Hj'). by rewrite (Hal j' d' Hj' Hne) in *.
Qed.

Lemma free_core : core x' y l pd (S lo) (next_rem x (S lo)) mk.
Proof using C Hmk Hj Hph Hw.
  pose proof free_marks as M'. pose proof free_views as V'. pose proof free_no_final as Hnf. pose proof free_alone as Hal.
  destruct free_shape as (Eg & Eh & En & Ec & Ep & Eo & Et & Ej).
  destruct C as [C1 C2 [H1 H2 H3 H4] _ _ _].
  split; [|done| |done| |done].
  - destruct (proto_free x lo j d w C1 Hj Hph Hw) as [_ P']. by destruct (ag_next w).
  - split; rewrite ?Eh; done.
  - split; [|split].
    + rewrite Ec. intros c j' rest drops Hc Hop. by destruct (Hnf c j' rest drops Hc).
    + intros j' d' Hj' Hl. destruct (decide (j' = j)) as [->|Hne].
      * destruct (Ej d' Hj') as [_ ?]. congruence.
      * rewrite (Et j' Hne) in Hj'. pose proof (Hal j' d' Hj' Hne). congruence.
    + intros _ w'. rewrite Eg, lookup_delete_Some. intros [_ Hg]. unfold next_rem. by rewrite Hg.
Qed.
End parts.

Lemma sim_free x y l pd lo rem j d w :
  rel n x y l pd lo rem -> x_tasks x !! j = Some d -> dt_phase d = Freeing -> x_gens x !! dt_gen d = Some w ->
  simulated n y (Ret (RStep,
    let x := set_gens (delete (dt_gen d) (x_gens x)) x in
    match ag_next w with
    | Some m => put_task j (mkTask m (dt_view d) Releasing) x
    | None => set_tasks (delete j (x_tasks x)) x
    end)).
Proof.
  intros [R1 C R3 R4 R5 R6 R7] Hj Hph Hw. assert (dt_phase d <> Releasing) as Hnr by congruence.
  pose proof (co_proto _ _ _ _ _ _ _ C) as P.
  destruct (pr_front _ _ P j d Hj Hnr) as (Hg & _).
  pose proof (free_core x y l pd lo rem _ j d w C) as C'.
  eexists _, _, y, l, pd, (S lo), (next_rem x (S lo)). split; [reflexivity|]. split; [apply rtc_refl|]. split; [done|].
  cbv zeta. rewrite Hg.
  assert (S lo = x_next_gen x -> marking x y = None) as Hnone.
  { intros Hlo. apply marking_idle. by eapply front_idle. }
  specialize (C' Hnone Hj Hph Hw). destruct (ag_next w); by split.
Qed.
End free.
