(* ===== verification/RcuWeakCorrect.v ===== *)
(** The [RcuCslab] under concurrent use, access by access: it keeps the contract
    of the slab under it, and what follows from that. *)

From S2P Require Import Prelude CslabStorage Cslab CslabIter CslabProps Weak WeakCslab WeakSystem.
From S2P Require Import WeakInv WeakReader WeakSysInv WeakSteps WeakCorrect.
From S2P Require Import RcuWeak RcuWeakProto RcuWeakRel RcuWeakSim RcuWeakOwner RcuWeakOwnerOps RcuWeakAdvance.
From S2P Require Import RcuWeakDrop RcuWeakEnd.

(** The access is that of [mark_removed] of [i]. *)
Definition marks {T} (x : rsys T) (e : revent T) (i : Z) : Prop :=
  e = CMark i
  \/ exists choice c, e = CCrit choice /\ x_crit x = Some c /\ k_op c = OMark i.

Section correct.
Context {T : Type} (el : layout) (n : Z) (c0 : cslab T).
Context (Hel : entry_layout_ok el) (Hnew : with_fixed_capacity el n = Ret c0).
Implicit Types (x : rsys T) (y : sys T) (r : reader T) (h : handle T).
Abbreviation ord := source_orderings.
Abbreviation rel := (rel n).
Abbreviation simulated := (simulated n).

Lemma sim_owner x y l pd lo rem e o :
  rel x y l pd lo rem -> exec_owner ord x e = Some o ->
  simulated y o \/ o = Panic /\ exists i, marks x e i /\ absent x i.
Proof using Hel Hnew.
  intros R. pose proof (re_proto R) as P.
  assert (forall k h, x_handles x !! k = Some h -> exists w, x_gens x !! hd_gen h = Some w) as Hgen.
  { intros k h Hk. apply (pr_gens _ _ P). by eapply (pr_handle _ _ P). }
  destruct e as [t|i| | | |t| | | | |choice|j|k|k|k i|k i|k i|k|k front|k choice|k i|k k']; cbn [exec_owner]; try done;
    unfold push_pending, locked_header, next_generation, end_rcu.
  - intros H. left. by eapply (sim_insert el n c0).
  - case_decide as Hi; [|done]. intros H.
    destruct (sim_mark el n c0 Hel Hnew x y l pd lo rem i o R Hi H) as [?|[-> ?]]; [by left|right].
    split; [done|]. exists i. split; [by left|done].
  - destruct (x_push x) as [i|] eqn:Hp; [|done]. cbn [mbind option_bind].
    destruct (x_owner x) as [ow|] eqn:Ho; [|done]. cbn [mbind option_bind].
    destruct (x_handles x !! ow) as [h|] eqn:Hk; [|done]. cbn [mbind option_bind]. intros [= <-]. left.
    destruct (Hgen ow h Hk) as [w Hw]. rewrite Hw. by eapply sim_push.
  - intros H. left. by eapply (sim_vacant n).
  - intros H. left. by eapply (sim_exec_vacant el n c0).
  - intros H. left. by eapply (sim_exec_vacant el n c0).
  - intros H. left. by eapply (sim_exec_vacant el n c0).
  - destruct (idle_owner x) as [[ow h]|] eqn:Hi; [|done]. cbn [mbind option_bind].
    destruct (x_crit x) eqn:Hc; [done|]. intros [= <-]. left. by eapply sim_len.
  - destruct (idle_owner x) as [[ow h]|] eqn:Hi; [|done]. cbn [mbind option_bind]. intros [= <-]. left.
    pose proof (idle_owner_spec _ _ _ Hi) as (_ & Hk & _).
    destruct (Hgen ow h Hk) as [w Hw]. rewrite Hw.
    by destruct (sim_advance el n c0 Hel Hnew x y l pd lo rem ow h w R Hi Hw) as [-> ?].
  - destruct (idle_owner x) as [[ow h]|] eqn:Hi; [|done]. cbn [mbind option_bind]. intros [= <-]. left.
    pose proof (idle_owner_spec _ _ _ Hi) as (Ho & Hk & Hpr & Hb).
    eapply sim_end; [exact R| |by right]. unfold idle. rewrite Hk. cbn. by rewrite Hpr, Hb, andb_false_r.
Qed.

Lemma sim_task x y l pd lo rem j o :
  rel x y l pd lo rem -> exec_task x j = Some o -> simulated y o.
Proof using Hel Hnew.
  intros R. pose proof (re_proto R) as P. unfold exec_task.
  destruct (x_tasks x !! j) as [d|] eqn:Hj; [|done]. cbn [mbind option_bind].
  assert (is_Some (x_gens x !! dt_gen d)) as [w Hw].
  { destruct (decide (dt_phase d = Releasing)) as [Hph|Hph].
    - apply (pr_gens _ _ P). by eapply (pr_release _ _ P).
    - destruct (pr_front _ _ P j d Hj Hph) as (-> & w & Hw & _). by exists w. }
  destruct (dt_phase d) eqn:Hph; [| |done|]; unfold release_ref, finalize_pending, free_fields; rewrite ?Hw.
  - destruct (ag_strong w) as [|k] eqn:Hs; intros [= <-].
    + exfalso. destruct (proto_dead _ _ _ _ P Hw Hs) as (_ & _ & Hn). by apply (Hn j d Hj Hph).
    + by eapply sim_release.
  - destruct (x_crit x) eqn:Hc; [done|]. intros [= <-]. by eapply (sim_lock_drop el n c0).
  - intros [= <-]. by eapply sim_free.
Qed.

Lemma sim_handle x y l pd lo rem e o :
  rel x y l pd lo rem -> exec_handle ord x e = Some o -> simulated y o.
Proof using Hel Hnew.
  intros R. pose proof (re_proto R) as P. pose proof (re_header _ _ _ _ _ _ _ R) as Hh.
  destruct e as [t|i| | | |t| | | | |choice|j|k|k|k i|k i|k i|k|k front|k choice|k i|k k']; cbn [exec_handle]; try done;
    try (destruct (idle x k) as [h|] eqn:Hi; [|done]; cbn [mbind option_bind]).
  - destruct (pr_gens _ _ P (hd_gen h)) as [_ [w Hw]].
    { apply idle_spec in Hi as (Hk & _). by eapply (pr_handle _ _ P). }
    unfold clone_handle. rewrite Hw. intros <-%(inj Some). by eapply (sim_clone el n c0).
  - case_decide as Ho; [done|]. intros <-%(inj Some).
    assert (set_handles (delete k (x_handles x)) x = set_owner (x_owner x) (set_handles (delete k (x_handles x)) x)) as ->
      by (by destruct x).
    eapply sim_end; [exact R|done|by left].
  - case_decide; [|done]. intros <-%(inj Some).
    eapply (sim_call el n c0 Hel Hnew _ _ _ _ _ _ _ _ _ (fun k => EGet k i)); [exact R|done|].
    intros l1 r l2 -> _ Hr. cbn. rewrite Hr. cbn. by rewrite decide_True, Hh.
  - case_decide; [|done]. intros <-%(inj Some).
    eapply (sim_call el n c0 Hel Hnew _ _ _ _ _ _ _ _ _ (fun k => EContains k i)); [exact R|done|].
    intros l1 r l2 -> _ Hr. cbn. rewrite Hr. cbn. by rewrite decide_True, Hh.
  - case_decide as Hheld; [|done]. intros <-%(inj Some).
    eapply (sim_call el n c0 Hel Hnew _ _ _ _ _ _ _ _ _ (fun k => EUnchecked k i)); [exact R|done|].
    intros l1 r l2 -> Hl Hr. rewrite (lv_held _ _ Hl) in Hheld. cbn. rewrite Hr. cbn. by rewrite decide_True, Hh.
  - intros <-%(inj Some).
    eapply (sim_call el n c0 Hel Hnew _ _ _ _ _ _ _ _ _ (fun k => EIter k)); [exact R|done|].
    intros l1 r l2 -> _ Hr. cbn. rewrite Hr. cbn. by rewrite Hh.
  - destruct (hd_iter h) as [it|] eqn:Hit; [|done]. intros <-%(inj Some).
    eapply (sim_call el n c0 Hel Hnew _ _ _ _ _ _ _ _ _ (fun k => ENext k front)); [exact R|done|].
    intros l1 r l2 -> Hl Hr. cbn. rewrite Hr. cbn.
    destruct (lv_iter _ _ Hl) as [?|Hit']; [congruence|]. by rewrite <- Hit', Hit, Hh.
  - destruct (x_handles x !! k) as [h|] eqn:Hk; [|done]. cbn [mbind option_bind].
    destruct (hd_prog h) as [p|] eqn:Hp; [|done]. cbn [mbind option_bind].
    destruct (prog_step (x_mem x) (hd_view h) p choice) as [res|] eqn:Hstep; [|done]. intros <-%(inj Some).
    by eapply (sim_read el n c0).
  - intros <-%(inj Some). by eapply sim_forget.
  - destruct (idle x k') as [h'|] eqn:Hi'; [|done]. intros <-%(inj Some). by eapply (sim_gossip n _ _ _ _ _ _ k k').
Qed.

(** Every step is made of steps of the client, or is the panic of
    [mark_removed]. *)
Lemma sim_step x y l pd lo rem e o :
  rel x y l pd lo rem -> rexec ord x e = Some o ->
  simulated y o \/ o = Panic /\ exists i, marks x e i /\ absent x i.
Proof using Hel Hnew.
  intros R He. destruct e eqn:Ee; cbn [rexec] in He;
    try (by eapply sim_owner); try (left; by eapply sim_handle); [|left; by eapply sim_task].
  destruct (x_crit x) as [c|] eqn:Hc; [|done]. cbn [mbind option_bind] in He.
  destruct (prog_step (x_mem x) (k_view c) (k_prog c) choice) as [res|] eqn:Hstep; [|done].
  injection He as <-. destruct (owner_op x) eqn:Hop.
  - destruct (sim_crit_owner el n c0 Hel Hnew x y l pd lo rem c choice res R Hc Hop Hstep)
      as [?|(i & Hi & -> & Ha)]; [by left|right].
    split; [done|]. exists i. split; [|done]. right. by exists choice, c.
  - unfold owner_op in Hop. rewrite Hc in Hop. destruct (k_op c) as [t|i| |t|j rest drops] eqn:Hk_op; try done.
    rewrite <- Hk_op. left. by eapply (sim_crit_drop el n c0).
Qed.

Lemma rreachable_rel x : rreachable T ord n x -> exists y l pd lo rem, rel x y l pd lo rem.
Proof using Hel Hnew.
  induction 1 as [|x e a x' _ (y & l & pd & lo & rem & R) He].
  - destruct (rel_new (T:=T) n) as [_ R]. eauto 10.
  - destruct (sim_step x y l pd lo rem e _ R He) as [(a' & x1 & y' & l' & pd' & lo' & rem' & [= <- <-] & _ & _ & R')|[? _]];
      [by eauto 10|done].
Qed.
End correct.
