(* ===== verification/RcuWeakItems.v ===== *)
(** What the readers of an [RcuCslab] hold, in memory: the items that they have
    found, and the flags that they may still load. *)

From S2P Require Import Prelude CslabStorage Cslab CslabIter SlabSpec CslabProps Weak WeakCslab WeakSystem.
From S2P Require Import WeakInv WeakReader WeakSysInv WeakSteps WeakCorrect.
From S2P Require Import RcuWeak RcuWeakProto RcuWeakRel RcuWeakSim RcuWeakOwner RcuWeakOwnerOps.
From S2P Require Import RcuWeakCorrect.

(** Only a write changes an entry. *)
Lemma prog_step_cell {T A} (m m' : mem T) V V' (p p' : prog T A) choice i :
  prog_step m V p choice = Some (Ret (m', V', p')) ->
  (c_val (m_cell m' i) = c_val (m_cell m i) /\ c_ts (m_cell m' i) = c_ts (m_cell m i))
  \/ exists e k, p = PWrite i e k /\ c_ts (m_cell m' i) = S (c_ts (m_cell m i)).
Proof.
  destruct p as [o|l acq k|l rel v k|j k|j e k]; cbn; [done|..].
  - case_decide; [|done]. destruct (m_hist m l !! choice); [|done]. intros [= <- _ _]. by left.
  - case_decide; [|done]. intros [= <- _ _]. by left.
  - case_decide; [|done]. intros [= <- _ _]. left. apply (mem_read_cell j (m_next_read m) m i).
  - case_decide; [|done]. intros [= <- _ _]. cbn. destruct (decide (i = j)) as [->|Hne].
    + right. exists e, k. by rewrite fn_lookup_insert.
    + left. by rewrite fn_lookup_insert_ne.
Qed.

(** Only a store changes the atomic locations. *)
Lemma prog_step_hist {T A} (m m' : mem T) V V' (p p' : prog T A) choice :
  prog_step m V p choice = Some (Ret (m', V', p')) -> (forall l rel v k, p <> PStore l rel v k) ->
  m_hist m' = m_hist m.
Proof.
  intros Hstep Hp. destruct p as [o|l acq k|l rel v k|j k|j e k]; cbn in Hstep; [done|..|by destruct (Hp l rel v k)| |].
  - case_decide; [|done]. destruct (m_hist m l !! choice); [|done]. by injection Hstep as <- _ _.
  - case_decide; [|done]. by injection Hstep as <- _ _.
  - case_decide; [|done]. by injection Hstep as <- _ _.
Qed.

(** What a handle has found and not let go of. *)
Definition holds {T} (k : nat) (i : Z) (x : rsys T) : Prop :=
  exists h, x_handles x !! k = Some h /\ i ∈ hd_held h.

(** The item that a reader is given. *)
Definition given {T} (res : rresp T) : option (Z * T) :=
  match res with
  | RGot i (Some t) => Some (i, t)
  | RNext _ _ (Some (i, t), _) => Some (i, t)
  | _ => None
  end.

Section items.
Context {T : Type} (el : layout) (n : Z) (c0 : cslab T).
Context (Hel : entry_layout_ok el) (Hnew : with_fixed_capacity el n = Ret c0).
Implicit Types (x : rsys T) (y : sys T) (r : reader T) (h : handle T).
Abbreviation ord := source_orderings.
Abbreviation rel := (rel n).

(** The client's reader of a handle. *)
Lemma handle_reader x y l pd lo rem k h : rel x y l pd lo rem -> x_handles x !! k = Some h ->
  exists r s gs g, (TLive k, r) ∈ l /\ live_rel h r /\ sinv n y s gs /\ reader_rel n r g
  /\ reader_ok n (x_mem x) (y_view y) (priv_of (y_items y)) (keep_of (y_items y) (y_marked y)) g.
Proof using Hel Hnew.
  intros R Hk. destruct (live_split n _ _ _ _ _ _ _ _ R Hk) as (l1 & r & l2 & -> & Hl).
  destruct (client_inv el n c0 Hel Hnew y (re_reach _ _ _ _ _ _ _ R)) as (s & gs & I).
  assert (y_readers y !! length l1 = Some r) as Hr.
  { rewrite (re_readers R), fmap_app, fmap_cons. apply list_lookup_middle. by rewrite length_fmap. }
  destruct (sinv_ghost n y s gs _ _ I Hr) as (g & _ & Hrel & _ & Hok). rewrite (re_mem _ _ _ _ _ _ _ R) in Hok.
  exists r, s, gs, g. split; [rewrite elem_of_app; right; by left|done].
Qed.

(** An item that a handle has found is in its slot, and is not written again
    before the handle sees it. *)
Lemma held_item x k h i : rreachable T ord n x -> x_handles x !! k = Some h -> i ∈ hd_held h ->
  exists t, c_val (m_cell (x_mem x) i) = Item t /\ v_entry (hd_view h) i = c_ts (m_cell (x_mem x) i).
Proof using Hel Hnew.
  intros Hx Hk Hi. destruct (rreachable_rel el n c0 Hel Hnew x Hx) as (y & l & pd & lo & rem & R).
  destruct (handle_reader _ _ _ _ _ _ _ _ R Hk) as (r & s & gs & g & _ & Hl & _ & Hrel & Hok).
  rewrite (lv_held _ _ Hl) in Hi. apply (rr_held _ _ _ Hrel), elem_of_dom in Hi as [t Ht].
  destruct (ro_read _ _ _ _ _ _ Hok i t Ht) as (_ & Hts & Hv & _). exists t. split; [done|].
  by rewrite (lv_view _ _ Hl), <- (rr_view _ _ _ Hrel).
Qed.

(** A reader does not write, and does not store. *)
Lemma handle_reads x k h p : rreachable T ord n x -> x_handles x !! k = Some h -> hd_prog h = Some p ->
  (forall i e f, p <> PWrite i e f) /\ forall l rel v f, p <> PStore l rel v f.
Proof using Hel Hnew.
  intros Hx Hk Hp. destruct (rreachable_rel el n c0 Hel Hnew x Hx) as (y & l & pd & lo & rem & R).
  destruct (handle_reader _ _ _ _ _ _ _ _ R Hk) as (r & s & gs & g & _ & Hl & _ & Hrel & _).
  rewrite (lv_prog _ _ Hl) in Hp. pose proof (rr_prog _ _ _ Hrel _ Hp (r_must r)) as Hsafe.
  split; intros; intros ->; by apply Hsafe.
Qed.

(** The operations of the [RcuCslab] end by unlocking. *)
Definition owners (op : locked_op T) : Prop := match op with OFinalize _ _ _ => False | _ => True end.

Lemma finish_crit_shape op V hd res x a x' : finish_crit op V (hd, res) x = Ret (a, x') -> owners op ->
  x' = unlock_owner hd V x \/ exists i, x' = set_push (Some i) (unlock_owner hd V x).
Proof using.
  destruct op as [t|i| |t|]; try done; cbn [finish_crit]; intros Hfin _; [injection Hfin as <- <-; eauto..|].
  destruct res as [[|]| |]; try done. injection Hfin as <- <-. by left.
Qed.

(** What is done under the lock leaves the handles, but for that of the
    [RcuCslab] when it is its own. *)
Lemma crit_handles x op V p a x' k h h' :
  run_crit op V p x = Ret (a, x') -> x_handles x !! k = Some h -> x_handles x' !! k = Some h' ->
  h' = h \/ (owners op /\ x_owner x = Some k /\ hd_held h' = hd_held h).
Proof using.
  intros Hrun Hk Hk'.
  assert (forall hd, x_handles (unlock_owner hd V x) !! k = Some h' ->
    h' = h \/ x_owner x = Some k /\ hd_held h' = hd_held h) as Hun.
  { intros hd. unfold unlock_owner. cbn. destruct (x_owner x) as [o|] eqn:Ho; cbn; [|intros; left; congruence].
    destruct (decide (o = k)) as [->|Hne].
    - rewrite lookup_alter_eq, Hk. intros [= <-]. by right.
    - rewrite lookup_alter_ne by done. intros; left; congruence. }
  unfold run_crit in Hrun. destruct p as [res|l0 a0 f|l0 rv v f|i f|i e0 f];
    [|injection Hrun as <- <-; left; cbn in Hk'; congruence..].
  destruct res as [[hd res]| | |]; try done. cbn [mbind outcome_bind] in Hrun.
  destruct op as [t|i| |t|j rest drops] eqn:Hop.
  1-4: destruct (finish_crit_shape _ _ _ _ _ _ _ Hrun I) as [->|[? ->]]; cbn in Hk';
    (destruct (Hun _ Hk') as [?|[? ?]]; [by left|by right]).
  left. apply finalize_from_shape in Hrun as [(i & rest' & drops' & hd' & _ & ->)|(drops' & hd' & _ & ->)];
    cbn in Hk'; congruence.
Qed.

(** But for the accesses, a step leaves the memory and what is done under the
    lock; and no view gets behind. *)
Record quiet x x' : Prop := {
  q_mem : x_mem x' = x_mem x;
  q_crit c : x_crit x = Some c -> x_crit x' = Some c;
  q_owner o : x_owner x' = Some o -> x_owner x = Some o;
  q_view k h h' : x_handles x !! k = Some h -> x_handles x' !! k = Some h' -> vsub (hd_view h) (hd_view h');
}.

Lemma quiet_same x x' : x_mem x' = x_mem x -> (forall c, x_crit x = Some c -> x_crit x' = Some c) ->
  x_owner x' = x_owner x -> x_handles x' = x_handles x -> quiet x x'.
Proof using. intros Hm Hc Ho Hh. split; [done|done|by rewrite Ho|]. rewrite Hh. intros k h h' Hk Hk'. by simplify_eq. Qed.

Lemma quiet_put x x' k h h' :
  x_mem x' = x_mem x -> x_crit x' = x_crit x -> x_owner x' = x_owner x -> x_handles x' = <[k := h']> (x_handles x) ->
  x_handles x !! k = Some h -> vsub (hd_view h) (hd_view h') -> quiet x x'.
Proof using.
  intros Hm Hc Ho Hh Hk Hv. split; [done|by rewrite Hc|by rewrite Ho|]. rewrite Hh. intros k' h1 h1' H1 H1'.
  destruct (decide (k = k')) as [<-|].
  - rewrite lookup_insert_eq in H1'. by simplify_eq.
  - rewrite lookup_insert_ne in H1' by done. by simplify_eq.
Qed.

Lemma quiet_trans x x1 x' : quiet x x1 -> quiet x1 x' ->
  (forall k, is_Some (x_handles x !! k) -> is_Some (x_handles x1 !! k)) -> quiet x x'.
Proof using.
  intros [M1 C1 O1 V1] [M2 C2 O2 V2] Hd. split; [congruence|auto|auto|]. intros k h h' Hk Hk'.
  destruct (Hd k) as [h1 Hk1]; [by eexists|]. etrans; [by eapply V1|by eapply V2].
Qed.

Lemma unlock_owner_quiet hd V x : x_crit x = None -> quiet x (unlock_owner hd V x).
Proof using.
  intros Hc. unfold unlock_owner. cbn. destruct (x_owner x) as [o|] eqn:Ho; [|apply quiet_same; cbn; congruence].
  split; cbn; [done|congruence|done|]. intros k h h' Hk. destruct (decide (o = k)) as [<-|].
  - rewrite lookup_alter_eq, Hk. intros [= <-]. apply vsub_join_l.
  - rewrite lookup_alter_ne, Hk by done. by intros [= <-].
Qed.

Lemma finalize_from_quiet j rest drops V hd x a x' :
  x_crit x = None -> finalize_from j rest drops V hd x = Ret (a, x') -> quiet x x'.
Proof using.
  by intros Hc [(i & rest' & drops' & hd' & _ & ->)|(drops' & hd' & _ & ->)]%finalize_from_shape;
    apply quiet_same; cbn; try congruence.
Qed.

Lemma run_crit_quiet op V p x a x' : x_crit x = None -> run_crit op V p x = Ret (a, x') -> quiet x x'.
Proof using.
  intros Hc. unfold run_crit.
  destruct p as [res|l0 a0 f|l0 rv v f|i f|i e0 f]; [|by intros [= <- <-]; apply quiet_same; cbn; try congruence..].
  destruct res as [[hd res]| | |]; try done. cbn [mbind outcome_bind].
  destruct op as [t|i| |t|j rest drops]; [| | | |by apply finalize_from_quiet].
  all: intros Hrun; destruct (finish_crit_shape _ _ _ _ _ _ _ Hrun I) as [->|[? ->]];
    [by apply unlock_owner_quiet|destruct (unlock_owner_quiet hd V x Hc); by split].
Qed.

(** What was done under the lock before does not matter. *)
Lemma finalize_from_reset j rest drops V hd x :
  finalize_from j rest drops V hd (set_crit None x) = finalize_from j rest drops V hd x.
Proof using.
  revert drops hd. induction rest as [|i rest IH]; intros drops hd; [done|]. cbn [finalize_from].
  destruct (finalize_op hd i) as [[[h' r]| | |]| | | |]; try done. apply IH.
Qed.

Lemma run_crit_reset op V p x : run_crit op V p (set_crit None x) = run_crit op V p x.
Proof using.
  unfold run_crit. destruct p as [[[hd res]| | |]| | | |]; try done. cbn [mbind outcome_bind].
  destruct op; try done. apply finalize_from_reset.
Qed.

Lemma run_handle_quiet k p h h0 x a x' : x_handles x !! k = Some h0 -> vsub (hd_view h0) (hd_view h) ->
  run_handle k p h x = Ret (a, x') -> quiet x x'.
Proof using.
  intros Hk Hv. unfold run_handle.
  destruct p as [res|l0 a0 f|l0 rv v f|i f|i e0 f]; [|by intros [= <- <-]; eapply quiet_put..].
  destruct res; try done. intros [= <- <-]. by eapply quiet_put.
Qed.

Lemma lock_owner_quiet op p x a x' : lock_owner op p x = Some (Ret (a, x')) -> quiet x x'.
Proof using.
  unfold lock_owner. destruct (idle_owner x) as [[o h]|] eqn:Hi; [|done]. cbn [mbind option_bind].
  apply idle_owner_spec in Hi as (_ & Hk & _).
  destruct (x_crit x) eqn:Hc; [done|]. intros Hrun%(inj Some)%run_crit_quiet; [|done]. eapply quiet_trans; [|exact Hrun|].
  - by eapply quiet_put.
  - intros k. cbn. rewrite lookup_insert_is_Some'. by right.
Qed.

Lemma lock_vacant_quiet x a x' : lock_vacant x = Some (Ret (a, x')) -> quiet x x'.
Proof using.
  unfold lock_vacant. destruct (idle_owner x) as [[o h]|] eqn:Hi; [|done]. cbn [mbind option_bind].
  apply idle_owner_spec in Hi as (_ & Hk & _). destruct (x_crit x) eqn:Hc; [done|].
  intros Hrun%(inj Some). apply (quiet_trans _ (put_handle o (end_borrows h) x)).
  - by eapply quiet_put.
  - destruct (header_key _); injection Hrun as <- <-.
    + apply quiet_same; cbn; congruence.
    + by apply unlock_owner_quiet.
  - intros k. cbn. rewrite lookup_insert_is_Some'. by right.
Qed.

(** The calls on a vacant entry go on with what is done under the lock. *)
Lemma exec_vacant_shape x e a x' : exec_vacant ord x e = Some (Ret (a, x')) ->
  x' = x \/ exists c op V p, x_crit x = Some c /\ owners (k_op c) /\ owners op
    /\ run_crit op V p x = Ret (a, x') /\ quiet (set_crit None x) x'.
Proof using.
  unfold exec_vacant. destruct (x_crit x) as [c|]; [|done]. cbn [mbind option_bind].
  destruct (k_op c) eqn:Hop; try done.
  assert (forall op V p, run_crit op V p x = Ret (a, x') -> quiet (set_crit None x) x') as Hq.
  { intros op V p Hrun. eapply run_crit_quiet; [done|]. rewrite run_crit_reset. exact Hrun. }
  destruct e; try done; intros Hrun%(inj Some).
  - destruct (header_key (x_header x)); [|done]. injection Hrun as <- <-. by left.
  - right. exists c, (OFill t), (k_view c), (insert_op ord (x_header x) t). rewrite Hop.
    split; [done|]. do 2 (split; [exact I|]). split; [exact Hrun|by eapply Hq].
  - right. exists c, OVacant, (k_view c), (no_access (x_header x)). rewrite Hop.
    split; [done|]. do 2 (split; [exact I|]). split; [exact Hrun|by eapply Hq].
Qed.

Lemma owner_quiet x e a x' : exec_owner ord x e = Some (Ret (a, x')) ->
  quiet x x' \/ exists c op V p, x_crit x = Some c /\ owners (k_op c) /\ owners op
    /\ run_crit op V p x = Ret (a, x') /\ quiet (set_crit None x) x'.
Proof using.
  assert (exec_vacant ord x e = Some (Ret (a, x')) -> quiet x x' \/ exists c op V p, x_crit x = Some c
    /\ owners (k_op c) /\ owners op /\ run_crit op V p x = Ret (a, x') /\ quiet (set_crit None x) x') as Hvac.
  { intros [->|?]%exec_vacant_shape; [left; by apply quiet_same|by right]. }
  destruct e; cbn [exec_owner]; try done; unfold push_pending, locked_header, next_generation, end_rcu;
    try exact Hvac; intros He; left; revert He.
  - apply lock_owner_quiet.
  - case_decide; [apply lock_owner_quiet|done].
  - destruct (x_push x) as [i|], (x_owner x) as [o|]; try done. cbn [mbind option_bind].
    destruct (x_handles x !! o) as [h|]; [|done]. cbn [mbind option_bind].
    destruct (x_gens x !! hd_gen h); [|done]. intros [= <- <-]. by apply quiet_same.
  - apply lock_vacant_quiet.
  - destruct (idle_owner x) as [[o h]|]; [|done]. cbn [mbind option_bind].
    destruct (x_crit x) eqn:Hc; [done|]. intros [= <- <-]. by apply unlock_owner_quiet.
  - destruct (idle_owner x) as [[o h]|] eqn:Hi; [|done]. cbn [mbind option_bind].
    apply idle_owner_spec in Hi as (_ & Hk & _).
    destruct (x_gens x !! hd_gen h) as [w|]; [|done]. destruct (ag_next w); [done|]. intros [= <- <-].
    by eapply quiet_put.
  - destruct (idle_owner x) as [[o h]|]; [|done]. intros [= <- <-]. split; cbn; [done..|].
    intros k h1 h1' H1 [_ H2]%lookup_delete_Some. by simplify_eq.
Qed.

Lemma task_quiet x j a x' : exec_task x j = Some (Ret (a, x')) -> quiet x x'.
Proof using.
  unfold exec_task. destruct (x_tasks x !! j) as [d|]; [|done]. cbn [mbind option_bind].
  destruct (dt_phase d); [| |done|]; unfold release_ref, finalize_pending, free_fields.
  - destruct (x_gens x !! dt_gen d) as [w|]; [|done]. destruct (ag_strong w); [done|].
    intros [= <- <-]. case_decide; by apply quiet_same.
  - destruct (x_crit x) eqn:Hc; [done|]. destruct (x_gens x !! dt_gen d) as [w|]; [|done].
    intros Hrun%(inj Some)%finalize_from_quiet; [|done]. eapply quiet_trans; [|exact Hrun|done]. by apply quiet_same.
  - destruct (x_gens x !! dt_gen d) as [w|]; [|done]. intros [= <- <-]. destruct (ag_next w); by apply quiet_same.
Qed.

Definition reads (e : revent T) : bool := match e with CRead _ _ => true | _ => false end.

Lemma handle_quiet x e a x' : exec_handle ord x e = Some (Ret (a, x')) -> reads e = false ->
  x_handles x !! x_fresh x = None -> quiet x x'.
Proof using.
  intros Hex He Hfresh. revert Hex. destruct e as [t|i| | | |t| | | | |choice|j|k|k|k i|k i|k i|k|k front|k choice|k i|k k']; cbn [exec_handle]; try done;
    (destruct (idle x k) as [h|] eqn:Hi; [|done]; cbn [mbind option_bind]; destruct (idle_spec _ _ _ Hi) as [Hk _]).
  - unfold clone_handle. destruct (x_gens x !! hd_gen h); [|done]. intros [= <- <-]. split; cbn; [done..|].
    intros k1 h1 h1' H1. rewrite lookup_insert_ne by congruence. intros H2. by simplify_eq.
  - case_decide; [done|]. intros [= <- <-]. split; cbn; [done..|].
    intros k1 h1 h1' H1 [_ H2]%lookup_delete_Some. by simplify_eq.
  - case_decide; [|done]. intros Hrun%(inj Some). by eapply run_handle_quiet.
  - case_decide; [|done]. intros Hrun%(inj Some). by eapply run_handle_quiet.
  - case_decide; [|done]. intros Hrun%(inj Some). by eapply run_handle_quiet.
  - intros Hrun%(inj Some). by eapply run_handle_quiet.
  - destruct (hd_iter h); [|done]. intros Hrun%(inj Some). by eapply run_handle_quiet.
  - intros [= <- <-]. by eapply quiet_put.
  - destruct (idle x k') as [h'|] eqn:Hi'; [|done]. intros [= <- <-].
    destruct (idle_spec _ _ _ Hi') as [Hk' _]. eapply quiet_put; [done|done|done|reflexivity|exact Hk'|apply vsub_join_l].
Qed.

(** An access, under the lock or of a reader. *)
Lemma access_shape x e a x' : rexec ord x e = Some (Ret (a, x')) -> x_handles x !! x_fresh x = None ->
  (quiet x x' /\ (forall choice, e <> CCrit choice))
  \/ (exists c choice m V p, e = CCrit choice /\ x_crit x = Some c
      /\ prog_step (x_mem x) (k_view c) (k_prog c) choice = Some (Ret (m, V, p))
      /\ run_crit (k_op c) V p (rset_mem m x) = Ret (a, x') /\ quiet (set_crit None (rset_mem m x)) x')
  \/ (exists k h p0 choice m V p, e = CRead k choice /\ x_handles x !! k = Some h /\ hd_prog h = Some p0
      /\ prog_step (x_mem x) (hd_view h) p0 choice = Some (Ret (m, V, p))
      /\ quiet (rset_mem m x) x')
  \/ (exists c op V p, x_crit x = Some c /\ owners (k_op c) /\ owners op
      /\ run_crit op V p x = Ret (a, x') /\ quiet (set_crit None x) x').
Proof using.
  intros He Hfresh. destruct (reads e) eqn:Hr.
  - destruct e; try done. right. right. left. cbn [rexec exec_handle] in He.
    destruct (x_handles x !! k) as [h|] eqn:Hk; [|done]. cbn [mbind option_bind] in He.
    destruct (hd_prog h) as [p0|] eqn:Hp; [|done]. cbn [mbind option_bind] in He.
    destruct (prog_step (x_mem x) (hd_view h) p0 choice) as [[[[m V] p]| | |]|] eqn:Hstep; try done.
    cbn [mbind outcome_bind option_bind] in He. apply (inj Some) in He. exists k, h, p0, choice, m, V, p.
    split; [done|]. split; [done|]. split; [done|]. split; [done|].
    eapply run_handle_quiet; [exact Hk| |exact He]. by eapply prog_step_grows.
  - destruct e; cbn [rexec] in He;
      try (destruct (owner_quiet _ _ _ _ He) as [?|?]; [by left|by right; right; right]);
      try (left; split; [apply (handle_quiet _ _ _ _ He eq_refl Hfresh)|done]);
      try (left; split; [apply (task_quiet _ _ _ _ He)|done]); try done.
    right. left. destruct (x_crit x) as [c|] eqn:Hc; [|done]. cbn [mbind option_bind] in He.
    destruct (prog_step (x_mem x) (k_view c) (k_prog c) choice) as [[[[m V] p]| | |]|] eqn:Hstep; try done.
    cbn [mbind outcome_bind option_bind] in He. apply (inj Some) in He. exists c, choice, m, V, p.
    split; [done|]. split; [done|]. split; [done|]. split; [done|].
    eapply run_crit_quiet; [done|]. by rewrite run_crit_reset.
Qed.

Lemma fresh_handle x : rreachable T ord n x -> x_handles x !! x_fresh x = None.
Proof using Hel Hnew.
  intros Hx. destruct (rreachable_rel el n c0 Hel Hnew x Hx) as (y & l & pd & lo & rem & R).
  by apply (pr_fresh _ lo (co_proto _ _ _ _ _ _ _ (re_core _ _ _ _ _ _ _ R))).
Qed.

(** An entry is written under the lock only, and then no handle that has found
    the item holds it. *)
Lemma step_cell x e a x' k h h' i : rreachable T ord n x -> rexec ord x e = Some (Ret (a, x')) ->
  x_handles x !! k = Some h -> i ∈ hd_held h -> x_handles x' !! k = Some h' -> i ∈ hd_held h' ->
  c_val (m_cell (x_mem x') i) = c_val (m_cell (x_mem x) i).
Proof using Hel Hnew.
  intros Hx He Hk Hi Hk' Hi'.
  assert (rreachable T ord n x') as Hx' by (by eapply rreach_step).
  destruct (access_shape _ _ _ _ He (fresh_handle x Hx))
    as [[[-> _ _ _] _]|[(c & choice & m & V & p & _ & Hc & Hstep & Hrun & [Hm _ _ _])
                     |[(k0 & h0 & p0 & choice & m & V & p & _ & Hk0 & Hp & Hstep & [-> _ _ _])
                      |(c & op & V & p & _ & _ & _ & _ & [-> _ _ _])]]].
  - done.
  - cbn in Hm. rewrite Hm.
    destruct (prog_step_cell _ _ _ _ _ _ _ i Hstep) as [[? _]|(e1 & f & Hp & Hts)]; [done|exfalso].
    destruct (held_item x k h i Hx Hk Hi) as (t & _ & Hv).
    destruct (held_item x' k h' i Hx' Hk' Hi') as (t' & _ & Hv'). rewrite Hm, Hts in Hv'.
    destruct (crit_handles _ _ _ _ _ _ _ _ _ Hrun Hk Hk') as [->|(Hop & Ho & _)]; [lia|].
    destruct (rreachable_rel el n c0 Hel Hnew x Hx) as (y & l & pd & lo & rem & R).
    destruct (re_own _ _ _ _ _ _ _ R k h) as [Hemp _]; [|done|done|set_solver].
    unfold owner_op. rewrite Hc. by destruct (k_op c).
  - destruct (prog_step_cell _ _ _ _ _ _ _ i Hstep) as [[? _]|(e1 & f & Hp' & _)]; [done|].
    by destruct (proj1 (handle_reads x k0 h0 p0 Hx Hk0 Hp) i e1 f).
  - done.
Qed.

(** The indexes that wait in a generation alive are marked for that generation. *)
Lemma pending_marked x y (l : list (tag * reader T)) pd lo rem mk g w i :
  core x y l pd lo rem mk -> x_gens x !! g = Some w -> (0 < ag_strong w)%nat -> i ∈ ag_pending w -> pd !! i = Some g.
Proof using.
  intros [C1 C2 C3 C4 C5 C6] Hw Hs Hi. apply (mk_todo _ _ _ _ _ _ _ C4 g w Hw). unfold todo. apply elem_of_app. left.
  case_decide as Hg; [|done]. subst g. destruct C5 as (_ & _ & H3). rewrite (H3) with (w := w); [done| |done].
  intros j d Hj. left. destruct (decide (dt_phase d = Releasing)) as [|Hph]; [done|].
  destruct (pr_front _ _ C1 j d Hj Hph) as (_ & w0 & Hw0 & H0). rewrite Hw in Hw0. injection Hw0 as <-. lia.
Qed.

(** A flag that a handle may still load as set is not that of an item whose
    removal waits in an older generation. *)
Lemma flag_hidden x k h i ts msg g w : rreachable T ord n x -> x_handles x !! k = Some h ->
  0 <= i -> (v_atomic (hd_view h) (LWord (i / 64)) <= ts)%nat ->
  m_hist (x_mem x) (LWord (i / 64)) !! ts = Some msg ->
  (g < hd_gen h)%nat -> x_gens x !! g = Some w -> (0 < ag_strong w)%nat -> i ∈ ag_pending w ->
  ~ has (msg_val msg) i.
Proof using Hel Hnew.
  intros Hx Hk Hi Hts Hmsg Hlt Hw Hs Hp Hbit.
  destruct (rreachable_rel el n c0 Hel Hnew x Hx) as (y & l & pd & lo & rem & R).
  destruct (handle_reader _ _ _ _ _ _ _ _ R Hk) as (r & s & gs & gh & Hin & Hl & I & Hrel & Hok).
  rewrite (lv_view _ _ Hl), <- (rr_view _ _ _ Hrel) in Hts.
  destruct (ro_vis _ _ _ _ _ _ Hok i ts msg Hi Hts Hmsg Hbit) as (_ & _ & _ & Hnoted). apply Hnoted.
  apply (ro_acked _ _ _ _ _ _ Hok). rewrite (rr_acked _ _ _ Hrel).
  pose proof (re_core _ _ _ _ _ _ _ R) as C.
  eapply (mk_acked _ _ _ _ _ _ _ (co_marks _ _ _ _ _ _ _ C) (TLive k) r (hd_gen h) i g Hin); [by exists h| |done].
  by eapply pending_marked.
Qed.

(** A flag that a handle may still load as set, while the lock is free. *)
Lemma flag_bound x k h i ts msg : rreachable T ord n x -> x_crit x = None -> x_handles x !! k = Some h ->
  0 <= i -> (v_atomic (hd_view h) (LWord (i / 64)) <= ts)%nat ->
  m_hist (x_mem x) (LWord (i / 64)) !! ts = Some msg -> has (msg_val msg) i ->
  (exists t, c_val (m_cell (x_mem x) i) = Item t)
  /\ (~ absent x i \/ x_push x = Some i
      \/ exists g w, (hd_gen h <= g)%nat /\ x_gens x !! g = Some w /\ i ∈ ag_pending w).
Proof using Hel Hnew.
  intros Hx Hc Hk Hi Hts Hmsg Hbit. destruct (rreachable_rel el n c0 Hel Hnew x Hx) as (y & l & pd & lo & rem & R).
  destruct (handle_reader _ _ _ _ _ _ _ _ R Hk) as (r & s & gs & g & Hin & Hl & I & Hrel & Hok).
  rewrite (lv_view _ _ Hl), <- (rr_view _ _ _ Hrel) in Hts.
  destruct (ro_vis _ _ _ _ _ _ Hok i ts msg Hi Hts Hmsg Hbit) as (_ & Hitem & Hpriv & Hnoted).
  split; [done|]. destruct R as [R1 [C1 C2 C3 C4 C5 C6] R3 R4 R5 R6 R7]. rewrite Hc in R5, R6.
  pose proof (si_mem _ _ _ _ I) as M. pose proof (si_writer _ _ _ _ I) as W. rewrite R6 in W.
  unfold priv_of in Hpriv. destruct (y_items y !! i) as [t|] eqn:Ht; [|by destruct Hpriv].
  destruct (si_items _ _ _ _ I) as [_ Hit]. destruct (Hit i t Ht) as [Hin' _].
  destruct (decide (i ∈ y_marked y)) as [Hm|Hm].
  - right. rewrite <- (mk_dom _ _ _ _ _ _ _ C4), elem_of_dom in Hm. destruct Hm as [g' Hg'].
    assert (hd_gen h <= g')%nat as Hle.
    { destruct (decide (g' < hd_gen h)%nat) as [Hlt|]; [exfalso|lia]. apply Hnoted.
      apply (ro_acked _ _ _ _ _ _ Hok). rewrite (rr_acked _ _ _ Hrel).
      apply (mk_acked _ _ _ _ _ _ _ C4 (TLive k) r (hd_gen h) i g' Hin); [by exists h|done|done]. }
    destruct (mk_gen _ _ _ _ _ _ _ C4 i g' Hg') as [w Hw].
    apply (mk_todo _ _ _ _ _ _ _ C4 g' w Hw) in Hg'. unfold todo in Hg'. apply elem_of_app in Hg' as [Hg'|Hg'].
    + right. exists g', w. split; [done|]. split; [done|]. case_decide as Hlo; [|done]. subst g'.
      destruct C5 as (_ & H2 & H3).
      rewrite <- (H3); [exact Hg'| |exact Hw]. intros j d Hj. destruct (dt_phase d) eqn:Hph; [by left|by right|..].
      * destruct (pr_locked _ _ C1 j d Hj Hph) as (? & ? & ? & ? & ?). congruence.
      * rewrite (H2 j d Hj Hph) in Hg'. by apply elem_of_nil in Hg'.
    + left. assert (marking x y = x_push x) as Hmk by (unfold marking; rewrite Hc; by destruct (x_push x)).
      rewrite Hmk in Hg'. case_decide; [|by apply elem_of_nil in Hg'].
      destruct (x_push x); [|by apply elem_of_nil in Hg']. by apply list_elem_of_singleton in Hg' as ->.
  - left. intros Habs. apply Habs. rewrite <- R4, (si_size _ _ _ _ I). split; [apply Hin'|].
    destruct (mi_words _ _ _ _ _ _ _ M (i / 64)) as (msg' & Hmsg' & _); [by apply words_index|].
    exists msg'. rewrite <- R3, last_lookup, <- (mi_latest _ _ _ _ _ _ _ M). split; [done|].
    apply (slab_has_flag n _ _ _ _ _ _ _ _ _ i msg' W M Hin' Hmsg'). apply elem_of_difference.
    split; [|done]. apply elem_of_dom. by exists t.
Qed.

(** What a reader is given is in the slot. *)
Lemma read_answer x k choice res x1 i t :
  rreachable T ord n x -> rexec ord x (CRead k choice) = Some (Ret (RReader res, x1)) -> given res = Some (i, t) ->
  holds k i x1 /\ c_val (m_cell (x_mem x1) i) = Item t.
Proof using Hel Hnew.
  intros Hx He Hg. destruct (rreachable_rel el n c0 Hel Hnew x Hx) as (y & l & pd & lo & rem & R).
  cbn [rexec exec_handle] in He. destruct (x_handles x !! k) as [h|] eqn:Hk; [|done]. cbn [mbind option_bind] in He.
  destruct (hd_prog h) as [p|] eqn:Hp; [|done]. cbn [mbind option_bind] in He.
  destruct (prog_step (x_mem x) (hd_view h) p choice) as [[[[m V] p']| | |]|] eqn:Hstep; try done.
  cbn [mbind outcome_bind option_bind] in He. apply (inj Some) in He. unfold run_handle in He.
  destruct p' as [o|l0 a0 f|l0 rv v f|j f|j e0 f]; [|done..]. destruct o as [res'| | |]; try done.
  cbn [mbind outcome_bind] in He. injection He as -> <-.
  destruct (live_split n _ _ _ _ _ _ _ _ R Hk) as (l1 & r & l2 & -> & Hl).
  assert (y_readers y !! length l1 = Some r) as Hr.
  { rewrite (re_readers R), fmap_app, fmap_cons. apply list_lookup_middle. by rewrite length_fmap. }
  destruct (client_inv el n c0 Hel Hnew y (re_reach _ _ _ _ _ _ _ R)) as (s & gs & I).
  assert (exists y', exec ord y (EReader (length l1) choice) = Some (Ret (AReader res, y'))) as [y' Hey].
  { eexists. cbn. rewrite Hr. cbn. rewrite <- (lv_prog _ _ Hl), Hp. cbn.
    by rewrite (re_mem _ _ _ _ _ _ _ R), <- (lv_view _ _ Hl), Hstep. }
  destruct (exec_returns n (capacity_bound el n c0 Hel Hnew) y s gs _ _ I Hey) as (a & y1 & [= <- <-] & _ & Hans).
  destruct Hans as (k' & r' & _ & _ & Hpost).
  assert (y_items y !! i = Some t) as Hit.
  { destruct res as [i' [t'|]|i' b|it|front it [[[i' t']|] it']]; try done; injection Hg as <- <-; [done|].
    by destruct Hpost as (_ & _ & ? & _). }
  split.
  - eexists. split; [apply lookup_insert_eq|]. cbn. apply elem_of_union_r.
    destruct res as [i' [t'|]|i' b|it|front it [[[i' t']|] it']]; try done; injection Hg as <- <-; cbn; set_solver.
  - cbn. destruct (prog_step_cell _ _ _ _ _ _ _ i Hstep) as [[-> _]|(e1 & f & -> & _)].
    + destruct (si_items _ _ _ _ I) as [_ Hin]. destruct (Hin i t Hit) as [Hi Ht].
      rewrite (mi_table _ _ _ _ _ _ _ (si_mem _ _ _ _ I) i Hi), (re_mem _ _ _ _ _ _ _ R) in Ht. by injection Ht.
    + by destruct (proj1 (handle_reads x k h _ Hx Hk Hp) i e1 f).
Qed.
(** ** The view of the [RcuCslab] *)

(** The lock has the latest stores. *)
Lemma lock_latest x y (l : list (tag * reader T)) pd lo rem a : rel x y l pd lo rem ->
  S (v_atomic (y_view y) a) = length (m_hist (x_mem x) a).
Proof using Hel Hnew.
  intros R. destruct (client_inv el n c0 Hel Hnew y (re_reach _ _ _ _ _ _ _ R)) as (s & gs & I).
  rewrite <- (re_mem _ _ _ _ _ _ _ R). apply (mi_latest _ _ _ _ _ _ _ (si_mem _ _ _ _ I)).
Qed.

(** What the [RcuCslab] does under the lock ends with its view joined. *)
Lemma unlocked_view op V p x a x' o h h' : owners op ->
  run_crit op V p x = Ret (a, x') -> owner_op x' = false -> x_owner x = Some o ->
  x_handles x !! o = Some h -> x_handles x' !! o = Some h' ->
  x_crit x' = None /\ vsub (x_lock_view x') (hd_view h').
Proof using.
  intros Hop Hrun Hno Ho Hk Hk'. unfold run_crit in Hrun.
  destruct p as [res|l0 a0 f|l0 rv v f|i f|i e0 f];
    [|injection Hrun as <- <-; unfold owner_op in Hno; cbn in Hno; by destruct op..].
  destruct res as [[hd res]| | |]; try done. cbn [mbind outcome_bind] in Hrun.
  destruct (finish_crit_shape _ _ _ _ _ _ _ Hrun Hop) as [->|[? ->]]; revert Hk';
    unfold unlock_owner; cbn; rewrite Ho; cbn; rewrite lookup_alter_eq, Hk; intros [= <-];
    (split; [done|apply vsub_join_r]).
Qed.

Lemma unlocked_latest x0 x' op V p ans o h h' a : rreachable T ord n x' -> owners op ->
  run_crit op V p x0 = Ret (ans, x') -> owner_op x' = false -> x_owner x0 = Some o ->
  x_handles x0 !! o = Some h -> x_handles x' !! o = Some h' ->
  (length (m_hist (x_mem x') a) <= S (v_atomic (hd_view h') a))%nat.
Proof using Hel Hnew.
  intros Hx' Hop Hrun Hno Ho Hk Hk'.
  destruct (unlocked_view _ _ _ _ _ _ o h h' Hop Hrun Hno Ho Hk Hk') as [Hc' [[Hv _] _]].
  destruct (rreachable_rel el n c0 Hel Hnew x' Hx') as (y' & l' & pd' & lo' & rem' & R').
  rewrite <- (lock_latest _ _ _ _ _ _ a R'), (re_view _ _ _ _ _ _ _ R'), Hc'. specialize (Hv a). lia.
Qed.

(** While it does nothing under the lock, the [RcuCslab] sees the latest stores. *)
Lemma owner_latest x o h a : rreachable T ord n x -> owner_op x = false -> x_owner x = Some o ->
  x_handles x !! o = Some h -> S (v_atomic (hd_view h) a) = length (m_hist (x_mem x) a).
Proof using Hel Hnew.
  intros Hx Hno Ho Hk. apply Nat.le_antisymm.
  { destruct (rreachable_rel el n c0 Hel Hnew x Hx) as (y & l & pd & lo & rem & R).
    destruct (handle_reader _ _ _ _ _ _ _ _ R Hk) as (r & s & gs & g & _ & Hl & _ & Hrel & Hok).
    rewrite <- (lock_latest _ _ _ _ _ _ a R), (lv_view _ _ Hl), <- (rr_view _ _ _ Hrel).
    destruct (ro_le _ _ _ _ _ _ Hok) as [H _]. specialize (H a). lia. }
  revert o h Hno Ho Hk. induction Hx as [|x e ans x' Hx IH He]; intros o h Hno Ho Hk.
  { cbn. lia. }
  assert (rreachable T ord n x') as Hx' by (by eapply rreach_step).
  assert (forall x0, quiet x0 x' -> x_owner x0 = x_owner x -> x_handles x0 = x_handles x ->
    x_owner x = Some o /\ exists h0, x_handles x !! o = Some h0 /\ vsub (hd_view h0) (hd_view h)) as Hown.
  { intros x0 [_ _ Q2 Q3] E1 E2. rewrite E1, E2 in *. specialize (Q2 o Ho).
    destruct (rreachable_rel el n c0 Hel Hnew x Hx) as (y & l & pd & lo & rem & R).
    destruct (pr_owner _ _ (co_proto _ _ _ _ _ _ _ (re_core _ _ _ _ _ _ _ R)) o Q2) as (h0 & Hk0 & _). eauto. }
  assert (forall x0, quiet x0 x' -> x_owner x0 = x_owner x -> x_handles x0 = x_handles x -> owner_op x = false ->
    m_hist (x_mem x') = m_hist (x_mem x) -> (length (m_hist (x_mem x') a) <= S (v_atomic (hd_view h) a))%nat) as Hkeep.
  { intros x0 Hq E1 E2 Hop ->. destruct (Hown x0 Hq E1 E2) as (Ho0 & h0 & Hk0 & [[Hv _] _]).
    specialize (IH o h0 Hop Ho0 Hk0). specialize (Hv a). lia. }
  assert (forall x0, quiet x0 x' -> x_crit x0 = x_crit x -> owner_op x = false) as Hsame.
  { intros x0 [_ Q1 _ _] E. rewrite E in Q1. unfold owner_op in *. destruct (x_crit x) as [c|]; [|done].
    by rewrite (Q1 c eq_refl) in Hno. }
  destruct (access_shape _ _ _ _ He (fresh_handle x Hx))
    as [[Hq _]|[(c & choice & m & V & p & _ & Hc & Hstep & Hrun & Hq)
               |[(k0 & h0 & p0 & choice & m & V & p & _ & Hk0 & Hp & Hstep & Hq)
                |(c & op & V & p & _ & _ & Hop & Hrun & Hq)]]].
  - apply (Hkeep x Hq); [done..|by apply (Hsame x)|]. by rewrite (q_mem _ _ Hq).
  - destruct (rreachable_rel el n c0 Hel Hnew x Hx) as (y & l & pd & lo & rem & R).
    assert (owner_op x = match k_op c with OFinalize _ _ _ => false | _ => true end) as Hop
      by (unfold owner_op; by rewrite Hc).
    destruct (match k_op c with OFinalize _ _ _ => false | _ => true end) eqn:Hk_op.
    + assert (owners (k_op c)) as Hfin by (by destruct (k_op c)).
      destruct (Hown _ Hq eq_refl eq_refl) as (Ho0 & h0 & Hk0 & _). by eapply (unlocked_latest (rset_mem m x)).
    + apply (Hkeep _ Hq); [done|done|done|]. rewrite (q_mem _ _ Hq). cbn.
      pose proof (re_prog _ _ _ _ _ _ _ R) as Hcr. rewrite Hc in Hcr. unfold crit_rel in Hcr.
      destruct (k_op c); try done. destruct Hcr as (t & _ & Hns). apply (always_step _ _ _ _ _ _ _ _ _ Hns Hstep). tauto.
  - apply (Hkeep _ Hq); [done|done|by apply (Hsame _ Hq)|]. rewrite (q_mem _ _ Hq). cbn.
    eapply prog_step_hist; [exact Hstep|]. apply (handle_reads x k0 h0 p0 Hx Hk0 Hp).
  - destruct (Hown _ Hq eq_refl eq_refl) as (Ho0 & h0 & Hk0 & _). by eapply (unlocked_latest x).
Qed.

(** A view that is not behind finds the items that are present, and them only. *)
Lemma latest_exact x k h i ts msg : rreachable T ord n x -> x_handles x !! k = Some h ->
  (forall a, S (v_atomic (hd_view h) a) = length (m_hist (x_mem x) a)) ->
  0 <= i -> (v_atomic (hd_view h) (LWord (i / 64)) <= ts)%nat ->
  m_hist (x_mem x) (LWord (i / 64)) !! ts = Some msg ->
  (has (msg_val msg) i <-> ~ absent x i)
  /\ (has (msg_val msg) i -> exists t, c_val (m_cell (x_mem x) i) = Item t).
Proof using Hel Hnew.
  intros Hx Hk Hlast Hi Hts Hmsg. destruct (rreachable_rel el n c0 Hel Hnew x Hx) as (y & l & pd & lo & rem & R).
  destruct (handle_reader _ _ _ _ _ _ _ _ R Hk) as (r & s & gs & g & _ & Hl & I & Hrel & Hok).
  assert (last (m_hist (x_mem x) (LWord (i / 64))) = Some msg) as Hm.
  { rewrite last_lookup, <- Hlast. cbn. pose proof (lookup_lt_Some _ _ _ Hmsg) as Hlt. rewrite <- Hlast in Hlt.
    by replace (v_atomic (hd_view h) (LWord (i / 64))) with ts by lia. }
  split; [split|].
  - intros Hbit Habs. apply Habs. rewrite <- (re_header _ _ _ _ _ _ _ R), (si_size _ _ _ _ I). split; [|by exists msg].
    rewrite <- (re_mem _ _ _ _ _ _ _ R) in Hmsg.
    by apply (proj2 (mi_bits _ _ _ _ _ _ _ (si_mem _ _ _ _ I) _ _ _ Hmsg) i Hi eq_refl Hbit).
  - intros Habs. destruct (decide (has (msg_val msg) i)) as [|Hn]; [done|]. destruct Habs. intros (_ & msg' & Hm' & Hb).
    rewrite Hm in Hm'. by injection Hm' as ->.
  - intros Hbit. rewrite (lv_view _ _ Hl), <- (rr_view _ _ _ Hrel) in Hts.
    by apply (ro_vis _ _ _ _ _ _ Hok i ts msg Hi Hts Hmsg Hbit).
Qed.
End items.
