(* ===== verification/RcuWeakProps.v ===== *)
(** The [RcuCslab] under concurrent use, access by access: the theorems. *)

From S2P Require Import Prelude CslabStorage Cslab CslabIter CslabProps Weak WeakCslab WeakSystem WeakInv WeakCorrect.
From S2P Require Import RcuWeak RcuWeakProto RcuWeakRel RcuWeakSim RcuWeakOwner RcuWeakOwnerOps RcuWeakCorrect RcuWeakItems.

(** ** Histories, for the examples *)

Section histories.
Context {T : Type}.

Fixpoint run_revents (x : rsys T) (es : list (revent T)) : option (rsys T) :=
  match es with
  | [] => Some x
  | e :: es' =>
      match rexec source_orderings x e with Some (Ret (_, x')) => run_revents x' es' | _ => None end
  end.

Lemma run_revents_reachable n x es x' :
  rreachable T source_orderings n x -> run_revents x es = Some x' -> rreachable T source_orderings n x'.
Proof.
  revert x. induction es as [|e es IH]; intros x Hx; cbn; [by intros [= <-]|].
  destruct (rexec source_orderings x e) as [[[r x1]| | |]|] eqn:He; try done. apply IH. by eapply rreach_step.
Qed.
End histories.

(** The accesses of an insertion, whose loads return the latest stores. *)
Definition rcu_inserting (t : Z) (f b : nat) (frontier : bool) : list (revent Z) :=
  [CInsert t; CCrit 0; CCrit 0; CCrit f] ++ (if frontier then [CCrit 0] else []) ++ [CCrit b; CCrit 0].

(** An item that a reader has found is marked, and a new generation begins. *)
Definition marked_history : list (revent Z) :=
  rcu_inserting 7 0 0 true ++ [CClone 0; CGet 1 0; CRead 1 1; CRead 1 0]
    ++ [CMark 0; CCrit 1; CCrit 0; CPush; CAdvance].

(** The [RcuCslab] lets go of the first generation; the reader reads the item
    once more, and then lets go of the generation, too. *)
Definition dropped_history : list (revent Z) :=
  marked_history ++ [CTask 2; CUnchecked 1 0; CRead 1 0; CDrop 1; CTask 3].

(** The item is finalized, the generation freed, and the slot used again, by an
    item that another reader finds. *)
Definition reused_history : list (revent Z) :=
  dropped_history ++ [CTask 3; CCrit 2; CCrit 0; CCrit 0; CTask 3; CTask 3]
    ++ rcu_inserting 9 1 2 false ++ [CClone 0; CGet 4 0; CRead 4 3].

Definition rcu_state (es : list (revent Z)) : rsys Z := default (rsys_new 2) (run_revents (rsys_new 2) es).

Lemma rcu_state_reachable es : is_Some (run_revents (rsys_new 2) es) ->
  rreachable Z source_orderings 2 (rcu_state es).
Proof.
  intros [x Hx]. unfold rcu_state. rewrite Hx. eapply run_revents_reachable; [apply rreach_new|exact Hx].
Qed.

Example reused_answer :
  exists x', rexec source_orderings (rcu_state reused_history) (CRead 4 0) = Some (Ret (RReader (RGot 0 (Some 9)), x')).
Proof. eexists. vm_compute. reflexivity. Qed.

Example dropped_answer :
  exists x', rexec source_orderings (rcu_state (marked_history ++ [CTask 2; CUnchecked 1 0])) (CRead 1 0)
    = Some (Ret (RReader (RGot 0 (Some 7)), x')).
Proof. eexists. vm_compute. reflexivity. Qed.

(** An item is inserted through a vacant entry, while a drop waits for the lock. *)
Definition vacant_history : list (revent Z) :=
  dropped_history ++ [CVacant; CFill 8; CCrit 0; CCrit 0; CCrit 1; CCrit 0; CCrit 2].

Example vacant_waits : rexec source_orderings (rcu_state (dropped_history ++ [CVacant])) (CTask 3) = None.
Proof. vm_compute. reflexivity. Qed.

Example vacant_answer :
  exists x', rexec source_orderings (rcu_state vacant_history) (CCrit 0)
    = Some (Ret (RWriter (WInserted (Ok 1)), x')).
Proof. eexists. vm_compute. reflexivity. Qed.

(** The steps while a handle holds an item. *)
Definition holding_step {T} (k : nat) (i : Z) (x x' : rsys T) : Prop :=
  (exists e a, rexec source_orderings x e = Some (Ret (a, x'))) /\ holds k i x /\ holds k i x'.

Fixpoint holding_run {T} (k : nat) (i : Z) (x : rsys T) (es : list (revent T)) : option (rsys T) :=
  match es with
  | [] => Some x
  | e :: es' =>
      match rexec source_orderings x e, x_handles x !! k with
      | Some (Ret (_, x')), Some h =>
          match x_handles x' !! k with
          | Some h' => if decide (i ∈ hd_held h /\ i ∈ hd_held h') then holding_run k i x' es' else None
          | None => None
          end
      | _, _ => None
      end
  end.

Lemma holding_run_steps {T} k i (x x' : rsys T) es : holding_run k i x es = Some x' -> rtc (holding_step k i) x x'.
Proof.
  revert x. induction es as [|e es IH]; intros x; cbn; [by intros [= <-]|].
  destruct (rexec source_orderings x e) as [[[a x1]| | |]|] eqn:He; try done.
  destruct (x_handles x !! k) as [h|] eqn:Hk; [|done]. destruct (x_handles x1 !! k) as [h1|] eqn:Hk1; [|done].
  case_decide as Hi; [|done]. intros Hrun. apply rtc_l with (y := x1); [|by apply IH].
  split; [by exists e, a|]. destruct Hi as [Hi Hi1]. split; eexists; eauto.
Qed.

(** What the refinement relates of a state and the client's. *)
Record client_sees {T} (n : Z) (x : rsys T) (y : sys T) : Prop := {
  cs_reachable : reachable T source_orderings n y;
  cs_mem : y_mem y = x_mem x;
  cs_header : y_header y = x_header x;
  cs_handle k h : x_handles x !! k = Some h -> exists r, r ∈ y_readers y /\ live_rel h r;
  cs_pending g w i : x_gens x !! g = Some w -> (0 < ag_strong w)%nat -> i ∈ ag_pending w -> i ∈ y_marked y;
}.

Lemma rel_client_sees {T} n (x : rsys T) y l pd lo rem : rel n x y l pd lo rem -> client_sees n x y.
Proof.
  intros R. split; [apply R..| |].
  - intros k h Hk. destruct (live_split n _ _ _ _ _ _ _ _ R Hk) as (l1 & r & l2 & -> & Hl). exists r.
    split; [|done]. rewrite (re_readers R), list_elem_of_fmap. exists (TLive k, r).
    split; [done|]. rewrite elem_of_app. right. by left.
  - intros g w i Hw Hs Hi. pose proof (re_core _ _ _ _ _ _ _ R) as C.
    rewrite <- (mk_dom _ _ _ _ _ _ _ (co_marks _ _ _ _ _ _ _ C)), elem_of_dom. exists g. by eapply pending_marked.
Qed.

(** ** Theorems *)

(** C10 (safety). On the weak memory, with the counts of the generations and the
    lock as the only synchronization, every access that the [RcuCslab], its
    readers on any threads and the drops of generations make returns, whatever
    the loads return that C++20 allows: there is no data race, no generation is
    used after it is freed, no count underflows and no assertion fails; but for
    [mark_removed] of an index where no item is, which panics. *)
Theorem rcu_weak_safe {T} el n (c : cslab T) x e o :
  entry_layout_ok el -> with_fixed_capacity el n = Ret c -> rreachable T source_orderings n x ->
  rexec source_orderings x e = Some o ->
  (exists a x', o = Ret (a, x')) \/ (o = Panic /\ exists i, marks x e i /\ absent x i).
Proof.
  intros Hel Hc Hx He. destruct (rreachable_rel el n c Hel Hc x Hx) as (y & l & pd & lo & rem & R).
  destruct (sim_step el n c Hel Hc x y l pd lo rem e o R He) as [(a & x' & _ & _ & _ & _ & _ & -> & _)|?]; eauto.
Qed.

Lemma rcu_weak_safe_witness :
  exists o, rexec source_orderings (rcu_state dropped_history) (CTask 3) = Some o
  /\ ((exists a x', o = Ret (a, x')) \/ (o = Panic /\ exists i, marks (rcu_state dropped_history) (CTask 3) i /\ absent (rcu_state dropped_history) i)).
Proof.
  eexists. split; [vm_compute; reflexivity|].
  eapply (rcu_weak_safe demo_layout 2 _ (rcu_state dropped_history) (CTask 3));
    [by_decide|reflexivity|apply rcu_state_reachable; vm_compute; by eexists|vm_compute; reflexivity].
Defined.

(** C11 (refinement). The [RcuCslab] is a client that keeps the contract of the
    slab under it: each of its accesses, and each of those of its readers and of
    the drops of generations, is made of steps that the contract of
    [mark_removed] and [finalize_remove] allows, with the same memory, header
    and answers; the handles are readers, and the pending removals are marked. *)
Theorem rcu_weak_refines {T} el n (c : cslab T) :
  entry_layout_ok el -> with_fixed_capacity el n = Ret c ->
  exists R : rsys T -> sys T -> Prop,
    (exists y, R (rsys_new n) y)
    /\ forall x y, R x y -> client_sees n x y
       /\ forall e a x', rexec source_orderings x e = Some (Ret (a, x')) ->
          exists y', esteps y y' /\ heard y a y' /\ R x' y'.
Proof.
  intros Hel Hc. exists (fun x y => exists l pd lo rem, rel n x y l pd lo rem). split.
  - destruct (rel_new (T:=T) n) as [_ R]. eauto 10.
  - intros x y (l & pd & lo & rem & R). split; [by eapply rel_client_sees|]. intros e a x' He.
    destruct (sim_step el n c Hel Hc x y l pd lo rem e _ R He)
      as [(a' & x1 & y' & l' & pd' & lo' & rem' & [= <- <-] & Hs & Hh & R')|[? _]]; [|done].
    exists y'. split; [done|]. split; [done|]. by eexists _, _, _, _.
Qed.

Lemma rcu_weak_refines_witness :
  exists R : rsys Z -> sys Z -> Prop,
    (exists y, R (rsys_new 2) y)
    /\ forall x y, R x y -> client_sees 2 x y
       /\ forall e a x', rexec source_orderings x e = Some (Ret (a, x')) ->
          exists y', esteps y y' /\ heard y a y' /\ R x' y'.
Proof. eapply (rcu_weak_refines demo_layout 2); [by_decide|reflexivity]. Defined.

(** C15 (invariant). How stale a flag may be: while the lock is free, a flag that
    a reader of a generation may load as set, in whichever store of the word,
    is that of an item that is in its slot, and either is still set, or is
    pending removal in the reader's own generation or a later one, or has just
    been cleared by a [mark_removed] that has not recorded it as pending yet.
    What waits in an older generation is never found. *)
Theorem stale_flags_bounded {T} el n (c : cslab T) x k h i ts msg :
  entry_layout_ok el -> with_fixed_capacity el n = Ret c -> rreachable T source_orderings n x ->
  x_crit x = None -> x_handles x !! k = Some h -> 0 <= i ->
  (v_atomic (hd_view h) (LWord (i / 64)) <= ts)%nat ->
  m_hist (x_mem x) (LWord (i / 64)) !! ts = Some msg -> has (msg_val msg) i ->
  (exists t, c_val (m_cell (x_mem x) i) = Item t)
  /\ (~ absent x i \/ x_push x = Some i
      \/ exists g w, (hd_gen h <= g)%nat /\ x_gens x !! g = Some w /\ i ∈ ag_pending w)
  /\ (forall g w, (g < hd_gen h)%nat -> x_gens x !! g = Some w -> (0 < ag_strong w)%nat -> i ∉ ag_pending w).
Proof.
  intros Hel Hc Hx Hcr Hk Hi Hts Hmsg Hbit.
  destruct (flag_bound el n c Hel Hc x k h i ts msg Hx Hcr Hk Hi Hts Hmsg Hbit) as [? ?].
  split; [done|]. split; [done|]. intros g w Hg Hw Hs Hp. by eapply (flag_hidden el n c Hel Hc x k h i ts msg g w).
Qed.

(** The reader may still load the flag that the removal has cleared. *)
Lemma stale_flags_bounded_witness :
  exists h msg, x_handles (rcu_state marked_history) !! 1%nat = Some h
  /\ m_hist (x_mem (rcu_state marked_history)) (LWord (0 / 64)) !! 1%nat = Some msg /\ has (msg_val msg) 0
  /\ absent (rcu_state marked_history) 0
  /\ ((exists t, c_val (m_cell (x_mem (rcu_state marked_history)) 0) = Item t)
      /\ (~ absent (rcu_state marked_history) 0 \/ x_push (rcu_state marked_history) = Some 0
          \/ exists g w, (hd_gen h <= g)%nat /\ x_gens (rcu_state marked_history) !! g = Some w /\ 0 ∈ ag_pending w)
      /\ (forall g w, (g < hd_gen h)%nat -> x_gens (rcu_state marked_history) !! g = Some w ->
           (0 < ag_strong w)%nat -> 0 ∉ ag_pending w)).
Proof.
  eexists _, _. split; [vm_compute; reflexivity|]. split; [vm_compute; reflexivity|]. split; [vm_compute; reflexivity|].
  split; [intros (_ & msg & Hm & Hb); vm_compute in Hm; injection Hm as <-; vm_compute in Hb; discriminate|].
  eapply (stale_flags_bounded demo_layout 2 _ (rcu_state marked_history) 1%nat _ 0 1%nat);
    [by_decide|reflexivity|apply rcu_state_reachable; vm_compute; by eexists|vm_compute; reflexivity
    |vm_compute; reflexivity|lia|vm_compute; lia|vm_compute; reflexivity|vm_compute; reflexivity].
Defined.

(** C16 (functional). What a new reader finds: a reader that the [RcuCslab] makes
    is of the current generation, and whatever it loads of the flags, as long as
    nothing else happens, are those of the items that are present then: each
    one that has been inserted and not been marked removed, and no other. *)
Theorem new_readers_exact {T} el n (c : cslab T) x o a x' :
  entry_layout_ok el -> with_fixed_capacity el n = Ret c -> rreachable T source_orderings n x ->
  x_owner x = Some o -> rexec source_orderings x (CClone o) = Some (Ret (a, x')) ->
  exists h, x_handles x' !! x_fresh x = Some h /\ S (hd_gen h) = x_next_gen x'
  /\ forall i ts msg, 0 <= i -> (v_atomic (hd_view h) (LWord (i / 64)) <= ts)%nat ->
       m_hist (x_mem x') (LWord (i / 64)) !! ts = Some msg ->
       (has (msg_val msg) i <-> ~ absent x' i)
       /\ (has (msg_val msg) i -> exists t, c_val (m_cell (x_mem x') i) = Item t).
Proof.
  intros Hel Hc Hx Ho He. assert (rreachable T source_orderings n x') as Hx' by (by eapply rreach_step).
  cbn [rexec exec_handle] in He. destruct (idle x o) as [h|] eqn:Hi; [|done]. cbn [mbind option_bind] in He.
  apply idle_spec in Hi as (Hk & _ & Hb). destruct (not_busy x (Hb Ho)) as [_ Hno].
  destruct (rreachable_rel el n c Hel Hc x Hx) as (y & l & pd & lo & rem & R).
  destruct (pr_owner _ _ (co_proto _ _ _ _ _ _ _ (re_core _ _ _ _ _ _ _ R)) o Ho) as (h0 & Hk0 & Hg & _).
  rewrite Hk in Hk0. injection Hk0 as <-.
  pose proof (fun a => owner_latest el n c Hel Hc x o h a Hx Hno Ho Hk) as Hlast.
  unfold clone_handle in He. destruct (x_gens x !! hd_gen h); [|done]. injection He as <- <-.
  eexists. split; [apply lookup_insert_eq|]. split; [exact Hg|]. intros i ts msg Hi Hts Hmsg.
  eapply (latest_exact el n c Hel Hc _ (x_fresh x)); [exact Hx'|apply lookup_insert_eq|exact Hlast|done..].
Qed.

(** An item is there, and another has been removed. *)
Definition two_items : list (revent Z) :=
  rcu_inserting 7 0 0 true ++ rcu_inserting 8 1 1 true ++ [CMark 0; CCrit 2; CCrit 0; CPush].

Lemma new_readers_exact_witness :
  exists x', rexec source_orderings (rcu_state two_items) (CClone 0) = Some (Ret (RStep, x'))
  /\ (exists msg, m_hist (x_mem x') (LWord 0) !! 3%nat = Some msg /\ has (msg_val msg) 1 /\ ~ has (msg_val msg) 0)
  /\ exists h, x_handles x' !! 1%nat = Some h /\ S (hd_gen h) = x_next_gen x'
  /\ forall i ts msg, 0 <= i -> (v_atomic (hd_view h) (LWord (i / 64)) <= ts)%nat ->
       m_hist (x_mem x') (LWord (i / 64)) !! ts = Some msg ->
       (has (msg_val msg) i <-> ~ absent x' i)
       /\ (has (msg_val msg) i -> exists t, c_val (m_cell (x_mem x') i) = Item t).
Proof.
  eexists. split; [vm_compute; reflexivity|]. split.
  - eexists. split; [vm_compute; reflexivity|]. split; [vm_compute; reflexivity|]. vm_compute. discriminate.
  - eapply (new_readers_exact demo_layout 2 _ (rcu_state two_items) 0%nat RStep);
      [by_decide|reflexivity|apply rcu_state_reachable; vm_compute; by eexists|vm_compute; reflexivity|].
    vm_compute. reflexivity.
Defined.

(** C14 (safety). The item that a reader is given, by a lookup or an iteration, is
    the one in the slot, and stays there for as long as the reader holds it,
    over any accesses of any threads, whether it is marked removed and its
    generation left behind or not. *)
Theorem held_items_stay {T} el n (c : cslab T) x k choice res x1 i t x' :
  entry_layout_ok el -> with_fixed_capacity el n = Ret c -> rreachable T source_orderings n x ->
  rexec source_orderings x (CRead k choice) = Some (Ret (RReader res, x1)) -> given res = Some (i, t) ->
  rtc (holding_step k i) x1 x' -> c_val (m_cell (x_mem x') i) = Item t.
Proof.
  intros Hel Hc Hx He Hg Hs. destruct (read_answer el n c Hel Hc x k choice res x1 i t Hx He Hg) as [_ Ht].
  assert (rreachable T source_orderings n x1) as Hx1 by (by eapply rreach_step). clear x Hx He.
  induction Hs as [x|x x1 x' ((e & a & He) & (h & Hk & Hi) & (h1 & Hk1 & Hi1)) _ IH]; [done|].
  apply IH; [|by eapply rreach_step]. by rewrite (step_cell el n c Hel Hc x e a x1 k h h1 i Hx1 He).
Qed.

(** The item is marked, and its generation is left behind, while a reader reads it. *)
Definition found_history : list (revent Z) := rcu_inserting 7 0 0 true ++ [CClone 0; CGet 1 0; CRead 1 1].

Definition found_answer : outcome (ransw Z * rsys Z) :=
  default UB (rexec source_orderings (rcu_state found_history) (CRead 1 0)).

Lemma held_items_stay_witness :
  exists x1 x', found_answer = Ret (RReader (RGot 0 (Some 7)), x1)
  /\ holding_run 1 0 x1 [CMark 0; CCrit 1; CCrit 0; CPush; CAdvance; CTask 2; CUnchecked 1 0; CRead 1 0] = Some x'
  /\ c_val (m_cell (x_mem x') 0) = Item 7.
Proof.
  eexists _, _. split; [vm_compute; reflexivity|]. split; [vm_compute; reflexivity|].
  eapply (held_items_stay demo_layout 2 _ (rcu_state found_history) 1%nat 0%nat (RGot 0 (Some 7)) _ 0 7);
    [by_decide|reflexivity|apply rcu_state_reachable; vm_compute; by eexists|vm_compute; reflexivity|reflexivity|].
  eapply (holding_run_steps 1 0 _ _ [CMark 0; CCrit 1; CCrit 0; CPush; CAdvance; CTask 2; CUnchecked 1 0; CRead 1 0]).
  vm_compute. reflexivity.
Defined.
