(* ===== verification/CslabTests.v ===== *)
(** The unit tests of cslab/src/lib.rs, run on the model: each is a script of
    calls and assertions, translated statement by statement.  A failed
    assertion panics, as in Rust, so that a test passes when it returns.  The
    model computes each of them.

    The loom tests are run on every interleaving: those of [Cslab] on the weak
    memory, access by access and with every value that a load may return (loom
    has only those of interleaved accesses), the one of [RcuCslab] call by
    call. *)

From stdpp Require Import sorting.
From S2P Require Import Prelude CslabStorage Cslab SlabSpec CslabIter SlabInterface RcuCslab.
From S2P Require Import Weak WeakCslab WeakSystem.

(** ** What the tests use of the language *)

(** [Result::unwrap], [Result::unwrap_err], [Option::unwrap] and [assert_eq!] *)
Definition unwrap {A E} (r : result A E) : outcome A :=
  match r with Ok a => Ret a | Err _ => Panic end.
Definition unwrap_err {A E} (r : result A E) : outcome E :=
  match r with Ok _ => Panic | Err e => Ret e end.
Definition unwrap_option {A} (o : option A) : outcome A :=
  match o with Some a => Ret a | None => Panic end.
Definition eqb {A} `{EqDecision A} (x y : A) : bool := bool_decide (x = y).

(** A slab of an element type whose entries have 16 bytes. *)
Definition new_slab (cap : Z) : outcome (cslab Z) := with_fixed_capacity (mkLayout 16 8) cap.

(** [slab.insert(item).unwrap()] *)
Definition insert_ok (c : cslab Z) (item : Z) : outcome (Z * cslab Z) :=
  '(r, c) ← insert c item; i ← unwrap r; Ret (i, c).

(** [*slab.get(i).unwrap()] *)
Definition get_ok (c : cslab Z) (i : Z) : outcome Z := o ← get c i; unwrap_option o.

(** [collect], of an iterator and of the same reversed. *)
Definition collect (c : cslab Z) : outcome (list (Z * Z)) :=
  e ← cslab_iter c; drain_all (slab_storage c) (iter_from e).

Fixpoint drain_back (fuel : nat) (c : cslab Z) (e : excl_iter) : outcome (list (Z * Z)) :=
  match fuel with
  | O => OutOfFuel
  | S fuel' =>
      '(r, e) ← excl_iter_next_back (slab_storage c) e;
      match r with
      | None => Ret []
      | Some y => l ← drain_back fuel' c e; Ret (y :: l)
      end
  end.
Definition collect_rev (c : cslab Z) : outcome (list (Z * Z)) :=
  e ← cslab_iter c; drain_back (S (Z.to_nat (capacity c))) c e.

(** The length of [slab.iter()] *)
Definition iter_len (c : cslab Z) : outcome Z := e ← cslab_iter c; Ret (excl_iter_len e).

(** [for value in values { slab.insert(value).unwrap(); }], and the indices. *)
Fixpoint insert_each (c : cslab Z) (values : list Z) : outcome (list Z * cslab Z) :=
  match values with
  | [] => Ret ([], c)
  | v :: vs => '(i, c) ← insert_ok c v; '(l, c) ← insert_each c vs; Ret (i :: l, c)
  end.

(** ** [Cslab] *)

Definition basic_test : outcome unit :=
  slab ← new_slab 4;
  assert! eqb (capacity slab) 4 ;;
  '(i, slab) ← insert_ok slab 123;
  '(j, slab) ← insert_ok slab 456;
  assert! eqb (capacity slab) 4 ;;
  assert! eqb (len slab) 2 ;;
  assert! eqb (allocated slab) 2 ;;
  x ← get_ok slab i; assert! eqb x 123 ;;
  x ← get_ok slab j; assert! eqb x 456 ;;
  j1 ← add_u 64 j 1;
  o ← get slab j1; assert! eqb o None ;;
  o ← get slab (capacity slab); assert! eqb o None ;;
  o ← get slab usize_MAX; assert! eqb o None ;;
  Ret tt.

Definition at_capacity_test : outcome unit :=
  slab ← new_slab 4;
  assert! eqb (capacity slab) 4 ;;
  '(_, slab) ← insert_ok slab 123;
  '(_, slab) ← insert_ok slab 456;
  '(_, slab) ← insert_ok slab 234;
  '(_, slab) ← insert_ok slab 567;
  '(r, slab) ← insert slab 345; _ ← unwrap_err r;
  assert! eqb (len slab) 4 ;;
  assert! eqb (allocated slab) 4 ;;
  Ret tt.

Definition removal_test : outcome unit :=
  slab ← new_slab 4;
  '(i, slab) ← insert_ok slab 123;
  '(j, slab) ← insert_ok slab 456;
  slab ← mark_removed slab i;
  o ← get slab i; assert! eqb o None ;;
  x ← get_ok slab j; assert! eqb x 456 ;;
  '(k, slab) ← insert_ok slab 234; assert! negb (eqb k i) ;;
  '(k, slab) ← insert_ok slab 567; assert! negb (eqb k i) ;;
  '(r, slab) ← insert slab 345; _ ← unwrap_err r;
  '(x, slab) ← finalize_remove slab i; assert! eqb x 123 ;;
  '(ii, slab) ← insert_ok slab 345;
  assert! eqb ii i ;;
  x ← get_ok slab ii; assert! eqb x 345 ;;
  Ret tt.

Definition removal_freelist_reuse_test : outcome unit :=
  slab ← new_slab 4;
  '(_, slab) ← insert_each slab (seqZ 0 4);
  (* for idx in [1, 3] *)
  slab ← mark_removed slab 1; '(_, slab) ← finalize_remove slab 1;
  slab ← mark_removed slab 3; '(_, slab) ← finalize_remove slab 3;
  '(k, slab) ← insert_ok slab 30; assert! eqb k 3 ;;
  '(k, slab) ← insert_ok slab 10; assert! eqb k 1 ;;
  '(r, slab) ← insert slab 99; _ ← unwrap_err r;
  l ← collect slab; assert! eqb l.*2 [0; 10; 2; 30] ;;
  Ret tt.

(** A reader shares the storage, so that it is taken again after an insertion. *)
Definition reader_test : outcome unit :=
  slab ← new_slab 4;
  assert! eqb (capacity slab) 4 ;;
  '(i, slab) ← insert_ok slab 123;
  '(j, slab) ← insert_ok slab 456;
  let reader := reader_of slab in
  let clone := reader in
  o ← cslab_reader.get reader i; assert! eqb o (Some 123) ;;
  o ← cslab_reader.get reader j; assert! eqb o (Some 456) ;;
  o ← cslab_reader.get clone i; assert! eqb o (Some 123) ;;
  o ← cslab_reader.get clone j; assert! eqb o (Some 456) ;;
  Ret tt.

(** An [OnDrop] is a number, and the items dropped so far are listed: an item
    that is returned is the caller's to drop. *)
Definition removal_drop_test : outcome unit :=
  slab ← new_slab 4;
  '(i, slab) ← insert_ok slab 1;
  slab ← mark_removed slab i;
  let dropped := [] in
  '(item, slab) ← finalize_remove slab i;
  assert! eqb dropped [] ;;
  let dropped := dropped ++ [item] in
  assert! eqb dropped [1] ;;
  l ← storage_drop (slab_storage slab);
  assert! eqb (dropped ++ l) [1] ;;
  Ret tt.

Definition container_drop_test : outcome unit :=
  slab ← new_slab 4;
  '(i, slab) ← insert_ok slab 1;
  '(_, slab) ← insert_ok slab 2;
  slab ← mark_removed slab i;
  '(item, slab) ← finalize_remove slab i;
  let dropped := [item] in
  assert! eqb dropped [1] ;;
  l ← storage_drop (slab_storage slab);
  assert! eqb (dropped ++ l) [1; 2] ;;
  Ret tt.

Definition iter_test : outcome unit :=
  slab ← new_slab 4;
  n ← iter_len slab; assert! eqb n 0 ;;
  l ← collect slab; assert! eqb l [] ;;
  '(i, slab) ← insert_ok slab 123;
  '(j, slab) ← insert_ok slab 456;
  '(k, slab) ← insert_ok slab 789;
  n ← iter_len slab; assert! eqb n 3 ;;
  l ← collect slab; assert! eqb l [(i, 123); (j, 456); (k, 789)] ;;
  l ← collect_rev slab; assert! eqb l [(k, 789); (j, 456); (i, 123)] ;;
  slab ← mark_removed slab j;
  n ← iter_len slab; assert! eqb n 2 ;;
  l ← collect slab; assert! eqb l [(i, 123); (k, 789)] ;;
  l ← collect_rev slab; assert! eqb l [(k, 789); (i, 123)] ;;
  Ret tt.

Definition iter_bidi_test : outcome unit :=
  slab ← new_slab 4;
  '(i, slab) ← insert_ok slab 123;
  '(j, slab) ← insert_ok slab 456;
  '(k, slab) ← insert_ok slab 789;
  let s := slab_storage slab in
  it ← cslab_iter slab;
  '(o, it) ← excl_iter_next s it; assert! eqb o (Some (i, 123)) ;;
  '(o, it) ← excl_iter_next_back s it; assert! eqb o (Some (k, 789)) ;;
  '(o, it) ← excl_iter_next s it; assert! eqb o (Some (j, 456)) ;;
  '(o, it) ← excl_iter_next s it; assert! eqb o None ;;
  '(o, it) ← excl_iter_next_back s it; assert! eqb o None ;;
  (* test fusing also *)
  '(o, it) ← excl_iter_next s it; assert! eqb o None ;;
  '(o, it) ← excl_iter_next_back s it; assert! eqb o None ;;
  Ret tt.

(** [for i in 0..128 { assert_eq!(it.next(), Some(..)); }] *)
Fixpoint yields_each (next : excl_iter -> outcome (option (Z * Z) * excl_iter))
    (e : excl_iter) (l : list (Z * Z)) : outcome excl_iter :=
  match l with
  | [] => Ret e
  | y :: l' => '(o, e) ← next e; assert! eqb o (Some y) ;; yields_each next e l'
  end.

Definition iter_large_test : outcome unit :=
  slab ← new_slab 128;
  '(items, slab) ← insert_each slab (seqZ 100 128);
  let s := slab_storage slab in
  it ← cslab_iter slab;
  it ← yields_each (excl_iter_next s) it (zip items (seqZ 100 128));
  '(o, _) ← excl_iter_next s it; assert! eqb o None ;;
  it ← cslab_iter slab;
  it ← yields_each (excl_iter_next_back s) it (reverse (zip items (seqZ 100 128)));
  '(o, _) ← excl_iter_next_back s it; assert! eqb o None ;;
  Ret tt.

(** ** [RcuCslab]

    A test has the heap as its state; the numbers of the drops so far and of the
    references to a generation are read from it.  At its end a test drops what
    it still has, the latest first. *)

Abbreviation M := (stateful (heap (cslab Z) Z)).

Definition assert_ (b : bool) : M unit := fail (if b then Ret tt else Panic).
Definition unwrap_m {A} (o : option A) : M A := fail (unwrap_option o).

Definition run_test (cap : Z) (test : rcu_cslab -> M unit) : outcome unit :=
  '(slab, h) ← rcu_with_fixed_capacity new_slab cap; (test slab h).1.

(** [slab.insert(item).unwrap()], for each item. *)
Definition rcu_insert_ok (item : Z) : M Z := r ← rcu_insert item; fail (unwrap r).
Fixpoint rcu_insert_each (items : list Z) : M (list Z) :=
  match items with
  | [] => mret []
  | t :: ts => i ← rcu_insert_ok t; l ← rcu_insert_each ts; mret (i :: l)
  end.

(** [dropped.get()], for a counter that each drop increments. *)
Definition drops : M Z := fun h => (Ret (Z.of_nat (length (dropped h))), h).

(** [generation.inner.lock().unwrap().next_gen] *)
Definition read_next_gen (g : nat) : M (option nat) := n ← get_gen g; mret (next_gen (inner n)).

(** [Weak::upgrade]: a new reference, when there still is one. *)
Definition upgrade (g : nat) : M (option nat) := fun h =>
  match gens h !! g with
  | Some (mkGen (S n) i) => (_ ← clone_gen g; mret (Some g)) h
  | _ => (Ret None, h)
  end.

(** [slab.iter().map(|(_, &value)| value).collect()] *)
Definition rcu_collect : M (list Z) :=
  e ← rcu_iter;
  l ← read_storage (fun c : cslab Z => drain_all (slab_storage c) (iter_from e));
  mret l.*2.

(** The loop of the first test: [while let Some(entry) = iter.next()]. *)
Fixpoint remove_even (fuel : nat) (slab : rcu_cslab) (iter : iter_mut) (visited : list Z)
  : M (iter_mut * list Z) :=
  match fuel with
  | O => fail OutOfFuel
  | S fuel' =>
      '(o, iter) ← iter_mut_next slab iter;
      match o with
      | None => mret (iter, visited)
      | Some entry =>
          x ← entry_deref entry;
          _ ← (if x mod 2 =? 0 then entry_remove entry else entry_drop entry);
          remove_even fuel' slab iter (visited ++ [e_idx entry])
      end
  end.

Definition rcu_iter_mut_selective_removal (slab : rcu_cslab) : M unit :=
  l ← rcu_insert_each (seqZ 0 130); _ ← assert_ (eqb l (seqZ 0 130));
  _ ← rcu_mark_removed slab 65;
  old_reader ← rcu_reader slab;
  iter ← rcu_iter_mut;
  _ ← assert_ (eqb (iter_mut_size_hint iter).1 129);
  '(o, iter) ← iter_mut_next slab iter; first ← unwrap_m o;
  _ ← assert_ (eqb (e_idx first) 0);
  x ← entry_deref first; _ ← assert_ (eqb x 0);
  _ ← entry_remove first;
  '(o, iter) ← iter_mut_next_back slab iter; last ← unwrap_m o;
  _ ← assert_ (eqb (e_idx last) 129);
  _ ← entry_remove last;
  _ ← assert_ (eqb (iter_mut_size_hint iter) (127, Some 127));
  '(iter, visited) ← remove_even 131 slab iter [0; 129];
  _ ← assert_ (eqb (iter_mut_size_hint iter).1 0);
  '(o, iter) ← iter_mut_next slab iter; _ ← assert_ (eqb (e_idx <$> o) None);
  '(o, iter) ← iter_mut_next_back slab iter; _ ← assert_ (eqb (e_idx <$> o) None);
  '(o, iter) ← iter_mut_next slab iter; _ ← assert_ (eqb (e_idx <$> o) None);
  slab ← iter_mut_drop slab;
  _ ← assert_ (eqb (merge_sort Z.le visited) (filter (.≠ 65) (seqZ 0 130)));
  new_reader ← rcu_reader slab;
  n ← read_next_gen old_reader; next_gen ← unwrap_m n;
  _ ← clone_gen next_gen;
  _ ← assert_ (eqb next_gen new_reader);
  n ← read_next_gen new_reader; _ ← assert_ (eqb n None);
  _ ← drop_gen next_gen;
  l ← rcu_collect;
  _ ← assert_ (eqb l (filter (fun v => v ≠ 65 /\ v mod 2 ≠ 0) (seqZ 1 128)));
  n ← rcu_allocated; _ ← assert_ (eqb n 130);
  x ← reader_get_unchecked 0; _ ← assert_ (eqb x 0);
  x ← reader_get_unchecked 129; _ ← assert_ (eqb x 129);
  _ ← reader_drop old_reader;
  n ← rcu_allocated; m ← rcu_len; _ ← assert_ (eqb n m);
  _ ← rcu_insert_ok 999;
  _ ← reader_drop new_reader; rcu_drop slab.
Definition rcu_iter_mut_selective_removal_test : outcome unit :=
  run_test 130 rcu_iter_mut_selective_removal.

Definition rcu_iter_mut_retained_proxies (slab : rcu_cslab) : M unit :=
  _ ← rcu_insert_each (seqZ 0 3);
  let generation := cur_gen slab in
  iter ← rcu_iter_mut;
  '(o, iter) ← iter_mut_next slab iter; first ← unwrap_m o;
  '(o, iter) ← iter_mut_next slab iter; second ← unwrap_m o;
  slab ← iter_mut_drop slab;
  o ← upgrade generation; strong_gen ← unwrap_m o;
  n ← read_next_gen strong_gen; next_gen ← unwrap_m n;
  n ← read_next_gen next_gen; _ ← assert_ (eqb n None);
  _ ← drop_gen strong_gen;
  x ← entry_deref first; _ ← assert_ (eqb x 0);
  _ ← entry_remove first;
  n ← drops; _ ← assert_ (eqb n 0);
  x ← entry_deref second; _ ← assert_ (eqb x 1);
  _ ← entry_remove second;
  o ← upgrade generation; _ ← assert_ (eqb o None);
  n ← drops; _ ← assert_ (eqb n 2);
  n ← rcu_len; _ ← assert_ (eqb n 1);
  n ← rcu_allocated; _ ← assert_ (eqb n 1);
  x ← rcu_get 2; _ ← assert_ (eqb x (Some 2));
  _ ← rcu_drop slab;
  n ← drops; assert_ (eqb n 3).
Definition rcu_iter_mut_retained_proxies_test : outcome unit :=
  run_test 3 rcu_iter_mut_retained_proxies.

(** The [panic!] of the test is outside of the lock, and drops the iterator as
    a return does. *)
Definition rcu_iter_mut_early_exit (slab : rcu_cslab) : M unit :=
  _ ← rcu_insert_each (seqZ 0 4);
  iter ← rcu_iter_mut;
  '(o, _) ← iter_mut_next slab iter; entry ← unwrap_m o; _ ← entry_remove entry;
  slab ← iter_mut_drop slab;
  n ← rcu_len; _ ← assert_ (eqb n 3);
  n ← rcu_allocated; _ ← assert_ (eqb n 3);
  x ← rcu_get 0; _ ← assert_ (eqb x None);
  x ← rcu_get 1; _ ← assert_ (eqb x (Some 1));
  iter ← rcu_iter_mut;
  '(o, _) ← iter_mut_next slab iter; entry ← unwrap_m o; _ ← entry_remove entry;
  slab ← iter_mut_drop slab;
  n ← rcu_len; _ ← assert_ (eqb n 2);
  n ← rcu_allocated; _ ← assert_ (eqb n 2);
  x ← rcu_get 1; _ ← assert_ (eqb x None);
  rcu_drop slab.
Definition rcu_iter_mut_early_exit_test : outcome unit := run_test 4 rcu_iter_mut_early_exit.

(** [slab.iter_mut().map(|entry| *entry).collect()]: each entry is dropped. *)
Fixpoint deref_each (fuel : nat) (slab : rcu_cslab) (iter : iter_mut) : M (list Z) :=
  match fuel with
  | O => fail OutOfFuel
  | S fuel' =>
      '(o, iter) ← iter_mut_next slab iter;
      match o with
      | None => mret []
      | Some entry =>
          x ← entry_deref entry; _ ← entry_drop entry;
          l ← deref_each fuel' slab iter; mret (x :: l)
      end
  end.

Definition rcu_iter_mut_no_removal (slab : rcu_cslab) : M unit :=
  old_reader ← rcu_reader slab;
  iter ← rcu_iter_mut;
  _ ← assert_ (eqb (iter_mut_size_hint iter).1 0);
  '(o, iter) ← iter_mut_next slab iter; _ ← assert_ (eqb (e_idx <$> o) None);
  '(o, iter) ← iter_mut_next_back slab iter; _ ← assert_ (eqb (e_idx <$> o) None);
  slab ← iter_mut_drop slab;
  n ← read_next_gen old_reader; next_gen ← unwrap_m n;
  _ ← clone_gen next_gen;
  _ ← assert_ (eqb next_gen (cur_gen slab));
  _ ← rcu_insert_ok 123; _ ← rcu_insert_ok 456;
  iter ← rcu_iter_mut;
  l ← deref_each 3 slab iter; _ ← assert_ (eqb l [123; 456]);
  slab ← iter_mut_drop slab;
  n ← rcu_len; _ ← assert_ (eqb n 2);
  n ← rcu_allocated; _ ← assert_ (eqb n 2);
  _ ← drop_gen next_gen; _ ← reader_drop old_reader; rcu_drop slab.
Definition rcu_iter_mut_no_removal_test : outcome unit := run_test 2 rcu_iter_mut_no_removal.

(** [(0..130).all(|idx| !new_reader.contains_key(idx))] *)
Fixpoint contains_none (l : list Z) : M bool :=
  match l with
  | [] => mret true
  | i :: l' => b ← reader_contains_key i; if (b : bool) then mret false else contains_none l'
  end.

Definition rcu_clear_script (slab : rcu_cslab) : M unit :=
  _ ← rcu_insert_each (seqZ 0 130);
  oldest_reader ← rcu_reader slab;
  _ ← rcu_mark_removed slab 1;
  '(slab, middle_reader) ← schedule_finalization slab;
  _ ← rcu_mark_removed slab 64;
  '(slab, new_reader) ← rcu_clear slab;
  n ← rcu_len; _ ← assert_ (eqb n 0);
  n ← rcu_allocated; _ ← assert_ (eqb n 130);
  _ ← assert_ (eqb (rcu_capacity slab) 130);
  n ← drops; _ ← assert_ (eqb n 0);
  it ← reader_iter;
  '(o, _) ← read_storage (fun c : cslab Z => iter_next (slab_storage c) it); _ ← assert_ (eqb o None);
  b ← contains_none (seqZ 0 130); _ ← assert_ b;
  k ← rcu_vacant_key; _ ← assert_ (eqb k (Err tt));
  n ← read_next_gen middle_reader; next_gen ← unwrap_m n;
  _ ← assert_ (eqb next_gen new_reader);
  n ← read_next_gen next_gen; _ ← assert_ (eqb n None);
  _ ← reader_drop middle_reader;
  n ← drops; _ ← assert_ (eqb n 0);
  _ ← reader_drop oldest_reader;
  n ← drops; _ ← assert_ (eqb n 130);
  n ← rcu_allocated; _ ← assert_ (eqb n 0);
  _ ← reader_drop new_reader;
  _ ← rcu_insert_each (seqZ 0 130);
  '(slab, reader) ← rcu_clear slab; _ ← reader_drop reader;
  n ← drops; _ ← assert_ (eqb n 260);
  n ← rcu_allocated; _ ← assert_ (eqb n 0);
  _ ← rcu_drop slab;
  n ← drops; assert_ (eqb n 260).
Definition rcu_clear_test : outcome unit := run_test 130 rcu_clear_script.

Definition rcu_clear_empty_with_pending_removals (slab : rcu_cslab) : M unit :=
  idx ← rcu_insert_ok 123;
  _ ← rcu_mark_removed slab idx;
  n ← rcu_len; _ ← assert_ (eqb n 0);
  n ← rcu_allocated; _ ← assert_ (eqb n 1);
  '(slab, reader) ← rcu_clear slab;
  x ← reader_get idx; _ ← assert_ (eqb x None);
  n ← rcu_allocated; _ ← assert_ (eqb n 0);
  '(slab, reader') ← rcu_clear slab; _ ← reader_drop reader';
  n ← rcu_len; _ ← assert_ (eqb n 0);
  n ← rcu_allocated; _ ← assert_ (eqb n 0);
  i ← rcu_insert_ok 456; _ ← assert_ (eqb i idx);
  _ ← reader_drop reader; rcu_drop slab.
Definition rcu_clear_empty_with_pending_removals_test : outcome unit :=
  run_test 1 rcu_clear_empty_with_pending_removals.

(** ** The loom tests *)

(** The main thread makes calls of the writer, another thread calls of the
    reader 0, in every interleaving of their accesses and for every choice of a
    load; [ok] tells the answers that the assertions accept, and [k] goes on
    when both threads have come to an end. *)
Section model.
Context (ord : orderings) (ok : resp Z -> bool) (k : sys Z -> bool).

Definition started (o : option (outcome (resp Z * sys Z))) (k' : sys Z -> bool) : bool :=
  match o with Some (Ret (a, y)) => ok a && k' y | _ => false end.

(** A load may return any message of its location that the view allows. *)
Definition choices {A} (m : mem Z) (p : prog Z A) : list nat :=
  match p with PLoad l _ _ => seq 0 (length (m_hist m l)) | _ => [0%nat] end.

Definition continued {A} (m : mem Z) (p : prog Z A) (o : nat -> option (outcome (resp Z * sys Z)))
    (k' : sys Z -> bool) : bool :=
  let next := filter (fun o' => is_Some o') (o <$> choices m p) in
  negb (eqb (length next) 0%nat) && forallb (fun o' => started o' k') next.

Definition the_reader_prog (y : sys Z) : option (prog Z (rresp Z)) := r ← y_readers y !! 0%nat; r_prog r.

Fixpoint interleave (fuel : nat) (main thread : list (event Z)) (y : sys Z) : bool :=
  match fuel with
  | O => false
  | S fuel' =>
      match y_prog y, main with
      | Some (_, p), _ =>
          continued (y_mem y) p (fun c => exec ord y (EWriter c)) (interleave fuel' main thread)
      | None, e :: main' => started (exec ord y e) (interleave fuel' main' thread)
      | None, [] => true
      end
      && match the_reader_prog y, thread with
         | Some p, _ =>
             continued (y_mem y) p (fun c => exec ord y (EReader 0 c)) (interleave fuel' main thread)
         | None, e :: thread' => started (exec ord y e) (interleave fuel' main thread')
         | None, [] => true
         end
      && match y_prog y, main, the_reader_prog y, thread with
         | None, [], None, [] => k y
         | _, _, _, _ => true
         end
  end.
End model.

(** [Some(&x) => assert_eq!(x, 123), None => ()] and [assert_eq!(.., None)] *)
Definition got_123 (a : resp Z) : bool :=
  match a with AReader (RGot _ (Some x)) => eqb x 123 | _ => true end.
Definition got_none (a : resp Z) : bool :=
  match a with AReader (RGot _ (Some x)) => false | _ => true end.

Definition one_thread (ord : orderings) (events : list (event Z)) (k : sys Z -> bool) (y : sys Z) : bool :=
  interleave ord (fun _ => true) k 16 events [] y.

Definition concurrent_insert_get_test (ord : orderings) : bool :=
  one_thread ord [ENewReader]
    (interleave ord got_123 (fun _ => true) 16 [EInsert 123] [EGet 0 0])
    (sys_new 4).

(** The thread of the first reader drops it, and has been joined before the
    second one is made. *)
Definition concurrent_remove_get_test (ord : orderings) : bool :=
  one_thread ord [EInsert 123; ENewReader]
    (interleave ord got_123
       (one_thread ord [EDrop 0; ENewReader]
          (interleave ord got_none (fun _ => true) 16 [EFinalize 0] [EGet 0 0]))
       16 [EMark 0] [EGet 0 0])
    (sys_new 4).

(** The main thread of the last one; [here n] is what the other thread does when
    the main thread has come to its [n]th call. *)
Fixpoint remove_0 (fuel : nat) (slab : rcu_cslab) (iter : iter_mut) (here : nat -> M unit) (n : nat)
  : M nat :=
  match fuel with
  | O => fail OutOfFuel
  | S fuel' =>
      _ ← here n;
      '(o, iter) ← iter_mut_next slab iter;
      match o with
      | None => mret (S n)
      | Some entry =>
          _ ← here (S n);
          _ ← (if e_idx entry =? 0 then entry_remove entry else entry_drop entry);
          remove_0 fuel' slab iter here (S (S n))
      end
  end.

Definition concurrent_rcu_iter_mut_get_main (thread : nat -> nat -> M unit) (slab : rcu_cslab) : M unit :=
  _ ← rcu_insert_ok 123; _ ← rcu_insert_ok 456;
  r ← rcu_reader slab;
  let here := thread r in
  _ ← here 0%nat; iter ← rcu_iter_mut;
  n ← remove_0 3 slab iter here 1;
  _ ← assert_ (eqb n 6%nat);
  _ ← here 6%nat; slab ← iter_mut_drop slab;
  _ ← here 7%nat; reader ← rcu_reader slab;
  _ ← here 8%nat; o ← reader_get 0; _ ← assert_ (eqb o None);
  _ ← here 9%nat; o ← reader_get 1; _ ← assert_ (eqb o (Some 456));
  _ ← here 10%nat; (* join *)
  n ← rcu_allocated; _ ← assert_ (eqb n 1);
  i ← rcu_insert_ok 789; assert_ (eqb i 0).

(** The other thread: it takes the references, reads them, and drops the reader,
    at the points [a], [b] and [c]. *)
Definition concurrent_rcu_iter_mut_get_thread (a b c : nat) (r n : nat) : M unit :=
  let read := (x ← reader_get_unchecked 0; y ← reader_get_unchecked 1;
               assert_ (eqb x 123 && eqb y 456)) : M unit in
  _ ← (if eqb n a then read else mret tt);
  _ ← (if eqb n b then read else mret tt);
  if eqb n c then reader_drop r else mret tt.

Definition concurrent_rcu_iter_mut_get_test (a b c : nat) : outcome unit :=
  run_test 2 (concurrent_rcu_iter_mut_get_main (concurrent_rcu_iter_mut_get_thread a b c)).

(** ** The tests pass *)

Example cslab_tests_pass :
  Forall (.= Ret tt)
    [basic_test; at_capacity_test; removal_test; removal_freelist_reuse_test; reader_test;
     removal_drop_test; container_drop_test; iter_test; iter_bidi_test; iter_large_test].
Proof. by_decide. Qed.

Example rcu_tests_pass :
  Forall (.= Ret tt)
    [rcu_iter_mut_selective_removal_test; rcu_iter_mut_retained_proxies_test;
     rcu_iter_mut_early_exit_test; rcu_iter_mut_no_removal_test; rcu_clear_test;
     rcu_clear_empty_with_pending_removals_test].
Proof. by_decide. Qed.

(** With the orderings of the source; the first one fails when the store [Ib] of
    [insert] or the load [Gb] of [get] is relaxed. *)
Example loom_cslab_tests_pass :
  concurrent_insert_get_test source_orderings = true
  /\ concurrent_remove_get_test source_orderings = true
  /\ concurrent_insert_get_test (mkOrd false true true) = false
  /\ concurrent_insert_get_test (mkOrd true true false) = false.
Proof. by_decide. Qed.

Example loom_rcu_test_passes a b c :
  (a <= b <= c)%nat -> (c <= 10)%nat -> concurrent_rcu_iter_mut_get_test a b c = Ret tt.
Proof.
  intros Hab Hc.
  assert (Forall (fun c => Forall (fun b => Forall (fun a =>
      (a <= b <= c)%nat -> concurrent_rcu_iter_mut_get_test a b c = Ret tt)
    (seq 0 11)) (seq 0 11)) (seq 0 11)) as H by by_decide.
  rewrite Forall_forall in H. specialize (H c ltac:(apply elem_of_seq; lia)).
  rewrite Forall_forall in H. specialize (H b ltac:(apply elem_of_seq; lia)).
  rewrite Forall_forall in H. apply (H a); [apply elem_of_seq; lia|done].
Qed.
